(* ===== verification/_CoqProject ===== *)
-Q . S2P
Prelude.v
RustStr.v
Interfaces.v
Float64.v
FloatError.v
WasmAbi.v
Observability.v
Balancer.v
Router.v
Security.v
RateLimit.v
LimiterBounds.v
LimiterSpec.v
TokenRate.v
Config.v
Resilience.v
Plugin.v
Transform.v
Codec.v
Effects.v
Handler.v
HandlerBounds.v
Server.v
Composition.v
Wire.v
Schema.v
Bootstrap.v
ResponseTransformer.v
TestFilter.v
Conformance.v
