(* ===== verification/Prelude.v ===== *)
(** * Verification of gateway-core-rust

    The program is the Rust gateway slice of the repository
    (src/gateway-core-rust/src): an HTTP reverse proxy built on axum and
    reqwest.  A request is routed, run through declared plugins, authenticated,
    authorised, rate limited, possibly delayed or aborted by fault injection,
    and forwarded with retries to a target of an upstream that the balancer
    chooses among the targets whose health state allows it; response-phase
    plugins and header transforms are applied to the answer.  Health checkers,
    a metrics endpoint and a graceful shutdown run beside the requests.

    ** Files and what they model

    - [Prelude], [RustStr], [Float64]: what the code uses of the Rust standard
      library.  Machine integers are [Z] with their width written out; an
      overflowing [+] panics in the [Debug] profile and wraps in [Release]
      ([add_uint], [sum_uint]), atomics always wrap.  [Instant]s and
      [Duration]s are nanoseconds.  A [str] is its UTF-8 bytes.  An [f64] is a
      binary64 number of the standard library's SpecFloat, with the rounding
      of every operation; [FloatError] bounds the rounding.
    - [Interfaces]: one class per library the code calls ([HeaderMapOps],
      [JsonOps], [JwtOps], [Hasher]), one class of documented laws where
      theorems need them, and a small reference instance of each, on which the
      witnesses are evaluated.
    - [Balancer] (balancer.rs): [select_target] with its three strategies.
    - [Router] (router.rs): the route records and [match_route].
    - [Security] (security.rs): [authenticate], [authenticate_mode],
      [authorize] and the extraction of claims and headers.
    - [RateLimit] (rate_limit.rs): [check_with_context], as a transition of the
      map of limiter states; [run_checks] is a sequence of checks in the order
      in which they take the lock.
    - [Config] (config.rs): the records, their defaults, [validate] and
      [load_from_path].  File system and parsers are parameters here.
    - [Codec]: what deriving [Serialize] and [Deserialize] means: a [codec]
      writes a value as a JSON tree, reads one or rejects it, and says which
      values the Rust type has ([fits]); combinators for the field attributes,
      the enums' renaming rules, options, vectors and maps, each with its laws
      ([Lawful]).  [Schema] (config.rs, router.rs, security.rs, rate_limit.rs,
      balancer.rs): the codec of every configuration type.  [Wire] (wasm_abi.rs,
      plugin.rs): those of the types written as JSON, and the payload of a Wasm
      call as a text.
    - [Resilience] (resilience.rs): [RuntimeRegistry]; [registry_step] is one
      method call, [run_registry] a sequence of them.
    - [WasmAbi], [Plugin] (wasm_abi.rs, plugin.rs): the sandbox check, the
      parsing of declarations, [PluginManager] with a log of its lifecycle
      calls.
    - [Observability] (observability.rs): the counters and their rendering.
    - [Transform] (main.rs): the pure helpers of the proxy handler.
    - [Effects], [Handler] (main.rs): the proxy handler as a tree of atomic
      effects ([prog]); [exec] and [reaches] are its complete and its possibly
      interrupted traces in an arbitrary environment.
    - [Server] (main.rs): the running gateway as a labelled step relation
      ([sys_step]) over the shared [AppState], the tasks, the health checkers
      and the shutdown; [effect_step] gives the effects their meaning by the
      definitions of [RateLimit], [Resilience] and [Observability].
    - [LimiterBounds] (rate_limit.rs): the ranges of the limiter's states, the
      window bound when checks are committed out of clock order, and what two
      rules of one scope do to each other.  [LimiterSpec]: the limiter as a
      function of the requests accepted before ([run_spec]).  [TokenRate]: the
      long-run rate of the legacy token bucket, with its floating point.
    - [HandlerBounds] (main.rs): a postcondition logic for handler programs
      ([within]), the number of effects of a request ([handler_cost]) and the
      clock readings of its attempts.
    - [Composition] (main.rs): a run of the gateway taken apart into the
      requests it served ([served]), each with the events of its task, so that
      theorems about one request become theorems about all of them.
    - [Bootstrap] (main.rs, observability.rs): [main] from the configuration
      path to the served gateway, with its exits and panics ([ending]) and its
      actions on the outside ([start_action]); [process_log] adds the teardown.
    - [Conformance]: the unit tests of the Rust files as programs over the
      model ([plain_tests], the tests of tokens and the timed tests).
    - [ResponseTransformer] (spec/fixtures/proxy_wasm_filters/response_transformer):
      the Proxy-Wasm filter that transforms response headers, over an interface
      for the host's header functions ([HostHeaders], [HostHeadersLaws]).
    - [TestFilter] (spec/fixtures/proxy_wasm_filters/tests): the Proxy-Wasm
      filter of the integration tests as calls on a host ([calls]), with its
      cache of metrics.

    The definitions keep the code's names; where a record field would clash
    with another, it has a prefix.  A loop of the code is a [Fixpoint] over the
    list or the count it goes through; no definition needs fuel.  The retry
    loop is bounded by [max_attempts], a [u8]; [handler_terminates] bounds the
    whole handler.

    ** What the theorems show

    - The handler ([Handler]): nothing is sent upstream without passing every
      check before, even when the task is interrupted; the number of requests
      sent is bounded; every answer is recorded; a validated configuration
      always finds its upstream; fault injection does what it says.
    - The gateway ([Server]): the in-flight counter is the number of live
      guards; the shutdown waits for them or for its deadline, and always can
      finish; later requests are refused; the race between the draining check
      and the guard exists; the metrics and the quotas are exact for every
      interleaving; the health checker of an interval of zero panics.
    - Time and termination ([HandlerBounds]): every handler run is bounded and
      can be continued to its end, a response unless a number overflows; no attempt starts after the deadline.
    - Composition: every request that leaves in any run was permitted by the
      history of its target; the registries are what the upstreams answered to
      requests and probes; a quota bounds the upstream traffic, retries
      included; no request's task panics when the configuration's numbers do
      not overflow.
    - Process start: when [main] serves, exits or panics; initialised plugins
      are torn down exactly once; what leaves a served gateway was admitted by
      the file's configuration, in time; no request's task of a served gateway
      panics.
    - Rate limits: all-or-nothing charging, the window, quota and burst bounds,
      the ranges of the states, the loss of memory when two rules have one
      scope; with a rule per scope, checks in clock order answer as the
      specification on histories does; the token bucket's rate over any stretch
      of time, and the clients it never refuses.
    - The configuration's format: whatever is read has the ranges of the Rust
      types ([GatewayConfig_typed], used at the process start), absent sections
      have their defaults, and a mode without its section rejects everything.
    - Health: the stored state refines a specification on histories; an open
      breaker blocks for [open_ms]; the half-open budget; the two ways in which
      a target becomes unavailable for good.
    - Routing, balancing, security, configuration, plugins, transforms: the
      functional specification of each operation, errors included; which
      requests the sandbox's limit denies, by the length of their path.
    - The response transformer: what the configured rules make of the values of
      a header, what renaming does when the source is absent, and which rule
      texts are accepted.
    - The test filter: a configuration survives being printed; tests run in
      their phase only; a metric is defined once.
    - Conformance: the unit tests pass, those of tokens by what the token
      library documents, and the timed ones exactly under stated delays.

    ** What is not modelled

    In [Bootstrap] the environment, the file system, the tracing filter, the
    client's construction, the parsing of addresses and the binding of the
    socket are parameters, and axum's dispatch to the routes is only recorded.
    The streaming of a response body after the handler returned is not a step:
    a task ends with its response.  The sleep of a handler is an effect without
    duration: time is what the clock readings say; that of the drain loop lasts
    at least its milliseconds.  A call under a lock is one step, and the relaxed
    atomics are sequentially consistent.  The addition of a drain timeout to the
    current [Instant], which panics when it leaves the clock's range, is on
    unbounded integers.  A poisoned lock is recovered by the code and changes
    nothing.  The time a rate-limit check uses is read before its lock is taken;
    [Server] lets it be any earlier time, and the window theorems say which
    order of readings they assume.

    Of serde_json, the parser from a text to its tree and the escapes of
    strings are parameters, the latter with laws; serde_yaml is a parameter
    that yields values of the Rust types.  Which of several errors a rejected
    document reports is not modelled.

    The Proxy-Wasm host is an interface ([HostHeaders], [FilterHost]); log lines
    are left out everywhere. *)

From stdpp Require Export prelude gmap strings list pretty.
From Stdlib Require Export Lia ZArith.

#[export] Set Default Goal Selector "!".

(** ** Fallible and panicking computations *)

(** Rust's [Result<A, E>]; the error type comes first so that [result E] is a
    monad. *)
Inductive result (E A : Type) : Type :=
| Ok (a : A)
| Err (e : E).
Arguments Ok {E A} a.
Arguments Err {E A} e.

#[export] Instance result_ret E : MRet (result E) := λ A a, Ok a.
#[export] Instance result_bind E : MBind (result E) := λ A B f m,
  match m with Ok a => f a | Err e => Err e end.
#[export] Instance result_fmap E : FMap (result E) := λ A B f m,
  match m with Ok a => Ok (f a) | Err e => Err e end.

(** [ok_or] is [Option::ok_or_else]; [map_err] is [Result::map_err]. *)
Definition ok_or {E A} (e : E) (o : option A) : result E A :=
  match o with Some a => Ok a | None => Err e end.

Definition map_err {E F A} (f : E → F) (m : result E A) : result F A :=
  match m with Ok a => Ok a | Err e => Err (f e) end.

Definition is_ok {E A} (m : result E A) : bool :=
  match m with Ok _ => true | Err _ => false end.

(** A computation that may panic (an arithmetic overflow with overflow checks
    on, a remainder by zero, a slice out of range). *)
Inductive outcome (A : Type) : Type :=
| Done (a : A)
| Panicked (msg : string).
Arguments Done {A} a.
Arguments Panicked {A} msg.

#[export] Instance result_eq_dec `{EqDecision E, EqDecision A} : EqDecision (result E A).
Proof. solve_decision. Defined.
#[export] Instance outcome_eq_dec `{EqDecision A} : EqDecision (outcome A).
Proof. solve_decision. Defined.

#[export] Instance outcome_ret : MRet outcome := λ A a, Done a.
#[export] Instance outcome_bind : MBind outcome := λ A B f m,
  match m with Done a => f a | Panicked msg => Panicked msg end.

Definition is_done {A} (m : outcome A) : bool :=
  match m with Done _ => true | Panicked _ => false end.

(** ** Machine integers

    A value of an unsigned type of width [w] is a [Z] in [0, 2^w).  Rust's
    [+] and [sum] panic on overflow in a debug build and wrap in a release
    build: [profile] says which. *)
Inductive profile : Type := Debug | Release.

Definition umax (w : Z) : Z := 2 ^ w - 1.
Definition uint (w z : Z) : Prop := (0 ≤ z < 2 ^ w)%Z.
Definition wrap (w z : Z) : Z := z `mod` 2 ^ w.

Definition checked_arith (p : profile) (w z : Z) (msg : string) : outcome Z :=
  if bool_decide (0 ≤ z < 2 ^ w)%Z then Done z
  else match p with Debug => Panicked msg | Release => Done (wrap w z) end.

Definition add_uint (p : profile) (w a b : Z) : outcome Z :=
  checked_arith p w (a + b)%Z "attempt to add with overflow".

Definition sub_uint (p : profile) (w a b : Z) : outcome Z :=
  checked_arith p w (a - b)%Z "attempt to subtract with overflow".

Definition rem_uint (a b : Z) : outcome Z :=
  if bool_decide (b = 0)%Z
  then Panicked "attempt to calculate the remainder with a divisor of zero"
  else Done (a `mod` b)%Z.

Definition saturating_add (w a b : Z) : Z := Z.min (a + b) (umax w).

(** [fetch_add]/[fetch_sub] on an atomic always wrap. *)
Definition atomic_add (w a b : Z) : Z := wrap w (a + b).
Definition atomic_sub (w a b : Z) : Z := wrap w (a - b).

(** [Iterator::sum] over a [w]-bit type, from zero and left to right. *)
Fixpoint sum_uint_from (p : profile) (w acc : Z) (l : list Z) : outcome Z :=
  match l with
  | [] => Done acc
  | x :: l => acc' ← add_uint p w acc x; sum_uint_from p w acc' l
  end.
Definition sum_uint (p : profile) (w : Z) (l : list Z) : outcome Z :=
  sum_uint_from p w 0%Z l.

(** Mathematical sum, the specification of [sum_uint] when nothing overflows. *)
Definition sumZ (l : list Z) : Z := foldr Z.add 0%Z l.

(** ** Time

    An [Instant] is a number of nanoseconds on the monotonic clock, a
    [Duration] a non-negative number of nanoseconds.  [duration_since]
    saturates at zero. *)
Abbreviation instant := Z (only parsing).
Abbreviation duration := Z (only parsing).

Definition duration_since (now earlier : instant) : duration :=
  Z.max 0 (now - earlier).
Definition from_secs (s : Z) : duration := s * 1000000000.
Definition from_millis (ms : Z) : duration := ms * 1000000.

(** ** Iterators

    [Iterator::min_by_key] keeps the first of several minima,
    [Iterator::max_by_key] the last of several maxima. *)
Section iter_by_key.
Context {A : Type} (key : A → Z).

Fixpoint min_by_key_from (best : A) (l : list A) : A :=
  match l with
  | [] => best
  | x :: l => min_by_key_from (if (key x <? key best)%Z then x else best) l
  end.

Fixpoint max_by_key_from (best : A) (l : list A) : A :=
  match l with
  | [] => best
  | x :: l => max_by_key_from (if (key best <=? key x)%Z then x else best) l
  end.

Definition min_by_key (l : list A) : option A :=
  match l with [] => None | x :: l => Some (min_by_key_from x l) end.

Definition max_by_key (l : list A) : option A :=
  match l with [] => None | x :: l => Some (max_by_key_from x l) end.
End iter_by_key.

(** [Iterator::filter] with a Boolean test, and [Iterator::find]. *)
Definition filterb {A} (f : A → bool) : list A → list A := List.filter f.
Definition find_first {A} (f : A → bool) : list A → option A := List.find f.

#[global] Arguments filterb : simpl never.

(** [Iterator::count] of the elements that pass a test. *)
Definition countb {A} (f : A → bool) (l : list A) : nat := length (filterb f l).

(** ** Tactics *)

(** Case analysis on the scrutinee of the goal's (or a hypothesis') match or
    [if], keeping the equation. *)
Ltac case_goal :=
  match goal with
  | |- context [match ?x with _ => _ end] => destruct x eqn:?
  end.
Ltac case_hyp H :=
  match type of H with
  | context [match ?x with _ => _ end] => destruct x eqn:?
  end.
(** Turn Boolean integer comparisons into propositions, then [lia]. *)
Ltac bool_to_Z :=
  repeat match goal with
  | H : (_ <? _)%Z = true |- _ => apply Z.ltb_lt in H
  | H : (_ <? _)%Z = false |- _ => apply Z.ltb_ge in H
  | H : (_ <=? _)%Z = true |- _ => apply Z.leb_le in H
  | H : (_ <=? _)%Z = false |- _ => apply Z.leb_gt in H
  | H : (_ =? _)%Z = true |- _ => apply Z.eqb_eq in H
  | H : (_ =? _)%Z = false |- _ => apply Z.eqb_neq in H
  | H : bool_decide _ = true |- _ => apply bool_decide_eq_true in H
  | H : bool_decide _ = false |- _ => apply bool_decide_eq_false in H
  | H : _ && _ = true |- _ => apply andb_true_iff in H as [? ?]
  | H : _ || _ = false |- _ => apply orb_false_iff in H as [? ?]
  | H : negb _ = true |- _ => apply negb_true_iff in H
  | H : negb _ = false |- _ => apply negb_false_iff in H
  end.
Ltac zsolve := bool_to_Z; lia.

Create HintDb gateway.
Create Rewrite HintDb gateway.

(** ** Lemmas: machine integers *)

Lemma wrap_small w z : uint w z → wrap w z = z.
Proof. intros ?. unfold wrap. by apply Z.mod_small. Qed.

Lemma wrap_range w z : (0 ≤ w)%Z → uint w (wrap w z).
Proof. intros ?. unfold wrap, uint. apply Z.mod_pos_bound. by apply Z.pow_pos_nonneg. Qed.

Lemma add_uint_done p w a b : uint w (a + b) → add_uint p w a b = Done (a + b)%Z.
Proof. intros ?. unfold add_uint, checked_arith. by rewrite bool_decide_eq_true_2. Qed.

Lemma sub_uint_done p w a b : uint w (a - b) → sub_uint p w a b = Done (a - b)%Z.
Proof. intros ?. unfold sub_uint, checked_arith. by rewrite bool_decide_eq_true_2. Qed.

Lemma add_uint_release w a b :
  (0 ≤ w)%Z → add_uint Release w a b = Done (wrap w (a + b)).
Proof.
  intros Hw. unfold add_uint, checked_arith. case_bool_decide; [|done].
  by rewrite wrap_small.
Qed.

Lemma add_uint_wrap p w a b c : add_uint p w a b = Done c → c = wrap w (a + b).
Proof.
  unfold add_uint, checked_arith. case_bool_decide.
  - intros [= <-]. by rewrite wrap_small.
  - destruct p; [done|]. by intros [= <-].
Qed.

Lemma add_uint_debug_inv w a b c :
  add_uint Debug w a b = Done c → c = (a + b)%Z ∧ uint w c.
Proof. unfold add_uint, checked_arith. case_bool_decide; [by intros [= <-]|done]. Qed.

Lemma rem_uint_done a b : b ≠ 0%Z → rem_uint a b = Done (a `mod` b)%Z.
Proof. intros. unfold rem_uint. by rewrite bool_decide_eq_false_2. Qed.

Lemma saturating_add_range w a b :
  (0 ≤ w)%Z → (0 ≤ a)%Z → (0 ≤ b)%Z → uint w (saturating_add w a b).
Proof.
  intros. unfold saturating_add, uint, umax.
  assert (0 < 2 ^ w)%Z by (by apply Z.pow_pos_nonneg). lia.
Qed.

Lemma sumZ_nonneg l : Forall (λ x, 0 ≤ x)%Z l → (0 ≤ sumZ l)%Z.
Proof. induction 1; simpl; lia. Qed.

Lemma sumZ_cons x l : sumZ (x :: l) = (x + sumZ l)%Z.
Proof. done. Qed.

Lemma sumZ_app l k : sumZ (l ++ k) = (sumZ l + sumZ k)%Z.
Proof. induction l; simpl; lia. Qed.

Lemma sum_uint_from_done p w l : ∀ acc,
  (0 ≤ acc)%Z → Forall (λ x, 0 ≤ x)%Z l → (acc + sumZ l < 2 ^ w)%Z →
  sum_uint_from p w acc l = Done (acc + sumZ l)%Z.
Proof.
  induction l as [|x l IH]; intros acc Hacc Hl Hs; simpl in *.
  { f_equal. lia. }
  apply Forall_cons in Hl as [Hx Hl]. pose proof (sumZ_nonneg l Hl).
  rewrite add_uint_done by (unfold uint; lia). simpl.
  rewrite IH; [f_equal; lia|lia|done|lia].
Qed.

Lemma sum_uint_done p w l :
  Forall (λ x, 0 ≤ x)%Z l → (sumZ l < 2 ^ w)%Z → sum_uint p w l = Done (sumZ l).
Proof. intros. unfold sum_uint. by rewrite sum_uint_from_done by (done || lia). Qed.

Lemma sum_uint_from_release w l : ∀ acc,
  (0 ≤ w)%Z → sum_uint_from Release w acc l = Done acc ∧ l = [] ∨
  sum_uint_from Release w acc l = Done (wrap w (acc + sumZ l)).
Proof.
  induction l as [|x l IH]; intros acc Hw; simpl; [by left|right].
  rewrite add_uint_release by done. simpl.
  destruct (IH (wrap w (acc + x)) Hw) as [[-> ->]| ->]; simpl.
  - f_equal. f_equal. lia.
  - f_equal. unfold wrap. rewrite Z.add_mod_idemp_l by (apply Z.pow_nonzero; lia).
    f_equal. lia.
Qed.

Lemma sum_uint_release w l : (0 ≤ w)%Z → sum_uint Release w l = Done (wrap w (sumZ l)).
Proof.
  intros Hw. unfold sum_uint.
  destruct (sum_uint_from_release w l 0 Hw) as [[-> ->]| ->]; [|done].
  simpl. unfold wrap. by rewrite Z.mod_0_l by (apply Z.pow_nonzero; lia).
Qed.

Lemma sum_uint_from_debug w l : ∀ acc s,
  uint w acc → sum_uint_from Debug w acc l = Done s → s = (acc + sumZ l)%Z ∧ uint w s.
Proof.
  induction l as [|x l IH]; intros acc s Hacc; simpl.
  { intros [= <-]. split; [lia|done]. }
  destruct (add_uint Debug w acc x) eqn:E; simpl; [|done].
  apply add_uint_debug_inv in E as [-> ?]. intros [-> ?]%IH; [|done]. split; [lia|done].
Qed.

Lemma sum_uint_debug_overflow w l :
  (0 ≤ w)%Z → (2 ^ w ≤ sumZ l)%Z → is_done (sum_uint Debug w l) = false.
Proof.
  intros Hw Hl. unfold sum_uint. destruct (sum_uint_from Debug w 0 l) eqn:E; [|done].
  assert (0 < 2 ^ w)%Z by (by apply Z.pow_pos_nonneg).
  apply sum_uint_from_debug in E as [-> [_ ?]]; [lia|]. unfold uint. lia.
Qed.

(** ** Lemmas: minima and maxima *)

Section by_key_lemmas.
Context {A : Type} (key : A → Z).
Implicit Types (l : list A) (x : A).

Lemma min_by_key_from_spec l : ∀ best,
  ∃ i : nat, (best :: l) !! i = Some (min_by_key_from key best l) ∧
    (∀ (j : nat) (y : A), (best :: l) !! j = Some y →
       (key (min_by_key_from key best l) ≤ key y)%Z ∧
       ((j < i)%nat → key (min_by_key_from key best l) < key y)%Z).
Proof.
  induction l as [|x l IH]; intros best; simpl.
  { exists 0. split; [done|]. intros [|j] y [= <-]. split; lia. }
  destruct (key x <? key best)%Z eqn:E; bool_to_Z.
  - destruct (IH x) as (i & Hi & Hmin). exists (S i). split; [done|].
    pose proof (Hmin 0 x eq_refl) as [Hx _].
    intros [|j] y Hy; simpl in Hy; [simplify_eq; lia|].
    destruct (Hmin j y Hy) as [? ?]. split; [done|]. intros. lia.
  - destruct (IH best) as (i & Hi & Hmin).
    pose proof (Hmin 0 best eq_refl) as [Hb Hb'].
    exists (match i with 0 => 0 | S i => S (S i) end). split; [by destruct i|].
    intros [|[|j]] y Hy; simpl in Hy; simplify_eq.
    + split; [done|]. destruct i; [lia|]. intros; apply Hb'; lia.
    + split; [lia|]. destruct i; [lia|]. intros.
      assert (key (min_by_key_from key best l) < key best)%Z by (apply Hb'; lia). lia.
    + destruct (Hmin (S j) y Hy) as [? H2]. split; [done|].
      destruct i; [lia|]. intros; apply H2; lia.
Qed.

Lemma max_by_key_from_spec l : ∀ best,
  ∃ i : nat, (best :: l) !! i = Some (max_by_key_from key best l) ∧
    (∀ (j : nat) (y : A), (best :: l) !! j = Some y →
       (key y ≤ key (max_by_key_from key best l))%Z ∧
       ((i < j)%nat → key y < key (max_by_key_from key best l))%Z).
Proof.
  induction l as [|x l IH]; intros best; simpl.
  { exists 0. split; [done|]. intros [|j] y [= <-]. split; lia. }
  destruct (key best <=? key x)%Z eqn:E; bool_to_Z.
  - destruct (IH x) as (i & Hi & Hmax). exists (S i). split; [done|].
    pose proof (Hmax 0 x eq_refl) as [Hx _].
    intros [|j] y Hy; simpl in Hy; [simplify_eq; lia|].
    destruct (Hmax j y Hy) as [? H2]. split; [done|]. intros. apply H2. lia.
  - destruct (IH best) as (i & Hi & Hmax).
    pose proof (Hmax 0 best eq_refl) as [Hb Hb'].
    exists (match i with 0 => 0 | S i => S (S i) end). split; [by destruct i|].
    intros [|[|j]] y Hy; simpl in Hy; simplify_eq.
    + split; [done|]. destruct i; lia.
    + split; [lia|]. intros. lia.
    + destruct (Hmax (S j) y Hy) as [? H2]. split; [done|].
      intros. apply H2. destruct i; lia.
Qed.
End by_key_lemmas.

(** ** Lemmas: filters *)

Lemma elem_of_filterb {A} (f : A → bool) (l : list A) x :
  x ∈ filterb f l ↔ x ∈ l ∧ f x = true.
Proof. unfold filterb. rewrite !list_elem_of_In. apply List.filter_In. Qed.

Lemma filterb_cons {A} (f : A → bool) x (l : list A) :
  filterb f (x :: l) = if f x then x :: filterb f l else filterb f l.
Proof. done. Qed.

Lemma filterb_app {A} (f : A → bool) l k : filterb f (l ++ k) = filterb f l ++ filterb f k.
Proof. apply List.filter_app. Qed.

Lemma filterb_all {A} (f : A → bool) l : Forall (λ x, f x = true) l → filterb f l = l.
Proof. induction 1 as [|x l Hx Hl IH]; [done|]. by rewrite filterb_cons, Hx, IH. Qed.

Lemma filterb_none {A} (f : A → bool) l : Forall (λ x, f x = false) l → filterb f l = [].
Proof. induction 1 as [|x l Hx Hl IH]; [done|]. by rewrite filterb_cons, Hx. Qed.

Lemma filterb_nil_iff {A} (f : A → bool) (l : list A) :
  filterb f l = [] ↔ ∀ x, x ∈ l → f x = false.
Proof.
  split.
  - intros Hn x Hx. destruct (f x) eqn:E; [|done].
    assert (x ∈ filterb f l) as Hin by (by apply elem_of_filterb).
    rewrite Hn in Hin. by apply not_elem_of_nil in Hin.
  - intros Hall. destruct (filterb f l) as [|x k] eqn:E; [done|].
    assert (x ∈ filterb f l) as [Hx Hf]%elem_of_filterb by (rewrite E; apply list_elem_of_here).
    by rewrite Hall in Hf.
Qed.

(** A split of the filtered list is a split of the list. *)
Lemma filterb_app_inv {A} (f : A → bool) (l k1 k2 : list A) x :
  filterb f l = k1 ++ x :: k2 →
  ∃ l1 l2, l = l1 ++ x :: l2 ∧ filterb f l1 = k1 ∧ filterb f l2 = k2.
Proof.
  revert k1. induction l as [|y l IH]; intros k1; [by destruct k1|].
  rewrite filterb_cons. destruct (f y) eqn:Ey.
  - destruct k1 as [|z k1]; simpl; intros [= -> H].
    + by exists [], l.
    + destruct (IH _ H) as (l1 & l2 & -> & <- & <-). exists (z :: l1), l2.
      by rewrite filterb_cons, Ey.
  - intros H. destruct (IH _ H) as (l1 & l2 & -> & <- & <-). exists (y :: l1), l2.
    by rewrite filterb_cons, Ey.
Qed.

(** ** Lemmas: counting *)

Lemma countb_cons {A} (f : A → bool) x l :
  countb f (x :: l) = (if f x then 1 else 0) + countb f l.
Proof. unfold countb. rewrite filterb_cons. by destruct (f x). Qed.

Lemma countb_nil {A} (f : A → bool) : countb f [] = 0.
Proof. done. Qed.

Lemma countb_app {A} (f : A → bool) l k : countb f (l ++ k) = countb f l + countb f k.
Proof. unfold countb, filterb. by rewrite List.filter_app, length_app. Qed.

Lemma countb_ext {A} (f g : A → bool) l :
  (∀ x, x ∈ l → f x = g x) → countb f l = countb g l.
Proof.
  induction l as [|x l IH]; intros H; [done|].
  rewrite !countb_cons, (H x) by apply list_elem_of_here.
  rewrite IH; [done|]. intros; apply H; by apply list_elem_of_further.
Qed.

Lemma countb_fmap {A B} (g : A → B) (f : B → bool) l :
  countb f (g <$> l) = countb (λ x, f (g x)) l.
Proof. induction l as [|x l IH]; [done|]. by rewrite fmap_cons, !countb_cons, IH. Qed.

Lemma countb_const {A} (b : bool) (l : list A) :
  countb (λ _, b) l = if b then length l else 0.
Proof. induction l; [by destruct b|]. rewrite countb_cons, IHl. by destruct b. Qed.

Lemma countb_le {A} (f g : A → bool) l :
  (∀ x, x ∈ l → f x = true → g x = true) → countb f l ≤ countb g l.
Proof.
  induction l as [|x l IH]; intros H; [done|]. rewrite !countb_cons.
  assert (countb f l ≤ countb g l) by (apply IH; intros; apply H; [by apply list_elem_of_further|done]).
  destruct (f x) eqn:Ef; [rewrite H by (done || apply list_elem_of_here); lia|].
  destruct (g x); lia.
Qed.

Lemma countb_length {A} (f : A → bool) l : countb f l ≤ length l.
Proof.
  transitivity (countb (λ _, true) l); [by apply countb_le|]. by rewrite countb_const.
Qed.

#[export] Instance countb_Permutation {A} (f : A → bool) : Proper ((≡ₚ) ==> (=)) (countb f).
Proof. induction 1; rewrite ?countb_cons; lia. Qed.

Lemma seqZ_shift a d n : seqZ (a + d) n = (λ c, c + d)%Z <$> seqZ a n.
Proof. rewrite (Z.add_comm a), <-fmap_add_seqZ. apply list_fmap_ext. intros; lia. Qed.

(** Consecutive numbers, as many as the modulus, hit every residue once. *)
Lemma seqZ_residues n base :
  (0 < n)%Z → (0 ≤ base)%Z → ((λ s, s `mod` n)%Z <$> seqZ base n) ≡ₚ seqZ 0 n.
Proof.
  intros Hn Hb. revert base Hb.
  apply (natlike_ind (λ base, ((λ s, s `mod` n)%Z <$> seqZ base n) ≡ₚ seqZ 0 n)).
  - apply reflexive_eq, list_eq_same_length with (n := length (seqZ 0 n)); [done|by rewrite length_fmap|].
    intros i x y _. rewrite list_lookup_fmap. intros Hx Hy. rewrite Hy in Hx.
    apply lookup_seqZ in Hy as [-> Hi]. simpl in Hx. simplify_eq. by rewrite Z.mod_small by lia.
  - intros b Hb IH. rewrite <-IH. rewrite (seqZ_cons b) by lia.
    pose proof (seqZ_app (Z.succ b) (Z.pred n) 1 ltac:(lia) ltac:(lia)) as E.
    replace (Z.pred n + 1)%Z with n in E by lia.
    rewrite E, fmap_app, fmap_cons.
    rewrite (seqZ_cons _ 1) by lia. simpl.
    replace (Z.succ b + Z.pred n)%Z with (b + 1 * n)%Z by lia.
    rewrite Z_mod_plus_full. by rewrite Permutation_app_comm.
Qed.

#[export] Hint Resolve saturating_add_range wrap_range : gateway.
#[export] Hint Rewrite @elem_of_filterb : gateway.
