(* ===== verification/RustStr.v ===== *)
(** * The string functions of the Rust standard library the program uses

    A [str] is its sequence of UTF-8 bytes.  [trim] and [split_whitespace]
    recognise the Unicode [White_Space] characters by their encodings;
    [trim_end] matches the encodings backwards, which is exact on UTF-8
    because the code is self-synchronising. *)

From S2P Require Export Prelude.
From Stdlib Require Export Ascii.

#[local] Open Scope string_scope.
#[global] Arguments String.append !_ _ : simpl nomatch.

Definition is_empty (s : string) : bool :=
  match s with EmptyString => true | _ => false end.

(** [str::len]: the number of bytes. *)
Definition str_len (s : string) : Z := Z.of_nat (String.length s).

Definition starts_with (s pre : string) : bool := String.prefix pre s.

(** The bytes of [s] from offset [n]; [None] when [n] is past the end. *)
Fixpoint drop_bytes (n : nat) (s : string) {struct n} : option string :=
  match n, s with
  | 0, s => Some s
  | S n, String _ s => drop_bytes n s
  | S _, EmptyString => None
  end.

(** [&s[n..]] panics past the end and inside a character: a character
    boundary is a byte that is not a continuation byte [10xxxxxx]. *)
Definition is_continuation (a : ascii) : bool :=
  let n := N_of_ascii a in (128 <=? n)%N && (n <? 192)%N.

Definition starts_inside_char (s : string) : bool :=
  match s with EmptyString => false | String a _ => is_continuation a end.

Definition slice_from (n : nat) (s : string) : outcome string :=
  match drop_bytes n s with
  | None => Panicked "byte index out of bounds"
  | Some r =>
      if starts_inside_char r then Panicked "byte index is not a char boundary"
      else Done r
  end.

(** [str::strip_prefix]. *)
Definition strip_prefix (s pre : string) : option string :=
  if starts_with s pre then drop_bytes (String.length pre) s else None.

(** [to_ascii_lowercase] and [eq_ignore_ascii_case]. *)
Definition lower_ascii (a : ascii) : ascii :=
  let n := N_of_ascii a in
  if (65 <=? n)%N && (n <=? 90)%N then ascii_of_N (n + 32) else a.

Fixpoint to_ascii_lowercase (s : string) : string :=
  match s with
  | EmptyString => EmptyString
  | String a s => String (lower_ascii a) (to_ascii_lowercase s)
  end.

Definition eq_ignore_ascii_case (s t : string) : bool :=
  bool_decide (to_ascii_lowercase s = to_ascii_lowercase t).

(** The length in bytes of the white-space character [s] starts with, and 0
    when it starts with none.  The Unicode [White_Space] characters are
    U+0009..U+000D, U+0020, U+0085, U+00A0, U+1680, U+2000..U+200A, U+2028,
    U+2029, U+202F, U+205F and U+3000. *)
Definition ascii_ws (n : N) : bool := ((9 <=? n) && (n <=? 13) || (n =? 32))%N.

Definition ws2 (b1 b2 : N) : bool := ((b1 =? 194) && ((b2 =? 133) || (b2 =? 160)))%N.

Definition ws3 (b1 b2 b3 : N) : bool :=
  ((b1 =? 225) && (b2 =? 154) && (b3 =? 128)
   || (b1 =? 226) && (b2 =? 128)
      && ((128 <=? b3) && (b3 <=? 138) || (b3 =? 168) || (b3 =? 169) || (b3 =? 175))
   || (b1 =? 226) && (b2 =? 129) && (b3 =? 159)
   || (b1 =? 227) && (b2 =? 128) && (b3 =? 128))%N.

Definition ws_len (s : string) : nat :=
  match s with
  | EmptyString => 0
  | String a r =>
      if ascii_ws (N_of_ascii a) then 1 else
      match r with
      | EmptyString => 0
      | String b r' =>
          if ws2 (N_of_ascii a) (N_of_ascii b) then 2 else
          match r' with
          | EmptyString => 0
          | String c _ => if ws3 (N_of_ascii a) (N_of_ascii b) (N_of_ascii c) then 3 else 0
          end
      end
  end.

(** The same on the reversed bytes. *)
Definition ws_len_rev (s : string) : nat :=
  match s with
  | EmptyString => 0
  | String a r =>
      if ascii_ws (N_of_ascii a) then 1 else
      match r with
      | EmptyString => 0
      | String b r' =>
          if ws2 (N_of_ascii b) (N_of_ascii a) then 2 else
          match r' with
          | EmptyString => 0
          | String c _ => if ws3 (N_of_ascii c) (N_of_ascii b) (N_of_ascii a) then 3 else 0
          end
      end
  end.

(** Drop white space at the front; [skip] bytes of the current white-space
    character are still to be dropped. *)
Fixpoint drop_ws (len : string → nat) (skip : nat) (s : string) : string :=
  match s with
  | EmptyString => EmptyString
  | String a r =>
      match skip with
      | S k => drop_ws len k r
      | 0 => match len s with 0 => s | S k => drop_ws len k r end
      end
  end.

Fixpoint rev_string_onto (s acc : string) : string :=
  match s with
  | EmptyString => acc
  | String a r => rev_string_onto r (String a acc)
  end.
Definition rev_string (s : string) : string := rev_string_onto s "".

Definition trim_start (s : string) : string := drop_ws ws_len 0 s.
Definition trim_end (s : string) : string := rev_string (drop_ws ws_len_rev 0 (rev_string s)).
Definition trim (s : string) : string := trim_end (trim_start s).

(** [str::split] on a byte: always at least one piece. *)
Fixpoint split_on (c : ascii) (s : string) : list string :=
  match s with
  | EmptyString => [""]
  | String a r =>
      if bool_decide (a = c) then "" :: split_on c r
      else match split_on c r with
           | piece :: rest => String a piece :: rest
           | [] => [String a ""]
           end
  end.

(** [str::split_once] on a byte. *)
Fixpoint split_once (c : ascii) (s : string) : option (string * string) :=
  match s with
  | EmptyString => None
  | String a r =>
      if bool_decide (a = c) then Some ("", r)
      else match split_once c r with
           | Some (l, r') => Some (String a l, r')
           | None => None
           end
  end.

(** [str::split_whitespace]: the maximal runs without white space. *)
Fixpoint split_ws_from (skip : nat) (cur s : string) : list string :=
  match s with
  | EmptyString => if is_empty cur then [] else [cur]
  | String a r =>
      match skip with
      | S k => split_ws_from k cur r
      | 0 =>
          match ws_len s with
          | 0 => split_ws_from 0 (cur +:+ String a "") r
          | S k => (if is_empty cur then [] else [cur]) ++ split_ws_from k "" r
          end
      end
  end%list.
Definition split_whitespace (s : string) : list string := split_ws_from 0 "" s.

(** [[T]::join]. *)
Fixpoint join (sep : string) (l : list string) : string :=
  match l with
  | [] => ""
  | [x] => x
  | x :: l => x +:+ sep +:+ join sep l
  end.

(** [{}] of an unsigned integer: its decimal digits. *)
Definition show_uint (z : Z) : string := pretty (Z.to_N z).

(** [str::parse] to an unsigned type of width [w]: an optional [+], then
    decimal digits with a value in range. *)
Definition digit_value (a : ascii) : option Z :=
  let n := N_of_ascii a in
  if ((48 <=? n) && (n <=? 57))%N then Some (Z.of_N n - 48)%Z else None.

Fixpoint parse_digits (w acc : Z) (s : string) : option Z :=
  match s with
  | EmptyString => Some acc
  | String a r =>
      match digit_value a with
      | Some d => if (acc * 10 + d <? 2 ^ w)%Z then parse_digits w (acc * 10 + d) r else None
      | None => None
      end
  end.

Definition parse_uint (w : Z) (s : string) : option Z :=
  let digits := match s with String "+" r => r | _ => s end in
  if is_empty digits then None else parse_digits w 0 digits.

(** [str::from_utf8]: the well-formed byte sequences of Unicode's table 3-7. *)
Definition in_bytes (lo hi : N) (a : ascii) : bool :=
  let n := N_of_ascii a in ((lo <=? n) && (n <=? hi))%N.

Fixpoint valid_utf8 (s : string) : bool :=
  match s with
  | EmptyString => true
  | String a r =>
      if in_bytes 0 127 a then valid_utf8 r else
      match r with
      | EmptyString => false
      | String b r =>
          if in_bytes 194 223 a then in_bytes 128 191 b && valid_utf8 r else
          match r with
          | EmptyString => false
          | String c r =>
              if in_bytes 224 239 a then
                in_bytes (if in_bytes 224 224 a then 160 else 128)
                         (if in_bytes 237 237 a then 159 else 191) b
                && in_bytes 128 191 c && valid_utf8 r
              else
              match r with
              | EmptyString => false
              | String d r =>
                  in_bytes 240 244 a
                  && in_bytes (if in_bytes 240 240 a then 144 else 128)
                              (if in_bytes 244 244 a then 143 else 191) b
                  && in_bytes 128 191 c && in_bytes 128 191 d && valid_utf8 r
              end
          end
      end
  end.

(** ** Checks on small inputs *)

Example valid_utf8_ex :
  (valid_utf8 "aé€😀", valid_utf8 (String (ascii_of_N 192) (String (ascii_of_N 128) ""))) = (true, false).
Proof. reflexivity. Qed.

Example parse_uint_ex :
  (parse_uint 64 "+050", parse_uint 64 "5 ", parse_uint 64 "+", parse_uint 8 "256")
  = (Some 50%Z, None, None, None).
Proof. reflexivity. Qed.

Example trim_ascii : trim " 	 a b  " = "a b".
Proof. reflexivity. Qed.
Example split_on_ex : split_on ","%char "a,,b" = ["a"; ""; "b"].
Proof. reflexivity. Qed.
Example split_ws_ex : split_whitespace "  read   write " = ["read"; "write"].
Proof. reflexivity. Qed.
Example split_once_ex : split_once ";"%char "a;b;c" = Some ("a", "b;c").
Proof. reflexivity. Qed.
Example lower_ex : to_ascii_lowercase "Application/GRPC" = "application/grpc".
Proof. reflexivity. Qed.
Example show_ex : show_uint 65536 = "65536".
Proof. vm_compute. reflexivity. Qed.
Example join_ex : join " | " ["a"; "b"] = "a | b".
Proof. reflexivity. Qed.

(** ** Lemmas *)

Lemma is_empty_true s : is_empty s = true ↔ s = "".
Proof. by destruct s. Qed.

Lemma is_empty_false s : is_empty s = false ↔ s ≠ "".
Proof. by destruct s. Qed.

Lemma starts_with_app pre s : starts_with (pre +:+ s) pre = true.
Proof.
  unfold starts_with. induction pre as [|a pre IH]; simpl; [by destruct s|].
  by destruct (ascii_dec a a).
Qed.

Lemma starts_with_inv s pre : starts_with s pre = true → ∃ r, s = pre +:+ r.
Proof.
  unfold starts_with. revert s. induction pre as [|a pre IH]; intros s; simpl; [by exists s|].
  destruct s as [|b s]; simpl; [done|]. destruct (ascii_dec a b) as [<-|]; [|done].
  intros [r ->]%IH. by exists r.
Qed.

Lemma drop_bytes_app pre s : drop_bytes (String.length pre) (pre +:+ s) = Some s.
Proof. induction pre as [|a pre IH]; [reflexivity|exact IH]. Qed.

Lemma strip_prefix_spec s pre r : strip_prefix s pre = Some r ↔ s = pre +:+ r.
Proof.
  unfold strip_prefix. split.
  - destruct (starts_with s pre) eqn:E; [|done].
    apply starts_with_inv in E as [r' ->]. rewrite drop_bytes_app. by intros [= ->].
  - intros ->. by rewrite starts_with_app, drop_bytes_app.
Qed.

Lemma str_len_app s t : str_len (s +:+ t) = (str_len s + str_len t)%Z.
Proof.
  unfold str_len. rewrite <-Nat2Z.inj_add. f_equal.
  induction s as [|a s IH]; [done|]. simpl. by rewrite IH.
Qed.

Lemma str_len_nonneg s : (0 ≤ str_len s)%Z.
Proof. unfold str_len. lia. Qed.

#[export] Instance string_app_assoc : Assoc (=) String.append.
Proof. intros s t u. induction s; simpl; congruence. Qed.

Lemma string_app_nil_r s : s +:+ "" = s.
Proof. induction s; simpl; congruence. Qed.

Lemma string_app_inj_l s t u : s +:+ t = s +:+ u → t = u.
Proof. induction s; simpl; [done|]. intros [= ?]; auto. Qed.

(** Splitting on [c] at a first piece without [c]. *)
Fixpoint has_char (c : ascii) (s : string) : bool :=
  match s with
  | EmptyString => false
  | String a r => bool_decide (a = c) || has_char c r
  end.

Lemma split_on_none c s : has_char c s = false → split_on c s = [s].
Proof.
  induction s as [|a s IH]; simpl; [done|]. intros [Ha Hs]%orb_false_iff.
  by rewrite Ha, IH.
Qed.

Lemma split_on_app c s t :
  has_char c s = false → split_on c (s +:+ String c t) = s :: split_on c t.
Proof.
  induction s as [|a s IH]; simpl; intros H.
  - by rewrite bool_decide_eq_true_2.
  - apply orb_false_iff in H as [-> H]. by rewrite IH.
Qed.

(** [split] undoes [join] on pieces without the separator. *)
Lemma split_on_join c l :
  l ≠ [] → Forall (λ s, has_char c s = false) l →
  split_on c (join (String c "") l) = l.
Proof.
  intros Hne. induction 1 as [|x l Hx Hl IH]; [done|].
  destruct l as [|y l]; [by apply split_on_none|].
  change (join (String c "") (x :: y :: l))
    with (x +:+ String c (join (String c "") (y :: l))).
  rewrite split_on_app by done. by rewrite IH.
Qed.

Lemma split_once_spec c s l r :
  split_once c s = Some (l, r) ↔ s = l +:+ String c r ∧ has_char c l = false.
Proof.
  revert l r. induction s as [|a s IH]; intros l r; simpl.
  { split; [done|]. intros [? _]. by destruct l. }
  case_bool_decide as Ha.
  - subst. split; [by intros [= <- <-]|]. intros [Hs Hl].
    destruct l as [|b l]; simpl in *; [by injection Hs as ->|].
    injection Hs as -> ->. by rewrite bool_decide_eq_true_2 in Hl.
  - destruct (split_once c s) as [[l' r']|] eqn:E.
    + split.
      * intros [= <- <-]. destruct (proj1 (IH l' r') eq_refl) as [-> ?].
        simpl. by rewrite bool_decide_eq_false_2.
      * intros [Hs Hl]. destruct l as [|b l]; simpl in *; simplify_eq.
        apply orb_false_iff in Hl as [_ Hl].
        assert (Some (l', r') = Some (l, r)) as [= -> ->]; [|done].
        by apply IH.
    + split; [done|]. intros [Hs Hl]. destruct l as [|b l]; simpl in *; simplify_eq.
      apply orb_false_iff in Hl as [_ Hl]. by assert (None = Some (l, r)) by (by apply IH).
Qed.

Lemma split_once_none c s : split_once c s = None ↔ has_char c s = false.
Proof.
  induction s as [|a s IH]; simpl; [done|]. case_bool_decide; simpl; [done|].
  rewrite <-IH. by destruct (split_once c s) as [[]|].
Qed.

(** Lower-casing. *)
Lemma lower_ascii_idem a : lower_ascii (lower_ascii a) = lower_ascii a.
Proof. destruct a as [[] [] [] [] [] [] [] []]; reflexivity. Qed.

Lemma to_ascii_lowercase_idem s :
  to_ascii_lowercase (to_ascii_lowercase s) = to_ascii_lowercase s.
Proof. induction s; simpl; [done|]. by rewrite lower_ascii_idem, IHs. Qed.

Lemma length_lowercase s : String.length (to_ascii_lowercase s) = String.length s.
Proof. induction s; simpl; congruence. Qed.

#[export] Hint Resolve str_len_nonneg starts_with_app : gateway.

(** ** UTF-8

    The shape of UTF-8 text: lead bytes followed by their number of
    continuation bytes.  Every [str] has it. *)
Definition lead_bytes (a : ascii) : option nat :=
  let n := N_of_ascii a in
  if (n <? 128)%N then Some 0
  else if (n <? 192)%N then None
  else if (n <? 224)%N then Some 1
  else if (n <? 240)%N then Some 2
  else Some 3.

Fixpoint utf8_from (pending : nat) (s : string) : bool :=
  match s with
  | EmptyString => bool_decide (pending = 0)
  | String a r =>
      match pending with
      | S k => is_continuation a && utf8_from k r
      | 0 => match lead_bytes a with Some k => utf8_from k r | None => false end
      end
  end.
Definition is_utf8 (s : string) : bool := utf8_from 0 s.

Lemma utf8_from_app s t : ∀ pending,
  utf8_from pending s = true → utf8_from pending (s +:+ t) = is_utf8 t.
Proof.
  induction s as [|a s IH]; intros pending; simpl.
  { intros H. bool_to_Z. by subst. }
  destruct pending as [|k].
  - destruct (lead_bytes a); [apply IH|done].
  - intros [-> ?]%andb_true_iff. simpl. by apply IH.
Qed.

Lemma utf8_boundary s : is_utf8 s = true → starts_inside_char s = false.
Proof.
  destruct s as [|a s]; [done|]. unfold is_utf8. simpl. unfold lead_bytes, is_continuation.
  destruct (N_of_ascii a <? 128)%N eqn:E1; [|destruct (N_of_ascii a <? 192)%N eqn:E2; [done|]].
  - intros _. apply andb_false_iff. left. apply N.leb_gt. by apply N.ltb_lt.
  - intros _. by rewrite andb_false_r.
Qed.

(** A suffix of a text after a prefix that is a text starts at a character
    boundary. *)
Lemma utf8_suffix_boundary s t :
  is_utf8 s = true → is_utf8 (s +:+ t) = true → starts_inside_char t = false.
Proof. intros Hs Hst. apply utf8_boundary. unfold is_utf8 in *. by rewrite utf8_from_app in Hst. Qed.

Lemma slice_from_app s t :
  is_utf8 s = true → is_utf8 (s +:+ t) = true → slice_from (String.length s) (s +:+ t) = Done t.
Proof.
  intros Hs Hst. unfold slice_from. rewrite drop_bytes_app.
  by rewrite (utf8_suffix_boundary s t).
Qed.

(** ** Lemmas: white space *)

(** No white space starts anywhere in the string. *)
Fixpoint no_ws (s : string) : bool :=
  match s with
  | EmptyString => true
  | String _ r => Nat.eqb (ws_len s) 0 && no_ws r
  end.

(** White space of a prefix is white space of the whole, and a space does not
    complete a character of what precedes it. *)
Lemma ws_len_app u t : ws_len (u +:+ t) = 0 → ws_len u = 0.
Proof.
  destruct u as [|a [|b [|c u]]]; simpl; [done|..]; destruct (ascii_ws _); try done;
    destruct (ws2 _ _); try done; by destruct (ws3 _ _ _).
Qed.

Lemma ws_len_space u t : u ≠ "" → ws_len u = 0 → ws_len (u +:+ String " " t) = 0.
Proof.
  assert (∀ m n : N, ws3 m 32 n = false ∧ ws3 m n 32 = false ∧ ws2 m 32 = false) as H.
  { intros. unfold ws3, ws2. simpl.
    destruct (m =? 194)%N, (m =? 225)%N, (m =? 226)%N, (m =? 227)%N, (n =? 154)%N, (n =? 128)%N,
      (n =? 129)%N; done. }
  change 32%N with (N_of_ascii " ") in H.
  destruct u as [|a [|b [|c u]]]; cbn [ws_len String.append]; [done|..];
    destruct (ascii_ws _); try done.
  - intros _ _. destruct (H (N_of_ascii a) 0%N) as (_ & _ & ->).
    destruct t as [|c t]; [done|]. by destruct (H (N_of_ascii a) (N_of_ascii c)) as (-> & _).
  - intros _. destruct (ws2 _ _); [done|]. by destruct (H (N_of_ascii a) (N_of_ascii b)) as (_ & -> & _).
Qed.

Lemma string_app_cons u a t : u +:+ String a t = (u +:+ String a "") +:+ t.
Proof. induction u as [|b u IH]; simpl; [done|]. by rewrite IH. Qed.

Lemma split_ws_token u cur t :
  no_ws u = true → split_ws_from 0 cur (u +:+ String " " t) =
    ((if is_empty (cur +:+ u) then [] else [cur +:+ u]) ++ split_ws_from 0 "" t)%list.
Proof.
  revert cur. induction u as [|a u IH]; intros cur Hu.
  { by rewrite string_app_nil_r. }
  simpl in Hu. apply andb_true_iff in Hu as [Ha%Nat.eqb_eq Hu].
  pose proof (ws_len_space (String a u) t ltac:(done) Ha) as Hw. simpl in Hw. simpl. rewrite Hw.
  rewrite IH by done. by rewrite <-string_app_cons.
Qed.

Lemma split_ws_last u cur :
  no_ws u = true →
  split_ws_from 0 cur u = if is_empty (cur +:+ u) then [] else [cur +:+ u].
Proof.
  revert cur. induction u as [|a u IH]; intros cur Hu; [by rewrite string_app_nil_r|].
  simpl in Hu. apply andb_true_iff in Hu as [Ha%Nat.eqb_eq Hu]. simpl in Ha. simpl. rewrite Ha.
  rewrite IH by done. by rewrite <-string_app_cons.
Qed.

(** [split_whitespace] undoes [join " "] on words, and yields words. *)
Definition is_word (s : string) : Prop := s ≠ "" ∧ no_ws s = true.

Lemma split_whitespace_join l : Forall is_word l → split_whitespace (join " " l) = l.
Proof.
  unfold split_whitespace. induction 1 as [|x l [Hx Hw] Hl IH]; [done|].
  apply is_empty_false in Hx.
  destruct l as [|y l]; [rewrite split_ws_last by done; simpl; by rewrite Hx|].
  change (join " " (x :: y :: l)) with (x +:+ String " " (join " " (y :: l))).
  rewrite split_ws_token by done. simpl (_ +:+ x). by rewrite Hx, IH.
Qed.

(** The bytes [cur] of the current word start no white space in what follows. *)
Fixpoint clean_before (cur s : string) : Prop :=
  match cur with
  | EmptyString => True
  | String _ r => ws_len (cur +:+ s) = 0 ∧ clean_before r s
  end.

Lemma clean_before_no_ws cur s : clean_before cur s → no_ws cur = true.
Proof.
  induction cur as [|a cur IH]; [done|]. intros [Hw Hc]. cbn [no_ws].
  apply ws_len_app in Hw. by rewrite Hw, IH.
Qed.

Lemma clean_before_snoc cur a s :
  clean_before cur (String a s) → ws_len (String a s) = 0 → clean_before (cur +:+ String a "") s.
Proof.
  intros Hc Hw. induction cur as [|b cur IH]; [by split|].
  destruct Hc as [Hb Hc]. change (String b cur +:+ ?t) with (String b (cur +:+ t)).
  split; [|by apply IH]. change (String b ?u +:+ s) with (String b (u +:+ s)).
  by rewrite <-string_app_cons.
Qed.

Lemma split_ws_words s : ∀ skip cur,
  (skip = 0 ∨ cur = "") → clean_before cur s → Forall is_word (split_ws_from skip cur s).
Proof.
  assert (∀ cur s, clean_before cur s → Forall is_word (if is_empty cur then [] else [cur])) as Hcur.
  { intros cur t Hc%clean_before_no_ws. destruct (is_empty cur) eqn:E; [done|].
    apply is_empty_false in E. by repeat constructor. }
  induction s as [|a s IH]; intros skip cur Hs Hc; cbn [split_ws_from]; [by eapply Hcur|].
  destruct skip as [|k].
  - destruct (ws_len (String a s)) as [|k] eqn:E.
    + apply IH; [by left|]. by apply clean_before_snoc.
    + apply Forall_app. split; [by eapply Hcur|]. apply IH; [by right|done].
  - destruct Hs as [?| ->]; [done|]. apply IH; [by right|done].
Qed.

Lemma split_whitespace_words s : Forall is_word (split_whitespace s).
Proof. apply split_ws_words; [by left|done]. Qed.

(** ** Lemmas: the order of strings *)

(** [Ord for str]: lexicographic on bytes. *)
Definition string_le (s t : string) : Prop := String.leb s t = true.
#[export] Instance string_le_dec : RelDecision string_le.
Proof. intros s t. unfold string_le. apply _. Defined.

#[export] Instance string_le_total : Total string_le.
Proof. intros s t. apply String.leb_total. Qed.

#[export] Instance string_le_antisymm : AntiSymm (=) string_le.
Proof. intros s t. apply String.leb_antisym. Qed.

Lemma string_le_cons a s b t :
  string_le (String a s) (String b t) ↔
    (N_of_ascii a < N_of_ascii b)%N ∨ a = b ∧ string_le s t.
Proof.
  unfold string_le, String.leb. cbn [String.compare]. unfold Ascii.compare.
  destruct (N.compare_spec (N_of_ascii a) (N_of_ascii b)) as [E|E|E].
  - assert (a = b) as ->
      by by rewrite <-(ascii_N_embedding a), <-(ascii_N_embedding b), E.
    split; [by right|]. intros [?|[_ ?]]; [lia|done].
  - split; [by left|done].
  - split; [done|]. intros [?|[-> _]]; lia.
Qed.

#[export] Instance string_le_trans : Transitive string_le.
Proof.
  intros s t u. revert t u. induction s as [|a s IH]; intros [|b t] [|c u]; try done.
  rewrite !string_le_cons. intros [?|[-> ?]] [?|[<- ?]]; [left; lia|by left|by left|].
  right. split; [done|]. by eapply IH.
Qed.
