(* ===== verification/Interfaces.v ===== *)
(** * Interfaces of the code the gateway calls but does not contain

    One class of operations per library, and one class of the documented laws
    the theorems use: the standard library's [DefaultHasher] (its algorithm is
    unspecified), [http::HeaderMap], [serde_json::Value] and
    [jsonwebtoken::decode].  Each has a small reference instance, on which the
    witnesses are evaluated. *)

From S2P Require Export RustStr.

#[local] Open Scope string_scope.
#[local] Open Scope list_scope.

(** ** [std::hash::DefaultHasher]

    A hasher is fed a sequence of values and [finish]es with a [u64]. *)
Inductive hash_item : Type :=
| HashStr (s : string)
| HashUsize (n : Z).

Class Hasher := hash_finish : list hash_item → Z.

Class HasherLaws (H : Hasher) : Prop :=
  hash_finish_u64 : ∀ l, uint 64 (hash_finish l).

(** ** [http::HeaderMap]

    A multimap from normalised header names to values.  [hm_get_all] is its
    documented view: all values of a name, in insertion order. *)
Class HeaderMapOps := {
  HeaderName : Type;
  HeaderName_eq_dec :: EqDecision HeaderName;
  HeaderValue : Type;
  HeaderMap : Type;
  name_from_bytes : string → option HeaderName;
  name_as_str : HeaderName → string;
  value_from_str : string → option HeaderValue;
  value_to_str : HeaderValue → option string;
  hm_new : HeaderMap;
  hm_get_all : HeaderMap → HeaderName → list HeaderValue;
  hm_iter : HeaderMap → list (HeaderName * HeaderValue);
  hm_insert : HeaderMap → HeaderName → HeaderValue → HeaderMap;
  hm_append : HeaderMap → HeaderName → HeaderValue → HeaderMap;
  hm_remove : HeaderMap → HeaderName → HeaderMap;
}.

(** [get] returns the first value; [contains_key] tests that there is one.
    A lookup by [&str] parses the name and finds nothing for an invalid one;
    so does [remove]. *)
Definition hm_get `{HeaderMapOps} (m : HeaderMap) (n : HeaderName) : option HeaderValue :=
  head (hm_get_all m n).
Definition hm_get_str `{HeaderMapOps} (m : HeaderMap) (s : string) : option HeaderValue :=
  n ← name_from_bytes s; hm_get m n.
Definition hm_contains_key `{HeaderMapOps} (m : HeaderMap) (n : HeaderName) : bool :=
  match hm_get_all m n with [] => false | _ => true end.
Definition hm_remove_str `{HeaderMapOps} (m : HeaderMap) (s : string) : HeaderMap :=
  match name_from_bytes s with Some n => hm_remove m n | None => m end.

(** The values of [n] in a list of name-value pairs. *)
Definition values_of `{HeaderMapOps} (n : HeaderName) (l : list (HeaderName * HeaderValue))
    : list HeaderValue :=
  (filter (λ nv, nv.1 = n) l).*2.

Class HeaderMapLaws (O : HeaderMapOps) : Prop := {
  get_all_new n : hm_get_all hm_new n = [];
  get_all_insert m n n' v :
    hm_get_all (hm_insert m n v) n' = if decide (n = n') then [v] else hm_get_all m n';
  get_all_append m n n' v :
    hm_get_all (hm_append m n v) n' =
      if decide (n = n') then hm_get_all m n' ++ [v] else hm_get_all m n';
  get_all_remove m n n' :
    hm_get_all (hm_remove m n) n' = if decide (n = n') then [] else hm_get_all m n';
  get_all_iter m n : hm_get_all m n = values_of n (hm_iter m);
  as_str_from_bytes s n :
    name_from_bytes s = Some n → name_as_str n = to_ascii_lowercase s;
  from_bytes_as_str n : name_from_bytes (name_as_str n) = Some n;
}.

(** ** [serde_json::Value] *)
Class JsonOps := {
  Json : Type;
  json_get : Json → string → option Json;
  json_as_array : Json → option (list Json);
  json_as_str : Json → option string;
}.

Class JsonLaws (J : JsonOps) : Prop :=
  json_array_not_str : ∀ j l, json_as_array j = Some l → json_as_str j = None.

(** ** [jsonwebtoken::decode] with HS256

    [jwt_decode token secret issuer audience] is the outcome of verifying the
    token, at the time of the call, with the given validation; the error is
    its displayed form. *)
Class JwtOps (J : JsonOps) :=
  jwt_decode : string → string → option string → option string → result string Json.

(** ** Reference instances *)

(** FNV-1a over the bytes, as a concrete hasher. *)
Definition fnv_byte (h : Z) (b : Z) : Z := wrap 64 (Z.lxor h b * 1099511628211).
Fixpoint fnv_string (h : Z) (s : string) : Z :=
  match s with
  | EmptyString => fnv_byte h 255
  | String a s => fnv_string (fnv_byte h (Z.of_N (Ascii.N_of_ascii a))) s
  end.
Definition fnv_item (h : Z) (i : hash_item) : Z :=
  match i with HashStr s => fnv_string h s | HashUsize n => fnv_byte h (wrap 64 n) end.
Definition fnv_hasher : Hasher := λ l, wrap 64 (foldl fnv_item 14695981039346656037%Z l).

Lemma fnv_hasher_laws : HasherLaws fnv_hasher.
Proof. intros l. by apply wrap_range. Qed.

(** An association list with lower-case names as header map. *)
Definition is_lower_name (s : string) : Prop := to_ascii_lowercase s = s ∧ s ≠ "".
#[local] Instance is_lower_name_dec s : Decision (is_lower_name s).
Proof. unfold is_lower_name. apply _. Defined.

Lemma lower_name_ok s : s ≠ "" → bool_decide (is_lower_name (to_ascii_lowercase s)).
Proof.
  intros Hs. apply bool_decide_pack. split; [apply to_ascii_lowercase_idem|].
  by destruct s.
Qed.

Definition lower_name : Type := {s : string | bool_decide (is_lower_name s)}.

Definition lower_name_from_bytes (s : string) : option lower_name :=
  match decide (s = "") with
  | left _ => None
  | right Hs => Some (to_ascii_lowercase s ↾ lower_name_ok s Hs)
  end.

Lemma lower_name_eq (n n' : lower_name) : `n = `n' → n = n'.
Proof. apply (sig_eq_pi _). Qed.

#[export] Instance lower_name_eq_dec : EqDecision lower_name.
Proof.
  intros n n'. destruct (decide (`n = `n')) as [H|H].
  - left. by apply lower_name_eq.
  - right. by intros ->.
Defined.

Definition list_header_map : HeaderMapOps := {|
  HeaderName := lower_name;
  HeaderValue := string;
  HeaderMap := list (lower_name * string);
  name_from_bytes := lower_name_from_bytes;
  name_as_str := proj1_sig;
  value_from_str := Some;
  value_to_str := Some;
  hm_new := [];
  hm_get_all m n := (filter (λ nv, nv.1 = n) m).*2;
  hm_iter m := m;
  hm_insert m n v := filter (λ nv, nv.1 ≠ n) m ++ [(n, v)];
  hm_append m n v := m ++ [(n, v)];
  hm_remove m n := filter (λ nv, nv.1 ≠ n) m;
|}.

Lemma filter_ne_eq {A B} `{EqDecision A} (m : list (A * B)) (n n' : A) :
  filter (λ nv, nv.1 = n') (filter (λ nv, nv.1 ≠ n) m) =
    if decide (n = n') then [] else filter (λ nv, nv.1 = n') m.
Proof.
  rewrite list_filter_filter. case_decide as Hn; subst.
  - induction m as [|[k v] m IH]; [done|]. rewrite filter_cons_False; [done|].
    simpl; naive_solver.
  - apply list_filter_iff. intros [k v]. simpl. naive_solver.
Qed.

Lemma list_header_map_laws : HeaderMapLaws list_header_map.
Proof.
  split.
  - done.
  - intros m n n' v. simpl. rewrite filter_app, filter_ne_eq, fmap_app.
    case_decide; subst; simpl.
    + by rewrite filter_cons_True.
    + rewrite filter_cons_False by done. apply app_nil_r.
  - intros m n n' v. simpl. rewrite filter_app, fmap_app. case_decide; subst; simpl.
    + by rewrite filter_cons_True.
    + rewrite filter_cons_False by done. apply app_nil_r.
  - intros m n n'. simpl. rewrite filter_ne_eq. by case_decide.
  - done.
  - intros s n. simpl. unfold lower_name_from_bytes. case_decide; [done|]. by intros [= <-].
  - intros [s Hs]. pose proof (bool_decide_unpack _ Hs) as [Hl Hne]. simpl.
    unfold lower_name_from_bytes. case_decide; [done|]. f_equal. by apply lower_name_eq.
Qed.

(** JSON texts as trees.  A number is an integer, or another literal. *)
#[warnings="-register-all"]
Inductive json_tree : Type :=
| JNull
| JBool (b : bool)
| JNumber (n : Z)
| JFloat (literal : string)
| JString (s : string)
| JArray (l : list json_tree)
| JObject (l : list (string * json_tree)).

Definition tree_get (j : json_tree) (k : string) : option json_tree :=
  match j with
  | JObject l => snd <$> find_first (λ kv, bool_decide (kv.1 = k)) l
  | _ => None
  end.

Definition tree_json : JsonOps := {|
  Json := json_tree;
  json_get := tree_get;
  json_as_array j := match j with JArray l => Some l | _ => None end;
  json_as_str j := match j with JString s => Some s | _ => None end;
|}.

Lemma tree_json_laws : JsonLaws tree_json.
Proof. intros j l. destruct j; naive_solver. Qed.
