(* ===== verification/Float64.v ===== *)
(** * Rust's [f64]: IEEE 754 binary64 with round to nearest even

    The operations are those of the Standard Library's executable
    specification [SpecFloat] at precision 53 and maximal exponent 1024.  The
    lemmas are the ones the token bucket needs: every operation yields a valid
    number, non-negative operands yield a non-negative result or NaN, and
    subtracting one from a number in [1, 2^32) is exact. *)

From S2P Require Export Prelude.
From Stdlib Require Export SpecFloat.

#[local] Open Scope Z_scope.

Definition f64 : Type := spec_float.
Abbreviation f64_prec := 53%Z (only parsing).
Abbreviation f64_emax := 1024%Z (only parsing).

(** [z as f64] for an unsigned integer [z]. *)
Definition f64_of_Z (z : Z) : f64 := binary_normalize 53 1024 z 0 false.

Definition f64_add (x y : f64) : f64 := SFadd 53 1024 x y.
Definition f64_sub (x y : f64) : f64 := SFsub 53 1024 x y.
Definition f64_mul (x y : f64) : f64 := SFmul 53 1024 x y.
Definition f64_div (x y : f64) : f64 := SFdiv 53 1024 x y.
Definition f64_ge (x y : f64) : bool := SFleb y x.

(** [f64::min]: if one operand is NaN the other is returned. *)
Definition f64_min (x y : f64) : f64 :=
  match x, y with
  | S754_nan, _ => y
  | _, S754_nan => x
  | _, _ => if SFltb x y then x else y
  end.

Definition f64_one : f64 := f64_of_Z 1.

(** [Duration::as_secs_f64]: whole seconds plus the nanoseconds over 10^9. *)
Definition as_secs_f64 (d : duration) : f64 :=
  f64_add (f64_of_Z (d / 1000000000))
          (f64_div (f64_of_Z (d mod 1000000000)) (f64_of_Z 1000000000)).

(** ** Validity and sign *)

(** A valid binary64 number that is NaN or has a clear sign bit. *)
Definition nonneg (x : f64) : Prop :=
  valid_binary 53 1024 x = true ∧
  match x with
  | S754_nan => True
  | S754_zero s | S754_infinity s | S754_finite s _ _ => s = false
  end.

(** The value of a non-negative finite number, in units of 2^-1074. *)
Definition scaled (x : f64) : Z :=
  match x with S754_finite _ m e => Zpos m * 2 ^ (e + 1074) | _ => 0 end.

Definition is_finite (x : f64) : Prop :=
  match x with S754_zero _ | S754_finite _ _ _ => True | _ => False end.

#[export] Instance is_finite_dec x : Decision (is_finite x).
Proof. destruct x; simpl; apply _. Defined.

(** ** Lemmas: number of binary digits *)

Lemma digits2_pos_bounds m :
  2 ^ (Zpos (digits2_pos m) - 1) ≤ Zpos m < 2 ^ Zpos (digits2_pos m).
Proof.
  induction m as [m IH|m IH|]; simpl digits2_pos; [| |done];
    rewrite Pos2Z.inj_succ; rewrite Z.pow_succ_r by lia;
    replace (Z.succ (Zpos (digits2_pos m)) - 1) with (Z.succ (Zpos (digits2_pos m) - 1)) by lia;
    rewrite Z.pow_succ_r by lia; lia.
Qed.

Lemma Zdigits2_bounds m :
  0 ≤ m → 0 ≤ Zdigits2 m ∧ m < 2 ^ Zdigits2 m ∧ (0 < m → 2 ^ (Zdigits2 m - 1) ≤ m).
Proof.
  destruct m as [|m|m]; simpl; [lia| |lia]. intros _.
  pose proof (digits2_pos_bounds m). split; [lia|]. split; [lia|]. lia.
Qed.

Lemma Zdigits2_unique m d : 0 < d → 2 ^ (d - 1) ≤ m < 2 ^ d → Zdigits2 m = d.
Proof.
  intros Hd [H1 H2]. assert (0 < m) by (pose proof (Z.pow_pos_nonneg 2 (d - 1)); lia).
  destruct (Zdigits2_bounds m) as (H3 & H4 & H5); [lia|]. specialize (H5 ltac:(lia)).
  assert (2 ^ (d - 1) < 2 ^ Zdigits2 m) as H6 by lia.
  assert (2 ^ (Zdigits2 m - 1) < 2 ^ d) as H7 by lia.
  apply Z.pow_lt_mono_r_iff in H6; [|lia..].
  destruct (Z.eq_dec (Zdigits2 m) 0) as [E|]; [rewrite E in *; simpl in *; lia|].
  apply Z.pow_lt_mono_r_iff in H7; lia.
Qed.

Lemma Zdigits2_le m d : 0 ≤ m → 0 ≤ d → m < 2 ^ d → Zdigits2 m ≤ d.
Proof.
  intros Hm Hd H. destruct (Zdigits2_bounds m Hm) as (H1 & _ & H3).
  destruct (Z.eq_dec m 0) as [->|]; [simpl; lia|]. specialize (H3 ltac:(lia)).
  assert (2 ^ (Zdigits2 m - 1) < 2 ^ d) as H4 by lia.
  apply Z.pow_lt_mono_r_iff in H4; lia.
Qed.

Lemma Zdigits2_ge m d : 2 ^ d ≤ m → 0 ≤ d → d < Zdigits2 m.
Proof.
  intros H Hd. assert (0 < 2 ^ d) by (apply Z.pow_pos_nonneg; lia).
  destruct (Zdigits2_bounds m) as (H1 & H2 & _); [lia|].
  apply (Z.pow_lt_mono_r_iff 2); lia.
Qed.

Lemma Zdigits2_mul_pow m k : 0 < m → 0 ≤ k → Zdigits2 (m * 2 ^ k) = Zdigits2 m + k.
Proof.
  intros Hm Hk. destruct (Zdigits2_bounds m) as (H1 & H2 & H3); [lia|].
  specialize (H3 Hm). assert (0 < Zdigits2 m).
  { destruct (Z.eq_dec (Zdigits2 m) 0) as [E|]; [|lia]. rewrite E in *. simpl in *. lia. }
  assert (0 < 2 ^ k) by (apply Z.pow_pos_nonneg; lia).
  apply Zdigits2_unique; [lia|].
  replace (Zdigits2 m + k - 1) with (Zdigits2 m - 1 + k) by lia.
  rewrite !Z.pow_add_r by lia. nia.
Qed.

(** ** Lemmas: the shifts of the rounding *)

Lemma shl_align_spec m e e' :
  shl_align m e e' = (Z.to_pos (Zpos m * 2 ^ Z.max 0 (e - e')), Z.min e e').
Proof.
  unfold shl_align. destruct (e' - e) as [|p|p] eqn:E.
  - replace (Z.max 0 (e - e')) with 0 by lia. rewrite Z.mul_1_r. f_equal; lia.
  - replace (Z.max 0 (e - e')) with 0 by lia. rewrite Z.mul_1_r. f_equal; lia.
  - replace (Z.max 0 (e - e')) with (Zpos p) by lia.
    replace (Z.min e e') with e' by lia. f_equal.
    assert (Zpos (Pos.iter xO m p) = Zpos m * 2 ^ Zpos p) as <-; [|done].
    rewrite <-Z.shiftl_mul_pow2 by lia.
    change (Z.shiftl (Zpos m) (Zpos p)) with (Pos.iter (Z.mul 2) (Zpos m) p). clear E.
    induction p using Pos.peano_ind; [reflexivity|].
    rewrite !Pos.iter_succ, <-IHp. reflexivity.
Qed.

Lemma iter_pos_nat {A} (f : A → A) p x : iter_pos f p x = Nat.iter (Pos.to_nat p) f x.
Proof.
  revert x. induction p as [p IH|p IH|]; intros x; simpl iter_pos.
  - rewrite !IH, <-Nat.iter_add, <-Nat.iter_succ_r. f_equal. lia.
  - rewrite !IH, <-Nat.iter_add. f_equal. lia.
  - done.
Qed.

Lemma shr_1_m mrs : 0 ≤ shr_m mrs → shr_m (shr_1 mrs) = shr_m mrs / 2.
Proof.
  destruct mrs as [[|[p|p|]|p] r s]; simpl; intros; try lia; try done.
  - rewrite Pos2Z.inj_xI. rewrite <-(Z.div_unique (2 * Zpos p + 1) 2 (Zpos p) 1); lia.
  - rewrite Pos2Z.inj_xO. rewrite <-(Z.div_unique (2 * Zpos p) 2 (Zpos p) 0); lia.
Qed.

Lemma iter_shr_1_m n mrs :
  0 ≤ shr_m mrs → shr_m (Nat.iter n shr_1 mrs) = shr_m mrs / 2 ^ Z.of_nat n.
Proof.
  intros H. induction n as [|n IH]; [by rewrite Z.div_1_r|].
  rewrite Nat.iter_succ, shr_1_m.
  - rewrite IH, Z.div_div by lia. f_equal. rewrite Nat2Z.inj_succ, Z.pow_succ_r by lia. lia.
  - rewrite IH. apply Z.div_pos; lia.
Qed.

(** Shifting out zeros is exact. *)
Lemma iter_shr_1_exact n m :
  0 ≤ m → Nat.iter n shr_1 {| shr_m := m * 2 ^ Z.of_nat n; shr_r := false; shr_s := false |}
          = {| shr_m := m; shr_r := false; shr_s := false |}.
Proof.
  revert m. induction n as [|n IH]; intros m Hm; [simpl; f_equal; lia|].
  rewrite Nat.iter_succ_r.
  replace (m * 2 ^ Z.of_nat (S n)) with (2 * (m * 2 ^ Z.of_nat n))
    by (rewrite Nat2Z.inj_succ, Z.pow_succ_r by lia; lia).
  assert (0 ≤ m * 2 ^ Z.of_nat n) by lia.
  destruct (m * 2 ^ Z.of_nat n) as [|p|p] eqn:E; [|by rewrite <-(IH m), E|lia].
  simpl. rewrite <-(IH m) by done. by rewrite E.
Qed.

Lemma shr_record_of_loc_m m l : shr_m (shr_record_of_loc m l) = m.
Proof. by destruct l as [|[]]. Qed.

Lemma shr_fexp_spec m e l :
  0 ≤ m →
  let n := Z.max 0 (fexp 53 1024 (Zdigits2 m + e) - e) in
  shr_m (shr_fexp 53 1024 m e l).1 = m / 2 ^ n ∧ (shr_fexp 53 1024 m e l).2 = e + n.
Proof.
  intros Hm n. unfold shr_fexp, shr. subst n.
  destruct (fexp 53 1024 (Zdigits2 m + e) - e) as [|p|p] eqn:E; simpl.
  - rewrite shr_record_of_loc_m, Z.div_1_r. lia.
  - rewrite iter_pos_nat, iter_shr_1_m by (by rewrite shr_record_of_loc_m).
    by rewrite shr_record_of_loc_m, positive_nat_Z.
  - rewrite shr_record_of_loc_m, Z.div_1_r. lia.
Qed.

(** ** Lemmas: rounding yields a valid number of the given sign *)

Lemma fexp_eq x : fexp 53 1024 x = Z.max (x - 53) (-1074).
Proof. reflexivity. Qed.

(** A mantissa and exponent of a representable number. *)
Definition canonical (m e : Z) : Prop :=
  0 ≤ m < 2 ^ 53 ∧ -1074 ≤ e ∧ (e = -1074 ∨ 2 ^ 52 ≤ m).

Lemma canonical_fexp m e : canonical m e → fexp 53 1024 (Zdigits2 m + e) = e.
Proof.
  intros (Hm & He & Hc). rewrite fexp_eq.
  assert (Zdigits2 m ≤ 53) by (apply Zdigits2_le; lia).
  destruct Hc as [->|Hc]; [lia|].
  assert (52 < Zdigits2 m) by (apply Zdigits2_ge; lia). lia.
Qed.

Lemma canonical_bounded m e :
  canonical (Zpos m) e → e ≤ 971 → bounded 53 1024 m e = true.
Proof.
  intros Hc He. unfold bounded, canonical_mantissa.
  change (Zpos (digits2_pos m)) with (Zdigits2 (Zpos m)). rewrite canonical_fexp by done.
  apply andb_true_iff. split; [by apply Z.eqb_eq|by apply Z.leb_le].
Qed.

Lemma bounded_canonical m e :
  bounded 53 1024 m e = true → canonical (Zpos m) e ∧ e ≤ 971.
Proof.
  unfold bounded, canonical_mantissa. intros [H1 H2]%andb_true_iff.
  apply Z.eqb_eq in H1. apply Z.leb_le in H2. rewrite fexp_eq in H1.
  change (Zpos (digits2_pos m)) with (Zdigits2 (Zpos m)) in H1.
  destruct (Zdigits2_bounds (Zpos m)) as (H3 & H4 & H5); [lia|]. specialize (H5 ltac:(lia)).
  split; [|lia]. unfold canonical.
  assert (Zpos m < 2 ^ 53).
  { eapply Z.lt_le_trans; [exact H4|]. apply Z.pow_le_mono_r; lia. }
  split; [lia|]. split; [lia|].
  destruct (Z.eq_dec e (-1074)) as [|Hne]; [by left|right].
  replace 52 with (Zdigits2 (Zpos m) - 1) by lia. done.
Qed.

Lemma shr_fexp_canonical m e :
  canonical m e →
  shr_fexp 53 1024 m e loc_Exact = ({| shr_m := m; shr_r := false; shr_s := false |}, e).
Proof.
  intros Hc. unfold shr_fexp. rewrite canonical_fexp by done. by rewrite Z.sub_diag.
Qed.

Lemma shr_fexp_first m e l :
  0 ≤ m → e ≤ fexp 53 1024 (Zdigits2 m + e) →
  canonical (shr_m (shr_fexp 53 1024 m e l).1) (shr_fexp 53 1024 m e l).2.
Proof.
  intros Hm He. pose proof (shr_fexp_spec m e l Hm) as [-> ->].
  rewrite fexp_eq in *. destruct (Zdigits2_bounds m Hm) as (H1 & H2 & H3).
  set (d := Zdigits2 m) in *. set (n := Z.max 0 _).
  assert (e + n = Z.max (d + e - 53) (-1074)) as Hn by lia.
  assert (0 < 2 ^ n) by (apply Z.pow_pos_nonneg; lia).
  unfold canonical. split; [split|split; [lia|]].
  - apply Z.div_pos; lia.
  - apply Z.div_lt_upper_bound; [done|]. rewrite <-Z.pow_add_r by lia.
    eapply Z.lt_le_trans; [exact H2|]. apply Z.pow_le_mono_r; lia.
  - destruct (Z.eq_dec (e + n) (-1074)) as [|Hne]; [by left|right].
    assert (0 < m) by (destruct (Z.eq_dec m 0) as [E|]; [|lia]; subst d; rewrite E in *; simpl in *; lia).
    apply Z.div_le_lower_bound; [done|]. rewrite <-Z.pow_add_r by lia.
    replace (n + 52) with (d - 1) by lia. by apply H3.
Qed.

Lemma round_nearest_even_range m l :
  round_nearest_even m l = m ∨ round_nearest_even m l = m + 1.
Proof. destruct l as [|[]]; simpl; try case_match; auto. Qed.

(** The result of the second rounding step. *)
Lemma shr_fexp_second m e :
  canonical m e ∨ (m = 2 ^ 53 ∧ -1074 ≤ e) →
  ∃ m' e', shr_fexp 53 1024 m e loc_Exact
             = ({| shr_m := m'; shr_r := false; shr_s := false |}, e') ∧ canonical m' e' ∧
           m' * 2 ^ (e' + 1074) = m * 2 ^ (e + 1074) ∧ e' ≤ e + 1.
Proof.
  intros [Hc|[-> He]].
  - exists m, e. rewrite shr_fexp_canonical by done. split; [done|]. split; [done|lia].
  - exists (2 ^ 52), (e + 1). split; [|split; [unfold canonical; lia|split; [|lia]]].
    2: { replace (e + 1 + 1074) with (1 + (e + 1074)) by lia. rewrite Z.pow_add_r by lia. lia. }
    unfold shr_fexp. rewrite fexp_eq.
    change (Zdigits2 (2 ^ 53)) with 54. replace (_ - e) with 1 by lia. reflexivity.
Qed.

Definition has_sign (s : bool) (x : f64) : Prop :=
  match x with
  | S754_nan => False
  | S754_zero s' | S754_infinity s' | S754_finite s' _ _ => s' = s
  end.

Lemma binary_round_aux_valid s m e l :
  0 ≤ m → e ≤ fexp 53 1024 (Zdigits2 m + e) →
  let r := binary_round_aux 53 1024 s m e l in
  valid_binary 53 1024 r = true ∧ has_sign s r.
Proof.
  intros Hm He r. unfold r, binary_round_aux. clear r.
  pose proof (shr_fexp_first m e l Hm He) as Hc.
  destruct (shr_fexp 53 1024 m e l) as [mrs e1]. simpl in Hc.
  set (m2 := round_nearest_even _ _).
  destruct (shr_fexp_second m2 e1) as (m' & e' & -> & Hc' & _).
  { destruct Hc as (H1 & H2 & H3).
    destruct (round_nearest_even_range (shr_m mrs) (loc_of_shr_record mrs)) as [E|E];
      fold m2 in E; rewrite E; unfold canonical; [by left|].
    destruct (Z.eq_dec (shr_m mrs + 1) (2 ^ 53)); [by right|left].
    split; [lia|]. split; [lia|]. destruct H3; [by left|right; lia]. }
  simpl. destruct m' as [|m'|m']; [done| |destruct Hc'; lia].
  destruct (e' <=? 1024 - 53) eqn:E; [|done]. apply Z.leb_le in E.
  split; [|done]. simpl. apply canonical_bounded; [done|lia].
Qed.

Lemma binary_round_valid s m e :
  let r := binary_round 53 1024 s m e in
  valid_binary 53 1024 r = true ∧ has_sign s r.
Proof.
  intros r. unfold r, binary_round. clear r. rewrite shl_align_spec.
  set (t := fexp 53 1024 _). set (k := Z.max 0 (e - t)).
  apply binary_round_aux_valid; [lia|].
  assert (0 < 2 ^ k) by (apply Z.pow_pos_nonneg; lia).
  rewrite Z2Pos.id by lia. rewrite Zdigits2_mul_pow by lia.
  replace (_ + k + Z.min e t) with (Zdigits2 (Zpos m) + e) by lia.
  change (Zdigits2 (Zpos m)) with (Zpos (digits2_pos m)). fold t. lia.
Qed.

Lemma binary_normalize_nonneg m e :
  0 ≤ m → let r := binary_normalize 53 1024 m e false in
  valid_binary 53 1024 r = true ∧ has_sign false r.
Proof.
  intros Hm. destruct m as [|m|m]; [done| |lia]. apply binary_round_valid.
Qed.

(** Exactness: a representable value is rounded to itself. *)
Lemma binary_round_exact s m e M E :
  canonical (Zpos M) E → E ≤ 971 →
  (Zpos m = Zpos M * 2 ^ (E - e) ∧ e ≤ E ∨ Zpos M = Zpos m * 2 ^ (e - E) ∧ E ≤ e) →
  binary_round 53 1024 s m e = S754_finite s M E.
Proof.
  intros Hc HE Hv. unfold binary_round. rewrite shl_align_spec.
  change (Zpos (digits2_pos m)) with (Zdigits2 (Zpos m)).
  assert (fexp 53 1024 (Zdigits2 (Zpos m) + e) = E) as Hf.
  { transitivity (fexp 53 1024 (Zdigits2 (Zpos M) + E)); [|by apply canonical_fexp].
    f_equal. destruct Hv as [[Hv ?]|[Hv ?]];
      rewrite Hv, Zdigits2_mul_pow by lia; lia. }
  rewrite Hf. destruct Hv as [[Hv ?]|[Hv ?]].
  - replace (Z.max 0 (e - E)) with 0 by lia. rewrite Z.mul_1_r. simpl Z.to_pos.
    replace (Z.min e E) with e by lia. unfold binary_round_aux.
    assert (shr_fexp 53 1024 (Zpos m) e loc_Exact
            = ({| shr_m := Zpos M; shr_r := false; shr_s := false |}, E)) as ->.
    { unfold shr_fexp. rewrite Hf. unfold shr. destruct (E - e) as [|p|p] eqn:Ee; [| |lia].
      - simpl. rewrite Z.mul_1_r in Hv. rewrite Hv. f_equal. lia.
      - rewrite iter_pos_nat, Hv, <-(positive_nat_Z p). simpl shr_record_of_loc.
        rewrite iter_shr_1_exact by lia. f_equal. lia. }
    simpl. rewrite shr_fexp_canonical by done. simpl.
    destruct (E <=? _) eqn:Ele; [done|zsolve].
  - replace (Z.max 0 (e - E)) with (e - E) by lia. rewrite <-Hv. simpl Z.to_pos.
    replace (Z.min e E) with E by lia. unfold binary_round_aux.
    rewrite shr_fexp_canonical by done. simpl. rewrite shr_fexp_canonical by done. simpl.
    destruct (E <=? _) eqn:Ele; [done|zsolve].
Qed.

(** ** Lemmas: the operations on non-negative numbers *)

Lemma has_sign_nonneg x :
  valid_binary 53 1024 x = true → has_sign false x → nonneg x.
Proof. intros. split; [done|]. by destruct x. Qed.

Lemma f64_of_Z_nonneg z : 0 ≤ z → nonneg (f64_of_Z z).
Proof. intros. destruct (binary_normalize_nonneg z 0); [done|]. by apply has_sign_nonneg. Qed.

Lemma f64_add_nonneg x y : nonneg x → nonneg y → nonneg (f64_add x y).
Proof.
  intros [Hvx Hx] [Hvy Hy]. unfold f64_add.
  destruct x as [sx|sx| |sx mx ex], y as [sy|sy| |sy my ey]; simpl in *; subst; try by split.
  destruct (binary_normalize_nonneg (cond_Zopp false (Zpos (shl_align mx ex (Z.min ex ey)).1)
    + cond_Zopp false (Zpos (shl_align my ey (Z.min ex ey)).1)) (Z.min ex ey)); [simpl; lia|].
  by apply has_sign_nonneg.
Qed.

Lemma f64_mul_nonneg x y : nonneg x → nonneg y → nonneg (f64_mul x y).
Proof.
  intros [Hvx Hx] [Hvy Hy]. unfold f64_mul.
  destruct x as [sx|sx| |sx mx ex], y as [sy|sy| |sy my ey]; simpl in *; subst; try by split.
  apply bounded_canonical in Hvx as [(H1 & H2 & H3) _].
  apply bounded_canonical in Hvy as [(H4 & H5 & H6) _].
  assert (ex + ey ≤ fexp 53 1024 (Zdigits2 (Zpos (mx * my)) + (ex + ey))) as He.
  { rewrite fexp_eq, Pos2Z.inj_mul.
    destruct (Z.le_gt_cases (ex + ey) (-1074)); [lia|].
    assert (52 < Zdigits2 (Zpos mx * Zpos my)); [|lia]. apply Zdigits2_ge; [|lia].
    destruct H3 as [->|H3]; [|nia]. destruct H6 as [->|H6]; [lia|nia]. }
  destruct (binary_round_aux_valid false (Zpos (mx * my)) _ loc_Exact ltac:(lia) He).
  by apply has_sign_nonneg.
Qed.

Lemma div_digits a b :
  0 ≤ a → 0 < b → Zdigits2 a - Zdigits2 b ≤ Zdigits2 (a / b).
Proof.
  intros Ha Hb. destruct (Z.le_gt_cases (Zdigits2 a - Zdigits2 b) 0) as [|Hgt].
  { destruct (Zdigits2_bounds (a / b)); [apply Z.div_pos; lia|]. lia. }
  destruct (Zdigits2_bounds a Ha) as (H1 & H2 & H3).
  destruct (Zdigits2_bounds b) as (H4 & H5 & H6); [lia|].
  assert (0 < a) by (destruct (Z.eq_dec a 0) as [->|]; [simpl in *; lia|lia]).
  specialize (H3 ltac:(lia)).
  enough (Zdigits2 a - Zdigits2 b - 1 < Zdigits2 (a / b)) by lia.
  apply Zdigits2_ge; [|lia]. apply Z.div_le_lower_bound; [done|].
  transitivity (2 ^ (Zdigits2 a - 1)); [|done].
  replace (Zdigits2 a - 1) with (Zdigits2 b + (Zdigits2 a - Zdigits2 b - 1)) by lia.
  rewrite Z.pow_add_r by lia. apply Z.mul_le_mono_nonneg_r; lia.
Qed.

Lemma f64_div_nonneg x y : nonneg x → nonneg y → nonneg (f64_div x y).
Proof.
  intros [Hvx Hx] [Hvy Hy]. unfold f64_div.
  destruct x as [sx|sx| |sx mx ex], y as [sy|sy| |sy my ey]; simpl in *; subst; try by split.
  unfold SFdiv_core_binary. set (e' := Z.min _ (ex - ey)).
  set (m' := match ex - ey - e' with Z0 => _ | Zpos _ => _ | Zneg _ => _ end).
  assert (m' = Zpos mx * 2 ^ (ex - ey - e')) as Hm'.
  { unfold m'. assert (0 ≤ ex - ey - e') by lia.
    destruct (ex - ey - e') as [|p|p]; [lia| |lia]. by rewrite Z.shiftl_mul_pow2. }
  clearbody m'. rewrite (surjective_pairing (Z.div_eucl m' (Zpos my))).
  change (Z.div_eucl m' (Zpos my)).1 with (m' / Zpos my).
  assert (0 < 2 ^ (ex - ey - e')) by (apply Z.pow_pos_nonneg; lia).
  assert (e' ≤ fexp 53 1024 (Zdigits2 (m' / Zpos my) + e')) as He.
  { pose proof (div_digits m' (Zpos my) ltac:(lia) ltac:(lia)) as Hd.
    rewrite Hm', Zdigits2_mul_pow in Hd by lia. rewrite <-Hm' in Hd.
    unfold e' in *. rewrite !fexp_eq in *. lia. }
  destruct (binary_round_aux_valid false (m' / Zpos my) e'
    (new_location (Zpos my) (Z.div_eucl m' (Zpos my)).2)
    ltac:(apply Z.div_pos; lia) He).
  by apply has_sign_nonneg.
Qed.

Lemma f64_min_nonneg x y : nonneg x → nonneg y → nonneg (f64_min x y).
Proof. intros. unfold f64_min. repeat case_match; done. Qed.

Lemma as_secs_f64_nonneg d : 0 ≤ d → nonneg (as_secs_f64 d).
Proof.
  intros. apply f64_add_nonneg; [|apply f64_div_nonneg];
    apply f64_of_Z_nonneg; [apply Z.div_pos; lia| |lia].
  apply Z.mod_pos_bound; lia.
Qed.

(** ** Lemmas: the order and the exact values *)

Lemma scaled_lt_exponent m e m' e' :
  canonical m e → canonical m' e' → 0 < m' → e < e' →
  m * 2 ^ (e + 1074) < m' * 2 ^ (e' + 1074).
Proof.
  intros (H1 & H2 & H3) (H4 & H5 & H6) Hm' He. destruct H6 as [->|H6]; [lia|].
  replace (e' + 1074) with (1 + (e + 1074) + (e' - e - 1)) by lia.
  rewrite (Z.pow_add_r 2 (1 + (e + 1074))), (Z.pow_add_r 2 1) by lia.
  assert (0 < 2 ^ (e + 1074)) by (apply Z.pow_pos_nonneg; lia).
  assert (0 < 2 ^ (e' - e - 1)) by (apply Z.pow_pos_nonneg; lia).
  set (a := 2 ^ (e + 1074)) in *. set (b := 2 ^ (e' - e - 1)) in *.
  assert (m * a < 2 * 2 ^ 52 * a) by (apply Z.mul_lt_mono_pos_r; lia).
  assert (2 ^ 52 * a ≤ m' * a) by (apply Z.mul_le_mono_nonneg_r; lia).
  assert (m' * a * 1 ≤ m' * a * b) by (apply Z.mul_le_mono_nonneg_l; lia).
  lia.
Qed.

Lemma scaled_compare x y :
  nonneg x → nonneg y → is_finite x → is_finite y →
  SFcompare x y = Some (scaled x ?= scaled y).
Proof.
  intros [Hvx Hx] [Hvy Hy] Hfx Hfy.
  destruct x as [sx|sx| |sx mx ex], y as [sy|sy| |sy my ey]; cbn [SFcompare scaled is_finite valid_binary] in *;
    subst; try done.
  - f_equal. symmetry. apply Z.compare_lt_iff.
    apply bounded_canonical in Hvy as [(_ & ? & _) _].
    assert (0 < 2 ^ (ey + 1074)) by (apply Z.pow_pos_nonneg; lia). lia.
  - f_equal. symmetry. apply Z.compare_gt_iff.
    apply bounded_canonical in Hvx as [(_ & ? & _) _].
    assert (0 < 2 ^ (ex + 1074)) by (apply Z.pow_pos_nonneg; lia). lia.
  - apply bounded_canonical in Hvx as [Hcx _]. apply bounded_canonical in Hvy as [Hcy _].
    f_equal. symmetry. destruct (ex ?= ey) eqn:E.
    + apply Z.compare_eq in E as ->.
      assert (0 < 2 ^ (ey + 1074)) by (apply Z.pow_pos_nonneg; destruct Hcy; lia).
      by rewrite <-(Zmult_compare_compat_r (Zpos mx) (Zpos my) (2 ^ (ey + 1074))) by lia.
    + apply Z.compare_lt_iff, scaled_lt_exponent; done.
    + apply Z.compare_gt_iff, scaled_lt_exponent; try done. by apply Z.compare_gt_iff.
Qed.

Lemma f64_of_Z_exact z :
  0 ≤ z < 2 ^ 53 → is_finite (f64_of_Z z) ∧ scaled (f64_of_Z z) = z * 2 ^ 1074.
Proof.
  intros Hz. destruct (Z.eq_dec z 0) as [->|Hne]; [done|].
  destruct (Zdigits2_bounds z) as (H1 & H2 & H3); [lia|]. specialize (H3 ltac:(lia)).
  set (d := Zdigits2 z) in *. assert (d ≤ 53) by (apply Zdigits2_le; lia).
  assert (0 < d). { destruct (Z.eq_dec d 0) as [E|]; [|lia]. rewrite E in *. simpl in *. lia. }
  assert (0 < 2 ^ (53 - d)) by (apply Z.pow_pos_nonneg; lia).
  set (M := z * 2 ^ (53 - d)). assert (2 ^ 52 ≤ M < 2 ^ 53).
  { unfold M.
    assert (2 ^ (d - 1) * 2 ^ (53 - d) = 2 ^ 52) as E1
      by (rewrite <-Z.pow_add_r by lia; f_equal; lia).
    assert (2 ^ d * 2 ^ (53 - d) = 2 ^ 53) as E2
      by (rewrite <-Z.pow_add_r by lia; f_equal; lia).
    rewrite <-E1, <-E2. split; [apply Z.mul_le_mono_nonneg_r|apply Z.mul_lt_mono_pos_r]; lia. }
  assert (f64_of_Z z = S754_finite false (Z.to_pos M) (d - 53)) as ->.
  { unfold f64_of_Z. destruct z as [|z|z]; [lia| |lia]. simpl.
    apply binary_round_exact; [unfold canonical|lia|right]; rewrite ?Z2Pos.id by lia; [lia|].
    split; [|lia]. unfold M. f_equal. f_equal. lia. }
  split; [done|]. simpl. rewrite Z2Pos.id by lia. unfold M.
  rewrite <-Z.mul_assoc, <-Z.pow_add_r by lia. f_equal. f_equal. lia.
Qed.

Lemma f64_one_scaled : scaled f64_one = 2 ^ 1074 ∧ is_finite f64_one ∧ nonneg f64_one.
Proof.
  destruct (f64_of_Z_exact 1) as [H1 H2]; [lia|].
  split; [|split; [done|apply f64_of_Z_nonneg; lia]]. unfold f64_one. rewrite H2. lia.
Qed.

Lemma f64_ge_one x : nonneg x → is_finite x → f64_ge x f64_one = (2 ^ 1074 <=? scaled x).
Proof.
  intros Hx Hf. destruct f64_one_scaled as (H1 & H2 & H3).
  unfold f64_ge, SFleb. rewrite scaled_compare by done. rewrite H1.
  unfold Z.leb. by destruct (_ ?= _).
Qed.

Lemma f64_min_le x c :
  nonneg x → nonneg c → is_finite c →
  is_finite (f64_min x c) ∧ scaled (f64_min x c) ≤ scaled c ∧
  (is_finite x → scaled (f64_min x c) = Z.min (scaled x) (scaled c)).
Proof.
  intros Hx Hc Hf.
  assert (is_finite x → f64_min x c = if SFltb x c then x else c) as Hmin.
  { intros ?. by destruct x, c. }
  destruct (decide (is_finite x)) as [Hfx|Hnf].
  - rewrite (Hmin Hfx). unfold SFltb. rewrite scaled_compare by done.
    destruct (Z.compare_spec (scaled x) (scaled c));
      (split; [done|split; [lia|intros _; lia]]).
  - assert (f64_min x c = c) as ->; [|done].
    destruct Hx as [_ Hx]. destruct x; simpl in *; try done; subst; by destruct c.
Qed.

(** A number between 1 and 2^32 has one of these exponents. *)
Lemma exponent_range m e :
  canonical (Zpos m) e → 2 ^ 1074 ≤ scaled (S754_finite false m e) ≤ 2 ^ 32 * 2 ^ 1074 →
  -52 ≤ e ≤ -20.
Proof.
  intros Hc Hs. pose proof Hc as (H1 & H2 & H3). simpl scaled in Hs. split.
  - destruct (Z.le_gt_cases (-52) e); [done|].
    assert (Zpos m * 2 ^ (e + 1074) < 2 ^ 52 * 2 ^ (-52 + 1074)); [|lia].
    apply scaled_lt_exponent; [done|unfold canonical; lia|lia|lia].
  - destruct (Z.le_gt_cases e (-20)); [done|].
    assert (2 ^ 52 * 2 ^ (-20 + 1074) < Zpos m * 2 ^ (e + 1074)); [|lia].
    apply scaled_lt_exponent; [unfold canonical; lia|done|lia|lia].
Qed.

(** A whole number of units of [2 ^ e] below 2^53 of them is normalised exactly. *)
Lemma normalize_exact K e :
  -52 ≤ e ≤ -20 → 0 ≤ K < 2 ^ 53 →
  let r := binary_normalize 53 1024 (K * 2 ^ (e + 52)) (-52) false in
  nonneg r ∧ is_finite r ∧ scaled r = K * 2 ^ (e + 1074).
Proof.
  intros He HK r. subst r. destruct (Z.eq_dec K 0) as [->|Hne]; [done|].
  assert (0 < 2 ^ (e + 52)) as Hp by (apply Z.pow_pos_nonneg; lia).
  set (d := Zdigits2 (K * 2 ^ (e + 52))).
  assert (d = Zdigits2 K + (e + 52)) as Hd by (unfold d; by rewrite Zdigits2_mul_pow by lia).
  assert (0 ≤ Zdigits2 K) by (apply Zdigits2_bounds; lia).
  assert (Zdigits2 K ≤ 53) by (apply Zdigits2_le; lia).
  assert (0 < 2 ^ (e + 105 - d)) by (apply Z.pow_pos_nonneg; lia).
  set (M := K * 2 ^ (e + 105 - d)).
  assert (Zdigits2 M = 53) as HM by (unfold M; rewrite Zdigits2_mul_pow by lia; lia).
  assert (0 < M) by (unfold M; nia).
  destruct (Zdigits2_bounds M) as (_ & HM1 & HM2); [lia|]. specialize (HM2 ltac:(lia)).
  rewrite HM in HM1, HM2. change (53 - 1) with 52 in HM2.
  assert (canonical (Zpos (Z.to_pos M)) (d - 105)) as HcM.
  { rewrite Z2Pos.id by lia. unfold canonical. lia. }
  assert (binary_normalize 53 1024 (K * 2 ^ (e + 52)) (-52) false
          = S754_finite false (Z.to_pos M) (d - 105)) as ->.
  { assert (0 < K * 2 ^ (e + 52)) by nia. clearbody d.
    destruct (K * 2 ^ (e + 52)) as [|D|D] eqn:HD; [lia| |lia]. simpl.
    apply binary_round_exact; [done|lia|]. rewrite Z2Pos.id, <-HD by lia. unfold M.
    destruct (Z.le_ge_cases (-52) (d - 105)); [left|right]; (split; [|lia]);
      rewrite <-Z.mul_assoc, <-Z.pow_add_r by lia; f_equal; f_equal; lia. }
  split; [split; [simpl; by apply canonical_bounded; [|lia]|done]|]. split; [done|].
  simpl scaled. rewrite Z2Pos.id by lia. unfold M.
  rewrite <-Z.mul_assoc, <-Z.pow_add_r by lia. f_equal. f_equal. lia.
Qed.

(** Subtracting one is exact between 1 and 2^32. *)
Lemma f64_sub_one_exact x :
  nonneg x → is_finite x → 2 ^ 1074 ≤ scaled x ≤ 2 ^ 32 * 2 ^ 1074 →
  let r := f64_sub x f64_one in
  nonneg r ∧ is_finite r ∧ scaled r = scaled x - 2 ^ 1074.
Proof.
  intros Hx Hf Hs. destruct x as [sx|sx| |sx m e]; try done; [simpl in Hs; lia|].
  destruct Hx as [Hv Hsx]. simpl in Hsx. subst sx.
  apply bounded_canonical in Hv as [Hc _]. pose proof (exponent_range m e Hc Hs) as He.
  destruct Hc as (H1 & H2 & H3). simpl scaled in Hs.
  assert (f64_one = S754_finite false 4503599627370496 (-52)) as -> by reflexivity.
  unfold f64_sub, SFsub. cbv zeta. rewrite !shl_align_spec. simpl fst.
  replace (Z.min e (-52)) with (-52) by lia.
  replace (Z.max 0 (e - -52)) with (e + 52) by lia. replace (Z.max 0 (-52 - -52)) with 0 by lia.
  assert (0 < 2 ^ (e + 52)) as Hp by (apply Z.pow_pos_nonneg; lia).
  rewrite Z.mul_1_r. simpl cond_Zopp. rewrite Z2Pos.id by lia.
  assert (4503599627370496 = 2 ^ (- e) * 2 ^ (e + 52)) as ->.
  { rewrite <-Z.pow_add_r by lia. by replace (- e + (e + 52)) with 52 by lia. }
  rewrite <-Z.mul_sub_distr_r.
  assert (scaled (S754_finite false m e) - 2 ^ 1074 = (Zpos m - 2 ^ (- e)) * 2 ^ (e + 1074)) as HK.
  { simpl scaled. rewrite Z.mul_sub_distr_r, <-Z.pow_add_r by lia. f_equal. f_equal. lia. }
  rewrite HK. assert (0 < 2 ^ (e + 1074)) by (apply Z.pow_pos_nonneg; lia).
  assert (0 < 2 ^ (- e)) by (apply Z.pow_pos_nonneg; lia).
  apply normalize_exact; [done|]. simpl scaled in HK. nia.
Qed.

(** ** Lemmas: no time has passed *)

Lemma as_secs_f64_0 : as_secs_f64 0 = S754_zero false.
Proof. reflexivity. Qed.

Lemma f64_mul_zero x : nonneg x → is_finite x → f64_mul (S754_zero false) x = S754_zero false.
Proof. intros [_ Hx] Hf. destruct x; simpl in *; try done; by subst. Qed.

Lemma f64_add_zero x : nonneg x → f64_add x (S754_zero false) = x.
Proof. intros [_ Hx]. destruct x; simpl in *; try done; by subst. Qed.

Lemma f64_min_id x c :
  nonneg x → nonneg c → is_finite x → is_finite c → scaled x ≤ scaled c →
  scaled (f64_min x c) = scaled x ∧ is_finite (f64_min x c) ∧ nonneg (f64_min x c).
Proof.
  intros Hx Hc Hfx Hfc Hle. destruct (f64_min_le x c) as (H1 & H2 & H3); [done..|].
  split; [rewrite H3 by done; lia|]. split; [done|by apply f64_min_nonneg].
Qed.

#[export] Hint Resolve f64_of_Z_nonneg f64_add_nonneg f64_mul_nonneg f64_div_nonneg
  f64_min_nonneg as_secs_f64_nonneg : gateway.
