(* ===== verification/FloatError.v ===== *)
(** * How far binary64 operations round

    The standard model of rounding error, in whole units of 2^-1074: the result
    of an addition, a multiplication or a division of non-negative numbers is
    finite when the exact value is not too large, and differs from it by at
    most one part in 2^52 and one unit. *)

From S2P Require Export Float64.

#[local] Open Scope Z_scope.

(** The bounds on a rounded value [r], for an exact value of [v / s] units. *)
Definition rounded_up (r s v : Z) : Prop := 2 ^ 52 * (r * s) ≤ (2 ^ 52 + 1) * v + 2 ^ 52 * s.
Definition rounded_down (r s v : Z) : Prop := 2 ^ 52 * v ≤ (2 ^ 52 + 1) * (r * s) + 2 ^ 52 * s.
Definition rounded (r s v : Z) : Prop := rounded_up r s v ∧ rounded_down r s v.

(** The scaled value of a mantissa and an exponent, times 2^k to make it whole. *)
Lemma pow_split a b : 0 ≤ a → 0 ≤ b → 2 ^ (a + b) = 2 ^ a * 2 ^ b.
Proof. intros. by rewrite Z.pow_add_r. Qed.

Lemma scaled_of_mantissa m e : 0 ≤ m →
  scaled match m with Z0 => S754_zero false | Zpos p => S754_finite false p e | Zneg _ => S754_nan end
    = m * 2 ^ (e + 1074).
Proof. destruct m; simpl; lia. Qed.

(** Shifting digits out keeps the value between the mantissa and its successor. *)
Lemma shr_fexp_brackets m e l k :
  0 ≤ m → 0 ≤ e + 1074 + k →
  let sh := shr_fexp 53 1024 m e l in
  shr_m sh.1 * 2 ^ (sh.2 + 1074 + k) ≤ m * 2 ^ (e + 1074 + k) ∧
  (m + 1) * 2 ^ (e + 1074 + k) ≤ (shr_m sh.1 + 1) * 2 ^ (sh.2 + 1074 + k).
Proof.
  intros Hm Hk sh. subst sh. pose proof (shr_fexp_spec m e l Hm) as [Hm1 He1].
  destruct (shr_fexp 53 1024 m e l) as [mrs e1]. simpl in *. set (n := Z.max 0 _) in *.
  rewrite He1. replace (e + n + 1074 + k) with (n + (e + 1074 + k)) by lia.
  rewrite (pow_split n), !Z.mul_assoc by lia.
  assert (0 < 2 ^ n) as Hpn by (apply Z.pow_pos_nonneg; lia).
  pose proof (Z.mul_succ_div_gt m (2 ^ n) Hpn). pose proof (Z.mul_div_le m (2 ^ n) Hpn).
  split; (apply Z.mul_le_mono_nonneg_r; [lia|]); rewrite Hm1; lia.
Qed.

(** The exact value lies between the mantissa and its successor. *)
Lemma round_bounds m e l k :
  0 ≤ m → e ≤ fexp 53 1024 (Zdigits2 m + e) → 0 ≤ k → 0 ≤ e + 1074 + k →
  m * 2 ^ (e + 1074 + k) < 2 ^ (2000 + k) →
  let r := binary_round_aux 53 1024 false m e l in
  is_finite r ∧ rounded_up (scaled r) (2 ^ k) (m * 2 ^ (e + 1074 + k)) ∧
  rounded_down (scaled r) (2 ^ k) ((m + 1) * 2 ^ (e + 1074 + k)).
Proof.
  intros Hm He Hk Hke Hlt r. unfold r, binary_round_aux. clear r.
  pose proof (shr_fexp_first m e l Hm He) as Hc.
  pose proof (shr_fexp_brackets m e l k Hm Hke) as [Hv Hv'].
  destruct (shr_fexp 53 1024 m e l) as [mrs e1]. simpl in *. set (m2 := round_nearest_even _ _).
  assert (shr_m mrs ≤ m2 ≤ shr_m mrs + 1) as Hm2.
  { destruct (round_nearest_even_range (shr_m mrs) (loc_of_shr_record mrs)) as [E|E];
      change (m2 = shr_m mrs) in E || change (m2 = shr_m mrs + 1) in E; lia. }
  destruct (shr_fexp_second m2 e1) as (m' & e' & -> & Hc' & Heq & Hle).
  { destruct Hc as (H1 & H2 & H3). unfold canonical.
    destruct (Z.eq_dec m2 (2 ^ 53)); [right; lia|left].
    split; [lia|]. split; [lia|]. destruct H3; [by left|right; lia]. }
  simpl. destruct Hc as (H1 & H2 & H3). set (m1 := shr_m mrs) in *. clearbody m1 m2.
  assert (e1 ≤ 930) as Hsmall.
  { destruct H3 as [->|H3]; [lia|]. destruct (Z.le_gt_cases e1 930) as [|Hbig]; [done|].
    assert (2 ^ (2000 + k) ≤ m1 * 2 ^ (e1 + 1074 + k)); [|lia].
    transitivity (1 * 2 ^ (e1 + 1074 + k)); [|apply Z.mul_le_mono_nonneg_r; lia].
    rewrite Z.mul_1_l. apply Z.pow_le_mono_r; lia. }
  assert (m2 * 2 ^ (e1 + 1074) * 2 ^ k ≤ m1 * 2 ^ (e1 + 1074 + k) + 2 ^ (e1 + 1074 + k)) as Hup.
  { rewrite <-Z.mul_assoc, <-pow_split by lia.
    assert (0 < 2 ^ (e1 + 1074 + k)) by (apply Z.pow_pos_nonneg; lia). nia. }
  assert (m1 * 2 ^ (e1 + 1074 + k) ≤ m2 * 2 ^ (e1 + 1074) * 2 ^ k) as Hdown.
  { rewrite <-Z.mul_assoc, <-pow_split by lia. apply Z.mul_le_mono_nonneg_r; lia. }
  assert (2 ^ 52 * 2 ^ (e1 + 1074 + k) ≤ m1 * 2 ^ (e1 + 1074 + k) + 2 ^ 52 * 2 ^ k) as Hulp.
  { assert (0 < 2 ^ k) by (apply Z.pow_pos_nonneg; lia). destruct H3 as [->|H3].
    - replace (-1074 + 1074 + k) with k by lia. nia.
    - assert (2 ^ 52 * 2 ^ (e1 + 1074 + k) ≤ m1 * 2 ^ (e1 + 1074 + k))
        by (apply Z.mul_le_mono_nonneg_r; lia). lia. }
  assert (rounded_up (m' * 2 ^ (e' + 1074)) (2 ^ k) (m * 2 ^ (e + 1074 + k)) ∧
          rounded_down (m' * 2 ^ (e' + 1074)) (2 ^ k) ((m + 1) * 2 ^ (e + 1074 + k))) as Hr.
  { rewrite Heq. unfold rounded_up, rounded_down. rewrite Z.mul_add_distr_r in Hv'. lia. }
  destruct Hc' as ([Hm' _] & _). rewrite (proj2 (Z.leb_le e' _)) by lia.
  rewrite <-(scaled_of_mantissa m' e' Hm') in Hr. by destruct m'.
Qed.

Lemma rounded_down_le r s v w : v ≤ w → rounded_down r s w → rounded_down r s v.
Proof. unfold rounded_down. lia. Qed.

(** Without a remainder the mantissa is the exact value. *)
Lemma round_exact m e k :
  0 ≤ m → e ≤ fexp 53 1024 (Zdigits2 m + e) → 0 ≤ k → 0 ≤ e + 1074 + k →
  m * 2 ^ (e + 1074 + k) < 2 ^ (2000 + k) →
  let r := binary_round_aux 53 1024 false m e loc_Exact in
  is_finite r ∧ rounded (scaled r) (2 ^ k) (m * 2 ^ (e + 1074 + k)).
Proof.
  intros Hm He Hk Hke Hlt r. destruct (round_bounds m e loc_Exact k) as (Hf & Hu & Hd); try done.
  split; [done|]. split; [done|]. eapply rounded_down_le, Hd.
  apply Z.mul_le_mono_nonneg_r; lia.
Qed.

Lemma binary_round_bounds m e :
  -1074 ≤ e → Zpos m * 2 ^ (e + 1074) < 2 ^ 2000 →
  let r := binary_round 53 1024 false m e in
  is_finite r ∧ rounded (scaled r) 1 (Zpos m * 2 ^ (e + 1074)).
Proof.
  intros He Hlt r. unfold r, binary_round. clear r. rewrite shl_align_spec.
  set (t := fexp 53 1024 _). set (k := Z.max 0 (e - t)).
  assert (-1074 ≤ t) by (unfold t; rewrite fexp_eq; lia).
  assert (0 < 2 ^ k) by (apply Z.pow_pos_nonneg; lia).
  assert (Zpos m * 2 ^ k * 2 ^ (Z.min e t + 1074) = Zpos m * 2 ^ (e + 1074)) as Hval.
  { rewrite <-Z.mul_assoc, <-pow_split by lia. do 2 f_equal. lia. }
  rewrite Z2Pos.id by lia. rewrite <-Hval.
  change 1 with (2 ^ 0). rewrite <-(Z.add_0_r (Z.min e t + 1074)).
  apply round_exact; try lia.
  - rewrite Zdigits2_mul_pow by lia.
    replace (_ + k + Z.min e t) with (Zdigits2 (Zpos m) + e) by lia.
    change (Zdigits2 (Zpos m)) with (Zpos (digits2_pos m)). fold t. lia.
  - rewrite !Z.add_0_r. lia.
Qed.

Lemma scaled_pos x : nonneg x → 0 ≤ scaled x.
Proof.
  intros [Hv _]. destruct x as [| | |s m e]; simpl; try lia.
Qed.

Lemma f64_add_bounds x y :
  nonneg x → nonneg y → is_finite x → is_finite y → scaled x + scaled y < 2 ^ 2000 →
  is_finite (f64_add x y) ∧ rounded (scaled (f64_add x y)) 1 (scaled x + scaled y).
Proof.
  intros Hx Hy Hfx Hfy Hlt. pose proof (scaled_pos x Hx). pose proof (scaled_pos y Hy).
  destruct Hx as [Hvx Hx], Hy as [Hvy Hy]. unfold f64_add.
  destruct x as [sx|sx| |sx mx ex], y as [sy|sy| |sy my ey]; try done; simpl in Hx, Hy; subst;
    try (split; [done|]; simpl scaled; unfold rounded, rounded_up, rounded_down; lia).
  apply bounded_canonical in Hvx as [(_ & Hex & _) _].
  apply bounded_canonical in Hvy as [(_ & Hey & _) _].
  unfold SFadd. cbv zeta. rewrite !shl_align_spec. simpl fst. simpl cond_Zopp.
  set (e := Z.min ex ey) in *.
  assert (0 < 2 ^ Z.max 0 (ex - e)) by (apply Z.pow_pos_nonneg; lia).
  assert (0 < 2 ^ Z.max 0 (ey - e)) by (apply Z.pow_pos_nonneg; lia).
  set (a := Z.to_pos _). set (b := Z.to_pos (Zpos my * _)).
  assert (scaled (S754_finite false mx ex) + scaled (S754_finite false my ey)
          = Zpos (a + b) * 2 ^ (e + 1074)) as Hsum.
  { rewrite Pos2Z.inj_add. unfold a, b. rewrite !Z2Pos.id by lia. simpl scaled.
    rewrite Z.mul_add_distr_r, <-!Z.mul_assoc, <-!pow_split by lia.
    f_equal; do 2 f_equal; lia. }
  rewrite Hsum in *. change (Zpos a + Zpos b) with (Zpos (a + b)).
  unfold binary_normalize. apply binary_round_bounds; lia.
Qed.

Lemma f64_mul_bounds x y :
  nonneg x → nonneg y → is_finite x → is_finite y → scaled x * scaled y < 2 ^ 3074 →
  is_finite (f64_mul x y) ∧
  rounded (scaled (f64_mul x y)) (2 ^ 1074) (scaled x * scaled y).
Proof.
  intros Hx Hy Hfx Hfy Hlt. pose proof (scaled_pos x Hx). pose proof (scaled_pos y Hy).
  destruct Hx as [Hvx Hx], Hy as [Hvy Hy]. unfold f64_mul.
  destruct x as [sx|sx| |sx mx ex], y as [sy|sy| |sy my ey]; try done; simpl in Hx, Hy; subst;
    try (split; [done|]; simpl scaled; unfold rounded, rounded_up, rounded_down; lia).
  apply bounded_canonical in Hvx as [(H1 & H2 & H3) _].
  apply bounded_canonical in Hvy as [(H4 & H5 & H6) _].
  assert (scaled (S754_finite false mx ex) * scaled (S754_finite false my ey)
          = Zpos (mx * my) * 2 ^ (ex + ey + 1074 + 1074)) as Hprod.
  { simpl scaled. rewrite Pos2Z.inj_mul.
    replace (ex + ey + 1074 + 1074) with ((ex + 1074) + (ey + 1074)) by lia.
    rewrite (pow_split (ex + 1074) (ey + 1074)) by lia. ring. }
  rewrite Hprod in *. apply round_exact; try lia.
  rewrite fexp_eq, Pos2Z.inj_mul.
  destruct (Z.le_gt_cases (ex + ey) (-1074)); [lia|].
  assert (52 < Zdigits2 (Zpos mx * Zpos my)); [|lia]. apply Zdigits2_ge; [|lia].
  destruct H3 as [->|H3]; [|nia]. destruct H6 as [->|H6]; [lia|nia].
Qed.

(** Bounds in one unit, for a value bracketed in another. *)
Lemma rounded_rescale r K V W X Y :
  0 < K → 0 < Y → V * Y ≤ X * K ≤ W * Y →
  rounded_up r K V → rounded_down r K W → rounded r Y X.
Proof.
  unfold rounded, rounded_up, rounded_down. intros HK HY Hv Hup Hdown.
  apply (Z.mul_le_mono_nonneg_r _ _ Y) in Hup; [|lia].
  apply (Z.mul_le_mono_nonneg_r _ _ Y) in Hdown; [|lia].
  split; apply (Z.mul_le_mono_pos_r _ _ K HK).
  - replace (2 ^ 52 * (r * Y) * K) with (2 ^ 52 * (r * K) * Y) by ring.
    etransitivity; [exact Hup|].
    replace (((2 ^ 52 + 1) * V + 2 ^ 52 * K) * Y)
      with ((2 ^ 52 + 1) * (V * Y) + 2 ^ 52 * (K * Y)) by ring.
    replace (((2 ^ 52 + 1) * X + 2 ^ 52 * Y) * K)
      with ((2 ^ 52 + 1) * (X * K) + 2 ^ 52 * (K * Y)) by ring.
    lia.
  - replace (((2 ^ 52 + 1) * (r * Y) + 2 ^ 52 * Y) * K)
      with (((2 ^ 52 + 1) * (r * K) + 2 ^ 52 * K) * Y) by ring.
    etransitivity; [|exact Hdown].
    replace (2 ^ 52 * X * K) with (2 ^ 52 * (X * K)) by ring.
    replace (2 ^ 52 * W * Y) with (2 ^ 52 * (W * Y)) by ring. lia.
Qed.

(** The mantissa of a quotient, shifted to the exponent [e'], brackets it. *)
Lemma quotient_brackets mx my ex ey e' k :
  -1074 ≤ ex → -1074 ≤ ey → e' ≤ ex - ey → 0 ≤ k → 0 ≤ e' + 1074 + k →
  let m := Zpos mx * 2 ^ (ex - ey - e') in
  let q := m / Zpos my in
  let P := 2 ^ (e' + 1074 + k) in
  let Y := scaled (S754_finite false my ey) in
  q * P * Y ≤ scaled (S754_finite false mx ex) * 2 ^ 1074 * 2 ^ k ≤ (q + 1) * P * Y.
Proof.
  intros Hex Hey He Hk HP m q P Y.
  assert (Zpos my * q ≤ m ≤ Zpos my * (q + 1)) as Hqm.
  { pose proof (Z.mul_div_le m (Zpos my)). pose proof (Z.mul_succ_div_gt m (Zpos my)). lia. }
  assert (2 ^ (ex - ey - e') * (P * 2 ^ (ey + 1074)) = 2 ^ (ex + 1074) * (2 ^ 1074 * 2 ^ k)) as Hpow
    by (unfold P; rewrite <-!pow_split by lia; f_equal; lia).
  assert (scaled (S754_finite false mx ex) * 2 ^ 1074 * 2 ^ k = m * (P * 2 ^ (ey + 1074))) as ->.
  { unfold m. rewrite <-(Z.mul_assoc (Zpos mx)), Hpow. simpl scaled. ring. }
  assert (0 < P * 2 ^ (ey + 1074)) by (apply Z.mul_pos_pos; apply Z.pow_pos_nonneg; lia).
  unfold Y. simpl scaled.
  replace (q * P * (Zpos my * 2 ^ (ey + 1074))) with (Zpos my * q * (P * 2 ^ (ey + 1074))) by ring.
  replace ((q + 1) * P * (Zpos my * 2 ^ (ey + 1074)))
    with (Zpos my * (q + 1) * (P * 2 ^ (ey + 1074))) by ring.
  split; apply Z.mul_le_mono_nonneg_r; lia.
Qed.

(** The quotient, compared with its operands. *)
Lemma f64_div_bounds x y :
  nonneg x → nonneg y → is_finite x → is_finite y → 0 < scaled y →
  scaled x * 2 ^ 1074 < 2 ^ 2000 * scaled y →
  is_finite (f64_div x y) ∧ rounded (scaled (f64_div x y)) (scaled y) (scaled x * 2 ^ 1074).
Proof.
  intros Hx Hy Hfx Hfy Hy0 Hlt. destruct Hx as [Hvx Hx], Hy as [Hvy Hy]. unfold f64_div.
  destruct x as [sx|sx| |sx mx ex], y as [sy|sy| |sy my ey]; try done; simpl in Hx, Hy; subst;
    try (simpl in Hy0; lia);
    try (split; [done|]; unfold rounded, rounded_up, rounded_down; simpl scaled in *; lia).
  apply bounded_canonical in Hvx as [(_ & Hex & _) _].
  apply bounded_canonical in Hvy as [(_ & Hey & _) _].
  unfold SFdiv, SFdiv_core_binary. set (e' := Z.min _ (ex - ey)).
  set (m' := match ex - ey - e' with Z0 => _ | Zpos _ => _ | Zneg _ => _ end).
  assert (m' = Zpos mx * 2 ^ (ex - ey - e')) as Hm'.
  { unfold m'. assert (0 ≤ ex - ey - e') by lia.
    destruct (ex - ey - e') as [|p|p]; [lia| |lia]. by rewrite Z.shiftl_mul_pow2. }
  clearbody m'. rewrite (surjective_pairing (Z.div_eucl m' (Zpos my))).
  change (Z.div_eucl m' (Zpos my)).1 with (m' / Zpos my).
  assert (0 < 2 ^ (ex - ey - e')) by (apply Z.pow_pos_nonneg; lia).
  assert (e' ≤ fexp 53 1024 (Zdigits2 (m' / Zpos my) + e')) as He.
  { pose proof (div_digits m' (Zpos my) ltac:(lia) ltac:(lia)) as Hd.
    rewrite Hm', Zdigits2_mul_pow in Hd by lia. rewrite <-Hm' in Hd.
    unfold e' in *. rewrite !fexp_eq in *. lia. }
  set (k := Z.max 0 (- (e' + 1074))).
  pose proof (quotient_brackets mx my ex ey e' k Hex Hey ltac:(lia) ltac:(lia) ltac:(lia)) as Hv.
  cbv zeta in Hv. rewrite <-Hm' in Hv. set (q := m' / Zpos my) in *.
  assert (0 ≤ q) as Hq by (apply Z.div_pos; lia).
  assert (0 < 2 ^ k) as Hk by (apply Z.pow_pos_nonneg; lia).
  destruct (round_bounds q e' (new_location (Zpos my) (Z.div_eucl m' (Zpos my)).2) k)
    as (Hf & Hup & Hdown); [done|done|lia|lia| |].
  { rewrite (pow_split 2000 k) by lia. revert Hlt Hy0 Hv Hk. generalize (2 ^ 2000) (2 ^ k). clear.
    intros T K. nia. }
  change (xorb false false) with false. split; [exact Hf|]. by eapply rounded_rescale.
Qed.
