(* ===== verification/WasmAbi.v ===== *)
(** * The Wasm ABI types (wasm_abi.rs) *)

From S2P Require Export Prelude.

Definition ABI_VERSION : Z := 1.
Definition PLUGIN_CONTRACT_VERSION : Z := 1.

Inductive WasmPhase : Type := Init | Access | HeaderFilter | BodyFilter | Log.

Inductive WasmCapability : Type :=
| ReadHeaders | WriteHeaders | ReadBody | WriteBody | RewritePath | EmitLogs.

#[export] Instance WasmPhase_eq_dec : EqDecision WasmPhase.
Proof. solve_decision. Defined.
#[export] Instance WasmCapability_eq_dec : EqDecision WasmCapability.
Proof. solve_decision. Defined.

#[export] Instance WasmPhase_countable : Countable WasmPhase.
Proof.
  refine {|
    encode p := match p with Init => 1 | Access => 2 | HeaderFilter => 3 | BodyFilter => 4
                           | Log => 5 end;
    decode n := match n with 1 => Some Init | 2 => Some Access | 3 => Some HeaderFilter
                           | 4 => Some BodyFilter | 5 => Some Log | _ => None end;
  |}%positive.
  by intros [].
Defined.

#[export] Instance WasmCapability_countable : Countable WasmCapability.
Proof.
  refine {|
    encode c := match c with ReadHeaders => 1 | WriteHeaders => 2 | ReadBody => 3
                           | WriteBody => 4 | RewritePath => 5 | EmitLogs => 6 end;
    decode n := match n with 1 => Some ReadHeaders | 2 => Some WriteHeaders | 3 => Some ReadBody
                           | 4 => Some WriteBody | 5 => Some RewritePath | 6 => Some EmitLogs
                           | _ => None end;
  |}%positive.
  by intros [].
Defined.

(** The derived [Debug] names, which the error messages print. *)
Definition show_capability (c : WasmCapability) : string :=
  match c with
  | ReadHeaders => "ReadHeaders" | WriteHeaders => "WriteHeaders" | ReadBody => "ReadBody"
  | WriteBody => "WriteBody" | RewritePath => "RewritePath" | EmitLogs => "EmitLogs"
  end.

(** A call: the payload is represented by its bytes, each in [0, 256). *)
Record WasmCall : Type := {
  abi_version : Z;
  plugin_contract_version : Z;
  call_phase : WasmPhase;
  call_plugin : string;
  call_required_capabilities : list WasmCapability;
  call_payload : list Z;
}.

(** [WasmCall::new]. *)
Definition WasmCall_new (phase : WasmPhase) (plugin : string)
    (required_capabilities : list WasmCapability) (payload : list Z) : WasmCall := {|
  abi_version := ABI_VERSION;
  plugin_contract_version := PLUGIN_CONTRACT_VERSION;
  call_phase := phase;
  call_plugin := plugin;
  call_required_capabilities := required_capabilities;
  call_payload := payload;
|}.
