(* ===== verification/Observability.v ===== *)
(** * Metrics (observability.rs)

    Five [AtomicU64] counters with relaxed [fetch_add]; a relaxed
    read-modify-write of one location is still atomic, so each increment is
    one step on the record. *)

From S2P Require Export RustStr.

#[local] Open Scope string_scope.
#[local] Open Scope list_scope.

Record Metrics : Type := {
  total_requests : Z;
  total_errors : Z;
  total_unauthorized : Z;
  total_rate_limited : Z;
  total_upstream_failures : Z;
}.

(** [Metrics::default()]. *)
Definition Metrics_default : Metrics := {|
  total_requests := 0; total_errors := 0; total_unauthorized := 0;
  total_rate_limited := 0; total_upstream_failures := 0;
|}.

Definition inc_request (m : Metrics) : Metrics := {|
  total_requests := atomic_add 64 (total_requests m) 1;
  total_errors := total_errors m;
  total_unauthorized := total_unauthorized m;
  total_rate_limited := total_rate_limited m;
  total_upstream_failures := total_upstream_failures m;
|}.

Definition inc_error (m : Metrics) : Metrics := {|
  total_requests := total_requests m;
  total_errors := atomic_add 64 (total_errors m) 1;
  total_unauthorized := total_unauthorized m;
  total_rate_limited := total_rate_limited m;
  total_upstream_failures := total_upstream_failures m;
|}.

Definition inc_unauthorized (m : Metrics) : Metrics := {|
  total_requests := total_requests m;
  total_errors := total_errors m;
  total_unauthorized := atomic_add 64 (total_unauthorized m) 1;
  total_rate_limited := total_rate_limited m;
  total_upstream_failures := total_upstream_failures m;
|}.

Definition inc_rate_limited (m : Metrics) : Metrics := {|
  total_requests := total_requests m;
  total_errors := total_errors m;
  total_unauthorized := total_unauthorized m;
  total_rate_limited := atomic_add 64 (total_rate_limited m) 1;
  total_upstream_failures := total_upstream_failures m;
|}.

Definition inc_upstream_failure (m : Metrics) : Metrics := {|
  total_requests := total_requests m;
  total_errors := total_errors m;
  total_unauthorized := total_unauthorized m;
  total_rate_limited := total_rate_limited m;
  total_upstream_failures := atomic_add 64 (total_upstream_failures m) 1;
|}.

Definition newline : string := String (Ascii.ascii_of_nat 10) "".

(** One counter of the Prometheus text. *)
Definition render_counter (name : string) (value : Z) : string :=
  "# TYPE " +:+ name +:+ " counter" +:+ newline +:+
  name +:+ " " +:+ show_uint value +:+ newline.

Definition render_prometheus (m : Metrics) : string :=
  render_counter "gateway_requests_total" (total_requests m) +:+
  render_counter "gateway_errors_total" (total_errors m) +:+
  render_counter "gateway_unauthorized_total" (total_unauthorized m) +:+
  render_counter "gateway_rate_limited_total" (total_rate_limited m) +:+
  render_counter "gateway_upstream_failures_total" (total_upstream_failures m).
