(* ===== verification/Balancer.v ===== *)
(** * Load balancing (balancer.rs)

    [select_target] and [pick_weighted_target].  [usize] is 64 bits wide.
    The panic of an overflowing sum of weights (debug) or its wrap-around
    (release) is kept; the subtraction of the loop cannot underflow. *)

From S2P Require Export Interfaces.

Inductive BalancingStrategy : Type := RoundRobin | LeastConnections | StrategyHash.

Record UpstreamTarget : Type := {
  target_id : string;
  address : string;
  active_connections : Z;  (* usize *)
  weight : Z;              (* u32 *)
}.

#[export] Instance BalancingStrategy_eq_dec : EqDecision BalancingStrategy.
Proof. solve_decision. Defined.
#[export] Instance UpstreamTarget_eq_dec : EqDecision UpstreamTarget.
Proof. solve_decision. Defined.

Definition default_target_weight : Z := 1.

(** The field types of a target: [usize] connections and a [u32] weight. *)
Definition wf_target (t : UpstreamTarget) : Prop :=
  uint 64 (active_connections t) ∧ uint 32 (weight t).

(** The loop over the targets, with its mutable cursor. *)
Fixpoint pick_loop (cursor : Z) (targets : list UpstreamTarget) : option UpstreamTarget :=
  match targets with
  | [] => None
  | target :: rest =>
      if (weight target =? 0)%Z then pick_loop cursor rest
      else if (cursor <? weight target)%Z then Some target
      else pick_loop (cursor - weight target) rest
  end.

Definition pick_weighted_target (p : profile) (targets : list UpstreamTarget) (seed : Z)
    : outcome (option UpstreamTarget) :=
  total_weight ← sum_uint p 32 (weight <$> targets);
  if (total_weight =? 0)%Z then Done None
  else
    cursor ← rem_uint (wrap 32 seed) total_weight;
    Done (pick_loop cursor targets).

(** The key of the least-connections strategy. *)
Definition least_connections_key (target : UpstreamTarget) : Z :=
  if (weight target =? 0)%Z then umax 64
  else (active_connections target / weight target)%Z.

Definition select_target `{Hasher} (p : profile) (strategy : BalancingStrategy)
    (targets : list UpstreamTarget) (request_key : option string) (request_count : Z)
    : outcome (option UpstreamTarget) :=
  match strategy with
  | RoundRobin => pick_weighted_target p targets request_count
  | LeastConnections =>
      Done (min_by_key least_connections_key (filterb (λ t, (0 <? weight t)%Z) targets))
  | StrategyHash =>
      match request_key with
      | None => Done None
      | Some key => pick_weighted_target p targets (hash_finish [HashStr key])
      end
  end.

(** ** Lemmas *)

Lemma wf_weights_nonneg ts : Forall wf_target ts → Forall (λ w, 0 ≤ w)%Z (weight <$> ts).
Proof.
  intros H. apply Forall_fmap. eapply Forall_impl; [exact H|].
  intros t [_ [? _]]. simpl. lia.
Qed.

(** The loop finds the target whose weight interval contains the cursor. *)
Lemma pick_loop_spec ts : ∀ c,
  Forall (λ w, 0 ≤ w)%Z (weight <$> ts) → (0 ≤ c < sumZ (weight <$> ts))%Z →
  ∃ (i : nat) t, ts !! i = Some t ∧ pick_loop c ts = Some t ∧
    (sumZ (weight <$> take i ts) ≤ c < sumZ (weight <$> take i ts) + weight t)%Z.
Proof.
  induction ts as [|t ts IH]; intros c Hw Hc; [simpl in Hc; lia|].
  rewrite fmap_cons in *. rewrite sumZ_cons in Hc. simpl pick_loop.
  apply Forall_cons in Hw as [Ht Hw].
  destruct (weight t =? 0)%Z eqn:E0; [|destruct (c <? weight t)%Z eqn:E1]; bool_to_Z.
  - destruct (IH c Hw) as (i & u & Hi & Hp & Hr); [lia|].
    exists (S i), u. rewrite firstn_cons, fmap_cons, sumZ_cons. split_and!; try done; lia.
  - exists 0, t. simpl. split_and!; try done; lia.
  - destruct (IH (c - weight t)%Z Hw) as (i & u & Hi & Hp & Hr); [lia|].
    exists (S i), u. rewrite firstn_cons, fmap_cons, sumZ_cons. split_and!; try done; lia.
Qed.

(** Past the total weight the loop finds nothing. *)
Lemma pick_loop_ge ts : ∀ c,
  Forall (λ w, 0 ≤ w)%Z (weight <$> ts) → (sumZ (weight <$> ts) ≤ c)%Z →
  pick_loop c ts = None.
Proof.
  induction ts as [|t ts IH]; intros c Hw Hc; [done|].
  rewrite fmap_cons in *. rewrite sumZ_cons in Hc. simpl pick_loop.
  apply Forall_cons in Hw as [Ht Hw]. pose proof (sumZ_nonneg _ Hw).
  destruct (weight t =? 0)%Z eqn:E0; [|destruct (c <? weight t)%Z eqn:E1];
    bool_to_Z; try apply IH; try done; lia.
Qed.

Lemma pick_loop_positive ts : ∀ c t,
  Forall (λ w, 0 ≤ w)%Z (weight <$> ts) →
  pick_loop c ts = Some t → t ∈ ts ∧ (0 < weight t)%Z.
Proof.
  induction ts as [|u ts IH]; intros c t Hw; [done|].
  rewrite fmap_cons in Hw. simpl pick_loop.
  apply Forall_cons in Hw as [Hu Hw].
  destruct (weight u =? 0)%Z eqn:E0; [|destruct (c <? weight u)%Z eqn:E1]; bool_to_Z.
  - intros [??]%IH; [|done]. split; [by apply list_elem_of_further|done].
  - intros [= ->]. split; [apply list_elem_of_here|lia].
  - intros [??]%IH; [|done]. split; [by apply list_elem_of_further|done].
Qed.

Lemma pick_weighted_done p ts seed :
  Forall wf_target ts → (sumZ (weight <$> ts) < 2 ^ 32)%Z →
  pick_weighted_target p ts seed =
    Done (if (sumZ (weight <$> ts) =? 0)%Z then None
          else pick_loop (wrap 32 seed `mod` sumZ (weight <$> ts)) ts).
Proof.
  intros Hwf Hs. unfold pick_weighted_target.
  rewrite sum_uint_done by (done || by apply wf_weights_nonneg). simpl.
  destruct (_ =? 0)%Z eqn:E; [done|]. bool_to_Z. by rewrite rem_uint_done.
Qed.

(** How often the loop picks [t], over one period of cursors. *)
Definition picks (t : UpstreamTarget) (o : option UpstreamTarget) : bool :=
  bool_decide (o = Some t).

Lemma pick_loop_count ts t :
  Forall (λ w, 0 ≤ w)%Z (weight <$> ts) →
  Z.of_nat (countb (λ c, picks t (pick_loop c ts)) (seqZ 0 (sumZ (weight <$> ts))))
  = sumZ (weight <$> filterb (λ u, bool_decide (u = t)) ts).
Proof.
  induction ts as [|u ts IH]; intros Hw; [done|].
  apply Forall_cons in Hw as [Hu Hw]. pose proof (sumZ_nonneg _ Hw) as Hs.
  rewrite filterb_cons, fmap_cons, sumZ_cons.
  rewrite seqZ_app, countb_app by done. rewrite (seqZ_shift 0), countb_fmap.
  rewrite (countb_ext _ (λ _, bool_decide (u = t)) (seqZ 0 (weight u))), countb_const.
  - rewrite (countb_ext _ (λ c, picks t (pick_loop c ts)) (seqZ 0 (sumZ _))).
    + rewrite Nat2Z.inj_add, IH by done. case_bool_decide;
        rewrite ?fmap_cons, ?sumZ_cons, ?length_seqZ; lia.
    + intros c [Hc _]%elem_of_seqZ. simpl.
      destruct (weight u =? 0)%Z eqn:E0; bool_to_Z; [by rewrite E0, Z.add_0_r|].
      rewrite (proj2 (Z.ltb_ge _ _)) by lia. by rewrite Z.add_simpl_r.
  - intros c [? ?]%elem_of_seqZ. simpl.
    rewrite (proj2 (Z.eqb_neq _ _)), (proj2 (Z.ltb_lt _ _)) by lia.
    unfold picks. apply bool_decide_ext. naive_solver.
Qed.

Lemma wrap32_mod base n s :
  (0 ≤ base)%Z → (base + n ≤ 2 ^ 32)%Z → s ∈ seqZ base n → wrap 32 s = s.
Proof. intros ? ? [? ?]%elem_of_seqZ. apply wrap_small. unfold uint. lia. Qed.

Lemma filterb_wf f ts : Forall wf_target ts → Forall wf_target (filterb f ts).
Proof.
  rewrite !Forall_forall. intros H t [? _]%elem_of_filterb. by apply H.
Qed.

#[export] Hint Resolve wf_weights_nonneg filterb_wf : gateway.

Lemma select_target_positive `{Hasher} p strategy targets key count t :
  Forall wf_target targets →
  select_target p strategy targets key count = Done (Some t) →
  t ∈ targets ∧ (0 < weight t)%Z.
Proof.
  intros Hwf.
  assert (∀ seed, pick_weighted_target p targets seed = Done (Some t) →
      t ∈ targets ∧ (0 < weight t)%Z) as Hpick.
  { intros seed. unfold pick_weighted_target.
    destruct (sum_uint p 32 _) as [total|]; simpl; [|done].
    destruct (total =? 0)%Z; [done|].
    destruct (rem_uint _ total) as [c|]; simpl; [|done].
    intros [= Hp]. eapply pick_loop_positive; [by apply wf_weights_nonneg|done]. }
  destruct strategy; simpl; [apply Hpick| |destruct key; [apply Hpick|done]].
  intros [= Hm]. unfold min_by_key in Hm.
  destruct (filterb _ targets) as [|u us] eqn:E; [done|]. injection Hm as Hm.
  destruct (min_by_key_from_spec least_connections_key us u) as (i & Hi & _).
  rewrite Hm, <-E in Hi. apply list_elem_of_lookup_2, elem_of_filterb in Hi as [? ?].
  split; [done|]. zsolve.
Qed.


(** Targets of the witnesses. *)
Definition target_a : UpstreamTarget :=
  {| target_id := "a"; address := "10.0.0.1:8080"; active_connections := 4; weight := 1 |}.
Definition target_b : UpstreamTarget :=
  {| target_id := "b"; address := "10.0.0.2:8080"; active_connections := 1; weight := 3 |}.

Ltac wf_targets := repeat constructor; simpl; unfold uint; lia.

(** ** Properties *)

(** C21: weighted round robin is exactly proportional.  When the weights fit in
    a [u32], over as many consecutive request counts as the total weight
    (none of them past [u32::MAX]) a target is selected as often as its
    weight: the number of selections of [t] is the sum of the weights of the
    entries equal to [t], from any starting count. *)
Theorem round_robin_proportional `{Hasher} p targets t base :
  Forall wf_target targets →
  (0 < sumZ (weight <$> targets) < 2 ^ 32)%Z →
  (0 ≤ base)%Z → (base + sumZ (weight <$> targets) ≤ 2 ^ 32)%Z →
  Z.of_nat (countb (λ n, bool_decide (select_target p RoundRobin targets None n = Done (Some t)))
                   (seqZ base (sumZ (weight <$> targets))))
  = sumZ (weight <$> filterb (λ u, bool_decide (u = t)) targets).
Proof.
  intros Hwf Hs Hb Hn. rewrite <-pick_loop_count by by apply wf_weights_nonneg.
  f_equal. rewrite <-(seqZ_residues _ base) by lia. rewrite countb_fmap.
  apply countb_ext. intros n Hin. simpl. rewrite pick_weighted_done by (done || lia).
  rewrite (proj2 (Z.eqb_neq _ _)) by lia.
  rewrite (wrap32_mod base (sumZ (weight <$> targets))) by done.
  unfold picks. apply bool_decide_ext. split; [by intros [= ?]|by intros ->].
Qed.

Lemma round_robin_proportional_witness :
  Z.of_nat (countb (λ n, bool_decide (@select_target fnv_hasher Debug RoundRobin
      [target_a; target_b] None n = Done (Some target_b))) (seqZ 7 4)) = 3%Z.
Proof.
  apply (@round_robin_proportional fnv_hasher Debug [target_a; target_b] target_b 7);
    [wf_targets|simpl; lia..].
Defined.

(** The weighted pick is total and respects the weight intervals.  With
    weights that fit in a [u32], it never panics; with total weight 0 it
    returns no target; otherwise it returns the target whose interval of
    cumulated weights contains [seed mod 2^32 mod total]. *)
Theorem pick_weighted_interval p targets seed :
  Forall wf_target targets → (sumZ (weight <$> targets) < 2 ^ 32)%Z →
  let total := sumZ (weight <$> targets) in
  (total = 0%Z ∧ pick_weighted_target p targets seed = Done None) ∨
  ∃ (i : nat) t, targets !! i = Some t ∧
    pick_weighted_target p targets seed = Done (Some t) ∧
    (sumZ (weight <$> take i targets) ≤ (seed `mod` 2 ^ 32) `mod` total
       < sumZ (weight <$> take i targets) + weight t)%Z.
Proof.
  intros Hwf Hs total. rewrite pick_weighted_done by done. fold total.
  destruct (total =? 0)%Z eqn:E; bool_to_Z; [by left|right].
  pose proof (sumZ_nonneg _ (wf_weights_nonneg _ Hwf)).
  destruct (pick_loop_spec targets (wrap 32 seed `mod` total)) as (i & t & Hi & Hp & Hr).
  - by apply wf_weights_nonneg.
  - apply Z.mod_pos_bound. unfold total in *. lia.
  - exists i, t. split; [done|]. split; [by rewrite Hp|]. exact Hr.
Qed.

Lemma pick_weighted_interval_witness :
  ∃ t, pick_weighted_target Release [target_a; target_b] 6 = Done (Some t).
Proof.
  destruct (pick_weighted_interval Release [target_a; target_b] 6) as [[? _]|(i & t & _ & H & _)];
    [wf_targets|simpl; lia|done|by exists t].
Defined.

(** Whatever the strategy, the build profile and the hash, a selected
    target is one of the given ones and has a positive weight. *)
Theorem selected_target_eligible `{Hasher} p strategy targets key count t :
  Forall wf_target targets →
  select_target p strategy targets key count = Done (Some t) →
  t ∈ targets ∧ (0 < weight t)%Z.
Proof. apply select_target_positive. Qed.

Lemma selected_target_eligible_witness :
  target_b ∈ [target_a; target_b] ∧ (0 < weight target_b)%Z.
Proof.
  apply (@selected_target_eligible fnv_hasher Debug LeastConnections [target_a; target_b] None 0);
    [wf_targets|reflexivity].
Defined.

(** Least connections selects an optimal target: among the targets with a
    positive weight, its number of connections per unit of weight is minimal
    (and the first such target is taken); it selects nothing only when no
    target has a positive weight. *)
Theorem least_connections_optimal `{Hasher} p targets key count :
  let eligible := filterb (λ t, (0 <? weight t)%Z) targets in
  (eligible = [] ∧ select_target p LeastConnections targets key count = Done None) ∨
  ∃ (i : nat) t, eligible !! i = Some t ∧
    select_target p LeastConnections targets key count = Done (Some t) ∧
    ∀ (j : nat) u, eligible !! j = Some u →
      (active_connections t / weight t ≤ active_connections u / weight u)%Z ∧
      ((j < i)%nat → active_connections t / weight t < active_connections u / weight u)%Z.
Proof.
  intros eligible. simpl. fold eligible.
  assert (∀ (j : nat) u, eligible !! j = Some u →
      least_connections_key u = (active_connections u / weight u)%Z) as Hkey.
  { intros j u Hu. apply list_elem_of_lookup_2, elem_of_filterb in Hu as [_ Hu].
    unfold least_connections_key. rewrite (proj2 (Z.eqb_neq _ _)); [done|zsolve]. }
  clearbody eligible. destruct eligible as [|u us]; [by left|right]. simpl.
  destruct (min_by_key_from_spec least_connections_key us u) as (i & Hi & Hmin).
  eexists i, _. split; [exact Hi|]. split; [done|].
  intros j v Hv. rewrite <-(Hkey j v Hv), <-(Hkey i _ Hi). by apply Hmin.
Qed.

(** An overflow of the weights.  Each weight is a [u32], but nothing bounds
    their sum: at or above 2^32 a debug build panics on every weighted pick,
    and when the sum is exactly 2^32 a release build wraps it to 0 and returns
    no target although targets with a positive weight exist. *)
Theorem weight_sum_overflow targets seed :
  Forall wf_target targets → (2 ^ 32 ≤ sumZ (weight <$> targets))%Z →
  is_done (pick_weighted_target Debug targets seed) = false ∧
  (sumZ (weight <$> targets) = (2 ^ 32)%Z →
   pick_weighted_target Release targets seed = Done None).
Proof.
  intros Hwf Hs. unfold pick_weighted_target. split.
  - pose proof (sum_uint_debug_overflow 32 (weight <$> targets) ltac:(lia) Hs) as Hd.
    by destruct (sum_uint Debug 32 (weight <$> targets)).
  - intros Heq. by rewrite sum_uint_release, Heq by done.
Qed.

Definition target_half : UpstreamTarget :=
  {| target_id := "h"; address := "10.0.0.3:8080"; active_connections := 0;
     weight := 2147483648 |}.

Lemma weight_sum_overflow_witness :
  pick_weighted_target Release [target_half; target_half] 0 = Done None.
Proof.
  apply (weight_sum_overflow [target_half; target_half] 0); [wf_targets|simpl; lia|reflexivity].
Defined.
