(* ===== verification/Router.v ===== *)
(** * Routes and route matching (router.rs)

    The route configuration records and [match_route].  A [HashMap] of the
    configuration is a [gmap]. *)

From S2P Require Export RustStr.

#[local] Open Scope string_scope.
#[local] Open Scope list_scope.

Inductive Protocol : Type := Http1 | Http2 | Grpc.

#[export] Instance Protocol_eq_dec : EqDecision Protocol.
Proof. solve_decision. Defined.

Record RequestTransform : Type := {
  req_add_headers : gmap string string;
  req_set_headers : gmap string string;
  req_remove_headers : list string;
  path_prefix_rewrite : option string;
  req_body_replace : option string;
}.

Record ResponseTransform : Type := {
  resp_add_headers : gmap string string;
  resp_set_headers : gmap string string;
  resp_remove_headers : list string;
  resp_body_replace : option string;
}.

Record TransformConfig : Type := {
  transform_request : RequestTransform;
  transform_response : ResponseTransform;
}.

Record CanaryHeaderMatch : Type := {
  canary_header_name : string;
  canary_header_value : string;
}.

Record TrafficSplitConfig : Type := {
  canary_upstream : option string;
  canary_percentage : Z;  (* u8 *)
  canary_header : option CanaryHeaderMatch;
}.

Record FaultInjectionConfig : Type := {
  fault_enabled : bool;
  probability_percent : Z;  (* u8 *)
  delay_ms : Z;             (* u64 *)
  jitter_ms : Z;            (* u64 *)
  abort_status : option Z;  (* u16 *)
  abort_body : option string;
}.

Record Route : Type := {
  route_name : string;
  path_prefix : string;
  route_upstream : string;
  protocols : list Protocol;
  transform : TransformConfig;
  traffic_split : TrafficSplitConfig;
  fault_injection : FaultInjectionConfig;
}.

(** The derived [Default] implementations. *)
Definition RequestTransform_default : RequestTransform := {|
  req_add_headers := ∅; req_set_headers := ∅; req_remove_headers := [];
  path_prefix_rewrite := None; req_body_replace := None;
|}.
Definition ResponseTransform_default : ResponseTransform := {|
  resp_add_headers := ∅; resp_set_headers := ∅; resp_remove_headers := [];
  resp_body_replace := None;
|}.
Definition TransformConfig_default : TransformConfig := {|
  transform_request := RequestTransform_default;
  transform_response := ResponseTransform_default;
|}.
Definition TrafficSplitConfig_default : TrafficSplitConfig := {|
  canary_upstream := None; canary_percentage := 0; canary_header := None;
|}.
Definition FaultInjectionConfig_default : FaultInjectionConfig := {|
  fault_enabled := false; probability_percent := 0; delay_ms := 0; jitter_ms := 0;
  abort_status := None; abort_body := None;
|}.

(** The default of a missing [probability_percent] field. *)
Definition default_fault_probability : Z := 100.

(** The filter of [match_route]: protocol and prefix. *)
Definition route_matches (path : string) (protocol : Protocol) (route : Route) : bool :=
  ((match protocols route with [] => true | _ => false end)
   || bool_decide (protocol ∈ protocols route))
  && starts_with path (path_prefix route).

Definition match_route (routes : list Route) (path : string) (protocol : Protocol)
    : option Route :=
  max_by_key (λ route, str_len (path_prefix route)) (filterb (route_matches path protocol) routes).

(** ** Lemmas *)

Lemma match_route_In routes path protocol r :
  match_route routes path protocol = Some r →
  r ∈ routes ∧ route_matches path protocol r = true.
Proof.
  unfold match_route, max_by_key. destruct (filterb _ _) as [|x l] eqn:E; [done|].
  intros [= <-].
  destruct (max_by_key_from_spec (λ r, str_len (path_prefix r)) l x) as (i & Hi & _).
  rewrite <-E in Hi. by apply list_elem_of_lookup_2, elem_of_filterb in Hi.
Qed.

Lemma route_matches_prefix path protocol r :
  route_matches path protocol r = true → ∃ rest, path = path_prefix r +:+ rest.
Proof. intros [_ H]%andb_true_iff. by apply starts_with_inv. Qed.

(** Routes of the witnesses. *)
Definition plain_route (name prefix upstream : string) (ps : list Protocol) : Route := {|
  route_name := name; path_prefix := prefix; route_upstream := upstream; protocols := ps;
  transform := TransformConfig_default; traffic_split := TrafficSplitConfig_default;
  fault_injection := FaultInjectionConfig_default;
|}.

(** ** Properties *)

(** C19: [match_route] returns the route with the longest matching prefix, and
    the last such route of the configuration: every matching route before it
    has a prefix at most as long, every matching route after it a strictly
    shorter one.  It returns nothing exactly when no route matches. *)
Theorem match_route_longest_prefix routes path protocol :
  match match_route routes path protocol with
  | None => ∀ r, r ∈ routes → route_matches path protocol r = false
  | Some r =>
      route_matches path protocol r = true ∧
      ∃ before after, routes = before ++ r :: after ∧
        (∀ q, q ∈ before → route_matches path protocol q = true →
           str_len (path_prefix q) ≤ str_len (path_prefix r))%Z ∧
        (∀ q, q ∈ after → route_matches path protocol q = true →
           str_len (path_prefix q) < str_len (path_prefix r))%Z
  end.
Proof.
  pose proof (match_route_In routes path protocol) as Hin. revert Hin.
  unfold match_route, max_by_key. destruct (filterb _ _) as [|x l] eqn:E; intros Hin.
  { by apply filterb_nil_iff. }
  destruct (Hin _ eq_refl) as [_ Hm]. split; [done|].
  destruct (max_by_key_from_spec (λ r, str_len (path_prefix r)) l x) as (i & Hi & Hmax).
  set (r := max_by_key_from _ _ _) in *.
  pose proof (list_elem_of_split_length _ _ _ Hi) as (k1 & k2 & Hk & Hlen).
  rewrite Hk in E. apply filterb_app_inv in E as (l1 & l2 & -> & H1 & H2).
  exists l1, l2. split; [done|]. rewrite Hk in Hmax. split; intros q Hq Hqm.
  - assert (q ∈ k1) as [j Hj]%list_elem_of_lookup_1 by (rewrite <-H1; by apply elem_of_filterb).
    eapply (Hmax j). by apply lookup_app_l_Some.
  - assert (q ∈ k2) as [j Hj]%list_elem_of_lookup_1 by (rewrite <-H2; by apply elem_of_filterb).
    apply (Hmax (length k1 + S j)); [|lia].
    rewrite lookup_app_r by lia. by replace (_ + S j - _) with (S j) by lia.
Qed.
