(* ===== verification/Security.v ===== *)
(** * Authentication and authorisation (security.rs)

    [SecurityConfig] with [authenticate], [authenticate_mode] and [authorize].
    Header map, JSON and token verification are the interfaces of
    [Interfaces]; a [HashSet] is a [gset]. *)

From S2P Require Export Interfaces.

#[local] Open Scope string_scope.
#[local] Open Scope list_scope.

Inductive AuthMode : Type := Anonymous | Jwt | OAuth2 | OpenIdConnect | Mtls.

#[export] Instance AuthMode_eq_dec : EqDecision AuthMode.
Proof. solve_decision. Defined.

(** The derived [Debug] name. *)
Definition show_mode (m : AuthMode) : string :=
  match m with
  | Anonymous => "Anonymous" | Jwt => "Jwt" | OAuth2 => "OAuth2"
  | OpenIdConnect => "OpenIdConnect" | Mtls => "Mtls"
  end.

Definition default_roles_claim : string := "roles".
Definition default_groups_claim : string := "groups".
Definition default_mtls_subject_header : string := "x-client-cert-subject".
Definition default_mtls_roles_header : string := "x-client-cert-roles".
Definition default_mtls_groups_header : string := "x-client-cert-groups".

Record JwtConfig : Type := {
  jwt_secret : string; jwt_roles_claim : string; jwt_groups_claim : string }.
Record OAuth2Config : Type := {
  oauth2_secret : string; oauth2_issuer : string; oauth2_audience : string;
  oauth2_roles_claim : string; oauth2_groups_claim : string }.
Record OpenIdConnectConfig : Type := {
  oidc_secret : string; oidc_issuer : string; oidc_audience : string;
  oidc_roles_claim : string; oidc_groups_claim : string }.
Record MtlsConfig : Type := {
  subject_header : string; roles_header : string; groups_header : string;
  allowed_subjects : list string }.

Record RoleBinding : Type := { rb_role : string; rb_route : string }.
Record GroupBinding : Type := { gb_group : string; gb_route : string }.
Record SubjectBinding : Type := { sb_subject : string; sb_route : string }.

Record SecurityConfig : Type := {
  enabled_modes : list AuthMode;
  rbac : list RoleBinding;
  group_rbac : list GroupBinding;
  jwt : JwtConfig;
  oauth2 : OAuth2Config;
  openid_connect : OpenIdConnectConfig;
  mtls : MtlsConfig;
  subject_rbac : list SubjectBinding;
}.

Record AuthContext : Type := {
  ctx_mode : AuthMode;
  ctx_roles : list string;
  ctx_groups : list string;
  ctx_subject : option string;
  ctx_route_name : string;
}.

Record AuthenticatedIdentity : Type := {
  id_mode : AuthMode;
  id_roles : list string;
  id_groups : list string;
  id_subject : option string;
}.

(** The derived [Default] implementations: every string empty, every list
    empty, whatever the serde defaults of the fields say. *)
Definition JwtConfig_default : JwtConfig :=
  {| jwt_secret := ""; jwt_roles_claim := ""; jwt_groups_claim := "" |}.
Definition OAuth2Config_default : OAuth2Config :=
  {| oauth2_secret := ""; oauth2_issuer := ""; oauth2_audience := "";
     oauth2_roles_claim := ""; oauth2_groups_claim := "" |}.
Definition OpenIdConnectConfig_default : OpenIdConnectConfig :=
  {| oidc_secret := ""; oidc_issuer := ""; oidc_audience := "";
     oidc_roles_claim := ""; oidc_groups_claim := "" |}.
Definition MtlsConfig_default : MtlsConfig :=
  {| subject_header := ""; roles_header := ""; groups_header := ""; allowed_subjects := [] |}.
Definition SecurityConfig_default : SecurityConfig := {|
  enabled_modes := []; rbac := []; group_rbac := []; jwt := JwtConfig_default;
  oauth2 := OAuth2Config_default; openid_connect := OpenIdConnectConfig_default;
  mtls := MtlsConfig_default; subject_rbac := [];
|}.

Definition anonymous_identity : AuthenticatedIdentity :=
  {| id_mode := Anonymous; id_roles := []; id_groups := []; id_subject := None |}.

(** ** Strings and claims *)

Definition non_empty (value : string) : option string :=
  if is_empty value then None else Some value.

Definition split_claim_values (value : string) : list string :=
  filterb (λ v, negb (is_empty v)) (trim <$> split_whitespace value).

Definition split_header_values (value : string) : list string :=
  filterb (λ v, negb (is_empty v)) (trim <$> split_on ","%char value).

Definition extract_claim_values `{JsonOps} (claims : Json) (claim_name : string)
    (include_legacy_role_claim : bool) : list string :=
  let values :=
    match json_get claims claim_name with
    | Some value =>
        match json_as_array value with
        | Some arr =>
            foldl (λ acc item,
              match json_as_str item with
              | Some item => acc ++ split_claim_values item
              | None => acc
              end) [] arr
        | None =>
            match json_as_str value with
            | Some single => split_claim_values single
            | None => []
            end
        end
    | None => []
    end in
  if include_legacy_role_claim then
    match v ← json_get claims "role"; json_as_str v with
    | Some single_role => values ++ [single_role]
    | None => values
    end
  else values.

Section auth.
Context `{HeaderMapOps, J : JsonOps, !JwtOps J}.

Definition extract_header_values (headers : HeaderMap) (header_name : string) : list string :=
  match v ← hm_get_str headers header_name; value_to_str v with
  | Some value => split_header_values value
  | None => []
  end.

(** The bearer token of the request. *)
Definition bearer_token (headers : HeaderMap) : option string :=
  v ← hm_get_str headers "authorization"; s ← value_to_str v; strip_prefix s "Bearer ".

Definition decode_token_claims (headers : HeaderMap) (secret : string)
    (issuer audience : option string) (invalid_token_message : string) : result string Json :=
  if is_empty secret then Err "token secret is not configured"
  else
    bearer ← ok_or "missing bearer token" (bearer_token headers);
    map_err (λ err, invalid_token_message +:+ ": " +:+ err)
            (jwt_decode bearer secret issuer audience).

(** The mTLS subject: the trimmed, non-empty subject header. *)
Definition mtls_subject (cfg : SecurityConfig) (headers : HeaderMap) : option string :=
  v ← hm_get_str headers (subject_header (mtls cfg));
  s ← value_to_str v;
  non_empty (trim s).

Definition authenticate_mode (cfg : SecurityConfig) (mode : AuthMode) (headers : HeaderMap)
    : result string AuthenticatedIdentity :=
  match mode with
  | Anonymous => Ok anonymous_identity
  | Jwt =>
      claims ← decode_token_claims headers (jwt_secret (jwt cfg)) None None "invalid jwt";
      Ok {| id_mode := mode;
            id_roles := extract_claim_values claims (jwt_roles_claim (jwt cfg)) true;
            id_groups := extract_claim_values claims (jwt_groups_claim (jwt cfg)) false;
            id_subject := None |}
  | OAuth2 =>
      claims ← decode_token_claims headers (oauth2_secret (oauth2 cfg))
                 (non_empty (oauth2_issuer (oauth2 cfg)))
                 (non_empty (oauth2_audience (oauth2 cfg))) "invalid oauth2 token";
      Ok {| id_mode := mode;
            id_roles := extract_claim_values claims (oauth2_roles_claim (oauth2 cfg)) false;
            id_groups := extract_claim_values claims (oauth2_groups_claim (oauth2 cfg)) false;
            id_subject := None |}
  | OpenIdConnect =>
      claims ← decode_token_claims headers (oidc_secret (openid_connect cfg))
                 (non_empty (oidc_issuer (openid_connect cfg)))
                 (non_empty (oidc_audience (openid_connect cfg)))
                 "invalid openid connect token";
      Ok {| id_mode := mode;
            id_roles := extract_claim_values claims (oidc_roles_claim (openid_connect cfg)) false;
            id_groups := extract_claim_values claims (oidc_groups_claim (openid_connect cfg)) false;
            id_subject := None |}
  | Mtls =>
      subject ← ok_or "missing mTLS subject" (mtls_subject cfg headers);
      if negb (bool_decide (allowed_subjects (mtls cfg) = []))
         && negb (bool_decide (subject ∈ allowed_subjects (mtls cfg)))
      then Err "mTLS subject is not allowed"
      else
        Ok {| id_mode := mode;
              id_roles := extract_header_values headers (roles_header (mtls cfg));
              id_groups := extract_header_values headers (groups_header (mtls cfg));
              id_subject := Some subject |}
  end.

(** The loop over the enabled modes, collecting the errors. *)
Fixpoint try_modes (cfg : SecurityConfig) (headers : HeaderMap) (modes : list AuthMode)
    (errors : list string) : result string AuthenticatedIdentity :=
  match modes with
  | [] => Err ("authentication failed for all enabled modes: " +:+ join " | " errors)
  | mode :: rest =>
      match authenticate_mode cfg mode headers with
      | Ok identity => Ok identity
      | Err err => try_modes cfg headers rest (errors ++ [show_mode mode +:+ ": " +:+ err])
      end
  end.

Definition authenticate (cfg : SecurityConfig) (headers : HeaderMap)
    : result string AuthenticatedIdentity :=
  match enabled_modes cfg with
  | [] => Ok anonymous_identity
  | modes => try_modes cfg headers modes []
  end.
End auth.

(** ** Authorisation *)

Definition required_roles (cfg : SecurityConfig) (route : string) : gset string :=
  list_to_set (rb_role <$> filterb (λ b, bool_decide (rb_route b = route)) (rbac cfg)).
Definition required_groups (cfg : SecurityConfig) (route : string) : gset string :=
  list_to_set (gb_group <$> filterb (λ b, bool_decide (gb_route b = route)) (group_rbac cfg)).
Definition required_subjects (cfg : SecurityConfig) (route : string) : gset string :=
  list_to_set (sb_subject <$> filterb (λ b, bool_decide (sb_route b = route)) (subject_rbac cfg)).

Definition authorize (cfg : SecurityConfig) (auth : AuthContext) : bool :=
  if negb (bool_decide (enabled_modes cfg = []))
     && negb (bool_decide (ctx_mode auth ∈ enabled_modes cfg))
  then false
  else
    let roles := required_roles cfg (ctx_route_name auth) in
    let groups := required_groups cfg (ctx_route_name auth) in
    let subjects := required_subjects cfg (ctx_route_name auth) in
    let role_allowed :=
      bool_decide (roles = ∅) || existsb (λ r, bool_decide (r ∈ roles)) (ctx_roles auth) in
    let group_allowed :=
      bool_decide (groups = ∅) || existsb (λ g, bool_decide (g ∈ groups)) (ctx_groups auth) in
    let subject_allowed :=
      bool_decide (subjects = ∅)
      || match ctx_subject auth with
         | Some s => bool_decide (s ∈ subjects)
         | None => false
         end in
    role_allowed && group_allowed && subject_allowed.

(** The context the proxy handler builds from an identity. *)
Definition auth_context (id : AuthenticatedIdentity) (route : string) : AuthContext := {|
  ctx_mode := id_mode id; ctx_roles := id_roles id; ctx_groups := id_groups id;
  ctx_subject := id_subject id; ctx_route_name := route;
|}.

(** ** Lemmas: strings *)

Lemma split_header_values_nonempty v s : s ∈ split_header_values v → s ≠ "".
Proof.
  unfold split_header_values. intros [_ H]%elem_of_filterb.
  by apply is_empty_false, negb_true_iff.
Qed.

(** ** Lemmas: authentication *)

Section auth_lemmas.
Context `{HeaderMapOps, J : JsonOps, !JwtOps J}.
Implicit Types (cfg : SecurityConfig) (headers : HeaderMap).

Lemma decode_token_claims_ok headers secret iss aud msg claims :
  decode_token_claims headers secret iss aud msg = Ok claims →
  secret ≠ "" ∧ ∃ token, bearer_token headers = Some token ∧
    jwt_decode token secret iss aud = Ok claims.
Proof.
  unfold decode_token_claims. destruct (is_empty secret) eqn:E; [done|].
  apply is_empty_false in E. destruct (bearer_token headers) as [t|]; simpl; [|done].
  destruct (jwt_decode t secret iss aud) eqn:Ed; simpl; [|done].
  intros [= <-]. eauto.
Qed.

Lemma authenticate_mode_mode cfg mode headers id :
  authenticate_mode cfg mode headers = Ok id → id_mode id = mode.
Proof.
  destruct mode; simpl; [by intros [= <-]|..];
    try (destruct (decode_token_claims _ _ _ _ _); simpl; [by intros [= <-]|done]).
  destruct (mtls_subject cfg headers); simpl; [|done].
  case_match; [done|by intros [= <-]].
Qed.

Lemma try_modes_ok cfg headers modes errors id :
  try_modes cfg headers modes errors = Ok id ↔
  ∃ before mode after, modes = before ++ mode :: after ∧
    Forall (λ m, is_ok (authenticate_mode cfg m headers) = false) before ∧
    authenticate_mode cfg mode headers = Ok id.
Proof.
  revert errors. induction modes as [|m modes IH]; intros errors; simpl.
  { split; [done|]. intros (b & ? & ? & Hb & _). by destruct b. }
  destruct (authenticate_mode cfg m headers) as [i|e] eqn:E.
  - split.
    + intros [= <-]. exists [], m, modes. split_and!; [done|constructor|done].
    + intros (b & m' & a & Hb & Hf & Hm). destruct b as [|m'' b]; simpl in Hb; simplify_eq.
      * by rewrite E in Hm.
      * apply Forall_cons in Hf as [Hf _]. by rewrite E in Hf.
  - rewrite IH. split.
    + intros (b & m' & a & -> & Hf & Hm). exists (m :: b), m', a.
      split_and!; [done| |done]. constructor; [by rewrite E|done].
    + intros (b & m' & a & Hb & Hf & Hm). destruct b as [|m'' b]; simpl in Hb; simplify_eq.
      * by rewrite E in Hm.
      * apply Forall_cons in Hf as [_ Hf]. eauto 6.
Qed.

Definition mode_error cfg headers (m : AuthMode) : string :=
  match authenticate_mode cfg m headers with
  | Ok _ => ""
  | Err e => show_mode m +:+ ": " +:+ e
  end.

Lemma try_modes_err cfg headers modes errors e :
  try_modes cfg headers modes errors = Err e ↔
  Forall (λ m, is_ok (authenticate_mode cfg m headers) = false) modes ∧
  e = "authentication failed for all enabled modes: "
      +:+ join " | " (errors ++ (mode_error cfg headers <$> modes)).
Proof.
  revert errors. induction modes as [|m modes IH]; intros errors; cbn [try_modes].
  { rewrite fmap_nil, app_nil_r. split; [intros [= <-]; by split|by intros [_ ->]]. }
  destruct (authenticate_mode cfg m headers) as [i|e'] eqn:E.
  - split; [done|]. rewrite Forall_cons, E. naive_solver.
  - rewrite IH, fmap_cons. unfold mode_error at 2. rewrite E.
    rewrite <-(assoc_L (++)). rewrite Forall_cons, E. simpl. naive_solver.
Qed.

Lemma authenticate_ok_mode cfg headers id :
  authenticate cfg headers = Ok id →
  (enabled_modes cfg = [] ∧ id = anonymous_identity) ∨
  (id_mode id ∈ enabled_modes cfg ∧ authenticate_mode cfg (id_mode id) headers = Ok id).
Proof.
  unfold authenticate. destruct (enabled_modes cfg) as [|m ms] eqn:Em.
  { intros [= <-]. by left. }
  intros (b & mode & a & Hb & _ & Hm)%try_modes_ok. right.
  pose proof (authenticate_mode_mode _ _ _ _ Hm) as ->. split; [|done].
  rewrite Hb. set_solver.
Qed.
End auth_lemmas.

(** ** Lemmas: authorisation *)

Lemma elem_of_required {B} (val route_of : B → string) (bs : list B) (r s : string) :
  s ∈ (list_to_set (val <$> filterb (λ b, bool_decide (route_of b = r)) bs) : gset string) ↔
  ∃ b, b ∈ bs ∧ route_of b = r ∧ val b = s.
Proof.
  rewrite elem_of_list_to_set, list_elem_of_fmap. split.
  - intros (b & -> & [Hb Hr]%elem_of_filterb). bool_to_Z. eauto.
  - intros (b & Hb & Hr & <-). exists b. split; [done|]. apply elem_of_filterb.
    by rewrite bool_decide_eq_true.
Qed.

Lemma existsb_elem_of (P : string → Prop) `{∀ x, Decision (P x)} (l : list string) :
  existsb (λ x, bool_decide (P x)) l = true ↔ ∃ x, x ∈ l ∧ P x.
Proof.
  rewrite existsb_exists. setoid_rewrite bool_decide_eq_true.
  by setoid_rewrite list_elem_of_In.
Qed.

Lemma empty_required (X : gset string) : X = ∅ ↔ ∀ s, s ∉ X.
Proof. split; [intros ->; set_solver|]. intros. apply set_eq. set_solver. Qed.

(** ** A concrete token service for the witnesses

    The reference header map and JSON, and a verifier that accepts the token
    "good" when the secret is "s3cret", with a claims object. *)
Definition demo_jwt : @JwtOps tree_json := λ token secret _ _,
  if bool_decide (token = "good" ∧ secret = "s3cret")
  then Ok (JObject [("roles", JArray [JString "admin dev"]); ("role", JString "legacy")])
  else Err "InvalidToken".

Definition demo_headers (l : list (string * string)) : @HeaderMap list_header_map :=
  foldl (λ m kv, match lower_name_from_bytes kv.1 with
                 | Some n => m ++ [(n, kv.2)]
                 | None => m
                 end) [] l.

Definition demo_security (modes : list AuthMode) : SecurityConfig := {|
  enabled_modes := modes;
  rbac := [{| rb_role := "admin"; rb_route := "users" |}];
  group_rbac := [];
  jwt := {| jwt_secret := "s3cret"; jwt_roles_claim := "roles"; jwt_groups_claim := "groups" |};
  oauth2 := OAuth2Config_default;
  openid_connect := OpenIdConnectConfig_default;
  mtls := {| subject_header := "x-client-subject"; roles_header := "x-client-roles";
             groups_header := "x-client-groups"; allowed_subjects := ["CN=svc-a"] |};
  subject_rbac := [{| sb_subject := "CN=svc-a"; sb_route := "internal" |}];
|}.

(** ** Properties *)

(** C36: [authenticate] tries the enabled modes in order and keeps the first
    identity: it succeeds with [id] exactly when no mode is enabled and [id]
    is the anonymous identity, or when [id] is what some enabled mode yields
    and every mode before it fails; it fails exactly when modes are enabled
    and all fail, with one message listing the error of each in order. *)
Theorem authenticate_first_success `{HeaderMapOps, J : JsonOps, !JwtOps J} cfg headers :
  (∀ id, authenticate cfg headers = Ok id ↔
     (enabled_modes cfg = [] ∧ id = anonymous_identity) ∨
     ∃ before mode after, enabled_modes cfg = before ++ mode :: after ∧
       Forall (λ m, is_ok (authenticate_mode cfg m headers) = false) before ∧
       authenticate_mode cfg mode headers = Ok id) ∧
  (∀ e, authenticate cfg headers = Err e ↔
     enabled_modes cfg ≠ [] ∧
     Forall (λ m, is_ok (authenticate_mode cfg m headers) = false) (enabled_modes cfg) ∧
     e = "authentication failed for all enabled modes: "
         +:+ join " | " (mode_error cfg headers <$> enabled_modes cfg)).
Proof.
  unfold authenticate. destruct (enabled_modes cfg) as [|m ms] eqn:Em.
  - split; intros x; split.
    + intros [= <-]. by left.
    + intros [[_ ->]|(b & ? & ? & Hb & _)]; [done|by destruct b].
    + done.
    + by intros [? _].
  - split.
    + intros id. rewrite try_modes_ok. split; [by right|]. intros [[? _]|?]; done.
    + intros e. rewrite try_modes_err. rewrite app_nil_l. split; [by intros [? ?]|by intros (_ & ? & ?)].
Qed.

(** Token modes accept only verified tokens.  When the JWT, OAuth2 or
    OpenID Connect mode yields an identity, its secret is configured (not
    empty), the request carries an "Authorization: Bearer" token, and the
    token library verified that token with that secret and with the configured
    issuer and audience, none of which is checked when it is empty. *)
Theorem token_modes_verified `{HeaderMapOps, J : JsonOps, !JwtOps J} cfg mode headers id :
  mode ∈ [Jwt; OAuth2; OpenIdConnect] →
  authenticate_mode cfg mode headers = Ok id →
  id_subject id = None ∧
  ∃ secret issuer audience token claims,
    (secret, issuer, audience) =
      match mode with
      | OAuth2 => (oauth2_secret (oauth2 cfg), non_empty (oauth2_issuer (oauth2 cfg)),
                   non_empty (oauth2_audience (oauth2 cfg)))
      | OpenIdConnect => (oidc_secret (openid_connect cfg),
                          non_empty (oidc_issuer (openid_connect cfg)),
                          non_empty (oidc_audience (openid_connect cfg)))
      | _ => (jwt_secret (jwt cfg), None, None)
      end ∧
    secret ≠ "" ∧ bearer_token headers = Some token ∧
    jwt_decode token secret issuer audience = Ok claims.
Proof.
  intros Hmode. destruct mode; [set_solver| | | |set_solver]; simpl;
    destruct (decode_token_claims _ _ _ _ _) as [claims|] eqn:E; simpl; try done;
    intros [= <-]; (split; [done|]);
    apply decode_token_claims_ok in E as (? & token & ? & ?);
    eexists _, _, _, token, claims; eauto.
Qed.

Lemma token_modes_verified_witness :
  ∃ token, @bearer_token list_header_map
    (demo_headers [("Authorization", "Bearer good")]) = Some token.
Proof.
  destruct (@token_modes_verified list_header_map tree_json demo_jwt (demo_security [Jwt]) Jwt
    (demo_headers [("Authorization", "Bearer good")])
    {| id_mode := Jwt; id_roles := ["admin"; "dev"; "legacy"]; id_groups := [];
       id_subject := None |}) as (_ & _ & _ & _ & token & _ & _ & _ & Htoken & _).
  - apply list_elem_of_here.
  - vm_compute. reflexivity.
  - exists token. exact Htoken.
Defined.

(** C20: [authorize] decides exactly the access policy.  It allows a context if
    and only if its mode is enabled (or none is) and, for roles, groups and
    subjects alike, either the route has no binding of that kind or the
    context holds a value bound to the route. *)
Theorem authorize_policy cfg auth :
  authorize cfg auth = true ↔
  (enabled_modes cfg = [] ∨ ctx_mode auth ∈ enabled_modes cfg) ∧
  ((∀ b, b ∈ rbac cfg → rb_route b ≠ ctx_route_name auth) ∨
   ∃ b, b ∈ rbac cfg ∧ rb_route b = ctx_route_name auth ∧ rb_role b ∈ ctx_roles auth) ∧
  ((∀ b, b ∈ group_rbac cfg → gb_route b ≠ ctx_route_name auth) ∨
   ∃ b, b ∈ group_rbac cfg ∧ gb_route b = ctx_route_name auth ∧ gb_group b ∈ ctx_groups auth) ∧
  ((∀ b, b ∈ subject_rbac cfg → sb_route b ≠ ctx_route_name auth) ∨
   ∃ b, b ∈ subject_rbac cfg ∧ sb_route b = ctx_route_name auth ∧
     ctx_subject auth = Some (sb_subject b)).
Proof.
  assert (∀ (B : Type) (val route_of : B → string) (bs : list B),
    ((list_to_set (val <$> filterb (λ b, bool_decide (route_of b = ctx_route_name auth)) bs)
       : gset string) = ∅ ↔ ∀ b, b ∈ bs → route_of b ≠ ctx_route_name auth)) as Hempty.
  { intros. rewrite empty_required. setoid_rewrite elem_of_required. naive_solver. }
  unfold authorize, required_roles, required_groups, required_subjects.
  destruct (_ && _) eqn:E.
  { bool_to_Z. naive_solver. }
  apply andb_false_iff in E. rewrite !negb_false_iff, !bool_decide_eq_true in E.
  rewrite !andb_true_iff, !orb_true_iff, !bool_decide_eq_true, !Hempty.
  rewrite !existsb_elem_of. setoid_rewrite elem_of_required.
  destruct (ctx_subject auth); [rewrite bool_decide_eq_true, elem_of_required|];
    naive_solver.
Qed.

(** The gateway's own use of the two functions is consistent.  For an
    identity that [authenticate] returned, [authorize] never refuses because of
    the mode; and if the route has a subject binding, it is allowed only for
    an mTLS identity, whose subject is the trimmed non-empty subject header,
    passes the allow list, and is bound to the route. *)
Theorem subject_bound_routes_need_mtls `{HeaderMapOps, J : JsonOps, !JwtOps J}
    cfg headers id route b :
  authenticate cfg headers = Ok id →
  b ∈ subject_rbac cfg → sb_route b = route →
  authorize cfg (auth_context id route) = true →
  id_mode id = Mtls ∧ Mtls ∈ enabled_modes cfg ∧
  ∃ subject, mtls_subject cfg headers = Some subject ∧ id_subject id = Some subject ∧
    (allowed_subjects (mtls cfg) = [] ∨ subject ∈ allowed_subjects (mtls cfg)) ∧
    ∃ b', b' ∈ subject_rbac cfg ∧ sb_route b' = route ∧ sb_subject b' = subject.
Proof.
  intros Hauth Hb Hr Hz. subst route. unfold authorize in Hz. simpl in Hz.
  case_match; [done|]. apply andb_true_iff in Hz as [_ Hs].
  assert (required_subjects cfg (sb_route b) ≠ ∅) as Hne.
  { intros He. unfold required_subjects in He. rewrite empty_required in He.
    apply (He (sb_subject b)). apply elem_of_required. eauto. }
  rewrite (bool_decide_eq_false_2 _ Hne) in Hs. simpl in Hs.
  destruct (id_subject id) as [s|] eqn:Es; [|done]. bool_to_Z.
  apply elem_of_required in Hs.
  destruct (authenticate_ok_mode _ _ _ Hauth) as [[_ ->]|[Hin Hm]]; [done|].
  destruct (id_mode id) eqn:Emode; simpl in Hm;
    try (destruct (decode_token_claims _ _ _ _ _); simpl in Hm; simplify_eq; done);
    [by simplify_eq|].
  destruct (mtls_subject cfg headers) as [s'|] eqn:Esub; simpl in Hm; [|done].
  destruct (_ && _) eqn:Eall in Hm; [done|]. injection Hm as <-. simpl in Es. simplify_eq.
  apply andb_false_iff in Eall. rewrite !negb_false_iff, !bool_decide_eq_true in Eall.
  eauto 10.
Qed.

Lemma subject_bound_routes_need_mtls_witness :
  ∃ subject, @mtls_subject list_header_map (demo_security [Jwt; Mtls])
    (demo_headers [("X-Client-Subject", " CN=svc-a ")]) = Some subject ∧ subject ∈ ["CN=svc-a"].
Proof.
  destruct (@subject_bound_routes_need_mtls list_header_map tree_json demo_jwt
    (demo_security [Jwt; Mtls]) (demo_headers [("X-Client-Subject", " CN=svc-a ")])
    {| id_mode := Mtls; id_roles := []; id_groups := []; id_subject := Some "CN=svc-a" |}
    "internal" {| sb_subject := "CN=svc-a"; sb_route := "internal" |})
    as (_ & _ & subject & Hs & _ & [Ha|Ha] & _).
  - vm_compute. reflexivity.
  - apply list_elem_of_here.
  - reflexivity.
  - vm_compute. reflexivity.
  - discriminate Ha.
  - exists subject. split; [exact Hs|exact Ha].
Defined.

(** Comma-separated header values round-trip.  Splitting the values of an
    mTLS roles or groups header gives back the list they were joined from,
    for non-empty values without commas and without white space at the ends. *)
Theorem header_values_roundtrip l :
  Forall (λ v, v ≠ "" ∧ trim v = v ∧ has_char ","%char v = false) l →
  split_header_values (join "," l) = l.
Proof.
  intros Hl. unfold split_header_values. destruct l as [|v l]; [reflexivity|].
  rewrite (split_on_join ","%char (v :: l)); [|done|].
  - assert (trim <$> v :: l = v :: l) as ->.
    { rewrite <-(list_fmap_id (v :: l)) at 2. apply Forall_fmap_ext_1.
      eapply Forall_impl; [exact Hl|]. by intros ? (_ & ? & _). }
    apply filterb_all. eapply Forall_impl; [exact Hl|]. intros w (Hw & _). by destruct w.
  - eapply Forall_impl; [exact Hl|]. by intros ? (_ & _ & ?).
Qed.

Lemma header_values_roundtrip_witness :
  split_header_values "platform,site ops" = ["platform"; "site ops"].
Proof.
  apply (header_values_roundtrip ["platform"; "site ops"]).
  repeat constructor; vm_compute; congruence.
Defined.
