(* ===== verification/RateLimit.v ===== *)
(** * Rate limiting (rate_limit.rs)

    [RateLimiter]: the legacy per-client token bucket and the scoped rules
    with token-bucket, fixed-window and sliding-window policies and quotas.
    The mutex-protected map is a [gmap]; one call of [check_with_context] is
    one transition of it.  [now] is read before the lock is taken, so it is an
    argument of the transition.  Token counts are binary64 numbers. *)

From S2P Require Export RustStr Float64.
From Stdlib Require Import Sorted.

#[local] Open Scope string_scope.
#[local] Open Scope list_scope.

Inductive RateLimitPolicy : Type := TokenBucket | FixedWindow | SlidingWindow.
Inductive LimitScope : Type := ScopeRoute | ScopeService | ScopeConsumer | ScopeClient.

#[export] Instance RateLimitPolicy_eq_dec : EqDecision RateLimitPolicy.
Proof. solve_decision. Defined.
#[export] Instance LimitScope_eq_dec : EqDecision LimitScope.
Proof. solve_decision. Defined.

Definition RateLimitPolicy_default : RateLimitPolicy := TokenBucket.

Record ScopedLimitRule : Type := {
  rule_scope : LimitScope;
  rule_limit : Z;                 (* u32 *)
  rule_quota : option Z;          (* u64 *)
  rule_window_seconds : Z;        (* u64 *)
  rule_policy : option RateLimitPolicy;
}.

Record RateLimitConfig : Type := {
  rl_enabled : bool;
  rl_policy : RateLimitPolicy;
  capacity : Z;                   (* u32 *)
  refill_per_second : Z;          (* u32 *)
  fixed_window_seconds : Z;       (* u64 *)
  sliding_window_seconds : Z;     (* u64 *)
  scoped_limits : list ScopedLimitRule;
}.

Definition default_capacity : Z := 100.
Definition default_refill_per_second : Z := 100.
Definition default_window_seconds : Z := 60.

Definition RateLimitConfig_default : RateLimitConfig := {|
  rl_enabled := false; rl_policy := TokenBucket; capacity := default_capacity;
  refill_per_second := default_refill_per_second;
  fixed_window_seconds := default_window_seconds;
  sliding_window_seconds := default_window_seconds;
  scoped_limits := [];
|}.

Record LimitState : Type := {
  tokens : f64;
  last_refill : option instant;
  fixed_window_start : option instant;
  fixed_window_count : Z;         (* u64 *)
  sliding_hits : list instant;    (* front first *)
  accepted_total : Z;             (* u64 *)
}.

Definition LimitState_default : LimitState := {|
  tokens := S754_zero false; last_refill := None; fixed_window_start := None;
  fixed_window_count := 0; sliding_hits := []; accepted_total := 0;
|}.

(** Field updates. *)
Definition set_tokens (s : LimitState) (t : f64) (r : option instant) : LimitState := {|
  tokens := t; last_refill := r; fixed_window_start := fixed_window_start s;
  fixed_window_count := fixed_window_count s; sliding_hits := sliding_hits s;
  accepted_total := accepted_total s |}.
Definition set_fixed (s : LimitState) (start : option instant) (n : Z) : LimitState := {|
  tokens := tokens s; last_refill := last_refill s; fixed_window_start := start;
  fixed_window_count := n; sliding_hits := sliding_hits s;
  accepted_total := accepted_total s |}.
Definition set_hits (s : LimitState) (hits : list instant) : LimitState := {|
  tokens := tokens s; last_refill := last_refill s; fixed_window_start := fixed_window_start s;
  fixed_window_count := fixed_window_count s; sliding_hits := hits;
  accepted_total := accepted_total s |}.
Definition set_accepted (s : LimitState) (n : Z) : LimitState := {|
  tokens := tokens s; last_refill := last_refill s; fixed_window_start := fixed_window_start s;
  fixed_window_count := fixed_window_count s; sliding_hits := sliding_hits s;
  accepted_total := n |}.

Record RateLimitContext : Type := {
  rl_route : string;
  rl_service : string;
  rl_consumer : option string;
  rl_client : string;
}.

Abbreviation limit_states := (gmap string LimitState) (only parsing).

Definition scope_name (scope : LimitScope) : string :=
  match scope with
  | ScopeRoute => "route" | ScopeService => "service"
  | ScopeConsumer => "consumer" | ScopeClient => "client"
  end.

Definition scope_key (scope : LimitScope) (value_key : string) : string :=
  scope_name scope +:+ ":" +:+ value_key.

(** The refill common to both token buckets: start full, add the tokens of
    the elapsed time at [rate] per second, and cap. *)
Definition refill (limit rate : f64) (now : instant) (s : LimitState) : LimitState :=
  let s := match last_refill s with
           | None => set_tokens s limit (Some now)
           | Some _ => s
           end in
  match last_refill s with
  | Some last =>
      let elapsed := as_secs_f64 (duration_since now last) in
      set_tokens s (f64_min (f64_add (tokens s) (f64_mul elapsed rate)) limit) (Some now)
  | None => s
  end.

(** Spend one token if there is one. *)
Definition spend (s : LimitState) : bool * LimitState :=
  if f64_ge (tokens s) f64_one
  then (true, set_tokens s (f64_sub (tokens s) f64_one) (last_refill s))
  else (false, s).

Definition apply_legacy_token_bucket (cfg : RateLimitConfig) (s : LimitState) (now : instant)
    : bool * LimitState :=
  spend (refill (f64_of_Z (capacity cfg)) (f64_of_Z (refill_per_second cfg)) now s).

(** The loop that pops expired hits from the front. *)
Fixpoint pop_expired (now : instant) (window : duration) (hits : list instant) : list instant :=
  match hits with
  | [] => []
  | front :: rest =>
      if (window <=? duration_since now front)%Z then pop_expired now window rest else hits
  end.

Definition rule_window (rule : ScopedLimitRule) : duration :=
  from_secs (Z.max (rule_window_seconds rule) 1).

Definition apply_policy (p : profile) (policy : RateLimitPolicy) (rule : ScopedLimitRule)
    (s : LimitState) (now : instant) : outcome (bool * LimitState) :=
  match policy with
  | TokenBucket =>
      let window_secs := f64_of_Z (Z.max (rule_window_seconds rule) 1) in
      let rate := f64_div (f64_of_Z (rule_limit rule)) window_secs in
      Done (spend (refill (f64_of_Z (rule_limit rule)) rate now s))
  | FixedWindow =>
      let window_start := default now (fixed_window_start s) in
      let s := if (rule_window rule <=? duration_since now window_start)%Z
               then set_fixed s (Some now) 0
               else set_fixed s (Some window_start) (fixed_window_count s) in
      if (fixed_window_count s <? rule_limit rule)%Z
      then
        n ← add_uint p 64 (fixed_window_count s) 1;
        Done (true, set_fixed s (fixed_window_start s) n)
      else Done (false, s)
  | SlidingWindow =>
      let s := set_hits s (pop_expired now (rule_window rule) (sliding_hits s)) in
      if (Z.of_nat (length (sliding_hits s)) <? rule_limit rule)%Z
      then Done (true, set_hits s (sliding_hits s ++ [now]))
      else Done (false, s)
  end.

(** The value of the context a rule's scope limits. *)
Definition scope_value (ctx : RateLimitContext) (scope : LimitScope) : string :=
  match scope with
  | ScopeRoute => rl_route ctx
  | ScopeService => rl_service ctx
  | ScopeConsumer => default "anonymous" (rl_consumer ctx)
  | ScopeClient => rl_client ctx
  end.

Definition effective_rules_for_context (cfg : RateLimitConfig) (ctx : RateLimitContext)
    : list (ScopedLimitRule * string) :=
  match scoped_limits cfg with
  | [] =>
      [({| rule_scope := ScopeClient;
           rule_limit := capacity cfg;
           rule_quota := None;
           rule_window_seconds :=
             match rl_policy cfg with
             | TokenBucket => 1
             | FixedWindow => fixed_window_seconds cfg
             | SlidingWindow => sliding_window_seconds cfg
             end;
           rule_policy := Some (rl_policy cfg) |}, rl_client ctx)]
  | rules => (λ rule, (rule, scope_value ctx (rule_scope rule))) <$> rules
  end.

(** One rule of the loop: [None] is the early [return false]. *)
Definition stage_rule (p : profile) (cfg : RateLimitConfig) (now : instant)
    (states : limit_states) (rule : ScopedLimitRule) (value_key : string)
    : outcome (option (string * LimitState)) :=
  let state_key := scope_key (rule_scope rule) value_key in
  let current := default LimitState_default (states !! state_key) in
  if match rule_quota rule with
     | Some quota => (quota <=? accepted_total current)%Z
     | None => false
     end
  then Done None
  else
    r ← apply_policy p (default (rl_policy cfg) (rule_policy rule)) rule current now;
    if r.1 : bool then
      n ← add_uint p 64 (accepted_total r.2) 1;
      Done (Some (state_key, set_accepted r.2 n))
    else Done None.

(** The loop over the rules, with the states staged so far. *)
Fixpoint stage_rules (p : profile) (cfg : RateLimitConfig) (now : instant)
    (states : limit_states) (rules : list (ScopedLimitRule * string))
    (staged : list (string * LimitState)) : outcome (option (list (string * LimitState))) :=
  match rules with
  | [] => Done (Some staged)
  | (rule, value_key) :: rules =>
      r ← stage_rule p cfg now states rule value_key;
      match r with
      | None => Done None
      | Some ks => stage_rules p cfg now states rules (staged ++ [ks])
      end
  end.

Definition commit (states : limit_states) (staged : list (string * LimitState)) : limit_states :=
  foldl (λ m ks, <[ks.1 := ks.2]> m) states staged.

(** [check_with_context]: the decision and the new states. *)
Definition check_with_context (p : profile) (cfg : RateLimitConfig) (ctx : RateLimitContext)
    (now : instant) (states : limit_states) : outcome (bool * limit_states) :=
  if negb (rl_enabled cfg) then Done (true, states)
  else if bool_decide (scoped_limits cfg = []) && bool_decide (rl_policy cfg = TokenBucket) then
    let key := scope_key ScopeClient (rl_client ctx) in
    let r := apply_legacy_token_bucket cfg (default LimitState_default (states !! key)) now in
    Done (r.1, <[key := r.2]> states)
  else
    staged ← stage_rules p cfg now states (effective_rules_for_context cfg ctx) [];
    match staged with
    | None => Done (false, states)
    | Some staged => Done (true, commit states staged)
    end.

(** [check]: the context of a bare client key. *)
Definition check_context (key : string) : RateLimitContext := {|
  rl_route := "default-route"; rl_service := "default-service"; rl_consumer := None;
  rl_client := key |}.
Definition check (p : profile) (cfg : RateLimitConfig) (key : string) (now : instant)
    (states : limit_states) : outcome (bool * limit_states) :=
  check_with_context p cfg (check_context key) now states.

(** The limiter as an object: its configuration and its guarded states. *)
Record RateLimiter : Type := {
  limiter_config : RateLimitConfig;
  limiter_states : limit_states;
}.

Definition RateLimiter_new (cfg : RateLimitConfig) : RateLimiter := {|
  limiter_config := cfg; limiter_states := ∅;
|}.

(** A sequence of checks, in the order in which they take the lock. *)
Fixpoint run_checks (p : profile) (cfg : RateLimitConfig) (reqs : list (instant * RateLimitContext))
    (states : limit_states) : outcome (list bool * limit_states) :=
  match reqs with
  | [] => Done ([], states)
  | (now, ctx) :: reqs =>
      r ← check_with_context p cfg ctx now states;
      rs ← run_checks p cfg reqs r.2;
      Done (r.1 :: rs.1, rs.2)
  end.

(** ** Lemmas: keys, staging and commit *)

Lemma scope_key_inj s1 v1 s2 v2 : scope_key s1 v1 = scope_key s2 v2 → s1 = s2 ∧ v1 = v2.
Proof. destruct s1, s2; unfold scope_key; simpl; intros [=]; by subst. Qed.

(** The rules of a configuration, without the context. *)
Definition rules_of (cfg : RateLimitConfig) : list ScopedLimitRule :=
  match scoped_limits cfg with
  | [] => fst <$> effective_rules_for_context cfg (check_context "")
  | rules => rules
  end.

Lemma effective_rules_eq cfg ctx :
  effective_rules_for_context cfg ctx =
    (λ rule, (rule, scope_value ctx (rule_scope rule))) <$> rules_of cfg.
Proof.
  unfold rules_of, effective_rules_for_context. by destruct (scoped_limits cfg).
Qed.

(** The state keys a context is charged on. *)
Definition context_keys (cfg : RateLimitConfig) (ctx : RateLimitContext) : list string :=
  (λ rule, scope_key (rule_scope rule) (scope_value ctx (rule_scope rule))) <$> rules_of cfg.

Definition uses_rules (cfg : RateLimitConfig) : Prop :=
  rl_enabled cfg = true ∧ ¬ (scoped_limits cfg = [] ∧ rl_policy cfg = TokenBucket).

Lemma commit_lookup_ne m staged k : k ∉ staged.*1 → commit m staged !! k = m !! k.
Proof.
  unfold commit. revert m. induction staged as [|[k' v] staged IH]; intros m Hk; [done|].
  rewrite fmap_cons, not_elem_of_cons in Hk. destruct Hk as [Hne Hk]. simpl in *.
  rewrite IH by done. by rewrite lookup_insert_ne.
Qed.

Lemma commit_lookup_in m staged k :
  k ∈ staged.*1 → ∃ v, (k, v) ∈ staged ∧ commit m staged !! k = Some v.
Proof.
  unfold commit. induction staged as [|[k' v] staged IH] using rev_ind; intros Hk.
  { by apply not_elem_of_nil in Hk. }
  rewrite foldl_app. simpl. destruct (decide (k' = k)) as [->|Hne].
  - exists v. rewrite lookup_insert_eq. set_solver.
  - rewrite lookup_insert_ne by done. rewrite fmap_app, elem_of_app in Hk.
    destruct Hk as [Hk|Hk]; [|set_solver]. destruct (IH Hk) as (w & Hw & ->).
    exists w. set_solver.
Qed.

Lemma stage_rules_spec p cfg now states rules staged out :
  stage_rules p cfg now states rules staged = Done (Some out) →
  ∃ new, out = staged ++ new ∧
    Forall2 (λ rv ks, stage_rule p cfg now states rv.1 rv.2 = Done (Some ks)) rules new.
Proof.
  revert staged. induction rules as [|[r v] rules IH]; intros staged; simpl.
  { intros [= <-]. exists []. by rewrite app_nil_r. }
  destruct (stage_rule p cfg now states r v) as [[ks|]|] eqn:E; simpl; try done.
  intros (new & -> & Hf)%IH. exists (ks :: new). rewrite <-(assoc_L (++)). split; [done|].
  by constructor.
Qed.

Lemma stage_rule_spec p cfg now states r v k next :
  stage_rule p cfg now states r v = Done (Some (k, next)) →
  k = scope_key (rule_scope r) v ∧
  let cur := default LimitState_default (states !! k) in
  (∀ q, rule_quota r = Some q → accepted_total cur < q)%Z ∧
  ∃ st n, apply_policy p (default (rl_policy cfg) (rule_policy r)) r cur now = Done (true, st) ∧
    add_uint p 64 (accepted_total st) 1 = Done n ∧ next = set_accepted st n.
Proof.
  unfold stage_rule. destruct (match rule_quota r with Some _ => _ | None => _ end) eqn:Eq; [done|].
  set (cur := default LimitState_default _) in *. intros H.
  destruct (apply_policy _ _ r cur now) as [[[] st]|] eqn:Ea; simpl in H; [|done|done].
  destruct (add_uint p 64 (accepted_total st) 1) as [n|] eqn:En; simpl in H; [|done].
  injection H as <- <-. split; [done|]. simpl. fold cur. split; [|eauto].
  intros q Hq. rewrite Hq in Eq. zsolve.
Qed.

Lemma apply_policy_accepted_total p policy r st now b st' :
  apply_policy p policy r st now = Done (b, st') → accepted_total st' = accepted_total st.
Proof.
  destruct policy; simpl.
  - unfold refill, spend. repeat case_match; intros [= <- <-]; done.
  - destruct (_ <? _)%Z; [|intros [= <- <-]; by case_match].
    destruct (add_uint _ _ _ _); simpl; [|done]. intros [= <- <-]. by case_match.
  - repeat case_match; intros [= <- <-]; done.
Qed.

(** An accepted check of the rule path commits one staged state per rule. *)
Lemma check_rules_accept p cfg ctx now states states' :
  uses_rules cfg → check_with_context p cfg ctx now states = Done (true, states') →
  ∃ staged, states' = commit states staged ∧ staged.*1 = context_keys cfg ctx ∧
    Forall2 (λ r ks, stage_rule p cfg now states r (scope_value ctx (rule_scope r)) = Done (Some ks))
            (rules_of cfg) staged.
Proof.
  intros [He Hu]. unfold check_with_context. rewrite He. simpl.
  destruct (_ && _) eqn:E; [bool_to_Z; naive_solver|].
  destruct (stage_rules _ _ _ _ _ _) as [[staged|]|] eqn:Es; simpl; try done.
  intros [= <-]. apply stage_rules_spec in Es as (new & -> & Hf). simpl.
  rewrite effective_rules_eq, Forall2_fmap_l in Hf. exists new. split; [done|].
  split; [|done]. unfold context_keys.
  clear -Hf. induction Hf as [|r [k st] rs new Hr Hf IH]; [done|].
  simpl in Hr. apply stage_rule_spec in Hr as [-> _].
  rewrite !fmap_cons, IH. done.
Qed.

Lemma check_rules_deny p cfg ctx now states states' :
  uses_rules cfg → check_with_context p cfg ctx now states = Done (false, states') →
  states' = states.
Proof.
  intros [He Hu]. unfold check_with_context. rewrite He. simpl.
  destruct (_ && _) eqn:E; [bool_to_Z; naive_solver|].
  destruct (stage_rules _ _ _ _ _ _) as [[staged|]|]; simpl; try done. by intros [= <-].
Qed.

(** ** Lemmas: invariants along a sequence of checks *)

(** The instants of the accepted requests whose [scope] value is [v]. *)
Definition accepted_for (scope : LimitScope) (v : string)
    (reqs : list (instant * RateLimitContext)) (bs : list bool) : list instant :=
  (λ rb, rb.1.1) <$>
    filterb (λ rb, rb.2 && bool_decide (scope_value rb.1.2 scope = v)) (zip reqs bs).

(** The locks are taken in the order of the instants the requests read. *)
Definition in_time_order (reqs : list (instant * RateLimitContext)) : Prop :=
  StronglySorted Z.le reqs.*1.

(** Consecutive instants, from [T] on, related by [R]. *)
Fixpoint time_chain (R : instant → instant → Prop) (T : instant) (ts : list instant) : Prop :=
  match ts with [] => True | t :: ts => R T t ∧ time_chain R t ts end.

Section run_invariant.
Context (p : profile) (cfg : RateLimitConfig) (Hu : uses_rules cfg).
Context (r : ScopedLimitRule) (Hr : r ∈ rules_of cfg) (v : string).
Context (Inv : list instant → LimitState → instant → Prop) (R : instant → instant → Prop).
Let k := scope_key (rule_scope r) v.
Let state_of (s : limit_states) : LimitState := default LimitState_default (s !! k).

(** Time passes; and an accepted request on the key, whose committed state
    was staged by some rule of the same scope while [r] itself passed. *)
Context (Hidle : ∀ acc st T now, R T now → Inv acc st T → Inv acc st now).
Context (Hstep : ∀ acc s T now r' next,
  R T now → Inv acc (state_of s) T →
  r' ∈ rules_of cfg → rule_scope r' = rule_scope r →
  (∃ kv, stage_rule p cfg now s r v = Done (Some kv)) →
  stage_rule p cfg now s r' v = Done (Some (k, next)) →
  Inv (acc ++ [now]) next now).

Lemma check_invariant acc s T now ctx b s' :
  R T now → Inv acc (state_of s) T →
  check_with_context p cfg ctx now s = Done (b, s') →
  Inv (acc ++ accepted_for (rule_scope r) v [(now, ctx)] [b]) (state_of s') now.
Proof.
  intros HT HI Hc. unfold accepted_for. simpl. rewrite filterb_cons. simpl.
  destruct b; simpl.
  2: { apply check_rules_deny in Hc as ->; [|done]. rewrite app_nil_r. by eapply Hidle. }
  destruct (check_rules_accept _ _ _ _ _ _ Hu Hc) as (staged & -> & Hkeys & Hf).
  case_bool_decide as Hv; simpl.
  - assert (k ∈ staged.*1) as Hk.
    { rewrite Hkeys. unfold context_keys, k. rewrite <-Hv. apply list_elem_of_fmap. by exists r. }
    destruct (commit_lookup_in s staged k Hk) as (next & Hin & Hlook).
    unfold state_of at 1. rewrite Hlook. simpl.
    apply list_elem_of_lookup in Hin as [i Hi].
    destruct (Forall2_lookup_r _ _ _ _ _ Hf Hi) as (r' & Hr' & Hst).
    pose proof (stage_rule_spec _ _ _ _ _ _ _ _ Hst) as [Hkk _].
    apply scope_key_inj in Hkk as [Hsc Hvv].
    apply (Hstep acc s T now r' next HT HI); [by eapply list_elem_of_lookup_2|done| |].
    + apply list_elem_of_lookup in Hr as [j Hj].
      destruct (Forall2_lookup_l _ _ _ _ _ Hf Hj) as (kv & _ & Hkv). rewrite Hv in Hkv. by exists kv.
    + by rewrite Hvv.
  - rewrite app_nil_r. unfold state_of. rewrite commit_lookup_ne; [by eapply Hidle|].
    rewrite Hkeys. unfold context_keys. intros (r' & Hk & _)%list_elem_of_fmap.
    apply scope_key_inj in Hk as [Hs Hvv]. apply Hv. by rewrite Hs, Hvv.
Qed.

Lemma run_invariant reqs : ∀ acc s T bs s',
  time_chain R T reqs.*1 →
  Inv acc (state_of s) T → run_checks p cfg reqs s = Done (bs, s') →
  ∃ T', Inv (acc ++ accepted_for (rule_scope r) v reqs bs) (state_of s') T'.
Proof.
  induction reqs as [|[now ctx] reqs IH]; intros acc s T bs s' HT HI; simpl.
  { intros [= <- <-]. exists T. by rewrite app_nil_r. }
  destruct (check_with_context p cfg ctx now s) as [[b s1]|] eqn:Hc; simpl; [|done].
  destruct (run_checks p cfg reqs s1) as [[bs1 s2]|] eqn:Hrun; simpl; [|done].
  intros [= <- <-]. rewrite fmap_cons in HT. destruct HT as [HT Hchain].
  simpl in *. pose proof (check_invariant _ _ _ _ _ _ _ HT HI Hc) as HI1.
  destruct (IH _ _ now _ _ Hchain HI1 Hrun) as [T' HI2]. exists T'.
  unfold accepted_for in *. rewrite <-(assoc_L (++)) in HI2. simpl in HI2 |- *.
  rewrite filterb_cons in *. simpl in *.
  by destruct (b && bool_decide (scope_value ctx (rule_scope r) = v)).
Qed.
End run_invariant.

(** With distinct scopes, a key belongs to one rule. *)
Definition distinct_scopes (cfg : RateLimitConfig) : Prop :=
  NoDup (rule_scope <$> rules_of cfg).

Lemma distinct_scopes_eq cfg r r' :
  distinct_scopes cfg → r ∈ rules_of cfg → r' ∈ rules_of cfg →
  rule_scope r' = rule_scope r → r' = r.
Proof.
  intros Hn [i Hi]%list_elem_of_lookup [j Hj]%list_elem_of_lookup Hs.
  assert (j = i) as ->; [|by simplify_eq].
  eapply (NoDup_lookup _ _ _ _ Hn); rewrite list_lookup_fmap; [by rewrite Hj|].
  rewrite Hi. simpl. by rewrite Hs.
Qed.

(** Counting the instants of a window. *)
Definition in_window (t : instant) (window : duration) (x : instant) : bool :=
  (t <=? x)%Z && (x <? t + window)%Z.

Lemma countb_none {A} (f : A → bool) l : (∀ x, x ∈ l → f x = false) → countb f l = 0.
Proof. intros H. unfold countb. by rewrite (proj2 (filterb_nil_iff f l) H). Qed.

(** ** Lemmas: the sliding window *)

Lemma pop_expired_spec now w hits :
  (0 < w)%Z →
  ∃ popped, hits = popped ++ pop_expired now w hits ∧ Forall (λ x, x + w ≤ now)%Z popped.
Proof.
  intros Hw. induction hits as [|x hits IH]; simpl; [by exists []|].
  case_match eqn:E; [|by exists []].
  destruct IH as (popped & IH1 & IH2). exists (x :: popped). simpl. rewrite <-IH1.
  split; [done|]. constructor; [|done]. unfold duration_since in E. zsolve.
Qed.

Lemma rule_window_pos r : (0 < rule_window r)%Z.
Proof. unfold rule_window, from_secs. lia. Qed.

Definition sliding_inv (r : ScopedLimitRule) (acc : list instant) (st : LimitState)
    (T : instant) : Prop :=
  (∃ old, acc = old ++ sliding_hits st ∧ Forall (λ x, x + rule_window r ≤ T)%Z old) ∧
  (Z.of_nat (length (sliding_hits st)) ≤ rule_limit r)%Z ∧
  ∀ t, (Z.of_nat (countb (in_window t (rule_window r)) acc) ≤ rule_limit r)%Z.

Lemma sliding_inv_idle r acc st T now :
  (T ≤ now)%Z → sliding_inv r acc st T → sliding_inv r acc st now.
Proof.
  intros HT ((old & -> & Hold) & Hlen & Hcnt). split_and!; [|done..].
  exists old. split; [done|]. eapply Forall_impl; [exact Hold|]. simpl. lia.
Qed.

Lemma sliding_inv_accept p r acc st T now st' n :
  (T ≤ now)%Z → sliding_inv r acc st T →
  apply_policy p SlidingWindow r st now = Done (true, st') →
  sliding_inv r (acc ++ [now]) (set_accepted st' n) now.
Proof.
  intros HT ((old & -> & Hold) & Hlen & Hcnt). simpl.
  case_match eqn:E; [|done]. intros [= <-]. simpl.
  pose proof (rule_window_pos r) as Hw.
  destruct (pop_expired_spec now (rule_window r) (sliding_hits st) Hw) as (popped & Hhits & Hpop).
  set (kept := pop_expired now (rule_window r) (sliding_hits st)) in *.
  assert (Forall (λ x, x + rule_window r ≤ now)%Z (old ++ popped)) as Hexp.
  { apply Forall_app; split; [|done]. eapply Forall_impl; [exact Hold|]. simpl. lia. }
  assert (Z.of_nat (length (kept ++ [now])) ≤ rule_limit r)%Z as Hlen'.
  { rewrite length_app. simpl. zsolve. }
  unfold sliding_inv. simpl. split; [|split; [done|]].
  - exists (old ++ popped). split; [|done]. rewrite Hhits. by rewrite !(assoc_L (++)).
  - intros t. destruct (in_window t (rule_window r) now) eqn:Ew.
    + rewrite Hhits, (assoc_L (++) old), <-(assoc_L (++) (old ++ popped)), countb_app.
      rewrite countb_none.
      * pose proof (countb_length (in_window t (rule_window r)) (kept ++ [now])). simpl. lia.
      * intros x Hx. rewrite Forall_forall in Hexp. specialize (Hexp x Hx). simpl in Hexp.
        unfold in_window in *. bool_to_Z. apply andb_false_iff. left. apply Z.leb_gt. lia.
    + rewrite countb_app, countb_cons, Ew. specialize (Hcnt t). unfold countb at 2. simpl. lia.
Qed.

(** ** Lemmas: the fixed window *)

(** [cur] are the accepted instants of the current window, [old] the earlier
    ones; after [start - window] there are at most [limit] of the old ones. *)
Definition fixed_inv (r : ScopedLimitRule) (acc : list instant) (st : LimitState)
    (T : instant) : Prop :=
  (∀ t, Z.of_nat (countb (in_window t (rule_window r)) acc) ≤ 2 * rule_limit r)%Z ∧
  (0 ≤ rule_limit r)%Z ∧
  match fixed_window_start st with
  | None => acc = [] ∧ fixed_window_count st = 0%Z
  | Some start =>
      (start ≤ T)%Z ∧
      ∃ old cur, acc = old ++ cur ∧ fixed_window_count st = Z.of_nat (length cur) ∧
        (fixed_window_count st ≤ rule_limit r)%Z ∧
        Forall (λ x, x ≤ start)%Z old ∧ Forall (λ x, x ≤ T)%Z cur ∧
        ∀ t, (start - rule_window r < t)%Z →
          (Z.of_nat (countb (λ x, t <=? x)%Z old) ≤ rule_limit r)%Z
  end.

Lemma fixed_inv_idle r acc st T now :
  (T ≤ now)%Z → fixed_inv r acc st T → fixed_inv r acc st now.
Proof.
  intros HT (Hw & Hl & H). split; [done|]. split; [done|].
  destruct (fixed_window_start st) as [s|]; [|done].
  destruct H as (Hs & old & cur & ? & ? & ? & ? & Hcur & ?). split; [lia|].
  exists old, cur. split_and!; try done. eapply Forall_impl; [exact Hcur|]. simpl. lia.
Qed.

Lemma in_window_le t w x : in_window t w x = true → (t <=? x)%Z = true.
Proof. unfold in_window. by intros [? _]%andb_true_iff. Qed.

(** A window that contains [now] counts at most the recent old instants and
    the current ones. *)
Lemma fixed_window_count_bound r old cur now start t :
  (start ≤ now)%Z → (Z.of_nat (length cur) < rule_limit r)%Z →
  (∀ t, (start - rule_window r < t)%Z → Z.of_nat (countb (λ x, t <=? x)%Z old) ≤ rule_limit r)%Z →
  (∀ t, Z.of_nat (countb (in_window t (rule_window r)) (old ++ cur)) ≤ 2 * rule_limit r)%Z →
  (Z.of_nat (countb (in_window t (rule_window r)) ((old ++ cur) ++ [now])) ≤ 2 * rule_limit r)%Z.
Proof.
  intros Hs Hlen Hold Hcnt. specialize (Hcnt t).
  rewrite countb_app, countb_cons, countb_nil.
  destruct (in_window t (rule_window r) now) eqn:Ew; [|lia].
  assert (start - rule_window r < t)%Z as Ht by (unfold in_window in Ew; zsolve).
  specialize (Hold t Ht). rewrite countb_app.
  pose proof (countb_le (in_window t (rule_window r)) (λ x, t <=? x)%Z old
    (λ x _, in_window_le _ _ _)).
  pose proof (countb_length (in_window t (rule_window r)) cur). lia.
Qed.

Lemma fixed_inv_accept p r acc st T now st' n :
  (T ≤ now)%Z → (rule_limit r < 2 ^ 32)%Z → fixed_inv r acc st T →
  apply_policy p FixedWindow r st now = Done (true, st') →
  fixed_inv r (acc ++ [now]) (set_accepted st' n) now.
Proof.
  intros HT Hl32 (Hcnt & Hl & H). pose proof (rule_window_pos r) as Hw. simpl.
  set (reset := (rule_window r <=? duration_since now (default now (fixed_window_start st)))%Z).
  intros Ha.
  (* the state after the window was brought up to date *)
  assert (∃ start old cur, acc = old ++ cur ∧ (start ≤ now)%Z ∧
    (if reset then set_fixed st (Some now) 0
     else set_fixed st (Some (default now (fixed_window_start st))) (fixed_window_count st))
      = set_fixed st (Some start) (Z.of_nat (length cur)) ∧
    Forall (λ x, x ≤ start)%Z old ∧ Forall (λ x, x ≤ now)%Z cur ∧
    ∀ t, (start - rule_window r < t)%Z →
      (Z.of_nat (countb (λ x, t <=? x)%Z old) ≤ rule_limit r)%Z)
    as (start & old & cur & -> & Hs & Hst & Hold & Hcur & Hrec).
  { destruct (fixed_window_start st) as [s|] eqn:Es; simpl in reset.
    - destruct H as (HsT & old & cur & -> & Hc & Hle & Hold & Hcur & Hrec).
      destruct reset eqn:Er.
      + exists now, (old ++ cur), []. rewrite app_nil_r. split_and!; try done.
        * apply Forall_app. split; (eapply Forall_impl; [eassumption|]); simpl; lia.
        * intros t Ht. unfold reset, duration_since in Er. bool_to_Z.
          rewrite countb_app, countb_none.
          -- pose proof (countb_length (λ x, t <=? x)%Z cur). lia.
          -- intros x Hx. rewrite Forall_forall in Hold. specialize (Hold x Hx). simpl in Hold.
             apply Z.leb_gt. lia.
      + exists s, old, cur. rewrite Hc. split_and!; try done; [lia|].
        eapply Forall_impl; [exact Hcur|]. simpl. lia.
    - destruct H as [-> Hc]. exists now, [], []. rewrite Hc.
      split_and!; try done. clearbody reset. by destruct reset. }
  clear H. rewrite Hst in Ha. clear Hst reset. simpl in Ha. case_match eqn:E; [|done].
  destruct (add_uint p 64 _ 1) as [n'|] eqn:En; simpl in Ha; [|done]. injection Ha as <-.
  rewrite add_uint_done in En by (unfold uint; zsolve). injection En as <-.
  unfold fixed_inv. simpl. split; [|split; [done|split; [done|]]].
  - intros t. apply (fixed_window_count_bound r old cur now start); try done. zsolve.
  - exists old, (cur ++ [now]). rewrite <-(assoc_L (++)). split_and!; try done.
    + rewrite length_app. simpl. lia.
    + zsolve.
    + apply Forall_app. split; [done|]. by constructor.
Qed.

(** ** Lemmas: the quota *)

Definition quota_inv (q : Z) (acc : list instant) (st : LimitState) (T : instant) : Prop :=
  (Z.of_nat (length acc) = accepted_total st ∧ accepted_total st ≤ q)%Z.

Lemma quota_inv_accept p cfg s r r' q v acc now T next :
  rule_quota r = Some q → (q < 2 ^ 64)%Z → rule_scope r' = rule_scope r →
  quota_inv q acc (default LimitState_default (s !! scope_key (rule_scope r) v)) T →
  (∃ kv, stage_rule p cfg now s r v = Done (Some kv)) →
  stage_rule p cfg now s r' v = Done (Some (scope_key (rule_scope r) v, next)) →
  quota_inv q (acc ++ [now]) next now.
Proof.
  intros Hq Hq64 Hsc [Hlen Hle] [[k kst] Hk] Hst.
  apply stage_rule_spec in Hk as (-> & Hlt & _). specialize (Hlt q Hq).
  apply stage_rule_spec in Hst as (_ & _ & st & n & Ha & Hn & ->).
  apply apply_policy_accepted_total in Ha.
  rewrite Ha, add_uint_done in Hn by (unfold uint; lia). injection Hn as <-.
  unfold quota_inv. simpl. rewrite length_app. simpl. lia.
Qed.

(** ** Lemmas: the token bucket *)

Definition wf_tokens (st : LimitState) : Prop := nonneg (tokens st) ∧ is_finite (tokens st).

(** The weight of one token in units of 2^-1074. *)
Definition token_unit : Z := 2 ^ 1074.

Lemma token_unit_pos : (0 < token_unit)%Z.
Proof. unfold token_unit. lia. Qed.

(** A limit that fits in a [u32] is an exact binary64 number. *)
Lemma limit_exact c :
  uint 32 c → nonneg (f64_of_Z c) ∧ is_finite (f64_of_Z c) ∧
              scaled (f64_of_Z c) = (c * token_unit)%Z.
Proof.
  unfold uint. intros Hc. destruct (f64_of_Z_exact c) as [H1 H2]; [lia|].
  split; [apply f64_of_Z_nonneg; lia|]. by split.
Qed.

Lemma refill_wf c rate now st :
  uint 32 c → nonneg rate → wf_tokens st →
  let st' := refill (f64_of_Z c) rate now st in
  wf_tokens st' ∧ last_refill st' = Some now ∧ (scaled (tokens st') ≤ c * token_unit)%Z.
Proof.
  intros Hc Hrate [Hn Hf]. destruct (limit_exact c Hc) as (Hcn & Hcf & <-).
  assert (∀ t last, nonneg t →
    let t' := f64_min (f64_add t (f64_mul (as_secs_f64 (duration_since now last)) rate))
                      (f64_of_Z c) in
    (nonneg t' ∧ is_finite t') ∧ (scaled t' ≤ scaled (f64_of_Z c))%Z) as Hmin.
  { intros t last Ht. set (x := f64_add _ _).
    assert (nonneg x) as Hx.
    { apply f64_add_nonneg; [done|]. apply f64_mul_nonneg; [|done].
      apply as_secs_f64_nonneg. unfold duration_since. lia. }
    destruct (f64_min_le x (f64_of_Z c)) as (? & ? & _); [done..|].
    split; [|done]. split; [by apply f64_min_nonneg|done]. }
  unfold refill, wf_tokens. destruct (last_refill st) as [last|] eqn:El; simpl; rewrite ?El.
  - destruct (Hmin (tokens st) last Hn) as [? ?]. done.
  - destruct (Hmin (f64_of_Z c) now Hcn) as [? ?]. done.
Qed.

(** No refill at the instant of the last one; a fresh state starts full. *)
Lemma refill_now c rate now st :
  uint 32 c → nonneg rate → is_finite rate → wf_tokens st →
  match last_refill st with
  | Some last => last = now ∧ (scaled (tokens st) ≤ c * token_unit)%Z
  | None => True
  end →
  scaled (tokens (refill (f64_of_Z c) rate now st)) =
    match last_refill st with
    | Some _ => scaled (tokens st)
    | None => (c * token_unit)%Z
    end.
Proof.
  intros Hc Hrn Hrf [Hn Hf] Hl. destruct (limit_exact c Hc) as (Hcn & Hcf & Hcs).
  assert (∀ t, nonneg t → f64_add t (f64_mul (as_secs_f64 (duration_since now now)) rate) = t) as Hadd.
  { intros t Ht. replace (duration_since now now) with 0%Z by (unfold duration_since; lia).
    by rewrite as_secs_f64_0, f64_mul_zero, f64_add_zero. }
  unfold refill. destruct (last_refill st) as [last|] eqn:El; simpl; rewrite ?El; simpl.
  - destruct Hl as [-> Hle]. rewrite Hadd by done. rewrite <-Hcs in Hle.
    by destruct (f64_min_id (tokens st) (f64_of_Z c)) as [-> _].
  - rewrite Hadd by done. rewrite <-Hcs.
    by destruct (f64_min_id (f64_of_Z c) (f64_of_Z c)) as [-> _].
Qed.

Lemma spend_spec c st :
  uint 32 c → wf_tokens st → (scaled (tokens st) ≤ c * token_unit)%Z →
  let r := spend st in
  r.1 = (token_unit <=? scaled (tokens st))%Z ∧ wf_tokens r.2 ∧
  last_refill r.2 = last_refill st ∧
  scaled (tokens r.2) =
    (if r.1 then scaled (tokens st) - token_unit else scaled (tokens st))%Z.
Proof.
  intros Hc [Hn Hf] Hle. unfold spend. rewrite f64_ge_one by done. fold token_unit.
  destruct (token_unit <=? scaled (tokens st))%Z eqn:E; simpl; [|done]. bool_to_Z.
  pose proof token_unit_pos. destruct (f64_sub_one_exact (tokens st)) as (H1 & H2 & H3); try done.
  unfold uint in Hc. fold token_unit. nia.
Qed.

Definition is_legacy (cfg : RateLimitConfig) : Prop :=
  rl_enabled cfg = true ∧ scoped_limits cfg = [] ∧ rl_policy cfg = TokenBucket ∧
  uint 32 (capacity cfg) ∧ uint 32 (refill_per_second cfg).

Lemma legacy_check p cfg ctx now s :
  is_legacy cfg →
  let key := scope_key ScopeClient (rl_client ctx) in
  let r := apply_legacy_token_bucket cfg (default LimitState_default (s !! key)) now in
  check_with_context p cfg ctx now s = Done (r.1, <[key := r.2]> s).
Proof.
  intros (He & Hs & Hp & _) key r. unfold check_with_context. rewrite He. simpl.
  by rewrite !bool_decide_eq_true_2.
Qed.

Lemma legacy_wf cfg now st :
  is_legacy cfg → wf_tokens st → wf_tokens (apply_legacy_token_bucket cfg st now).2.
Proof.
  intros (_ & _ & _ & Hc & Hr) Hst. unfold apply_legacy_token_bucket.
  destruct (limit_exact _ Hr) as (Hrn & _ & _).
  destruct (refill_wf (capacity cfg) (f64_of_Z (refill_per_second cfg)) now st)
    as (H1 & _ & H2); [done..|].
  by apply (spend_spec (capacity cfg)).
Qed.

Definition wf_states (s : limit_states) : Prop := map_Forall (λ _, wf_tokens) s.

Lemma wf_states_lookup s k : wf_states s → wf_tokens (default LimitState_default (s !! k)).
Proof. intros Hs. destruct (s !! k) eqn:E; simpl; [by eapply Hs|done]. Qed.

Lemma legacy_run_wf p cfg reqs s bs s' :
  is_legacy cfg → wf_states s → run_checks p cfg reqs s = Done (bs, s') → wf_states s'.
Proof.
  intros Hl. revert s bs s'. induction reqs as [|[now ctx] reqs IH]; intros s bs s' Hs; simpl.
  { by intros [= _ <-]. }
  rewrite legacy_check by done. simpl.
  destruct (run_checks p cfg reqs _) as [[bs1 s1]|] eqn:E; simpl; [|done]. intros [= _ <-].
  eapply IH; [|exact E]. apply map_Forall_insert_2; [|done].
  by apply legacy_wf; [|apply wf_states_lookup].
Qed.

(** A burst of checks at one instant spends one token each, out of those
    there are after the refill of the first. *)
Lemma legacy_burst p cfg ctx now n : ∀ s,
  is_legacy cfg →
  let st := default LimitState_default (s !! scope_key ScopeClient (rl_client ctx)) in
  let v := scaled (tokens (refill (f64_of_Z (capacity cfg))
                                  (f64_of_Z (refill_per_second cfg)) now st)) in
  wf_tokens st → (0 ≤ v)%Z →
  ∃ bs s', run_checks p cfg (replicate n (now, ctx)) s = Done (bs, s') ∧
    Z.of_nat (countb id bs) = Z.min (Z.of_nat n) (v / token_unit).
Proof.
  induction n as [|n IH]; intros s Hl st v Hwf Hv.
  { exists [], s. split; [done|]. rewrite countb_nil.
    pose proof (Z.div_pos v token_unit). pose proof token_unit_pos. lia. }
  pose proof token_unit_pos as Hu. pose proof Hl as (_ & _ & _ & Hc & Hr).
  destruct (limit_exact _ Hr) as (Hrn & Hrf & _).
  simpl. rewrite legacy_check by done. simpl. fold st.
  set (r := apply_legacy_token_bucket cfg st now).
  set (st1 := refill (f64_of_Z (capacity cfg)) (f64_of_Z (refill_per_second cfg)) now st) in *.
  destruct (refill_wf (capacity cfg) (f64_of_Z (refill_per_second cfg)) now st)
    as (Hwf1 & Hlast1 & Hle1); [done..|]. fold st1 in Hwf1, Hlast1, Hle1.
  destruct (spend_spec (capacity cfg) st1) as (Hb & Hwf2 & Hlast2 & Hsp); [done..|].
  change (spend st1) with r in Hb, Hwf2, Hlast2, Hsp. fold v in Hle1, Hb, Hsp.
  rewrite Hb in Hsp.
  assert (scaled (tokens (refill (f64_of_Z (capacity cfg)) (f64_of_Z (refill_per_second cfg))
            now r.2)) = scaled (tokens r.2)) as Hsame.
  { rewrite refill_now; rewrite ?Hlast2, ?Hlast1; try done. split; [done|].
    rewrite Hsp. destruct (_ <=? _)%Z; lia. }
  destruct (IH (<[scope_key ScopeClient (rl_client ctx) := r.2]> s) Hl) as (bs & s' & Hrun & Hcnt);
    rewrite ?lookup_insert_eq in *; simpl; try done.
  { rewrite Hsame, Hsp. destruct (_ <=? _)%Z eqn:E; zsolve. }
  rewrite Hrun. simpl. exists (r.1 :: bs), s'. split; [done|].
  simpl in Hcnt. rewrite Hsame in Hcnt.
  rewrite countb_cons, Nat2Z.inj_add, Hcnt, Hsp, Hb. unfold id.
  destruct (token_unit <=? v)%Z eqn:E; bool_to_Z.
  - replace (v / token_unit)%Z with ((v - token_unit) / token_unit + 1)%Z; [lia|].
    rewrite <-Z.div_add by lia. f_equal. lia.
  - rewrite Z.div_small by lia. lia.
Qed.

Lemma scaled_nonneg x : nonneg x → (0 ≤ scaled x)%Z.
Proof. intros _. destruct x; simpl; lia. Qed.

Lemma sorted_chain ts : ∀ T,
  StronglySorted Z.le ts → Forall (λ t, T ≤ t)%Z ts → time_chain Z.le T ts.
Proof.
  induction ts as [|t ts IH]; intros T Hs HT; [done|].
  apply StronglySorted_inv in Hs as [Hs Ht]. apply Forall_cons in HT as [HT _]. simpl. auto.
Qed.

Lemma time_order_bound reqs : in_time_order reqs → ∃ T, time_chain Z.le T reqs.*1.
Proof.
  destruct reqs as [|[t ctx] reqs]; intros H; [by exists 0%Z|]. exists t.
  apply sorted_chain; [done|]. apply StronglySorted_inv in H as [_ H]. by constructor.
Qed.

(** Any instants are related by the full relation. *)
Lemma free_chain ts : ∀ T, time_chain (λ _ _, True) T ts.
Proof. induction ts; simpl; auto. Qed.

(** Configurations of the witnesses. *)
Definition demo_rule (scope : LimitScope) (limit : Z) (quota : option Z)
    (policy : RateLimitPolicy) : ScopedLimitRule := {|
  rule_scope := scope; rule_limit := limit; rule_quota := quota; rule_window_seconds := 60;
  rule_policy := Some policy |}.
Definition demo_limits (policy : RateLimitPolicy) (rules : list ScopedLimitRule)
    : RateLimitConfig := {|
  rl_enabled := true; rl_policy := policy; capacity := 2; refill_per_second := 1;
  fixed_window_seconds := 60; sliding_window_seconds := 60; scoped_limits := rules |}.
Definition demo_ctx (client : string) : RateLimitContext := {|
  rl_route := "users"; rl_service := "svc"; rl_consumer := None; rl_client := client |}.
Definition demo_reqs : list (instant * RateLimitContext) :=
  (λ s, (from_secs s, demo_ctx "a")) <$> [0; 1; 2; 60; 61; 62]%Z.

Ltac sorted_times := repeat constructor; vm_compute; congruence.

Lemma quota_run p cfg r v q reqs bs states :
  uses_rules cfg → r ∈ rules_of cfg → rule_quota r = Some q → uint 64 q →
  run_checks p cfg reqs ∅ = Done (bs, states) →
  (Z.of_nat (length (accepted_for (rule_scope r) v reqs bs)) ≤ q)%Z.
Proof.
  intros Hu Hr Hq [Hq0 Hq64] Hrun.
  destruct (run_invariant p cfg Hu r Hr v (quota_inv q) (λ _ _, True)) with (acc := @nil instant)
    (s := ∅ : limit_states) (T := 0%Z) (reqs := reqs) (bs := bs) (s' := states)
    as (T' & Hlen & Hle); try done; [|apply free_chain|].
  - intros. by eapply quota_inv_accept.
  - simpl in *. lia.
Qed.

Lemma run_checks_snoc p cfg reqs now ctx b s2 : ∀ s bs s1,
  run_checks p cfg reqs s = Done (bs, s1) →
  check_with_context p cfg ctx now s1 = Done (b, s2) →
  run_checks p cfg (reqs ++ [(now, ctx)]) s = Done (bs ++ [b], s2).
Proof.
  induction reqs as [|[now' ctx'] reqs IH]; intros s bs s1 Hrun Hc; simpl in *.
  { injection Hrun as <- <-. by rewrite Hc. }
  destruct (check_with_context p cfg ctx' now' s) as [[b' s']|]; simpl in *; [|done].
  destruct (run_checks p cfg reqs s') as [[bs' s'']|] eqn:E; simpl in *; [|done].
  injection Hrun as <- <-. by rewrite (IH _ _ _ E Hc).
Qed.

(** ** Properties *)

(** C25: checking is all or nothing.  On the rule path, a denied check leaves
    every limiter state as it was; an accepted one adds exactly one to the
    acceptance count of every state key of the request and leaves every other
    state untouched, whatever the rules and their number. *)
Theorem check_all_or_nothing p cfg ctx now states b states' :
  uses_rules cfg → check_with_context p cfg ctx now states = Done (b, states') →
  if b then
    (∀ k, k ∉ context_keys cfg ctx → states' !! k = states !! k) ∧
    (∀ k, k ∈ context_keys cfg ctx →
       accepted_total (default LimitState_default (states' !! k)) =
         wrap 64 (accepted_total (default LimitState_default (states !! k)) + 1))
  else states' = states.
Proof.
  intros Hu Hc. destruct b; [|by eapply check_rules_deny].
  destruct (check_rules_accept _ _ _ _ _ _ Hu Hc) as (staged & -> & Hkeys & Hf).
  rewrite <-Hkeys. split; intros k Hk; [by apply commit_lookup_ne|].
  destruct (commit_lookup_in states staged k Hk) as (v & Hin & ->). simpl.
  apply list_elem_of_lookup in Hin as [i Hi].
  destruct (Forall2_lookup_r _ _ _ _ _ Hf Hi) as (r & _ & Hst).
  apply stage_rule_spec in Hst as (_ & _ & st & n & Ha & Hn & ->). simpl.
  apply apply_policy_accepted_total in Ha. rewrite <-Ha. by apply add_uint_wrap in Hn.
Qed.

Lemma check_all_or_nothing_witness :
  let cfg := demo_limits SlidingWindow
    [demo_rule ScopeRoute 2 None SlidingWindow; demo_rule ScopeClient 2 (Some 9%Z) FixedWindow] in
  ∃ states', check_with_context Debug cfg (demo_ctx "a") 5 ∅ = Done (true, states') ∧
    states' !! "service:svc" = (∅ : limit_states) !! "service:svc".
Proof.
  intros cfg.
  set (states' := match check_with_context Debug cfg (demo_ctx "a") 5 ∅ with
                  | Done (_, s) => s | Panicked _ => ∅ end).
  exists states'. split; [vm_compute; reflexivity|].
  refine (proj1 (check_all_or_nothing Debug cfg (demo_ctx "a") 5 ∅ true states' _ _) _ _).
  - split; [reflexivity|]. intros [? _]. discriminate.
  - vm_compute. reflexivity.
  - apply (bool_decide_unpack _). vm_compute. exact I.
Defined.

(** The sliding window keeps its promise.  For a rule with the sliding
    policy whose scope no other rule shares, over any sequence of checks taken
    in time order from an empty limiter, at most [limit] requests with a given
    scope value are accepted in any interval as long as the rule's window. *)
Theorem sliding_window_bound p cfg r v reqs bs states t :
  uses_rules cfg → r ∈ rules_of cfg → distinct_scopes cfg →
  default (rl_policy cfg) (rule_policy r) = SlidingWindow → uint 32 (rule_limit r) →
  in_time_order reqs → run_checks p cfg reqs ∅ = Done (bs, states) →
  (Z.of_nat (countb (in_window t (rule_window r)) (accepted_for (rule_scope r) v reqs bs))
     ≤ rule_limit r)%Z.
Proof.
  intros Hu Hr Hd Hpol [Hl _] Hord Hrun. destruct (time_order_bound reqs Hord) as [T HT].
  destruct (run_invariant p cfg Hu r Hr v (sliding_inv r) Z.le) with (acc := @nil instant)
    (s := ∅ : limit_states) (T := T) (reqs := reqs) (bs := bs) (s' := states)
    as (T' & _ & _ & Hcnt); try done.
  - intros. by eapply sliding_inv_idle.
  - intros acc s T0 now r' next HT0 HI Hr' Hsc _ Hst.
    assert (r' = r) as -> by by eapply distinct_scopes_eq.
    apply stage_rule_spec in Hst as (_ & _ & st & n & Ha & _ & ->). rewrite Hpol in Ha.
    by eapply sliding_inv_accept.
  - split; [by exists []|]. done.
Qed.

Lemma sliding_window_bound_witness :
  let cfg := demo_limits SlidingWindow [demo_rule ScopeClient 2 None SlidingWindow] in
  ∃ bs states, run_checks Debug cfg demo_reqs ∅ = Done (bs, states) ∧
    (Z.of_nat (countb (in_window (from_secs 1) (from_secs 60))
                      (accepted_for ScopeClient "a" demo_reqs bs)) ≤ 2)%Z.
Proof.
  intros cfg. eexists _, _. split; [vm_compute; reflexivity|].
  apply (sliding_window_bound Debug cfg (demo_rule ScopeClient 2 None SlidingWindow) "a" demo_reqs
    [true; true; false; true; true; false] (match run_checks Debug cfg demo_reqs ∅ with
      | Done (_, s) => s | Panicked _ => ∅ end)).
  - split; [reflexivity|]. intros [? _]. discriminate.
  - apply list_elem_of_here.
  - apply NoDup_singleton.
  - reflexivity.
  - unfold uint. simpl. lia.
  - sorted_times.
  - vm_compute. reflexivity.
Defined.

(** The fixed window allows at most twice the limit in any interval as
    long as the window (the bursts at the two sides of a boundary), under the
    same conditions as for the sliding window. *)
Theorem fixed_window_bound p cfg r v reqs bs states t :
  uses_rules cfg → r ∈ rules_of cfg → distinct_scopes cfg →
  default (rl_policy cfg) (rule_policy r) = FixedWindow → uint 32 (rule_limit r) →
  in_time_order reqs → run_checks p cfg reqs ∅ = Done (bs, states) →
  (Z.of_nat (countb (in_window t (rule_window r)) (accepted_for (rule_scope r) v reqs bs))
     ≤ 2 * rule_limit r)%Z.
Proof.
  intros Hu Hr Hd Hpol [Hl Hl32] Hord Hrun. destruct (time_order_bound reqs Hord) as [T HT].
  destruct (run_invariant p cfg Hu r Hr v (fixed_inv r) Z.le) with (acc := @nil instant)
    (s := ∅ : limit_states) (T := T) (reqs := reqs) (bs := bs) (s' := states)
    as (T' & Hcnt & _); try done.
  - intros. by eapply fixed_inv_idle.
  - intros acc s T0 now r' next HT0 HI Hr' Hsc _ Hst.
    assert (r' = r) as -> by by eapply distinct_scopes_eq.
    apply stage_rule_spec in Hst as (_ & _ & st & n & Ha & _ & ->). rewrite Hpol in Ha.
    by eapply fixed_inv_accept.
  - split; [|done]. intros. rewrite countb_nil. lia.
Qed.

Lemma fixed_window_bound_witness :
  let cfg := demo_limits TokenBucket [demo_rule ScopeClient 2 None FixedWindow] in
  ∃ bs states, run_checks Release cfg demo_reqs ∅ = Done (bs, states) ∧
    (Z.of_nat (countb (in_window (from_secs 1) (from_secs 60))
                      (accepted_for ScopeClient "a" demo_reqs bs)) ≤ 4)%Z.
Proof.
  intros cfg. eexists _, _. split; [vm_compute; reflexivity|].
  apply (fixed_window_bound Release cfg (demo_rule ScopeClient 2 None FixedWindow) "a" demo_reqs
    [true; true; false; true; true; false] (match run_checks Release cfg demo_reqs ∅ with
      | Done (_, s) => s | Panicked _ => ∅ end)).
  - split; [reflexivity|]. intros [? _]. discriminate.
  - apply list_elem_of_here.
  - apply NoDup_singleton.
  - reflexivity.
  - unfold uint. simpl. lia.
  - sorted_times.
  - vm_compute. reflexivity.
Defined.

(** A quota is never exceeded.  For a rule with quota [q], over any
    sequence of checks, in time order or not, at most [q] requests with a given scope
    value are ever accepted, even when other rules share the scope. *)
Theorem quota_bound p cfg r v q reqs bs states :
  uses_rules cfg → r ∈ rules_of cfg → rule_quota r = Some q → uint 64 q →
  run_checks p cfg reqs ∅ = Done (bs, states) →
  (Z.of_nat (length (accepted_for (rule_scope r) v reqs bs)) ≤ q)%Z.
Proof. apply quota_run. Qed.

Lemma quota_bound_witness :
  let cfg := demo_limits SlidingWindow [demo_rule ScopeConsumer 10 (Some 2%Z) SlidingWindow] in
  ∃ bs states, run_checks Debug cfg demo_reqs ∅ = Done (bs, states) ∧
    (Z.of_nat (length (accepted_for ScopeConsumer "anonymous" demo_reqs bs)) ≤ 2)%Z.
Proof.
  intros cfg.
  set (states := match run_checks Debug cfg demo_reqs ∅ with Done (_, s) => s | Panicked _ => ∅ end).
  assert (run_checks Debug cfg demo_reqs ∅
          = Done ([true; true; false; false; false; false], states)) as Hrun
    by (vm_compute; reflexivity).
  exists [true; true; false; false; false; false], states. split; [exact Hrun|].
  apply (quota_bound Debug cfg (demo_rule ScopeConsumer 10 (Some 2%Z) SlidingWindow) "anonymous" 2
    demo_reqs [true; true; false; false; false; false] states).
  - split; [reflexivity|]. intros [? _]. discriminate.
  - apply list_elem_of_here.
  - reflexivity.
  - unfold uint. simpl. lia.
  - exact Hrun.
Defined.

(** C22: the token bucket bounds bursts, with the floating-point arithmetic of
    the code.  After any sequence of checks, simultaneous requests of one
    client never panic and at most [capacity] of them are accepted; a client
    not seen before gets exactly min(n, capacity). *)
Theorem token_bucket_burst p cfg reqs bs0 states ctx now n :
  is_legacy cfg → run_checks p cfg reqs ∅ = Done (bs0, states) →
  ∃ bs states', run_checks p cfg (replicate n (now, ctx)) states = Done (bs, states') ∧
    (Z.of_nat (countb id bs) ≤ capacity cfg)%Z ∧
    (states !! scope_key ScopeClient (rl_client ctx) = None →
     Z.of_nat (countb id bs) = Z.min (Z.of_nat n) (capacity cfg)).
Proof.
  intros Hl Hrun. pose proof Hl as (_ & _ & _ & Hc & Hr).
  assert (wf_states states) as Hs by (by eapply legacy_run_wf; [| |exact Hrun]).
  destruct (limit_exact _ Hr) as (Hrn & Hrf & _). pose proof token_unit_pos as Hu.
  pose proof (wf_states_lookup states (scope_key ScopeClient (rl_client ctx)) Hs) as Hst.
  destruct (refill_wf (capacity cfg) (f64_of_Z (refill_per_second cfg)) now _ Hc Hrn Hst)
    as ([Hn _] & _ & Hle).
  destruct (legacy_burst p cfg ctx now n states Hl Hst) as (bs & s' & Hb & Hcnt).
  { by apply scaled_nonneg. }
  exists bs, s'. split; [done|]. split.
  - rewrite Hcnt. apply Z.div_le_mono with (c := token_unit) in Hle; [|done].
    rewrite Z.div_mul in Hle by lia. lia.
  - intros Hnone. rewrite Hcnt.
    assert (default LimitState_default (states !! scope_key ScopeClient (rl_client ctx))
            = LimitState_default) as -> by by rewrite Hnone.
    rewrite refill_now by done. change (last_refill LimitState_default) with (@None instant).
    cbv iota beta. by rewrite Z.div_mul by lia.
Qed.

Lemma token_bucket_burst_witness :
  ∃ bs states', run_checks Debug (demo_limits TokenBucket [])
      (replicate 5 (from_secs 7, demo_ctx "b")) ∅ = Done (bs, states') ∧
    Z.of_nat (countb id bs) = 2%Z.
Proof.
  destruct (token_bucket_burst Debug (demo_limits TokenBucket []) [] [] ∅ (demo_ctx "b")
    (from_secs 7) 5) as (bs & s' & Hrun & _ & Hcnt).
  - repeat split; simpl; lia.
  - reflexivity.
  - exists bs, s'. split; [exact Hrun|]. apply Hcnt. reflexivity.
Defined.
