(* ===== verification/LimiterBounds.v ===== *)
(** * Bounds of the limiter's states and times (rate_limit.rs)

    The types of the limiter's state along any sequence of checks, with the
    freedom from overflow that follows; the sliding window when the clock
    readings of concurrent checks are out of order; and what happens when two
    rules share a scope. *)

From S2P Require Export RateLimit.
From Stdlib Require Import Sorted.

#[local] Open Scope string_scope.
#[local] Open Scope list_scope.

(** ** Well-typed states *)

(** The field types of the configuration. *)
Definition wf_rule (r : ScopedLimitRule) : Prop :=
  uint 32 (rule_limit r) ∧ uint 64 (rule_window_seconds r).
Definition wf_limits (cfg : RateLimitConfig) : Prop :=
  uint 32 (capacity cfg) ∧ uint 32 (refill_per_second cfg) ∧
  uint 64 (fixed_window_seconds cfg) ∧ uint 64 (sliding_window_seconds cfg) ∧
  Forall wf_rule (scoped_limits cfg).

(** A state after at most [n] acceptances: a finite, non-negative number of
    tokens, no more than a [u32] can ask for; counts and hits within the limits
    of the rules; the acceptances counted. *)
Definition well_typed (n : Z) (st : LimitState) : Prop :=
  wf_tokens st ∧ (scaled (tokens st) ≤ 2 ^ 32 * token_unit)%Z ∧
  uint 33 (fixed_window_count st) ∧ (Z.of_nat (length (sliding_hits st)) < 2 ^ 33)%Z ∧
  (0 ≤ accepted_total st ≤ n)%Z.

Definition well_typed_states (n : Z) (s : limit_states) : Prop := map_Forall (λ _, well_typed n) s.

Lemma wf_limits_default : wf_limits RateLimitConfig_default.
Proof.
  unfold wf_limits, uint. simpl. unfold default_capacity, default_refill_per_second,
    default_window_seconds. repeat split; lia || constructor.
Qed.

Lemma well_typed_default n : (0 ≤ n)%Z → well_typed n LimitState_default.
Proof. intros. pose proof token_unit_pos. unfold well_typed, uint. simpl. split_and!; done || lia. Qed.

Lemma well_typed_mono n m st : (n ≤ m)%Z → well_typed n st → well_typed m st.
Proof. intros Hn (? & ? & ? & ? & ?). do 4 (split; [done|]). lia. Qed.

Lemma well_typed_lookup n s k :
  (0 ≤ n)%Z → well_typed_states n s → well_typed n (default LimitState_default (s !! k)).
Proof.
  intros Hn Hs. destruct (s !! k) eqn:E; [by eapply Hs|by apply well_typed_default].
Qed.

Lemma token_policy_typed c rate now n st :
  uint 32 c → nonneg rate → well_typed n st →
  well_typed n (spend (refill (f64_of_Z c) rate now st)).2.
Proof.
  intros Hc Hr (Hwf & _ & Hf & Hh & Ha). pose proof token_unit_pos as Hu.
  destruct (refill_wf c rate now st Hc Hr Hwf) as (Hwf1 & _ & Hle).
  destruct (spend_spec c _ Hc Hwf1 Hle) as (Hb & Hwf2 & _ & Hsp).
  unfold well_typed.
  assert (fixed_window_count (spend (refill (f64_of_Z c) rate now st)).2 = fixed_window_count st ∧
    sliding_hits (spend (refill (f64_of_Z c) rate now st)).2 = sliding_hits st ∧
    accepted_total (spend (refill (f64_of_Z c) rate now st)).2 = accepted_total st) as (-> & -> & ->).
  { unfold spend, refill. by repeat case_match. }
  split; [done|]. split; [|done]. rewrite Hsp. unfold uint in Hc. case_match; nia.
Qed.

Lemma pop_expired_length now w hits : (length (pop_expired now w hits) ≤ length hits)%nat.
Proof. induction hits as [|x hits IH]; simpl; [lia|]. case_match; simpl; lia. Qed.

Lemma well_typed_fixed n st start c :
  well_typed n st → uint 33 c → well_typed n (set_fixed st start c).
Proof. by intros (? & ? & ? & ? & ?) ?. Qed.

Lemma well_typed_hits n st hits :
  well_typed n st → (Z.of_nat (length hits) < 2 ^ 33)%Z → well_typed n (set_hits st hits).
Proof. by intros (? & ? & ? & ? & ?) ?. Qed.

Lemma apply_policy_typed p policy r now n st :
  wf_rule r → well_typed n st →
  ∃ b st', apply_policy p policy r st now = Done (b, st') ∧ well_typed n st'.
Proof.
  intros [Hl Hw] Hst. destruct policy; simpl.
  - eexists _, _. split; [by rewrite <-surjective_pairing|]. apply token_policy_typed; [done| |done].
    apply f64_div_nonneg; apply f64_of_Z_nonneg; unfold uint in *; lia.
  - set (st1 := if (_ <=? _)%Z then _ else _).
    assert (well_typed n st1) as Hst1.
    { pose proof Hst as (_ & _ & Hf & _). unfold st1.
      case_match; apply well_typed_fixed; done || (unfold uint; lia). }
    destruct (fixed_window_count st1 <? rule_limit r)%Z eqn:E; bool_to_Z; [|eauto].
    pose proof Hst1 as (_ & _ & [? ?] & _). unfold uint in Hl.
    rewrite add_uint_done by (unfold uint; lia). simpl. eexists _, _. split; [done|].
    apply well_typed_fixed; [done|]. unfold uint. lia.
  - pose proof Hst as (_ & _ & _ & Hh & _).
    pose proof (pop_expired_length now (rule_window r) (sliding_hits st)).
    destruct (Z.of_nat (length _) <? rule_limit r)%Z eqn:E; bool_to_Z; eexists _, _.
    + split; [reflexivity|]. apply well_typed_hits; [apply well_typed_hits; [exact Hst|lia]|].
      rewrite length_app. simpl in *. unfold uint in Hl. lia.
    + split; [reflexivity|]. apply well_typed_hits; [exact Hst|lia].
Qed.

Lemma stage_rule_typed p cfg now s r v n :
  wf_rule r → (0 ≤ n)%Z → (n + 1 < 2 ^ 64)%Z → well_typed_states n s →
  ∃ o, stage_rule p cfg now s r v = Done o ∧ ∀ ks, o = Some ks → well_typed (n + 1) ks.2.
Proof.
  intros Hr Hn Hn64 Hs. unfold stage_rule. case_match; [by exists None|].
  pose proof (well_typed_lookup n s (scope_key (rule_scope r) v) Hn Hs) as Hst.
  destruct (apply_policy_typed p (default (rl_policy cfg) (rule_policy r)) r now n _ Hr Hst)
    as (b & st' & -> & Hst'). simpl. destruct b; [|by exists None].
  destruct Hst' as (? & ? & ? & ? & ?).
  rewrite add_uint_done by (unfold uint; lia). simpl. eexists. split; [done|].
  intros ks [= <-]. do 4 (split; [done|]). simpl. lia.
Qed.

Lemma stage_rules_typed p cfg now s n rules : ∀ staged,
  Forall (λ rv, wf_rule rv.1) rules → (0 ≤ n)%Z → (n + 1 < 2 ^ 64)%Z → well_typed_states n s →
  Forall (λ ks, well_typed (n + 1) ks.2) staged →
  ∃ o, stage_rules p cfg now s rules staged = Done o ∧
    ∀ out, o = Some out → Forall (λ ks, well_typed (n + 1) ks.2) out.
Proof.
  induction rules as [|[r v] rules IH]; intros staged Hr Hn Hn64 Hs Hst; simpl.
  { eexists. split; [done|]. by intros ? [= <-]. }
  apply Forall_cons in Hr as [Hr Hrs]. simpl in Hr.
  destruct (stage_rule_typed p cfg now s r v n Hr Hn Hn64 Hs) as ([ks|] & -> & Hks); simpl;
    [|by exists None].
  apply IH; try done. apply Forall_app. split; [done|]. constructor; [by apply Hks|done].
Qed.

Lemma commit_typed n staged : ∀ s,
  well_typed_states n s → Forall (λ ks, well_typed n ks.2) staged → well_typed_states n (commit s staged).
Proof.
  unfold commit. induction staged as [|[k st] staged IH]; intros s Hs Hst; [done|].
  apply Forall_cons in Hst as [Hk Hst]. simpl. apply IH; [|done]. by apply map_Forall_insert_2.
Qed.

Lemma wf_effective_rules cfg ctx :
  wf_limits cfg → Forall (λ rv, wf_rule rv.1) (effective_rules_for_context cfg ctx).
Proof.
  intros (Hc & _ & Hf & Hs & Hrules). rewrite effective_rules_eq. apply Forall_fmap.
  unfold rules_of. destruct (scoped_limits cfg) as [|r rs] eqn:E; [|exact Hrules].
  unfold effective_rules_for_context. rewrite E. constructor; [|done].
  split; [done|]. simpl. destruct (rl_policy cfg); [unfold uint; lia|done|done].
Qed.

(** One check answers and keeps the types, if the count of acceptances has
    room for one more. *)
Lemma check_typed p cfg ctx now s n :
  wf_limits cfg → (0 ≤ n)%Z → (n + 1 < 2 ^ 64)%Z → well_typed_states n s →
  ∃ b s', check_with_context p cfg ctx now s = Done (b, s') ∧ well_typed_states (n + 1) s'.
Proof.
  intros Hl Hn Hn64 Hs.
  assert (well_typed_states (n + 1) s) as Hs'.
  { intros k st Hk. eapply well_typed_mono, Hs, Hk. lia. }
  unfold check_with_context. destruct (rl_enabled cfg); simpl; [|eauto].
  destruct (bool_decide _ && _).
  - eexists _, _. split; [done|]. apply map_Forall_insert_2; [|done].
    destruct Hl as (Hc & Hr & _). apply token_policy_typed; [done| |].
    + apply f64_of_Z_nonneg. unfold uint in Hr. lia.
    + apply well_typed_lookup; [lia|done].
  - destruct (stage_rules_typed p cfg now s n (effective_rules_for_context cfg ctx) [])
      as ([staged|] & -> & Hst); try done; [by apply wf_effective_rules|..]; simpl; [|eauto].
    eexists _, _. split; [done|]. apply commit_typed; [done|by apply Hst].
Qed.

Lemma run_checks_typed p cfg reqs : ∀ s n,
  wf_limits cfg → (0 ≤ n)%Z → (n + Z.of_nat (length reqs) < 2 ^ 64)%Z → well_typed_states n s →
  ∃ bs s', run_checks p cfg reqs s = Done (bs, s') ∧
    well_typed_states (n + Z.of_nat (length reqs)) s'.
Proof.
  induction reqs as [|[now ctx] reqs IH]; intros s n Hl Hn Hn64 Hs; simpl in *.
  { eexists _, _. split; [done|]. by rewrite Z.add_0_r. }
  destruct (check_typed p cfg ctx now s n) as (b & s1 & -> & Hs1); try done; [lia|]. simpl.
  destruct (IH s1 (n + 1)%Z) as (bs & s2 & -> & Hs2); try done; [lia..|]. simpl.
  eexists _, _. split; [done|]. apply (eq_ind _ (λ m, well_typed_states m s2) Hs2). lia.
Qed.

(** ** Concurrent checks: the sliding window with late clock readings *)

(** In lock order the readings go back by at most [d]. *)
Definition almost_sorted (d : duration) : list instant → Prop :=
  StronglySorted (λ a b, a - d ≤ b)%Z.

Lemma almost_sorted_snoc d l x :
  almost_sorted d (l ++ [x]) → almost_sorted d l ∧ Forall (λ a, a - d ≤ x)%Z l.
Proof.
  unfold almost_sorted. induction l as [|a l IH]; simpl; [by repeat constructor|].
  intros [Hs Ha]%StronglySorted_inv. destruct (IH Hs) as [H1 H2].
  apply Forall_app in Ha as [Ha Hx]. apply Forall_cons in Hx as [Hx _]. by repeat constructor.
Qed.

Lemma almost_sorted_sub d l k : k `sublist_of` l → almost_sorted d l → almost_sorted d k.
Proof.
  unfold almost_sorted. induction 1 as [|x k l Hk IH|x k l Hk IH]; [done|..];
    intros [Hs Hx]%StronglySorted_inv; [|by apply IH].
  constructor; [by apply IH|]. rewrite Forall_forall in *. intros y Hy.
  by eapply Hx, elem_of_sublist.
Qed.

Lemma accepted_for_sub scope v reqs : ∀ bs, accepted_for scope v reqs bs `sublist_of` reqs.*1.
Proof.
  unfold accepted_for. induction reqs as [|[t c] reqs IH]; intros [|b bs]; simpl;
    try apply sublist_nil_l.
  rewrite filterb_cons. destruct (_ && _); simpl; [apply sublist_skip|apply sublist_cons]; apply IH.
Qed.

(** The hits that were dropped are older by a window than an acceptance. *)
Definition skew_inv (d : duration) (r : ScopedLimitRule) (acc : list instant) (st : LimitState)
    (_ : instant) : Prop :=
  almost_sorted d acc →
  (∃ old, acc = old ++ sliding_hits st ∧
     Forall (λ x, ∃ y, y ∈ acc ∧ x + rule_window r ≤ y)%Z old) ∧
  (Z.of_nat (length (sliding_hits st)) ≤ rule_limit r)%Z ∧
  ∀ t, (Z.of_nat (countb (in_window t (rule_window r - d)) acc) ≤ rule_limit r)%Z.

Lemma skew_inv_accept d p r acc st T now st' n :
  (0 ≤ d)%Z → skew_inv d r acc st T →
  apply_policy p SlidingWindow r st now = Done (true, st') →
  skew_inv d r (acc ++ [now]) (set_accepted st' n) now.
Proof.
  intros Hd Hinv Ha [Hs Hlast]%almost_sorted_snoc.
  destruct (Hinv Hs) as ((old & Hacc & Hold) & Hlen & Hcnt). clear Hinv. simpl in Ha.
  destruct (Z.of_nat (length _) <? rule_limit r)%Z eqn:E; [|done]. injection Ha as <-. simpl.
  pose proof (rule_window_pos r) as Hw.
  destruct (pop_expired_spec now (rule_window r) (sliding_hits st) Hw) as (popped & Hhits & Hpop).
  set (kept := pop_expired now (rule_window r) (sliding_hits st)) in *.
  assert (Forall (λ x, ∃ y, y ∈ acc ++ [now] ∧ x + rule_window r ≤ y)%Z (old ++ popped)) as Hexp.
  { apply Forall_app; split; (eapply Forall_impl; [eassumption|]).
    - intros x (y & Hy & ?). exists y. rewrite elem_of_app. eauto.
    - intros x ?. exists now. rewrite elem_of_app, list_elem_of_singleton. eauto. }
  assert (Z.of_nat (length (kept ++ [now])) ≤ rule_limit r)%Z as Hlen'.
  { rewrite length_app. simpl. zsolve. }
  split; [|split; [done|]].
  - exists (old ++ popped). split; [|done]. rewrite Hacc, Hhits. by rewrite !(assoc_L (++)).
  - intros t. destruct (in_window t (rule_window r - d) now) eqn:Ew.
    + rewrite Hacc, Hhits, (assoc_L (++) old), <-(assoc_L (++) (old ++ popped)), countb_app.
      rewrite countb_none.
      * pose proof (countb_length (in_window t (rule_window r - d)) (kept ++ [now])). simpl. lia.
      * intros x Hx. rewrite Forall_forall in Hexp. destruct (Hexp x Hx) as (y & Hy & Hxy).
        assert (y - d ≤ now)%Z as Hyn.
        { rewrite elem_of_app, list_elem_of_singleton in Hy. rewrite Forall_forall in Hlast.
          destruct Hy as [Hy| ->]; [by apply Hlast|lia]. }
        unfold in_window in *. bool_to_Z. apply andb_false_iff. left. apply Z.leb_gt. lia.
    + rewrite countb_app, countb_cons, Ew. specialize (Hcnt t). unfold countb at 2. simpl. lia.
Qed.

(** ** Rules that share a scope

    Both rules start from the same stored state; the state the last rule
    staged is the one that is kept. *)

(** Each reading at least [wait] after the one before. *)
Definition paced (wait : duration) : instant → list instant → Prop :=
  time_chain (λ a b, a + wait ≤ b)%Z.

Section shared_scope.
Context (p : profile) (cfg : RateLimitConfig) (r1 r2 : ScopedLimitRule) (ctx : RateLimitContext).
Context (Hen : rl_enabled cfg = true) (Hrules : scoped_limits cfg = [r1; r2]).
Context (Hscope : rule_scope r2 = rule_scope r1).
Context (Hp1 : default (rl_policy cfg) (rule_policy r1) = SlidingWindow).
Context (Hp2 : default (rl_policy cfg) (rule_policy r2) = SlidingWindow).
Context (Hq1 : rule_quota r1 = None) (Hq2 : rule_quota r2 = None).
Context (Hl1 : (2 ≤ rule_limit r1)%Z) (Hl2 : (1 ≤ rule_limit r2)%Z).
Let key := scope_key (rule_scope r1) (scope_value ctx (rule_scope r1)).

(** At most one hit is stored, and it has left the second rule's window. *)
Definition one_hit (now : instant) (n : Z) (s : limit_states) : Prop :=
  let st := default LimitState_default (s !! key) in
  (sliding_hits st = [] ∨ ∃ t, sliding_hits st = [t] ∧ (t + rule_window r2 ≤ now)%Z) ∧
  (0 ≤ accepted_total st ≤ n)%Z.

Lemma shared_scope_step now n s :
  one_hit now n s → (n + 1 < 2 ^ 64)%Z →
  ∃ s', check_with_context p cfg ctx now s = Done (true, s') ∧
    ∀ next, (now + rule_window r2 ≤ next)%Z → one_hit next (n + 1) s'.
Proof.
  intros [Hh Ha] Hn. unfold check_with_context, effective_rules_for_context.
  rewrite Hen, Hrules. simpl. unfold stage_rule. rewrite Hscope. fold key.
  set (st := default LimitState_default (s !! key)) in *.
  rewrite Hq1, Hq2, Hp1, Hp2. simpl.
  assert (length (pop_expired now (rule_window r1) (sliding_hits st)) ≤ 1)%nat as Hpop1.
  { pose proof (pop_expired_length now (rule_window r1) (sliding_hits st)).
    assert (length (sliding_hits st) ≤ 1)%nat; [|lia].
    destruct Hh as [-> |(t & -> & _)]; simpl; lia. }
  assert (pop_expired now (rule_window r2) (sliding_hits st) = []) as Hpop2.
  { destruct Hh as [-> |(t & -> & Ht)]; [done|]. simpl.
    rewrite (proj2 (Z.leb_le _ _)); [done|]. unfold duration_since. lia. }
  rewrite (proj2 (Z.ltb_lt _ (rule_limit r1))) by lia. simpl.
  rewrite add_uint_done by (unfold uint; lia). simpl.
  rewrite Hpop2. simpl. rewrite (proj2 (Z.ltb_lt _ (rule_limit r2))) by lia. simpl.
  rewrite add_uint_done by (unfold uint; lia). simpl.
  eexists. split; [done|]. intros next Hnext. unfold one_hit, commit. simpl.
  rewrite lookup_insert_eq. simpl. split; [right; eauto|lia].
Qed.

Lemma shared_scope_run ts : ∀ now n s,
  one_hit now n s → (n + Z.of_nat (S (length ts)) < 2 ^ 64)%Z →
  paced (rule_window r2) now ts →
  ∃ s', run_checks p cfg ((λ t, (t, ctx)) <$> now :: ts) s = Done (replicate (S (length ts)) true, s').
Proof.
  induction ts as [|t ts IH]; intros now n s Hs Hn Hts;
    rewrite fmap_cons; cbn [run_checks];
    (destruct (shared_scope_step now n s Hs) as (s1 & -> & Hs1); [lia|]);
    cbn [mbind outcome_bind fst snd].
  - eexists. reflexivity.
  - destruct Hts as [Ht Hts]. cbn [length] in Hn. destruct (IH t (n + 1)%Z s1) as (s2 & Hrun); [by apply Hs1|lia|done|].
    rewrite Hrun. eexists. reflexivity.
Qed.
End shared_scope.

(** ** Properties *)

(** C17: the limiter's states stay in their types and checks never panic.  For
    a configuration of well-typed numbers, any sequence of fewer than 2^64
    checks, whatever the policies, contexts, times and build profile, answers
    every check, and leaves every state well typed: a finite number of tokens
    between 0 and 2^32, window counts and stored hits below 2^33, and an
    acceptance count of at most the number of checks. *)
Theorem limiter_well_typed p cfg reqs :
  wf_limits cfg → (Z.of_nat (length reqs) < 2 ^ 64)%Z →
  ∃ bs states, run_checks p cfg reqs ∅ = Done (bs, states) ∧
    ∀ k st, states !! k = Some st → well_typed (Z.of_nat (length reqs)) st.
Proof.
  intros Hl Hn. destruct (run_checks_typed p cfg reqs ∅ 0 Hl) as (bs & s & Hrun & Hs);
    [lia|lia|apply map_Forall_empty|]. exists bs, s. split; [done|]. intros k st Hk.
  by apply (Hs k st).
Qed.

(** C7: the sliding window under concurrency.  A check reads the clock before
    it takes the lock, so concurrent checks can be committed out of order.  If
    in lock order the readings never go back by more than [d], at most [limit]
    requests with a given scope value are accepted in any interval that is
    shorter than the rule's window by [d], for a rule with the sliding policy
    whose scope no other rule shares; with [d = 0], in any full window. *)
Theorem sliding_window_skew p cfg r v reqs bs states t d :
  uses_rules cfg → r ∈ rules_of cfg → distinct_scopes cfg →
  default (rl_policy cfg) (rule_policy r) = SlidingWindow → uint 32 (rule_limit r) →
  (0 ≤ d)%Z → almost_sorted d reqs.*1 →
  run_checks p cfg reqs ∅ = Done (bs, states) →
  (Z.of_nat (countb (in_window t (rule_window r - d)) (accepted_for (rule_scope r) v reqs bs))
     ≤ rule_limit r)%Z.
Proof.
  intros Hu Hr Hds Hpol [Hl _] Hd Hord Hrun.
  destruct (run_invariant p cfg Hu r Hr v (skew_inv d r) (λ _ _, True)) with (acc := @nil instant)
    (s := ∅ : limit_states) (T := 0%Z) (reqs := reqs) (bs := bs) (s' := states)
    as (T' & HI); try done.
  - intros acc s T0 now r' next _ HI Hr' Hsc _ Hst.
    assert (r' = r) as -> by by eapply distinct_scopes_eq.
    apply stage_rule_spec in Hst as (_ & _ & st & n & Ha & _ & ->). rewrite Hpol in Ha.
    by eapply skew_inv_accept.
  - apply free_chain.
  - intros _. split; [by exists []|]. done.
  - apply HI. eapply almost_sorted_sub; [apply accepted_for_sub|exact Hord].
Qed.

(** C30: of two rules with one scope, the first loses its memory.  With two
    sliding rules of the same scope and no quotas, a client that waits for the
    second rule's window between requests is accepted every time, however many
    requests it makes and however small the first rule's limit (from two on)
    and long its window: the state the second rule leaves has forgotten the
    hits the first one counts. *)
Theorem shared_scope_forgets p cfg r1 r2 ctx now ts :
  rl_enabled cfg = true → scoped_limits cfg = [r1; r2] → rule_scope r2 = rule_scope r1 →
  default (rl_policy cfg) (rule_policy r1) = SlidingWindow →
  default (rl_policy cfg) (rule_policy r2) = SlidingWindow →
  rule_quota r1 = None → rule_quota r2 = None → (2 ≤ rule_limit r1)%Z → (1 ≤ rule_limit r2)%Z →
  paced (rule_window r2) now ts → (Z.of_nat (length ts) < 2 ^ 63)%Z →
  ∃ states, run_checks p cfg ((λ t, (t, ctx)) <$> now :: ts) ∅
    = Done (replicate (S (length ts)) true, states).
Proof.
  intros. eapply (shared_scope_run p cfg r1 r2 ctx) with (n := 0%Z); try done; [|lia].
  split; [by left|]. rewrite lookup_empty. simpl. lia.
Qed.

(** Readings that go back by up to a second. *)
Definition late_reqs : list (instant * RateLimitContext) :=
  (λ s, (from_secs s, demo_ctx "a")) <$> [1; 0; 2; 60; 59; 62]%Z.

Lemma limiter_well_typed_witness :
  ∃ bs states, run_checks Debug (demo_limits TokenBucket []) late_reqs ∅ = Done (bs, states).
Proof.
  destruct (limiter_well_typed Debug (demo_limits TokenBucket []) late_reqs) as (bs & s & Hrun & _).
  - unfold wf_limits, uint. simpl. repeat split; try lia. constructor.
  - reflexivity.
  - exists bs, s. exact Hrun.
Defined.

Lemma sliding_window_skew_witness :
  let cfg := demo_limits SlidingWindow [demo_rule ScopeClient 2 None SlidingWindow] in
  ∃ bs states, run_checks Debug cfg late_reqs ∅ = Done (bs, states) ∧
    (Z.of_nat (countb (in_window (from_secs 0) (from_secs 59))
                      (accepted_for ScopeClient "a" late_reqs bs)) ≤ 2)%Z.
Proof.
  intros cfg.
  set (run := run_checks Debug cfg late_reqs ∅).
  set (bs := match run with Done (bs, _) => bs | Panicked _ => [] end).
  set (states := match run with Done (_, s) => s | Panicked _ => ∅ end).
  assert (run_checks Debug cfg late_reqs ∅ = Done (bs, states)) as Hrun by (vm_compute; reflexivity).
  exists bs, states. split; [exact Hrun|].
  apply (sliding_window_skew Debug cfg (demo_rule ScopeClient 2 None SlidingWindow) "a" late_reqs
    bs states (from_secs 0) (from_secs 1)).
  - split; [reflexivity|]. intros [? _]. discriminate.
  - apply list_elem_of_here.
  - apply NoDup_singleton.
  - reflexivity.
  - unfold uint. simpl. lia.
  - unfold from_secs. lia.
  - sorted_times.
  - exact Hrun.
Defined.

(** Two requests per hour and one per second: ten requests in ten seconds. *)
Definition hourly_rule : ScopedLimitRule := {|
  rule_scope := ScopeClient; rule_limit := 2; rule_quota := None; rule_window_seconds := 3600;
  rule_policy := Some SlidingWindow |}.
Definition secondly_rule : ScopedLimitRule := {|
  rule_scope := ScopeClient; rule_limit := 1; rule_quota := None; rule_window_seconds := 1;
  rule_policy := Some SlidingWindow |}.

Definition ten_seconds : list instant :=
  [from_secs 1; from_secs 2; from_secs 3; from_secs 4; from_secs 5; from_secs 6; from_secs 7;
   from_secs 8; from_secs 9].

Lemma shared_scope_forgets_witness :
  let cfg := demo_limits SlidingWindow [hourly_rule; secondly_rule] in
  ∃ states, run_checks Debug cfg ((λ t, (t, demo_ctx "a")) <$>
      from_secs 0 :: ten_seconds) ∅ = Done (replicate 10 true, states).
Proof.
  intros cfg.
  apply (shared_scope_forgets Debug cfg hourly_rule secondly_rule (demo_ctx "a")
    (from_secs 0) ten_seconds).
  - reflexivity.
  - reflexivity.
  - reflexivity.
  - reflexivity.
  - reflexivity.
  - reflexivity.
  - reflexivity.
  - simpl. lia.
  - simpl. lia.
  - vm_compute. repeat split; discriminate.
  - simpl. lia.
Defined.
