(* ===== verification/LimiterSpec.v ===== *)
(** * The limiter as a function of its history (rate_limit.rs)

    A reference specification without states: whether a request is accepted
    depends on the instants at which the earlier requests of the same scope
    value were accepted, rule by rule.  Then the refinement: with a rule per
    scope, the limiter with its staged and committed states answers as the
    specification does. *)

From S2P Require Export LimiterBounds.
From stdpp Require Import sorting.
From Stdlib Require Import Sorted.

#[local] Open Scope string_scope.
#[local] Open Scope list_scope.

Lemma sorted_sublist (l k : list instant) :
  k `sublist_of` l → StronglySorted Z.le l → StronglySorted Z.le k.
Proof.
  induction 1 as [|x k l Hk IH|x k l Hk IH]; [done|..]; intros [Hs Hx]%StronglySorted_inv;
    [|by apply IH].
  constructor; [by apply IH|]. rewrite Forall_forall in *. intros y Hy.
  by eapply Hx, elem_of_sublist.
Qed.

Lemma filterb_sublist {A} (f : A → bool) l : filterb f l `sublist_of` l.
Proof.
  induction l as [|x l IH]; [done|]. rewrite filterb_cons.
  destruct (f x); [by apply sublist_skip|by apply sublist_cons].
Qed.

(** ** The specification *)

(** The accepted instants that a window ending now still contains. *)
Definition trailing (window : duration) (now : instant) (acc : list instant) : nat :=
  countb (λ t, now - t <? window)%Z acc.

(** Fixed windows open with an accepted request, and close a window later. *)
Definition open_window (window : duration) (w : option (instant * Z)) (t : instant)
    : option (instant * Z) :=
  match w with
  | Some (start, n) => if (window <=? duration_since t start)%Z then Some (t, 1%Z) else Some (start, n + 1)%Z
  | None => Some (t, 1%Z)
  end.
Definition in_current_window (window : duration) (now : instant) (acc : list instant) : Z :=
  match foldl (open_window window) None acc with
  | Some (start, n) => if (window <=? duration_since now start)%Z then 0 else n
  | None => 0
  end.

(** The token bucket that only the accepted requests have drawn from. *)
Definition rule_rate (r : ScopedLimitRule) : f64 :=
  f64_div (f64_of_Z (rule_limit r)) (f64_of_Z (Z.max (rule_window_seconds r) 1)).
Definition draw (r : ScopedLimitRule) (b : LimitState) (t : instant) : LimitState :=
  (spend (refill (f64_of_Z (rule_limit r)) (rule_rate r) t b)).2.
Definition tokens_at (r : ScopedLimitRule) (now : instant) (acc : list instant) : f64 :=
  tokens (refill (f64_of_Z (rule_limit r)) (rule_rate r) now (foldl (draw r) LimitState_default acc)).

Definition rule_allows (cfg : RateLimitConfig) (r : ScopedLimitRule) (now : instant)
    (acc : list instant) : bool :=
  match rule_quota r with Some q => (Z.of_nat (length acc) <? q)%Z | None => true end &&
  match default (rl_policy cfg) (rule_policy r) with
  | TokenBucket => f64_ge (tokens_at r now acc) f64_one
  | FixedWindow => (in_current_window (rule_window r) now acc <? rule_limit r)%Z
  | SlidingWindow => (Z.of_nat (trailing (rule_window r) now acc) <? rule_limit r)%Z
  end.

(** The accepted requests so far, and when those of a scope value were. *)
Definition times_of (hist : list (instant * RateLimitContext)) (scope : LimitScope) (v : string)
    : list instant :=
  (filterb (λ rq, bool_decide (scope_value rq.2 scope = v)) hist).*1.

Definition history_allows (cfg : RateLimitConfig) (hist : list (instant * RateLimitContext))
    (now : instant) (ctx : RateLimitContext) : bool :=
  forallb (λ r, rule_allows cfg r now (times_of hist (rule_scope r) (scope_value ctx (rule_scope r))))
          (rules_of cfg).

Fixpoint run_spec (cfg : RateLimitConfig) (hist reqs : list (instant * RateLimitContext))
    : list bool :=
  match reqs with
  | [] => []
  | (now, ctx) :: reqs =>
      let ok := history_allows cfg hist now ctx in
      ok :: run_spec cfg (if ok then hist ++ [(now, ctx)] else hist) reqs
  end.

(** ** The state that a history leaves

    What one acceptance does to the state of its rule. *)
Definition fix_window (r : ScopedLimitRule) (now : instant) (st : LimitState) : LimitState :=
  let start := default now (fixed_window_start st) in
  if (rule_window r <=? duration_since now start)%Z then set_fixed st (Some now) 0
  else set_fixed st (Some start) (fixed_window_count st).

Definition accept_step (cfg : RateLimitConfig) (r : ScopedLimitRule) (st : LimitState)
    (now : instant) : LimitState :=
  let st' :=
    match default (rl_policy cfg) (rule_policy r) with
    | TokenBucket => draw r st now
    | FixedWindow => let s := fix_window r now st in
                     set_fixed s (fixed_window_start s) (fixed_window_count s + 1)
    | SlidingWindow => set_hits st (pop_expired now (rule_window r) (sliding_hits st) ++ [now])
    end in
  set_accepted st' (accepted_total st' + 1).

Definition replay (cfg : RateLimitConfig) (r : ScopedLimitRule) (acc : list instant) : LimitState :=
  foldl (accept_step cfg r) LimitState_default acc.

Section replay.
Context (cfg : RateLimitConfig) (r : ScopedLimitRule).

Lemma replay_snoc acc t : replay cfg r (acc ++ [t]) = accept_step cfg r (replay cfg r acc) t.
Proof. unfold replay. by rewrite foldl_app. Qed.

Lemma draw_accepted st t : accepted_total (draw r st t) = accepted_total st.
Proof. unfold draw, spend, refill. by repeat case_match. Qed.

Lemma replay_accepted acc : accepted_total (replay cfg r acc) = Z.of_nat (length acc).
Proof.
  induction acc as [|t acc IH] using rev_ind; [done|].
  rewrite replay_snoc, length_app. unfold accept_step. simpl.
  assert (accepted_total match default (rl_policy cfg) (rule_policy r) with
    | TokenBucket => draw r (replay cfg r acc) t
    | FixedWindow => set_fixed (fix_window r t (replay cfg r acc))
        (fixed_window_start (fix_window r t (replay cfg r acc)))
        (fixed_window_count (fix_window r t (replay cfg r acc)) + 1)
    | SlidingWindow => set_hits (replay cfg r acc)
        (pop_expired t (rule_window r) (sliding_hits (replay cfg r acc)) ++ [t])
    end = accepted_total (replay cfg r acc)) as ->; [|lia].
  destruct (default _ _); simpl; [apply draw_accepted| |done].
  unfold fix_window. by case_match.
Qed.

(** Of a sliding rule the hits are those of the window. *)
Definition recent (now : instant) (acc : list instant) : list instant :=
  filterb (λ t, now - t <? rule_window r)%Z acc.

Lemma pop_sorted now l :
  StronglySorted Z.le (l ++ [now]) → pop_expired now (rule_window r) l = recent now l.
Proof.
  induction l as [|x l IH]; [done|]. simpl. intros [Hs Hx]%StronglySorted_inv.
  unfold recent in *. rewrite filterb_cons. rewrite Forall_app in Hx. destruct Hx as [Hx Hn].
  apply Forall_singleton in Hn. unfold duration_since.
  destruct (now - x <? rule_window r)%Z eqn:E; bool_to_Z.
  - pose proof (rule_window_pos r). rewrite (proj2 (Z.leb_gt _ _)) by lia.
    f_equal. symmetry. apply filterb_all. eapply Forall_impl; [exact Hx|]. simpl. intros y Hy.
    apply Z.ltb_lt. lia.
  - rewrite (proj2 (Z.leb_le _ _)) by lia. by apply IH.
Qed.

Lemma recent_recent now t acc : (t ≤ now)%Z → recent now (recent t acc) = recent now acc.
Proof.
  intros Ht. unfold recent. induction acc as [|x acc IH]; [done|]. rewrite !filterb_cons.
  destruct (t - x <? rule_window r)%Z eqn:E1; rewrite ?filterb_cons, IH; [done|].
  rewrite (proj2 (Z.ltb_ge (now - x) _)); [done|]. bool_to_Z. lia.
Qed.

Lemma replay_hits acc now :
  default (rl_policy cfg) (rule_policy r) = SlidingWindow → StronglySorted Z.le (acc ++ [now]) →
  pop_expired now (rule_window r) (sliding_hits (replay cfg r acc)) = recent now acc.
Proof.
  intros Hp. revert now. induction acc as [|t acc IH] using rev_ind; intros now Hs; [done|].
  rewrite replay_snoc. unfold accept_step. rewrite Hp. simpl.
  assert (t ≤ now)%Z
    by (apply (StronglySorted_app_1_elem_of _ _ _ _ _ Hs); set_solver).
  rewrite IH by (by eapply StronglySorted_app_1_l). rewrite pop_sorted.
  - unfold recent at 1. rewrite filterb_app. fold (recent now (recent t acc)).
    rewrite recent_recent by done. unfold recent. by rewrite filterb_app.
  - eapply sorted_sublist, Hs. do 2 (apply sublist_app; [|done]). apply filterb_sublist.
Qed.

(** The fixed window is the one the history opens. *)
Lemma replay_window acc :
  default (rl_policy cfg) (rule_policy r) = FixedWindow →
  match foldl (open_window (rule_window r)) None acc with
  | Some (start, n) => fixed_window_start (replay cfg r acc) = Some start ∧
                       fixed_window_count (replay cfg r acc) = n ∧ (1 ≤ n ≤ Z.of_nat (length acc))%Z
  | None => fixed_window_start (replay cfg r acc) = None ∧
            fixed_window_count (replay cfg r acc) = 0%Z
  end.
Proof.
  intros Hp. pose proof (rule_window_pos r) as Hw.
  induction acc as [|t acc IH] using rev_ind; [done|].
  rewrite replay_snoc, foldl_app, length_app. unfold accept_step. rewrite Hp. simpl.
  unfold fix_window. destruct (foldl _ None acc) as [[start n]|]; simpl.
  - destruct IH as (-> & -> & Hn). simpl. destruct (_ <=? _)%Z; simpl; (do 2 (split; [done|])); lia.
  - destruct IH as (-> & ->). simpl. rewrite (proj2 (Z.leb_gt _ _)) by (unfold duration_since; lia).
    simpl. do 2 (split; [done|]). lia.
Qed.

Lemma replay_current acc now :
  default (rl_policy cfg) (rule_policy r) = FixedWindow →
  fixed_window_count (fix_window r now (replay cfg r acc))
    = in_current_window (rule_window r) now acc ∧
  (0 ≤ in_current_window (rule_window r) now acc ≤ Z.of_nat (length acc))%Z.
Proof.
  intros Hp. pose proof (rule_window_pos r) as Hw. pose proof (replay_window acc Hp) as H.
  unfold fix_window, in_current_window. destruct (foldl _ None acc) as [[start n]|].
  - destruct H as (-> & -> & Hn). simpl. destruct (_ <=? _)%Z; simpl; (split; [done|lia]).
  - destruct H as (-> & ->). simpl. destruct (_ <=? _)%Z; simpl; (split; [done|lia]).
Qed.

(** The token fields are those of the bucket; the rest does not matter to it. *)
Definition same_tokens (st st' : LimitState) : Prop :=
  tokens st = tokens st' ∧ last_refill st = last_refill st'.

Lemma refill_same limit rate now st st' :
  same_tokens st st' → same_tokens (refill limit rate now st) (refill limit rate now st').
Proof.
  intros [Ht Hl]. unfold refill. rewrite Hl. destruct (last_refill st') as [l|] eqn:E; simpl.
  - rewrite Hl, E. simpl. unfold same_tokens. simpl. by rewrite Ht.
  - done.
Qed.
Lemma spend_same st st' :
  same_tokens st st' → (spend st).1 = (spend st').1 ∧ same_tokens (spend st).2 (spend st').2.
Proof.
  intros [Ht Hl]. unfold spend. rewrite Ht, Hl. by destruct (f64_ge _ _).
Qed.
Lemma draw_same st st' t : same_tokens st st' → same_tokens (draw r st t) (draw r st' t).
Proof. intros H. by apply spend_same, refill_same. Qed.

Lemma replay_bucket acc :
  default (rl_policy cfg) (rule_policy r) = TokenBucket →
  same_tokens (replay cfg r acc) (foldl (draw r) LimitState_default acc).
Proof.
  intros Hp. induction acc as [|t acc IH] using rev_ind; [done|].
  rewrite replay_snoc, foldl_app. unfold accept_step. rewrite Hp. simpl.
  exact (draw_same _ _ t IH).
Qed.
End replay.

(** ** The simulation *)

Section simulation.
Context (p : profile) (cfg : RateLimitConfig).

(** On the state of its history, a policy decides as the specification. *)
Lemma apply_policy_replay r acc now :
  (Z.of_nat (length acc) + 1 < 2 ^ 64)%Z → StronglySorted Z.le (acc ++ [now]) →
  ∃ b st, apply_policy p (default (rl_policy cfg) (rule_policy r)) r (replay cfg r acc) now
      = Done (b, st) ∧
    b = match default (rl_policy cfg) (rule_policy r) with
        | TokenBucket => f64_ge (tokens_at r now acc) f64_one
        | FixedWindow => (in_current_window (rule_window r) now acc <? rule_limit r)%Z
        | SlidingWindow => (Z.of_nat (trailing (rule_window r) now acc) <? rule_limit r)%Z
        end ∧
    (b = true → set_accepted st (accepted_total st + 1) = accept_step cfg r (replay cfg r acc) now).
Proof.
  intros Hlen Hs. unfold accept_step. destruct (default _ _) eqn:Hp; simpl.
  - eexists _, _. split; [by rewrite <-surjective_pairing|]. split; [|done].
    unfold tokens_at. pose proof (refill_same (f64_of_Z (rule_limit r)) (rule_rate r) now _ _
      (replay_bucket cfg r acc Hp)) as [Ht Hl].
    unfold spend, rule_rate in *. rewrite <-Ht. by destruct (f64_ge _ _).
  - fold (fix_window r now (replay cfg r acc)).
    destruct (replay_current cfg r acc now Hp) as [Hc Hn]. rewrite Hc.
    destruct (_ <? rule_limit r)%Z; [|by eexists _, _].
    rewrite add_uint_done by (unfold uint; lia). simpl. eexists _, _. split; [done|].
    by split.
  - rewrite replay_hits by done. unfold trailing, countb, recent.
    destruct (_ <? rule_limit r)%Z; eexists _, _; by split_and!.
Qed.

Lemma stage_rule_replay r v s acc now :
  default LimitState_default (s !! scope_key (rule_scope r) v) = replay cfg r acc →
  (Z.of_nat (length acc) + 1 < 2 ^ 64)%Z → StronglySorted Z.le (acc ++ [now]) →
  stage_rule p cfg now s r v =
    Done (if rule_allows cfg r now acc
          then Some (scope_key (rule_scope r) v, replay cfg r (acc ++ [now])) else None).
Proof.
  intros Hst Hlen Hs. unfold stage_rule, rule_allows. rewrite Hst, replay_accepted.
  replace (match rule_quota r with Some q => (q <=? Z.of_nat (length acc))%Z | None => false end)
    with (negb match rule_quota r with Some q => (Z.of_nat (length acc) <? q)%Z | None => true end)
    by (destruct (rule_quota r); [|done]; by rewrite Z.leb_antisym).
  destruct (match rule_quota r with Some _ => _ | None => _ end); [|done]. simpl.
  destruct (apply_policy_replay r acc now Hlen Hs) as (b & st & -> & <- & Hb).
  simpl. destruct b; [|done]. specialize (Hb eq_refl).
  assert (accepted_total st = Z.of_nat (length acc)) as Ha.
  { pose proof (replay_accepted cfg r (acc ++ [now])) as Ha.
    rewrite replay_snoc, <-Hb, length_app in Ha. simpl in Ha. lia. }
  rewrite add_uint_done by (unfold uint; lia). simpl. rewrite Hb. by rewrite replay_snoc.
Qed.

(** Every key holds the state that its part of the history leaves. *)
Definition holds_history (hist : list (instant * RateLimitContext)) (s : limit_states) : Prop :=
  ∀ r v, r ∈ rules_of cfg →
    default LimitState_default (s !! scope_key (rule_scope r) v)
      = replay cfg r (times_of hist (rule_scope r) v).

Lemma times_of_snoc hist now ctx scope v :
  times_of (hist ++ [(now, ctx)]) scope v =
    times_of hist scope v ++ if bool_decide (scope_value ctx scope = v) then [now] else [].
Proof.
  unfold times_of. rewrite filterb_app, fmap_app, filterb_cons. simpl. by case_bool_decide.
Qed.

Lemma times_of_sublist hist scope v : times_of hist scope v `sublist_of` hist.*1.
Proof. apply fmap_sublist, filterb_sublist. Qed.

Context (Hu : uses_rules cfg) (Hd : distinct_scopes cfg).

Definition next_state (hist : list (instant * RateLimitContext)) (now : instant)
    (ctx : RateLimitContext) (r : ScopedLimitRule) : string * LimitState :=
  let v := scope_value ctx (rule_scope r) in
  (scope_key (rule_scope r) v, replay cfg r (times_of hist (rule_scope r) v ++ [now])).

Lemma stage_rules_replay hist s now ctx rules : ∀ staged,
  holds_history hist s → (Z.of_nat (length hist) + 1 < 2 ^ 64)%Z →
  StronglySorted Z.le (hist.*1 ++ [now]) → (∀ r, r ∈ rules → r ∈ rules_of cfg) →
  stage_rules p cfg now s ((λ r, (r, scope_value ctx (rule_scope r))) <$> rules) staged =
    Done (if forallb (λ r, rule_allows cfg r now
                             (times_of hist (rule_scope r) (scope_value ctx (rule_scope r)))) rules
          then Some (staged ++ (next_state hist now ctx <$> rules)) else None).
Proof.
  intros staged Hh Hlen Hs. revert staged.
  induction rules as [|r rules IH]; intros staged Hin; csimpl; [by rewrite app_nil_r|].
  set (v := scope_value ctx (rule_scope r)).
  pose proof (times_of_sublist hist (rule_scope r) v) as Hsub.
  rewrite (stage_rule_replay r v s (times_of hist (rule_scope r) v)).
  - destruct (rule_allows _ _ _ _); [|done]. simpl. rewrite IH by set_solver.
    destruct (forallb _ _); [|done]. by rewrite <-(assoc_L (++)).
  - apply Hh. set_solver.
  - apply sublist_length in Hsub. rewrite length_fmap in Hsub. lia.
  - eapply sorted_sublist, Hs. by apply sublist_app.
Qed.

Lemma check_replay hist s now ctx :
  holds_history hist s → (Z.of_nat (length hist) + 1 < 2 ^ 64)%Z →
  StronglySorted Z.le (hist.*1 ++ [now]) →
  let ok := history_allows cfg hist now ctx in
  ∃ s', check_with_context p cfg ctx now s = Done (ok, s') ∧
    holds_history (if ok then hist ++ [(now, ctx)] else hist) s'.
Proof.
  intros Hh Hlen Hs ok. unfold check_with_context. destruct Hu as [He Hn]. rewrite He. simpl.
  destruct (_ && _) eqn:E; [bool_to_Z; naive_solver|]. clear E.
  rewrite effective_rules_eq, (stage_rules_replay hist) by done. fold ok.
  unfold history_allows in ok. fold ok. destruct ok; simpl; [|by exists s].
  eexists. split; [done|]. intros r v Hr. rewrite times_of_snoc.
  set (staged := next_state hist now ctx <$> rules_of cfg).
  case_bool_decide as Hv.
  - assert (scope_key (rule_scope r) v ∈ staged.*1) as Hk.
    { unfold staged. rewrite <-list_fmap_compose, <-Hv. apply list_elem_of_fmap. by exists r. }
    destruct (commit_lookup_in s staged _ Hk) as (st & Hst & ->). simpl.
    apply list_elem_of_fmap in Hst as (r' & [= Hkey ->] & Hr').
    apply scope_key_inj in Hkey as [Hsc Hvv].
    assert (r' = r) as -> by (by eapply distinct_scopes_eq). by rewrite Hv.
  - rewrite app_nil_r, commit_lookup_ne; [by apply Hh|].
    unfold staged. rewrite <-list_fmap_compose. intros (r' & Hkey & _)%list_elem_of_fmap.
    simpl in Hkey. apply scope_key_inj in Hkey as [Hsc Hvv]. apply Hv. by rewrite Hsc, Hvv.
Qed.

Lemma run_replay reqs : ∀ hist s,
  holds_history hist s → (Z.of_nat (length hist + length reqs) < 2 ^ 64)%Z →
  StronglySorted Z.le (hist.*1 ++ reqs.*1) →
  ∃ s', run_checks p cfg reqs s = Done (run_spec cfg hist reqs, s').
Proof using Hu Hd.
  induction reqs as [|[now ctx] reqs IH]; intros hist s Hh Hlen Hs; csimpl in *; [by exists s|].
  destruct (check_replay hist s now ctx) as (s1 & Hc & Hh1); [done|lia| |].
  { eapply sorted_sublist, Hs. apply sublist_app; [done|]. apply sublist_skip, sublist_nil_l. }
  rewrite Hc. simpl. destruct (history_allows cfg hist now ctx).
  - destruct (IH (hist ++ [(now, ctx)]) s1) as (s2 & ->); [done|rewrite length_app; simpl; lia| |].
    + by rewrite fmap_app, <-(assoc_L (++)).
    + by exists s2.
  - destruct (IH hist s1) as (s2 & ->); [done|lia| |by exists s2].
    eapply sorted_sublist, Hs. apply sublist_app; [done|]. by apply sublist_cons.
Qed.
End simulation.

(** ** Properties *)

(** C4: the limiter is a function of its history.  With rules of distinct
    scopes, of any policies and quotas, requests in the order of their
    instants, in any build profile, are answered exactly as the specification
    says: a request is accepted if and only if, for every rule, the instants
    of the earlier accepted requests with its scope value leave room: fewer
    than the quota in all; for a sliding rule fewer than the limit within the
    window that ends now; for a fixed rule fewer than the limit in the window
    in progress; for a token bucket one token in the bucket that only accepted
    requests drew from.  Denied requests leave no trace. *)
Theorem limiter_refines_history p cfg reqs :
  uses_rules cfg → distinct_scopes cfg → in_time_order reqs →
  (Z.of_nat (length reqs) < 2 ^ 64)%Z →
  ∃ states, run_checks p cfg reqs ∅ = Done (run_spec cfg [] reqs, states).
Proof.
  intros Hu Hd Ho Hlen. apply (run_replay p cfg Hu Hd reqs [] ∅); [|done|done].
  intros r v _. by rewrite lookup_empty.
Qed.

Lemma limiter_refines_history_witness :
  let cfg := demo_limits SlidingWindow
    [demo_rule ScopeRoute 3 (Some 4%Z) FixedWindow; demo_rule ScopeClient 2 None SlidingWindow] in
  ∃ states, run_checks Debug cfg demo_reqs ∅ = Done ([true; true; false; true; true; false], states).
Proof.
  intros cfg.
  destruct (limiter_refines_history Debug cfg demo_reqs) as (states & Hrun).
  - split; [reflexivity|]. intros [? _]. discriminate.
  - apply (bool_decide_unpack _). vm_compute. exact I.
  - sorted_times.
  - reflexivity.
  - exists states. exact Hrun.
Defined.
