(* ===== verification/TokenRate.v ===== *)
(** * The long-run rate of the token bucket (rate_limit.rs)

    How many requests the legacy bucket accepts over any stretch of time, and
    which it never refuses, with the rounding of the code's floating point.  Amounts of tokens are counted
    in units of 2^-1074, [token_unit] of which are a token. *)

From S2P Require Export LimiterSpec FloatError.
From Stdlib Require Import Sorted.

#[local] Open Scope Z_scope.

Definition giga : Z := 1000000000.

(** ** The bounds of the operations, in token units *)

Lemma cancel_r a b c : 0 < c → a * c ≤ b * c → a ≤ b.
Proof. intros. by apply Z.mul_le_mono_pos_r with c. Qed.

Lemma token_unit_large : 2 ^ 1000 ≤ token_unit.
Proof. unfold token_unit. apply Z.pow_le_mono_r; lia. Qed.

Lemma whole_exact z :
  0 ≤ z < 2 ^ 53 →
  nonneg (f64_of_Z z) ∧ is_finite (f64_of_Z z) ∧ scaled (f64_of_Z z) = z * token_unit.
Proof.
  intros Hz. destruct (f64_of_Z_exact z Hz) as [H1 H2].
  split; [apply f64_of_Z_nonneg; lia|]. by split.
Qed.

(** Adding amounts below 2^200 tokens. *)
Lemma add_tokens x y :
  nonneg x → nonneg y → is_finite x → is_finite y →
  scaled x ≤ 2 ^ 200 * token_unit → scaled y ≤ 2 ^ 200 * token_unit →
  is_finite (f64_add x y) ∧
  2 ^ 52 * scaled (f64_add x y) ≤ (2 ^ 52 + 1) * (scaled x + scaled y) + 2 ^ 52 ∧
  2 ^ 52 * (scaled x + scaled y) ≤ (2 ^ 52 + 1) * scaled (f64_add x y) + 2 ^ 52.
Proof.
  intros Hx Hy Hfx Hfy Hlx Hly. destruct (f64_add_bounds x y) as (Hf & Hr & Hr'); try done.
  - assert (2 ^ 201 * token_unit < 2 ^ 2000); [|lia].
    unfold token_unit. rewrite <-pow_split by lia. apply Z.pow_lt_mono_r; lia.
  - split; [done|]. unfold rounded_up, rounded_down in *. lia.
Qed.

(** A small whole number of units over a whole number. *)
Lemma div_whole a b :
  0 ≤ a < 2 ^ 53 → 0 < b < 2 ^ 53 →
  let q := f64_div (f64_of_Z a) (f64_of_Z b) in
  nonneg q ∧ is_finite q ∧
  2 ^ 52 * (scaled q * b) ≤ (2 ^ 52 + 1) * (a * token_unit) + 2 ^ 52 * b ∧
  2 ^ 52 * (a * token_unit) ≤ (2 ^ 52 + 1) * (scaled q * b) + 2 ^ 52 * b.
Proof.
  intros Ha Hb q. destruct (whole_exact a Ha) as (Han & Haf & Has).
  destruct (whole_exact b ltac:(lia)) as (Hbn & Hbf & Hbs). pose proof token_unit_pos as Hu.
  split; [by apply f64_div_nonneg|].
  assert (token_unit ≤ 2 ^ 1947 * b) as Hsmall.
  { transitivity (2 ^ 1947 * 1); [unfold token_unit; lia|]. apply Z.mul_le_mono_nonneg_l; lia. }
  destruct (f64_div_bounds (f64_of_Z a) (f64_of_Z b)) as (Hf & Hq & Hq'); try done.
  - rewrite Hbs. nia.
  - rewrite Has, Hbs. fold token_unit.
    rewrite Z.mul_assoc. apply Z.mul_lt_mono_pos_r; [done|].
    apply Z.lt_le_trans with (2 ^ 53 * token_unit); [nia|].
    replace (2 ^ 2000) with (2 ^ 53 * 2 ^ 1947) by (by rewrite <-pow_split).
    rewrite <-Z.mul_assoc. by apply Z.mul_le_mono_nonneg_l.
  - split; [exact Hf|]. unfold rounded_up, rounded_down in *. fold q token_unit in Hq, Hq'.
    rewrite Has, Hbs in Hq, Hq'. split; apply (cancel_r _ _ token_unit Hu); lia.
Qed.

(** The product of an amount and a whole number. *)
Lemma mul_whole x b :
  nonneg x → is_finite x → scaled x ≤ 2 ^ 100 * token_unit → 0 ≤ b < 2 ^ 32 →
  let m := f64_mul x (f64_of_Z b) in
  nonneg m ∧ is_finite m ∧ 2 ^ 52 * scaled m ≤ (2 ^ 52 + 1) * (scaled x * b) + 2 ^ 52 ∧
  2 ^ 52 * (scaled x * b) ≤ (2 ^ 52 + 1) * scaled m + 2 ^ 52.
Proof.
  intros Hx Hf Hle Hb m. destruct (whole_exact b ltac:(lia)) as (Hbn & Hbf & Hbs).
  pose proof token_unit_pos as Hu. pose proof (scaled_pos x Hx).
  split; [by apply f64_mul_nonneg|].
  destruct (f64_mul_bounds x (f64_of_Z b)) as (Hmf & Hm & Hm'); try done.
  - rewrite Hbs. apply Z.le_lt_trans with (2 ^ 100 * token_unit * (2 ^ 32 * token_unit)).
    { apply Z.mul_le_mono_nonneg; [done|done|nia|apply Z.mul_le_mono_nonneg_r; lia]. }
    unfold token_unit. rewrite <-!pow_split by lia. apply Z.pow_lt_mono_r; lia.
  - split; [exact Hmf|]. unfold rounded_up, rounded_down in *. fold m token_unit in Hm, Hm'.
    rewrite Hbs in Hm, Hm'. split; apply (cancel_r _ _ token_unit Hu); lia.
Qed.

(** ** One refill *)

(** The seconds of a duration of [d] nanoseconds. *)
Lemma as_secs_f64_bounds d :
  0 ≤ d < 2 ^ 53 * giga →
  nonneg (as_secs_f64 d) ∧ is_finite (as_secs_f64 d) ∧
  2 ^ 104 * giga * scaled (as_secs_f64 d)
    ≤ (2 ^ 52 + 1) * (2 ^ 52 + 1) * (d * token_unit) + 3 * 2 ^ 104 * giga ∧
  2 ^ 104 * (d * token_unit)
    ≤ (2 ^ 52 + 1) * (2 ^ 52 + 1) * (giga * scaled (as_secs_f64 d)) + 3 * 2 ^ 104 * giga.
Proof.
  intros Hd. split; [apply as_secs_f64_nonneg; lia|].
  unfold as_secs_f64. change 1000000000 with giga. assert (0 < giga < 2 ^ 53) as Hg by done.
  pose proof (Z.div_mod d giga ltac:(lia)) as Hdm.
  pose proof (Z.mod_pos_bound d giga ltac:(lia)) as Hmod.
  assert (0 ≤ d / giga < 2 ^ 53) as Hdiv.
  { split; [apply Z.div_pos; lia|]. apply Z.div_lt_upper_bound; lia. }
  set (s := d / giga) in *. set (r := d mod giga) in *. clearbody s r.
  destruct (whole_exact s Hdiv) as (Hsn & Hsf & Hs).
  destruct (div_whole r giga ltac:(lia) Hg) as (Hqn & Hqf & Hq & Hq').
  set (q := f64_div (f64_of_Z r) (f64_of_Z giga)) in *. clearbody q.
  pose proof token_unit_large as Hu. pose proof (scaled_pos q Hqn).
  assert (r * token_unit ≤ giga * token_unit) as Hrg by (apply Z.mul_le_mono_nonneg_r; lia).
  assert (s * token_unit ≤ 2 ^ 53 * token_unit) as Hsu by (apply Z.mul_le_mono_nonneg_r; lia).
  destruct (add_tokens (f64_of_Z s) q) as (Hf & Ha & Ha'); try done.
  - rewrite Hs. lia.
  - unfold giga in *. lia.
  - split; [exact Hf|]. rewrite Hs in *. subst d.
    rewrite Z.mul_add_distr_r, <-Z.mul_assoc. unfold giga in *. split; lia.
Qed.

(** What elapses is worth, in tokens, its share of the rate. *)
Lemma increment_bounds d rate :
  0 ≤ d < 2 ^ 53 * giga → uint 32 rate →
  let i := f64_mul (as_secs_f64 d) (f64_of_Z rate) in
  nonneg i ∧ is_finite i ∧
  2 ^ 50 * giga * scaled i ≤ (2 ^ 50 + 1) * (rate * d * token_unit) + 2 ^ 130 ∧
  2 ^ 50 * (rate * d * token_unit) ≤ (2 ^ 50 + 1) * (giga * scaled i) + 2 ^ 130.
Proof.
  intros Hd [Hr0 Hr] i. destruct (as_secs_f64_bounds d Hd) as (Hsn & Hsf & Hs & Hs').
  set (secs := as_secs_f64 d) in *. clearbody secs.
  pose proof token_unit_large as Hu. pose proof (scaled_pos secs Hsn).
  assert (d * token_unit ≤ 2 ^ 53 * giga * token_unit) as Hdu
    by (apply Z.mul_le_mono_nonneg_r; lia).
  destruct (mul_whole secs rate) as (Hin & Hif & Hi & Hi'); try done.
  { unfold giga in *. lia. }
  split; [exact Hin|]. split; [exact Hif|]. fold i in Hi, Hi', Hin. clearbody i.
  assert (2 ^ 104 * giga * (scaled secs * rate)
          ≤ (2 ^ 52 + 1) * (2 ^ 52 + 1) * (rate * d * token_unit) + 3 * 2 ^ 104 * giga * rate ∧
          2 ^ 104 * (rate * d * token_unit)
          ≤ (2 ^ 52 + 1) * (2 ^ 52 + 1) * (giga * (scaled secs * rate))
            + 3 * 2 ^ 104 * giga * rate) as Hsr.
  { apply (Z.mul_le_mono_nonneg_r _ _ rate) in Hs; [|done].
    apply (Z.mul_le_mono_nonneg_r _ _ rate) in Hs'; [|done].
    set (S := scaled secs) in *. clearbody S. set (T := d * token_unit) in *.
    replace (rate * d * token_unit) with (T * rate) by (unfold T; ring). split; lia. }
  assert (0 ≤ rate * d * token_unit) as Hp by (apply Z.mul_nonneg_nonneg; nia).
  clear Hs Hs' Hdu. set (P := rate * d * token_unit) in *. set (S := scaled secs * rate) in *.
  pose proof (scaled_pos i Hin). clearbody P S. unfold giga in *. split; lia.
Qed.

Lemma refill_upper c rate now last st :
  uint 32 c → 1 ≤ c → uint 32 rate → wf_tokens st → scaled (tokens st) ≤ c * token_unit →
  last_refill st = Some last → duration_since now last < 2 ^ 53 * giga →
  2 ^ 51 * giga * scaled (tokens (refill (f64_of_Z c) (f64_of_Z rate) now st))
    ≤ 2 ^ 51 * giga * scaled (tokens st)
      + (2 ^ 51 + 2) * (rate * duration_since now last * token_unit) + giga * (c * token_unit).
Proof.
  intros Hc Hc1 Hr [Htn Htf] Hle Hl Hd.
  assert (0 ≤ duration_since now last) as Hd0 by (unfold duration_since; lia).
  set (d := duration_since now last) in *.
  destruct (increment_bounds d rate ltac:(lia) Hr) as (Hin & Hif & Hi & _).
  destruct (limit_exact c Hc) as (Hcn & Hcf & Hcs).
  unfold refill. rewrite Hl. simpl. rewrite Hl. simpl. fold d.
  set (i := f64_mul (as_secs_f64 d) (f64_of_Z rate)) in *. clearbody i.
  pose proof token_unit_large as Hu. pose proof (scaled_pos i Hin). pose proof (scaled_pos _ Htn).
  assert (rate * d * token_unit ≤ 2 ^ 32 * (2 ^ 53 * giga) * token_unit) as Hp.
  { apply Z.mul_le_mono_nonneg_r; [lia|]. destruct Hr. apply Z.mul_le_mono_nonneg; lia. }
  assert (c * token_unit ≤ 2 ^ 32 * token_unit) as Hcu
    by (destruct Hc; apply Z.mul_le_mono_nonneg_r; lia).
  assert (1 * token_unit ≤ c * token_unit) as Hcu1 by (apply Z.mul_le_mono_nonneg_r; lia).
  destruct (add_tokens (tokens st) i) as (Haf & Ha & _); try done; [lia|unfold giga in *; lia|].
  assert (nonneg (f64_add (tokens st) i)) as Han by (by apply f64_add_nonneg).
  destruct (f64_min_le _ (f64_of_Z c) Han Hcn Hcf) as (_ & Hm & Hmin).
  rewrite (Hmin Haf), Hcs. clear Hm Hmin Hp.
  set (P := rate * d * token_unit) in *. set (C := c * token_unit) in *. clearbody P C.
  set (A := scaled (f64_add (tokens st) i)) in *. clearbody A.
  set (I := scaled i) in *. set (T := scaled (tokens st)) in *. clearbody I T.
  set (U := token_unit) in *. clearbody U. unfold giga in *. lia.
Qed.

(** ** A stretch of checks *)

Section stretch.
Context (p : profile) (cfg : RateLimitConfig) (client : string) (t0 t1 : instant).
Context (Hl : is_legacy cfg) (Ht : t1 - t0 < 2 ^ 53 * giga).
Let key := scope_key ScopeClient client.
Let state_of (s : limit_states) : LimitState := default LimitState_default (s !! key).

(** After [n] requests of the client, [acc] of them accepted: the tokens left
    and those spent came from a full bucket, the time that passed, and the
    rounding of [n] refills. *)
Definition spent_by (n acc : Z) (st : LimitState) (T : instant) : Prop :=
  n = 0 ∧ acc = 0 ∨
  ∃ last, last_refill st = Some last ∧ t0 ≤ last ≤ T ∧ 0 ≤ n ∧
    scaled (tokens st) ≤ capacity cfg * token_unit ∧
    2 ^ 51 * giga * (scaled (tokens st) + acc * token_unit)
      ≤ (2 ^ 51 + n) * (giga * (capacity cfg * token_unit))
        + (2 ^ 51 + 2) * (refill_per_second cfg * (last - t0) * token_unit).

Lemma spent_by_idle n acc st T now : T ≤ now → spent_by n acc st T → spent_by n acc st now.
Proof.
  intros HT [?|(last & ? & ? & ?)]; [by left|]. right. exists last. by split_and!; [|lia..].
Qed.

Lemma refill_step rate now last st :
  uint 32 rate → wf_tokens st → scaled (tokens st) ≤ capacity cfg * token_unit →
  last_refill st = Some last → duration_since now last < 2 ^ 53 * giga →
  2 ^ 51 * giga * scaled (tokens (refill (f64_of_Z (capacity cfg)) (f64_of_Z rate) now st))
    ≤ 2 ^ 51 * giga * scaled (tokens st)
      + (2 ^ 51 + 2) * (rate * duration_since now last * token_unit)
      + giga * (capacity cfg * token_unit).
Proof using Hl.
  intros Hr Hst Hle Hlast Hd. pose proof Hl as (_ & _ & _ & Hc & _).
  destruct (Z.eq_dec (capacity cfg) 0) as [E|]; [|apply refill_upper; try done; destruct Hc; lia].
  destruct (limit_exact rate Hr) as (Hrn & _).
  destruct (refill_wf (capacity cfg) (f64_of_Z rate) now st Hc Hrn Hst) as (Hwf & _ & Hle').
  rewrite E in Hle' at 2. pose proof (scaled_pos _ (proj1 Hst)).
  assert (0 ≤ rate * duration_since now last * token_unit).
  { pose proof token_unit_pos. destruct Hr.
    apply Z.mul_nonneg_nonneg; [apply Z.mul_nonneg_nonneg; [done|unfold duration_since; lia]|lia]. }
  rewrite E in *. unfold giga. lia.
Qed.

Lemma spent_by_check n acc st T now :
  wf_tokens st → spent_by n acc st T → T ≤ now → t0 ≤ now ≤ t1 →
  let r := apply_legacy_token_bucket cfg st now in
  spent_by (n + 1) (acc + if r.1 then 1 else 0) r.2 now.
Proof using Hl Ht.
  intros Hst Hinv HT Hnow r. pose proof Hl as (_ & _ & _ & Hc & Hr).
  destruct (limit_exact _ Hr) as (Hrn & _).
  destruct (refill_wf (capacity cfg) (f64_of_Z (refill_per_second cfg)) now st Hc Hrn Hst)
    as (Hwf1 & Hlast1 & Hle1).
  set (st1 := refill _ _ now st) in *.
  destruct (spend_spec (capacity cfg) st1 Hc Hwf1 Hle1) as (_ & Hwf2 & Hlast2 & Hsp).
  change (spend st1) with r in *. pose proof token_unit_pos as Hu.
  right. exists now. rewrite Hlast2, Hlast1, Hsp. split; [done|]. split; [lia|].
  assert (scaled (tokens st1) ≤ capacity cfg * token_unit) as Hcap by done.
  assert (0 ≤ giga * (capacity cfg * token_unit)) as Hc0.
  { destruct Hc. apply Z.mul_nonneg_nonneg; [done|]. apply Z.mul_nonneg_nonneg; lia. }
  assert (0 ≤ n) as Hn by (destruct Hinv as [[-> _]|(? & _ & _ & ? & _)]; lia).
  split; [lia|]. split; [destruct r.1; lia|].
  replace ((if r.1 then scaled (tokens st1) - token_unit else scaled (tokens st1)) +
    (acc + (if r.1 then 1 else 0)) * token_unit) with (scaled (tokens st1) + acc * token_unit)
    by (destruct r.1; ring).
  set (C := capacity cfg * token_unit) in *. destruct Hinv as [[-> ->]|Hinv].
  - assert (0 ≤ refill_per_second cfg * (now - t0) * token_unit).
    { destruct Hr. apply Z.mul_nonneg_nonneg; [apply Z.mul_nonneg_nonneg|]; lia. }
    unfold giga in *. lia.
  - destruct Hinv as (last & Hlast & Hb & _ & Hle & Hsum).
    pose proof (refill_step (refill_per_second cfg) now last st Hr Hst Hle Hlast) as Hup.
    fold st1 C in Hup. replace (duration_since now last) with (now - last) in Hup
      by (unfold duration_since; lia). specialize (Hup ltac:(lia)).
    replace (refill_per_second cfg * (now - t0) * token_unit)
      with (refill_per_second cfg * (last - t0) * token_unit
            + refill_per_second cfg * (now - last) * token_unit) by ring.
    replace ((2 ^ 51 + (n + 1)) * (giga * C)) with ((2 ^ 51 + n) * (giga * C) + giga * C) by ring.
    lia.
Qed.

(** The requests of the client. *)
Definition requests_of (reqs : list (instant * RateLimitContext)) : Z :=
  Z.of_nat (countb (λ rq, bool_decide (rl_client rq.2 = client)) reqs).

Lemma requests_of_cons now ctx reqs :
  requests_of ((now, ctx) :: reqs) =
    (if bool_decide (rl_client ctx = client) then 1 else 0) + requests_of reqs.
Proof. unfold requests_of. rewrite countb_cons. simpl. case_bool_decide; lia. Qed.

Lemma accepted_for_cons now ctx reqs b bs :
  Z.of_nat (length (accepted_for ScopeClient client ((now, ctx) :: reqs) (b :: bs))) =
    (if b && bool_decide (rl_client ctx = client) then 1 else 0)
    + Z.of_nat (length (accepted_for ScopeClient client reqs bs)).
Proof.
  unfold accepted_for. simpl. rewrite filterb_cons. simpl.
  destruct (b && bool_decide (rl_client ctx = client)); csimpl; lia.
Qed.

Lemma spent_by_run reqs : ∀ n acc s T bs s',
  wf_states s → spent_by n acc (state_of s) T →
  StronglySorted Z.le (T :: reqs.*1) → Forall (λ t, t0 ≤ t ≤ t1) reqs.*1 →
  run_checks p cfg reqs s = Done (bs, s') →
  ∃ T', spent_by (n + requests_of reqs)
          (acc + Z.of_nat (length (accepted_for ScopeClient client reqs bs))) (state_of s') T' ∧
    wf_tokens (state_of s') ∧ (T' ≤ Z.max T t1).
Proof using Hl Ht.
  induction reqs as [|[now ctx] reqs IH]; intros n acc s T bs s' Hs Hinv Hord Hall; simpl.
  { intros [= <- <-]. exists T. unfold requests_of. simpl. rewrite !Z.add_0_r.
    split; [done|]. split; [by apply wf_states_lookup|lia]. }
  rewrite legacy_check by done. simpl.
  destruct (run_checks p cfg reqs _) as [[bs1 s1]|] eqn:Hrun; simpl; [|done]. intros [= <- <-].
  csimpl in Hord. apply StronglySorted_inv in Hord as [Hord HT]. apply Forall_cons in HT as [HT _].
  csimpl in Hall. apply Forall_cons in Hall as [Hnow Hall].
  set (r := apply_legacy_token_bucket cfg _ now) in *.
  assert (wf_states (<[scope_key ScopeClient (rl_client ctx) := r.2]> s)) as Hs1.
  { apply map_Forall_insert_2; [|done]. by apply legacy_wf; [|apply wf_states_lookup]. }
  rewrite requests_of_cons, accepted_for_cons. simpl scope_value.
  case_bool_decide as Hctx.
  - destruct (IH (n + 1) (acc + if r.1 then 1 else 0) _ now bs1 s1 Hs1)
      as (T' & Hinv' & Hwf & HT'); [|done..|].
    + unfold state_of, key. rewrite <-Hctx, lookup_insert_eq. simpl.
      eapply spent_by_check; [by apply wf_states_lookup| |done|lia].
      unfold state_of, key in Hinv. by rewrite <-Hctx in Hinv.
    + exists T'. split_and!; [|done|lia]. rewrite andb_true_r. by rewrite !Z.add_assoc.
  - destruct (IH n acc _ now bs1 s1 Hs1) as (T' & Hinv' & Hwf & HT'); [|done..|].
    + unfold state_of, key. rewrite lookup_insert_ne; [by eapply spent_by_idle|].
      by intros [_ ?]%scope_key_inj.
    + exists T'. split_and!; [|done|lia]. by rewrite andb_false_r, !Z.add_0_l.
Qed.
End stretch.

(** ** A paced client *)

Section paced.
Context (p : profile) (cfg : RateLimitConfig) (client : string) (t0 t1 wait : Z).
Context (Hl : is_legacy cfg) (Hcap : 1 ≤ capacity cfg) (Ht : t1 - t0 < 2 ^ 53 * giga).
Context (Hwait : (2 ^ 49 + 1) * giga ≤ 2 ^ 49 * (refill_per_second cfg * wait)).
Let key := scope_key ScopeClient client.
Let state_of (s : limit_states) : LimitState := default LimitState_default (s !! key).

(** After the wait there is a token. *)
Lemma refill_lower now last st :
  wf_tokens st → scaled (tokens st) ≤ capacity cfg * token_unit →
  last_refill st = Some last → last + wait ≤ now → duration_since now last < 2 ^ 53 * giga →
  token_unit ≤ scaled (tokens (refill (f64_of_Z (capacity cfg))
                                      (f64_of_Z (refill_per_second cfg)) now st)).
Proof using Hl Hcap Hwait.
  intros [Htn Htf] Hle Hlast Hnow Hd. pose proof Hl as (_ & _ & _ & Hc & Hr).
  assert (wait ≤ duration_since now last) as Hdw by (unfold duration_since; lia).
  assert (0 ≤ duration_since now last) as Hd0 by (unfold duration_since; lia).
  set (d := duration_since now last) in *.
  destruct (increment_bounds d _ ltac:(lia) Hr) as (Hin & Hif & Hi & Hi').
  destruct (limit_exact _ Hc) as (Hcn & Hcf & Hcs).
  unfold refill. rewrite Hlast. simpl. rewrite Hlast. simpl. fold d.
  set (i := f64_mul (as_secs_f64 d) (f64_of_Z (refill_per_second cfg))) in *. clearbody i.
  pose proof token_unit_large as Hu. pose proof (scaled_pos i Hin). pose proof (scaled_pos _ Htn).
  set (rate := refill_per_second cfg) in *.
  assert (rate * d * token_unit ≤ 2 ^ 32 * (2 ^ 53 * giga) * token_unit) as Hp.
  { apply Z.mul_le_mono_nonneg_r; [lia|]. destruct Hr. apply Z.mul_le_mono_nonneg; lia. }
  assert ((2 ^ 49 + 1) * giga * token_unit ≤ 2 ^ 49 * (rate * d * token_unit)) as Hmin.
  { rewrite Z.mul_assoc. apply Z.mul_le_mono_nonneg_r; [lia|]. etransitivity; [exact Hwait|].
    apply Z.mul_le_mono_nonneg_l; [lia|]. destruct Hr. apply Z.mul_le_mono_nonneg_l; lia. }
  assert (capacity cfg * token_unit ≤ 2 ^ 32 * token_unit) as Hcu
    by (destruct Hc; apply Z.mul_le_mono_nonneg_r; lia).
  assert (1 * token_unit ≤ capacity cfg * token_unit) as Hcu1
    by (apply Z.mul_le_mono_nonneg_r; lia).
  destruct (add_tokens (tokens st) i) as (Haf & _ & Ha); try done; [lia|unfold giga in *; lia|].
  assert (nonneg (f64_add (tokens st) i)) as Han by (by apply f64_add_nonneg).
  destruct (f64_min_le _ (f64_of_Z (capacity cfg)) Han Hcn Hcf) as (_ & _ & Hm).
  rewrite (Hm Haf), Hcs. apply Z.min_glb; [|lia]. clear Hm Hp Hcu Hcu1 Hi.
  set (P := rate * d * token_unit) in *. set (A := scaled (f64_add (tokens st) i)) in *.
  set (I := scaled i) in *. set (T := scaled (tokens st)) in *. clearbody P A I T.
  set (U := token_unit) in *. clearbody U. unfold giga in *. lia.
Qed.

(** The client's bucket, as its last request left it; [None] before the first. *)
Definition bucket_at (prev : option instant) (st : LimitState) : Prop :=
  wf_tokens st ∧ last_refill st = prev ∧
  ∀ last, prev = Some last → t0 ≤ last ∧ scaled (tokens st) ≤ capacity cfg * token_unit.

Definition paced_from (prev : option instant) (ts : list instant) : Prop :=
  match prev, ts with
  | Some last, _ => paced wait last ts
  | None, [] => True
  | None, t :: ts => paced wait t ts
  end.

Lemma paced_check now prev st :
  bucket_at prev st → (∀ last, prev = Some last → last + wait ≤ now) → t0 ≤ now ≤ t1 →
  let r := apply_legacy_token_bucket cfg st now in
  r.1 = true ∧ bucket_at (Some now) r.2.
Proof using Hl Hcap Hwait Ht.
  intros (Hst & Hprev & Hle) Hpaced Hnow r. pose proof Hl as (_ & _ & _ & Hc & Hr).
  destruct (limit_exact _ Hr) as (Hrn & Hrf & _). pose proof token_unit_pos as Hu.
  destruct (refill_wf (capacity cfg) (f64_of_Z (refill_per_second cfg)) now st Hc Hrn Hst)
    as (Hwf1 & Hlast1 & Hle1).
  set (st1 := refill _ _ now st) in *.
  destruct (spend_spec (capacity cfg) st1 Hc Hwf1 Hle1) as (Hb & Hwf2 & Hlast2 & Hsp).
  change (spend st1) with r in *.
  assert (token_unit ≤ scaled (tokens st1)) as Henough.
  { destruct prev as [last|].
    - destruct (Hle last eq_refl) as [Hlast Hlc].
      apply (refill_lower now last st); try done; [by apply Hpaced|].
      specialize (Hpaced last eq_refl). unfold duration_since. unfold giga in *. lia.
    - unfold st1. rewrite refill_now; rewrite ?Hprev; try done.
      transitivity (1 * token_unit); [lia|]. apply Z.mul_le_mono_nonneg_r; lia. }
  rewrite (proj2 (Z.leb_le _ _) Henough) in Hb. split; [done|].
  split; [done|]. split; [by rewrite Hlast2|]. intros last [= <-]. split; [lia|].
  rewrite Hsp. assert (scaled (tokens st1) ≤ capacity cfg * token_unit) by done.
  destruct r.1; lia.
Qed.

Lemma paced_run reqs : ∀ prev s bs s',
  wf_states s → bucket_at prev (state_of s) →
  paced_from prev (times_of reqs ScopeClient client) →
  Forall (λ t, t0 ≤ t ≤ t1) reqs.*1 → run_checks p cfg reqs s = Done (bs, s') →
  accepted_for ScopeClient client reqs bs = times_of reqs ScopeClient client.
Proof using Hl Hcap Hwait Ht.
  induction reqs as [|[now ctx] reqs IH]; intros prev s bs s' Hs Hb Hp Hall; simpl.
  { by intros [= <- <-]. }
  rewrite legacy_check by done. simpl.
  destruct (run_checks p cfg reqs _) as [[bs1 s1]|] eqn:Hrun; simpl; [|done]. intros [= <- <-].
  csimpl in Hall. apply Forall_cons in Hall as [Hnow Hall].
  set (r := apply_legacy_token_bucket cfg _ now) in *.
  assert (wf_states (<[scope_key ScopeClient (rl_client ctx) := r.2]> s)) as Hs1.
  { apply map_Forall_insert_2; [|done]. by apply legacy_wf; [|apply wf_states_lookup]. }
  unfold times_of, accepted_for in *. simpl in *. rewrite !filterb_cons in *. simpl in *.
  case_bool_decide as Hctx; simpl in *.
  - destruct (paced_check now prev (state_of s)) as [Hok Hb1]; [done| |done|].
    { intros last ->. by destruct Hp. }
    assert (r = apply_legacy_token_bucket cfg (state_of s) now) as Hrs
      by (unfold r, state_of, key; by rewrite Hctx).
    rewrite <-Hrs in Hok, Hb1. rewrite Hok. simpl. csimpl. f_equal.
    eapply (IH (Some now)); [exact Hs1| | |done|exact Hrun].
    + unfold state_of, key. by rewrite <-Hctx, lookup_insert_eq.
    + csimpl in Hp. destruct prev; [by destruct Hp|done].
  - rewrite andb_false_r. eapply (IH prev); [exact Hs1| |done|done|exact Hrun].
    unfold state_of, key. rewrite lookup_insert_ne; [done|]. by intros [_ ?]%scope_key_inj.
Qed.
End paced.

(** ** Properties *)

(** C5: the token bucket holds its rate, with the floating point of the code.
    Over any stretch of checks whose instants lie, in order, between [t0] and
    [t1], starting from whatever earlier checks left, the requests of a client
    that are accepted exceed the capacity and what the rate yields from [t0] to
    [t1] by no more than one part in 2^50 of the yield, and one part in 2^51
    of the capacity for each request: accepted <= capacity (1 + n / 2^51) +
    rate (t1 - t0) (1 + 2 / 2^51), in seconds. *)
Theorem token_bucket_rate p cfg before during t0 t1 client bs0 s bs s' :
  is_legacy cfg → run_checks p cfg before ∅ = Done (bs0, s) →
  in_time_order during → Forall (λ t, t0 ≤ t ≤ t1) during.*1 → 0 ≤ t1 - t0 < 2 ^ 53 * giga →
  run_checks p cfg during s = Done (bs, s') →
  2 ^ 51 * giga * Z.of_nat (length (accepted_for ScopeClient client during bs))
    ≤ (2 ^ 51 + requests_of client during) * (giga * capacity cfg)
      + (2 ^ 51 + 2) * (refill_per_second cfg * (t1 - t0)).
Proof.
  intros Hl Hbefore Hord Hall [Ht0 Ht] Hrun. pose proof token_unit_pos as Hu.
  assert (wf_states s) as Hs by (by eapply legacy_run_wf; [| |exact Hbefore]).
  destruct (spent_by_run p cfg client t0 t1 Hl Ht during 0 0 s t0 bs s' Hs) as (T' & Hinv & Hwf & HT');
    [by left| |done|done|].
  { constructor; [done|]. eapply Forall_impl; [exact Hall|]. simpl. lia. }
  rewrite !Z.add_0_l in Hinv. pose proof Hl as (_ & _ & _ & [Hc _] & [Hr _]).
  set (n := requests_of client during) in *.
  set (acc := Z.of_nat (length (accepted_for ScopeClient client during bs))) in *.
  clearbody n acc. assert (0 ≤ giga * capacity cfg) by (unfold giga; lia).
  destruct Hinv as [[-> ->]|(last & _ & Hlast & Hn & _ & Hsum)].
  - assert (0 ≤ refill_per_second cfg * (t1 - t0)) by (apply Z.mul_nonneg_nonneg; lia). lia.
  - pose proof (scaled_pos _ (proj1 Hwf)) as Htok.
    set (tok := scaled _) in *. clearbody tok.
    assert (refill_per_second cfg * (last - t0) * token_unit
            ≤ refill_per_second cfg * (t1 - t0) * token_unit) as Hlt
      by (apply Z.mul_le_mono_nonneg_r; [lia|]; apply Z.mul_le_mono_nonneg_l; lia).
    apply (cancel_r _ _ token_unit Hu). unfold giga in *. lia.
Qed.

Lemma token_bucket_rate_witness :
  ∃ bs s', run_checks Debug (demo_limits TokenBucket []) demo_reqs ∅ = Done (bs, s') ∧
    2 ^ 51 * giga * Z.of_nat (length (accepted_for ScopeClient "a" demo_reqs bs))
      ≤ (2 ^ 51 + 6) * (giga * 2) + (2 ^ 51 + 2) * (1 * (62 * giga)).
Proof.
  set (run := run_checks Debug (demo_limits TokenBucket []) demo_reqs ∅).
  set (bs := match run with Done (bs, _) => bs | Panicked _ => [] end).
  set (s' := match run with Done (_, s) => s | Panicked _ => ∅ end).
  assert (run = Done (bs, s')) as Hrun by (vm_compute; reflexivity).
  exists bs, s'. split; [exact Hrun|].
  apply (token_bucket_rate Debug (demo_limits TokenBucket []) [] demo_reqs 0 (62 * giga) "a" [] ∅ bs s').
  - repeat split; simpl; lia.
  - reflexivity.
  - sorted_times.
  - repeat constructor; vm_compute; congruence.
  - unfold giga. lia.
  - exact Hrun.
Defined.

(** C6: a client that keeps the rate is never refused.  In any run of the legacy
    bucket from its start, with a capacity of at least one, a client whose
    requests are at least [wait] apart, where the rate yields in [wait] a token
    and one part in 2^49 of it, has every request accepted, whatever the other
    clients do, over any span below 2^53 seconds. *)
Theorem token_bucket_paced p cfg reqs t0 t1 wait client bs s' :
  is_legacy cfg → 1 ≤ capacity cfg →
  (2 ^ 49 + 1) * giga ≤ 2 ^ 49 * (refill_per_second cfg * wait) →
  Forall (λ t, t0 ≤ t ≤ t1) reqs.*1 → t1 - t0 < 2 ^ 53 * giga →
  paced_from wait None (times_of reqs ScopeClient client) →
  run_checks p cfg reqs ∅ = Done (bs, s') →
  accepted_for ScopeClient client reqs bs = times_of reqs ScopeClient client.
Proof.
  intros Hl Hc Hw Hall Ht Hp Hrun.
  eapply (paced_run p cfg client t0 t1 wait); try done.
  - apply map_Forall_empty.
  - by split_and!.
Qed.

(** Three tokens per second: a request every 333333334 ns, among others. *)
Lemma token_bucket_paced_witness :
  let cfg := {| rl_enabled := true; rl_policy := TokenBucket; capacity := 1; refill_per_second := 3;
                fixed_window_seconds := 60; sliding_window_seconds := 60; scoped_limits := [] |} in
  let reqs := [(0, demo_ctx "a"); (0, demo_ctx "b"); (333333334, demo_ctx "a");
               (666666668, demo_ctx "a"); (666666668, demo_ctx "b"); (1000000002, demo_ctx "a")] in
  ∃ bs s', run_checks Debug cfg reqs ∅ = Done (bs, s') ∧
    accepted_for ScopeClient "a" reqs bs = [0; 333333334; 666666668; 1000000002].
Proof.
  intros cfg reqs.
  set (run := run_checks Debug cfg reqs ∅).
  set (bs := match run with Done (bs, _) => bs | Panicked _ => [] end).
  set (s' := match run with Done (_, s) => s | Panicked _ => ∅ end).
  assert (run = Done (bs, s')) as Hrun by (vm_compute; reflexivity).
  exists bs, s'. split; [exact Hrun|].
  rewrite (token_bucket_paced Debug cfg reqs 0 (2 * giga) 333333334 "a" bs s').
  - reflexivity.
  - repeat split; simpl; lia.
  - simpl. lia.
  - unfold giga. simpl. lia.
  - repeat constructor; vm_compute; congruence.
  - unfold giga. lia.
  - vm_compute. repeat split; discriminate.
  - exact Hrun.
Defined.
