(* ===== verification/Config.v ===== *)
(** * Configuration (config.rs)

    The configuration records, the serde defaults of their fields, their
    [Default] implementations, and [GatewayConfig::load_from_path] with
    [validate].  Reading the file and the JSON and YAML parsers are parameters
    here; Schema.v says how a parsed document becomes a configuration. *)

From S2P Require Export Balancer RateLimit Router Security.

#[local] Open Scope string_scope.
#[local] Open Scope list_scope.

Record RetryConfig : Type := {
  max_attempts : Z;              (* u8 *)
  backoff_ms : Z;                (* u64 *)
  idempotent_only : bool;
  retry_unsafe_methods : bool;
}.

Record ProxyRuntimeConfig : Type := {
  connect_timeout_ms : Z;        (* u64 *)
  read_timeout_ms : Z;           (* u64 *)
  request_timeout_ms : Z;        (* u64 *)
  max_idle_per_host : Z;         (* usize *)
  idle_timeout_secs : Z;         (* u64 *)
  retries : RetryConfig;
}.

Record ShutdownConfig : Type := {
  drain_timeout_ms : Z;          (* u64 *)
  drain_poll_ms : Z;             (* u64 *)
}.

Record ServerConfig : Type := {
  listen_addr : string;
  max_request_body_bytes : Z;    (* usize *)
  proxy : ProxyRuntimeConfig;
  shutdown : ShutdownConfig;
}.

Record ActiveHealthCheckConfig : Type := {
  active_enabled : bool;
  active_path : string;
  interval_ms : Z;               (* u64 *)
  timeout_ms : Z;                (* u64 *)
  healthy_threshold : Z;         (* u32 *)
  unhealthy_threshold : Z;       (* u32 *)
}.

Record PassiveHealthCheckConfig : Type := {
  passive_failure_threshold : Z; (* u32 *)
  passive_success_threshold : Z; (* u32 *)
}.

Record HealthCheckConfig : Type := {
  active : ActiveHealthCheckConfig;
  passive : PassiveHealthCheckConfig;
}.

Record CircuitBreakerConfig : Type := {
  breaker_failure_threshold : Z; (* u32 *)
  open_ms : Z;                   (* u64 *)
  half_open_max_requests : Z;    (* u32 *)
}.

Record UpstreamConfig : Type := {
  upstream_name : string;
  strategy : BalancingStrategy;
  targets : list UpstreamTarget;
  health_checks : HealthCheckConfig;
  circuit_breaker : CircuitBreakerConfig;
}.

Record PluginConfig : Type := {
  plugin_name : string;
  plugin_module : string;
  wasm_path : option string;
  plugin_runtime : string;
  contract_version : Z;          (* u32 *)
  plugin_phases : list string;
  plugin_capabilities : list string;
}.

Record GatewayConfig : Type := {
  server : ServerConfig;
  routes : list Route;
  upstreams : list UpstreamConfig;
  security : SecurityConfig;
  rate_limit : RateLimitConfig;
  plugins : list PluginConfig;
}.

(** ** Defaults *)

Definition default_listen_addr : string := "127.0.0.1:3000".
Definition default_max_request_body_bytes : Z := 8 * 1024 * 1024.
Definition default_connect_timeout_ms : Z := 1000.
Definition default_read_timeout_ms : Z := 5000.
Definition default_request_timeout_ms : Z := 7000.
Definition default_max_idle_per_host : Z := 64.
Definition default_idle_timeout_secs : Z := 90.
Definition default_retry_max_attempts : Z := 3.
Definition default_retry_backoff_ms : Z := 50.
Definition default_retry_idempotent_only : bool := true.
Definition default_drain_timeout_ms : Z := 10000.
Definition default_drain_poll_ms : Z := 50.
Definition default_healthcheck_path : string := "/healthz".
Definition default_healthcheck_interval_ms : Z := 5000.
Definition default_healthcheck_timeout_ms : Z := 1000.
Definition default_healthy_threshold : Z := 2.
Definition default_unhealthy_threshold : Z := 2.
Definition default_failure_threshold : Z := 3.
Definition default_success_threshold : Z := 1.
Definition default_breaker_failure_threshold : Z := 5.
Definition default_breaker_open_ms : Z := 5000.
Definition default_half_open_max : Z := 1.
Definition default_plugin_runtime : string := "native".
Definition default_plugin_contract_version : Z := 1.
Definition default_plugin_phases : list string :=
  ["init"; "access"; "header_filter"; "body_filter"; "log"].

(** The hand-written [Default] implementations. *)
Definition RetryConfig_default : RetryConfig := {|
  max_attempts := default_retry_max_attempts; backoff_ms := default_retry_backoff_ms;
  idempotent_only := default_retry_idempotent_only; retry_unsafe_methods := false;
|}.
Definition ProxyRuntimeConfig_default : ProxyRuntimeConfig := {|
  connect_timeout_ms := default_connect_timeout_ms;
  read_timeout_ms := default_read_timeout_ms;
  request_timeout_ms := default_request_timeout_ms;
  max_idle_per_host := default_max_idle_per_host;
  idle_timeout_secs := default_idle_timeout_secs;
  retries := RetryConfig_default;
|}.
Definition ShutdownConfig_default : ShutdownConfig := {|
  drain_timeout_ms := default_drain_timeout_ms; drain_poll_ms := default_drain_poll_ms;
|}.
Definition ServerConfig_default : ServerConfig := {|
  listen_addr := default_listen_addr;
  max_request_body_bytes := default_max_request_body_bytes;
  proxy := ProxyRuntimeConfig_default; shutdown := ShutdownConfig_default;
|}.
Definition ActiveHealthCheckConfig_default : ActiveHealthCheckConfig := {|
  active_enabled := false; active_path := default_healthcheck_path;
  interval_ms := default_healthcheck_interval_ms;
  timeout_ms := default_healthcheck_timeout_ms;
  healthy_threshold := default_healthy_threshold;
  unhealthy_threshold := default_unhealthy_threshold;
|}.
Definition PassiveHealthCheckConfig_default : PassiveHealthCheckConfig := {|
  passive_failure_threshold := default_failure_threshold;
  passive_success_threshold := default_success_threshold;
|}.
Definition HealthCheckConfig_default : HealthCheckConfig := {|
  active := ActiveHealthCheckConfig_default; passive := PassiveHealthCheckConfig_default;
|}.
Definition CircuitBreakerConfig_default : CircuitBreakerConfig := {|
  breaker_failure_threshold := default_breaker_failure_threshold;
  open_ms := default_breaker_open_ms;
  half_open_max_requests := default_half_open_max;
|}.

(** ** Validation *)

Definition upstream_exists (cfg : GatewayConfig) (name : string) : bool :=
  existsb (λ u, bool_decide (upstream_name u = name)) (upstreams cfg).

(** The body of the loop over the routes: the first violation of a route. *)
Definition validate_route (cfg : GatewayConfig) (route : Route) : result string () :=
  let split := traffic_split route in
  let fault := fault_injection route in
  if negb (upstream_exists cfg (route_upstream route)) then
    Err ("route '" +:+ route_name route +:+ "' references unknown upstream '"
         +:+ route_upstream route +:+ "'")
  else match (canary ← canary_upstream split;
              if upstream_exists cfg canary then None else Some canary) with
  | Some canary =>
      Err ("route '" +:+ route_name route +:+ "' references unknown canary upstream '"
           +:+ canary +:+ "'")
  | None =>
  if (100 <? canary_percentage split)%Z then
    Err ("route '" +:+ route_name route +:+ "' has invalid canary percentage "
         +:+ show_uint (canary_percentage split) +:+ "; must be <= 100")
  else if (100 <? probability_percent fault)%Z then
    Err ("route '" +:+ route_name route +:+ "' has invalid fault injection probability "
         +:+ show_uint (probability_percent fault) +:+ "; must be <= 100")
  else match abort_status fault with
  | Some status =>
      if negb ((100 <=? status)%Z && (status <=? 599)%Z) then
        Err ("route '" +:+ route_name route +:+ "' has invalid fault injection abort_status "
             +:+ show_uint status +:+ "; must be in 100..=599")
      else Ok ()
  | None => Ok ()
  end end.

Definition validate_upstream (upstream : UpstreamConfig) : result string () :=
  match targets upstream with
  | [] => Err ("upstream '" +:+ upstream_name upstream +:+ "' has no targets")
  | _ => Ok ()
  end.

(** A [for] loop whose body may return an error early. *)
Fixpoint check_each {A} (f : A → result string ()) (l : list A) : result string () :=
  match l with
  | [] => Ok ()
  | x :: l => match f x with Ok _ => check_each f l | Err e => Err e end
  end.

Definition validate (cfg : GatewayConfig) : result string () :=
  match routes cfg with
  | [] => Err "at least one route must be configured"
  | rs =>
      match check_each (validate_route cfg) rs with
      | Ok _ => check_each validate_upstream (upstreams cfg)
      | Err e => Err e
      end
  end.

(** ** Loading

    [Path::extension] of a path: what follows the last dot of the file name,
    when something precedes that dot. *)
Definition file_name (path : string) : option string :=
  match last (filterb (λ c, negb (is_empty c || bool_decide (c = "."))) (split_on "/"%char path)) with
  | Some ".." => None
  | o => o
  end.

Definition extension (path : string) : option string :=
  name ← file_name path;
  match rev (split_on "."%char name) with
  | ext :: stem => if bool_decide (join "." (rev stem) = "") then None else Some ext
  | [] => None
  end.

Section load.
Variables (read_to_string : string → result string string)
          (parse_json parse_yaml : string → result string GatewayConfig).

Definition parse_config (path content : string) : result string GatewayConfig :=
  match extension path with
  | Some "json" => map_err (λ err, "invalid JSON config " +:+ path +:+ ": " +:+ err) (parse_json content)
  | _ => map_err (λ err, "invalid YAML config " +:+ path +:+ ": " +:+ err) (parse_yaml content)
  end.

Definition load_from_path (path : string) : result string GatewayConfig :=
  content ← map_err (λ err, "failed to read config " +:+ path +:+ ": " +:+ err) (read_to_string path);
  parsed ← parse_config path content;
  match validate parsed with Ok _ => Ok parsed | Err e => Err e end.
End load.

(** ** Specification and lemmas *)

(** What a valid configuration is. *)
Definition valid_route (cfg : GatewayConfig) (r : Route) : Prop :=
  route_upstream r ∈ upstream_name <$> upstreams cfg ∧
  (∀ c, canary_upstream (traffic_split r) = Some c → c ∈ upstream_name <$> upstreams cfg) ∧
  (canary_percentage (traffic_split r) ≤ 100)%Z ∧
  (probability_percent (fault_injection r) ≤ 100)%Z ∧
  (∀ s, abort_status (fault_injection r) = Some s → 100 ≤ s ≤ 599)%Z.

Definition valid_config (cfg : GatewayConfig) : Prop :=
  routes cfg ≠ [] ∧ Forall (valid_route cfg) (routes cfg) ∧
  Forall (λ u, targets u ≠ []) (upstreams cfg).

Lemma upstream_exists_spec cfg name :
  upstream_exists cfg name = true ↔ name ∈ upstream_name <$> upstreams cfg.
Proof.
  unfold upstream_exists. rewrite existsb_exists, list_elem_of_fmap. split.
  - intros (u & Hu & Hn). exists u. rewrite list_elem_of_In. bool_to_Z. by subst.
  - intros (u & -> & Hu). exists u. rewrite <-list_elem_of_In. by rewrite bool_decide_eq_true_2.
Qed.

Lemma validate_route_ok cfg r : validate_route cfg r = Ok () ↔ valid_route cfg r.
Proof.
  unfold validate_route, valid_route. rewrite <-!upstream_exists_spec.
  setoid_rewrite <-upstream_exists_spec.
  destruct (upstream_exists cfg (route_upstream r)); simpl; [|by split; [done|intros [? _]]].
  destruct (canary_upstream _) as [c|]; simpl;
    [destruct (upstream_exists cfg c) eqn:Ec; simpl;
     [|split; [done|]; intros (_ & Hc & _); by rewrite (Hc c eq_refl) in Ec]|];
    (destruct (100 <? _)%Z eqn:E1; [split; [done|intros (_ & _ & ? & _); zsolve]|];
     destruct (100 <? probability_percent _)%Z eqn:E2;
       [split; [done|intros (_ & _ & _ & ? & _); zsolve]|];
     destruct (abort_status _) as [s|];
       [destruct ((100 <=? s)%Z && (s <=? 599)%Z) eqn:E3; simpl|];
     [| split; [done|]; intros (_ & _ & _ & _ & Hs); specialize (Hs s eq_refl);
        apply andb_false_iff in E3 as [?|?]; zsolve|];
     (split; [intros _|done]); bool_to_Z;
     split_and!; try done; intros ? [= <-]; done).
Qed.

Lemma check_each_ok {A} (f : A → result string ()) l :
  check_each f l = Ok () ↔ Forall (λ x, f x = Ok ()) l.
Proof.
  induction l as [|x l IH]; simpl; [by split|]. rewrite Forall_cons, <-IH.
  destruct (f x) as [[]|e]; naive_solver.
Qed.

Lemma check_each_err {A} (f : A → result string ()) l e :
  check_each f l = Err e →
  ∃ before x after, l = before ++ x :: after ∧ Forall (λ y, f y = Ok ()) before ∧ f x = Err e.
Proof.
  induction l as [|x l IH]; simpl; [done|]. destruct (f x) as [[]|e'] eqn:E.
  - intros (b & y & a & -> & Hb & Hy)%IH. exists (x :: b), y, a. eauto.
  - intros [= <-]. exists [], x, l. eauto.
Qed.

Lemma validate_upstream_ok u : validate_upstream u = Ok () ↔ targets u ≠ [].
Proof. unfold validate_upstream. by destruct (targets u). Qed.

Lemma validate_ok cfg : validate cfg = Ok () ↔ valid_config cfg.
Proof.
  unfold validate, valid_config. destruct (routes cfg) as [|r rs]; [naive_solver|].
  destruct (check_each (validate_route cfg) (r :: rs)) as [[]|e] eqn:E.
  - rewrite check_each_ok, (Forall_iff _ _ _ validate_upstream_ok).
    apply check_each_ok in E. rewrite (Forall_iff _ _ _ (validate_route_ok cfg)) in E. naive_solver.
  - split; [done|]. intros (_ & Hr & _).
    rewrite <-(Forall_iff _ _ _ (validate_route_ok cfg)), <-check_each_ok in Hr. congruence.
Qed.

Lemma result_unit_ok (m : result string ()) : is_ok m = true → m = Ok ().
Proof. by destruct m as [[]|]. Qed.

(** A one-route configuration for witnesses. *)
Definition demo_upstream (name : string) (ts : list UpstreamTarget) : UpstreamConfig := {|
  upstream_name := name; strategy := RoundRobin; targets := ts;
  health_checks := HealthCheckConfig_default; circuit_breaker := CircuitBreakerConfig_default;
|}.
Definition demo_gateway (rs : list Route) (us : list UpstreamConfig) : GatewayConfig := {|
  server := ServerConfig_default; routes := rs; upstreams := us;
  security := SecurityConfig_default; rate_limit := RateLimitConfig_default; plugins := [];
|}.

(** ** Properties *)

Lemma load_from_path_spec read pj py path cfg :
  load_from_path read pj py path = Ok cfg ↔
  ∃ content, read path = Ok content ∧
    (if bool_decide (extension path = Some "json") then pj content else py content) = Ok cfg ∧
    valid_config cfg.
Proof.
  unfold load_from_path, parse_config.
  destruct (read path) as [content|e]; simpl; [|by split; [|intros (? & ? & _)]].
  assert (∀ A (o : option string) (a b : A),
    match o with Some "json" => a | _ => b end
    = if bool_decide (o = Some "json") then a else b) as Hmatch.
  { intros A o a b. case_bool_decide as Ho; [by rewrite Ho|].
    repeat (case_match; try done); congruence. }
  rewrite Hmatch. destruct (bool_decide _);
    [destruct (pj content) as [parsed|] eqn:Ep|destruct (py content) as [parsed|] eqn:Ep]; simpl;
    try (split; [done|]; intros (? & [= <-] & Hp & _); congruence);
    (destruct (validate parsed) as [[]|e] eqn:E;
     [apply validate_ok in E; split;
        [intros [= <-]; eauto|intros (? & [= <-] & Hp & _); congruence]
     |split; [done|]; intros (? & [= <-] & Hp & Hv%validate_ok); congruence]).
Qed.

(** C23: loading returns exactly the valid configurations.  [load_from_path]
    returns [cfg] if and only if the file is read, the parser its extension
    selects (JSON for [json], YAML otherwise) yields [cfg], and [cfg] is
    valid: at least one route, every route's upstream and canary upstream
    configured, percentages at most 100, abort statuses in 100..=599, no
    upstream without targets. *)
Theorem load_exactly_valid read pj py path cfg :
  load_from_path read pj py path = Ok cfg ↔
  ∃ content, read path = Ok content ∧
    (if bool_decide (extension path = Some "json") then pj content else py content) = Ok cfg ∧
    valid_config cfg.
Proof. apply load_from_path_spec. Qed.

(** C29: validation stops at the first violation.  A rejected configuration
    has no routes; or its first invalid route, all earlier ones being valid,
    gives the message; or all routes are valid and the message names the first
    upstream without targets. *)
Theorem validate_first_violation cfg e :
  validate cfg = Err e →
  routes cfg = [] ∧ e = "at least one route must be configured" ∨
  (∃ before r after, routes cfg = before ++ r :: after ∧
     Forall (valid_route cfg) before ∧ ¬ valid_route cfg r ∧ validate_route cfg r = Err e) ∨
  (∃ before u after, upstreams cfg = before ++ u :: after ∧
     Forall (valid_route cfg) (routes cfg) ∧ Forall (λ u, targets u ≠ []) before ∧
     targets u = [] ∧ e = "upstream '" +:+ upstream_name u +:+ "' has no targets").
Proof.
  unfold validate. destruct (routes cfg) as [|r0 rs]; [intros [= <-]; by left|].
  destruct (check_each (validate_route cfg) (r0 :: rs)) as [[]|e'] eqn:E.
  - intros (b & u & a & -> & Hb & Hu)%check_each_err. right; right.
    apply check_each_ok in E. exists b, u, a. split; [done|].
    split; [by rewrite (Forall_iff _ _ _ (validate_route_ok cfg)) in E|].
    split; [by rewrite (Forall_iff _ _ _ validate_upstream_ok) in Hb|].
    unfold validate_upstream in Hu. destruct (targets u); [|done]. by injection Hu as <-.
  - intros [= ->]. apply check_each_err in E as (b & r & a & -> & Hb & Hr). right; left.
    exists b, r, a. split; [done|].
    rewrite (Forall_iff _ _ _ (validate_route_ok cfg)) in Hb. split; [done|]. split; [|done].
    intros Hv%validate_route_ok. congruence.
Qed.

Lemma validate_first_violation_witness :
  validate (demo_gateway [plain_route "r1" "/" "u" [] ] []) = Err "route 'r1' references unknown upstream 'u'" ∧
  ¬ valid_route (demo_gateway [plain_route "r1" "/" "u" [] ] []) (plain_route "r1" "/" "u" [] ).
Proof.
  split; [reflexivity|].
  destruct (validate_first_violation (demo_gateway [plain_route "r1" "/" "u" [] ] [])
    "route 'r1' references unknown upstream 'u'") as [[? _]|[(b & r & a & Hr & _ & Hn & _)|
      (b & u & a & Hu & _)]].
  - reflexivity.
  - discriminate.
  - destruct b as [|? [|? b]]; simpl in Hr; simplify_eq. exact Hn.
  - by destruct b.
Defined.
