(* ===== verification/Resilience.v ===== *)
(** * Health state and circuit breaker (resilience.rs)

    [RuntimeRegistry]: per-target passive health, active health and circuit
    breaker.  Every method locks the map of targets, takes the entry of its
    key (a default one if there is none) and updates it: [entry] is that
    access, and one method call is one transition.  The time a method reads is
    an argument.  A poisoned lock is recovered, so it changes nothing. *)

From S2P Require Export Config.

#[local] Open Scope string_scope.
#[local] Open Scope list_scope.

Inductive CircuitState : Type :=
| Closed
| Open (opened_at : instant)
| HalfOpen (remaining_attempts : Z). (* u32 *)

Record TargetRuntime : Type := {
  active_healthy : bool;
  passive_healthy : bool;
  consecutive_failures : Z;   (* u32 *)
  consecutive_successes : Z;  (* u32 *)
  breaker_failures : Z;       (* u32 *)
  circuit_state : CircuitState;
}.

#[export] Instance CircuitState_eq_dec : EqDecision CircuitState.
Proof. solve_decision. Defined.
#[export] Instance TargetRuntime_eq_dec : EqDecision TargetRuntime.
Proof. solve_decision. Defined.

Definition TargetRuntime_default : TargetRuntime := {|
  active_healthy := true; passive_healthy := true; consecutive_failures := 0;
  consecutive_successes := 0; breaker_failures := 0; circuit_state := Closed;
|}.

Record RuntimeRegistry : Type := {
  passive_cfg : PassiveHealthCheckConfig;
  breaker_cfg : CircuitBreakerConfig;
  runtime_targets : gmap string TargetRuntime;
}.

Definition RuntimeRegistry_new (passive : PassiveHealthCheckConfig) (breaker : CircuitBreakerConfig)
    : RuntimeRegistry := {|
  passive_cfg := passive; breaker_cfg := breaker; runtime_targets := ∅;
|}.

(** [targets.entry(key).or_default()] and the write back through the borrow. *)
Definition entry (reg : RuntimeRegistry) (key : string) : TargetRuntime :=
  default TargetRuntime_default (runtime_targets reg !! key).
Definition set_entry (reg : RuntimeRegistry) (key : string) (st : TargetRuntime)
    : RuntimeRegistry := {|
  passive_cfg := passive_cfg reg; breaker_cfg := breaker_cfg reg;
  runtime_targets := <[key := st]> (runtime_targets reg);
|}.

Definition set_circuit (st : TargetRuntime) (c : CircuitState) : TargetRuntime := {|
  active_healthy := active_healthy st; passive_healthy := passive_healthy st;
  consecutive_failures := consecutive_failures st;
  consecutive_successes := consecutive_successes st;
  breaker_failures := breaker_failures st; circuit_state := c;
|}.

(** The bodies of the four methods, on the entry. *)
Definition target_available (cfg : CircuitBreakerConfig) (now : instant) (st : TargetRuntime)
    : bool * TargetRuntime :=
  if negb (active_healthy st) then (false, st)
  else match circuit_state st with
  | Closed => (passive_healthy st, st)
  | Open opened_at =>
      if (from_millis (open_ms cfg) <=? duration_since now opened_at)%Z
      then (true, set_circuit st (HalfOpen (half_open_max_requests cfg)))
      else (false, st)
  | HalfOpen remaining =>
      if (remaining =? 0)%Z then (false, st)
      else (true, set_circuit st (HalfOpen (remaining - 1)))
  end.

Definition target_set_active (healthy : bool) (st : TargetRuntime) : TargetRuntime := {|
  active_healthy := healthy; passive_healthy := passive_healthy st;
  consecutive_failures := consecutive_failures st;
  consecutive_successes := consecutive_successes st;
  breaker_failures := breaker_failures st; circuit_state := circuit_state st;
|}.

Definition target_success (cfg : PassiveHealthCheckConfig) (st : TargetRuntime) : TargetRuntime :=
  let successes := saturating_add 32 (consecutive_successes st) 1 in
  {| active_healthy := active_healthy st;
     passive_healthy :=
       if (passive_success_threshold cfg <=? successes)%Z then true else passive_healthy st;
     consecutive_failures := 0;
     consecutive_successes := successes;
     breaker_failures := 0;
     circuit_state := Closed |}.

Definition target_failure (pcfg : PassiveHealthCheckConfig) (bcfg : CircuitBreakerConfig)
    (now : instant) (st : TargetRuntime) : TargetRuntime :=
  let failures := saturating_add 32 (consecutive_failures st) 1 in
  let breaker := saturating_add 32 (breaker_failures st) 1 in
  {| active_healthy := active_healthy st;
     passive_healthy :=
       if (passive_failure_threshold pcfg <=? failures)%Z then false else passive_healthy st;
     consecutive_failures := failures;
     consecutive_successes := 0;
     breaker_failures := breaker;
     circuit_state :=
       if (breaker_failure_threshold bcfg <=? breaker)%Z then Open now else circuit_state st |}.

(** The methods. *)
Definition is_available (reg : RuntimeRegistry) (key : string) (now : instant)
    : bool * RuntimeRegistry :=
  let r := target_available (breaker_cfg reg) now (entry reg key) in
  (r.1, set_entry reg key r.2).
Definition set_active_health (reg : RuntimeRegistry) (key : string) (healthy : bool)
    : RuntimeRegistry :=
  set_entry reg key (target_set_active healthy (entry reg key)).
Definition record_success (reg : RuntimeRegistry) (key : string) : RuntimeRegistry :=
  set_entry reg key (target_success (passive_cfg reg) (entry reg key)).
Definition record_failure (reg : RuntimeRegistry) (key : string) (now : instant)
    : RuntimeRegistry :=
  set_entry reg key (target_failure (passive_cfg reg) (breaker_cfg reg) now (entry reg key)).

Definition target_key (upstream target_id : string) : string := upstream +:+ ":" +:+ target_id.

(** [http::Method]: the standard methods and extensions. *)
Inductive Method : Type :=
| GET | HEAD | OPTIONS | TRACE | PUT | DELETE | POST | PATCH | CONNECT
| Extension (name : string).

Definition should_retry_method (method : Method) (idempotent retry_unsafe : bool) : bool :=
  if negb idempotent then true
  else match method with GET | HEAD | OPTIONS | TRACE => true | _ => false end
       || (retry_unsafe && match method with PUT | DELETE => true | _ => false end).

Definition should_retry_status (status : Z) : bool :=
  (status =? 429)%Z || (500 <=? status)%Z.

(** ** Runs

    A registry is shared by the request handlers and the health checker: a run
    is the sequence of their method calls in the order in which they take the
    lock. *)
Inductive registry_op : Type :=
| OpAvailable | OpActive (healthy : bool) | OpSuccess | OpFailure.

Record registry_event : Type := {
  ev_time : instant;
  ev_key : string;
  ev_op : registry_op;
}.

(** The step of one target, with the answer of an availability check. *)
Definition target_step (pcfg : PassiveHealthCheckConfig) (bcfg : CircuitBreakerConfig)
    (now : instant) (op : registry_op) (st : TargetRuntime) : option bool * TargetRuntime :=
  match op with
  | OpAvailable => let r := target_available bcfg now st in (Some r.1, r.2)
  | OpActive healthy => (None, target_set_active healthy st)
  | OpSuccess => (None, target_success pcfg st)
  | OpFailure => (None, target_failure pcfg bcfg now st)
  end.

Definition registry_step (reg : RuntimeRegistry) (e : registry_event)
    : option bool * RuntimeRegistry :=
  match ev_op e with
  | OpAvailable => let r := is_available reg (ev_key e) (ev_time e) in (Some r.1, r.2)
  | OpActive healthy => (None, set_active_health reg (ev_key e) healthy)
  | OpSuccess => (None, record_success reg (ev_key e))
  | OpFailure => (None, record_failure reg (ev_key e) (ev_time e))
  end.

Definition run_registry (reg : RuntimeRegistry) (es : list registry_event) : RuntimeRegistry :=
  foldl (λ reg e, (registry_step reg e).2) reg es.

(** The answers given for [key] during a run. *)
Fixpoint answers (key : string) (reg : RuntimeRegistry) (es : list registry_event) : list bool :=
  match es with
  | [] => []
  | e :: es =>
      let r := registry_step reg e in
      (if bool_decide (ev_key e = key) then match r.1 with Some b => [b] | None => [] end else [])
      ++ answers key r.2 es
  end.

(** ** Lemmas: one target at a time *)

Lemma entry_set_entry reg key key' st :
  entry (set_entry reg key st) key' = if decide (key = key') then st else entry reg key'.
Proof.
  unfold entry, set_entry. simpl. case_decide as H; subst.
  - by rewrite lookup_insert_eq.
  - by rewrite lookup_insert_ne.
Qed.

Lemma registry_step_entry reg e key :
  (registry_step reg e).1 = (target_step (passive_cfg reg) (breaker_cfg reg) (ev_time e) (ev_op e)
    (entry reg (ev_key e))).1 ∧
  entry (registry_step reg e).2 key =
    (if decide (ev_key e = key) then (target_step (passive_cfg reg) (breaker_cfg reg) (ev_time e)
       (ev_op e) (entry reg key)).2 else entry reg key).
Proof.
  unfold registry_step, is_available, set_active_health, record_success, record_failure.
  destruct e as [t k []]; simpl; rewrite entry_set_entry; case_decide; by subst.
Qed.

Lemma registry_step_cfg reg e :
  passive_cfg (registry_step reg e).2 = passive_cfg reg ∧
  breaker_cfg (registry_step reg e).2 = breaker_cfg reg.
Proof. by destruct e as [t k []]. Qed.

Lemma run_registry_cfg es : ∀ reg,
  passive_cfg (run_registry reg es) = passive_cfg reg ∧
  breaker_cfg (run_registry reg es) = breaker_cfg reg.
Proof.
  induction es as [|e es IH]; intros reg; [done|]. simpl.
  destruct (IH (registry_step reg e).2) as [-> ->]. apply registry_step_cfg.
Qed.

(** The events of one key, and the run of its target alone. *)
Definition events_of (key : string) (es : list registry_event) : list registry_event :=
  filterb (λ e, bool_decide (ev_key e = key)) es.

Definition run_target (pcfg : PassiveHealthCheckConfig) (bcfg : CircuitBreakerConfig)
    (st : TargetRuntime) (es : list registry_event) : TargetRuntime :=
  foldl (λ st e, (target_step pcfg bcfg (ev_time e) (ev_op e) st).2) st es.

Fixpoint target_answers (pcfg : PassiveHealthCheckConfig) (bcfg : CircuitBreakerConfig)
    (st : TargetRuntime) (es : list registry_event) : list bool :=
  match es with
  | [] => []
  | e :: es =>
      let r := target_step pcfg bcfg (ev_time e) (ev_op e) st in
      match r.1 with Some b => [b] | None => [] end ++ target_answers pcfg bcfg r.2 es
  end.

Lemma run_registry_project key es : ∀ reg,
  entry (run_registry reg es) key =
    run_target (passive_cfg reg) (breaker_cfg reg) (entry reg key) (events_of key es) ∧
  answers key reg es =
    target_answers (passive_cfg reg) (breaker_cfg reg) (entry reg key) (events_of key es).
Proof.
  unfold events_of. induction es as [|e es IH]; intros reg; [done|].
  rewrite filterb_cons. simpl. destruct (registry_step_entry reg e key) as [Ha He].
  destruct (IH (registry_step reg e).2) as [-> ->].
  destruct (registry_step_cfg reg e) as [-> ->]. rewrite He.
  case_decide as Hk; [rewrite bool_decide_eq_true_2 by done|by rewrite bool_decide_eq_false_2].
  subst key. simpl. by rewrite Ha.
Qed.

(** ** Lemmas: the state as a function of the history *)

(** The failures recorded since the last success, and the last failure. *)
Definition count_step (n : Z) (e : registry_event) : Z :=
  match ev_op e with OpFailure => n + 1 | OpSuccess => 0 | _ => n end.
Definition failures_since_success (es : list registry_event) : Z := foldl count_step 0%Z es.

Definition last_failure (es : list registry_event) : option instant :=
  foldl (λ o e, match ev_op e with OpFailure => Some (ev_time e) | _ => o end) None es.

(** Field ranges of the two configurations. *)
Definition wf_thresholds (pcfg : PassiveHealthCheckConfig) (bcfg : CircuitBreakerConfig) : Prop :=
  uint 32 (passive_failure_threshold pcfg) ∧ uint 32 (passive_success_threshold pcfg) ∧
  uint 32 (breaker_failure_threshold bcfg) ∧ uint 64 (open_ms bcfg) ∧
  uint 32 (half_open_max_requests bcfg).

Definition tripped (bcfg : CircuitBreakerConfig) (n : Z) : Prop :=
  (0 < n ∧ breaker_failure_threshold bcfg ≤ n)%Z.

(** What the history determines of a target. *)
Record history_inv (pcfg : PassiveHealthCheckConfig) (bcfg : CircuitBreakerConfig) (n : Z)
    (last : option instant) (st : TargetRuntime) : Prop := {
  hi_count : (0 ≤ n)%Z;
  hi_breaker : breaker_failures st = Z.min n (umax 32);
  hi_failures : consecutive_failures st = Z.min n (umax 32);
  hi_successes : uint 32 (consecutive_successes st) ∧ ((0 < n)%Z → consecutive_successes st = 0%Z);
  hi_passive : (0 < n)%Z → (passive_failure_threshold pcfg ≤ n)%Z → passive_healthy st = false;
  hi_circuit : match circuit_state st with
               | Closed => ¬ tripped bcfg n
               | Open t => tripped bcfg n ∧ last = Some t
               | HalfOpen r => tripped bcfg n ∧ (0 ≤ r ≤ half_open_max_requests bcfg)%Z
               end;
}.

Lemma history_inv_step pcfg bcfg n last st e :
  wf_thresholds pcfg bcfg → history_inv pcfg bcfg n last st →
  history_inv pcfg bcfg (count_step n e)
    (match ev_op e with OpFailure => Some (ev_time e) | _ => last end)
    (target_step pcfg bcfg (ev_time e) (ev_op e) st).2.
Proof.
  intros (Hp & Hs & Hb & _ & Hh) [Hn Hbf Hcf Hcs Hpas Hc]. unfold count_step.
  unfold uint, umax in *. destruct e as [t k []]; simpl; [| by split| |].
  - unfold target_available. destruct (active_healthy st); simpl; [|by split].
    destruct (circuit_state st) as [|t0|r] eqn:E; simpl; [split; try done; by rewrite E| |].
    + destruct (_ <=? _)%Z; simpl; [|split; try done; by rewrite E].
      destruct Hc. split; simpl; try done. split; [done|lia].
    + destruct (r =? 0)%Z eqn:E0; simpl; [split; try done; by rewrite E|]. bool_to_Z.
      destruct Hc. split; simpl; try done. split; [done|lia].
  - split; simpl; unfold saturating_add, uint, umax, tripped; try lia; intros; exfalso; lia.
  - unfold tripped in *. split; simpl; unfold saturating_add, uint, umax in *;
      rewrite ?Hbf, ?Hcf; try lia.
    + intros _ ?. by rewrite (proj2 (Z.leb_le _ _)) by lia.
    + unfold tripped. destruct (_ <=? _)%Z eqn:E; bool_to_Z; [split; [lia|done]|].
      destruct (circuit_state st); lia.
Qed.

Lemma run_target_inv pcfg bcfg es :
  wf_thresholds pcfg bcfg →
  history_inv pcfg bcfg (failures_since_success es) (last_failure es)
    (run_target pcfg bcfg TargetRuntime_default es).
Proof.
  intros Hwf. unfold failures_since_success, last_failure, run_target.
  induction es as [|e es IH] using rev_ind.
  - split; simpl; unfold tripped, uint, umax; lia.
  - rewrite !foldl_app. simpl. by apply history_inv_step.
Qed.

Lemma entry_new pcfg bcfg key : entry (RuntimeRegistry_new pcfg bcfg) key = TargetRuntime_default.
Proof. unfold entry. simpl. by rewrite lookup_empty. Qed.

Lemma registry_inv pcfg bcfg es key :
  wf_thresholds pcfg bcfg →
  history_inv pcfg bcfg (failures_since_success (events_of key es))
    (last_failure (events_of key es))
    (entry (run_registry (RuntimeRegistry_new pcfg bcfg) es) key).
Proof.
  intros Hwf. destruct (run_registry_project key es (RuntimeRegistry_new pcfg bcfg)) as [-> _].
  rewrite entry_new. by apply run_target_inv.
Qed.

(** Events that record no result for [key]: checks and health probes. *)
Definition no_result (e : registry_event) : bool :=
  match ev_op e with OpAvailable | OpActive _ => true | _ => false end.
Definition no_results_for (key : string) (es : list registry_event) : Prop :=
  Forall (λ e, no_result e = true) (events_of key es).

Lemma events_of_app key es1 es2 : events_of key (es1 ++ es2) = events_of key es1 ++ events_of key es2.
Proof. apply List.filter_app. Qed.

Lemma events_of_snoc key es t op :
  events_of key (es ++ [{| ev_time := t; ev_key := key; ev_op := op |}])
  = events_of key es ++ [{| ev_time := t; ev_key := key; ev_op := op |}].
Proof.
  rewrite events_of_app. unfold events_of at 2. rewrite filterb_cons. simpl.
  by rewrite bool_decide_eq_true_2.
Qed.

(** A target that stays in a set of states in which it is unavailable. *)
Lemma target_answers_false pcfg bcfg (P : TargetRuntime → Prop) (ok : registry_event → Prop) es :
  (∀ st e, P st → ok e → no_result e = true →
     P (target_step pcfg bcfg (ev_time e) (ev_op e) st).2 ∧
     (target_step pcfg bcfg (ev_time e) (ev_op e) st).1 ≠ Some true) →
  ∀ st, P st → Forall ok es → Forall (λ e, no_result e = true) es →
  Forall (λ b, b = false) (target_answers pcfg bcfg st es) ∧ P (run_target pcfg bcfg st es).
Proof.
  intros Hstep. induction es as [|e es IH]; intros st HP Hok Hno; simpl; [by split|].
  apply Forall_cons in Hok as [Hok Hoks]. apply Forall_cons in Hno as [Hno Hnos].
  destruct (Hstep st e HP Hok Hno) as [HP' Ha]. destruct (IH _ HP' Hoks Hnos) as [Hf HP''].
  split; [|done]. apply Forall_app. split; [|done].
  destruct ((target_step pcfg bcfg _ _ st).1) as [[]|]; [done|by repeat constructor|constructor].
Qed.

Lemma passive_block_step pcfg bcfg st e :
  circuit_state st = Closed ∧ passive_healthy st = false → no_result e = true →
  (circuit_state (target_step pcfg bcfg (ev_time e) (ev_op e) st).2 = Closed ∧
   passive_healthy (target_step pcfg bcfg (ev_time e) (ev_op e) st).2 = false) ∧
  (target_step pcfg bcfg (ev_time e) (ev_op e) st).1 ≠ Some true.
Proof.
  intros [Hc Hp] Hno. destruct e as [t k []]; simpl in *; try done.
  unfold target_available. rewrite Hc. destruct (active_healthy st); simpl; [|done].
  by rewrite Hp.
Qed.

Lemma open_block_step pcfg bcfg t st e :
  circuit_state st = Open t → (t ≤ ev_time e < t + from_millis (open_ms bcfg))%Z →
  no_result e = true →
  circuit_state (target_step pcfg bcfg (ev_time e) (ev_op e) st).2 = Open t ∧
  (target_step pcfg bcfg (ev_time e) (ev_op e) st).1 ≠ Some true.
Proof.
  intros Hc Ht Hno. destruct e as [t' k []]; simpl in *; try done.
  unfold target_available. rewrite Hc. destruct (active_healthy st); simpl; [|done].
  rewrite (proj2 (Z.leb_gt _ _)); [done|]. unfold duration_since. lia.
Qed.

(** Checks of a half-open target. *)
Lemma half_open_answers pcfg bcfg key times : ∀ st r,
  (0 ≤ r)%Z → active_healthy st = true → circuit_state st = HalfOpen r →
  Z.of_nat (countb id (target_answers pcfg bcfg st
    ((λ t, {| ev_time := t; ev_key := key; ev_op := OpAvailable |}) <$> times)))
  = Z.min (Z.of_nat (length times)) r.
Proof.
  induction times as [|t times IH]; intros st r Hr Ha Hc.
  { rewrite fmap_nil. simpl. rewrite countb_nil. lia. }
  rewrite fmap_cons. simpl. unfold target_available. rewrite Ha, Hc. simpl.
  destruct (r =? 0)%Z eqn:E; simpl; bool_to_Z; rewrite countb_cons; simpl.
  - rewrite (IH st r); [lia|done..].
  - rewrite Nat2Z.inj_succ, (IH _ (r - 1)%Z); [lia|lia|done|done].
Qed.

Lemma successes_run pcfg bcfg key times : ∀ st,
  let st' := run_target pcfg bcfg st
    ((λ t, {| ev_time := t; ev_key := key; ev_op := OpSuccess |}) <$> times) in
  (0 ≤ consecutive_successes st)%Z →
  (consecutive_successes st + Z.of_nat (length times) ≤ umax 32)%Z →
  active_healthy st' = active_healthy st ∧
  (times ≠ [] → circuit_state st' = Closed) ∧
  consecutive_successes st' = (consecutive_successes st + Z.of_nat (length times))%Z ∧
  (passive_healthy st' = true ↔ passive_healthy st = true ∨
     times ≠ [] ∧ (passive_success_threshold pcfg ≤ consecutive_successes st + Z.of_nat (length times))%Z).
Proof.
  induction times as [|t times IH]; intros st st' H0 Hmax.
  { subst st'. rewrite fmap_nil. simpl. split_and!; try done; [lia|]. split; [by left|by intros [?|[? _]]]. }
  subst st'. rewrite fmap_cons. simpl in *.
  assert (saturating_add 32 (consecutive_successes st) 1 = (consecutive_successes st + 1)%Z) as Hsat.
  { unfold saturating_add, umax in *. lia. }
  destruct (IH (target_success pcfg st)) as (Ha & Hc & Hs & Hp); simpl; rewrite ?Hsat; [lia..|].
  rewrite Ha, Hs. simpl. rewrite Hsat. split_and!; [done| |lia|].
  - intros _. destruct times; [done|by apply Hc].
  - rewrite Hp. simpl. rewrite Hsat.
    destruct (_ <=? _)%Z eqn:E; bool_to_Z.
    + split; [intros _; right; split; [done|lia]|by left].
    + split; [intros [?|[? ?]]; [by left|right; split; [done|lia]]|].
      intros [?|[_ ?]]; [by left|right]. split; [|lia]. intros ->. simpl in *. lia.
Qed.

Lemma last_failure_snoc es t key :
  last_failure (es ++ [{| ev_time := t; ev_key := key; ev_op := OpFailure |}]) = Some t.
Proof. unfold last_failure. by rewrite foldl_app. Qed.

(** The state right after a failure that leaves the breaker tripped. *)
Lemma tripped_open pcfg bcfg es key t reg :
  wf_thresholds pcfg bcfg →
  reg = run_registry (RuntimeRegistry_new pcfg bcfg)
    (es ++ [{| ev_time := t; ev_key := key; ev_op := OpFailure |}]) →
  (breaker_failure_threshold bcfg ≤ failures_since_success (events_of key es) + 1)%Z →
  circuit_state (entry reg key) = Open t ∧ passive_cfg reg = pcfg ∧ breaker_cfg reg = bcfg.
Proof.
  intros Hwf Hreg Hn. set (new := RuntimeRegistry_new pcfg bcfg) in *.
  assert (passive_cfg reg = pcfg ∧ breaker_cfg reg = bcfg) as Hcfg
    by (subst reg; apply run_registry_cfg).
  split; [|done]. clear Hcfg. subst reg. unfold run_registry. rewrite foldl_app.
  fold (run_registry new es). destruct (registry_inv pcfg bcfg es key Hwf) as [Hc Hb _ _ _ _].
  fold new in Hb. cbn [foldl].
  destruct (registry_step_entry (run_registry new es)
    {| ev_time := t; ev_key := key; ev_op := OpFailure |} key) as [_ ->].
  simpl. rewrite decide_True by done. simpl. destruct (run_registry_cfg es new) as [_ ->]. simpl.
  rewrite Hb. destruct Hwf as (_ & _ & [? ?] & _).
  rewrite (proj2 (Z.leb_le _ _)); [done|]. unfold saturating_add, umax in *. lia.
Qed.

(** ** Lemmas: when a history permits a request *)

(** The result of the last active probe. *)
Definition last_active (es : list registry_event) : option bool :=
  foldl (λ o e, match ev_op e with OpActive healthy => Some healthy | _ => o end) None es.

(** What the history of a target says of a request at [now]: the last active
    probe, if any, succeeded; and when the last results were failures, they
    are fewer than the passive threshold, or else at least the breaker
    threshold and the last of them is [open_ms] ago. *)
Definition may_serve (pcfg : PassiveHealthCheckConfig) (bcfg : CircuitBreakerConfig)
    (es : list registry_event) (now : instant) : Prop :=
  last_active es ≠ Some false ∧
  let n := failures_since_success es in
  (0 < n →
   if bool_decide (breaker_failure_threshold bcfg ≤ n)
   then ∃ t, last_failure es = Some t ∧ t + from_millis (open_ms bcfg) ≤ now
   else n < passive_failure_threshold pcfg)%Z.

Lemma last_failure_in es t : last_failure es = Some t → ∃ e, e ∈ es ∧ ev_time e = t.
Proof.
  unfold last_failure. induction es as [|e es IH] using rev_ind; [done|]. rewrite foldl_app. simpl.
  intros Hl. setoid_rewrite elem_of_app.
  destruct (ev_op e); try (destruct (IH Hl) as (e' & ? & ?); by eauto).
  injection Hl as <-. exists e. split; [right; apply list_elem_of_here|done].
Qed.

(** An open circuit that may be left was opened long enough ago. *)
Lemma open_elapsed bcfg es t now bound :
  Forall (λ e, ev_time e ≤ bound)%Z es → (now ≤ bound)%Z → last_failure es = Some t →
  (from_millis (open_ms bcfg) <=? duration_since now t)%Z = true →
  (t + from_millis (open_ms bcfg) ≤ bound)%Z.
Proof.
  intros Hes Hn Hl Hd. bool_to_Z. unfold duration_since in Hd.
  apply last_failure_in in Hl as (e & He & <-). rewrite Forall_forall in Hes.
  specialize (Hes e He). simpl in Hes. lia.
Qed.

Lemma half_open_since pcfg bcfg bound es r :
  wf_thresholds pcfg bcfg → Forall (λ e, ev_time e ≤ bound)%Z es →
  circuit_state (run_target pcfg bcfg TargetRuntime_default es) = HalfOpen r →
  ∃ t, last_failure es = Some t ∧ (t + from_millis (open_ms bcfg) ≤ bound)%Z.
Proof.
  intros Hwf. revert r. induction es as [|e es IH] using rev_ind; intros r Hes; [done|].
  apply Forall_app in Hes as [Hes [He _]%Forall_cons]. simpl in He.
  pose proof (run_target_inv pcfg bcfg es Hwf) as Hinv. apply hi_circuit in Hinv as Hc.
  unfold run_target, last_failure in *. rewrite !foldl_app. simpl.
  fold (last_failure es) in *. set (st := foldl _ _ es) in *.
  destruct (ev_op e); simpl; [|by eauto|done|].
  - unfold target_available. destruct (active_healthy st); simpl; [|by eauto].
    destruct (circuit_state st) as [|t|r'] eqn:E; simpl; [first [done|by rewrite E]| |].
    + destruct (_ <=? _)%Z eqn:Ed; simpl; [|first [done|by rewrite E]]. intros _. exists t.
      destruct Hc as [_ Hl]. split; [done|]. eapply open_elapsed; [exact Hes|exact He|exact Hl|exact Ed].
    + intros _. by eapply IH.
  - destruct (_ <=? _)%Z eqn:Eb; [done|]. intros E. rewrite E in Hc. bool_to_Z.
    destruct Hc as [[_ Ht] _]. rewrite (hi_breaker _ _ _ _ _ Hinv) in Eb.
    destruct Hwf as (_ & _ & [_ Hb] & _). unfold saturating_add, umax in *. lia.
Qed.

Lemma run_target_active pcfg bcfg es :
  active_healthy (run_target pcfg bcfg TargetRuntime_default es) = default true (last_active es).
Proof.
  unfold run_target, last_active. induction es as [|e es IH] using rev_ind; [done|].
  rewrite !foldl_app. simpl. destruct (ev_op e); simpl; [|done|done..].
  unfold target_available. destruct (active_healthy _) eqn:E; simpl; [|by rewrite E].
  repeat case_match; simpl; by rewrite ?E.
Qed.

(** A check that is granted is permitted by the history of its target. *)
Lemma granted_may_serve pcfg bcfg es key now :
  wf_thresholds pcfg bcfg → Forall (λ e, ev_time e ≤ now)%Z es →
  (is_available (run_registry (RuntimeRegistry_new pcfg bcfg) es) key now).1 = true →
  may_serve pcfg bcfg (events_of key es) now.
Proof.
  intros Hwf Hes. unfold is_available. simpl.
  destruct (run_registry_project key es (RuntimeRegistry_new pcfg bcfg)) as [-> _].
  destruct (run_registry_cfg es (RuntimeRegistry_new pcfg bcfg)) as [_ ->]. rewrite entry_new. simpl.
  assert (Forall (λ e, ev_time e ≤ now)%Z (events_of key es)) as Hk.
  { rewrite Forall_forall in *. intros e He. apply Hes.
    by apply list_elem_of_In, List.filter_In in He as [?%list_elem_of_In _]. }
  clear Hes. revert Hk. generalize (events_of key es). clear es. intros es Hes.
  unfold target_available. rewrite run_target_active.
  pose proof (run_target_inv pcfg bcfg es Hwf) as [Hn _ _ _ Hp Hc]. unfold may_serve.
  destruct (last_active es) as [[]|]; simpl; [| done |].
  all: intros Hok; (split; [done|]); intros Hpos; unfold tripped in Hc.
  all: destruct (circuit_state (run_target _ _ _ es)) as [|t|r] eqn:Ec.
  1,4: rewrite bool_decide_eq_false_2 by tauto; apply Z.nle_gt; intros Hle;
    rewrite (Hp Hpos Hle) in Hok; done.
  1,3: destruct Hc as [Ht Hl]; rewrite bool_decide_eq_true_2 by tauto; exists t; split; [done|];
    destruct (_ <=? _)%Z eqn:Ed in Hok; [|done]; eapply open_elapsed; [exact Hes| |exact Hl|exact Ed]; lia.
  all: rewrite bool_decide_eq_true_2 by tauto; by eapply half_open_since.
Qed.

(** Configurations and histories of the witnesses. *)
Definition mk_event (key : string) (op : registry_op) (t : instant) : registry_event :=
  {| ev_time := t; ev_key := key; ev_op := op |}.
Definition demo_passive : PassiveHealthCheckConfig := PassiveHealthCheckConfig_default.
Definition demo_breaker : CircuitBreakerConfig := CircuitBreakerConfig_default.

Lemma demo_thresholds : wf_thresholds demo_passive demo_breaker.
Proof. repeat split; vm_compute; congruence. Qed.

(** ** Properties *)

(** C9: the breaker implements its specification on histories.  After any run
    of method calls on any keys from a new registry, what is stored for a key
    is determined by the calls on that key alone: with [n] the failures
    recorded for it since its last success (saturated at [u32::MAX] in the
    two counters), its circuit is closed exactly when [n] is 0 or below the
    breaker threshold, an open circuit was opened at the last failure, and a
    half-open one has at most [half_open_max_requests] attempts left. *)
Theorem breaker_history pcfg bcfg es key :
  wf_thresholds pcfg bcfg →
  let st := entry (run_registry (RuntimeRegistry_new pcfg bcfg) es) key in
  let n := failures_since_success (events_of key es) in
  st = run_target pcfg bcfg TargetRuntime_default (events_of key es) ∧
  breaker_failures st = Z.min n (umax 32) ∧ consecutive_failures st = Z.min n (umax 32) ∧
  (circuit_state st = Closed ↔ n = 0%Z ∨ (n < breaker_failure_threshold bcfg)%Z) ∧
  (∀ t, circuit_state st = Open t → last_failure (events_of key es) = Some t) ∧
  (∀ r, circuit_state st = HalfOpen r → 0 ≤ r ≤ half_open_max_requests bcfg)%Z.
Proof.
  intros Hwf st n. destruct (registry_inv pcfg bcfg es key Hwf) as [Hn Hb Hf _ _ Hc].
  fold st n in Hn, Hb, Hf, Hc. split; [|split; [done|split; [done|]]].
  { unfold st. by rewrite (proj1 (run_registry_project key es _)), entry_new. }
  unfold tripped in Hc.
  split; [|split].
  - destruct (circuit_state st) as [|t|r]; [split; [lia|done]|..];
      (split; [done|intros [?|?]; exfalso; lia]).
  - intros t Ht. rewrite Ht in Hc. apply Hc.
  - intros r Hr. rewrite Hr in Hc. apply Hc.
Qed.

Lemma breaker_history_witness :
  let es := mk_event "u:a" OpFailure <$> [1; 2; 3; 4; 5]%Z in
  circuit_state (entry (run_registry (RuntimeRegistry_new demo_passive demo_breaker) es) "u:a")
    ≠ Closed.
Proof.
  intros es Hc. apply (breaker_history demo_passive demo_breaker es "u:a" demo_thresholds) in Hc.
  destruct Hc as [Hc|Hc]; [discriminate Hc|vm_compute in Hc; discriminate Hc].
Defined.

(** C31: an open breaker keeps traffic away, and for [open_ms] only.  When a
    failure at time [t] leaves at least the threshold of failures since the
    last success, every check of that key in the [open_ms] milliseconds from
    [t] on is refused, as long as no result is recorded for the key, whatever
    happens to other keys; the first check later is granted if the target's
    active health is good. *)
Theorem open_breaker_blocks pcfg bcfg es key t es' now :
  wf_thresholds pcfg bcfg →
  (breaker_failure_threshold bcfg ≤ failures_since_success (events_of key es) + 1)%Z →
  no_results_for key es' →
  Forall (λ e, t ≤ ev_time e < t + from_millis (open_ms bcfg))%Z (events_of key es') →
  (t + from_millis (open_ms bcfg) ≤ now)%Z →
  let reg := run_registry (RuntimeRegistry_new pcfg bcfg) (es ++ [mk_event key OpFailure t]) in
  Forall (λ b, b = false) (answers key reg es') ∧
  (is_available (run_registry reg es') key now).1
    = active_healthy (entry (run_registry reg es') key).
Proof.
  intros Hwf Hn Hno Htimes Hnow reg.
  destruct (tripped_open pcfg bcfg es key t reg Hwf eq_refl Hn) as (Ho & Hp & Hb).
  destruct (run_registry_project key es' reg) as [Hrun ->].
  destruct (target_answers_false (passive_cfg reg) (breaker_cfg reg)
    (λ st, circuit_state st = Open t)
    (λ e, t ≤ ev_time e < t + from_millis (open_ms bcfg))%Z (events_of key es')) with
    (st := entry reg key) as [Hans Hst]; try done.
  { intros st e Hst Hok Hr. apply open_block_step; [done| |done]. by rewrite Hb. }
  split; [done|]. unfold is_available. simpl. rewrite Hrun.
  rewrite <-Hrun in *. destruct (run_registry_cfg es' reg) as [_ ->].
  unfold target_available. rewrite Hst, Hb. destruct (active_healthy _); simpl; [|done].
  rewrite (proj2 (Z.leb_le _ _)); [done|]. unfold duration_since.
  destruct Hwf as (_ & _ & _ & [? _] & _). unfold from_millis in *. lia.
Qed.

Lemma open_breaker_blocks_witness :
  let reg := run_registry (RuntimeRegistry_new demo_passive demo_breaker)
    ((mk_event "u:a" OpFailure <$> [1; 2; 3; 4]%Z) ++ [mk_event "u:a" OpFailure 5]) in
  Forall (λ b, b = false) (answers "u:a" reg
    [mk_event "u:a" OpAvailable 6; mk_event "u:b" OpSuccess 7; mk_event "u:a" OpAvailable 9]).
Proof.
  apply (open_breaker_blocks demo_passive demo_breaker (mk_event "u:a" OpFailure <$> [1; 2; 3; 4]%Z)
    "u:a" 5 [mk_event "u:a" OpAvailable 6; mk_event "u:b" OpSuccess 7; mk_event "u:a" OpAvailable 9]
    (from_secs 6)).
  - exact demo_thresholds.
  - vm_compute. congruence.
  - repeat constructor.
  - repeat constructor; vm_compute; congruence.
  - vm_compute. congruence.
Defined.

(** C33: the half-open budget.  After the open time has passed, a run of
    checks of the key, with no result recorded in between, grants exactly
    [half_open_max_requests + 1] of them: the check that turns the circuit
    half-open is granted and not counted. *)
Theorem half_open_budget pcfg bcfg es key t times :
  wf_thresholds pcfg bcfg →
  (breaker_failure_threshold bcfg ≤ failures_since_success (events_of key es) + 1)%Z →
  Forall (λ now, t + from_millis (open_ms bcfg) ≤ now)%Z times →
  let reg := run_registry (RuntimeRegistry_new pcfg bcfg) (es ++ [mk_event key OpFailure t]) in
  active_healthy (entry reg key) = true →
  Z.of_nat (countb id (answers key reg (mk_event key OpAvailable <$> times)))
  = Z.min (Z.of_nat (length times)) (half_open_max_requests bcfg + 1).
Proof.
  intros Hwf Hn Htimes reg Hact.
  destruct (tripped_open pcfg bcfg es key t reg Hwf eq_refl Hn) as (Ho & Hp & Hb).
  destruct (run_registry_project key (mk_event key OpAvailable <$> times) reg) as [_ ->].
  assert (events_of key (mk_event key OpAvailable <$> times)
          = mk_event key OpAvailable <$> times) as ->.
  { clear. induction times as [|x times IH]; [done|].
    rewrite fmap_cons. unfold events_of in *. rewrite filterb_cons. simpl.
    by rewrite bool_decide_eq_true_2, IH. }
  destruct Hwf as (_ & _ & _ & [? _] & [? _]).
  destruct times as [|now times]; [rewrite fmap_nil; simpl; rewrite countb_nil; lia|].
  apply Forall_cons in Htimes as [Hnow _]. rewrite fmap_cons. simpl. rewrite Hb, Hp.
  unfold target_available. rewrite Hact, Ho. simpl.
  rewrite (proj2 (Z.leb_le _ _)) by (unfold duration_since, from_millis in *; lia). simpl.
  rewrite countb_cons. simpl.
  rewrite Nat2Z.inj_succ, (half_open_answers pcfg bcfg key times _ (half_open_max_requests bcfg));
    [lia|done|done|done].
Qed.

Lemma half_open_budget_witness :
  let reg := run_registry (RuntimeRegistry_new demo_passive demo_breaker)
    ((mk_event "u:a" OpFailure <$> [1; 2; 3; 4]%Z) ++ [mk_event "u:a" OpFailure 5]) in
  Z.of_nat (countb id (answers "u:a" reg
    (mk_event "u:a" OpAvailable <$> [from_secs 6; from_secs 6; from_secs 7; from_secs 8]))) = 2%Z.
Proof.
  apply (half_open_budget demo_passive demo_breaker (mk_event "u:a" OpFailure <$> [1; 2; 3; 4]%Z)
    "u:a" 5 [from_secs 6; from_secs 6; from_secs 7; from_secs 8]).
  - exact demo_thresholds.
  - vm_compute. congruence.
  - repeat constructor; vm_compute; congruence.
  - reflexivity.
Defined.

(** C34: passive failures below the breaker threshold lock a target out.  When
    the failures of a key since its last success reach the passive threshold
    but not the breaker threshold, the circuit is still closed, so no time
    limit applies: no check of the key is ever granted again by any later run
    in which no result is recorded for it, health probes included, and a
    target that is never granted gets no requests to record. *)
Theorem passive_lockout pcfg bcfg es key es' :
  wf_thresholds pcfg bcfg →
  (0 < failures_since_success (events_of key es))%Z →
  (passive_failure_threshold pcfg ≤ failures_since_success (events_of key es)
     < breaker_failure_threshold bcfg)%Z →
  no_results_for key es' →
  Forall (λ b, b = false) (answers key (run_registry (RuntimeRegistry_new pcfg bcfg) es) es').
Proof.
  intros Hwf H0 [Hp Hb] Hno. set (reg := run_registry _ es).
  destruct (registry_inv pcfg bcfg es key Hwf) as [_ _ _ _ Hpas Hc]. fold reg in Hpas, Hc.
  destruct (run_registry_project key es' reg) as [_ ->].
  apply (target_answers_false _ _ (λ st, circuit_state st = Closed ∧ passive_healthy st = false)
    (λ _, True)).
  - intros st e Hst _ Hr. by apply passive_block_step.
  - split; [|by apply Hpas]. unfold tripped in Hc. by destruct (circuit_state _); [|lia..].
  - by apply Forall_true.
  - exact Hno.
Qed.

Lemma passive_lockout_witness :
  Forall (λ b, b = false) (answers "u:a"
    (run_registry (RuntimeRegistry_new demo_passive demo_breaker)
       (mk_event "u:a" OpFailure <$> [1; 2; 3]%Z))
    [mk_event "u:a" (OpActive true) 10; mk_event "u:a" OpAvailable (from_secs 86400)]).
Proof.
  apply (passive_lockout demo_passive demo_breaker (mk_event "u:a" OpFailure <$> [1; 2; 3]%Z) "u:a").
  - exact demo_thresholds.
  - reflexivity.
  - vm_compute. split; congruence.
  - repeat constructor.
Defined.

(** C35: recovery.  After a failure that marked the target unhealthy, [j]
    consecutive successes close the circuit, and the target is available again
    exactly when its active health is good and [j] has reached the success
    threshold: below it a closed circuit stays unavailable. *)
Theorem recovery_needs_successes pcfg bcfg es key t times now :
  wf_thresholds pcfg bcfg →
  (passive_failure_threshold pcfg ≤ failures_since_success (events_of key es) + 1)%Z →
  times ≠ [] → (Z.of_nat (length times) < 2 ^ 32)%Z →
  let reg := run_registry (RuntimeRegistry_new pcfg bcfg)
    ((es ++ [mk_event key OpFailure t]) ++ (mk_event key OpSuccess <$> times)) in
  circuit_state (entry reg key) = Closed ∧
  (is_available reg key now).1 =
    active_healthy (entry reg key)
    && (passive_success_threshold pcfg <=? Z.of_nat (length times))%Z.
Proof.
  intros Hwf Hn Hne Hlen reg. pose proof Hwf as (_ & [? _] & _).
  assert (entry reg key = run_target pcfg bcfg
    (run_target pcfg bcfg TargetRuntime_default (events_of key (es ++ [mk_event key OpFailure t])))
    (mk_event key OpSuccess <$> times)) as Hrun.
  { unfold reg. rewrite (proj1 (run_registry_project key _ _)), entry_new, events_of_app.
    unfold run_target. rewrite foldl_app. f_equal.
    clear. induction times as [|x times IH]; [done|].
    rewrite fmap_cons. unfold events_of in *. rewrite filterb_cons. simpl.
    by rewrite bool_decide_eq_true_2, IH. }
  pose proof (run_target_inv pcfg bcfg (events_of key (es ++ [mk_event key OpFailure t])) Hwf)
    as [Hc _ _ [_ Hs] Hp _].
  set (st := run_target pcfg bcfg TargetRuntime_default _) in *.
  assert (failures_since_success (events_of key (es ++ [mk_event key OpFailure t]))
    = failures_since_success (events_of key es) + 1)%Z as Hcount.
  { unfold mk_event. rewrite events_of_snoc. unfold failures_since_success. by rewrite foldl_app. }
  pose proof (run_target_inv pcfg bcfg (events_of key es) Hwf) as [Hc' _ _ _ _ _].
  rewrite Hcount in Hs, Hp. specialize (Hs ltac:(lia)). specialize (Hp ltac:(lia) Hn).
  destruct (successes_run pcfg bcfg key times st) as (Ha & Hcl & _ & Hph); [lia| |].
  { unfold umax. lia. }
  unfold mk_event in Hrun. rewrite <-Hrun in Ha, Hcl, Hph. specialize (Hcl Hne).
  split; [done|]. unfold is_available. simpl. unfold target_available. rewrite Hcl.
  destruct (active_healthy (entry reg key)); simpl; [|done].
  apply eq_true_iff_eq. rewrite Hph, Hs, Hp, Z.leb_le. naive_solver.
Qed.

Lemma recovery_needs_successes_witness :
  let reg := run_registry (RuntimeRegistry_new
      {| passive_failure_threshold := 1; passive_success_threshold := 2 |} demo_breaker)
    (([] ++ [mk_event "u:a" OpFailure 1]) ++ (mk_event "u:a" OpSuccess <$> [2]%Z)) in
  (is_available reg "u:a" (from_secs 60)).1 = false.
Proof.
  apply (recovery_needs_successes
    {| passive_failure_threshold := 1; passive_success_threshold := 2 |} demo_breaker [] "u:a" 1
    [2]%Z (from_secs 60)).
  - repeat split; vm_compute; congruence.
  - vm_compute. congruence.
  - discriminate.
  - reflexivity.
Defined.
