(* ===== verification/Plugin.v ===== *)
(** * Plugins (plugin.rs)

    Declared plugins, the Wasm sandbox check, and [PluginManager].  A boxed
    [dyn GatewayPlugin] is the record of its methods.  The file system test
    [Path::exists] and [serde_json::to_vec] are parameters.  The calls of
    [init] and [teardown] are logged, so that the lifecycle is visible. *)

From S2P Require Export Config WasmAbi.

#[local] Open Scope string_scope.
#[local] Open Scope list_scope.

Definition MAX_WASM_PAYLOAD_BYTES : Z := 64 * 1024.

Record PluginContext : Type := {
  plugin_route : string;
  plugin_path : string;
}.

Record PluginResult : Type := {
  allowed : bool;
  reason : option string;
}.

#[export] Instance PluginResult_eq_dec : EqDecision PluginResult.
Proof. solve_decision. Defined.

Definition plugin_ok : PluginResult := {| allowed := true; reason := None |}.

(** [serde_json::to_vec] of a context. *)
Class ContextJson := context_to_vec : PluginContext → result string (list Z).

(** The trait: [init] and [teardown] may fail, [execute] may deny. *)
Record GatewayPlugin : Type := {
  gp_name : string;
  gp_contract_version : Z;
  gp_supports_phase : WasmPhase → bool;
  gp_init : result string ();
  gp_execute : WasmPhase → PluginContext → PluginResult;
  gp_teardown : result string ();
}.

Inductive PluginRuntime : Type := Native | Wasm.

Record WasmRuntimeHost : Type := {
  allowed_capabilities : gset WasmCapability;
  max_payload_bytes : Z;  (* usize *)
}.

Record DeclaredPlugin : Type := {
  dp_name : string;
  dp_module : string;
  dp_runtime : PluginRuntime;
  dp_wasm_path : option string;
  dp_phases : gset WasmPhase;
  dp_required_capabilities : list WasmCapability;
  dp_host : WasmRuntimeHost;
  dp_contract_version : Z;
}.

Definition sandboxed_for_plugin (required : list WasmCapability) : WasmRuntimeHost := {|
  allowed_capabilities := list_to_set required;
  max_payload_bytes := MAX_WASM_PAYLOAD_BYTES;
|}.

(** The loop of [invoke] over the required capabilities. *)
Fixpoint check_capabilities (host : WasmRuntimeHost) (caps : list WasmCapability)
    : result string () :=
  match caps with
  | [] => Ok ()
  | cap :: caps =>
      if negb (bool_decide (cap ∈ allowed_capabilities host))
      then Err ("wasm capability '" +:+ show_capability cap
                +:+ "' is not allowed by sandbox policy")
      else check_capabilities host caps
  end.

Definition invoke (host : WasmRuntimeHost) (call : WasmCall) : result string () :=
  let len := Z.of_nat (length (call_payload call)) in
  if (max_payload_bytes host <? len)%Z
  then Err ("wasm payload exceeds sandbox limit: " +:+ show_uint len +:+ " > "
            +:+ show_uint (max_payload_bytes host))
  else check_capabilities host (call_required_capabilities call).

(** [DeclaredPlugin::execute]; the [tracing] calls have no effect here. *)
Definition declared_execute `{ContextJson} (p : DeclaredPlugin) (phase : WasmPhase)
    (ctx : PluginContext) : PluginResult :=
  if negb (bool_decide (phase ∈ dp_phases p)) then plugin_ok
  else match dp_runtime p with
  | Native => plugin_ok
  | Wasm =>
      let payload := match context_to_vec ctx with Ok v => v | Err _ => [] end in
      match invoke (dp_host p) (WasmCall_new phase (dp_name p) (dp_required_capabilities p) payload)
      with
      | Err err => {| allowed := false; reason := Some err |}
      | Ok _ => plugin_ok
      end
  end.

(** The trait object of a declared plugin; [init] and [teardown] are the
    trait's defaults. *)
Definition declared_plugin `{ContextJson} (p : DeclaredPlugin) : GatewayPlugin := {|
  gp_name := dp_name p;
  gp_contract_version := dp_contract_version p;
  gp_supports_phase phase := bool_decide (phase ∈ dp_phases p);
  gp_init := Ok ();
  gp_execute := declared_execute p;
  gp_teardown := Ok ();
|}.

(** ** Parsing a declaration *)

Definition normalize (s : string) : string := to_ascii_lowercase (trim s).

(** A [match] on string literals: the arms are tried in order. *)
Fixpoint match_str {A} (arms : list (string * A)) (s : string) : option A :=
  match arms with
  | [] => None
  | (pattern, a) :: arms => if bool_decide (s = pattern) then Some a else match_str arms s
  end.

Definition runtime_arms : list (string * PluginRuntime) := [("native", Native); ("wasm", Wasm)].
Definition phase_arms : list (string * WasmPhase) :=
  [("init", Init); ("access", Access); ("header", HeaderFilter); ("header_filter", HeaderFilter);
   ("headerfilter", HeaderFilter); ("body", BodyFilter); ("body_filter", BodyFilter);
   ("bodyfilter", BodyFilter); ("log", Log)].
Definition capability_arms : list (string * WasmCapability) :=
  [("read_headers", ReadHeaders); ("write_headers", WriteHeaders); ("read_body", ReadBody);
   ("write_body", WriteBody); ("rewrite_path", RewritePath); ("emit_logs", EmitLogs)].

Definition parse_runtime (runtime : string) : result string PluginRuntime :=
  let other := normalize runtime in
  ok_or ("unsupported plugin runtime '" +:+ other +:+ "'") (match_str runtime_arms other).

Definition parse_phase (phase : string) : result string WasmPhase :=
  let other := normalize phase in
  ok_or ("unsupported plugin phase '" +:+ other +:+ "'") (match_str phase_arms other).

Fixpoint parse_phases_from (parsed : gset WasmPhase) (phases : list string)
    : result string (gset WasmPhase) :=
  match phases with
  | [] => Ok parsed
  | phase :: phases => p ← parse_phase phase; parse_phases_from ({[p]} ∪ parsed) phases
  end.
Definition parse_phases (phases : list string) : result string (gset WasmPhase) :=
  parse_phases_from ∅ phases.

Definition parse_capability (capability : string) : result string WasmCapability :=
  let other := normalize capability in
  ok_or ("unsupported plugin capability '" +:+ other +:+ "'") (match_str capability_arms other).

Fixpoint parse_capabilities (capabilities : list string) : result string (list WasmCapability) :=
  match capabilities with
  | [] => Ok []
  | c :: cs => cap ← parse_capability c; caps ← parse_capabilities cs; Ok (cap :: caps)
  end.

Definition validate_plugin_schema (cfg : PluginConfig) : result string () :=
  if is_empty (trim (plugin_name cfg)) then Err "plugin name cannot be empty"
  else if is_empty (trim (plugin_module cfg)) then
    Err ("plugin '" +:+ plugin_name cfg +:+ "' module cannot be empty")
  else if negb (contract_version cfg =? PLUGIN_CONTRACT_VERSION)%Z then
    Err ("plugin '" +:+ plugin_name cfg +:+ "' contract version mismatch: expected "
         +:+ show_uint PLUGIN_CONTRACT_VERSION +:+ ", got " +:+ show_uint (contract_version cfg))
  else match plugin_phases cfg with
       | [] => Err ("plugin '" +:+ plugin_name cfg +:+ "' phases cannot be empty")
       | _ => Ok ()
       end.

(** ** The manager *)

(** [PluginManager] is the vector of its registered plugins. *)
Abbreviation PluginManager := (list GatewayPlugin) (only parsing).
Definition PluginManager_new : PluginManager := [].

Inductive lifecycle_event : Type :=
| Inited (name : string)
| TornDown (name : string).

Section manager.
Context (path_exists : string → bool) `{ContextJson}.

(** The check of [wasm_path] for a Wasm runtime. *)
Definition check_wasm_path (cfg : PluginConfig) (runtime : PluginRuntime) : result string () :=
  match runtime with
  | Native => Ok ()
  | Wasm =>
      match wasm_path cfg with
      | None => Err ("plugin '" +:+ plugin_name cfg +:+ "' runtime is wasm but wasm_path is missing")
      | Some path =>
          if negb (path_exists path) then
            Err ("plugin '" +:+ plugin_name cfg +:+ "' wasm_path does not exist: " +:+ path)
          else Ok ()
      end
  end.

Definition build_declared_plugin (cfg : PluginConfig) : result string DeclaredPlugin :=
  validate_plugin_schema cfg ≫= λ _,
  runtime ← parse_runtime (plugin_runtime cfg);
  phases ← parse_phases (plugin_phases cfg);
  capabilities ← parse_capabilities (plugin_capabilities cfg);
  check_wasm_path cfg runtime ≫= λ _,
  Ok {| dp_name := plugin_name cfg;
        dp_module := plugin_module cfg;
        dp_runtime := runtime;
        dp_wasm_path := wasm_path cfg;
        dp_phases := phases;
        dp_required_capabilities := capabilities;
        dp_host := sandboxed_for_plugin capabilities;
        dp_contract_version := contract_version cfg |}.

(** [register]: the new manager or an error, with the logged calls. *)
Definition register (manager : PluginManager) (plugin : GatewayPlugin)
    : result string PluginManager * list lifecycle_event :=
  if negb (gp_contract_version plugin =? PLUGIN_CONTRACT_VERSION)%Z then
    (Err ("plugin '" +:+ gp_name plugin +:+ "' contract version mismatch: expected "
          +:+ show_uint PLUGIN_CONTRACT_VERSION +:+ ", got "
          +:+ show_uint (gp_contract_version plugin)), [])
  else
    (match gp_init plugin with
     | Ok _ => Ok (manager ++ [plugin])
     | Err e => Err e
     end, [Inited (gp_name plugin)]).

(** [rollback_lifecycle]: every plugin is torn down, in order, whether or not
    an earlier teardown failed, and the manager is left empty. *)
Definition rollback_lifecycle (manager : PluginManager) : PluginManager * list lifecycle_event :=
  ([], (λ p, TornDown (gp_name p)) <$> manager).

(** [Drop]. *)
Definition drop_manager (manager : PluginManager) : list lifecycle_event :=
  (rollback_lifecycle manager).2.

(** The loop of [from_config].  Leaving it with an error drops the manager,
    after the explicit rollback too. *)
Fixpoint from_config_loop (configs : list PluginConfig) (manager : PluginManager)
    (seen : gset string) : result string PluginManager * list lifecycle_event :=
  match configs with
  | [] => (Ok manager, [])
  | cfg :: configs =>
      if bool_decide (plugin_name cfg ∈ seen) then
        (Err ("duplicate plugin name '" +:+ plugin_name cfg +:+ "'"), (let r := rollback_lifecycle manager in r.2 ++ drop_manager r.1))
      else
        match build_declared_plugin cfg with
        | Err e => (Err e, drop_manager manager)
        | Ok declared =>
            let r := register manager (declared_plugin declared) in
            match r.1 with
            | Err err =>
                (Err ("failed to register plugin '" +:+ plugin_name cfg +:+ "': " +:+ err),
                 r.2 ++ (let b := rollback_lifecycle manager in b.2 ++ drop_manager b.1))
            | Ok manager =>
                let rest := from_config_loop configs manager ({[plugin_name cfg]} ∪ seen) in
                (rest.1, r.2 ++ rest.2)
            end
        end
  end.

Definition from_config (configs : list PluginConfig)
    : result string PluginManager * list lifecycle_event :=
  from_config_loop configs PluginManager_new ∅.
End manager.

Fixpoint run_phase (plugins : PluginManager) (phase : WasmPhase) (ctx : PluginContext)
    : PluginResult :=
  match plugins with
  | [] => plugin_ok
  | plugin :: plugins =>
      if negb (gp_supports_phase plugin phase) then run_phase plugins phase ctx
      else
        let r := gp_execute plugin phase ctx in
        if negb (allowed r) then r else run_phase plugins phase ctx
  end.

Definition ORDERED_PHASES : list WasmPhase := [Access; HeaderFilter; BodyFilter; Log].

Fixpoint run_phases (plugins : PluginManager) (phases : list WasmPhase) (ctx : PluginContext)
    : PluginResult :=
  match phases with
  | [] => plugin_ok
  | phase :: phases =>
      let r := run_phase plugins phase ctx in
      if negb (allowed r) then r else run_phases plugins phases ctx
  end.

Definition run_request_pipeline (plugins : PluginManager) (ctx : PluginContext) : PluginResult :=
  run_phases plugins ORDERED_PHASES ctx.

(** ** Specification and lemmas *)

Lemma match_str_some {A} (arms : list (string * A)) s a :
  match_str arms s = Some a → (s, a) ∈ arms.
Proof.
  induction arms as [|[t b] arms IH]; simpl; [done|].
  case_bool_decide; [intros [= <-]; subst; apply list_elem_of_here|].
  intros. apply list_elem_of_further. auto.
Qed.

Lemma parse_phases_from_ok phases : ∀ parsed s,
  parse_phases_from parsed phases = Ok s ↔
  Forall (λ ph, is_ok (parse_phase ph) = true) phases ∧
  s = parsed ∪ list_to_set (omap (λ ph, match parse_phase ph with Ok p => Some p | Err _ => None end)
                                 phases).
Proof.
  induction phases as [|ph phases IH]; intros parsed s; simpl.
  { rewrite union_empty_r_L. split; [intros [= ->]; by split|by intros [_ ->]]. }
  rewrite Forall_cons. destruct (parse_phase ph) as [p|e]; simpl.
  - rewrite IH. rewrite (assoc_L (∪)), (comm_L (∪) {[p]} parsed). naive_solver.
  - split; [done|]. by intros [[? _] _].
Qed.

Lemma parse_capabilities_ok caps :
  (∃ l, parse_capabilities caps = Ok l) ↔ Forall (λ c, is_ok (parse_capability c) = true) caps.
Proof.
  induction caps as [|c caps IH]; simpl; [split; eauto|]. rewrite Forall_cons, <-IH.
  destruct (parse_capability c); simpl; [|split; [by intros [? ?]|by intros [? _]]].
  destruct (parse_capabilities caps); simpl; [split; eauto|].
  split; [by intros [? ?]|by intros [_ [? ?]]].
Qed.

Lemma check_capabilities_all host caps :
  (∀ c, c ∈ caps → c ∈ allowed_capabilities host) → check_capabilities host caps = Ok ().
Proof.
  induction caps as [|c caps IH]; intros H; simpl; [done|].
  rewrite bool_decide_eq_true_2 by (apply H, list_elem_of_here). simpl.
  apply IH. intros. by apply H, list_elem_of_further.
Qed.

(** What [from_config] requires of one declaration. *)
Record valid_plugin (path_exists : string → bool) (cfg : PluginConfig) : Prop := {
  vp_name : trim (plugin_name cfg) ≠ "";
  vp_module : trim (plugin_module cfg) ≠ "";
  vp_contract : contract_version cfg = PLUGIN_CONTRACT_VERSION;
  vp_phases : plugin_phases cfg ≠ [];
  vp_phase : Forall (λ ph, is_ok (parse_phase ph) = true) (plugin_phases cfg);
  vp_capability : Forall (λ c, is_ok (parse_capability c) = true) (plugin_capabilities cfg);
  vp_runtime : is_ok (parse_runtime (plugin_runtime cfg)) = true;
  vp_wasm : parse_runtime (plugin_runtime cfg) = Ok Wasm →
    ∃ path, wasm_path cfg = Some path ∧ path_exists path = true;
}.

Lemma validate_plugin_schema_ok cfg :
  validate_plugin_schema cfg = Ok () ↔
  trim (plugin_name cfg) ≠ "" ∧ trim (plugin_module cfg) ≠ "" ∧
  contract_version cfg = PLUGIN_CONTRACT_VERSION ∧ plugin_phases cfg ≠ [].
Proof.
  unfold validate_plugin_schema.
  destruct (trim (plugin_name cfg)); simpl; [split; [done|by intros [? _]]|].
  destruct (trim (plugin_module cfg)); simpl; [split; [done|by intros (_ & ? & _)]|].
  destruct (contract_version cfg =? _)%Z eqn:E; simpl; bool_to_Z.
  - destruct (plugin_phases cfg); [split; [done|by intros (_ & _ & _ & ?)]|]. by split.
  - split; [done|by intros (_ & _ & ? & _)].
Qed.

Section manager_lemmas.
Context (path_exists : string → bool) `{ContextJson}.

Lemma check_wasm_path_ok cfg runtime :
  check_wasm_path path_exists cfg runtime = Ok () ↔
  (runtime = Wasm → ∃ path, wasm_path cfg = Some path ∧ path_exists path = true).
Proof.
  unfold check_wasm_path. destruct runtime; [by split|].
  destruct (wasm_path cfg) as [path|]; [destruct (path_exists path) eqn:E|]; simpl;
    split; try done; eauto.
  - intros Hp. destruct (Hp eq_refl) as (? & [= <-] & ?). congruence.
  - intros Hp. by destruct (Hp eq_refl) as (? & ? & _).
Qed.

Lemma build_declared_plugin_ok cfg :
  is_ok (build_declared_plugin path_exists cfg) = true ↔ valid_plugin path_exists cfg.
Proof.
  unfold build_declared_plugin. split.
  - destruct (validate_plugin_schema cfg) as [[]|] eqn:Es; simpl; [|done].
    apply validate_plugin_schema_ok in Es as (Hn & Hm & Hv & Hp).
    destruct (parse_runtime _) as [r|] eqn:Er; simpl; [|done].
    destruct (parse_phases _) as [s|] eqn:Ep; simpl; [|done].
    apply parse_phases_from_ok in Ep as [Hph _].
    destruct (parse_capabilities _) as [caps|] eqn:Ec; simpl; [|done].
    destruct (check_wasm_path _ cfg r) as [[]|] eqn:Ew; simpl; [|done]. intros _.
    pose proof (proj1 (check_wasm_path_ok _ _) Ew) as Hw.
    split; try done; [apply parse_capabilities_ok; eauto|by rewrite Er|].
    rewrite Er. intros [= ->]. by apply Hw.
  - intros [Hn Hm Hv Hp Hph Hc Hr Hw].
    rewrite (proj2 (validate_plugin_schema_ok cfg)) by done. simpl.
    destruct (parse_runtime _) as [r|]; simpl; [|done].
    unfold parse_phases. erewrite (proj2 (parse_phases_from_ok _ _ _)) by done. simpl.
    apply parse_capabilities_ok in Hc as [caps ->]. simpl.
    rewrite (proj2 (check_wasm_path_ok cfg r)); [done|]. intros ->. auto.
Qed.

Lemma build_declared_plugin_spec cfg d :
  build_declared_plugin path_exists cfg = Ok d →
  dp_name d = plugin_name cfg ∧ dp_contract_version d = PLUGIN_CONTRACT_VERSION ∧
  parse_runtime (plugin_runtime cfg) = Ok (dp_runtime d) ∧
  parse_phases (plugin_phases cfg) = Ok (dp_phases d) ∧
  dp_host d = sandboxed_for_plugin (dp_required_capabilities d).
Proof.
  unfold build_declared_plugin.
  destruct (validate_plugin_schema cfg) as [[]|] eqn:Es; simpl; [|done].
  apply validate_plugin_schema_ok in Es as (_ & _ & Hv & _).
  destruct (parse_runtime _) as [r|]; simpl; [|done].
  destruct (parse_phases _) as [s|]; simpl; [|done].
  destruct (parse_capabilities _) as [caps|]; simpl; [|done].
  destruct (check_wasm_path _ cfg r) as [[]|]; simpl; [|done]. intros [= <-]. by simpl.
Qed.

Lemma register_declared manager d :
  dp_contract_version d = PLUGIN_CONTRACT_VERSION →
  register manager (declared_plugin d) =
    (Ok (manager ++ [declared_plugin d]), [Inited (dp_name d)]).
Proof. intros Hv. unfold register. simpl. by rewrite Hv. Qed.

(** The plugins a list of declarations builds. *)
Definition builds (cfg : PluginConfig) (p : GatewayPlugin) : Prop :=
  ∃ d, build_declared_plugin path_exists cfg = Ok d ∧ p = declared_plugin d.

Lemma from_config_loop_spec configs : ∀ manager seen,
  let r := from_config_loop path_exists configs manager seen in
  match r.1 with
  | Ok m =>
      NoDup (plugin_name <$> configs) ∧ Forall (λ c, plugin_name c ∉ seen) configs ∧
      Forall (valid_plugin path_exists) configs ∧
      (∃ new, m = manager ++ new ∧ Forall2 builds configs new) ∧
      r.2 = Inited ∘ plugin_name <$> configs
  | Err _ =>
      ¬ (NoDup (plugin_name <$> configs) ∧ Forall (λ c, plugin_name c ∉ seen) configs ∧
         Forall (valid_plugin path_exists) configs) ∧
      ∃ n, (n < length configs)%nat ∧
        r.2 = (Inited ∘ plugin_name <$> take n configs)
              ++ (TornDown ∘ gp_name <$> manager) ++ (TornDown ∘ plugin_name <$> take n configs)
  end.
Proof.
  induction configs as [|cfg configs IH]; intros manager seen; cbn [from_config_loop].
  { simpl. split; [constructor|]. split; [done|]. split; [done|]. split; [|done].
    exists []. rewrite app_nil_r. by split. }
  case_bool_decide as Hseen.
  { unfold drop_manager. simpl. split; [|exists 0; rewrite !app_nil_r; split; [lia|done]].
    intros (_ & Hf & _). apply Forall_cons in Hf as [? _]. done. }
  destruct (build_declared_plugin path_exists cfg) as [d|e] eqn:Eb.
  2:{ unfold drop_manager. simpl. split; [|exists 0; rewrite app_nil_r; split; [lia|done]].
    intros (_ & _ & Hv). apply Forall_cons in Hv as [Hv%build_declared_plugin_ok _].
    by rewrite Eb in Hv. }
  destruct (build_declared_plugin_spec cfg d Eb) as (Hname & Hver & _).
  rewrite register_declared by done. cbn [fst snd].
  specialize (IH (manager ++ [declared_plugin d]) ({[plugin_name cfg]} ∪ seen)).
  set (r := from_config_loop _ _ _ _) in *. cbn [fst snd]. rewrite Hname.
  destruct r as [[m|e] log]; simpl in *.
  - destruct IH as (Hnd & Hns & Hv & (new & -> & Hnew) & ->).
    split; [|split; [|split; [|split; [|done]]]].
    + constructor; [|done]. intros (c & Hc & Hin)%list_elem_of_fmap.
      rewrite Forall_forall in Hns. specialize (Hns c Hin). set_solver.
    + constructor; [done|]. eapply Forall_impl; [exact Hns|]. simpl. set_solver.
    + constructor; [|done]. apply build_declared_plugin_ok. by rewrite Eb.
    + exists (declared_plugin d :: new). rewrite <-(assoc_L (++)). split; [done|].
      constructor; [|done]. by exists d.
  - destruct IH as (Hn & n & Hlt & ->). split.
    + intros (Hnd & Hns & Hv). apply Hn.
      apply NoDup_cons in Hnd as [Hnin Hnd]. apply Forall_cons in Hns as [_ Hns].
      apply Forall_cons in Hv as [_ Hv]. split; [done|]. split; [|done].
      rewrite Forall_forall in Hns |- *. intros c Hc. specialize (Hns c Hc).
      assert (plugin_name c ≠ plugin_name cfg); [|set_solver].
      intros Heq. apply Hnin. rewrite <-Heq. by apply list_elem_of_fmap_2.
    + exists (S n). split; [lia|]. simpl. rewrite fmap_app, <-(assoc_L (++)). simpl.
      by rewrite Hname.
Qed.
End manager_lemmas.

(** The calls of a pipeline in order, and its reference semantics: the result
    of the first call that a plugin supports and denies. *)
Definition denies (ctx : PluginContext) (call : WasmPhase * GatewayPlugin) : bool :=
  gp_supports_phase call.2 call.1 && negb (allowed (gp_execute call.2 call.1 ctx)).

Definition first_denial (calls : list (WasmPhase * GatewayPlugin)) (ctx : PluginContext)
    : PluginResult :=
  match find_first (denies ctx) calls with
  | Some call => gp_execute call.2 call.1 ctx
  | None => plugin_ok
  end.

Lemma run_phase_denial plugins phase ctx :
  run_phase plugins phase ctx = first_denial ((λ p, (phase, p)) <$> plugins) ctx.
Proof.
  unfold first_denial. induction plugins as [|p plugins IH]; simpl; [done|].
  unfold denies at 1. simpl. destruct (gp_supports_phase p phase); simpl; [|by rewrite IH].
  destruct (allowed (gp_execute p phase ctx)); simpl; [by rewrite IH|done].
Qed.

Lemma find_first_app {A} (f : A → bool) l k :
  find_first f (l ++ k) = match find_first f l with Some x => Some x | None => find_first f k end.
Proof. induction l as [|x l IH]; simpl; [done|]. by destruct (f x). Qed.

Lemma first_denial_denied calls ctx :
  match find_first (denies ctx) calls with
  | Some call => allowed (gp_execute call.2 call.1 ctx) = false
  | None => True
  end.
Proof.
  induction calls as [|c calls IH]; simpl; [done|].
  destruct (denies ctx c) eqn:E; [|done].
  unfold denies in E. by apply andb_true_iff in E as [_ ?%negb_true_iff].
Qed.

Lemma first_denial_app calls calls' ctx :
  first_denial (calls ++ calls') ctx =
    let r := first_denial calls ctx in
    if negb (allowed r) then r else first_denial calls' ctx.
Proof.
  unfold first_denial. rewrite find_first_app. pose proof (first_denial_denied calls ctx) as H.
  destruct (find_first (denies ctx) calls); simpl; [by rewrite H|done].
Qed.

(** A concrete serialisation and declarations for witnesses: the context's
    bytes, without JSON's escapes. *)
Definition plain_context_json : ContextJson := λ ctx,
  Ok ((λ a, Z.of_N (N_of_ascii a)) <$>
      String.list_ascii_of_string ("{" +:+ plugin_route ctx +:+ ":" +:+ plugin_path ctx +:+ "}")).
Definition demo_plugin (name runtime : string) : PluginConfig := {|
  plugin_name := name; plugin_module := "m"; wasm_path := Some "/p.wasm";
  plugin_runtime := runtime; contract_version := 1; plugin_phases := [" Access"; "log"];
  plugin_capabilities := ["read_headers"];
|}.

(** ** Properties *)

Lemma from_config_spec path_exists `{ContextJson} configs :
  match from_config path_exists configs with
  | (Ok m, log) =>
      NoDup (plugin_name <$> configs) ∧ Forall (valid_plugin path_exists) configs ∧
      Forall2 (builds path_exists) configs m ∧
      log = Inited ∘ plugin_name <$> configs
  | (Err _, log) =>
      ¬ (NoDup (plugin_name <$> configs) ∧ Forall (valid_plugin path_exists) configs) ∧
      ∃ n, (n < length configs)%nat ∧
        log = (Inited ∘ plugin_name <$> take n configs)
              ++ (TornDown ∘ plugin_name <$> take n configs)
  end.
Proof.
  pose proof (from_config_loop_spec path_exists configs [] ∅) as H0. unfold from_config, PluginManager_new.
  destruct (from_config_loop path_exists configs [] ∅) as [[m|e] log]; simpl in *.
  - destruct H0 as (Hnd & _ & Hv & (new & -> & Hnew) & ->). done.
  - destruct H0 as [Hn (n & Hlt & ->)]. split; [|by exists n].
    intros [Hnd Hv]. apply Hn. split; [done|]. split; [|done].
    apply Forall_true. intros. apply not_elem_of_empty.
Qed.

(** C24: [from_config] accepts exactly the valid lists of declarations and
    keeps the lifecycle balanced.  It succeeds if and only if the names are
    pairwise distinct and every declaration is valid (non-blank name and
    module, contract version 1, known runtime, phases and capabilities, at
    least one phase, an existing file for a Wasm plugin).  The manager then
    holds one plugin per declaration, in order, each initialised once.  If it
    fails, a proper prefix of the declarations was initialised, and each of
    these plugins is torn down exactly once, in order. *)
Theorem from_config_lifecycle path_exists `{ContextJson} configs :
  match from_config path_exists configs with
  | (Ok m, log) =>
      NoDup (plugin_name <$> configs) ∧ Forall (valid_plugin path_exists) configs ∧
      Forall2 (builds path_exists) configs m ∧
      log = Inited ∘ plugin_name <$> configs
  | (Err _, log) =>
      ¬ (NoDup (plugin_name <$> configs) ∧ Forall (valid_plugin path_exists) configs) ∧
      ∃ n, (n < length configs)%nat ∧
        log = (Inited ∘ plugin_name <$> take n configs)
              ++ (TornDown ∘ plugin_name <$> take n configs)
  end.
Proof. apply from_config_spec. Qed.

(** A phase run and the request pipeline are first-denial searches.
    [run_phase] gives the result of the first plugin, in order of
    declaration, that supports the phase and denies, and a plain permission
    if there is none; [run_request_pipeline] does the same over the calls of
    the phases Access, HeaderFilter, BodyFilter and Log, in this order, each
    over all plugins; and no later call is made. *)
Theorem pipeline_first_denial plugins phase ctx :
  run_phase plugins phase ctx = first_denial ((λ p, (phase, p)) <$> plugins) ctx ∧
  run_request_pipeline plugins ctx =
    first_denial (ORDERED_PHASES ≫= λ ph, (λ p, (ph, p)) <$> plugins) ctx.
Proof.
  split; [apply run_phase_denial|]. unfold run_request_pipeline.
  induction ORDERED_PHASES as [|ph phases IH]; [done|].
  cbn [run_phases]. rewrite bind_cons, first_denial_app, <-run_phase_denial, IH. done.
Qed.

(** The sandbox.  A plugin built from a declaration runs the phases that the
    declaration lists, in any accepted spelling; it denies one exactly when its
    runtime is Wasm and the serialised context exceeds 64 KiB.  The capability
    check never fails, because the sandbox of a plugin allows exactly the
    capabilities it declares. *)
Lemma declared_plugin_execute path_exists `{ContextJson} cfg d phase ctx :
  build_declared_plugin path_exists cfg = Ok d →
  let size := Z.of_nat (length match context_to_vec ctx with Ok v => v | Err _ => [] end) in
  (gp_supports_phase (declared_plugin d) phase = true ↔
     ∃ s, s ∈ plugin_phases cfg ∧ (normalize s, phase) ∈ phase_arms) ∧
  gp_execute (declared_plugin d) phase ctx =
    if gp_supports_phase (declared_plugin d) phase
       && bool_decide (normalize (plugin_runtime cfg) = "wasm") && (65536 <? size)%Z
    then {| allowed := false;
            reason := Some ("wasm payload exceeds sandbox limit: " +:+ show_uint size
                            +:+ " > 65536") |}
    else plugin_ok.
Proof.
  intros Hd size. apply build_declared_plugin_spec in Hd as (_ & _ & Hr & Hph & Hh). split.
  - simpl. rewrite bool_decide_eq_true. unfold parse_phases in Hph.
    apply parse_phases_from_ok in Hph as [_ ->].
    rewrite union_empty_l_L, elem_of_list_to_set, list_elem_of_omap.
    split; intros (s & Hs & Hm); exists s; (split; [done|]); unfold parse_phase in *.
    + destruct (match_str phase_arms (normalize s)) as [p|] eqn:E; simpl in Hm; [|done].
      injection Hm as ->. by apply match_str_some.
    + unfold phase_arms in Hm. rewrite !elem_of_cons, elem_of_nil in Hm.
      repeat destruct Hm as [Hm|Hm]; try done; injection Hm as -> ->; done.
  - assert (bool_decide (normalize (plugin_runtime cfg) = "wasm")
            = match dp_runtime d with Wasm => true | Native => false end) as ->.
    { unfold parse_runtime in Hr. case_bool_decide as Hn.
      - rewrite Hn in Hr. simpl in Hr. by injection Hr as <-.
      - destruct (match_str runtime_arms _) as [r|] eqn:E; simpl in Hr; [|done].
        injection Hr as ->. apply match_str_some in E. unfold runtime_arms in E.
        rewrite !elem_of_cons, elem_of_nil in E. destruct (dp_runtime d); naive_solver. }
    simpl. unfold declared_execute. destruct (bool_decide (phase ∈ dp_phases d)); simpl; [|done].
    destruct (dp_runtime d); simpl; [done|]. unfold invoke. rewrite Hh.
    cbn [call_payload WasmCall_new max_payload_bytes sandboxed_for_plugin
      call_required_capabilities]. fold size.
    change MAX_WASM_PAYLOAD_BYTES with 65536%Z. destruct (65536 <? size)%Z; [done|].
    rewrite check_capabilities_all; [done|]. intros c Hc. simpl. by apply elem_of_list_to_set.
Qed.
