(* ===== verification/Transform.v ===== *)
(** * Request classification and transformation (helpers of main.rs)

    The pure helpers of the proxy handler: the protocol of a request, the
    canary split, the path rewrite and the header transforms.  [HeaderMap] is
    the interface of [Interfaces]; a [HashMap] is iterated in an unspecified
    order, which is a parameter ([MapOrder]). *)

From S2P Require Export Config Plugin.

#[local] Open Scope string_scope.
#[local] Open Scope list_scope.

(** [http::Version]. *)
Inductive Version : Type := HTTP_09 | HTTP_10 | HTTP_11 | HTTP_2 | HTTP_3.

#[export] Instance Version_eq_dec : EqDecision Version.
Proof. solve_decision. Defined.

(** The iteration order of a [HashMap]: some order of its entries. *)
Class MapOrder := map_entries : gmap string string → list (string * string).
Class MapOrderLaws (O : MapOrder) : Prop :=
  map_entries_perm : ∀ m, map_entries m ≡ₚ map_to_list m.

(** [collect] into a [HashMap]: a later pair replaces an earlier one. *)
Definition collect_map (l : list (string * string)) : gmap string string :=
  foldl (λ m kv, <[kv.1 := kv.2]> m) ∅ l.

Lemma elem_of_collect_map l k v :
  collect_map l !! k = Some v → (k, v) ∈ l.
Proof.
  unfold collect_map. induction l as [|[k' v'] l IH] using rev_ind; [done|].
  rewrite foldl_app. simpl. intros [[-> ->]|[_ H]]%lookup_insert_Some; set_solver.
Qed.

(** The entries of a map in any order collect to the map. *)
Lemma collect_map_entries l m : l ≡ₚ map_to_list m → collect_map l = m.
Proof.
  intros Hl. unfold collect_map.
  assert (∀ l (m : gmap string string), NoDup (l.*1) →
    foldl (λ m kv, <[kv.1 := kv.2]> m) m l = list_to_map l ∪ m) as Hfold.
  { clear. induction l as [|[k v] l IH]; intros m; simpl; [by rewrite (left_id_L ∅ (∪))|].
    intros [Hk Hnd]%NoDup_cons. rewrite IH by done.
    rewrite <-insert_union_r, insert_union_l; [done|]. by apply not_elem_of_list_to_map_1. }
  assert (NoDup (l.*1)) as Hnd by (rewrite Hl; apply NoDup_fst_map_to_list).
  rewrite Hfold, (right_id_L ∅ (∪)) by done.
  rewrite (list_to_map_proper _ _ Hnd Hl). apply list_to_map_to_list.
Qed.

(** ** Protocol and canary split *)

Definition media_type (content_type : string) : string :=
  to_ascii_lowercase (trim
    match split_once ";"%char content_type with
    | Some (media_type, _) => media_type
    | None => content_type
    end).

Definition request_protocol `{HeaderMapOps} (version : Version) (headers : HeaderMap) : Protocol :=
  if bool_decide (version = HTTP_2) then
    match v ← hm_get_str headers "content-type"; value_to_str v with
    | Some content_type =>
        let media_type := media_type content_type in
        if bool_decide (media_type = "application/grpc")
           || starts_with media_type "application/grpc+"
        then Grpc else Http2
    | None => Http2
    end
  else Http1.

Definition deterministic_percentage_bucket `{Hasher} (route_name client_key : string)
    (request_count : Z) : Z :=
  hash_finish [HashStr route_name; HashStr client_key; HashUsize request_count] `mod` 100.

(** The header that forces the canary. *)
Definition force_canary `{HeaderMapOps} (split : TrafficSplitConfig) (headers : HeaderMap) : bool :=
  match hdr ← canary_header split;
        v ← hm_get_str headers (canary_header_name hdr);
        s ← value_to_str v;
        Some (bool_decide (s = canary_header_value hdr)) with
  | Some b => b
  | None => false
  end.

Definition select_upstream_name `{HeaderMapOps, Hasher} (route : Route) (headers : HeaderMap)
    (client_key : string) (request_count : Z) : string :=
  let split := traffic_split route in
  match canary_upstream split with
  | None => route_upstream route
  | Some canary =>
      if force_canary split headers then canary
      else if (canary_percentage split =? 0)%Z then route_upstream route
      else
        let bucket :=
          deterministic_percentage_bucket (route_name route) client_key request_count in
        if (bucket <? canary_percentage split)%Z then canary else route_upstream route
  end.

(** ** Path rewrite *)

Definition rewrite_path_and_query (route : Route) (path path_and_query : string)
    : outcome string :=
  match path_prefix_rewrite (transform_request (transform route)) with
  | None => Done path_and_query
  | Some replacement =>
      if negb (starts_with path (path_prefix route)) then Done path_and_query
      else
        suffix ← slice_from (String.length (path_prefix route)) path_and_query;
        Done (replacement +:+ suffix)
  end.

(** ** Headers *)

Definition hop_by_hop_headers : list string :=
  ["connection"; "keep-alive"; "proxy-authenticate"; "proxy-authorization"; "te"; "trailer";
   "transfer-encoding"; "upgrade"].

Definition is_hop_by_hop_header (header_name : string) : bool :=
  bool_decide (to_ascii_lowercase header_name ∈ hop_by_hop_headers).

Section headers.
Context `{HeaderMapOps}.

Definition is_forwardable (name : HeaderName) : bool :=
  negb (is_hop_by_hop_header (name_as_str name) || eq_ignore_ascii_case (name_as_str name) "host").

Definition forwardable_headers (headers : HeaderMap) : list (HeaderName * HeaderValue) :=
  filterb (λ nv, is_forwardable nv.1) (hm_iter headers).

(** The name and value of an entry when both are valid. *)
Definition parse_header (entry : string * string) : option (HeaderName * HeaderValue) :=
  name ← name_from_bytes entry.1;
  value ← value_from_str entry.2;
  Some (name, value).

Definition add_header (headers : HeaderMap) (entry : string * string) : HeaderMap :=
  match parse_header entry with
  | Some (name, value) =>
      if hm_contains_key headers name then headers else hm_append headers name value
  | None => headers
  end.

Definition set_header (headers : HeaderMap) (entry : string * string) : HeaderMap :=
  match parse_header entry with
  | Some (name, value) => hm_insert headers name value
  | None => headers
  end.

Definition apply_header_transform (headers : HeaderMap) (add_headers set_headers : list (string * string))
    (remove_headers : list string) : HeaderMap :=
  let headers := foldl hm_remove_str headers remove_headers in
  let headers := foldl add_header headers add_headers in
  foldl set_header headers set_headers.

(** Inserting pairs one after the other into a new map. *)
Definition insert_all (l : list (HeaderName * HeaderValue)) : HeaderMap :=
  foldl (λ m nv, hm_insert m nv.1 nv.2) hm_new l.

(** [into_iter] with the entries that carry a name: the first value of each
    name. *)
Fixpoint first_values (seen : list HeaderName) (l : list (HeaderName * HeaderValue))
    : list (HeaderName * HeaderValue) :=
  match l with
  | [] => []
  | nv :: l =>
      if bool_decide (nv.1 ∈ seen) then first_values seen l
      else nv :: first_values (nv.1 :: seen) l
  end.

Context `{MapOrder}.

Definition transform_request_headers (headers : HeaderMap) (t : RequestTransform)
    : list (HeaderName * HeaderValue) :=
  let transformed := insert_all (forwardable_headers headers) in
  let transformed :=
    apply_header_transform transformed (map_entries (req_add_headers t))
      (map_entries (req_set_headers t)) (req_remove_headers t) in
  first_values [] (hm_iter transformed).

Definition transform_response_headers (headers : HeaderMap) (t : ResponseTransform) : HeaderMap :=
  apply_header_transform (insert_all (hm_iter headers)) (map_entries (resp_add_headers t))
    (map_entries (resp_set_headers t)) (resp_remove_headers t).
End headers.

(** ** Specification of the header transforms *)

Definition option_to_list {A} (o : option A) : list A :=
  match o with Some a => [a] | None => [] end.

Section header_spec.
Context `{HeaderMapOps}.

(** The values configured for [n], in iteration order; whether [n] is removed. *)
Definition configured (n : HeaderName) (entries : list (string * string)) : list HeaderValue :=
  values_of n (omap parse_header entries).
Definition removed (n : HeaderName) (remove_headers : list string) : bool :=
  existsb (λ s, bool_decide (name_from_bytes s = Some n)) remove_headers.

(** What a transform makes of the values of a name: a configured set value
    wins; otherwise removed values are gone, and an added value counts only
    when no value is left. *)
Definition transformed_values (values adds sets : list HeaderValue) (is_removed : bool)
    : list HeaderValue :=
  match last sets with
  | Some v => [v]
  | None =>
      match (if is_removed then [] else values) with
      | [] => option_to_list (head adds)
      | vs => vs
      end
  end.

Context {HL : HeaderMapLaws _}.

Lemma removes_get_all removes n : ∀ h,
  hm_get_all (foldl hm_remove_str h removes) n
  = if removed n removes then [] else hm_get_all h n.
Proof.
  induction removes as [|s removes IH]; intros h; simpl; [done|]. rewrite IH.
  unfold removed. simpl. fold (removed n removes). unfold hm_remove_str.
  destruct (name_from_bytes s) as [m|]; [|by rewrite bool_decide_eq_false_2].
  rewrite get_all_remove. case_decide as Hm.
  - subst. rewrite bool_decide_eq_true_2 by done. simpl. by destruct (removed n removes).
  - rewrite bool_decide_eq_false_2 by congruence. done.
Qed.

Lemma add_header_get_all h e n :
  hm_get_all (add_header h e) n =
    match hm_get_all h n with [] => option_to_list (head (configured n [e])) | vs => vs end.
Proof.
  unfold add_header, configured, values_of. simpl. destruct (parse_header e) as [[m v]|]; simpl.
  - rewrite filter_cons. simpl. unfold hm_contains_key.
    destruct (hm_get_all h m) eqn:Em; simpl.
    + rewrite get_all_append. case_decide as Hm; [subst; by rewrite Em|].
      by destruct (hm_get_all h n).
    + case_decide as Hm; [subst; by rewrite Em|]. by destruct (hm_get_all h n).
  - by destruct (hm_get_all h n).
Qed.

Lemma configured_app n l k : configured n (l ++ k) = configured n l ++ configured n k.
Proof. unfold configured, values_of. by rewrite omap_app, filter_app, fmap_app. Qed.

Lemma adds_get_all adds n : ∀ h,
  hm_get_all (foldl add_header h adds) n =
    match hm_get_all h n with [] => option_to_list (head (configured n adds)) | vs => vs end.
Proof.
  induction adds as [|e adds IH]; intros h; cbn [foldl].
  { unfold configured, values_of. simpl. by destruct (hm_get_all h n). }
  rewrite IH, add_header_get_all. change (e :: adds) with ([e] ++ adds).
  rewrite configured_app. destruct (hm_get_all h n); [|done].
  by destruct (configured n [e]).
Qed.

Lemma sets_get_all sets n : ∀ h,
  hm_get_all (foldl set_header h sets) n =
    match last (configured n sets) with Some v => [v] | None => hm_get_all h n end.
Proof.
  induction sets as [|e sets IH] using rev_ind; intros h; [done|].
  rewrite foldl_app. cbn [foldl]. rewrite configured_app, last_app. unfold set_header.
  unfold configured at 1, values_of. simpl. destruct (parse_header e) as [[m v]|]; simpl; [|apply IH].
  rewrite filter_cons. simpl. rewrite get_all_insert. case_decide; [done|]. simpl. apply IH.
Qed.

Lemma apply_header_transform_get_all h adds sets removes n :
  hm_get_all (apply_header_transform h adds sets removes) n =
    transformed_values (hm_get_all h n) (configured n adds) (configured n sets) (removed n removes).
Proof.
  unfold apply_header_transform, transformed_values.
  rewrite sets_get_all, adds_get_all, removes_get_all. done.
Qed.

Lemma insert_all_get_all l n : hm_get_all (insert_all l) n = option_to_list (last (values_of n l)).
Proof.
  unfold insert_all. induction l as [|[m v] l IH] using rev_ind.
  { simpl. by rewrite get_all_new. }
  rewrite foldl_app. simpl. rewrite get_all_insert, IH. unfold values_of.
  rewrite filter_app, fmap_app, last_app, filter_cons. simpl. by case_decide.
Qed.

Lemma first_values_values l n : ∀ seen,
  values_of n (first_values seen l) = if bool_decide (n ∈ seen) then [] else take 1 (values_of n l).
Proof.
  induction l as [|[m v] l IH]; intros seen; simpl; [by case_bool_decide|].
  unfold values_of in *. rewrite filter_cons. simpl.
  destruct (bool_decide (m ∈ seen)) eqn:Em; bool_to_Z.
  - rewrite IH. case_bool_decide; [done|]. rewrite decide_False by congruence. done.
  - rewrite filter_cons. simpl. case_decide as Hm.
    + subst. rewrite fmap_cons, IH. rewrite bool_decide_eq_true_2 by left.
      by rewrite bool_decide_eq_false_2.
    + rewrite IH. destruct (decide (n ∈ seen)).
      * by rewrite !bool_decide_eq_true_2 by (done || by right).
      * rewrite !bool_decide_eq_false_2; [done|done|].
        rewrite not_elem_of_cons. by split.
Qed.

Lemma values_of_forwardable n headers :
  values_of n (forwardable_headers headers) =
    if is_forwardable n then values_of n (hm_iter headers) else [].
Proof.
  unfold forwardable_headers, values_of. induction (hm_iter headers) as [|[m v] l IH].
  { by case_match. }
  rewrite filterb_cons, filter_cons. simpl. destruct (decide (m = n)) as [<-|Hne].
  - destruct (is_forwardable m); [|done]. rewrite filter_cons_True by done.
    by rewrite !fmap_cons, IH.
  - destruct (is_forwardable m); [|done]. by rewrite filter_cons_False.
Qed.

Lemma transformed_values_take values adds sets r :
  (length values ≤ 1)%nat → take 1 (transformed_values values adds sets r)
  = transformed_values values adds sets r.
Proof.
  intros Hl. apply take_ge. unfold transformed_values. destruct (last sets); simpl; [lia|].
  assert (length (if r then [] else values) ≤ 1)%nat by (destruct r; simpl; lia).
  destruct (if r then [] else values); simpl in *; [|lia]. destruct (head adds); simpl; lia.
Qed.

(** Two iteration orders configure the same values when no two entries denote
    the same header name. *)
Lemma configured_perm n l l' :
  l ≡ₚ l' → (length (configured n l) ≤ 1)%nat → configured n l = configured n l'.
Proof.
  intros Hp Hl. assert (configured n l ≡ₚ configured n l') as Hc.
  { unfold configured, values_of. by rewrite Hp. }
  pose proof (Permutation_length Hc) as Hlen.
  destruct (configured n l) as [|v [|? ?]]; simpl in *; [|symmetry|lia].
  - by apply Permutation_nil in Hc.
  - by apply Permutation_length_1_inv.
Qed.
End header_spec.

(** A map has no two keys that denote the same header. *)
Definition distinct_headers `{HeaderMapOps} (m : gmap string string) : Prop :=
  ∀ k k' v v' n, m !! k = Some v → m !! k' = Some v' →
    name_from_bytes k = Some n → name_from_bytes k' = Some n → k = k'.

Lemma configured_distinct `{HeaderMapOps} (m : gmap string string) n :
  distinct_headers m → (length (configured n (map_to_list m)) ≤ 1)%nat.
Proof.
  intros Hd. unfold configured, values_of. rewrite length_fmap.
  assert (∀ l : list (string * string), NoDup l.*1 →
    (∀ k v, (k, v) ∈ l → m !! k = Some v) →
    (length (filter (λ nv, nv.1 = n) (omap parse_header l)) ≤ 1)%nat) as Hgen.
  { induction l as [|[k v] l IH]; intros Hnd Hin; simpl; [lia|].
    apply NoDup_cons in Hnd as [Hk Hnd].
    specialize (IH Hnd ltac:(intros; apply Hin; by right)).
    destruct (parse_header (k, v)) as [[n' v']|] eqn:Ep; [|done].
    rewrite filter_cons. simpl. case_decide as Hn; [|done]. subst n'. simpl.
    rewrite (elem_of_nil_inv (filter _ _)); [simpl; lia|].
    intros [n' w] [Hn' (e & He & Hpe)%list_elem_of_omap]%list_elem_of_filter. simpl in Hn'. subst n'.
    destruct e as [k' v2]. unfold parse_header in *. simpl in *.
    destruct (name_from_bytes k) eqn:E1; simpl in *; [|done].
    destruct (name_from_bytes k') eqn:E2; simpl in *; [|done].
    destruct (value_from_str v); simpl in *; [|done].
    destruct (value_from_str v2); simpl in *; [|done]. simplify_eq.
    assert (k = k') as <- by (eapply Hd; [apply Hin; left|apply Hin; by right|done..]).
    apply Hk. apply (list_elem_of_fmap_2 fst) in He. done. }
  apply Hgen; [apply NoDup_fst_map_to_list|]. intros k v. by rewrite elem_of_map_to_list.
Qed.

(** Iteration in the order of [map_to_list], for witnesses. *)
Definition sorted_map_order : MapOrder := map_to_list.

Lemma sorted_map_order_laws : MapOrderLaws sorted_map_order.
Proof. by intros m. Qed.

Definition header_named (s : string) (Hs : s ≠ "") : @HeaderName list_header_map :=
  to_ascii_lowercase s ↾ lower_name_ok s Hs.
Lemma nonempty_string a s : String a s ≠ "".
Proof. done. Qed.
Definition hdr_connection := header_named "Connection" (nonempty_string _ _).
Definition hdr_cookie := header_named "Set-Cookie" (nonempty_string _ _).
Definition hdr_a := header_named "x-a" (nonempty_string _ _).
Definition hdr_b := header_named "x-b" (nonempty_string _ _).

(** ** Properties *)

(** C38: what the upstream receives.  For every header name, the request sent
    upstream carries the transform of at most one value: the last value the
    client sent, or none when the name is hop-by-hop or [host]; a value of
    the configured set list replaces it, removal drops it, and an added value
    counts only when none is left.  So a hop-by-hop header is sent only if
    the configuration adds or sets it. *)
Theorem request_headers_spec `{O : HeaderMapOps, !HeaderMapLaws O, MapOrder} headers t n :
  values_of n (transform_request_headers headers t) =
    transformed_values
      (if is_forwardable n then option_to_list (last (hm_get_all headers n)) else [])
      (configured n (map_entries (req_add_headers t)))
      (configured n (map_entries (req_set_headers t)))
      (removed n (req_remove_headers t)) ∧
  (length (values_of n (transform_request_headers headers t)) ≤ 1)%nat.
Proof.
  unfold transform_request_headers. rewrite first_values_values.
  rewrite bool_decide_eq_false_2 by apply not_elem_of_nil.
  rewrite <-get_all_iter, apply_header_transform_get_all, insert_all_get_all.
  rewrite values_of_forwardable, <-get_all_iter. split; [|rewrite length_take; lia].
  assert (option_to_list (last (if is_forwardable n then hm_get_all headers n else []))
    = if is_forwardable n then option_to_list (last (hm_get_all headers n)) else []) as ->
    by by destruct (is_forwardable n).
  apply transformed_values_take. destruct (is_forwardable n); [|simpl; lia].
  destruct (last _); simpl; lia.
Qed.

Lemma request_headers_spec_witness :
  values_of hdr_connection (@transform_request_headers list_header_map sorted_map_order
    [(hdr_connection, "close"); (hdr_a, "1")] RequestTransform_default) = [].
Proof.
  etransitivity.
  - apply (@request_headers_spec list_header_map list_header_map_laws sorted_map_order).
  - vm_compute. reflexivity.
Defined.

(** What the client receives.  For every header name the transformed
    response headers carry the transform of the last value of the upstream's
    response: repeated headers (such as several [set-cookie] lines) are
    reduced to their last value. *)
Theorem response_headers_spec `{O : HeaderMapOps, !HeaderMapLaws O, MapOrder} headers t n :
  hm_get_all (transform_response_headers headers t) n =
    transformed_values (option_to_list (last (hm_get_all headers n)))
      (configured n (map_entries (resp_add_headers t)))
      (configured n (map_entries (resp_set_headers t)))
      (removed n (resp_remove_headers t)) ∧
  (t = ResponseTransform_default → map_entries ∅ = [] →
   hm_get_all (transform_response_headers headers t) n
     = option_to_list (last (hm_get_all headers n))).
Proof.
  unfold transform_response_headers.
  rewrite apply_header_transform_get_all, insert_all_get_all, <-get_all_iter.
  split; [done|]. intros -> Hmap. simpl. rewrite Hmap. unfold transformed_values. simpl.
  by destruct (last _).
Qed.

Lemma response_headers_spec_witness :
  @hm_get_all list_header_map (@transform_response_headers list_header_map sorted_map_order
    [(hdr_cookie, "a=1"); (hdr_cookie, "b=2")] ResponseTransform_default) hdr_cookie = ["b=2"].
Proof.
  etransitivity.
  - apply (proj2 (@response_headers_spec list_header_map list_header_map_laws sorted_map_order
      [(hdr_cookie, "a=1"); (hdr_cookie, "b=2")] ResponseTransform_default hdr_cookie)); reflexivity.
  - vm_compute. reflexivity.
Defined.

(** The transforms do not depend on the hash maps' iteration order, as
    long as no two configured keys of a map denote the same header name (as
    two spellings of one name do): any two orders give the same values for
    every name, for requests and for responses. *)
Theorem header_order_independent `{O : HeaderMapOps, !HeaderMapLaws O} (M1 M2 : MapOrder)
    (req : RequestTransform) (resp : ResponseTransform) headers n :
  MapOrderLaws M1 → MapOrderLaws M2 →
  distinct_headers (req_add_headers req) → distinct_headers (req_set_headers req) →
  distinct_headers (resp_add_headers resp) → distinct_headers (resp_set_headers resp) →
  values_of n (@transform_request_headers O M1 headers req)
    = values_of n (@transform_request_headers O M2 headers req) ∧
  hm_get_all (@transform_response_headers O M1 headers resp) n
    = hm_get_all (@transform_response_headers O M2 headers resp) n.
Proof.
  intros H1 H2 Ha Hs Ha' Hs'.
  assert (∀ m, distinct_headers m →
    configured n (@map_entries M1 m) = configured n (@map_entries M2 m)) as Hconf.
  { intros m Hm. pose proof (configured_distinct m n Hm) as Hlen.
    pose proof (configured_perm n _ _ (symmetry (@map_entries_perm M1 H1 m)) Hlen) as E1.
    pose proof (configured_perm n _ _ (symmetry (@map_entries_perm M2 H2 m)) Hlen) as E2.
    congruence. }
  unfold transform_request_headers, transform_response_headers.
  rewrite !first_values_values, <-!get_all_iter, !apply_header_transform_get_all.
  by rewrite !Hconf.
Qed.

Definition demo_additions : gmap string string := {["x-a" := "1"; "x-b" := "2"]}.

Lemma demo_additions_distinct : @distinct_headers list_header_map demo_additions.
Proof.
  intros k k' v v' n Hk Hk' Hn Hn'. unfold demo_additions in *.
  rewrite lookup_insert_Some, lookup_singleton_Some in Hk, Hk'.
  destruct Hk as [[<- _]|[_ [<- _]]], Hk' as [[<- _]|[_ [<- _]]];
    try reflexivity;
    apply (as_str_from_bytes (HeaderMapLaws := list_header_map_laws)) in Hn, Hn';
    rewrite Hn in Hn'; discriminate Hn'.
Qed.

Lemma header_order_independent_witness :
  @hm_get_all list_header_map (@transform_response_headers list_header_map
    (λ m, reverse (map_to_list m)) []
    {| resp_add_headers := demo_additions; resp_set_headers := ∅; resp_remove_headers := [];
       resp_body_replace := None |}) hdr_b = ["2"].
Proof.
  etransitivity.
  - apply (@header_order_independent list_header_map list_header_map_laws
      (λ m, reverse (map_to_list m)) sorted_map_order RequestTransform_default
      {| resp_add_headers := demo_additions; resp_set_headers := ∅; resp_remove_headers := [];
         resp_body_replace := None |} [] hdr_b).
    + intros m. apply reverse_Permutation.
    + exact sorted_map_order_laws.
    + intros ? ? ? ? ? ?. discriminate.
    + intros ? ? ? ? ? ?. discriminate.
    + exact demo_additions_distinct.
    + intros ? ? ? ? ? ?. discriminate.
  - vm_compute. reflexivity.
Defined.

(** The path rewrite replaces exactly the matched prefix.  For a path
    under the route's prefix and any query, with all strings UTF-8 as Rust's
    are, the slice never panics, and the rewritten path and query is the
    replacement followed by the rest of the path and the query; without a
    configured replacement it is unchanged. *)
Theorem rewrite_replaces_prefix route rest query :
  is_utf8 (path_prefix route) = true →
  is_utf8 (path_prefix route +:+ (rest +:+ query)) = true →
  rewrite_path_and_query route (path_prefix route +:+ rest)
      (path_prefix route +:+ (rest +:+ query)) =
    Done match path_prefix_rewrite (transform_request (transform route)) with
         | Some replacement => replacement +:+ (rest +:+ query)
         | None => path_prefix route +:+ (rest +:+ query)
         end.
Proof.
  intros Hp Hpq. unfold rewrite_path_and_query.
  destruct (path_prefix_rewrite _) as [r|]; [|done].
  rewrite starts_with_app. simpl. by rewrite slice_from_app.
Qed.

Definition rewriting (prefix rewrite : string) : Route := {|
  route_name := "r"; path_prefix := prefix; route_upstream := "u"; protocols := [];
  transform := {| transform_request :=
      {| req_add_headers := ∅; req_set_headers := ∅; req_remove_headers := [];
         path_prefix_rewrite := Some rewrite; req_body_replace := None |};
    transform_response := ResponseTransform_default |};
  traffic_split := TrafficSplitConfig_default;
  fault_injection := FaultInjectionConfig_default;
|}.
Definition rewriting_route : Route := rewriting "/api" "/v2".

(** For a target without a path, where the path is [/] and the path and query
    starts with the question mark, the rewrite cuts the question mark. *)
Example rewrite_cuts_question_mark :
  rewrite_path_and_query (rewriting "/" "/v2") "/" "?id=1" = Done "/v2id=1".
Proof. reflexivity. Qed.

Lemma rewrite_replaces_prefix_witness :
  rewrite_path_and_query rewriting_route "/api/users" "/api/users?id=1" = Done "/v2/users?id=1".
Proof. apply (rewrite_replaces_prefix rewriting_route "/users" "?id=1"); reflexivity. Defined.

(** The canary split.  Without a canary upstream every request goes to
    the route's upstream; the forcing header sends it to the canary; otherwise
    the canary gets the request exactly when its bucket, which is below 100 and
    depends only on the route, the client and the counter, is below the
    percentage: never at 0, always at 100. *)
Theorem canary_split `{HeaderMapOps} (Hh : Hasher) (HhL : HasherLaws Hh) route headers client count :
  let split := traffic_split route in
  let bucket := deterministic_percentage_bucket (route_name route) client count in
  (0 ≤ bucket < 100)%Z ∧
  select_upstream_name route headers client count =
    match canary_upstream split with
    | None => route_upstream route
    | Some canary =>
        if force_canary split headers || (bucket <? canary_percentage split)%Z then canary
        else route_upstream route
    end ∧
  (∀ canary, canary_upstream split = Some canary → (100 ≤ canary_percentage split)%Z →
     select_upstream_name route headers client count = canary).
Proof.
  intros split bucket. assert (0 ≤ bucket < 100)%Z as Hb by by apply Z.mod_pos_bound.
  unfold select_upstream_name. fold split bucket. split; [done|]. split.
  - destruct (canary_upstream split); [|done]. destruct (force_canary split headers); simpl; [done|].
    destruct (canary_percentage split =? 0)%Z eqn:E; [|done]. bool_to_Z.
    rewrite E. by rewrite (proj2 (Z.ltb_ge _ _)) by lia.
  - intros canary -> Hp. destruct (force_canary split headers); [done|].
    rewrite (proj2 (Z.eqb_neq _ _)), (proj2 (Z.ltb_lt _ _)) by lia. done.
Qed.

Definition canary_route : Route := {|
  route_name := "r"; path_prefix := "/"; route_upstream := "stable"; protocols := [];
  transform := TransformConfig_default;
  traffic_split := {| canary_upstream := Some "canary"; canary_percentage := 100;
    canary_header := None |};
  fault_injection := FaultInjectionConfig_default;
|}.

Lemma canary_split_witness :
  @select_upstream_name list_header_map fnv_hasher canary_route [] "r:10.0.0.9" 4 = "canary".
Proof.
  apply (@canary_split list_header_map fnv_hasher fnv_hasher_laws canary_route [] "r:10.0.0.9" 4);
    [reflexivity|simpl; lia].
Defined.
