(* ===== verification/Codec.v ===== *)
(** * Derived (de)serialisation

    What [#[derive(Serialize, Deserialize)]] with its field attributes means
    for JSON documents: a [codec] of a type writes a value as a tree, reads a
    tree as a value or rejects it, and says which values are values of the
    Rust type.  Combinators follow the attributes: fields in order, each with
    an optional serde default, enums by the names of their variants under a
    renaming rule, options, vectors and hash maps.  Which of several errors a
    rejected document reports is not modelled. *)

From S2P Require Export Transform.

#[local] Open Scope string_scope.
#[local] Open Scope list_scope.

Record codec (A : Type) : Type := Codec {
  ser : A → json_tree;
  de : json_tree → option A;
  fits : A → Prop;
}.
Arguments ser {A} c a : rename.
Arguments de {A} c j : rename.
Arguments fits {A} c a : rename.

(** Reading undoes writing, and yields values of the type. *)
Class Lawful {A} (c : codec A) : Prop := {
  de_ser a : fits c a → de c (ser c a) = Some a;
  de_fits j a : de c j = Some a → fits c a;
}.

(** No value is written as null, the writing of [None]. *)
Class NonNull {A} (c : codec A) : Prop := ser_non_null a : fits c a → ser c a ≠ JNull.

(** ** Scalars *)

(** An unsigned integer of width [w]; [usize] is 64 bits wide. *)
Definition uint_codec (w : Z) : codec Z := {|
  ser n := JNumber n;
  de j := match j with
          | JNumber n => if bool_decide (0 ≤ n < 2 ^ w)%Z then Some n else None
          | _ => None
          end;
  fits := uint w;
|}.

Definition bool_codec : codec bool := {|
  ser b := JBool b;
  de j := match j with JBool b => Some b | _ => None end;
  fits _ := True;
|}.

(** The bytes of a Rust string are valid UTF-8, as are those of the texts a
    document is read from. *)
Definition string_codec : codec string := {|
  ser s := JString s;
  de j := match j with JString s => if is_utf8 s then Some s else None | _ => None end;
  fits s := is_utf8 s = true;
|}.

(** ** Containers *)

Definition option_codec {A} (c : codec A) : codec (option A) := {|
  ser o := match o with Some a => ser c a | None => JNull end;
  de j := match j with JNull => Some None | _ => Some <$> de c j end;
  fits o := ∀ a, o = Some a → fits c a;
|}.

Fixpoint de_list {A} (c : codec A) (l : list json_tree) : option (list A) :=
  match l with
  | [] => Some []
  | j :: l => a ← de c j; r ← de_list c l; Some (a :: r)
  end.

Definition list_codec {A} (c : codec A) : codec (list A) := {|
  ser l := JArray (ser c <$> l);
  de j := match j with JArray l => de_list c l | _ => None end;
  fits := Forall (fits c);
|}.

(** A [HashMap] of strings: written in the order of its iteration; a repeated
    key of a document replaces the earlier one. *)
Fixpoint de_entries (l : list (string * json_tree)) : option (list (string * string)) :=
  match l with
  | [] => Some []
  | (k, j) :: l =>
      k ← de string_codec (JString k); s ← de string_codec j; r ← de_entries l; Some ((k, s) :: r)
  end.

Definition map_codec `{MapOrder} : codec (gmap string string) := {|
  ser m := JObject ((λ kv, (kv.1, JString kv.2)) <$> map_entries m);
  de j := match j with JObject l => collect_map <$> de_entries l | _ => None end;
  fits m := ∀ k v, m !! k = Some v → is_utf8 k = true ∧ is_utf8 v = true;
|}.

(** ** Enums without fields

    A variant is written as its name; it is read from its name, or from an
    object with the name as only key and null as value. *)
Definition variant_name (j : json_tree) : option string :=
  match j with
  | JString s => Some s
  | JObject [(s, JNull)] => Some s
  | _ => None
  end.

Definition enum_codec {A} `{EqDecision A} (variants : list (string * A)) : codec A := {|
  ser a := match find_first (λ v, bool_decide (v.2 = a)) variants with
           | Some v => JString v.1
           | None => JNull
           end;
  de j := s ← variant_name j; match_str variants s;
  fits a := a ∈ variants.*2;
|}.

(** serde's renaming rules: [lowercase], and an underscore (a hyphen) before
    every capital but the first. *)
Definition is_upper (a : ascii) : bool :=
  let n := N_of_ascii a in (65 <=? n)%N && (n <=? 90)%N.

Fixpoint separate_words (sep : ascii) (s : string) : string :=
  match s with
  | EmptyString => ""
  | String a r =>
      if is_upper a then String sep (String (lower_ascii a) (separate_words sep r))
      else String a (separate_words sep r)
  end.

Definition rename_words (sep : ascii) (s : string) : string :=
  match s with EmptyString => "" | String a r => String (lower_ascii a) (separate_words sep r) end.
Definition snake_case : string → string := rename_words "_"%char.
Definition kebab_case : string → string := rename_words "-"%char.

(** ** Structs *)

(** The fields of a struct, read from what the document has under each name. *)
Record fields (A : Type) : Type := Fields {
  field_names : list string;
  fields_ser : A → list (string * json_tree);
  fields_de : (string → option json_tree) → option A;
  fields_fit : A → Prop;
}.
Arguments field_names {A} f.
Arguments fields_ser {A} f a.
Arguments fields_de {A} f doc.
Arguments fields_fit {A} f a.

(** A field without a serde default is required. *)
Definition field {A} (name : string) (c : codec A) (dflt : option A) : fields A := {|
  field_names := [name];
  fields_ser a := [(name, ser c a)];
  fields_de doc := match doc name with Some j => de c j | None => dflt end;
  fields_fit := fits c;
|}.
Definition required {A} (name : string) (c : codec A) : fields A := field name c None.
Definition defaulted {A} (name : string) (c : codec A) (dflt : A) : fields A :=
  field name c (Some dflt).

Definition both {A B} (f : fields A) (g : fields B) : fields (A * B) := {|
  field_names := field_names f ++ field_names g;
  fields_ser ab := fields_ser f ab.1 ++ fields_ser g ab.2;
  fields_de doc := a ← fields_de f doc; b ← fields_de g doc; Some (a, b);
  fields_fit ab := fields_fit f ab.1 ∧ fields_fit g ab.2;
|}.

Definition document_get (l : list (string * json_tree)) (name : string) : option json_tree :=
  snd <$> find_first (λ kv, String.eqb kv.1 name) l.

(** A struct is read from an object, whose unknown keys are ignored and whose
    known ones may not be repeated, or from an array of its fields in order. *)
Definition document (names : list string) (j : json_tree)
    : option (string → option json_tree) :=
  match j with
  | JObject l =>
      if bool_decide (NoDup (filter (λ k, k ∈ names) l.*1)) then Some (document_get l) else None
  | JArray l =>
      if (List.length l <=? List.length names)%nat then Some (document_get (zip names l)) else None
  | _ => None
  end.

Definition struct_codec {A T} (f : fields T) (split : A → T) (build : T → A) : codec A := {|
  ser a := JObject (fields_ser f (split a));
  de j := doc ← document (field_names f) j; build <$> fields_de f doc;
  fits a := fields_fit f (split a);
|}.

Declare Scope fields_scope.
Delimit Scope fields_scope with fields.
Infix "⊗" := both (at level 40, left associativity) : fields_scope.

(** ** Laws

    Every combinator preserves the laws; those of structs come from the laws of
    their fields. *)
Class LawfulFields {A} (f : fields A) : Prop := {
  fields_keys a : (fields_ser f a).*1 = field_names f;
  fields_de_ser doc a :
    fields_fit f a → (∀ k j, (k, j) ∈ fields_ser f a → doc k = Some j) →
    fields_de f doc = Some a;
  fields_de_fit doc a : fields_de f doc = Some a → fields_fit f a;
  fields_de_ext doc doc' :
    (∀ k, k ∈ field_names f → doc k = doc' k) → fields_de f doc = fields_de f doc';
}.

#[export] Instance uint_lawful w : Lawful (uint_codec w).
Proof.
  split; simpl.
  - intros n Hn. by rewrite bool_decide_eq_true_2.
  - intros [] a; try done. case_bool_decide; [|done]. by intros [= <-].
Qed.
#[export] Instance uint_non_null w : NonNull (uint_codec w).
Proof. done. Qed.

#[export] Instance bool_lawful : Lawful bool_codec.
Proof. split; [done|]. by intros [] ?; simpl. Qed.
#[export] Instance bool_non_null : NonNull bool_codec.
Proof. done. Qed.

#[export] Instance string_lawful : Lawful string_codec.
Proof.
  split; simpl.
  - by intros s ->.
  - intros [] a; try done. destruct (is_utf8 s) eqn:E; [|done]. by intros [= <-].
Qed.
#[export] Instance string_non_null : NonNull string_codec.
Proof. done. Qed.

#[export] Instance option_lawful {A} (c : codec A) :
  Lawful c → NonNull c → Lawful (option_codec c).
Proof.
  intros Hc Hn. split; simpl.
  - intros [a|] Ha; [|done]. specialize (Ha a eq_refl). pose proof (ser_non_null a Ha) as Hj.
    pose proof (de_ser a Ha) as E. by destruct (ser c a); rewrite ?E.
  - intros j o Hj a ->. destruct (de c j) as [b|] eqn:E; destruct j; simplify_eq/=; by eapply de_fits.
Qed.

Lemma de_list_ser {A} (c : codec A) l :
  Lawful c → Forall (fits c) l → de_list c (ser c <$> l) = Some l.
Proof.
  intros Hc. induction 1 as [|a l Ha Hl IH]; [done|]. csimpl. rewrite (de_ser a Ha). csimpl.
  by rewrite IH.
Qed.
Lemma de_list_fits {A} (c : codec A) js l :
  Lawful c → de_list c js = Some l → Forall (fits c) l.
Proof.
  intros Hc. revert l. induction js as [|j js IH]; intros l; simpl; [by intros [= <-]|].
  destruct (de c j) eqn:E; [|done]. simpl. destruct (de_list c js); [|done]. intros [= <-].
  constructor; [by eapply de_fits|by apply IH].
Qed.
#[export] Instance list_lawful {A} (c : codec A) : Lawful c → Lawful (list_codec c).
Proof.
  intros Hc. split; simpl.
  - intros l Hl. by apply de_list_ser.
  - intros [] r; try done. by apply de_list_fits.
Qed.
#[export] Instance list_non_null {A} (c : codec A) : NonNull (list_codec c).
Proof. done. Qed.

Lemma de_entries_ser l :
  Forall (λ kv, is_utf8 kv.1 = true ∧ is_utf8 kv.2 = true) l →
  de_entries ((λ kv, (kv.1, JString kv.2)) <$> l) = Some l.
Proof.
  induction 1 as [|[k v] l [Hk Hv] Hl IH]; [done|]. csimpl in *. rewrite Hk, Hv. csimpl.
  by rewrite IH.
Qed.
Lemma de_entries_fits js l :
  de_entries js = Some l → Forall (λ kv, is_utf8 kv.1 = true ∧ is_utf8 kv.2 = true) l.
Proof.
  revert l. induction js as [|[k j] js IH]; simpl; [by intros ? [= <-]|]. intros l.
  destruct (is_utf8 k) eqn:Ek; [|done]. destruct j; try done. simpl.
  destruct (is_utf8 s) eqn:Es; [|done]. simpl. destruct (de_entries js); [|done]. intros [= <-].
  constructor; [done|]. by apply IH.
Qed.
#[export] Instance map_lawful `{MapOrder} : MapOrderLaws _ → Lawful map_codec.
Proof.
  intros HM. split; simpl.
  - intros m Hm. rewrite de_entries_ser; simpl.
    + f_equal. apply collect_map_entries, map_entries_perm.
    + rewrite map_entries_perm. apply Forall_forall. intros [k v] Hkv%elem_of_map_to_list. by apply Hm.
  - intros [] m Hm; try done. destruct (de_entries l) as [es|] eqn:E; simplify_eq/=. intros k v Hkv.
    apply elem_of_collect_map in Hkv. apply de_entries_fits in E. rewrite Forall_forall in E.
    exact (E _ Hkv).
Qed.
#[export] Instance map_non_null `{MapOrder} : NonNull map_codec.
Proof. done. Qed.

Lemma find_first_Some {A} (f : A → bool) l a : find_first f l = Some a → a ∈ l ∧ f a = true.
Proof. intros H. apply find_some in H. by rewrite list_elem_of_In. Qed.
Lemma find_first_None {A} (f : A → bool) l a : find_first f l = None → a ∈ l → f a = false.
Proof. intros H Ha%list_elem_of_In. by eapply find_none in H. Qed.

Lemma match_str_Some {A} (arms : list (string * A)) s a :
  match_str arms s = Some a → (s, a) ∈ arms.
Proof.
  induction arms as [|[p b] arms IH]; [done|]. simpl. case_bool_decide; [|set_solver].
  intros [= ->]. subst. set_solver.
Qed.
Lemma match_str_elem {A} (arms : list (string * A)) s a :
  NoDup arms.*1 → (s, a) ∈ arms → match_str arms s = Some a.
Proof.
  induction arms as [|[p b] arms IH]; csimpl; [set_solver|]. intros [Hp Hnd]%NoDup_cons.
  rewrite elem_of_cons. intros [[= -> ->]|Ha]; [by rewrite bool_decide_eq_true_2|].
  rewrite bool_decide_eq_false_2; [by apply IH|]. intros ->. apply Hp, list_elem_of_fmap. by exists (p, a).
Qed.

Lemma enum_ser {A} `{EqDecision A} (variants : list (string * A)) a :
  a ∈ variants.*2 → ∃ name, ser (enum_codec variants) a = JString name ∧ (name, a) ∈ variants.
Proof.
  intros ([name b] & -> & Hin)%list_elem_of_fmap. simpl.
  destruct (find_first _ variants) as [[n b']|] eqn:E.
  - apply find_first_Some in E as [Hn Hb%bool_decide_eq_true_1]. simpl in Hb. subst. by exists n.
  - eapply find_first_None in E; [|done]. by apply bool_decide_eq_false_1 in E.
Qed.
Lemma enum_lawful {A} `{EqDecision A} (variants : list (string * A)) :
  NoDup variants.*1 → Lawful (enum_codec variants).
Proof.
  intros Hnd. split.
  - intros a (name & -> & Hin)%enum_ser. simpl. by apply match_str_elem.
  - intros j a. simpl. destruct (variant_name j) as [s|]; [|done]. simpl. intros Hs%match_str_Some.
    apply list_elem_of_fmap. by exists (s, a).
Qed.
#[export] Instance enum_non_null {A} `{EqDecision A} (variants : list (string * A)) :
  NonNull (enum_codec variants).
Proof. intros a (name & -> & _)%enum_ser. done. Qed.

Lemma field_lawful {A} name (c : codec A) dflt :
  Lawful c → (∀ a, dflt = Some a → fits c a) → LawfulFields (field name c dflt).
Proof.
  intros Hc Hd. split; simpl.
  - done.
  - intros doc a Ha Hdoc. rewrite (Hdoc name (ser c a)) by set_solver. by apply de_ser.
  - intros doc a. destruct (doc name); [apply de_fits|apply Hd].
  - intros doc doc' Hdoc. by rewrite (Hdoc name) by set_solver.
Qed.
#[export] Instance required_lawful {A} name (c : codec A) :
  Lawful c → LawfulFields (required name c).
Proof. intros Hc. by apply field_lawful. Qed.
Lemma defaulted_lawful {A} name (c : codec A) dflt :
  Lawful c → fits c dflt → LawfulFields (defaulted name c dflt).
Proof. intros Hc Hd. apply field_lawful; [done|]. by intros a [= <-]. Qed.
#[export] Instance both_lawful {A B} (f : fields A) (g : fields B) :
  LawfulFields f → LawfulFields g → LawfulFields (both f g).
Proof.
  intros Hf Hg. split; simpl.
  - intros [a b]. simpl. by rewrite fmap_app, !fields_keys.
  - intros doc [a b] [Ha Hb] Hdoc. simpl in *.
    rewrite (fields_de_ser doc a), (fields_de_ser doc b); [done|done| |done|];
      intros k j Hk; apply Hdoc, elem_of_app; auto.
  - intros doc [a b]. destruct (fields_de f doc) eqn:Ea; [|done]. simpl.
    destruct (fields_de g doc) eqn:Eb; [|done]. intros [= -> ->].
    split; by eapply fields_de_fit.
  - intros doc doc' Hdoc. setoid_rewrite elem_of_app in Hdoc.
    assert (fields_de f doc = fields_de f doc') as -> by (apply fields_de_ext; auto).
    by assert (fields_de g doc = fields_de g doc') as -> by (apply fields_de_ext; auto).
Qed.

Lemma document_get_elem l k j :
  NoDup l.*1 → (k, j) ∈ l → document_get l k = Some j.
Proof.
  unfold document_get. induction l as [|[k' j'] l IH]; csimpl; [set_solver|].
  intros [Hk Hnd]%NoDup_cons. rewrite elem_of_cons. intros [[= -> ->]|Hin].
  - by rewrite String.eqb_refl.
  - destruct (String.eqb_spec k' k) as [->|_]; [|by apply IH].
    destruct Hk. apply list_elem_of_fmap. by exists (k, j).
Qed.

(** A struct is the product of its fields. *)
Lemma struct_lawful {A T} (f : fields T) (split : A → T) (build : T → A) :
  LawfulFields f → NoDup (field_names f) →
  (∀ a, build (split a) = a) → (∀ t, split (build t) = t) →
  Lawful (struct_codec f split build).
Proof.
  intros Hf Hnd Hbs Hsb. constructor; simpl.
  - intros a Ha. rewrite fields_keys, bool_decide_eq_true_2 by (by apply NoDup_filter). simpl.
    rewrite (fields_de_ser _ (split a)); [by simpl; rewrite Hbs|done|].
    intros k j. apply document_get_elem. by rewrite fields_keys.
  - intros j a. destruct (document _ j) as [doc|]; [|done]. simpl.
    destruct (fields_de f doc) eqn:E; [|done]. intros [= <-]. rewrite Hsb. by eapply fields_de_fit.
Qed.

#[export] Instance struct_non_null {A T} (f : fields T) (split : A → T) (build : T → A) :
  NonNull (struct_codec f split build).
Proof. done. Qed.

(** Reading the fields of an object. *)
Lemma de_object {A T} (f : fields T) (split : A → T) (build : T → A) l a :
  de (struct_codec f split build) (JObject l) = Some a →
  ∃ t, fields_de f (document_get l) = Some t ∧ a = build t.
Proof.
  simpl. case_bool_decide; [|done]. simpl. destruct (fields_de f _) as [t|]; [|done].
  intros [= <-]. by exists t.
Qed.

Lemma fields_de_both {A B} (f : fields A) (g : fields B) doc a b :
  fields_de (both f g) doc = Some (a, b) →
  fields_de f doc = Some a ∧ fields_de g doc = Some b.
Proof.
  simpl. destruct (fields_de f doc) as [a'|]; [|done]. simpl.
  destruct (fields_de g doc); [|done]. by intros [= <- <-].
Qed.

(** A value that survives a round trip is a value of the type. *)
Lemma fits_checked {A} (c : codec A) a : Lawful c → de c (ser c a) = Some a → fits c a.
Proof. intros Hc. apply de_fits. Qed.

(** The side conditions: enum names and field names are distinct, the defaults
    of fields are values of their types, a struct is its fields. *)
Ltac by_computation := apply (bool_decide_unpack _); vm_compute; done.
Ltac solve_fits :=
  first [apply fits_checked; [apply _|vm_compute; reflexivity]
        |repeat match goal with
         | |- _ ∧ _ => split
         | |- fits _ _ => progress cbn
         | |- ∀ _, _ => intros
         | H : ∅ !! _ = Some _ |- _ => by rewrite lookup_empty in H
         | _ => done
         end].
Ltac solve_struct :=
  apply struct_lawful;
    [repeat first [apply both_lawful | apply required_lawful; apply _
                  | apply defaulted_lawful; [apply _|solve_fits]]
    |by_computation|by intros []|by intros; repeat match goal with t : _ * _ |- _ => destruct t end].

(** ** [serde_json::from_str]

    [parse_text] is the parser, from a text to its tree; [reject] words the
    error for a tree that is not a value of the type. *)
Section from_str.
Context (parse_text : string → result string json_tree) (reject : json_tree → string).

Definition from_str {A} (c : codec A) (content : string) : result string A :=
  tree ← parse_text content; ok_or (reject tree) (de c tree).

Lemma from_str_ok {A} (c : codec A) content a :
  from_str c content = Ok a ↔ ∃ tree, parse_text content = Ok tree ∧ de c tree = Some a.
Proof.
  unfold from_str. destruct (parse_text content) as [tree|e]; simpl; [|naive_solver].
  destruct (de c tree) eqn:E; simpl; naive_solver.
Qed.
End from_str.
