(* ===== verification/Effects.v ===== *)
(** * Effects of a request (the shared state and the outside world)

    A request handler is a program over atomic effects: one access to the
    shared state ([AppState]: metrics, limiter, counters, registries), one
    reading of the clock, one exchange with the outside.  Between two effects
    of one request any other task can run, so a handler is given as the tree
    of its effects ([prog]), and everything it can do in any environment is
    its set of traces ([exec]). *)

From S2P Require Export Transform Resilience Observability.

#[local] Open Scope string_scope.
#[local] Open Scope list_scope.

Inductive counter : Type :=
| CRequest | CError | CUnauthorized | CRateLimited | CUpstreamFailure.

#[export] Instance counter_eq_dec : EqDecision counter.
Proof. solve_decision. Defined.

Section effects.
Context `{HeaderMapOps}.

(** The request [reqwest] sends and the response it gets; a body is its bytes. *)
Record UpstreamRequest : Type := {
  up_method : Method;
  up_url : string;
  up_headers : list (HeaderName * HeaderValue);
  up_body : string;
}.
Record UpstreamResponse : Type := {
  resp_status : Z;
  resp_headers : HeaderMap;
  resp_stream : string;
}.

(** The effects, indexed by the type of their answers.  A rate-limit check can
    panic (an overflowing counter); a method call on a registry names its
    upstream and target key. *)
Inductive effect : Type → Type :=
| EInc (c : counter) : effect ()
| EDraining : effect bool
| EEnter : effect ()
| ECheckLimit (ctx : RateLimitContext) : effect (outcome bool)
| ECounterLoad : effect Z
| ECounterNext : effect Z
| ENow : effect instant
| ESleep (ms : Z) : effect ()
| EReadBody (limit : Z) : effect (result string string)
| EAvailable (upstream key : string) : effect bool
| ERecord (upstream key : string) (success : bool) : effect ()
| ESend (request : UpstreamRequest) : effect (result string UpstreamResponse).

Inductive prog (A : Type) : Type :=
| Ret (a : A)
| Panic (msg : string)
| Vis (X : Type) (e : effect X) (k : X → prog A).
End effects.
Arguments Ret {_ A} a.
Arguments Panic {_ A} msg.
Arguments Vis {_ A X} e k.

Section programs.
Context `{HeaderMapOps}.

Fixpoint prog_bind_def {A B} (f : A → prog B) (m : prog A) : prog B :=
  match m with
  | Ret a => f a
  | Panic msg => Panic msg
  | Vis e k => Vis e (λ x, prog_bind_def f (k x))
  end.
#[export] Instance prog_ret : MRet prog := λ A a, Ret a.
#[export] Instance prog_bind : MBind prog := λ A B f m, prog_bind_def f m.
#[export] Instance prog_fmap : FMap prog := λ A B f m, prog_bind_def (λ a, Ret (f a)) m.

Definition perform {X} (e : effect X) : prog X := Vis e Ret.

(** A pure computation that may panic. *)
Definition lift_outcome {A} (o : outcome A) : prog A :=
  match o with Done a => Ret a | Panicked msg => Panic msg end.

(** ** Traces *)

Inductive event : Type :=
| Ev (X : Type) (e : effect X) (x : X).
#[global] Arguments Ev {X} e x.

(** [exec m tr o]: in some environment, [m] performs the effects and gets the
    answers of [tr], and then ends with [o]. *)
Inductive exec {A} : prog A → list event → outcome A → Prop :=
| exec_ret a : exec (Ret a) [] (Done a)
| exec_panic msg : exec (Panic msg) [] (Panicked msg)
| exec_vis X (e : effect X) k x tr o :
    exec (k x) tr o → exec (Vis e k) (Ev e x :: tr) o.

(** [reaches m tr]: the same, when the task may also be stopped early (its
    connection is closed and its future dropped). *)
Inductive reaches {A} : prog A → list event → Prop :=
| reaches_nil m : reaches m []
| reaches_vis X (e : effect X) k x tr :
    reaches (k x) tr → reaches (Vis e k) (Ev e x :: tr).

(** ** Lemmas *)

Lemma exec_inv {A} (m : prog A) tr o :
  exec m tr o →
  match m with
  | Ret a => tr = [] ∧ o = Done a
  | Panic msg => tr = [] ∧ o = Panicked msg
  | Vis e k => ∃ x tr', tr = Ev e x :: tr' ∧ exec (k x) tr' o
  end.
Proof. destruct 1; eauto. Qed.

Lemma exec_bind {A B} (m : prog A) (f : A → prog B) tr o :
  exec (m ≫= f) tr o →
  (∃ msg, exec m tr (Panicked msg) ∧ o = Panicked msg) ∨
  ∃ a tr1 tr2, tr = tr1 ++ tr2 ∧ exec m tr1 (Done a) ∧ exec (f a) tr2 o.
Proof.
  revert tr. induction m as [a|msg|X e k IH]; intros tr; unfold mbind, prog_bind; simpl.
  - intros Hf. right. exists a, [], tr. split_and!; [done|constructor|done].
  - intros He. apply exec_inv in He as [-> ->]. left. exists msg. split; [constructor|done].
  - intros He. apply exec_inv in He as (x & tr' & -> & He). apply IH in He.
    destruct He as [(msg & He & ->)|(a & tr1 & tr2 & -> & He & Hf)].
    + left. exists msg. split; [by constructor|done].
    + right. exists a, (Ev e x :: tr1), tr2. split_and!; [done|by constructor|done].
Qed.

Lemma exec_bind_intro {A B} (m : prog A) (f : A → prog B) tr1 tr2 a o :
  exec m tr1 (Done a) → exec (f a) tr2 o → exec (m ≫= f) (tr1 ++ tr2) o.
Proof.
  revert tr1. induction m as [a'|msg|X e k IH]; intros tr1 Hm Hf; apply exec_inv in Hm.
  - destruct Hm as [-> [= ->]]. done.
  - destruct Hm as [_ [=]].
  - destruct Hm as (x & tr' & -> & Hm). unfold mbind, prog_bind. simpl. constructor. by apply IH.
Qed.

(** The run in an environment that always gives the same answer to the same
    effect.  It always ends: a program is a finite-depth tree. *)
Fixpoint run_oracle {A} (answer : ∀ X, effect X → X) (m : prog A) : list event * outcome A :=
  match m with
  | Ret a => ([], Done a)
  | Panic msg => ([], Panicked msg)
  | Vis e k =>
      let x := answer _ e in
      let r := run_oracle answer (k x) in (Ev e x :: r.1, r.2)
  end.

Lemma run_oracle_exec {A} (answer : ∀ X, effect X → X) (m : prog A) :
  exec m (run_oracle answer m).1 (run_oracle answer m).2.
Proof. induction m as [a|msg|X e k IH]; simpl; constructor. apply IH. Qed.

Lemma reaches_exec_prefix {A} (m : prog A) tr o : exec m tr o → reaches m tr.
Proof. induction 1; by constructor. Qed.
End programs.

#[global] Arguments Ev {_ X} e x.

(** ** Inversion of runs, stage by stage *)

Section run_inversion.
Context `{HeaderMapOps}.

Lemma exec_perform {X B} (e : effect X) (f : X → prog B) tr o :
  exec (perform e ≫= f) tr o → ∃ x tr', tr = Ev e x :: tr' ∧ exec (f x) tr' o.
Proof. intros He. exact (exec_inv (Vis e f) tr o He). Qed.

Lemma exec_ret_bind {A B} (a : A) (f : A → prog B) tr o :
  exec (Ret a ≫= f) tr o → exec (f a) tr o.
Proof. done. Qed.

Lemma exec_lift {A B} (oc : outcome A) (f : A → prog B) tr o :
  exec (lift_outcome oc ≫= f) tr o →
  (∃ msg, oc = Panicked msg ∧ tr = [] ∧ o = Panicked msg) ∨ ∃ a, oc = Done a ∧ exec (f a) tr o.
Proof.
  destruct oc as [a|msg]; [right; eauto|].
  intros He. apply (exec_inv (Panic msg)) in He as [-> ->]. left. eauto.
Qed.

Lemma exec_fmap {A B} (g : A → B) (m : prog A) tr o :
  exec (g <$> m) tr o →
  (∃ msg, exec m tr (Panicked msg) ∧ o = Panicked msg) ∨ ∃ a, exec m tr (Done a) ∧ o = Done (g a).
Proof.
  intros He. apply (exec_bind m (λ a, Ret (g a))) in He as [?|(a & tr1 & tr2 & -> & Hm & He)]; [by left|].
  apply exec_inv in He as [-> ->]. rewrite app_nil_r. right. eauto.
Qed.

Lemma exec_ret_inv {A} (a : A) tr o : exec (Ret a) tr o → tr = [] ∧ o = Done a.
Proof. intros He. exact (exec_inv (Ret a) tr o He). Qed.

(** Every reachable trace is the beginning of a complete run. *)
Definition default_answer (X : Type) (e : effect X) : X :=
  match e in effect X return X with
  | EInc _ => () | EDraining => false | EEnter => () | ECheckLimit _ => Done true
  | ECounterLoad => 0%Z | ECounterNext => 0%Z | ENow => 0%Z | ESleep _ => ()
  | EReadBody _ => Err "" | EAvailable _ _ => false | ERecord _ _ _ => ()
  | ESend _ => Err ""
  end.

Lemma reaches_extends {A} (m : prog A) tr : reaches m tr → ∃ tr' o, exec m (tr ++ tr') o.
Proof.
  induction 1 as [m|X e k x tr Hr IH].
  - eexists _, _. exact (run_oracle_exec default_answer m).
  - destruct IH as (tr' & o & He). exists tr', o. by constructor.
Qed.

(** ** Classes of events *)

Definition is_send (ev : event) : bool :=
  match ev with Ev e _ => match e with ESend _ => true | _ => false end end.
Definition is_record (ev : event) : bool :=
  match ev with Ev e _ => match e with ERecord _ _ _ => true | _ => false end end.
Definition is_counter (c : counter) (ev : event) : bool :=
  match ev with Ev e _ => match e with EInc c' => bool_decide (c' = c) | _ => false end end.
Definition sent_request (ev : event) : option UpstreamRequest :=
  match ev with Ev e _ => match e with ESend request => Some request | _ => None end end.

Lemma is_send_sent ev : is_send ev = true ↔ is_Some (sent_request ev).
Proof.
  destruct ev as [X e x]. destruct e; simpl; split; try done; try (by intros [? ?]).
Qed.

(** [sends_ok P before tr]: every request sent in [tr] satisfies [P] with the
    events before it. *)
Fixpoint sends_ok (P : list event → UpstreamRequest → Prop) (before tr : list event) : Prop :=
  match tr with
  | [] => True
  | ev :: tr =>
      (∀ request, sent_request ev = Some request → P before request) ∧
      sends_ok P (before ++ [ev]) tr
  end.

Lemma sends_ok_app P tr1 tr2 : ∀ before,
  sends_ok P before (tr1 ++ tr2) ↔ sends_ok P before tr1 ∧ sends_ok P (before ++ tr1) tr2.
Proof.
  induction tr1 as [|ev tr1 IH]; intros before; simpl; [rewrite app_nil_r; tauto|].
  rewrite IH, <-(assoc_L (++)). simpl. tauto.
Qed.

Lemma sends_ok_none P tr : ∀ before,
  Forall (λ ev, is_send ev = false) tr → sends_ok P before tr.
Proof.
  induction tr as [|ev tr IH]; intros before Hf; simpl; [done|].
  apply Forall_cons in Hf as [Hev Hf]. split; [|by apply IH].
  intros r Hr. assert (is_send ev = true) by (apply is_send_sent; eauto). congruence.
Qed.

Lemma sends_ok_split P tr1 ev request tr2 :
  sends_ok P [] (tr1 ++ ev :: tr2) → sent_request ev = Some request → P tr1 request.
Proof. intros [_ [Hs _]]%sends_ok_app Hr. by apply Hs. Qed.

Lemma sends_ok_impl (P Q : list event → UpstreamRequest → Prop) b0 tr : ∀ before,
  (∀ b r, P b r → Q (b0 ++ b) r) → sends_ok P before tr → sends_ok Q (b0 ++ before) tr.
Proof.
  induction tr as [|ev tr IH]; intros before HPQ; simpl; [done|].
  intros [Hev Hs]. split; [intros r Hr; by apply HPQ, Hev|].
  rewrite <-(assoc_L (++)). by apply IH.
Qed.

Lemma no_sends_count tr : Forall (λ ev, is_send ev = false) tr → countb is_send tr = 0.
Proof. induction 1 as [|ev tr Hev Htr IH]; [done|]. by rewrite countb_cons, Hev, IH. Qed.
End run_inversion.

(** Break up a hypothesis about a run of a concrete program. *)
Ltac exec_step H :=
  let x := fresh "x" in let tr := fresh "tr" in let E := fresh "Erun" in
  first
    [ apply exec_perform in H as (x & tr & -> & H)
    | apply exec_ret_inv in H as [-> ->]
    | apply exec_lift in H as [(x & E & -> & ->)|(x & E & H)] ].
