(* ===== verification/Handler.v ===== *)
(** * The proxy handler (main.rs)

    [proxy_handler] and the helpers that touch shared state, as programs over
    the effects of [Effects].  The body is split where the code has its
    stages: admission (routing, plugins, authentication, authorisation, rate
    limit, fault injection), upstream selection with the body, the retry loop,
    and the relay of the upstream's response. *)

From S2P Require Export Effects.

#[local] Open Scope string_scope.
#[local] Open Scope list_scope.

(** [build_runtime_registry]: one registry per upstream name, the last one of
    a repeated name. *)
Definition build_runtime_registry (cfg : GatewayConfig) : gmap string RuntimeRegistry :=
  foldl (λ m u, <[upstream_name u :=
                   RuntimeRegistry_new (passive (health_checks u)) (circuit_breaker u)]> m)
        ∅ (upstreams cfg).

Section handler.
Context `{HM : HeaderMapOps, J : JsonOps, !JwtOps J, !Hasher, !ContextJson, !MapOrder}.

(** What the handler is given: the method, the request target, the version,
    the headers and the displayed IP address of the peer.  The body is read by
    an effect. *)
Record ProxyRequest : Type := {
  rq_client_ip : string;
  rq_method : Method;
  rq_path : string;
  rq_path_and_query : option string;
  rq_version : Version;
  rq_headers : HeaderMap;
}.

(** A response made from a status and a text, or the relayed one. *)
Inductive Response : Type :=
| TextResponse (status : Z) (text : string)
| RelayedResponse (status : Z) (headers : list (HeaderName * HeaderValue)) (body : string).

Definition response_status (r : Response) : Z :=
  match r with TextResponse status _ => status | RelayedResponse status _ _ => status end.

Definition SERVICE_UNAVAILABLE : Z := 503.
Definition NOT_FOUND : Z := 404.
Definition FORBIDDEN : Z := 403.
Definition UNAUTHORIZED : Z := 401.
Definition TOO_MANY_REQUESTS : Z := 429.
Definition BAD_GATEWAY : Z := 502.
Definition PAYLOAD_TOO_LARGE : Z := 413.
Definition BAD_REQUEST : Z := 400.
Definition GATEWAY_TIMEOUT : Z := 504.
Definition INTERNAL_SERVER_ERROR : Z := 500.

(** [StatusCode::from_u16], [is_server_error]. *)
Definition status_from_u16 (status : Z) : option Z :=
  if (100 <=? status)%Z && (status <? 1000)%Z then Some status else None.
Definition is_server_error (status : Z) : bool := (500 <=? status)%Z && (status <? 600)%Z.

(** [build] of the response builder: whether it accepts the headers. *)
Context (builder_accepts : Z → list (HeaderName * HeaderValue) → bool).
Context (p : profile) (cfg : GatewayConfig) (plugins : PluginManager).

Definition count_and_respond (c : counter) (status : Z) (text : string) : prog Response :=
  _ ← perform (EInc c); Ret (TextResponse status text).

(** ** Fault injection *)

Definition fault_jitter (fault : FaultInjectionConfig) (client_key : string) (request_count : Z)
    : outcome Z :=
  if (0 <? jitter_ms fault)%Z then
    bound ← add_uint p 64 (jitter_ms fault) 1;
    rem_uint (hash_finish [HashStr client_key; HashUsize request_count]) bound
  else Done 0%Z.

Definition maybe_apply_fault_injection (fault : FaultInjectionConfig) (client_key : string)
    (request_count : Z) : prog (option Response) :=
  if negb (fault_enabled fault) then Ret None
  else
    let bucket := deterministic_percentage_bucket "fault-injection" client_key request_count in
    if (probability_percent fault <=? bucket)%Z then Ret None
    else
      jitter ← lift_outcome (fault_jitter fault client_key request_count);
      let delay := saturating_add 64 (delay_ms fault) jitter in
      _ ← (if (0 <? delay)%Z then perform (ESleep delay) else Ret ());
      match abort_status fault with
      | Some status =>
          Ret (Some (TextResponse (default INTERNAL_SERVER_ERROR (status_from_u16 status))
                       (default "fault injection abort" (abort_body fault))))
      | None => Ret None
      end.

(** ** Target selection *)

(** The filter over the targets: one availability check each, in order. *)
Fixpoint available_targets (upstream : string) (ts : list UpstreamTarget)
    : prog (list UpstreamTarget) :=
  match ts with
  | [] => Ret []
  | t :: ts =>
      ok ← perform (EAvailable upstream (target_key upstream (target_id t)));
      rest ← available_targets upstream ts;
      Ret (if (ok : bool) then t :: rest else rest)
  end.

Definition pick_target (upstream : UpstreamConfig) (request_key : string) (request_count : Z)
    : prog (option UpstreamTarget) :=
  available ← available_targets (upstream_name upstream) (targets upstream);
  match available with
  | [] => Ret None
  | _ => lift_outcome (select_target p (strategy upstream) available (Some request_key) request_count)
  end.

(** ** Response phases *)

Definition run_response_plugin_phases (ctx : PluginContext) : option Response :=
  let header_result := run_phase plugins HeaderFilter ctx in
  if negb (allowed header_result) then
    Some (TextResponse FORBIDDEN (default "blocked by header phase plugin" (reason header_result)))
  else
    let body_result := run_phase plugins BodyFilter ctx in
    if negb (allowed body_result) then
      Some (TextResponse FORBIDDEN (default "blocked by body phase plugin" (reason body_result)))
    else
      let _ := run_phase plugins Log ctx in None.

Definition build_response (status : Z) (headers : list (HeaderName * HeaderValue)) (body : string)
    : Response :=
  if builder_accepts status headers then RelayedResponse status headers body
  else TextResponse INTERNAL_SERVER_ERROR "failed to build response".

(** The relay of an upstream response. *)
Definition relay_response (route : Route) (ctx : PluginContext) (resp : UpstreamResponse)
    : Response :=
  let t := transform_response (transform route) in
  let headers := transform_response_headers (resp_headers resp) t in
  let kept := filterb (λ nv, negb (is_hop_by_hop_header (name_as_str nv.1))) (hm_iter headers) in
  match run_response_plugin_phases ctx with
  | Some blocked => blocked
  | None =>
      build_response (resp_status resp) kept (default (resp_stream resp) (resp_body_replace t))
  end.

(** ** The retry loop *)

(** What the loop uses of the stages before it. *)
Record Forwarding : Type := {
  fw_route : Route;
  fw_plugin_context : PluginContext;
  fw_client_key : string;
  fw_upstream : UpstreamConfig;
  fw_method : Method;
  fw_path_and_query : string;
  fw_headers : list (HeaderName * HeaderValue);
  fw_body : string;
  fw_max_attempts : Z;
}.

Definition retry_cfg : RetryConfig := retries (proxy (server cfg)).

Definition upstream_request (fw : Forwarding) (target : UpstreamTarget) : UpstreamRequest := {|
  up_method := fw_method fw;
  up_url := "http://" +:+ address target +:+ fw_path_and_query fw;
  up_headers := fw_headers fw;
  up_body :=
    default (fw_body fw) (req_body_replace (transform_request (transform (fw_route fw))));
|}.

(** One iteration: [inl] returns from the handler, [inr] continues the loop
    with the last status. *)
Definition attempt_once (fw : Forwarding) (started : instant) (attempt : Z)
    (last_status : option Z) : prog (Response + option Z) :=
  now ← perform ENow;
  if (from_millis (request_timeout_ms (proxy (server cfg))) <=? duration_since now started)%Z then
    inl <$> count_and_respond CUpstreamFailure GATEWAY_TIMEOUT "upstream request timed out"
  else
    request_count ← perform ECounterNext;
    picked ← pick_target (fw_upstream fw) (fw_client_key fw) request_count;
    match picked with
    | None =>
        inl <$> count_and_respond CError BAD_GATEWAY "no healthy upstream target available"
    | Some target =>
        let upstream := upstream_name (fw_upstream fw) in
        let key := target_key upstream (target_id target) in
        sent ← perform (ESend (upstream_request fw target));
        match sent with
        | Err _ =>
            _ ← perform (ERecord upstream key false);
            _ ← perform (EInc CUpstreamFailure);
            if (attempt <? fw_max_attempts fw)%Z then
              _ ← perform (ESleep (backoff_ms retry_cfg)); Ret (inr last_status)
            else Ret (inl (TextResponse BAD_GATEWAY "upstream request failed"))
        | Ok resp =>
            if should_retry_status (resp_status resp) && (attempt <? fw_max_attempts fw)%Z then
              _ ← perform (ERecord upstream key false);
              _ ← perform (ESleep (backoff_ms retry_cfg));
              Ret (inr (Some (resp_status resp)))
            else
              _ ← perform (ERecord upstream key (negb (is_server_error (resp_status resp))));
              Ret (inl (relay_response (fw_route fw) (fw_plugin_context fw) resp))
        end
    end.

(** [for attempt in 1..=max_attempts], [remaining] iterations from [attempt]
    on; [inr] when the loop is left at its end. *)
Fixpoint attempts (fw : Forwarding) (started : instant) (remaining : nat) (attempt : Z)
    (last_status : option Z) : prog (Response + option Z) :=
  match remaining with
  | 0 => Ret (inr last_status)
  | S remaining =>
      r ← attempt_once fw started attempt last_status;
      match r with
      | inl response => Ret (inl response)
      | inr last_status => attempts fw started remaining (attempt + 1) last_status
      end
  end.

Definition retry_loop (fw : Forwarding) : prog Response :=
  started ← perform ENow;
  r ← attempts fw started (Z.to_nat (fw_max_attempts fw)) 1 None;
  Ret match r with
      | inl response => response
      | inr (Some status) => TextResponse status "upstream retries exhausted"
      | inr None => TextResponse BAD_GATEWAY "upstream retries exhausted"
      end.

(** ** Admission and forwarding *)

Definition plugin_context_of (route : Route) (rq : ProxyRequest) : PluginContext :=
  {| plugin_route := route_name route; plugin_path := rq_path rq |}.

(** Plugins, authentication, authorisation, rate limit and fault injection:
    [inl] a response, [inr] the client key and the request count. *)
Definition admission (route : Route) (rq : ProxyRequest) : prog (Response + (string * Z)) :=
  let plugin_result := run_phase plugins Access (plugin_context_of route rq) in
  if negb (allowed plugin_result) then
    inl <$> count_and_respond CUnauthorized FORBIDDEN
              (default "blocked by plugin" (reason plugin_result))
  else
    match authenticate (security cfg) (rq_headers rq) with
    | Err _ => inl <$> count_and_respond CUnauthorized UNAUTHORIZED "authentication failed"
    | Ok identity =>
        if negb (authorize (security cfg) (auth_context identity (route_name route))) then
          inl <$> count_and_respond CUnauthorized FORBIDDEN "authorization denied"
        else
          let client_key := route_name route +:+ ":" +:+ rq_client_ip rq in
          checked ← perform (ECheckLimit {|
            rl_route := route_name route; rl_service := route_upstream route;
            rl_consumer := id_subject identity; rl_client := client_key |});
          allowed ← lift_outcome checked;
          if negb allowed then
            inl <$> count_and_respond CRateLimited TOO_MANY_REQUESTS "rate limit exceeded"
          else
            request_count ← perform ECounterLoad;
            fault ← maybe_apply_fault_injection (fault_injection route) client_key request_count;
            match fault with
            | Some fault_response => Ret (inl fault_response)
            | None => Ret (inr (client_key, request_count))
            end
    end.

Definition find_upstream (name : string) : option UpstreamConfig :=
  find_first (λ u, bool_decide (upstream_name u = name)) (upstreams cfg).

Definition max_attempts_for (method : Method) : Z :=
  if should_retry_method method (idempotent_only retry_cfg) (retry_unsafe_methods retry_cfg)
  then Z.max (max_attempts retry_cfg) 1 else 1.

Definition contains (s pattern : string) : bool :=
  bool_decide (String.index 0 pattern s ≠ None).

(** Upstream selection, transformation and the request body. *)
Definition forward (route : Route) (rq : ProxyRequest) (client_key : string) (request_count : Z)
    : prog Response :=
  let name := select_upstream_name route (rq_headers rq) client_key request_count in
  match find_upstream name with
  | None => count_and_respond CError BAD_GATEWAY "upstream config not found"
  | Some upstream =>
      match build_runtime_registry cfg !! upstream_name upstream with
      | None => count_and_respond CError BAD_GATEWAY "runtime state unavailable"
      | Some _ =>
          path_and_query ← lift_outcome (rewrite_path_and_query route (rq_path rq)
                             (default (rq_path rq) (rq_path_and_query rq)));
          body ← perform (EReadBody (max_request_body_bytes (server cfg)));
          match body with
          | Err err =>
              _ ← perform (EInc CError);
              Ret (if contains err "length limit exceeded"
                   then TextResponse PAYLOAD_TOO_LARGE "request body too large"
                   else TextResponse BAD_REQUEST "failed to read request body")
          | Ok bytes =>
              retry_loop {|
                fw_route := route; fw_plugin_context := plugin_context_of route rq;
                fw_client_key := client_key; fw_upstream := upstream; fw_method := rq_method rq;
                fw_path_and_query := path_and_query;
                fw_headers := transform_request_headers (rq_headers rq)
                                (transform_request (transform route));
                fw_body := bytes; fw_max_attempts := max_attempts_for (rq_method rq) |}
          end
      end
  end.

(** The handler after the in-flight guard is created; the guard is dropped when
    the task ends, however it ends. *)
Definition guarded_handler (rq : ProxyRequest) : prog Response :=
  match match_route (routes cfg) (rq_path rq) (request_protocol (rq_version rq) (rq_headers rq)) with
  | None => Ret (TextResponse NOT_FOUND "no matching route")
  | Some route =>
      r ← admission route rq;
      match r with
      | inl response => Ret response
      | inr (client_key, request_count) => forward route rq client_key request_count
      end
  end.

Definition proxy_handler (rq : ProxyRequest) : prog Response :=
  _ ← perform (EInc CRequest);
  draining ← perform EDraining;
  if (draining : bool) then Ret (TextResponse SERVICE_UNAVAILABLE "gateway is draining")
  else _ ← perform EEnter; guarded_handler rq.
End handler.

(** ** Lemmas: the stages of a run *)

Section handler_lemmas.
Context `{HM : HeaderMapOps, J : JsonOps, !JwtOps J, !Hasher, !ContextJson, !MapOrder}.
Context (builder_accepts : Z → list (HeaderName * HeaderValue) → bool).
Context (p : profile) (cfg : GatewayConfig) (plugins : PluginManager).

Abbreviation quiet := (Forall (λ ev : event, is_send ev = false)) (only parsing).

Lemma count_and_respond_exec c status text tr o :
  exec (count_and_respond c status text) tr o →
  tr = [Ev (EInc c) ()] ∧ o = Done (TextResponse status text).
Proof.
  unfold count_and_respond. intros He. exec_step He. exec_step He. by destruct x.
Qed.

(** One probe per target, in order. *)
Definition probe (upstream : string) (t : UpstreamTarget) (ok : bool) : event :=
  Ev (EAvailable upstream (target_key upstream (target_id t))) ok.

Lemma available_targets_exec upstream ts : ∀ tr o,
  exec (available_targets upstream ts) tr o →
  ∃ oks, length oks = length ts ∧ tr = zip_with (probe upstream) ts oks ∧
    o = Done (omap (λ to : UpstreamTarget * bool, if to.2 then Some to.1 else None) (zip ts oks)).
Proof.
  induction ts as [|t ts IH]; intros tr o He; cbn [available_targets] in He.
  { exec_step He. by exists []. }
  exec_step He. apply exec_bind in He as [(msg & He & ->)|(rest & tr1 & tr2 & -> & Hm & He)].
  - apply IH in He as (oks & _ & _ & [=]).
  - apply IH in Hm as (oks & Hl & -> & [= ->]). exec_step He.
    exists (x :: oks). simpl. rewrite app_nil_r. split; [by rewrite Hl|].
    split; [done|]. by destruct x.
Qed.

Lemma probes_quiet upstream ts oks : quiet (zip_with (probe upstream) ts oks).
Proof. revert oks. induction ts as [|t ts IH]; intros [|ok oks]; simpl; constructor; [done|]. apply IH. Qed.

Lemma omap_zip_available (ts : list UpstreamTarget) oks t :
  length oks = length ts →
  t ∈ omap (λ to : UpstreamTarget * bool, if to.2 then Some to.1 else None) (zip ts oks) →
  ∃ i : nat, ts !! i = Some t ∧ oks !! i = Some true.
Proof.
  intros Hl ([t' ok] & Hin & Hok)%list_elem_of_omap. simpl in Hok.
  destruct ok; [|done]. injection Hok as ->.
  apply list_elem_of_lookup in Hin as [i Hi]. exists i.
  rewrite lookup_zip_with in Hi. destruct (ts !! i); simpl in Hi; [|done].
  destruct (oks !! i); simpl in Hi; [|done]. by simplify_eq.
Qed.

Definition choose (upstream : UpstreamConfig) (key : string) (count : Z) (oks : list bool)
    : outcome (option UpstreamTarget) :=
  match omap (λ to : UpstreamTarget * bool, if to.2 then Some to.1 else None)
             (zip (targets upstream) oks) with
  | [] => Done None
  | available => select_target p (strategy upstream) available (Some key) count
  end.

Lemma pick_target_exec upstream key count tr o :
  exec (pick_target p upstream key count) tr o →
  ∃ oks, length oks = length (targets upstream) ∧
    tr = zip_with (probe (upstream_name upstream)) (targets upstream) oks ∧
    o = choose upstream key count oks.
Proof.
  unfold pick_target. intros He.
  apply exec_bind in He as [(msg & He & ->)|(avail & tr1 & tr2 & -> & Hm & He)].
  - apply available_targets_exec in He as (? & _ & _ & [=]).
  - apply available_targets_exec in Hm as (oks & Hl & -> & [= ->]).
    exists oks. split; [done|]. unfold choose.
    destruct (omap _ _) as [|a avail]; [exec_step He; by rewrite app_nil_r|].
    destruct (select_target _ _ _ _ _) as [t|msg]; apply exec_inv in He as [-> ->];
      by rewrite app_nil_r.
Qed.

(** A chosen target is one of the upstream's that answered available. *)
Lemma choose_some upstream key count oks t :
  Forall wf_target (targets upstream) → length oks = length (targets upstream) →
  choose upstream key count oks = Done (Some t) →
  ∃ i : nat, targets upstream !! i = Some t ∧ oks !! i = Some true ∧ (0 < weight t)%Z.
Proof.
  intros Hwf Hl. unfold choose.
  destruct (omap _ _) as [|a avail] eqn:E; [done|]. intros Hs.
  assert (∀ u, u ∈ a :: avail → ∃ i : nat, targets upstream !! i = Some u ∧ oks !! i = Some true)
    as Hin by (intros u; rewrite <-E; by apply omap_zip_available).
  apply select_target_positive in Hs as [Ht Hw].
  - destruct (Hin t Ht) as (i & ? & ?). eauto.
  - apply Forall_forall. intros u Hu. destruct (Hin u Hu) as (i & Hi & _).
    rewrite Forall_forall in Hwf. apply Hwf. by eapply list_elem_of_lookup_2.
Qed.

(** What is recorded for an answer: a failure when there is none, when it is
    retryable and there are [more] attempts, and when it is a server error. *)
Definition verdict (more : bool) (answer : result string UpstreamResponse) : bool :=
  match answer with
  | Err _ => false
  | Ok resp => negb (should_retry_status (resp_status resp) && more)
               && negb (is_server_error (resp_status resp))
  end.

Definition is_result (ev : event) : bool := is_send ev || is_record ev.

(** The shape of one attempt: no target is asked, or one is asked once and its
    result recorded at once. *)
Definition attempt_shape (fw : Forwarding) (attempt : Z) (tr : list event)
    (o : outcome (Response + option Z)) : Prop :=
  (Forall (λ ev, is_result ev = false) tr ∧ ∀ l, o ≠ Done (inr l)) ∨
  ∃ now n oks t x ok tail r,
    let upstream := fw_upstream fw in
    let key := target_key (upstream_name upstream) (target_id t) in
    tr = Ev ENow now :: Ev ECounterNext n
         :: (zip_with (probe (upstream_name upstream)) (targets upstream) oks
             ++ Ev (ESend (upstream_request fw t)) x
             :: Ev (ERecord (upstream_name upstream) key ok) () :: tail) ∧
    length oks = length (targets upstream) ∧
    choose upstream (fw_client_key fw) n oks = Done (Some t) ∧
    ok = verdict (attempt <? fw_max_attempts fw)%Z x ∧ Forall (λ ev, is_result ev = false) tail ∧
    o = Done r ∧ ((fw_max_attempts fw ≤ attempt)%Z → ∀ l, r ≠ inr l).

Lemma probes_no_result upstream ts oks :
  Forall (λ ev, is_result ev = false) (zip_with (probe upstream) ts oks).
Proof.
  revert oks. induction ts as [|t ts IH]; intros [|ok oks]; simpl; constructor; [done|]. apply IH.
Qed.

Lemma attempt_once_exec fw started attempt last tr o :
  exec (attempt_once builder_accepts p cfg plugins fw started attempt last) tr o →
  attempt_shape fw attempt tr o.
Proof.
  unfold attempt_once. intros He. exec_step He. destruct (_ <=? _)%Z.
  { left. apply exec_fmap in He as [(msg & He & ->)|(a & He & ->)];
      apply count_and_respond_exec in He as [-> _]; split; repeat constructor; done. }
  exec_step He. apply exec_bind in He as [(msg & He & ->)|(picked & tr1 & tr2 & -> & Hm & He)].
  { left. apply pick_target_exec in He as (oks & _ & -> & _).
    split; [|done]. repeat constructor. apply probes_no_result. }
  apply pick_target_exec in Hm as (oks & Hl & -> & Hc).
  destruct picked as [t|].
  2:{ left. apply exec_fmap in He as [(msg & He & ->)|(a & He & ->)];
      apply count_and_respond_exec in He as [-> _]; (split; [|done]);
      do 2 (constructor; [done|]); apply Forall_app; split;
      [apply probes_no_result|by repeat constructor
      |apply probes_no_result|by repeat constructor]. }
  right. exists x, x0, oks, t. exec_step He. exists x1.
  destruct x1 as [resp|err].
  - destruct (should_retry_status (resp_status resp)) eqn:Er; simpl in He;
      [destruct (attempt <? fw_max_attempts fw)%Z eqn:Ea|]; simpl in He.
    + do 3 exec_step He. destruct x1, x2.
      exists false, [Ev (ESleep (backoff_ms (retry_cfg cfg))) ()], (inr (Some (resp_status resp))).
      split; [done|]. split; [done|]. split; [done|]. split; [simpl; by rewrite Er|].
      split; [by repeat constructor|]. split; [done|]. intros. zsolve.
    + do 2 exec_step He. destruct x1. eexists _, [], (inl _).
      split; [done|]. split; [done|]. split; [done|]. split; [simpl; by rewrite Er|].
      split; [constructor|]. split; [done|]. by intros.
    + do 2 exec_step He. destruct x1. eexists _, [], (inl _).
      split; [done|]. split; [done|]. split; [done|].
      split; [simpl; by rewrite Er|split; [constructor|split; [done|by intros]]].
  - do 2 exec_step He. destruct x1, x2. destruct (attempt <? _)%Z eqn:Ea.
    + do 2 exec_step He. destruct x1.
      exists false, [Ev (EInc CUpstreamFailure) (); Ev (ESleep (backoff_ms (retry_cfg cfg))) ()],
        (inr last).
      split; [done|]. split; [done|]. split; [done|]. split; [done|].
      split; [by repeat constructor|]. split; [done|]. intros. zsolve.
    + exec_step He. eexists false, [Ev (EInc CUpstreamFailure) ()], (inl _).
      split; [done|]. split; [done|]. split; [done|]. split; [done|].
      split; [by repeat constructor|]. split; [done|]. by intros.
Qed.

(** A request to a target, and the record of its verdict for that target. *)
Definition send_and_record (fw : Forwarding) (attempt : Z) (t : UpstreamTarget)
    (x : result string UpstreamResponse) : list event :=
  [Ev (ESend (upstream_request fw t)) x;
   Ev (ERecord (upstream_name (fw_upstream fw))
         (target_key (upstream_name (fw_upstream fw)) (target_id t))
         (verdict (attempt <? fw_max_attempts fw)%Z x)) ()].

(** The result events of a run from an attempt on: each request is to a target
    of the upstream, and is followed by its record. *)
Inductive well_recorded (fw : Forwarding) : Z → list event → Prop :=
| wr_nil attempt : well_recorded fw attempt []
| wr_send attempt t x rest :
    t ∈ targets (fw_upstream fw) → well_recorded fw (attempt + 1) rest →
    well_recorded fw attempt (send_and_record fw attempt t x ++ rest).

(** Those of one attempt: none, and then it is the last, or one request. *)
Definition one_result (fw : Forwarding) (attempt : Z) (l : list event)
    (o : outcome (Response + option Z)) : Prop :=
  (l = [] ∧ ∀ last, o ≠ Done (inr last)) ∨
  ∃ t x, t ∈ targets (fw_upstream fw) ∧ l = send_and_record fw attempt t x.

Lemma one_result_recorded fw attempt l o : one_result fw attempt l o → well_recorded fw attempt l.
Proof.
  intros [[-> _]|(t & x & Ht & ->)]; [constructor|]. rewrite <-(app_nil_r (send_and_record _ _ _ _)).
  by constructor; [|constructor].
Qed.

Lemma one_result_app fw attempt l last k :
  one_result fw attempt l (Done (inr last)) → well_recorded fw (attempt + 1) k →
  well_recorded fw attempt (l ++ k).
Proof.
  intros [[_ Hn]|(t & x & Ht & ->)] Hk; [by destruct (Hn last)|by constructor].
Qed.

(** A request the loop may send: for a target of the upstream with a positive
    weight, which answered a probe before. *)
Definition sent_ok (fw : Forwarding) (before : list event) (request : UpstreamRequest) : Prop :=
  ∃ t, t ∈ targets (fw_upstream fw) ∧ (0 < weight t)%Z ∧
    probe (upstream_name (fw_upstream fw)) t true ∈ before ∧ request = upstream_request fw t.

Lemma sent_ok_mono fw b0 b request : sent_ok fw b request → sent_ok fw (b0 ++ b) request.
Proof. intros (t & Ht & Hw & Hp & ->). exists t. rewrite elem_of_app. eauto. Qed.

Lemma not_result_quiet tr : Forall (λ ev, is_result ev = false) tr → quiet tr.
Proof. intros Hf. eapply Forall_impl; [exact Hf|]. intros ev [Hev _]%orb_false_iff. done. Qed.

Lemma attempt_facts fw attempt tr o :
  Forall wf_target (targets (fw_upstream fw)) → attempt_shape fw attempt tr o →
  sends_ok (sent_ok fw) [] tr ∧ (countb is_send tr ≤ 1)%nat ∧
  one_result fw attempt (filterb is_result tr) o ∧
  ((fw_max_attempts fw ≤ attempt)%Z → ∀ l, o ≠ Done (inr l)).
Proof.
  intros Hwf [[Hq Ho]|(now & n & oks & t & x & ok & tail & r & -> & Hl & Hc & -> & Ht & -> & Hlast)].
  - pose proof (not_result_quiet _ Hq) as Hq'. split_and!.
    + by apply sends_ok_none.
    + rewrite no_sends_count by done. lia.
    + rewrite filterb_none by done. by left.
    + done.
  - pose proof (choose_some _ _ _ _ _ Hwf Hl Hc) as (i & Hi & Hok & Hw).
    pose proof (list_elem_of_lookup_2 _ _ _ Hi) as Hin.
    pose proof (not_result_quiet _ Ht) as Hq. split_and!.
    + split; [done|]. split; [done|]. rewrite sends_ok_app. split.
      { apply sends_ok_none, probes_quiet. }
      split; [|split; [done|by apply sends_ok_none]].
      intros request [= <-]. exists t. split; [done|]. split; [done|]. split; [|done].
      apply elem_of_app. right. apply (list_elem_of_lookup_2 _ i).
      rewrite lookup_zip_with, Hi. simpl. by rewrite Hok.
    + rewrite !countb_cons, countb_app, !countb_cons, (no_sends_count tail) by done.
      rewrite (no_sends_count (zip_with _ _ _)) by apply probes_quiet. simpl. lia.
    + rewrite !filterb_cons. simpl. rewrite filterb_app, !filterb_cons. simpl.
      rewrite (filterb_none is_result (zip_with _ _ _)) by apply probes_no_result.
      rewrite (filterb_none is_result tail) by done. simpl. right. by exists t, x.
    + intros Hm l [= ->]. by eapply Hlast.
Qed.

Lemma attempts_facts fw started remaining : ∀ attempt last tr o,
  Forall wf_target (targets (fw_upstream fw)) →
  exec (attempts builder_accepts p cfg plugins fw started remaining attempt last) tr o →
  sends_ok (sent_ok fw) [] tr ∧ (countb is_send tr ≤ remaining)%nat ∧
  well_recorded fw attempt (filterb is_result tr) ∧
  ((0 < remaining)%nat → (fw_max_attempts fw < attempt + Z.of_nat remaining)%Z →
   ∀ l, o ≠ Done (inr l)).
Proof.
  induction remaining as [|remaining IH]; intros attempt last tr o Hwf He; cbn [attempts] in He.
  { exec_step He. split_and!; [done|done|constructor|lia]. }
  apply exec_bind in He as [(msg & He & ->)|(r & tr1 & tr2 & -> & Hm & He)].
  - apply attempt_once_exec in He. apply attempt_facts in He as (Hs & Hc & Hr & _); [|done].
    split_and!; [done|lia|by eapply one_result_recorded|done].
  - apply attempt_once_exec in Hm. apply attempt_facts in Hm as (Hs & Hc & Hr & Hlast); [|done].
    destruct r as [response|last'].
    + exec_step He. rewrite app_nil_r. split_and!; [done|lia|by eapply one_result_recorded|done].
    + apply IH in He as (Hs' & Hc' & Hr' & Hl'); [|done].
      split_and!.
      * apply sends_ok_app. split; [done|]. rewrite <-(app_nil_r ([] ++ tr1)).
        eapply sends_ok_impl; [|exact Hs']. intros. by apply sent_ok_mono.
      * rewrite countb_app. lia.
      * rewrite filterb_app. by eapply one_result_app.
      * intros _ Hm. destruct remaining as [|remaining].
        -- exfalso. eapply Hlast; [|done]. lia.
        -- apply Hl'; lia.
Qed.

Lemma retry_loop_facts fw tr o :
  Forall wf_target (targets (fw_upstream fw)) → (1 ≤ fw_max_attempts fw)%Z →
  exec (retry_loop builder_accepts p cfg plugins fw) tr o →
  sends_ok (sent_ok fw) [] tr ∧ (Z.of_nat (countb is_send tr) ≤ fw_max_attempts fw)%Z ∧
  well_recorded fw 1 (filterb is_result tr) ∧
  ∃ started tr', tr = Ev ENow started :: tr' ∧
    ∀ response, o = Done response →
      exec (attempts builder_accepts p cfg plugins fw started (Z.to_nat (fw_max_attempts fw)) 1 None)
           tr' (Done (inl response)).
Proof.
  intros Hwf Hmax He. unfold retry_loop in He. exec_step He.
  apply exec_bind in He as [(msg & He & ->)|(r & tr1 & tr2 & -> & Hm & He)].
  - pose proof He as Hrun. apply attempts_facts in He as (Hs & Hc & Hr & _); [|done].
    split; [|split; [|split]].
    + split; [done|]. rewrite <-(app_nil_r ([] ++ [_])).
      eapply sends_ok_impl; [|exact Hs]. intros. by apply sent_ok_mono.
    + rewrite countb_cons. simpl. lia.
    + rewrite filterb_cons. done.
    + eexists _, _. split; [done|]. by intros.
  - exec_step He. rewrite app_nil_r. pose proof Hm as Hrun.
    apply attempts_facts in Hm as (Hs & Hc & Hr & Hlast); [|done].
    split; [|split; [|split]].
    + split; [done|]. rewrite <-(app_nil_r ([] ++ [_])).
      eapply sends_ok_impl; [|exact Hs]. intros. by apply sent_ok_mono.
    + rewrite countb_cons. simpl. lia.
    + rewrite filterb_cons. done.
    + eexists _, _. split; [done|]. intros response [= <-].
      destruct r as [response|l]; [done|]. exfalso. eapply Hlast; [| |done]; lia.
Qed.

(** The rate-limit context of a route and an identity. *)
Definition limit_context (route : Route) (rq : ProxyRequest) (id : AuthenticatedIdentity)
    : RateLimitContext := {|
  rl_route := route_name route; rl_service := route_upstream route;
  rl_consumer := id_subject id; rl_client := route_name route +:+ ":" +:+ rq_client_ip rq;
|}.

(** What must have happened for a request to be admitted. *)
Definition admitted (route : Route) (rq : ProxyRequest) (before : list event) : Prop :=
  allowed (run_phase plugins Access (plugin_context_of route rq)) = true ∧
  ∃ id, authenticate (security cfg) (rq_headers rq) = Ok id ∧
    authorize (security cfg) (auth_context id (route_name route)) = true ∧
    Ev (ECheckLimit (limit_context route rq id)) (Done true) ∈ before.

Lemma admitted_sub route rq b b' :
  (∀ ev, ev ∈ b → ev ∈ b') → admitted route rq b → admitted route rq b'.
Proof. intros Hsub (Ha & id & Hid & Hz & He). split; [done|]. exists id. eauto. Qed.

Lemma fault_injection_quiet fault key count tr o :
  exec (maybe_apply_fault_injection p fault key count) tr o →
  Forall (λ ev, is_result ev = false) tr.
Proof.
  unfold maybe_apply_fault_injection. intros He.
  destruct (fault_enabled fault); simpl in He; [|exec_step He; constructor].
  destruct (_ <=? _)%Z; [exec_step He; constructor|].
  exec_step He; [constructor|].
  destruct (0 <? _)%Z; [exec_step He; constructor; [done|]|apply exec_ret_bind in He];
    (destruct (abort_status fault); exec_step He; constructor).
Qed.

Lemma admission_facts route rq tr o :
  exec (admission p cfg plugins route rq) tr o →
  Forall (λ ev, is_result ev = false) tr ∧
  ∀ key n, o = Done (inr (key, n)) →
    admitted route rq tr ∧ key = route_name route +:+ ":" +:+ rq_client_ip rq.
Proof.
  assert (∀ c st text tr o,
    exec (inl <$> count_and_respond c st text : prog (Response + (string * Z))) tr o →
    Forall (λ ev, is_result ev = false) tr ∧ ∀ x, o ≠ Done (inr x)) as Hresp.
  { intros c st text tr' o' He. apply exec_fmap in He as [(msg & He & ->)|(a & He & ->)];
      apply count_and_respond_exec in He as [-> _]; (split; [by repeat constructor|done]). }
  unfold admission. intros He.
  destruct (allowed (run_phase plugins Access _)) eqn:Ea; simpl in He;
    [|apply Hresp in He as [? Hn]; split; [done|]; intros ? ? ->; by destruct (Hn (key, n))].
  destruct (authenticate _ _) as [id|e] eqn:Eid; simpl in He;
    [|apply Hresp in He as [? Hn]; split; [done|]; intros ? ? ->; by destruct (Hn (key, n))].
  destruct (authorize _ _) eqn:Ez; simpl in He;
    [|apply Hresp in He as [? Hn]; split; [done|]; intros ? ? ->; by destruct (Hn (key, n))].
  exec_step He. apply exec_lift in He as [(msg & -> & -> & ->)|(ok & -> & He)].
  { split; [by repeat constructor|done]. }
  destruct ok; simpl in He.
  2:{ apply Hresp in He as [? Hn]. split; [by constructor|]. intros ? ? ->. by destruct (Hn (key, n)). }
  exec_step He. apply exec_bind in He as [(msg & He & ->)|(fault & tr1 & tr2 & -> & Hm & He)].
  { apply fault_injection_quiet in He. split; [by repeat constructor|done]. }
  apply fault_injection_quiet in Hm.
  destruct fault; exec_step He; rewrite app_nil_r; (split; [by repeat constructor|]); [done|].
  intros key n [= <- <-]. split; [|done]. split; [done|]. exists id.
  split; [done|]. split; [done|]. apply list_elem_of_here.
Qed.

Lemma max_attempts_positive method : (1 ≤ max_attempts_for cfg method)%Z.
Proof. unfold max_attempts_for. destruct (should_retry_method _ _ _); lia. Qed.

(** The forwarding stage of a request. *)
Definition forwarding (route : Route) (rq : ProxyRequest) (key : string) (upstream : UpstreamConfig)
    (path_and_query bytes : string) : Forwarding := {|
  fw_route := route; fw_plugin_context := plugin_context_of route rq; fw_client_key := key;
  fw_upstream := upstream; fw_method := rq_method rq; fw_path_and_query := path_and_query;
  fw_headers := transform_request_headers (rq_headers rq) (transform_request (transform route));
  fw_body := bytes; fw_max_attempts := max_attempts_for cfg (rq_method rq);
|}.

(** The field types of the targets of all upstreams. *)
Definition wf_targets : Prop := Forall (λ u, Forall wf_target (targets u)) (upstreams cfg).

Lemma find_upstream_in name u :
  find_upstream cfg name = Some u → u ∈ upstreams cfg ∧ upstream_name u = name.
Proof.
  unfold find_upstream, find_first. intros Hf. apply List.find_some in Hf as [Hin Hn].
  apply list_elem_of_In in Hin. by bool_to_Z.
Qed.

Lemma forward_facts route rq key count tr o :
  wf_targets → exec (forward builder_accepts p cfg plugins route rq key count) tr o →
  (Forall (λ ev, is_result ev = false) tr) ∨
  ∃ upstream pq bytes tr',
    let fw := forwarding route rq key upstream pq bytes in
    find_upstream cfg (select_upstream_name route (rq_headers rq) key count) = Some upstream ∧
    rewrite_path_and_query route (rq_path rq) (default (rq_path rq) (rq_path_and_query rq)) = Done pq ∧
    tr = Ev (EReadBody (max_request_body_bytes (server cfg))) (Ok bytes) :: tr' ∧
    exec (retry_loop builder_accepts p cfg plugins fw) tr' o ∧
    Forall wf_target (targets (fw_upstream fw)).
Proof.
  intros Hwf. unfold forward. intros He. destruct (find_upstream _ _) as [u|] eqn:Eu;
    [|apply count_and_respond_exec in He as [-> _]; left; by repeat constructor].
  destruct (build_runtime_registry cfg !! _);
    [|apply count_and_respond_exec in He as [-> _]; left; by repeat constructor].
  apply exec_lift in He as [(msg & _ & -> & ->)|(pq & Epq & He)]; [left; constructor|].
  exec_step He. destruct x as [bytes|err].
  - right. exists u, pq, bytes, tr0. split_and!; try done.
    unfold wf_targets in Hwf. rewrite Forall_forall in Hwf.
    apply Hwf. by apply find_upstream_in in Eu as [? _].
  - left. do 2 exec_step He. by repeat constructor.
Qed.

Lemma proxy_handler_run rq tr o :
  exec (proxy_handler builder_accepts p cfg plugins rq) tr o →
  (tr = [Ev (EInc CRequest) (); Ev EDraining true] ∧
   o = Done (TextResponse 503 "gateway is draining")) ∨
  ∃ tr', tr = Ev (EInc CRequest) () :: Ev EDraining false :: Ev EEnter () :: tr' ∧
    exec (guarded_handler builder_accepts p cfg plugins rq) tr' o.
Proof.
  unfold proxy_handler. intros He. do 2 exec_step He. destruct x, x0.
  - exec_step He. by left.
  - exec_step He. destruct x. right. eauto.
Qed.

(** The requests a handler may send, given the events before them. *)
Definition admitted_send (rq : ProxyRequest) (before : list event) (request : UpstreamRequest)
    : Prop :=
  Ev EDraining false ∈ before ∧
  ∃ route upstream target key count path_and_query,
    match_route (routes cfg) (rq_path rq) (request_protocol (rq_version rq) (rq_headers rq))
      = Some route ∧
    admitted route rq before ∧
    find_upstream cfg (select_upstream_name route (rq_headers rq) key count) = Some upstream ∧
    key = route_name route +:+ ":" +:+ rq_client_ip rq ∧
    rewrite_path_and_query route (rq_path rq) (default (rq_path rq) (rq_path_and_query rq))
      = Done path_and_query ∧
    target ∈ targets upstream ∧ (0 < weight target)%Z ∧
    probe (upstream_name upstream) target true ∈ before ∧
    up_method request = rq_method rq ∧
    up_url request = "http://" +:+ address target +:+ path_and_query ∧
    up_headers request =
      transform_request_headers (rq_headers rq) (transform_request (transform route)).

Lemma guarded_handler_facts rq tr o :
  wf_targets → exec (guarded_handler builder_accepts p cfg plugins rq) tr o →
  sends_ok (λ before request, admitted_send rq (Ev EDraining false :: before) request) [] tr ∧
  (Z.of_nat (countb is_send tr) ≤ max_attempts_for cfg (rq_method rq))%Z ∧
  ∃ fw, fw_max_attempts fw = max_attempts_for cfg (rq_method rq) ∧
    well_recorded fw 1 (filterb is_result tr) ∧
    (countb is_send tr ≠ 0 → fw_upstream fw ∈ upstreams cfg).
Proof.
  intros Hwf He. unfold guarded_handler in He.
  pose proof (max_attempts_positive (rq_method rq)) as Hmax.
  assert (∀ tr, Forall (λ ev, is_result ev = false) tr →
    sends_ok (λ before request, admitted_send rq (Ev EDraining false :: before) request) [] tr ∧
    (Z.of_nat (countb is_send tr) ≤ max_attempts_for cfg (rq_method rq))%Z ∧
    ∃ fw, fw_max_attempts fw = max_attempts_for cfg (rq_method rq) ∧
      well_recorded fw 1 (filterb is_result tr) ∧
      (countb is_send tr ≠ 0 → fw_upstream fw ∈ upstreams cfg)) as Hquiet.
  { intros tr' Hq. pose proof (not_result_quiet _ Hq) as Hs.
    split; [by apply sends_ok_none|]. rewrite no_sends_count by done. split; [lia|].
    exists (forwarding (plain_route "" "" "" []) rq "" (demo_upstream "" []) "" "").
    rewrite filterb_none by done. split; [done|]. split; [constructor|done]. }
  destruct (match_route _ _ _) as [route|] eqn:Er; [|exec_step He; by apply Hquiet].
  apply exec_bind in He as [(msg & He & ->)|(r & tr1 & tr2 & -> & Hm & He)].
  { apply admission_facts in He as [Hq _]. by apply Hquiet. }
  apply admission_facts in Hm as [Hq1 Hadm].
  destruct r as [response|[key n]]; [exec_step He; rewrite app_nil_r; by apply Hquiet|].
  destruct (Hadm key n eq_refl) as [Hadm' Hkey].
  apply forward_facts in He as [Hq2|(u & pq & bytes & tr' & Hu & Hpq & -> & He & Hwu)]; [|..|done].
  { apply Hquiet. by apply Forall_app. }
  apply retry_loop_facts in He as (Hs & Hc & Hr & _); [|done|done].
  pose proof (not_result_quiet _ Hq1) as Hs1. split; [|split].
  - apply sends_ok_app. split; [by apply sends_ok_none|]. split; [done|].
    rewrite <-(app_nil_r (([] ++ tr1) ++ _)). eapply sends_ok_impl; [|exact Hs].
    intros b request (t & Ht & Hw & Hp & ->). split; [apply list_elem_of_here|].
    exists route, u, t, key, n, pq. split; [done|]. split.
    { eapply admitted_sub; [|exact Hadm']. set_solver. }
    split; [done|]. split; [done|]. split; [done|]. split; [done|]. split; [done|].
    split; [|done]. apply list_elem_of_further, elem_of_app. by right.
  - rewrite countb_app, countb_cons, (no_sends_count tr1) by done. exact Hc.
  - exists (forwarding route rq key u pq bytes). rewrite filterb_app, (filterb_none _ tr1) by done.
    split; [done|]. split; [exact Hr|]. intros _. by apply find_upstream_in in Hu as [? _].
Qed.
End handler_lemmas.

(** A gateway and a request for witnesses: one route, one upstream with two
    targets, of which the second is available. *)
Definition demo_cfg : GatewayConfig :=
  demo_gateway [plain_route "r" "/" "u" []] [demo_upstream "u" [target_a; target_b]].

Definition demo_request : @ProxyRequest list_header_map :=
  @Build_ProxyRequest list_header_map "10.0.0.9" GET "/users" (Some "/users?id=1") HTTP_11 [].

Definition demo_answer (status : Z) (X : Type) (e : @effect list_header_map X) : X :=
  match e in @effect _ X return X with
  | EInc _ => () | EDraining => false | EEnter => () | ECheckLimit _ => Done true
  | ECounterLoad => 3%Z | ECounterNext => 3%Z | ENow => 0%Z | ESleep _ => ()
  | EReadBody _ => Ok "" | EAvailable _ key => bool_decide (key = "u:b") | ERecord _ _ _ => ()
  | ESend _ => Ok (@Build_UpstreamResponse list_header_map status [] "hello")
  end.

Definition demo_handler : prog (@Response list_header_map) :=
  @proxy_handler list_header_map tree_json demo_jwt fnv_hasher sorted_map_order
    (λ _ _, true) Debug demo_cfg [] demo_request.

Definition demo_trace (status : Z) : list (@event list_header_map) :=
  (run_oracle (demo_answer status) demo_handler).1.

(** The status of a run that ends with a response, and 0 for a panic. *)
Definition final_status (o : outcome (@Response list_header_map)) : Z :=
  match o with Done r => response_status r | Panicked _ => 0 end.

Example demo_runs :
  (countb is_send (demo_trace 200), countb is_send (demo_trace 503),
   final_status (run_oracle (demo_answer 503) demo_handler).2) = (1, 3, 503%Z).
Proof. vm_compute. reflexivity. Qed.

(** ** Properties *)

Section handler_properties.
Context `{HM : HeaderMapOps, J : JsonOps, !JwtOps J, !Hasher, !MapOrder}.
Context (builder_accepts : Z → list (HeaderName * HeaderValue) → bool).
Context (p : profile) (cfg : GatewayConfig) (plugins : PluginManager).

Lemma sends_admitted_run rq tr1 ev request tr2 :
  wf_targets cfg →
  reaches (proxy_handler builder_accepts p cfg plugins rq) (tr1 ++ ev :: tr2) →
  sent_request ev = Some request →
  admitted_send cfg plugins rq tr1 request.
Proof.
  intros Hwf Hr Hev. apply reaches_extends in Hr as (tr' & o & He).
  rewrite <-(assoc_L (++)) in He. simpl in He.
  apply proxy_handler_run in He as [[He _]|(tr & Heq & He)].
  - assert (ev ∈ [Ev (EInc CRequest) (); Ev EDraining true]) as Hin.
    { rewrite <-He. rewrite elem_of_app. right. left. }
    rewrite !elem_of_cons, elem_of_nil in Hin.
    destruct Hin as [->|[->|[]]]; discriminate Hev.
  - apply guarded_handler_facts in He as (Hs & _ & _); [|done].
    eapply (sends_ok_split (admitted_send cfg plugins rq) tr1 ev request (tr2 ++ tr')); [|done].
    rewrite Heq. split; [done|]. split; [done|]. split; [done|].
    rewrite <-(app_nil_r ((([] ++ [Ev (EInc CRequest) ()]) ++ [Ev EDraining false]) ++ [Ev EEnter ()])).
    eapply sends_ok_impl; [|exact Hs]. intros b r (Hd & route & u & t & key & n & pq & Hroute & Ha & Hrest).
    split; [set_solver|]. exists route, u, t, key, n, pq. split; [done|].
    split; [eapply admitted_sub; [|exact Ha]; set_solver|].
    destruct Hrest as (? & ? & ? & ? & ? & ? & ? & ? & ?). split_and!; try done. set_solver.
Qed.

(** C1: nothing reaches an upstream without passing every check.  In any
    environment, and even when the task is stopped at any point, a request is
    sent upstream only after the gateway was found not draining, and only for
    a matched route whose Access plugins allow it, an authenticated identity
    that is authorised for the route, and a rate-limit check that accepted it;
    its target belongs to the selected upstream, has a positive weight and
    answered available before; its method is the client's, its URL the
    target's address with the rewritten path, its headers the transformed
    ones. *)
Theorem sends_are_admitted rq tr1 ev request tr2 :
  wf_targets cfg →
  reaches (proxy_handler builder_accepts p cfg plugins rq) (tr1 ++ ev :: tr2) →
  sent_request ev = Some request →
  admitted_send cfg plugins rq tr1 request.
Proof. apply sends_admitted_run. Qed.

Lemma sends_bounded_run rq tr :
  wf_targets cfg → reaches (proxy_handler builder_accepts p cfg plugins rq) tr →
  let retry := retries (proxy (server cfg)) in
  (Z.of_nat (countb is_send tr) ≤
     if should_retry_method (rq_method rq) (idempotent_only retry) (retry_unsafe_methods retry)
     then Z.max (max_attempts retry) 1 else 1)%Z.
Proof.
  intros Hwf Hr retry. apply reaches_extends in Hr as (tr' & o & He).
  pose proof (max_attempts_positive cfg (rq_method rq)) as Hpos.
  assert (Z.of_nat (countb is_send (tr ++ tr')) ≤ max_attempts_for cfg (rq_method rq))%Z as Hc.
  { apply proxy_handler_run in He as [[-> _]|(tr'' & -> & He)].
    { change (0 ≤ max_attempts_for cfg (rq_method rq))%Z. lia. }
    apply guarded_handler_facts in He as (_ & Hc & _); [|done]. by rewrite !countb_cons. }
  rewrite countb_app in Hc. unfold max_attempts_for, retry_cfg in Hc. fold retry in Hc. lia.
Qed.

(** C13: the number of upstream requests is bounded.  One client request leads
    to at most [max(max_attempts, 1)] upstream requests when its method may be
    retried under the configuration, and to at most one otherwise. *)
Theorem sends_are_bounded rq tr :
  wf_targets cfg → reaches (proxy_handler builder_accepts p cfg plugins rq) tr →
  let retry := retries (proxy (server cfg)) in
  (Z.of_nat (countb is_send tr) ≤
     if should_retry_method (rq_method rq) (idempotent_only retry) (retry_unsafe_methods retry)
     then Z.max (max_attempts retry) 1 else 1)%Z.
Proof. apply sends_bounded_run. Qed.

(** Every answer of an upstream is recorded: the upstream requests and the
    health records of a complete run alternate, from the first attempt on. *)
Lemma handler_recorded rq tr o :
  wf_targets cfg → exec (proxy_handler builder_accepts p cfg plugins rq) tr o →
  ∃ fw, fw_max_attempts fw = max_attempts_for cfg (rq_method rq) ∧
    well_recorded fw 1 (filterb is_result tr) ∧
    (countb is_send tr ≠ 0 → fw_upstream fw ∈ upstreams cfg).
Proof.
  intros Hwf He. apply proxy_handler_run in He as [[-> _]|(tr' & -> & He)].
  - exists (forwarding cfg (plain_route "" "" "" []) rq "" (demo_upstream "" []) "" "").
    split; [done|]. split; [constructor|done].
  - apply guarded_handler_facts in He as (_ & _ & Hr); [|done]. exact Hr.
Qed.

(** A draining gateway refuses at once.  A run that finds the draining flag
    set counts the request, answers 503 and does nothing else: no guard, no
    limiter or health state touched, nothing sent; and the flag is the first
    thing any run looks at. *)
Theorem draining_refuses rq tr o :
  exec (proxy_handler builder_accepts p cfg plugins rq) tr o →
  ∃ draining tr', tr = Ev (EInc CRequest) () :: Ev EDraining draining :: tr' ∧
    (if draining : bool
     then tr' = [] ∧ o = Done (TextResponse 503 "gateway is draining")
     else ∃ tr'', tr' = Ev EEnter () :: tr'').
Proof.
  intros He. apply proxy_handler_run in He as [[-> ->]|(tr' & -> & He)].
  - by exists true, [].
  - exists false, (Ev EEnter () :: tr'). split; [done|]. eauto.
Qed.

(** The retry loop never runs out.  With at least one attempt, the last
    attempt always answers, so the response after the loop ("upstream retries
    exhausted") is never given. *)
Theorem retry_loop_answers fw started tr o :
  Forall wf_target (targets (fw_upstream fw)) → (1 ≤ fw_max_attempts fw)%Z →
  exec (attempts builder_accepts p cfg plugins fw started (Z.to_nat (fw_max_attempts fw)) 1 None)
    tr o →
  (∃ response, o = Done (inl response)) ∨ (∃ msg, o = Panicked msg).
Proof.
  intros Hwf Hmax He. apply attempts_facts in He as (_ & _ & _ & Hlast); [|done].
  destruct o as [[response|l]|msg]; [left; eauto| |right; eauto].
  exfalso. eapply Hlast; [| |done]; lia.
Qed.

(** Target selection asks every target.  Each attempt checks the
    availability of every target of the upstream, once and in order, whether
    or not it is then chosen; the choice is the balancer's among those that
    answered available, and none when there is none. *)
Theorem pick_target_probes_all upstream key count tr o :
  exec (pick_target p upstream key count) tr o →
  ∃ oks, length oks = length (targets upstream) ∧
    tr = zip_with (λ t ok, Ev (EAvailable (upstream_name upstream)
                                 (target_key (upstream_name upstream) (target_id t))) ok)
                  (targets upstream) oks ∧
    o = match omap (λ to : UpstreamTarget * bool, if to.2 then Some to.1 else None)
                   (zip (targets upstream) oks) with
        | [] => Done None
        | available => select_target p (strategy upstream) available (Some key) count
        end.
Proof. apply pick_target_exec. Qed.
End handler_properties.

Lemma demo_wf_targets : wf_targets demo_cfg.
Proof. repeat constructor; simpl; unfold uint; lia. Qed.

Lemma sends_are_admitted_witness :
  Ev EDraining false ∈ take 11 (demo_trace 200).
Proof.
  apply (@sends_are_admitted list_header_map tree_json demo_jwt fnv_hasher sorted_map_order
    (λ _ _, true) Debug demo_cfg [] demo_request (take 11 (demo_trace 200))
    (Ev (ESend (@Build_UpstreamRequest list_header_map GET "http://10.0.0.2:8080/users?id=1" [] ""))
        (Ok (@Build_UpstreamResponse list_header_map 200 [] "hello")))
    (@Build_UpstreamRequest list_header_map GET "http://10.0.0.2:8080/users?id=1" [] "")
    (drop 12 (demo_trace 200))).
  - exact demo_wf_targets.
  - apply (reaches_exec_prefix _ _ (run_oracle (demo_answer 200) demo_handler).2).
    exact (run_oracle_exec (demo_answer 200) demo_handler).
  - reflexivity.
Defined.

Lemma sends_are_bounded_witness : (Z.of_nat (countb is_send (demo_trace 503)) ≤ 3)%Z.
Proof.
  apply (@sends_are_bounded list_header_map tree_json demo_jwt fnv_hasher sorted_map_order
    (λ _ _, true) Debug demo_cfg [] demo_request (demo_trace 503)).
  - exact demo_wf_targets.
  - apply (reaches_exec_prefix _ _ (run_oracle (demo_answer 503) demo_handler).2).
    exact (run_oracle_exec (demo_answer 503) demo_handler).
Defined.

Lemma draining_refuses_witness :
  ∃ draining tr', demo_trace 200 = Ev (EInc CRequest) () :: Ev EDraining draining :: tr'.
Proof.
  destruct (@draining_refuses list_header_map tree_json demo_jwt fnv_hasher sorted_map_order
    (λ _ _, true) Debug demo_cfg [] demo_request (demo_trace 200)
    (run_oracle (demo_answer 200) demo_handler).2) as (d & tr' & Htr & _).
  - exact (run_oracle_exec (demo_answer 200) demo_handler).
  - exists d, tr'. exact Htr.
Defined.

Lemma retry_loop_answers_witness :
  let fw := @forwarding list_header_map sorted_map_order demo_cfg (plain_route "r" "/" "u" []) demo_request
              "r:10.0.0.9" (demo_upstream "u" [target_a; target_b]) "/" "" in
  let run := run_oracle (demo_answer 503)
    (@attempts list_header_map fnv_hasher sorted_map_order (λ _ _, true) Debug demo_cfg [] fw 0 3 1
      None) in
  (∃ response, run.2 = Done (inl response)) ∨ (∃ msg, run.2 = Panicked msg).
Proof.
  intros fw run.
  apply (@retry_loop_answers list_header_map fnv_hasher sorted_map_order (λ _ _, true) Debug demo_cfg
    [] fw 0 run.1 run.2).
  - repeat constructor; simpl; unfold uint; lia.
  - vm_compute. congruence.
  - apply run_oracle_exec.
Defined.

Lemma pick_target_probes_all_witness :
  let run := run_oracle (demo_answer 200)
    (@pick_target list_header_map fnv_hasher Debug (demo_upstream "u" [target_a; target_b]) "k" 3) in
  length run.1 = 2.
Proof.
  intros run.
  destruct (@pick_target_probes_all list_header_map fnv_hasher Debug
    (demo_upstream "u" [target_a; target_b]) "k" 3 run.1 run.2) as (oks & Hl & -> & _).
  - apply run_oracle_exec.
  - rewrite length_zip_with_l_eq; [reflexivity|]. by rewrite Hl.
Defined.

Section fault_and_relay.
Context `{HM : HeaderMapOps}.

(** Fault injection.  With a jitter below [u64::MAX], injection never
    panics; it fires exactly when it is enabled and the request's bucket is
    below the probability; when it fires it sleeps for the configured delay
    plus at most the jitter (saturating, and only if that is not zero) and
    answers exactly when an abort status is configured; when it does not fire
    it does nothing. *)
Theorem fault_injection_spec `{!Hasher} p fault key count tr o :
  uint 64 (delay_ms fault) → (0 ≤ jitter_ms fault < umax 64)%Z →
  exec (maybe_apply_fault_injection p fault key count) tr o →
  let fires := fault_enabled fault
    && (deterministic_percentage_bucket "fault-injection" key count <? probability_percent fault)%Z in
  ∃ delay, (delay_ms fault ≤ delay ≤ saturating_add 64 (delay_ms fault) (jitter_ms fault))%Z ∧
    tr = (if fires && (0 <? delay)%Z then [Ev (ESleep delay) ()] else []) ∧
    o = Done (if fires then
                status ← abort_status fault;
                Some (TextResponse (default 500%Z (status_from_u16 status))
                        (default "fault injection abort" (abort_body fault)))
              else None).
Proof.
  intros [Hd Hd'] [Hj Hj'] He fires. unfold maybe_apply_fault_injection in He. subst fires.
  assert (delay_ms fault ≤ saturating_add 64 (delay_ms fault) (jitter_ms fault))%Z as Hle.
  { unfold saturating_add, umax. lia. }
  destruct (fault_enabled fault); simpl in He;
    [|exec_step He; exists (delay_ms fault); split; [lia|done]].
  set (bucket := deterministic_percentage_bucket _ _ _) in *.
  destruct (probability_percent fault <=? bucket)%Z eqn:Eb; bool_to_Z.
  { exec_step He. exists (delay_ms fault). rewrite (proj2 (Z.ltb_ge _ _)) by lia. by split. }
  rewrite (proj2 (Z.ltb_lt bucket _)) by lia. simpl.
  assert (∃ jitter, fault_jitter p fault key count = Done jitter ∧ 0 ≤ jitter ≤ jitter_ms fault)%Z
    as (jitter & Hjit & Hjr).
  { unfold fault_jitter. destruct (0 <? jitter_ms fault)%Z eqn:E0; bool_to_Z; [|eexists; split; [done|lia]].
    rewrite add_uint_done by (unfold uint, umax in *; lia). simpl.
    rewrite rem_uint_done by lia. eexists. split; [done|].
    assert (0 ≤ hash_finish [HashStr key; HashUsize count] `mod` (jitter_ms fault + 1) < jitter_ms fault + 1)%Z
      by (apply Z.mod_pos_bound; lia). lia. }
  rewrite Hjit in He. apply exec_ret_bind in He.
  exists (saturating_add 64 (delay_ms fault) jitter).
  split; [unfold saturating_add, umax; lia|].
  destruct (0 <? saturating_add 64 _ _)%Z; [exec_step He; destruct x|apply exec_ret_bind in He];
    destruct (abort_status fault); exec_step He; done.
Qed.

(** The largest jitter panics.  With [jitter_ms] at [u64::MAX], which no
    check of the configuration excludes, an injection that fires panics in
    both build profiles: in debug the addition overflows, in release it wraps
    to a remainder by zero. *)
Theorem fault_jitter_overflow `{!Hasher} p fault key count tr o :
  jitter_ms fault = umax 64 → fault_enabled fault = true →
  (deterministic_percentage_bucket "fault-injection" key count < probability_percent fault)%Z →
  exec (maybe_apply_fault_injection p fault key count) tr o →
  tr = [] ∧ ∃ msg, o = Panicked msg.
Proof.
  intros Hj Hen Hb He. unfold maybe_apply_fault_injection in He. rewrite Hen in He. simpl in He.
  rewrite (proj2 (Z.leb_gt _ _)) in He by done.
  assert (∃ msg, fault_jitter p fault key count = Panicked msg) as [msg Hmsg].
  { unfold fault_jitter. rewrite Hj. destruct p; eexists; reflexivity. }
  rewrite Hmsg in He. apply exec_inv in He as [-> ->]. eauto.
Qed.

(** What is relayed.  The response built from an upstream's answer either
    is a 403 of a response-phase plugin, or the builder's failure, or carries
    the upstream's status, the configured or the upstream's body, and exactly
    those transformed response headers that are not hop-by-hop. *)
Theorem relay_response_spec `{!MapOrder} builder_accepts plugins route ctx resp :
  let r := relay_response builder_accepts plugins route ctx resp in
  let t := transform_response (transform route) in
  (response_status r = 403%Z ∧
     (allowed (run_phase plugins HeaderFilter ctx) = false ∨
      allowed (run_phase plugins BodyFilter ctx) = false)) ∨
  r = TextResponse 500 "failed to build response" ∨
  ∃ headers, r = RelayedResponse (resp_status resp) headers
                   (default (resp_stream resp) (resp_body_replace t)) ∧
    (∀ n v, (n, v) ∈ headers ↔
       (n, v) ∈ hm_iter (transform_response_headers (resp_headers resp) t) ∧
       to_ascii_lowercase (name_as_str n) ∉ hop_by_hop_headers).
Proof.
  intros r t. subst r. unfold relay_response, run_response_plugin_phases.
  destruct (allowed (run_phase plugins HeaderFilter ctx)) eqn:Eh; simpl; [|by left; auto].
  destruct (allowed (run_phase plugins BodyFilter ctx)) eqn:Eb; simpl; [|by left; auto].
  right. unfold build_response. fold t. destruct (builder_accepts _ _); [right|by left].
  eexists. split; [done|]. intros n v. rewrite elem_of_filterb. simpl.
  unfold is_hop_by_hop_header. rewrite negb_true_iff, bool_decide_eq_false. done.
Qed.

(** A validated configuration always finds its upstream.  For a valid
    configuration and any of its routes, whatever the headers, the client and
    the counter, the selected upstream (the route's or its canary) exists, has
    a target, and has a runtime registry: the handler's "upstream config not
    found" and "runtime state unavailable" are never given. *)
Theorem valid_config_forwards `{!Hasher} cfg route headers key count :
  valid_config cfg → route ∈ routes cfg →
  ∃ u reg, find_upstream cfg (select_upstream_name route headers key count) = Some u ∧
    targets u ≠ [] ∧ build_runtime_registry cfg !! upstream_name u = Some reg.
Proof.
  intros (_ & Hr & Hu) Hin. rewrite Forall_forall in Hr. destruct (Hr route Hin) as (Hup & Hcan & _).
  assert (select_upstream_name route headers key count ∈ upstream_name <$> upstreams cfg) as Hname.
  { unfold select_upstream_name. destruct (canary_upstream _) as [c|]; [|done].
    specialize (Hcan c eq_refl). repeat case_match; done. }
  generalize dependent (select_upstream_name route headers key count). intros name Hname.
  apply list_elem_of_fmap in Hname as (u0 & -> & Hu0).
  assert (∃ u, find_upstream cfg (upstream_name u0) = Some u) as [u Hf].
  { unfold find_upstream, find_first. destruct (List.find _ _) as [u|] eqn:E; [eauto|].
    exfalso. apply list_elem_of_In in Hu0.
    pose proof (List.find_none _ _ E u0 Hu0) as Hn. simpl in Hn. by bool_to_Z. }
  apply find_upstream_in in Hf as Hfin. destruct Hfin as [Huin _].
  assert (is_Some (build_runtime_registry cfg !! upstream_name u)) as [reg Hreg].
  { unfold build_runtime_registry. clear -Huin.
    generalize (∅ : gmap string RuntimeRegistry). induction (upstreams cfg) as [|v us IH]; intros m.
    { by apply not_elem_of_nil in Huin. }
    simpl. apply elem_of_cons in Huin as [->|Huin]; [|by apply IH].
    assert (∀ (m : gmap string RuntimeRegistry), is_Some (m !! upstream_name v) →
      is_Some (foldl (λ m u, <[upstream_name u :=
        RuntimeRegistry_new (passive (health_checks u)) (circuit_breaker u)]> m) m us
        !! upstream_name v)) as Hkeep.
    { clear. induction us as [|w us IH]; intros m Hm; simpl; [done|]. apply IH.
      destruct (decide (upstream_name w = upstream_name v)) as [->|Hne];
        [rewrite lookup_insert_eq; eauto|by rewrite lookup_insert_ne]. }
    apply Hkeep. rewrite lookup_insert_eq. eauto. }
  exists u, reg. split; [done|]. split; [|done].
  rewrite Forall_forall in Hu. by apply Hu.
Qed.
End fault_and_relay.

Definition demo_fault (jitter : Z) : FaultInjectionConfig := {|
  fault_enabled := true; probability_percent := 100; delay_ms := 5; jitter_ms := jitter;
  abort_status := Some 503%Z; abort_body := None;
|}.

Lemma fault_injection_spec_witness :
  let run := run_oracle (demo_answer 200)
    (@maybe_apply_fault_injection list_header_map fnv_hasher Debug (demo_fault 10) "k" 3) in
  ∃ delay, (5 ≤ delay ≤ 15)%Z ∧ run.1 = [Ev (ESleep delay) ()].
Proof.
  intros run.
  destruct (@fault_injection_spec list_header_map fnv_hasher Debug (demo_fault 10) "k" 3 run.1 run.2)
    as (delay & Hd & Htr & _).
  - unfold uint. simpl. lia.
  - simpl. unfold umax. lia.
  - apply run_oracle_exec.
  - exists delay. simpl in Hd. unfold saturating_add, umax in Hd. split; [lia|].
    rewrite Htr. rewrite (proj2 (Z.ltb_lt 0 delay)) by lia.
    assert (fault_enabled (demo_fault 10)
      && (@deterministic_percentage_bucket fnv_hasher "fault-injection" "k" 3
          <? probability_percent (demo_fault 10))%Z = true) as -> by (vm_compute; reflexivity).
    reflexivity.
Defined.

Lemma fault_jitter_overflow_witness :
  (run_oracle (demo_answer 200)
    (@maybe_apply_fault_injection list_header_map fnv_hasher Release (demo_fault (2 ^ 64 - 1)) "k" 3)).1
  = [].
Proof.
  apply (@fault_jitter_overflow list_header_map fnv_hasher Release (demo_fault (2 ^ 64 - 1)) "k" 3 _
    (run_oracle (demo_answer 200) (@maybe_apply_fault_injection list_header_map fnv_hasher Release
      (demo_fault (2 ^ 64 - 1)) "k" 3)).2).
  - reflexivity.
  - reflexivity.
  - vm_compute. reflexivity.
  - apply run_oracle_exec.
Defined.

Lemma valid_config_forwards_witness :
  ∃ u reg, find_upstream demo_cfg "u" = Some u ∧ build_runtime_registry demo_cfg !! upstream_name u = Some reg.
Proof.
  destruct (@valid_config_forwards list_header_map fnv_hasher demo_cfg (plain_route "r" "/" "u" []) []
    "k" 3) as (u & reg & Hu & _ & Hreg).
  - apply validate_ok. reflexivity.
  - apply list_elem_of_here.
  - exists u, reg. split; [exact Hu|exact Hreg].
Defined.
