(* ===== verification/HandlerBounds.v ===== *)
(** * Bounds on a request (main.rs)

    What a run of the proxy handler costs and how it ends: a small program
    logic over [prog] ([within]: under given assumptions on the answers, a
    program ends after at most so many effects, with a result that satisfies a
    postcondition), and with it the termination of the handler, its freedom
    from panics when no configured number overflows, and the deadline of the
    retry loop. *)

From S2P Require Export Handler.

#[local] Open Scope string_scope.
#[local] Open Scope list_scope.

(** ** A program logic *)

Section within.
Context `{HM : HeaderMapOps}.

(** [ok] is what is assumed of the answers, [panics] whether panics are
    allowed. *)
Fixpoint within {A} (ok : event → Prop) (panics : Prop) (Q : A → Prop) (n : nat) (m : prog A)
    {struct m} : Prop :=
  match m with
  | Ret a => Q a
  | Panic _ => panics
  | Vis e k =>
      match n with
      | 0 => False
      | S n => ∀ x, ok (Ev e x) → within ok panics Q n (k x)
      end
  end.

Context (ok : event → Prop) (panics : Prop).
Abbreviation within' := (within ok panics) (only parsing).

Lemma within_mono {A} (Q Q' : A → Prop) (m : prog A) : ∀ n n',
  (n ≤ n')%nat → (∀ a, Q a → Q' a) → within' Q n m → within' Q' n' m.
Proof.
  induction m as [a|msg|X e k IH]; intros n n' Hn HQ; simpl; [apply HQ|done|].
  destruct n as [|n]; [done|]. destruct n' as [|n']; [lia|].
  intros Hm x Hx. eapply (IH x n n'); [lia|done|]. by apply Hm.
Qed.

Lemma within_bind {A B} (Q : A → Prop) (R : B → Prop) (m : prog A) (f : A → prog B) k : ∀ n,
  within' Q n m → (∀ a, Q a → within' R k (f a)) → within' R (n + k) (m ≫= f).
Proof.
  induction m as [a|msg|X e g IH]; intros n Hm Hf; simpl in Hm.
  - eapply (within_mono R R _ k); [lia|done|]. by apply Hf.
  - done.
  - destruct n as [|n]; [done|]. intros x Hx. apply (IH x); [by apply Hm|done].
Qed.

Lemma within_step {X B} (R : B → Prop) (e : effect X) (f : X → prog B) n :
  (∀ x, ok (Ev e x) → within' R n (f x)) → within' R (S n) (perform e ≫= f).
Proof. done. Qed.

Lemma within_fmap {A B} (Q : B → Prop) (g : A → B) (m : prog A) n :
  within' (λ a, Q (g a)) n m → within' Q n (g <$> m).
Proof.
  intros Hm. rewrite <-(Nat.add_0_r n).
  by apply (within_bind (λ a, Q (g a)) Q m (λ a, Ret (g a))).
Qed.

Lemma within_lift {A B} (Q : A → Prop) (R : B → Prop) (o : outcome A) (f : A → prog B) n :
  match o with Done a => Q a | Panicked _ => panics end →
  (∀ a, Q a → within' R n (f a)) → within' R n (lift_outcome o ≫= f).
Proof. intros Ho Hf. destruct o; [by apply Hf|done]. Qed.

(** What the logic says of the runs of a program. *)
Lemma within_exec {A} (Q : A → Prop) n (m : prog A) tr o :
  exec m tr o → within' Q n m → Forall ok tr →
  match o with Done a => Q a | Panicked _ => panics end.
Proof.
  intros He. revert n. induction He as [a|msg|X e k x tr o He IH]; intros n Hw Htr; [done|done|].
  apply Forall_cons in Htr as [Hx Htr]. destruct n as [|n]; [done|]. exact (IH n (Hw x Hx) Htr).
Qed.

Lemma within_length {A} (Q : A → Prop) n (m : prog A) tr :
  reaches m tr → within' Q n m → Forall ok tr → (length tr ≤ n)%nat.
Proof.
  intros Hr. revert n. induction Hr as [m|X e k x tr Hr IH]; intros n Hw Htr; simpl; [lia|].
  apply Forall_cons in Htr as [Hx Htr]. destruct n as [|n]; [done|].
  specialize (IH n (Hw x Hx) Htr). lia.
Qed.
End within.

(** ** The cost of the handler *)

Section bounds.
Context `{HM : HeaderMapOps, J : JsonOps, !JwtOps J, !Hasher, !MapOrder}.
Context (builder_accepts : Z → list (HeaderName * HeaderValue) → bool).
Context (p : profile) (cfg : GatewayConfig) (plugins : PluginManager).

(** The most targets of an upstream, and the most effects of a request. *)
Definition most_targets : nat := foldr (λ u, max (length (targets u))) 0 (upstreams cfg).
Definition handler_cost (rq : ProxyRequest) : nat :=
  8 + Z.to_nat (max_attempts_for cfg (rq_method rq)) * (most_targets + 6).

(** No number of the configuration overflows: the weights of every upstream
    fit in a [u32] together, and no jitter is [u64::MAX]. *)
Definition no_overflow : Prop :=
  Forall (λ u, Forall wf_target (targets u) ∧ (sumZ (weight <$> targets u) < 2 ^ 32)%Z)
         (upstreams cfg) ∧
  Forall (λ r, (0 ≤ jitter_ms (fault_injection r) < umax 64)%Z ∧ is_utf8 (path_prefix r) = true)
         (routes cfg).

(** What [http::Uri] promises: the path and query starts with the path, and
    both are UTF-8; and for a target without a path (as in [http://host?q]) the
    path is [/] although the path and query starts with the question mark. *)
Definition wf_request (rq : ProxyRequest) : Prop :=
  (∃ query, default (rq_path rq) (rq_path_and_query rq) = rq_path rq +:+ query ∧
     is_utf8 (rq_path rq +:+ query) = true) ∨
  (∃ query, rq_path rq = "/" ∧ rq_path_and_query rq = Some ("?" +:+ query) ∧
     is_utf8 query = true).

(** A rate-limit check that did not panic. *)
Definition limiter_answered (ev : event) : Prop :=
  match ev with
  | Ev e x =>
      match e in effect X return X → Prop with
      | ECheckLimit _ => λ x, is_done x = true
      | _ => λ _, True
      end x
  end.

Definition answered (ev : event) : bool :=
  match ev with
  | Ev e x =>
      match e in effect X return X → bool with
      | ECheckLimit _ => λ x, is_done x
      | _ => λ _, true
      end x
  end.

Lemma answered_spec ev : answered ev = true ↔ limiter_answered ev.
Proof. destruct ev as [X e x]. by destruct e. Qed.

Lemma most_targets_ge u : u ∈ upstreams cfg → (length (targets u) ≤ most_targets)%nat.
Proof.
  unfold most_targets. induction (upstreams cfg) as [|v us IH]; [by intros ?%not_elem_of_nil|].
  simpl. intros [->|Hu]%elem_of_cons; [lia|]. specialize (IH Hu). lia.
Qed.

Lemma fault_jitter_done fault key count :
  (0 ≤ jitter_ms fault < umax 64)%Z → is_done (fault_jitter p fault key count) = true.
Proof.
  intros [? ?]. unfold fault_jitter. case_match; [|done]. unfold umax in *.
  rewrite add_uint_done by (unfold uint; lia). simpl. by rewrite rem_uint_done by lia.
Qed.

Lemma available_sublist (ts : list UpstreamTarget) : ∀ oks,
  omap (λ to : UpstreamTarget * bool, if to.2 then Some to.1 else None) (zip ts oks) `sublist_of` ts.
Proof.
  induction ts as [|t ts IH]; intros [|[] oks]; simpl; try apply sublist_nil_l;
    [apply sublist_skip|apply sublist_cons]; apply IH.
Qed.

Lemma sublist_weights ts ts' :
  ts' `sublist_of` ts → Forall wf_target ts →
  Forall wf_target ts' ∧ (sumZ (weight <$> ts') ≤ sumZ (weight <$> ts))%Z.
Proof.
  induction 1 as [|t l k Hl IH|t l k Hl IH]; [done|..];
    intros [Ht Hk]%Forall_cons; destruct (IH Hk) as [? ?]; rewrite !fmap_cons, !sumZ_cons.
  - split; [by constructor|lia].
  - split; [done|]. destruct Ht as [_ [? _]]. lia.
Qed.

Lemma select_target_done strategy ts key count :
  Forall wf_target ts → (sumZ (weight <$> ts) < 2 ^ 32)%Z →
  is_done (select_target p strategy ts key count) = true.
Proof.
  intros Hwf Hs. destruct strategy; simpl; [|done|destruct key; [|done]];
    by rewrite pick_weighted_done.
Qed.

Section cost.
Context (ok : event → Prop) (panics : Prop).
Context (Hlimit : panics ∨ ∀ ctx x, ok (Ev (ECheckLimit ctx) x) → is_done x = true).
Context (Hcfg : panics ∨ no_overflow).
Abbreviation within' := (within ok panics) (only parsing).
Abbreviation anything := (λ _, True) (only parsing).

Lemma lift_ok {A} (o : outcome A) :
  panics ∨ is_done o = true → match o with Done a => True | Panicked _ => panics end.
Proof. by destruct o; intros [?|?]. Qed.

Lemma within_respond c status text : within' anything 1 (count_and_respond c status text).
Proof. by intros []. Qed.

Lemma within_available upstream ts :
  within' (λ l, ∃ oks, l = omap (λ to : UpstreamTarget * bool, if to.2 then Some to.1 else None)
                               (zip ts oks)) (length ts) (available_targets upstream ts).
Proof.
  induction ts as [|t ts IH]; cbn [available_targets length]; [by exists []|].
  intros x _. rewrite <-(Nat.add_0_r (length ts)). eapply within_bind; [exact IH|].
  intros l [oks ->]. exists (x :: oks). by destruct x.
Qed.

Lemma within_pick u key count :
  u ∈ upstreams cfg → within' anything (length (targets u)) (pick_target p u key count).
Proof.
  intros Hu. unfold pick_target. rewrite <-(Nat.add_0_r (length (targets u))).
  eapply within_bind; [apply within_available|]. intros l [oks ->].
  pose proof (available_sublist (targets u) oks) as Hsub.
  destruct (omap _ _) as [|a l]; [done|].
  assert (panics ∨ is_done (select_target p (strategy u) (a :: l) (Some key) count) = true) as Hd.
  { destruct Hcfg as [?|[Hus _]]; [by left|right]. rewrite Forall_forall in Hus.
    destruct (Hus u Hu) as [Hwf Hs]. destruct (sublist_weights _ _ Hsub Hwf) as [Hwf' Hs'].
    apply select_target_done; [done|lia]. }
  apply lift_ok in Hd. by destruct (select_target _ _ _ _ _).
Qed.

Lemma within_attempt fw started attempt last :
  fw_upstream fw ∈ upstreams cfg →
  within' anything (most_targets + 6)
    (attempt_once builder_accepts p cfg plugins fw started attempt last).
Proof.
  intros Hu. pose proof (most_targets_ge _ Hu) as Hn.
  replace (most_targets + 6)%nat with (S (S (most_targets + 4))) by lia.
  unfold attempt_once. apply within_step. intros now _. case_match.
  { apply within_fmap. eapply within_mono, within_respond; [lia|done]. }
  apply within_step. intros count _. eapply (within_bind _ _ anything).
  { eapply within_mono; [exact Hn| |by apply within_pick]. done. }
  intros [t|] _.
  - apply within_step. intros [resp|err] _.
    + case_match; repeat (apply within_step; intros ? _); done.
    + do 2 (apply within_step; intros ? _). case_match; [by apply within_step|done].
  - apply within_fmap. eapply within_mono, within_respond; [lia|done].
Qed.

Lemma within_attempts fw started remaining : ∀ attempt last,
  fw_upstream fw ∈ upstreams cfg →
  within' anything (remaining * (most_targets + 6))
    (attempts builder_accepts p cfg plugins fw started remaining attempt last).
Proof.
  induction remaining as [|n IH]; intros attempt last Hu; cbn [attempts Nat.mul]; [done|].
  eapply within_bind; [by apply within_attempt|]. intros [r|l] _; [done|by apply IH].
Qed.

Lemma within_fault fault key count :
  panics ∨ (0 ≤ jitter_ms fault < umax 64)%Z →
  within' anything 1 (maybe_apply_fault_injection p fault key count).
Proof.
  intros Hj. unfold maybe_apply_fault_injection. case_match; [done|]. case_match; [done|].
  apply (within_lift _ _ anything).
  { apply lift_ok. destruct Hj as [?|Hj]; [by left|right]. by apply fault_jitter_done. }
  intros jitter _. destruct (0 <? saturating_add _ _ _)%Z.
  - apply within_step. intros ? _. by case_match.
  - apply (within_bind _ _ anything anything (Ret ()) _ 1 0); [done|]. intros ? _. by case_match.
Qed.

Lemma within_admission route rq :
  route ∈ routes cfg → within' anything 3 (admission p cfg plugins route rq).
Proof.
  intros Hr. unfold admission.
  assert (∀ n c status text, within' anything (S n)
    (inl <$> count_and_respond c status text : prog (Response + (string * Z)))) as Hresp.
  { intros. apply within_fmap. eapply within_mono, within_respond; [lia|done]. }
  case_match; [apply Hresp|]. case_match; [|apply Hresp]. case_match; [apply Hresp|].
  apply within_step. intros x Hx. apply (within_lift _ _ anything).
  { apply lift_ok. destruct Hlimit as [?|Hl]; [by left|right]. by eapply Hl. }
  intros b _. case_match; [apply Hresp|]. apply within_step. intros n _.
  rewrite <-(Nat.add_0_r 1). eapply within_bind.
  - apply within_fault. destruct Hcfg as [?|[_ Hrs]]; [by left|right].
    rewrite Forall_forall in Hrs. by apply Hrs.
  - by intros [resp|] _.
Qed.

Lemma rewrite_done route rq :
  is_utf8 (path_prefix route) = true → wf_request rq →
  is_done (rewrite_path_and_query route (rq_path rq) (default (rq_path rq) (rq_path_and_query rq)))
  = true.
Proof.
  intros Hu Hrq. unfold rewrite_path_and_query.
  destruct (path_prefix_rewrite _); [|done].
  destruct (starts_with (rq_path rq) (path_prefix route)) eqn:E; simpl; [|done].
  apply starts_with_inv in E as [rest Hrest].
  destruct Hrq as [(query & -> & Hutf)|(query & Hp & -> & Hutf)].
  - rewrite Hrest in *.
    rewrite <-(assoc_L String.append) in Hutf |- *. by rewrite slice_from_app.
  - rewrite Hp in Hrest. destruct (path_prefix route) as [|c prefix]; [done|].
    injection Hrest as <- Hrest. destruct prefix; [|done].
    pose proof (slice_from_app "?" query eq_refl Hutf) as Hs. simpl in Hs |- *. by rewrite Hs.
Qed.

Lemma within_forward route rq key count :
  route ∈ routes cfg → panics ∨ wf_request rq →
  within' anything (2 + Z.to_nat (max_attempts_for cfg (rq_method rq)) * (most_targets + 6))
    (forward builder_accepts p cfg plugins route rq key count).
Proof.
  intros Hr Hrq. unfold forward. destruct (find_upstream _ _) as [u|] eqn:Eu;
    [|eapply within_mono, within_respond; [lia|done]].
  case_match; [|eapply within_mono, within_respond; [lia|done]].
  apply (within_lift _ _ anything).
  { apply lift_ok. destruct Hrq as [?|Hrq]; [by left|]. destruct Hcfg as [?|[_ Hrs]]; [by left|right].
    rewrite Forall_forall in Hrs. apply rewrite_done; [by apply Hrs|done]. }
  intros pq _. apply within_step. intros [bytes|err] _; [|by apply within_step].
  apply within_step. intros started _.
  rewrite <-(Nat.add_0_r (_ * _)). eapply (within_bind _ _ anything).
  - apply within_attempts. simpl. by apply find_upstream_in in Eu as [? _].
  - done.
Qed.

Lemma within_handler rq :
  panics ∨ wf_request rq →
  within' anything (handler_cost rq) (proxy_handler builder_accepts p cfg plugins rq).
Proof.
  intros Hrq. unfold proxy_handler, handler_cost. do 2 (apply within_step; intros ? _).
  case_match; [done|]. apply within_step. intros ? _. unfold guarded_handler.
  destruct (match_route _ _ _) as [route|] eqn:Er; [|done].
  assert (route ∈ routes cfg) as Hin by (by apply match_route_In in Er as [? _]).
  apply (within_bind _ _ anything anything _ _ _ 3); [by apply within_admission|].
  intros [resp|[key n]] _; [done|by apply within_forward].
Qed.
End cost.

(** ** The deadline of the retry loop *)

(** The clock readings of a trace. *)
Definition reading (ev : event) : option instant :=
  match ev with
  | Ev e x => match e in effect X return X → option instant with
              | ENow => λ now, Some now
              | _ => λ _, None
              end x
  end.
Definition readings (tr : list event) : list instant := omap reading tr.

Definition request_timeout : duration := from_millis (request_timeout_ms (proxy (server cfg))).

(** Not past the deadline of a loop that started at [started]. *)
Definition in_time (started now : instant) : Prop :=
  (duration_since now started < request_timeout)%Z.

Lemma readings_app tr1 tr2 : readings (tr1 ++ tr2) = readings tr1 ++ readings tr2.
Proof. apply omap_app. Qed.

Lemma readings_cons ev tr :
  readings (ev :: tr) = match reading ev with Some now => now :: readings tr | None => readings tr end.
Proof. done. Qed.

Lemma readings_none tr : Forall (λ ev, reading ev = None) tr → readings tr = [].
Proof.
  induction 1 as [|ev tr Hev Htr IH]; [done|]. by rewrite readings_cons, Hev.
Qed.

Lemma probes_no_reading upstream ts oks :
  Forall (λ ev, reading ev = None) (zip_with (probe upstream) ts oks).
Proof.
  revert oks. induction ts as [|t ts IH]; intros [|ok oks]; simpl; constructor; [done|]. apply IH.
Qed.

(** One attempt reads the clock once, first, and sends nothing when it is past
    the deadline. *)
Lemma attempt_once_reads fw started attempt last tr o :
  exec (attempt_once builder_accepts p cfg plugins fw started attempt last) tr o →
  ∃ now rest, tr = Ev ENow now :: rest ∧ Forall (λ ev, reading ev = None) rest ∧
    (in_time started now ∨
     Forall (λ ev, is_send ev = false) rest ∧
     o = Done (inl (TextResponse 504 "upstream request timed out"))).
Proof.
  unfold attempt_once. intros He. exec_step He. exists x, tr0. split; [done|].
  destruct (_ <=? _)%Z eqn:Et; bool_to_Z.
  { apply exec_fmap in He as [(msg & He & ->)|(a & He & ->)];
      apply count_and_respond_exec in He as [-> [= ->]].
    split; [by repeat constructor|right]. split; [by repeat constructor|done]. }
  split; [|by left].
  exec_step He. apply exec_bind in He as [(msg & He & ->)|(picked & tr1 & tr2 & -> & Hm & He)].
  { apply pick_target_exec in He as (oks & _ & -> & _). constructor; [done|]. apply probes_no_reading. }
  apply pick_target_exec in Hm as (oks & _ & -> & _).
  constructor; [done|]. apply Forall_app. split; [apply probes_no_reading|].
  destruct picked as [t|].
  - exec_step He. constructor; [done|]. destruct x1 as [resp|err].
    + destruct (_ && _); repeat exec_step He; by repeat constructor.
    + do 2 exec_step He. destruct (_ <? _)%Z; repeat exec_step He; by repeat constructor.
  - apply exec_fmap in He as [(msg & He & ->)|(a & He & ->)];
      apply count_and_respond_exec in He as [-> _]; by repeat constructor.
Qed.
(** A request is sent in time when the last clock reading before it is. *)
Definition sent_in_time (started : instant) (before : list event) (_ : UpstreamRequest) : Prop :=
  ∃ now, last (readings before) = Some now ∧ in_time started now.

Lemma sent_in_time_mono started b0 b r : sent_in_time started b r → sent_in_time started (b0 ++ b) r.
Proof.
  intros (now & Hl & Hn). exists now. split; [|done]. by rewrite readings_app, last_app, Hl.
Qed.

Lemma sends_in_time started now rest : ∀ mid,
  Forall (λ ev, reading ev = None) rest → Forall (λ ev, reading ev = None) mid →
  in_time started now → sends_ok (sent_in_time started) (Ev ENow now :: mid) rest.
Proof.
  induction rest as [|ev rest IH]; intros mid Hr Hm Hn; [done|].
  apply Forall_cons in Hr as [He Hr]. split.
  - intros r _. exists now. rewrite readings_cons, readings_none by done. done.
  - apply (IH (mid ++ [ev])); [done| |done]. apply Forall_app. split; [done|by constructor].
Qed.

Definition timed_out (o : outcome Response) : Prop :=
  o = Done (TextResponse 504 "upstream request timed out").

Lemma attempts_in_time fw started remaining : ∀ attempt last tr o,
  exec (attempts builder_accepts p cfg plugins fw started remaining attempt last) tr o →
  sends_ok (sent_in_time started) [] tr ∧
  ∀ now, now ∈ readings tr → ¬ in_time started now →
    o = Done (inl (TextResponse 504 "upstream request timed out")).
Proof.
  induction remaining as [|n IH]; intros attempt last tr o He; cbn [attempts] in He.
  { exec_step He. split; [done|]. intros now. by intros ?%not_elem_of_nil. }
  assert (∀ tr1 o1, exec (attempt_once builder_accepts p cfg plugins fw started attempt last) tr1 o1 →
    sends_ok (sent_in_time started) [] tr1 ∧ ∀ now, now ∈ readings tr1 → ¬ in_time started now →
      o1 = Done (inl (TextResponse 504 "upstream request timed out"))) as Hone.
  { intros tr1 o1 (now & rest & -> & Hr & Hn)%attempt_once_reads.
    rewrite readings_cons, (readings_none rest) by done. simpl. split.
    - split; [done|]. destruct Hn as [Hn|[Hq _]]; [by apply sends_in_time|by apply sends_ok_none].
    - intros now' ->%list_elem_of_singleton Hl. by destruct Hn as [?|[_ ?]]. }
  apply exec_bind in He as [(msg & He & ->)|(r & tr1 & tr2 & -> & Hm & He)].
  { apply Hone in He as [Hs Hl]. split; [done|]. intros now Hin Hn. by specialize (Hl now Hin Hn). }
  apply Hone in Hm as [Hs Hl]. destruct r as [response|last'].
  - exec_step He. rewrite app_nil_r. done.
  - apply IH in He as [Hs' Hl']. split.
    + apply sends_ok_app. split; [done|]. rewrite <-(app_nil_r ([] ++ tr1)).
      eapply sends_ok_impl; [|exact Hs']. intros. by apply sent_in_time_mono.
    + intros now. rewrite readings_app, elem_of_app. intros [Hin|Hin] Hn; [|by eapply Hl'].
      by specialize (Hl now Hin Hn).
Qed.

(** A run of the handler: a part that neither reads the clock nor sends, then
    possibly the retry loop. *)
Abbreviation idle := (Forall (λ ev, reading ev = None ∧ is_send ev = false)) (only parsing).

Lemma idle_spec tr : idle tr → readings tr = [] ∧ Forall (λ ev, is_send ev = false) tr.
Proof.
  intros Hi. split; [apply readings_none|]; (eapply Forall_impl; [exact Hi|]); by intros ev [? ?].
Qed.

Lemma respond_idle {A} (g : Response → A) c status text tr o :
  exec (g <$> count_and_respond c status text) tr o →
  idle tr ∧ o = Done (g (TextResponse status text)).
Proof.
  intros He. apply exec_fmap in He as [(msg & He & ->)|(a & He & ->)];
    apply count_and_respond_exec in He as [-> [= ->]]. split; [by repeat constructor|done].
Qed.

Lemma admission_idle route rq tr o : exec (admission p cfg plugins route rq) tr o → idle tr.
Proof.
  unfold admission. intros He.
  case_match; [by apply respond_idle in He as [? _]|].
  case_match; [|by apply respond_idle in He as [? _]].
  case_match; [by apply respond_idle in He as [? _]|].
  exec_step He. apply exec_lift in He as [(msg & -> & -> & ->)|(ok & -> & He)]; [by repeat constructor|].
  constructor; [done|]. destruct ok; simpl in He; [|by apply respond_idle in He as [? _]].
  exec_step He. constructor; [done|].
  assert (∀ fault key n tr o, exec (maybe_apply_fault_injection p fault key n) tr o → idle tr) as Hf.
  { clear. unfold maybe_apply_fault_injection. intros fault key n tr o He.
    case_match; [exec_step He; constructor|]. case_match; [exec_step He; constructor|].
    exec_step He; [constructor|].
    destruct (0 <? _)%Z; [exec_step He; constructor; [done|]|apply exec_ret_bind in He];
      (destruct (abort_status _); exec_step He; constructor). }
  apply exec_bind in He as [(msg & He & _)|(r & tr1 & tr2 & -> & Hm & He)]; [by eapply Hf|].
  apply Forall_app. split; [by eapply Hf|]. destruct r; exec_step He; constructor.
Qed.

Lemma forward_idle route rq key count tr o :
  exec (forward builder_accepts p cfg plugins route rq key count) tr o →
  idle tr ∨ ∃ body fw tr', tr = body :: tr' ∧ idle [body] ∧
    exec (retry_loop builder_accepts p cfg plugins fw) tr' o.
Proof.
  unfold forward. intros He.
  case_match; [|apply count_and_respond_exec in He as [-> _]; left; by repeat constructor].
  case_match; [|apply count_and_respond_exec in He as [-> _]; left; by repeat constructor].
  exec_step He; [left; constructor|]. apply exec_perform in He as ([bytes|err] & tr' & -> & He).
  - right. eexists _, _, _. split; [done|]. split; [by repeat constructor|exact He].
  - left. repeat exec_step He. by repeat constructor.
Qed.

Lemma handler_loop rq tr o :
  exec (proxy_handler builder_accepts p cfg plugins rq) tr o →
  idle tr ∨ ∃ before fw tr', tr = before ++ tr' ∧ idle before ∧
    exec (retry_loop builder_accepts p cfg plugins fw) tr' o.
Proof.
  intros He. apply proxy_handler_run in He as [[-> _]|(tr' & -> & He)]; [left; by repeat constructor|].
  assert (idle [Ev (EInc CRequest) (); Ev EDraining false; Ev EEnter ()]) as H3 by by repeat constructor.
  unfold guarded_handler in He. destruct (match_route _ _ _) as [route|]; [|exec_step He; by left].
  apply exec_bind in He as [(msg & He & _)|(r & tr1 & tr2 & -> & Hm & He)].
  { apply admission_idle in He. left. by repeat constructor. }
  apply admission_idle in Hm. destruct r as [resp|[key n]].
  { exec_step He. rewrite app_nil_r. left. by repeat constructor. }
  apply forward_idle in He as [He|(body & fw & tr' & -> & Hb & He)].
  - left. apply (Forall_app _ [_; _; _]). split; [done|]. by apply Forall_app.
  - right. exists ([Ev (EInc CRequest) (); Ev EDraining false; Ev EEnter ()] ++ tr1 ++ [body]), fw, tr'.
    split; [by rewrite <-!(assoc_L (++))|]. split; [|done]. apply Forall_app. split; [done|].
    by apply Forall_app.
Qed.

(** The sends of a run, interrupted or not. *)
Lemma handler_sends_in_time rq tr :
  reaches (proxy_handler builder_accepts p cfg plugins rq) tr →
  ∃ started, sends_ok (sent_in_time started) [] tr ∧
    (readings tr = [] ∨ head (readings tr) = Some started).
Proof.
  intros Hr. apply reaches_extends in Hr as (rest & o & He).
  apply handler_loop in He as [Hi|(before & fw & tr' & Heq & Hi & He)].
  { apply Forall_app in Hi as [Hi _]. apply idle_spec in Hi as [Hi Hq]. exists 0%Z.
    split; [by apply sends_ok_none|by left]. }
  unfold retry_loop in He. apply exec_perform in He as (started & tr1 & -> & He).
  assert (sends_ok (sent_in_time started) [] tr1) as Hs.
  { apply exec_bind in He as [(msg & He & _)|(r & tr2 & tr3 & -> & Hm & He)].
    - by apply attempts_in_time in He as [? _].
    - exec_step He. rewrite app_nil_r. by apply attempts_in_time in Hm as [? _]. }
  apply idle_spec in Hi as [Hi Hq]. exists started.
  assert (sends_ok (sent_in_time started) [] (tr ++ rest)) as Hall.
  { rewrite Heq. apply sends_ok_app. split; [by apply sends_ok_none|]. split; [done|].
    rewrite <-(app_nil_r (([] ++ before) ++ _)). eapply sends_ok_impl; [|exact Hs].
    intros. by apply sent_in_time_mono. }
  apply sends_ok_app in Hall as [Hall _]. split; [done|].
  assert (readings tr ++ readings rest = started :: readings tr1) as Hrd
    by by rewrite <-readings_app, Heq, readings_app, Hi.
  destruct (readings tr) as [|x l]; [by left|right]. by injection Hrd as -> _.
Qed.

Lemma handler_answers rq tr o :
  no_overflow → wf_request rq → exec (proxy_handler builder_accepts p cfg plugins rq) tr o →
  Forall limiter_answered tr → ∃ response, o = Done response.
Proof.
  intros Hcfg Hrq He Htr.
  apply (within_exec limiter_answered False (λ _, True) (handler_cost rq)) in He; [|..|done].
  - destruct o; [eauto|done].
  - apply within_handler; [|by right..]. right. by intros.
Qed.

(** ** Properties *)

(** C11: the handler terminates.  Whatever the environment answers, a run of the
    handler has at most [handler_cost] effects (eight, and for each allowed
    attempt one per target of the largest upstream and six more), and can be
    continued to its end.  When the weights of no upstream exceed a [u32]
    together, no jitter is [u64::MAX], the request's target is one that
    [http::Uri] can yield, and no rate-limit check of the run panicked, a
    complete run ends with a response, not with a panic. *)
Theorem handler_terminates rq :
  (∀ tr, reaches (proxy_handler builder_accepts p cfg plugins rq) tr →
     (length tr ≤ handler_cost rq)%nat ∧
     ∃ tr' o, exec (proxy_handler builder_accepts p cfg plugins rq) (tr ++ tr') o) ∧
  (no_overflow → wf_request rq →
   ∀ tr o, exec (proxy_handler builder_accepts p cfg plugins rq) tr o →
     Forall limiter_answered tr → ∃ response, o = Done response).
Proof.
  split.
  - intros tr Hr. split; [|by apply reaches_extends].
    apply (within_length (λ _, True) True (λ _, True) _ _ _ Hr);
      [|by apply Forall_forall]. apply within_handler; by left.
  - intros. by eapply handler_answers.
Qed.

(** C12: no attempt starts after the deadline.  In a complete run the clock is
    read once before the first attempt and once at the start of each; every
    request is sent after a reading less than the request timeout past the
    first one; and if an attempt reads a later time the client gets a 504.
    A run that does not read the clock sends nothing. *)
Theorem no_send_after_deadline rq tr o :
  exec (proxy_handler builder_accepts p cfg plugins rq) tr o →
  (readings tr = [] ∧ countb is_send tr = 0%nat) ∨
  ∃ started later, readings tr = started :: later ∧
    sends_ok (λ before _, ∃ now, last (readings before) = Some now ∧ in_time started now) [] tr ∧
    ∀ now, now ∈ later → ¬ in_time started now →
      o = Done (TextResponse 504 "upstream request timed out").
Proof.
  intros He. apply handler_loop in He as [Hi|(before & fw & tr' & -> & Hi & He)];
    apply idle_spec in Hi as [Hi Hq]; [left; split; [done|by apply no_sends_count]|right].
  unfold retry_loop in He. exec_step He.
  assert (∃ oo, exec (attempts builder_accepts p cfg plugins fw x
      (Z.to_nat (fw_max_attempts fw)) 1 None) tr oo ∧
    (∀ r, oo = Done (inl r) → o = Done r)) as (oo & Hrun & Ho).
  { apply exec_bind in He as [(msg & He & ->)|(r & tr1 & tr2 & -> & Hm & He)].
    - eexists. split; [exact He|done].
    - exec_step He. rewrite app_nil_r. eexists. split; [exact Hm|]. by intros ? [= ->]. }
  apply attempts_in_time in Hrun as [Hs Hl]. exists x, (readings tr).
  rewrite readings_app, Hi. split; [done|]. split.
  - apply sends_ok_app. split; [by apply sends_ok_none|]. split; [done|].
    rewrite <-(app_nil_r (([] ++ before) ++ _)).
    eapply sends_ok_impl; [|exact Hs]. intros b r Hb. exact (sent_in_time_mono x _ b r Hb).
  - intros now Hin Hn. apply Ho. by eapply Hl.
Qed.
End bounds.

(** ** Witnesses *)

#[local] Existing Instance list_header_map.
#[local] Existing Instance tree_json.
#[local] Existing Instance demo_jwt.
#[local] Existing Instance fnv_hasher.
#[local] Existing Instance sorted_map_order.

Lemma handler_terminates_witness :
  no_overflow demo_cfg ∧ wf_request demo_request ∧
  ∃ response, (run_oracle (demo_answer 503) demo_handler).2 = Done response.
Proof.
  assert (no_overflow demo_cfg) as Hc by (repeat constructor; vm_compute; congruence).
  assert (wf_request demo_request) as Hr by (left; exists "?id=1"; split; reflexivity).
  split; [exact Hc|]. split; [exact Hr|].
  apply (proj2 (handler_terminates (λ _ _, true) Debug demo_cfg [] demo_request) Hc Hr
    (demo_trace 503)); [exact (run_oracle_exec (demo_answer 503) demo_handler)|].
  assert (forallb answered (demo_trace 503) = true) as Hb by (vm_compute; reflexivity).
  apply Forall_forall. intros ev Hin. apply answered_spec.
  by apply (proj1 (forallb_forall _ _) Hb), list_elem_of_In.
Defined.

(** A clock that jumps past the deadline after the first attempt cannot be
    given by [demo_answer]; the trace is that of a clock that stands still. *)
Lemma no_send_after_deadline_witness :
  ∃ started later, readings (demo_trace 503) = started :: later ∧ length later = 3.
Proof.
  destruct (no_send_after_deadline (λ _ _, true) Debug demo_cfg [] demo_request (demo_trace 503)
    (run_oracle (demo_answer 503) demo_handler).2) as [[H _]|(started & later & Hr & _)].
  - exact (run_oracle_exec (demo_answer 503) demo_handler).
  - vm_compute in H. discriminate.
  - exists started, later. split; [exact Hr|]. vm_compute in Hr. by injection Hr as _ <-.
Defined.
