(* ===== verification/Server.v ===== *)
(** * The running gateway (main.rs)

    The shared [AppState], the tasks that serve requests, the active health
    checkers and the graceful shutdown, as a labelled step relation.  One step
    is one atomic access; tasks interleave freely, time passes freely, and a
    task can be dropped at any moment (it is done, it panicked, or its
    connection was closed): dropping it drops its in-flight guard. *)

From S2P Require Export Handler.

#[local] Open Scope string_scope.
#[local] Open Scope list_scope.

(** [AppState]: what is shared and mutable, with the monotonic clock. *)
Record AppState : Type := {
  st_metrics : Metrics;
  st_limiter : gmap string LimitState;
  st_counter : Z;   (* usize *)
  st_draining : bool;
  st_in_flight : Z; (* usize *)
  st_runtime : gmap string RuntimeRegistry;
  st_now : instant;
}.

Definition initial_state (cfg : GatewayConfig) (now : instant) : AppState := {|
  st_metrics := Metrics_default; st_limiter := ∅; st_counter := 0; st_draining := false;
  st_in_flight := 0; st_runtime := build_runtime_registry cfg; st_now := now;
|}.

Definition with_metrics (s : AppState) (m : Metrics) : AppState := {|
  st_metrics := m; st_limiter := st_limiter s; st_counter := st_counter s;
  st_draining := st_draining s; st_in_flight := st_in_flight s; st_runtime := st_runtime s;
  st_now := st_now s |}.
Definition with_limiter (s : AppState) (l : gmap string LimitState) : AppState := {|
  st_metrics := st_metrics s; st_limiter := l; st_counter := st_counter s;
  st_draining := st_draining s; st_in_flight := st_in_flight s; st_runtime := st_runtime s;
  st_now := st_now s |}.
Definition with_counter (s : AppState) (n : Z) : AppState := {|
  st_metrics := st_metrics s; st_limiter := st_limiter s; st_counter := n;
  st_draining := st_draining s; st_in_flight := st_in_flight s; st_runtime := st_runtime s;
  st_now := st_now s |}.
Definition with_draining (s : AppState) : AppState := {|
  st_metrics := st_metrics s; st_limiter := st_limiter s; st_counter := st_counter s;
  st_draining := true; st_in_flight := st_in_flight s; st_runtime := st_runtime s;
  st_now := st_now s |}.
Definition with_in_flight (s : AppState) (n : Z) : AppState := {|
  st_metrics := st_metrics s; st_limiter := st_limiter s; st_counter := st_counter s;
  st_draining := st_draining s; st_in_flight := n; st_runtime := st_runtime s;
  st_now := st_now s |}.
Definition with_registry (s : AppState) (upstream : string) (r : RuntimeRegistry) : AppState := {|
  st_metrics := st_metrics s; st_limiter := st_limiter s; st_counter := st_counter s;
  st_draining := st_draining s; st_in_flight := st_in_flight s;
  st_runtime := <[upstream := r]> (st_runtime s); st_now := st_now s |}.
Definition with_now (s : AppState) (t : instant) : AppState := {|
  st_metrics := st_metrics s; st_limiter := st_limiter s; st_counter := st_counter s;
  st_draining := st_draining s; st_in_flight := st_in_flight s; st_runtime := st_runtime s;
  st_now := t |}.

Definition inc_counter (c : counter) (m : Metrics) : Metrics :=
  match c with
  | CRequest => inc_request m
  | CError => inc_error m
  | CUnauthorized => inc_unauthorized m
  | CRateLimited => inc_rate_limited m
  | CUpstreamFailure => inc_upstream_failure m
  end.

(** [InFlightGuard::new] and its [Drop]. *)
Definition guard_new (s : AppState) : AppState :=
  with_in_flight s (atomic_add 64 (st_in_flight s) 1).
Definition guard_drop (s : AppState) : AppState :=
  with_in_flight s (atomic_sub 64 (st_in_flight s) 1).

(** The handlers of [/healthz] and [/metrics]. *)
Definition healthz_handler : Z * string := (200%Z, "ok").
Definition metrics_handler (s : AppState) : string * string :=
  ("text/plain; version=0.0.4; charset=utf-8", render_prometheus (st_metrics s)).

Section server.
Context `{HM : HeaderMapOps, J : JsonOps, !JwtOps J, !Hasher, !MapOrder}.
Context (builder_accepts : Z → list (HeaderName * HeaderValue) → bool).
Context (p : profile) (cfg : GatewayConfig) (plugins : PluginManager).

(** The meaning of an effect: its answer and the new state.  The limiter reads
    the clock before it takes its lock, so its time may lie in the past; the
    body and the upstream answer what they want.  A task holds the registry it
    calls, which [forward] took from [AppState::runtime]: a call on a name
    without one does not happen ([all_registered_run]). *)
Definition effect_step (s : AppState) {X} (e : effect X) : X → AppState → Prop :=
  match e in effect X return X → AppState → Prop with
  | EInc c => λ _ s', s' = with_metrics s (inc_counter c (st_metrics s))
  | EDraining => λ x s', x = st_draining s ∧ s' = s
  | EEnter => λ _ s', s' = guard_new s
  | ECheckLimit ctx => λ x s', ∃ now, (now ≤ st_now s)%Z ∧
      match check_with_context p (rate_limit cfg) ctx now (st_limiter s) with
      | Done (ok, states) => x = Done ok ∧ s' = with_limiter s states
      | Panicked msg => x = Panicked msg ∧ s' = s
      end
  | ECounterLoad => λ x s', x = st_counter s ∧ s' = s
  | ECounterNext => λ x s', x = st_counter s ∧ s' = with_counter s (atomic_add 64 (st_counter s) 1)
  | ENow => λ x s', x = st_now s ∧ s' = s
  | ESleep _ => λ _ s', s' = s
  | EReadBody limit => λ x s', s' = s ∧
      match x with Ok bytes => (str_len bytes ≤ limit)%Z | Err _ => True end
  | EAvailable upstream key => λ x s',
      match st_runtime s !! upstream with
      | Some reg => x = (is_available reg key (st_now s)).1 ∧
          s' = with_registry s upstream (is_available reg key (st_now s)).2
      | None => False
      end
  | ERecord upstream key success => λ _ s',
      match st_runtime s !! upstream with
      | Some reg => s' = with_registry s upstream
          (if success then record_success reg key else record_failure reg key (st_now s))
      | None => False
      end
  | ESend _ => λ _ s', s' = s
  end.

(** A task serving a request; [task_guarded] when it owns an in-flight guard. *)
Record Task : Type := {
  task_prog : prog Response;
  task_guarded : bool;
}.

Definition is_enter {X} (e : effect X) : bool := match e with EEnter => true | _ => false end.

(** The loop of an active health checker: waiting for its tick, going through
    the targets, or stopped because the gateway drains; or its task panicked
    before the loop. *)
Inductive Checker : Type :=
| Waiting
| Probing (rest : list UpstreamTarget)
| Stopped
| Crashed.

(** [graceful_shutdown_signal]: waiting for the signal, draining until the
    deadline with the next look at the counter not before [wake], finished. *)
Inductive Shutdown : Type :=
| Running
| Draining (deadline wake : instant)
| Finished.

Record System : Type := {
  sys_state : AppState;
  sys_tasks : gmap nat Task;
  sys_checkers : gmap nat Checker;  (* by position in the configuration *)
  sys_shutdown : Shutdown;
}.

(** [spawn_active_health_checks]: a checker for each upstream with active
    checks enabled and a registry.  Its first action is to build the timer of
    its ticks, and a timer of period zero panics: the task of such a checker
    ends before it probes anything, and nobody looks at its result. *)
Definition checker_start (u : UpstreamConfig) : Checker :=
  if (interval_ms (active (health_checks u)) =? 0)%Z then Crashed else Waiting.

Fixpoint spawn_from (runtime : gmap string RuntimeRegistry) (i : nat) (us : list UpstreamConfig)
    : gmap nat Checker :=
  match us with
  | [] => ∅
  | u :: us =>
      if negb (active_enabled (active (health_checks u))) then spawn_from runtime (S i) us
      else match runtime !! upstream_name u with
      | None => spawn_from runtime (S i) us
      | Some _ => <[i := checker_start u]> (spawn_from runtime (S i) us)
      end
  end.

Definition spawn_active_health_checks (runtime : gmap string RuntimeRegistry) : gmap nat Checker :=
  spawn_from runtime 0 (upstreams cfg).

Definition initial_system (now : instant) : System := {|
  sys_state := initial_state cfg now; sys_tasks := ∅;
  sys_checkers := spawn_active_health_checks (build_runtime_registry cfg);
  sys_shutdown := Running;
|}.

(** The labels: an effect of a task, a request that arrives, a task that ends,
    an answered probe of a target (the status, or an error or timeout), a new
    time of the clock, or something else. *)
Inductive label : Type :=
| LEffect (id : nat) (ev : event)
| LArrive (id : nat) (rq : ProxyRequest)
| LDrop (id : nat)
| LProbe (upstream : string) (t : UpstreamTarget) (url : string) (answer : result string Z)
| LTick (t : instant)
| LOther.

(** The probe of a target, and the judgement of its answer:
    [StatusCode::is_success]. *)
Definition probe_url (u : UpstreamConfig) (t : UpstreamTarget) : string :=
  "http://" +:+ address t +:+ active_path (active (health_checks u)).
Definition is_success (status : Z) : bool := (200 <=? status)%Z && (status <? 300)%Z.
Definition probe_healthy (answer : result string Z) : bool :=
  match answer with Ok status => is_success status | Err _ => false end.

(** One round of a checker: a tick stops it when the gateway drains, otherwise
    every target is probed in turn and the result of the probe stored. *)
Inductive checker_step (s : AppState) (u : UpstreamConfig)
    : Checker → label → Checker → AppState → Prop :=
| checker_tick :
    checker_step s u Waiting LOther (if st_draining s then Stopped else Probing (targets u)) s
| checker_probe t rest reg answer :
    st_runtime s !! upstream_name u = Some reg →
    let key := target_key (upstream_name u) (target_id t) in
    checker_step s u (Probing (t :: rest)) (LProbe (upstream_name u) t (probe_url u t) answer)
      (Probing rest)
      (with_registry s (upstream_name u) (set_active_health reg key (probe_healthy answer)))
| checker_round : checker_step s u (Probing []) LOther Waiting s.

(** The shutdown: the signal starts the drain; the loop is left when nothing is
    in flight or the deadline has passed, and otherwise looks again after a
    sleep of [drain_poll_ms]; waiting for the signal can also fail, and then
    nothing is drained. *)
Inductive shutdown_step (s : AppState) : Shutdown → AppState → Shutdown → Prop :=
| shutdown_signal :
    shutdown_step s Running (with_draining s)
      (Draining (st_now s + from_millis (drain_timeout_ms (shutdown (server cfg)))) (st_now s))
| shutdown_no_signal : shutdown_step s Running s Finished
| shutdown_poll deadline wake :
    (wake ≤ st_now s)%Z → (st_in_flight s ≠ 0 ∧ st_now s < deadline)%Z →
    shutdown_step s (Draining deadline wake) s
      (Draining deadline (st_now s + from_millis (drain_poll_ms (shutdown (server cfg)))))
| shutdown_done deadline wake :
    (wake ≤ st_now s)%Z → (st_in_flight s = 0 ∨ deadline ≤ st_now s)%Z →
    shutdown_step s (Draining deadline wake) s Finished.

Inductive sys_step (s : System) : label → System → Prop :=
| step_arrive id rq :
    sys_tasks s !! id = None →
    sys_step s (LArrive id rq)
      {| sys_state := sys_state s;
         sys_tasks := <[id := {| task_prog := proxy_handler builder_accepts p cfg plugins rq;
                                 task_guarded := false |}]> (sys_tasks s);
         sys_checkers := sys_checkers s; sys_shutdown := sys_shutdown s |}
| step_effect id X (e : effect X) k g x st :
    sys_tasks s !! id = Some {| task_prog := Vis e k; task_guarded := g |} →
    effect_step (sys_state s) e x st →
    sys_step s (LEffect id (Ev e x))
      {| sys_state := st;
         sys_tasks := <[id := {| task_prog := k x; task_guarded := g || is_enter e |}]> (sys_tasks s);
         sys_checkers := sys_checkers s; sys_shutdown := sys_shutdown s |}
| step_drop id t :
    sys_tasks s !! id = Some t →
    sys_step s (LDrop id)
      {| sys_state := if task_guarded t then guard_drop (sys_state s) else sys_state s;
         sys_tasks := delete id (sys_tasks s);
         sys_checkers := sys_checkers s; sys_shutdown := sys_shutdown s |}
| step_time t :
    (st_now (sys_state s) ≤ t)%Z →
    sys_step s (LTick t)
      {| sys_state := with_now (sys_state s) t; sys_tasks := sys_tasks s;
         sys_checkers := sys_checkers s; sys_shutdown := sys_shutdown s |}
| step_checker i u c l c' st :
    sys_checkers s !! i = Some c → upstreams cfg !! i = Some u →
    checker_step (sys_state s) u c l c' st →
    sys_step s l
      {| sys_state := st; sys_tasks := sys_tasks s;
         sys_checkers := <[i := c']> (sys_checkers s); sys_shutdown := sys_shutdown s |}
| step_shutdown sh st :
    shutdown_step (sys_state s) (sys_shutdown s) st sh →
    sys_step s LOther
      {| sys_state := st; sys_tasks := sys_tasks s;
         sys_checkers := sys_checkers s; sys_shutdown := sh |}.

(** A run of the gateway, with its labels in order. *)
Inductive sys_run (s : System) : list label → System → Prop :=
| run_refl : sys_run s [] s
| run_step ls l s' s'' : sys_run s ls s' → sys_step s' l s'' → sys_run s (ls ++ [l]) s''.

(** ** Lemmas: guards *)

(** A program that performs only effects with a property. *)
Fixpoint only {A} (P : ∀ X, effect X → Prop) (m : prog A) : Prop :=
  match m with
  | Ret _ | Panic _ => True
  | Vis e k => P _ e ∧ ∀ x, only P (k x)
  end.

(** The property of an effect that only concerns registries. *)
Definition names_registry (P : string → Prop) (X : Type) (e : effect X) : Prop :=
  match e with EAvailable u _ | ERecord u _ _ => P u | _ => True end.

Section only.
Context (P : ∀ X, effect X → Prop).

Lemma only_bind {A B} (m : prog A) (f : A → prog B) :
  only P m → (∀ a, only P (f a)) → only P (m ≫= f).
Proof.
  intros Hm Hf. induction m as [a|msg|X e k IH]; [apply Hf|done|].
  destruct Hm as [He Hk]. split; [done|]. intros x. by apply IH.
Qed.

Lemma only_fmap {A B} (g : A → B) (m : prog A) : only P m → only P (g <$> m).
Proof. intros Hm. by apply (only_bind m (λ a, Ret (g a))). Qed.

Lemma only_perform {X} (e : effect X) : P X e → only P (perform e).
Proof. by split. Qed.

Lemma only_lift {A} (o : outcome A) : only P (lift_outcome o).
Proof. by destruct o. Qed.

(** The handler after its guard: any effects but the guard's, and registry
    calls only for upstreams that have one. *)
Context (HP : ∀ X e, is_enter e = false →
  names_registry (λ u, is_Some (build_runtime_registry cfg !! u)) X e → P X e).

Ltac only_step :=
  repeat first
    [ done
    | apply only_perform; apply HP; done
    | apply only_lift
    | apply only_fmap
    | apply only_bind; [|intros ?]
    | progress unfold count_and_respond
    | case_match ].

Lemma only_pick u key n :
  is_Some (build_runtime_registry cfg !! upstream_name u) → only P (pick_target p u key n).
Proof.
  intros Hu. unfold pick_target. apply only_bind; [|intros; only_step].
  generalize (targets u). intros ts. induction ts as [|t ts IH]; cbn [available_targets]; only_step.
Qed.

Lemma only_attempts fw started remaining : ∀ attempt last,
  is_Some (build_runtime_registry cfg !! upstream_name (fw_upstream fw)) →
  only P (attempts builder_accepts p cfg plugins fw started remaining attempt last).
Proof.
  induction remaining as [|n IH]; intros attempt last Hu; cbn [attempts]; [done|].
  apply only_bind; [|intros [r|l]; [done|by apply IH]]. unfold attempt_once.
  apply only_bind; [only_step|]. intros now.
  case_match; [only_step|]. apply only_bind; [only_step|]. intros count.
  apply only_bind; [by apply only_pick|]. intros [t|]; only_step.
Qed.

Lemma only_guarded rq : only P (guarded_handler builder_accepts p cfg plugins rq).
Proof.
  unfold guarded_handler. case_match; [|done]. apply only_bind.
  - unfold admission. case_match; [only_step|]. case_match; [|only_step].
    case_match; [only_step|]. apply only_bind; [only_step|]. intros x.
    apply only_bind; [apply only_lift|]. intros ok. case_match; [only_step|].
    apply only_bind; [only_step|]. intros n. unfold maybe_apply_fault_injection.
    apply only_bind; [only_step|]. by intros [resp|].
  - intros [resp|[key n]]; [done|]. unfold forward. case_match; [|only_step].
    case_match; [|only_step]. apply only_bind; [apply only_lift|]. intros pq.
    apply only_bind; [only_step|]. intros [bytes|err]; [|only_step].
    unfold retry_loop. apply only_bind; [only_step|]. intros started.
    apply only_bind; [apply only_attempts; simpl; eauto|]. done.
Qed.
End only.

(** A program that creates no guard, and one that creates at most one. *)
Definition no_enter {A} (m : prog A) : Prop := only (λ X e, is_enter e = false) m.

Fixpoint enters_once {A} (m : prog A) : Prop :=
  match m with
  | Ret _ | Panic _ => True
  | Vis e k => ∀ x, if is_enter e then no_enter (k x) else enters_once (k x)
  end.

Lemma no_enter_guarded rq : no_enter (guarded_handler builder_accepts p cfg plugins rq).
Proof. by apply only_guarded. Qed.

Lemma proxy_handler_once rq : enters_once (proxy_handler builder_accepts p cfg plugins rq).
Proof.
  intros x draining. simpl. destruct draining; [done|]. intros y. apply no_enter_guarded.
Qed.

Definition task_ok (t : Task) : Prop :=
  if task_guarded t then no_enter (task_prog t) else enters_once (task_prog t).

(** The number of tasks that own a guard. *)
Definition guards (tasks : gmap nat Task) : nat :=
  size (filter (λ kt, task_guarded kt.2 = true) tasks).

Lemma guards_insert tasks id t :
  tasks !! id = None → guards (<[id := t]> tasks) = (if task_guarded t then 1 else 0) + guards tasks.
Proof.
  intros Hid. unfold guards. destruct (task_guarded t) eqn:Eg.
  - rewrite map_filter_insert_True by done. rewrite map_size_insert_None; [done|].
    apply map_lookup_filter_None. by left.
  - rewrite map_filter_insert_False by (simpl; congruence).
    rewrite delete_id by done. done.
Qed.

Lemma guards_lookup tasks id t :
  tasks !! id = Some t →
  guards tasks = (if task_guarded t then 1 else 0) + guards (delete id tasks).
Proof.
  intros Hid. rewrite <-(insert_delete_id tasks id t) at 1 by done.
  apply guards_insert. apply lookup_delete_eq.
Qed.

Lemma guards_update tasks id t t' :
  tasks !! id = Some t →
  guards (<[id := t']> tasks) = (if task_guarded t' then 1 else 0) + guards (delete id tasks).
Proof.
  intros Hid. rewrite <-insert_delete_eq. apply guards_insert. apply lookup_delete_eq.
Qed.

(** Every task is well formed, and the counter is the number of guards. *)
Definition guard_inv (s : System) : Prop :=
  map_Forall (λ _, task_ok) (sys_tasks s) ∧
  st_in_flight (sys_state s) = wrap 64 (Z.of_nat (guards (sys_tasks s))).

Lemma effect_step_in_flight s {X} (e : effect X) x s' :
  effect_step s e x s' →
  st_in_flight s' = if is_enter e then wrap 64 (st_in_flight s + 1) else st_in_flight s.
Proof.
  destruct e; simpl; try (by intros ->); try (by intros [_ ->]).
  - intros (now & _ & Hc). destruct (check_with_context _ _ _ _ _) as [[ok st]|msg];
      by destruct Hc as [_ ->].
  - by intros [-> _].
  - destruct (_ !! _); [by intros [_ ->]|done].
  - destruct (_ !! _); [by intros ->|done].
Qed.

Lemma wrap_add_l w a b : (0 ≤ w)%Z → wrap w (wrap w a + b) = wrap w (a + b).
Proof. intros. unfold wrap. apply Z.add_mod_idemp_l. by apply Z.pow_nonzero. Qed.

Lemma guard_inv_step s l s' : guard_inv s → sys_step s l s' → guard_inv s'.
Proof.
  intros [Hok Hn] Hs. destruct Hs; simpl; split; simpl; try done.
  - apply map_Forall_insert_2; [apply proxy_handler_once|done].
  - rewrite guards_insert by done. done.
  - pose proof (Hok _ _ H1) as Ht. apply map_Forall_insert_2; [|done].
    unfold task_ok in *. simpl in *. destruct g; simpl in *; [apply Ht|].
    specialize (Ht x). by destruct (is_enter e).
  - rewrite (effect_step_in_flight _ _ _ _ H2), Hn.
    rewrite (guards_update _ _ _ _ H1), (guards_lookup _ _ _ H1). simpl.
    pose proof (Hok _ _ H1) as Ht. unfold task_ok in Ht. simpl in Ht.
    destruct g; simpl; [destruct Ht as [-> _]; done|].
    destruct (is_enter e); [|done]. rewrite wrap_add_l by done. f_equal. lia.
  - by apply map_Forall_delete.
  - rewrite (guards_lookup _ _ _ H1) in Hn. destruct (task_guarded t); simpl; [|done].
    unfold atomic_sub. rewrite Hn. unfold Z.sub. rewrite wrap_add_l by done. f_equal. lia.
  - by destruct H3.
  - by destruct H1.
Qed.

Lemma guard_inv_run now ls s : sys_run (initial_system now) ls s → guard_inv s.
Proof.
  induction 1 as [|ls l s' s'' Hr IH Hs]; [|by eapply guard_inv_step].
  split; [apply map_Forall_empty|]. reflexivity.
Qed.

(** ** Lemmas: metrics, limiter and registries along a run *)

Definition counter_value (c : counter) (m : Metrics) : Z :=
  match c with
  | CRequest => total_requests m
  | CError => total_errors m
  | CUnauthorized => total_unauthorized m
  | CRateLimited => total_rate_limited m
  | CUpstreamFailure => total_upstream_failures m
  end.

Definition label_event (l : label) : option event :=
  match l with LEffect _ ev => Some ev | _ => None end.
Definition label_counts (c : counter) (l : label) : bool :=
  match label_event l with Some ev => is_counter c ev | None => false end.

Lemma counter_value_inc c c' m :
  counter_value c (inc_counter c' m) =
    if bool_decide (c' = c) then wrap 64 (counter_value c m + 1) else counter_value c m.
Proof. by destruct c, c'. Qed.

(** A check of the limiter that answered, with its context. *)
Definition check_of_event (ev : event) : option (RateLimitContext * bool) :=
  match ev with
  | Ev e x =>
      match e in effect X return X → option (RateLimitContext * bool) with
      | ECheckLimit ctx => λ x, match x with Done ok => Some (ctx, ok) | Panicked _ => None end
      | _ => λ _, None
      end x
  end.
Definition checks_of (ls : list label) : list (RateLimitContext * bool) :=
  omap (λ l, ev ← label_event l; check_of_event ev) ls.

Lemma effect_step_metrics s {X} (e : effect X) x s' c :
  effect_step s e x s' →
  counter_value c (st_metrics s') =
    if is_counter c (Ev e x) then wrap 64 (counter_value c (st_metrics s) + 1)
    else counter_value c (st_metrics s).
Proof.
  destruct e; simpl; try (by intros ->); try (by intros [_ ->]).
  - intros ->. apply counter_value_inc.
  - intros (now & _ & Hc). destruct (check_with_context _ _ _ _ _) as [[ok st]|msg];
      by destruct Hc as [_ ->].
  - by intros [-> _].
  - destruct (_ !! _); [by intros [_ ->]|done].
  - destruct (_ !! _); [by intros ->|done].
Qed.

Lemma effect_step_limiter s {X} (e : effect X) x s' :
  effect_step s e x s' →
  match check_of_event (Ev e x) with
  | Some (ctx, ok) => ∃ now,
      check_with_context p (rate_limit cfg) ctx now (st_limiter s) = Done (ok, st_limiter s')
  | None => st_limiter s' = st_limiter s
  end.
Proof.
  destruct e; simpl; try (by intros ->); try (by intros [_ ->]).
  - intros (now & _ & Hc). destruct (check_with_context _ _ _ _ _) as [[ok st]|msg] eqn:E;
      destruct Hc as [-> ->]; [|done]. by exists now.
  - by intros [-> _].
  - destruct (_ !! _); [by intros [_ ->]|done].
  - destruct (_ !! _); [by intros ->|done].
Qed.

Definition state_inv (ls : list label) (s : AppState) : Prop :=
  (∀ c, counter_value c (st_metrics s) = wrap 64 (Z.of_nat (countb (label_counts c) ls))) ∧
  (∃ reqs bs, run_checks p (rate_limit cfg) reqs ∅ = Done (bs, st_limiter s) ∧
     length bs = length reqs ∧ zip reqs.*2 bs = checks_of ls).

Lemma state_inv_other ls l s s' :
  label_event l = None → st_metrics s' = st_metrics s → st_limiter s' = st_limiter s →
  state_inv ls s → state_inv (ls ++ [l]) s'.
Proof.
  intros Hl Hm Hlim [Hc (reqs & bs & Hrun & Hlen & Hz)]. split.
  - intros c. rewrite Hm, Hc, countb_app, countb_cons, countb_nil. unfold label_counts.
    rewrite Hl. f_equal. lia.
  - exists reqs, bs. rewrite Hlim. split; [done|]. split; [done|].
    unfold checks_of. rewrite omap_app. simpl. rewrite Hl. simpl. by rewrite app_nil_r.
Qed.

Lemma state_inv_effect ls id s {X} (e : effect X) x s' :
  effect_step s e x s' → state_inv ls s → state_inv (ls ++ [LEffect id (Ev e x)]) s'.
Proof.
  intros He [Hc (reqs & bs & Hrun & Hlen & Hz)]. split.
  - intros c. rewrite (effect_step_metrics _ _ _ _ c He), Hc, countb_app, countb_cons, countb_nil.
    unfold label_counts. cbn [label_event]. destruct (is_counter c (Ev e x)).
    + rewrite wrap_add_l by done. f_equal. lia.
    + f_equal. lia.
  - apply effect_step_limiter in He. unfold checks_of in *. rewrite omap_app. cbn [omap list_omap].
    cbn [label_event mbind option_bind]. destruct (check_of_event (Ev e x)) as [[ctx ok]|].
    + destruct He as [now Hcheck]. exists (reqs ++ [(now, ctx)]), (bs ++ [ok]).
      split; [by eapply run_checks_snoc|]. rewrite !length_app, Hlen. split; [done|].
      rewrite fmap_app, zip_with_app by (by rewrite length_fmap). by rewrite <-Hz.
    + exists reqs, bs. rewrite He, app_nil_r. done.
Qed.

Lemma state_inv_run now ls s : sys_run (initial_system now) ls s → state_inv ls (sys_state s).
Proof.
  induction 1 as [|ls l s' s'' Hr IH Hs].
  - split; [by intros []|]. by exists [], [].
  - destruct Hs; simpl in *; try (by eapply state_inv_effect);
      try (by eapply state_inv_other).
    + eapply state_inv_other; [done| | |exact IH]; by destruct (task_guarded t).
    + destruct H3; by eapply state_inv_other.
    + destruct H1; by eapply state_inv_other.
Qed.

(** ** Lemmas: the clock and the registries along a run *)

Definition tick (now : instant) (l : label) : instant :=
  match l with LTick t => t | _ => now end.
Definition run_clock (now : instant) (ls : list label) : instant := foldl tick now ls.

(** The method call that a label makes on the registry of [u]. *)
Definition registry_call (u : string) (now : instant) (l : label) : option registry_event :=
  match l with
  | LEffect _ (Ev e _) =>
      match e with
      | EAvailable v key => if bool_decide (v = u) then Some (mk_event key OpAvailable now) else None
      | ERecord v key success =>
          if bool_decide (v = u)
          then Some (mk_event key (if success then OpSuccess else OpFailure) now) else None
      | _ => None
      end
  | LProbe v t _ answer =>
      if bool_decide (v = u)
      then Some (mk_event (target_key v (target_id t)) (OpActive (probe_healthy answer)) now)
      else None
  | _ => None
  end.

(** The calls on the registry of [u] in a run that starts at [now]. *)
Fixpoint calls_of (u : string) (now : instant) (ls : list label) : list registry_event :=
  match ls with
  | [] => []
  | l :: ls => option_list (registry_call u now l) ++ calls_of u (tick now l) ls
  end.

Lemma calls_of_snoc u ls l : ∀ now,
  calls_of u now (ls ++ [l]) =
    calls_of u now ls ++ option_list (registry_call u (run_clock now ls) l).
Proof.
  induction ls as [|l' ls IH]; intros now; simpl; [by rewrite app_nil_r|].
  by rewrite IH, (assoc_L (++)).
Qed.

(** What a label does to the clock and the registries. *)
Definition registries_step (s : AppState) (l : label) (s' : AppState) : Prop :=
  st_now s' = tick (st_now s) l ∧
  ∀ u, st_runtime s' !! u =
    (λ reg, run_registry reg (option_list (registry_call u (st_now s) l))) <$> st_runtime s !! u.

Lemma fmap_no_calls u s (st : gmap string RuntimeRegistry) :
  st = st_runtime s → st !! u = (λ reg, run_registry reg []) <$> st_runtime s !! u.
Proof. intros ->. unfold run_registry. simpl. by destruct (_ !! u). Qed.

Lemma registries_step_none s l s' :
  (∀ u, registry_call u (st_now s) l = None) → st_now s' = tick (st_now s) l →
  st_runtime s' = st_runtime s → registries_step s l s'.
Proof.
  intros Hl Hn Hr. split; [done|]. intros u. rewrite Hl. by apply fmap_no_calls.
Qed.

Lemma registries_step_call s l v reg e :
  st_runtime s !! v = Some reg → tick (st_now s) l = st_now s →
  (∀ u, registry_call u (st_now s) l = if bool_decide (v = u) then Some e else None) →
  registries_step s l (with_registry s v (registry_step reg e).2).
Proof.
  intros Hv Hn Hl. split; [done|]. intros u. rewrite Hl. simpl. case_bool_decide as Hu.
  - subst u. by rewrite lookup_insert_eq, Hv.
  - rewrite lookup_insert_ne by done. by apply fmap_no_calls.
Qed.

Lemma effect_step_registries s id {X} (e : effect X) x s' :
  effect_step s e x s' → registries_step s (LEffect id (Ev e x)) s'.
Proof.
  intros He. destruct e; simpl in He;
    try (apply registries_step_none; [done|..];
      by first [subst s'|destruct He as [_ ->]|destruct He as [-> _]]).
  - destruct He as (now & _ & Hc). destruct (check_with_context _ _ _ _ _) as [[ok st]|msg];
      destruct Hc as [_ ->]; by apply registries_step_none.
  - destruct (st_runtime s !! upstream) as [reg|] eqn:E; [|done]. destruct He as [_ ->].
    exact (registries_step_call s (LEffect id (Ev (EAvailable upstream key) x)) upstream reg
      (mk_event key OpAvailable (st_now s)) E eq_refl (λ u, eq_refl)).
  - destruct (st_runtime s !! upstream) as [reg|] eqn:E; [|done]. subst s'.
    pose proof (registries_step_call s (LEffect id (Ev (ERecord upstream key success) x)) upstream reg
      (mk_event key (if success then OpSuccess else OpFailure) (st_now s)) E eq_refl
      (λ u, eq_refl)) as H'. by destruct success.
Qed.

Lemma sys_step_registries s l s' :
  sys_step s l s' → registries_step (sys_state s) l (sys_state s').
Proof.
  destruct 1; simpl; try by apply registries_step_none.
  - by apply effect_step_registries.
  - destruct (task_guarded t); by apply registries_step_none.
  - destruct H3; try by apply registries_step_none.
    match goal with Hreg : _ !! upstream_name u = Some reg |- registries_step ?st _ _ =>
      exact (registries_step_call st (LProbe (upstream_name u) t (probe_url u t) answer)
        (upstream_name u) reg (mk_event key (OpActive (probe_healthy answer)) (st_now st)) Hreg
        eq_refl (λ v, eq_refl)) end.
  - destruct H1; by apply registries_step_none.
Qed.

Lemma sys_step_clock s l s' : sys_step s l s' → (st_now (sys_state s) ≤ tick (st_now (sys_state s)) l)%Z.
Proof.
  destruct 1; simpl; try lia. by destruct H3; simpl; lia.
Qed.

(** The registries are those of the configuration after the calls of the run,
    none of which lies in the future. *)
Record registries_inv (now : instant) (ls : list label) (s : AppState) : Prop := {
  inv_clock : st_now s = run_clock now ls;
  inv_runtime u : st_runtime s !! u =
    (λ reg, run_registry reg (calls_of u now ls)) <$> build_runtime_registry cfg !! u;
  inv_past u : Forall (λ e, ev_time e ≤ st_now s)%Z (calls_of u now ls);
}.

Lemma registry_call_time u now l e : registry_call u now l = Some e → ev_time e = now.
Proof.
  destruct l as [id [X e' x]| | |v t url answer| |]; simpl; try done; [destruct e'; try done|];
    case_bool_decide; try done; by intros [= <-].
Qed.

Lemma registries_run now ls s : sys_run (initial_system now) ls s → registries_inv now ls (sys_state s).
Proof.
  induction 1 as [|ls l s' s'' Hr [Hc Hrt Hp] Hs].
  - split; [done| |constructor]. intros u. by apply (fmap_no_calls u (initial_state cfg now)).
  - pose proof (sys_step_clock _ _ _ Hs) as Hle.
    apply sys_step_registries in Hs as [Hn Hu]. split.
    + unfold run_clock. rewrite foldl_app. simpl. fold (run_clock now ls). by rewrite <-Hc.
    + intros u. rewrite Hu, Hrt, calls_of_snoc, <-Hc. destruct (_ !! u); [|done]. simpl.
      unfold run_registry. by rewrite foldl_app.
    + intros u. rewrite calls_of_snoc, <-Hc, Hn. apply Forall_app. split.
      * eapply Forall_impl; [apply Hp|]. simpl. lia.
      * destruct (registry_call _ _ _) as [e|] eqn:E; [|constructor].
        apply registry_call_time in E. constructor; [lia|constructor].
Qed.

Lemma build_runtime_registry_lookup u reg :
  build_runtime_registry cfg !! u = Some reg →
  ∃ uc, uc ∈ upstreams cfg ∧ upstream_name uc = u ∧
    reg = RuntimeRegistry_new (passive (health_checks uc)) (circuit_breaker uc).
Proof.
  unfold build_runtime_registry.
  induction (upstreams cfg) as [|v us IH] using rev_ind; simpl; [by rewrite lookup_empty|].
  rewrite foldl_app. simpl. intros [[<- <-]|[_ Hl]]%lookup_insert_Some.
  - exists v. rewrite elem_of_app. split; [right; left|done].
  - destruct (IH Hl) as (uc & ? & ? & ?). exists uc. rewrite elem_of_app. eauto.
Qed.

(** ** Lemmas: draining *)

(** A program that only counts the request and, told that the gateway drains,
    ends. *)
Fixpoint refusing {A} (m : prog A) : Prop :=
  match m with
  | Ret _ | Panic _ => True
  | Vis e k =>
      match e in effect X return (X → Prop) → Prop with
      | EInc c => λ next, c = CRequest ∧ next ()
      | EDraining => λ next, next true
      | _ => λ _, False
      end (λ x, refusing (k x))
  end.

Lemma proxy_handler_refusing rq : refusing (proxy_handler builder_accepts p cfg plugins rq).
Proof. by split. Qed.

Lemma effect_step_draining s {X} (e : effect X) x s' :
  effect_step s e x s' → st_draining s' = st_draining s.
Proof.
  destruct e; simpl; try (by intros ->); try (by intros [_ ->]).
  - intros (now & _ & Hc). destruct (check_with_context _ _ _ _ _) as [[ok st]|msg];
      by destruct Hc as [_ ->].
  - by intros [-> _].
  - destruct (_ !! _); [by intros [_ ->]|done].
  - destruct (_ !! _); [by intros ->|done].
Qed.

Lemma sys_step_draining s l s' :
  sys_step s l s' → st_draining (sys_state s) = true → st_draining (sys_state s') = true.
Proof.
  destruct 1; simpl; try done.
  - intros Hd. by rewrite (effect_step_draining _ _ _ _ H2).
  - by destruct (task_guarded t).
  - by destruct H3.
  - by destruct H1.
Qed.

Definition refused_event (ev : event) : Prop := ev = Ev (EInc CRequest) () ∨ ev = Ev EDraining true.

Definition late_inv (id : nat) (s : System) : Prop :=
  st_draining (sys_state s) = true ∧
  ∀ t, sys_tasks s !! id = Some t → refusing (task_prog t) ∧ task_guarded t = false.

Lemma late_inv_step id s l s' :
  late_inv id s → sys_step s l s' →
  late_inv id s' ∧ ∀ ev, l = LEffect id ev → refused_event ev.
Proof.
  intros [Hd Ht] Hs. split; [split; [by eapply sys_step_draining|]|].
  - intros t Hl. destruct Hs; simpl in *; try by apply Ht.
    + apply lookup_insert_Some in Hl as [[<- <-]|[_ Hl]]; [|by apply Ht].
      split; [apply proxy_handler_refusing|done].
    + apply lookup_insert_Some in Hl as [[-> <-]|[_ Hl]]; [|by apply Ht]. simpl.
      destruct (Ht _ H1) as [Hrf Hg]. simpl in Hrf, Hg. subst g. destruct e; try done; simpl in *.
      * destruct Hrf as [_ Hrf]. by destruct x.
      * destruct H2 as [-> _]. rewrite Hd. done.
    + apply lookup_delete_Some in Hl as [_ Hl]. by apply Ht.
  - intros ev ->. inversion Hs as [|? X e k g x st Hl He| | |i u c l c' st Hc Hu Hcs|]; subst;
      [|by inversion Hcs].
    destruct (Ht _ Hl) as [Hrf _]. simpl in Hrf. destruct e; try done; simpl in *.
    + destruct Hrf as [-> _]. destruct x. by left.
    + destruct He as [-> _]. rewrite Hd. by right.
Qed.

Lemma shutdown_draining now ls s deadline wake :
  sys_run (initial_system now) ls s → sys_shutdown s = Draining deadline wake →
  st_draining (sys_state s) = true.
Proof.
  intros Hr. revert deadline wake. induction Hr as [|ls l s' s'' Hr IH Hs]; [done|]. intros deadline wake Hn.
  destruct (decide (st_draining (sys_state s') = true)) as [Hd|Hd]; [by eapply sys_step_draining|].
  assert (∀ d w, sys_shutdown s' ≠ Draining d w) as Hno by (intros d w Heq; by apply Hd, (IH d w)).
  destruct Hs; simpl in *; try (by destruct (Hno deadline wake)).
  destruct H1; try done. by destruct (Hno deadline0 wake0).
Qed.

(** A drain that sleeps wakes up soon after its deadline at the latest. *)
Lemma drain_wakes now ls s deadline wake :
  sys_run (initial_system now) ls s → sys_shutdown s = Draining deadline wake →
  (st_now (sys_state s) < wake)%Z →
  (wake < deadline + from_millis (drain_poll_ms (shutdown (server cfg))))%Z.
Proof.
  intros Hr. revert deadline wake.
  induction Hr as [|ls l s' s'' Hr IH Hs]; [done|]. intros deadline wake Hd Hlt.
  pose proof (sys_step_clock _ _ _ Hs) as Hle. pose proof (sys_step_registries _ _ _ Hs) as [Hn _].
  assert (sys_shutdown s' = Draining deadline wake →
    wake < deadline + from_millis (drain_poll_ms (shutdown (server cfg))))%Z as Hsame
    by (intros Hd'; apply (IH _ _ Hd'); lia).
  destruct Hs; simpl in *; try by apply Hsame.
  destruct H1; [| done | |done]; injection Hd as <- <-; simpl in *; lia.
Qed.

Lemma guards_zero tasks id t :
  guards tasks = 0 → tasks !! id = Some t → task_guarded t = false.
Proof. intros H0' Hl. rewrite (guards_lookup _ _ _ Hl) in H0'. by destruct (task_guarded t). Qed.

(** The accepted checks of a run for a scope value, against a rule's quota. *)
Lemma accepted_checks_bound now ls s r v q :
  uses_rules (rate_limit cfg) → r ∈ rules_of (rate_limit cfg) →
  rule_quota r = Some q → uint 64 q → sys_run (initial_system now) ls s →
  (Z.of_nat (countb (λ cb, cb.2 && bool_decide (scope_value cb.1 (rule_scope r) = v)) (checks_of ls))
     ≤ q)%Z.
Proof.
  intros Hu Hr Hq Hq64 Hrun. apply state_inv_run in Hrun as [_ (reqs & bs & Hrun & Hlen & Hz)].
  rewrite <-Hz. pose proof (quota_run p (rate_limit cfg) r v q reqs bs _ Hu Hr Hq Hq64 Hrun) as Hb.
  unfold accepted_for in Hb. rewrite length_fmap in Hb.
  assert (∀ (reqs : list (instant * RateLimitContext)) (bs : list bool),
    countb (λ cb, cb.2 && bool_decide (scope_value cb.1 (rule_scope r) = v)) (zip reqs.*2 bs)
    = length (filterb (λ rb, rb.2 && bool_decide (scope_value rb.1.2 (rule_scope r) = v)) (zip reqs bs)))
    as ->; [|done].
  clear. induction reqs as [|[t c] reqs IH]; intros [|b bs]; try done.
  rewrite fmap_cons. simpl. rewrite countb_cons, filterb_cons, IH. simpl.
  by destruct (b && _).
Qed.

(** ** Properties *)

(** C3: the in-flight counter counts the guarded requests.  In every reachable
    state, whatever interleaving, panics and closed connections led to it, the
    counter is the number of live tasks that passed the draining check and
    created their guard, modulo 2^64. *)
Theorem in_flight_counts_guards now ls s :
  sys_run (initial_system now) ls s →
  st_in_flight (sys_state s) = wrap 64 (Z.of_nat (guards (sys_tasks s))) ∧
  ((Z.of_nat (size (sys_tasks s)) < 2 ^ 64)%Z →
   st_in_flight (sys_state s) = Z.of_nat (guards (sys_tasks s))).
Proof.
  intros Hr. apply guard_inv_run in Hr as [_ Hn]. split; [done|]. intros Hlt. rewrite Hn.
  apply wrap_small. assert (guards (sys_tasks s) ≤ size (sys_tasks s))%nat.
  { unfold guards. apply map_subseteq_size, map_filter_subseteq. }
  unfold uint. lia.
Qed.

(** C26: graceful shutdown.  When the shutdown finishes, the gateway is
    draining, and either the drain deadline has passed or no live task owns a
    guard (with fewer than 2^64 tasks); when it sleeps it wakes up less than
    [drain_poll_ms] after its deadline; and it can always finish: from any
    draining state there is a way that only lets time pass. *)
Theorem shutdown_drains now ls s deadline wake :
  sys_run (initial_system now) ls s → sys_shutdown s = Draining deadline wake →
  (∀ l s', sys_step s l s' → sys_shutdown s' = Finished →
     st_draining (sys_state s') = true ∧
     ((deadline ≤ st_now (sys_state s'))%Z ∨
      ((Z.of_nat (size (sys_tasks s)) < 2 ^ 64)%Z →
       ∀ id t, sys_tasks s' !! id = Some t → task_guarded t = false))) ∧
  (st_now (sys_state s) < wake →
     wake < deadline + from_millis (drain_poll_ms (shutdown (server cfg))))%Z ∧
  ∃ ls' s', sys_run s ls' s' ∧ sys_shutdown s' = Finished ∧ sys_tasks s' = sys_tasks s.
Proof.
  intros Hr Hd. split; [|split; [by eapply drain_wakes|]].
  - intros l s' Hs Hf. pose proof (shutdown_draining _ _ _ _ _ Hr Hd) as Hdr.
    split; [by eapply sys_step_draining|].
    pose proof (guard_inv_run _ _ _ Hr) as [_ Hn].
    destruct Hs; simpl in *; try congruence. rewrite Hd in H1. subst sh.
    inversion H1 as [| | |d w _ Hz]; subst. destruct Hz as [Hz|Hz]; [right|by left]. intros Hlt id t Hl.
    eapply guards_zero; [|done]. rewrite Hz in Hn.
    assert (guards (sys_tasks s) ≤ size (sys_tasks s))%nat.
    { unfold guards. apply map_subseteq_size, map_filter_subseteq. }
    rewrite wrap_small in Hn by (unfold uint; lia). lia.
  - eexists _, _. split; [|split].
    + eapply run_step; [eapply run_step; [apply run_refl|]|].
      * apply (step_time s (Z.max (Z.max deadline wake) (st_now (sys_state s)))). lia.
      * apply step_shutdown. simpl. rewrite Hd. apply shutdown_done; [|right]; simpl; lia.
    + done.
    + done.
Qed.

(** C18: requests that arrive while the gateway drains are refused.  From any
    state that drains on, a task that arrives later only counts its request
    and reads the draining flag as set: it never creates a guard, touches the
    limiter, a counter or a registry, or sends anything. *)
Theorem late_requests_refused s ls s' id ev :
  st_draining (sys_state s) = true → sys_tasks s !! id = None →
  sys_run s ls s' → LEffect id ev ∈ ls →
  ev = Ev (EInc CRequest) () ∨ ev = Ev EDraining true.
Proof.
  intros Hd Hid Hr Hin. assert (late_inv id s) as Hl0 by (split; [done|by rewrite Hid]).
  assert (late_inv id s' ∧ ∀ ev, LEffect id ev ∈ ls → refused_event ev) as [_ Hall].
  { clear Hin. induction Hr as [|ls l s' s'' Hr IH Hs].
    - split; [done|]. intros ? ?%not_elem_of_nil. done.
    - destruct IH as [Hl IH]. destruct (late_inv_step _ _ _ _ Hl Hs) as [Hl' Hev].
      split; [done|]. intros ev' [Hin|Hin]%elem_of_app; [by apply IH|].
      apply list_elem_of_singleton in Hin. by apply Hev. }
  by apply Hall.
Qed.

(** C40: the drain can miss a request.  The draining check and the guard are
    two accesses: a task that read the flag just before the signal creates its
    guard after it, so the shutdown can finish at once, long before its
    deadline, with a request about to be served. *)
Theorem drain_race now rq :
  ∃ ls s id t, sys_run (initial_system now) ls s ∧ sys_shutdown s = Finished ∧
    st_now (sys_state s) = now ∧ st_in_flight (sys_state s) = 1%Z ∧
    sys_tasks s !! id = Some t ∧ task_guarded t = true ∧
    task_prog t = guarded_handler builder_accepts p cfg plugins rq.
Proof.
  eexists _, _, 0, _. split.
  { eapply run_step; [eapply run_step; [eapply run_step; [eapply run_step; [eapply run_step;
      [eapply run_step; [apply run_refl|]|]|]|]|]|].
    - apply (step_arrive _ 0 rq). apply lookup_empty.
    - eapply (step_effect _ 0 _ (EInc CRequest) _ false ()); [apply lookup_insert_eq|reflexivity].
    - eapply (step_effect _ 0 _ EDraining _ false false); [apply lookup_insert_eq|by split].
    - apply step_shutdown, shutdown_signal.
    - apply step_shutdown, shutdown_done; [reflexivity|by left].
    - eapply (step_effect _ 0 _ EEnter _ false ()); [|reflexivity].
      apply lookup_insert_eq. }
  simpl. by split_and!.
Qed.

(** The metrics are exact.  In every reachable state each of the five
    counters is the number of increments tasks performed, modulo 2^64, and the
    text of the metrics endpoint shows exactly these numbers under their
    names. *)
Theorem metrics_count_events now ls s :
  sys_run (initial_system now) ls s →
  let total c := wrap 64 (Z.of_nat (countb (label_counts c) ls)) in
  (∀ c, counter_value c (st_metrics (sys_state s)) = total c) ∧
  (metrics_handler (sys_state s)).2 =
    render_counter "gateway_requests_total" (total CRequest) +:+
    render_counter "gateway_errors_total" (total CError) +:+
    render_counter "gateway_unauthorized_total" (total CUnauthorized) +:+
    render_counter "gateway_rate_limited_total" (total CRateLimited) +:+
    render_counter "gateway_upstream_failures_total" (total CUpstreamFailure).
Proof.
  intros Hr total. apply state_inv_run in Hr as [Hc _]. split; [done|].
  unfold metrics_handler, render_prometheus. simpl.
  pose proof (Hc CRequest) as H1. pose proof (Hc CError) as H2.
  pose proof (Hc CUnauthorized) as H3. pose proof (Hc CRateLimited) as H4.
  pose proof (Hc CUpstreamFailure) as H5. simpl in *. by rewrite H1, H2, H3, H4, H5.
Qed.

(** Quotas hold for the gateway as a whole.  For a limit rule with quota
    [q], over the whole life of the gateway and under any interleaving, at most
    [q] requests with a given value of the rule's scope are accepted by the
    limiter (and so, by [sends_are_admitted], can be sent upstream). *)
Theorem gateway_quota now ls s r v q :
  uses_rules (rate_limit cfg) → r ∈ rules_of (rate_limit cfg) →
  rule_quota r = Some q → uint 64 q → sys_run (initial_system now) ls s →
  (Z.of_nat (countb (λ cb, cb.2 && bool_decide (scope_value cb.1 (rule_scope r) = v)) (checks_of ls))
     ≤ q)%Z.
Proof. apply accepted_checks_bound. Qed.

Lemma spawn_from_lookup runtime us : ∀ k i c,
  spawn_from runtime k us !! i = Some c →
  ∃ j u, i = (k + j)%nat ∧ us !! j = Some u ∧ c = checker_start u ∧
    active_enabled (active (health_checks u)) = true.
Proof.
  induction us as [|u us IH]; intros k i c; simpl; [by rewrite lookup_empty|].
  assert (spawn_from runtime (S k) us !! i = Some c →
    ∃ j v, i = (k + j)%nat ∧ (u :: us) !! j = Some v ∧ c = checker_start v ∧
      active_enabled (active (health_checks v)) = true) as Hrest.
  { intros (j & v & -> & Hj & -> & ?)%IH. exists (S j), v. split; [lia|done]. }
  destruct (active_enabled _) eqn:Ea; simpl; [|done]. destruct (runtime !! _); [|done].
  intros [[<- <-]|[_ Hl]]%lookup_insert_Some; [|auto]. exists 0, u. split; [lia|done].
Qed.

(** The probes of a run are those of the configuration. *)
Definition checkers_ok (s : System) : Prop :=
  ∀ i c, sys_checkers s !! i = Some c → ∃ u, upstreams cfg !! i = Some u ∧
    active_enabled (active (health_checks u)) = true ∧
    match c with Probing rest => ∀ t, t ∈ rest → t ∈ targets u | _ => True end.

Definition configured_probe (l : label) : Prop :=
  match l with
  | LProbe v t url _ => ∃ u, u ∈ upstreams cfg ∧ upstream_name u = v ∧ t ∈ targets u ∧
      active_enabled (active (health_checks u)) = true ∧ url = probe_url u t
  | _ => True
  end.

Lemma probes_run now ls s :
  sys_run (initial_system now) ls s → checkers_ok s ∧ Forall configured_probe ls.
Proof.
  induction 1 as [|ls l s' s'' Hr [Hok Hls] Hs].
  - split; [|constructor]. intros i c Hc. simpl in Hc.
    apply spawn_from_lookup in Hc as (j & u & -> & Hj & -> & Ha). exists u. split; [done|].
    split; [done|]. unfold checker_start. by destruct (_ =? _)%Z.
  - rewrite Forall_app, Forall_singleton.
    destruct Hs as [| | | |i u c l c' st Hc Hu Hstep|]; simpl; try done.
    destruct (Hok i c Hc) as (v & Hv & Ha & Hrest). assert (v = u) as -> by congruence.
    pose proof (list_elem_of_lookup_2 _ _ _ Hu) as Hin. split.
    + intros j c'' Hj. simpl in Hj. apply lookup_insert_Some in Hj as [[<- <-]|[_ Hj]];
        [|by apply Hok]. exists u.
      split; [done|]. split; [done|]. destruct Hstep; simpl; [by destruct (st_draining _)| |done].
      intros t' Ht'. apply Hrest. by apply list_elem_of_further.
    + split; [done|]. destruct Hstep; simpl; [done| |done]. exists u. split_and!; try done.
      apply Hrest, list_elem_of_here.
Qed.

(** An interval of zero disables the active checks.  The checker of an
    upstream whose check interval is 0, which no check of the configuration
    excludes, never runs: in every reachable state its task has panicked. *)
Theorem zero_interval_never_probes now ls s i u :
  upstreams cfg !! i = Some u → interval_ms (active (health_checks u)) = 0%Z →
  sys_run (initial_system now) ls s →
  sys_checkers s !! i = None ∨ sys_checkers s !! i = Some Crashed.
Proof.
  intros Hu Hz Hr. induction Hr as [|ls l s' s'' Hr IH Hs].
  - simpl. destruct (spawn_active_health_checks _ !! i) as [c|] eqn:E; [right|by left].
    apply spawn_from_lookup in E as (j & v & -> & Hj & -> & _). simpl in Hu.
    rewrite Hj in Hu. injection Hu as ->. unfold checker_start. by rewrite Hz.
  - destruct Hs as [| | | |j v c l c' st Hc Hv Hstep|]; simpl in *; try done.
    destruct (decide (j = i)) as [->|Hne]; [|by rewrite lookup_insert_ne].
    exfalso. rewrite Hc in IH. destruct IH as [[=]|[= ->]]. inversion Hstep.
Qed.
End server.

(** ** Witnesses

    A short run of the demonstration gateway, with the reference instances of
    the interfaces: a request arrives and gets its guard, then the signal
    comes. *)

#[local] Existing Instance list_header_map.
#[local] Existing Instance tree_json.
#[local] Existing Instance demo_jwt.
#[local] Existing Instance fnv_hasher.
#[local] Existing Instance sorted_map_order.

Definition accept_all : Z → list (HeaderName * HeaderValue) → bool := λ _ _, true.

Definition demo_sys_run (cfg : GatewayConfig) : list label → System → Prop :=
  sys_run accept_all Debug cfg [] (initial_system cfg 0).

Lemma demo_run cfg : ∃ ls s, demo_sys_run cfg ls s ∧ size (sys_tasks s) = 1 ∧
  sys_tasks s !! 7 = None ∧ st_draining (sys_state s) = true ∧
  sys_shutdown s = Draining (from_millis (drain_timeout_ms (shutdown (server cfg)))) 0 ∧
  st_runtime (sys_state s) = build_runtime_registry cfg ∧ length ls = 5 ∧
  ∀ id rq, LArrive id rq ∈ ls → rq = demo_request.
Proof.
  eexists _, _. split.
  { eapply run_step; [eapply run_step; [eapply run_step; [eapply run_step; [eapply run_step;
      [apply run_refl|]|]|]|]|].
    - apply (step_arrive _ _ _ _ _ 0 demo_request). apply lookup_empty.
    - eapply (step_effect _ _ _ _ _ 0 _ (EInc CRequest) _ false ()); [apply lookup_insert_eq|reflexivity].
    - eapply (step_effect _ _ _ _ _ 0 _ EDraining _ false false); [apply lookup_insert_eq|by split].
    - eapply (step_effect _ _ _ _ _ 0 _ EEnter _ false ()); [apply lookup_insert_eq|reflexivity].
    - apply step_shutdown, shutdown_signal. }
  split_and!; try done. simpl. intros id rq Hin.
  repeat (apply elem_of_cons in Hin as [?|Hin]; [by simplify_eq|]). by apply not_elem_of_nil in Hin.
Qed.

Lemma in_flight_counts_guards_witness :
  ∃ ls s, demo_sys_run demo_cfg ls s ∧
    st_in_flight (sys_state s) = Z.of_nat (guards (sys_tasks s)).
Proof.
  destruct (demo_run demo_cfg) as (ls & s & Hr & Hsize & _). exists ls, s. split; [exact Hr|].
  apply (in_flight_counts_guards accept_all Debug demo_cfg [] 0 ls s Hr).
  rewrite Hsize. reflexivity.
Defined.

Lemma shutdown_drains_witness :
  ∃ ls s s', demo_sys_run demo_cfg ls s ∧ sys_shutdown s' = Finished ∧ sys_tasks s' = sys_tasks s.
Proof.
  destruct (demo_run demo_cfg) as (ls & s & Hr & _ & _ & _ & Hd & _).
  destruct (shutdown_drains accept_all Debug demo_cfg [] 0 ls s _ _ Hr Hd)
    as (_ & _ & ls' & s' & _ & Hf & Ht).
  exists ls, s, s'. split; [exact Hr|]. split; [exact Hf|exact Ht].
Defined.

Lemma late_requests_refused_witness :
  ∃ s s', sys_run accept_all Debug demo_cfg [] s
    (([] ++ [LArrive 7 demo_request]) ++ [LEffect 7 (Ev (EInc CRequest) ())]) s' ∧
    (Ev (EInc CRequest) () = Ev (EInc CRequest) () ∨ Ev (EInc CRequest) () = Ev EDraining true).
Proof.
  destruct (demo_run demo_cfg) as (ls & s & _ & _ & Hid & Hd & _).
  assert (∃ s', sys_run accept_all Debug demo_cfg [] s
    (([] ++ [LArrive 7 demo_request]) ++ [LEffect 7 (Ev (EInc CRequest) ())]) s') as [s' Hr].
  { eexists. eapply run_step; [eapply run_step; [apply run_refl|]|].
    - apply (step_arrive _ _ _ _ _ 7 demo_request). exact Hid.
    - eapply (step_effect _ _ _ _ _ 7 _ (EInc CRequest) _ false ());
        [apply lookup_insert_eq|reflexivity]. }
  exists s, s'. split; [exact Hr|].
  apply (late_requests_refused accept_all Debug demo_cfg [] s _ s' 7 _ Hd Hid Hr).
  apply list_elem_of_further, list_elem_of_here.
Defined.

Lemma metrics_count_events_witness :
  ∃ ls s, demo_sys_run demo_cfg ls s ∧ total_requests (st_metrics (sys_state s))
    = wrap 64 (Z.of_nat (countb (label_counts CRequest) ls)).
Proof.
  destruct (demo_run demo_cfg) as (ls & s & Hr & _). exists ls, s. split; [exact Hr|].
  exact (proj1 (metrics_count_events accept_all Debug demo_cfg [] 0 ls s Hr) CRequest).
Defined.

Definition quota_cfg : GatewayConfig := {|
  server := ServerConfig_default; routes := routes demo_cfg; upstreams := upstreams demo_cfg;
  security := SecurityConfig_default; plugins := [];
  rate_limit := demo_limits SlidingWindow [demo_rule ScopeRoute 10 (Some 2%Z) SlidingWindow];
|}.

Lemma gateway_quota_witness :
  ∃ ls s, demo_sys_run quota_cfg ls s ∧
    (Z.of_nat (countb (λ cb, cb.2 && bool_decide (scope_value cb.1 ScopeRoute = "r"))
                      (checks_of ls)) ≤ 2)%Z.
Proof.
  destruct (demo_run quota_cfg) as (ls & s & Hr & _). exists ls, s. split; [exact Hr|].
  apply (gateway_quota accept_all Debug quota_cfg [] 0 ls s
    (demo_rule ScopeRoute 10 (Some 2%Z) SlidingWindow) "r" 2).
  - split; [reflexivity|]. intros [? _]. discriminate.
  - apply list_elem_of_here.
  - reflexivity.
  - unfold uint. simpl. lia.
  - exact Hr.
Defined.

Definition zero_interval_cfg : GatewayConfig :=
  demo_gateway [plain_route "r" "/" "u" []]
    [{| upstream_name := "u"; strategy := RoundRobin; targets := [target_a];
        health_checks := {| active := {| active_enabled := true; active_path := "/"; interval_ms := 0;
            timeout_ms := 1; healthy_threshold := 1; unhealthy_threshold := 1 |};
          passive := PassiveHealthCheckConfig_default |};
        circuit_breaker := CircuitBreakerConfig_default |}].

Lemma zero_interval_never_probes_witness :
  ∃ ls s, demo_sys_run zero_interval_cfg ls s ∧
    (sys_checkers s !! 0 = None ∨ sys_checkers s !! 0 = Some Crashed).
Proof.
  destruct (demo_run zero_interval_cfg) as (ls & s & Hr & _). exists ls, s. split; [exact Hr|].
  eapply (zero_interval_never_probes accept_all Debug zero_interval_cfg [] 0 ls s 0);
    [reflexivity|reflexivity|exact Hr].
Defined.
