(* ===== verification/Composition.v ===== *)
(** * The requests of a run (main.rs)

    The running gateway of [Server] interleaves its tasks; here every run is
    taken apart again into the requests it served, each with the events of its
    own task, so that what [Handler] and [HandlerBounds] show of one request
    in an arbitrary environment holds of every request of every run, and adds
    up over all of them. *)

From S2P Require Export Server HandlerBounds LimiterBounds.

#[local] Open Scope string_scope.
#[local] Open Scope list_scope.

Section after.
Context `{HM : HeaderMapOps}.

(** [after m tr m']: [m'] is what is left of [m] after the events of [tr]. *)
Inductive after {A} : prog A → list event → prog A → Prop :=
| after_nil m : after m [] m
| after_vis X (e : effect X) k x tr m' : after (k x) tr m' → after (Vis e k) (Ev e x :: tr) m'.

Lemma after_snoc {A} (m : prog A) tr X (e : effect X) k x :
  after m tr (Vis e k) → after m (tr ++ [Ev e x]) (k x).
Proof.
  remember (Vis e k) as m' eqn:E. induction 1 as [m|Y e' k' y tr m' Ha IH]; subst.
  - simpl. constructor. constructor.
  - simpl. constructor. by apply IH.
Qed.

Lemma after_reaches {A} (m : prog A) tr m' : after m tr m' → reaches m tr.
Proof. induction 1; by constructor. Qed.

Lemma after_exec {A} (m : prog A) tr m' tr' o :
  after m tr m' → exec m' tr' o → exec m (tr ++ tr') o.
Proof. induction 1; [done|]. intros. simpl. constructor. auto. Qed.

(** ** The requests served *)

(** Reading the labels in order: which task serves which request, and the
    requests so far with their events. *)
Definition note (st : gmap nat nat * list (ProxyRequest * list event)) (l : label)
    : gmap nat nat * list (ProxyRequest * list event) :=
  match l with
  | LArrive id rq => (<[id := length st.2]> st.1, st.2 ++ [(rq, [])])
  | LEffect id ev =>
      match st.1 !! id with
      | Some i => (st.1, alter (λ r, (r.1, r.2 ++ [ev])) i st.2)
      | None => st
      end
  | _ => st
  end.

Definition notes (ls : list label) : gmap nat nat * list (ProxyRequest * list event) :=
  foldl note (∅, []) ls.
Definition served (ls : list label) : list (ProxyRequest * list event) := (notes ls).2.

Lemma notes_snoc ls l : notes (ls ++ [l]) = note (notes ls) l.
Proof. unfold notes. by rewrite foldl_app. Qed.

(** A run that only serves one request. *)
Lemma served_single id rq tr : served (LArrive id rq :: (LEffect id <$> tr)) = [(rq, tr)].
Proof.
  unfold served. assert (notes (LArrive id rq :: (LEffect id <$> tr)) = ({[id := 0]}, [(rq, tr)])) as ->;
    [|done].
  induction tr as [|ev tr IH] using rev_ind; [done|].
  rewrite fmap_app, app_comm_cons. change (LEffect id <$> [ev]) with [LEffect id ev].
  rewrite notes_snoc, IH. simpl. by rewrite lookup_singleton_eq.
Qed.

(** The sum of a measure of the requests, and its change when one gets one
    more event. *)
Lemma sum_served_alter (f : event → bool) ev i (srv : list (ProxyRequest * list event)) :
  is_Some (srv !! i) →
  sum_list_with (λ r, countb f r.2) (alter (λ r, (r.1, r.2 ++ [ev])) i srv)
  = sum_list_with (λ r, countb f r.2) srv + (if f ev then 1 else 0).
Proof.
  revert i. induction srv as [|[rq tr] srv IH]; intros [|i] Hi; try (by destruct Hi).
  - simpl. rewrite countb_app, countb_cons, countb_nil. lia.
  - set (g := λ r : ProxyRequest * list event, (r.1, r.2 ++ [ev])) in *.
    change (alter g (S i) ((rq, tr) :: srv)) with ((rq, tr) :: alter g i srv).
    cbn [sum_list_with]. rewrite (IH i Hi). lia.
Qed.
End after.

Section composition.
Context `{HM : HeaderMapOps, J : JsonOps, !JwtOps J, !Hasher, !MapOrder}.
Context (builder_accepts : Z → list (HeaderName * HeaderValue) → bool).
Context (p : profile) (cfg : GatewayConfig) (plugins : PluginManager).

Abbreviation handler := (proxy_handler builder_accepts p cfg plugins) (only parsing).
Abbreviation run := (sys_run builder_accepts p cfg plugins) (only parsing).
Abbreviation step := (sys_step builder_accepts p cfg plugins) (only parsing).

(** The effects of a run, of whatever task. *)
Definition run_events (ls : list label) : list event := omap label_event ls.

(** What the labels of a run say of its state: every live task is at a point
    of its own handler, and the events of the run are those of its requests. *)
Record notes_ok (ls : list label) (s : System) : Prop := {
  live_task id t : sys_tasks s !! id = Some t →
    ∃ i rq tr, (notes ls).1 !! id = Some i ∧ served ls !! i = Some (rq, tr) ∧
      after (handler rq) tr (task_prog t);
  live_bound id i : (notes ls).1 !! id = Some i → i < length (served ls);
  live_inj id id' i : (notes ls).1 !! id = Some i → (notes ls).1 !! id' = Some i → id = id';
  served_reach i rq tr : served ls !! i = Some (rq, tr) → reaches (handler rq) tr;
  served_source i rq tr : served ls !! i = Some (rq, tr) →
    (∃ id, LArrive id rq ∈ ls) ∧ ∀ ev, ev ∈ tr → ev ∈ run_events ls;
  served_sum f : countb f (run_events ls) = sum_list_with (λ r, countb f r.2) (served ls);
}.

Lemma run_events_snoc ls l :
  run_events (ls ++ [l]) = run_events ls ++ match label_event l with Some ev => [ev] | None => [] end.
Proof. unfold run_events. rewrite omap_app. simpl. by destruct (label_event l). Qed.

(** A label that is neither an arrival nor an effect is not noted. *)
Lemma notes_ok_other ls l s s' :
  note (notes ls) l = notes ls → label_event l = None →
  (∀ id t, sys_tasks s' !! id = Some t → sys_tasks s !! id = Some t) →
  notes_ok ls s → notes_ok (ls ++ [l]) s'.
Proof.
  intros Hn Hl Hs [H1 H2 H3 H4 H5 H6].
  assert (served (ls ++ [l]) = served ls) as Hsv by (unfold served; by rewrite notes_snoc, Hn).
  split; rewrite ?Hsv, ?notes_snoc, ?Hn, ?run_events_snoc, ?Hl, ?app_nil_r; try done.
  - intros id t Ht. by apply H1, Hs.
  - intros i rq tr Hi. destruct (H5 i rq tr Hi) as [[id Hid] Hev].
    split; [exists id; rewrite elem_of_app; by left|done].
Qed.

Lemma notes_ok_arrive ls id rq s s' :
  sys_tasks s !! id = None →
  sys_tasks s' = <[id := {| task_prog := handler rq; task_guarded := false |}]> (sys_tasks s) →
  notes_ok ls s → notes_ok (ls ++ [LArrive id rq]) s'.
Proof.
  intros Hid Hs [H1 H2 H3 H4 H5 H6].
  assert (notes (ls ++ [LArrive id rq])
    = (<[id := length (served ls)]> (notes ls).1, served ls ++ [(rq, [])])) as Hn
    by by rewrite notes_snoc.
  assert (served (ls ++ [LArrive id rq]) = served ls ++ [(rq, [])]) as Hsv
    by (unfold served at 1; by rewrite Hn).
  split; rewrite ?Hsv, ?Hn, ?Hs, ?run_events_snoc; simpl; rewrite ?app_nil_r.
  - intros id' t [[<- <-]|[Hne Ht]]%lookup_insert_Some.
    + exists (length (served ls)), rq, []. rewrite lookup_insert_eq, list_lookup_middle by done.
      split; [done|]. split; [done|constructor].
    + destruct (H1 id' t Ht) as (i & rq' & tr & Hi & Hsi & Ha). exists i, rq', tr.
      rewrite lookup_insert_ne by done. split; [done|]. split; [|done].
      by apply lookup_app_l_Some.
  - intros id' i [[<- <-]|[Hne Hi]]%lookup_insert_Some; rewrite length_app; simpl; [lia|].
    specialize (H2 id' i Hi). lia.
  - intros id1 id2 i [[<- <-]|[Hne1 Hi1]]%lookup_insert_Some [[<- Hl]|[Hne2 Hi2]]%lookup_insert_Some;
      [done| | |by eapply H3].
    + specialize (H2 _ _ Hi2). lia.
    + specialize (H2 _ _ Hi1). lia.
  - intros i rq' tr [Hi|[_ [_ [= <- <-]]%list_lookup_singleton_Some]]%lookup_app_Some;
      [by eapply H4|constructor].
  - intros i rq' tr [Hi|[_ [_ [= <- <-]]%list_lookup_singleton_Some]]%lookup_app_Some.
    + destruct (H5 i rq' tr Hi) as [[id' Hid'] Hev]. split; [|done].
      exists id'. rewrite elem_of_app. by left.
    + split; [|by intros ev ?%not_elem_of_nil]. exists id. rewrite elem_of_app.
      right. apply list_elem_of_here.
  - intros f. rewrite H6, sum_list_with_app. simpl. lia.
Qed.

Lemma notes_ok_effect ls id s s' X (e : effect X) x k g g' :
  sys_tasks s !! id = Some {| task_prog := Vis e k; task_guarded := g |} →
  sys_tasks s' = <[id := {| task_prog := k x; task_guarded := g' |}]> (sys_tasks s) →
  notes_ok ls s → notes_ok (ls ++ [LEffect id (Ev e x)]) s'.
Proof.
  intros Hid Hs [H1 H2 H3 H4 H5 H6].
  destruct (H1 id _ Hid) as (i & rq & tr & Hi & Hsi & Ha). simpl in Ha.
  set (ev := Ev e x). set (add := λ r : ProxyRequest * list event, (r.1, r.2 ++ [ev])).
  assert (notes (ls ++ [LEffect id ev]) = ((notes ls).1, alter add i (served ls))) as Hn
    by (rewrite notes_snoc; simpl; by rewrite Hi).
  assert (served (ls ++ [LEffect id ev]) = alter add i (served ls)) as Hsv
    by (unfold served at 1; by rewrite Hn).
  assert (alter add i (served ls) !! i = Some (rq, tr ++ [ev])) as Hnew
    by (rewrite list_lookup_alter_eq, Hsi; done).
  assert (∀ j, j ≠ i → alter add i (served ls) !! j = served ls !! j) as Hold
    by (intros j Hj; by rewrite list_lookup_alter_ne).
  pose proof (after_snoc _ _ _ _ _ x Ha) as Ha'.
  split; rewrite ?Hsv, ?Hn, ?Hs, ?run_events_snoc; cbn [label_event fst snd].
  - intros id' t [[<- <-]|[Hne Ht]]%lookup_insert_Some; [by exists i, rq, (tr ++ [ev])|].
    destruct (H1 id' t Ht) as (j & rq' & tr' & Hj & Hsj & Ha''). exists j, rq', tr'.
    split; [done|]. rewrite Hold; [done|]. intros ->. by apply Hne, (H3 id id' i).
  - intros id' j Hj. rewrite length_alter. by eapply H2.
  - done.
  - intros j rq' tr' Hj. destruct (decide (j = i)) as [->|Hne].
    + rewrite Hnew in Hj. injection Hj as <- <-. by eapply after_reaches.
    + rewrite Hold in Hj by done. by eapply H4.
  - intros j rq' tr' Hj.
    assert (∀ id', LArrive id' rq' ∈ ls → LArrive id' rq' ∈ ls ++ [LEffect id ev]) as Hin
      by (intros; rewrite elem_of_app; by left).
    destruct (decide (j = i)) as [->|Hne].
    + rewrite Hnew in Hj. injection Hj as <- <-. destruct (H5 i rq tr Hsi) as [[id' Hid'] Hev].
      split; [eauto|]. intros ev' [?|?]%elem_of_app; rewrite elem_of_app; [left; auto|by right].
    + rewrite Hold in Hj by done. destruct (H5 j rq' tr' Hj) as [[id' Hid'] Hev].
      split; [eauto|]. intros ev' ?. rewrite elem_of_app. left. auto.
  - intros f. rewrite countb_app, countb_cons, countb_nil, H6. unfold add.
    rewrite sum_served_alter by eauto. lia.
Qed.

Lemma notes_ok_run now ls s : run (initial_system cfg now) ls s → notes_ok ls s.
Proof.
  induction 1 as [|ls l s' s'' Hr IH Hs].
  - split; try done.
  - destruct Hs; simpl in *.
    + by eapply notes_ok_arrive.
    + by eapply notes_ok_effect.
    + eapply notes_ok_other; [done|done| |exact IH]. simpl. intros id' t' Ht.
      by apply lookup_delete_Some in Ht as [_ Ht].
    + by eapply notes_ok_other; [..|exact IH].
    + destruct H3; by eapply notes_ok_other; [..|exact IH].
    + by eapply notes_ok_other; [..|exact IH].
Qed.

(** ** The limiter along a run *)

Lemma limiter_effect s X (e : effect X) x s' n :
  wf_limits (rate_limit cfg) → (0 ≤ n)%Z → (n + 1 < 2 ^ 64)%Z →
  effect_step p cfg s e x s' → well_typed_states n (st_limiter s) →
  well_typed_states (n + 1) (st_limiter s') ∧ limiter_answered (Ev e x).
Proof.
  intros Hl Hn Hn64 He Hs.
  assert (well_typed_states (n + 1) (st_limiter s)) as Hs1.
  { intros k st Hk. eapply well_typed_mono, Hs, Hk. lia. }
  destruct e; simpl in *;
    try (by first [subst s'|destruct He as [_ ->]|destruct He as [-> _]]).
  - destruct He as (now & _ & Hc).
    destruct (check_typed p (rate_limit cfg) ctx now (st_limiter s) n) as (b & l & Heq & Hl'); try done.
    rewrite Heq in Hc. destruct Hc as [-> ->]. done.
  - destruct (_ !! _); [by destruct He as [_ ->]|done].
  - destruct (_ !! _); [by subst s'|done].
Qed.

Lemma limiter_run now ls s :
  wf_limits (rate_limit cfg) → (Z.of_nat (length ls) < 2 ^ 64)%Z →
  run (initial_system cfg now) ls s →
  well_typed_states (Z.of_nat (length ls)) (st_limiter (sys_state s)) ∧
  ∀ ev, ev ∈ run_events ls → limiter_answered ev.
Proof.
  intros Hl Hlen Hr. induction Hr as [|ls l s' s'' Hr IH Hs].
  { split; [apply map_Forall_empty|]. by intros ev ?%not_elem_of_nil. }
  rewrite length_app in Hlen. simpl in Hlen.
  destruct IH as [Hty Hev]; [lia|]. rewrite length_app. simpl.
  replace (Z.of_nat (length ls + 1)) with (Z.of_nat (length ls) + 1)%Z by lia.
  rewrite run_events_snoc.
  assert (∀ st : AppState, st_limiter st = st_limiter (sys_state s') →
    well_typed_states (Z.of_nat (length ls) + 1) (st_limiter st)) as Hsame.
  { intros st ->. intros k lst Hk. eapply well_typed_mono, Hty, Hk. lia. }
  assert (label_event l = None →
    ∀ ev, ev ∈ run_events ls ++ match label_event l with Some ev => [ev] | None => [] end →
      limiter_answered ev) as Hno by (intros ->; by rewrite app_nil_r).
  destruct Hs; simpl in *; try (split; [by apply Hsame|by apply Hno]).
  - destruct (limiter_effect _ _ _ _ _ (Z.of_nat (length ls)) Hl ltac:(lia) ltac:(lia) H2 Hty) as [H3 H4].
    split; [done|]. intros ev [?|Hin]%elem_of_app; [auto|].
    by apply list_elem_of_singleton in Hin as ->.
  - split; [|by apply Hno]. destruct (task_guarded t); by apply Hsame.
  - destruct H3; (split; [by apply Hsame|by apply Hno]).
  - destruct H1; (split; [by apply Hsame|by apply Hno]).
Qed.

(** ** Adding up *)

(** A check of the limiter that was accepted for a value of a scope. *)
Definition accepted_check (scope : LimitScope) (v : string) (ev : event) : bool :=
  match check_of_event ev with
  | Some (ctx, ok) => ok && bool_decide (scope_value ctx scope = v)
  | None => false
  end.

(** The requests a run sent upstream for a value of a scope: those of the
    client requests whose check was accepted for it. *)
Definition sends_for (scope : LimitScope) (v : string) (ls : list label) : nat :=
  sum_list_with
    (λ r, if existsb (accepted_check scope v) r.2 then countb is_send r.2 else 0) (served ls).

Lemma accepted_checks_eq scope v ls :
  countb (λ cb, cb.2 && bool_decide (scope_value cb.1 scope = v)) (checks_of ls)
  = countb (accepted_check scope v) (run_events ls).
Proof.
  induction ls as [|l ls IH]; [done|].
  change (checks_of (l :: ls)) with
    (match (ev ← label_event l; check_of_event ev) with
     | Some cb => cb :: checks_of ls | None => checks_of ls end).
  change (run_events (l :: ls)) with
    (match label_event l with Some ev => ev :: run_events ls | None => run_events ls end).
  destruct (label_event l) as [ev|]; simpl; [|exact IH].
  rewrite (countb_cons (accepted_check scope v)). unfold accepted_check at 1.
  destruct (check_of_event ev) as [[ctx ok]|]; [|exact IH]. rewrite countb_cons. by rewrite IH.
Qed.

Lemma countb_existsb {A} (f : A → bool) l : existsb f l = true → (1 ≤ countb f l)%nat.
Proof.
  induction l as [|x l IH]; [done|]. simpl. rewrite countb_cons.
  destruct (f x); simpl; [lia|]. intros H'. specialize (IH H'). lia.
Qed.

Lemma sum_served_le (f g : ProxyRequest * list event → nat) (m : nat) srv :
  (∀ r, r ∈ srv → f r ≤ m * g r)%nat → (sum_list_with f srv ≤ m * sum_list_with g srv)%nat.
Proof.
  induction srv as [|r srv IH]; intros Hr; simpl; [lia|].
  specialize (IH ltac:(intros; apply Hr; by apply list_elem_of_further)).
  specialize (Hr r (list_elem_of_here _ _)). lia.
Qed.

(** One request: as many sends as attempts for each accepted check, and none
    without one. *)
Lemma served_sends ls s now i rq tr :
  wf_targets cfg → run (initial_system cfg now) ls s → served ls !! i = Some (rq, tr) →
  (Z.of_nat (countb is_send tr) ≤ Z.max (max_attempts (retries (proxy (server cfg)))) 1)%Z ∧
  (countb is_send tr ≠ 0%nat → ∃ ctx, Ev (ECheckLimit ctx) (Done true) ∈ tr).
Proof.
  intros Hwf Hr Hi. pose proof (served_reach _ _ (notes_ok_run _ _ _ Hr) _ _ _ Hi) as Hreach. split.
  - pose proof (sends_bounded_run builder_accepts p cfg plugins rq tr Hwf Hreach) as Hb. simpl in Hb.
    destruct (should_retry_method _ _ _); lia.
  - intros Hs. unfold countb in Hs. destruct (filterb is_send tr) as [|ev l] eqn:E; [done|].
    assert (ev ∈ filterb is_send tr) as [Hin Hev]%elem_of_filterb by (rewrite E; left).
    apply is_send_sent in Hev as [request Hreq]. apply list_elem_of_split in Hin as (t1 & t2 & ->).
    destruct (sends_admitted_run builder_accepts p cfg plugins rq t1 ev request t2 Hwf Hreach Hreq)
      as (_ & route & u & t & key & n & pq & _ & (_ & id & _ & _ & Hc) & _).
    eexists. rewrite elem_of_app. left. exact Hc.
Qed.

(** ** Progress *)

Lemma only_after {A} P (m : prog A) tr m' : after m tr m' → only P m → only P m'.
Proof. induction 1; [done|]. intros [_ Hk]. auto. Qed.

Definition registered (u : string) : Prop := is_Some (build_runtime_registry cfg !! u).

Lemma handler_registered rq : only (names_registry registered) (handler rq).
Proof.
  split; [done|]. intros []. split; [done|]. intros [|]; simpl; [done|].
  split; [done|]. intros []. by apply only_guarded.
Qed.

(** The registries are there for the life of the gateway. *)
Definition all_registered (s : AppState) : Prop := ∀ u, registered u → is_Some (st_runtime s !! u).

Lemma all_registered_insert s u reg : all_registered s → all_registered (with_registry s u reg).
Proof. intros Hs v Hv. simpl. apply lookup_insert_is_Some'. auto. Qed.

Lemma all_registered_effect s X (e : effect X) x s' :
  effect_step p cfg s e x s' → all_registered s → all_registered s'.
Proof.
  intros He Hs. destruct e; simpl in He;
    try (by first [subst s'|destruct He as [_ ->]|destruct He as [-> _]]).
  - destruct He as (now & _ & Hc). destruct (check_with_context _ _ _ _ _) as [[ok l]|msg];
      by destruct Hc as [_ ->].
  - destruct (_ !! _); [|done]. destruct He as [_ ->]. by apply all_registered_insert.
  - destruct (_ !! _); [|done]. subst s'. by apply all_registered_insert.
Qed.

Lemma all_registered_run now ls s : run (initial_system cfg now) ls s → all_registered (sys_state s).
Proof.
  induction 1 as [|ls l s' s'' Hr IH Hs]; [by intros u Hu|]. destruct Hs; simpl in *; try done.
  - by eapply all_registered_effect.
  - by destruct (task_guarded t).
  - destruct H3; [done|by apply all_registered_insert|done].
  - by destruct H1.
Qed.

(** A schedule that runs one task at a time, at the current time, with clients
    that send empty bodies and upstreams that answer by [send]: the answer of
    each effect, and the task run to its end. *)
Section schedule.
Context (send : UpstreamRequest → result string UpstreamResponse).

Definition answer_effect (s : AppState) {X} (e : effect X) : X * AppState :=
  match e in effect X return X * AppState with
  | EInc c => ((), with_metrics s (inc_counter c (st_metrics s)))
  | EDraining => (st_draining s, s)
  | EEnter => ((), guard_new s)
  | ECheckLimit ctx =>
      match check_with_context p (rate_limit cfg) ctx (st_now s) (st_limiter s) with
      | Done (ok, states) => (Done ok, with_limiter s states)
      | Panicked msg => (Panicked msg, s)
      end
  | ECounterLoad => (st_counter s, s)
  | ECounterNext => (st_counter s, with_counter s (atomic_add 64 (st_counter s) 1))
  | ENow => (st_now s, s)
  | ESleep _ => ((), s)
  | EReadBody limit => (if (0 <=? limit)%Z then Ok "" else Err "", s)
  | EAvailable upstream key =>
      match st_runtime s !! upstream with
      | Some reg => let r := is_available reg key (st_now s) in (r.1, with_registry s upstream r.2)
      | None => (false, s)
      end
  | ERecord upstream key success =>
      match st_runtime s !! upstream with
      | Some reg => ((), with_registry s upstream
          (if success then record_success reg key else record_failure reg key (st_now s)))
      | None => ((), s)
      end
  | ESend request => (send request, s)
  end.

Fixpoint drive (m : prog Response) (s : AppState) : list event * outcome Response * AppState :=
  match m with
  | Ret r => ([], Done r, s)
  | Panic msg => ([], Panicked msg, s)
  | Vis e k =>
      let a := answer_effect s e in
      let '(tr, o, s') := drive (k a.1) a.2 in (Ev e a.1 :: tr, o, s')
  end.

Lemma answer_effect_step s X (e : effect X) :
  all_registered s → names_registry registered X e →
  effect_step p cfg s e (answer_effect s e).1 (answer_effect s e).2.
Proof.
  intros Hs He. destruct e; simpl in He |- *; try done.
  - destruct (check_with_context p (rate_limit cfg) ctx (st_now s) (st_limiter s)) as [[ok l]|msg] eqn:E;
      exists (st_now s); (split; [lia|]); rewrite E; by split.
  - split; [done|]. by destruct (0 <=? limit)%Z eqn:E; [apply Z.leb_le in E|].
  - by destruct (Hs upstream He) as [reg ->].
  - by destruct (Hs upstream He) as [reg ->].
Qed.

Lemma run_cons s l s1 ls s2 : step s l s1 → run s1 ls s2 → run s (l :: ls) s2.
Proof.
  intros Hs Hr. induction Hr as [|ls l' s' s'' Hr IH Hs']; [|by eapply (run_step _ _ _ _ _ (l :: ls))].
  apply (run_step _ _ _ _ _ [] l s); [apply run_refl|done].
Qed.

(** The state of a task that has ended. *)
Definition ended (o : outcome Response) : prog Response :=
  match o with Done r => Ret r | Panicked msg => Panic msg end.

Lemma drive_runs m : ∀ s id g,
  only (names_registry registered) m → all_registered (sys_state s) →
  sys_tasks s !! id = Some {| task_prog := m; task_guarded := g |} →
  let '(tr, o, st) := drive m (sys_state s) in
  exec m tr o ∧ ∃ g', run s (LEffect id <$> tr)
    {| sys_state := st;
       sys_tasks := <[id := {| task_prog := ended o; task_guarded := g' |}]> (sys_tasks s);
       sys_checkers := sys_checkers s; sys_shutdown := sys_shutdown s |}.
Proof.
  induction m as [r|msg|X e k IH]; intros s id g Ho Hs Ht.
  - split; [constructor|]. exists g. rewrite insert_id by done. destruct s. apply run_refl.
  - split; [constructor|]. exists g. rewrite insert_id by done. destruct s. apply run_refl.
  - destruct Ho as [He Hk]. pose proof (answer_effect_step _ _ e Hs He) as Hstep. simpl.
    set (a := answer_effect (sys_state s) e) in *.
    pose proof (step_effect builder_accepts p cfg plugins s id X e k g a.1 a.2 Ht Hstep) as Hsys.
    set (s1 := {| sys_state := a.2 |}) in Hsys.
    specialize (IH a.1 s1 id (g || is_enter e) (Hk _) ltac:(by eapply all_registered_effect)
      ltac:(apply lookup_insert_eq)).
    change (sys_state s1) with a.2 in IH.
    destruct (drive (k a.1) a.2) as [[tr o] st]. destruct IH as (Hexec & g' & Hrun).
    split; [by constructor|]. exists g'. eapply run_cons; [exact Hsys|].
    simpl in Hrun. by rewrite insert_insert_eq in Hrun.
Qed.

End schedule.

(** ** The labels of one task *)

Lemma run_snoc_inv s ls l s' : run s (ls ++ [l]) s' → ∃ s1, run s ls s1 ∧ step s1 l s'.
Proof.
  intros Hr. remember (ls ++ [l]) as k eqn:E. destruct Hr as [|ls' l' s1 s2 Hr Hs].
  - by destruct ls.
  - apply app_inj_2 in E as [-> [= ->]]; [|done]. by exists s1.
Qed.

Lemma run_split s ls1 l ls2 s' :
  run s (ls1 ++ l :: ls2) s' → ∃ s1 s2, run s ls1 s1 ∧ step s1 l s2 ∧ run s2 ls2 s'.
Proof.
  revert s'. induction ls2 as [|l' ls2 IH] using rev_ind; intros s' Hr.
  - apply run_snoc_inv in Hr as (s1 & Hr & Hs). exists s1, s'. split; [done|].
    split; [done|constructor].
  - rewrite app_comm_cons, (assoc_L (++)) in Hr.
    apply run_snoc_inv in Hr as (s1 & Hr & Hs).
    destruct (IH _ Hr) as (sa & sb & ? & ? & Hb). exists sa, sb. split; [done|]. split; [done|].
    by eapply run_step.
Qed.

(** An effect is a step of the task that performs it. *)
Lemma effect_label s id X (e : effect X) x s' :
  step s (LEffect id (Ev e x)) s' →
  ∃ k g, sys_tasks s !! id = Some {| task_prog := Vis e k; task_guarded := g |} ∧
    effect_step p cfg (sys_state s) e x (sys_state s').
Proof.
  set (performs := λ ev : event, match ev with Ev e x => ∃ k g,
    sys_tasks s !! id = Some {| task_prog := Vis e k; task_guarded := g |} ∧
    effect_step p cfg (sys_state s) e x (sys_state s') end).
  intros Hs. change (performs (Ev e x)). generalize dependent (Ev e x). intros ev Hs.
  inversion Hs as [|id' Y e' k g y st Hl He| | |i u c l c' st Hc Hu Hcs|]; [|by inversion Hcs].
  subst. by exists k, g.
Qed.

(** The events of the task that has the number [id] now. *)
Definition own (id : nat) (tr : list event) (l : label) : list event :=
  match l with
  | LArrive id' _ => if decide (id' = id) then [] else tr
  | LEffect id' ev => if decide (id' = id) then tr ++ [ev] else tr
  | _ => tr
  end.
Definition own_events (id : nat) (ls : list label) : list event := foldl (own id) [] ls.

Lemma own_in id ls ev :
  ev ∈ own_events id ls →
  ∃ ls1 ls2, ls = ls1 ++ LEffect id ev :: ls2 ∧ ∀ rq, LArrive id rq ∉ ls2.
Proof.
  unfold own_events. induction ls as [|l ls IH] using rev_ind; [by intros ?%not_elem_of_nil|].
  rewrite foldl_app. simpl.
  assert ((∀ rq, l ≠ LArrive id rq) → ev ∈ foldl (own id) [] ls →
    ∃ ls1 ls2, ls ++ [l] = ls1 ++ LEffect id ev :: ls2 ∧ ∀ rq, LArrive id rq ∉ ls2) as Hold.
  { intros Hl (ls1 & ls2 & -> & Hno)%IH. exists ls1, (ls2 ++ [l]). split; [by rewrite <-(assoc_L (++))|].
    intros rq [?|Heq%list_elem_of_singleton]%elem_of_app; [by eapply Hno|by apply (Hl rq)]. }
  destruct l as [id' ev'|id' rq'| | | |]; simpl; try (by apply Hold).
  - case_decide as Hid; [subst id'|by apply Hold].
    intros [Hin| ->%list_elem_of_singleton]%elem_of_app; [by apply Hold|].
    exists ls, []. split; [done|]. by intros rq ?%not_elem_of_nil.
  - case_decide; [by intros ?%not_elem_of_nil|]. apply Hold. by intros rq [= ? ?].
Qed.

Lemma own_after now ls s id t :
  run (initial_system cfg now) ls s → sys_tasks s !! id = Some t →
  ∃ rq, after (handler rq) (own_events id ls) (task_prog t).
Proof.
  intros Hr. revert t. unfold own_events. induction Hr as [|ls l s' s'' Hr IH Hs]; [done|].
  intros t Ht. rewrite foldl_app. simpl. destruct Hs; simpl in *; try (by apply IH).
  - apply lookup_insert_Some in Ht as [[<- <-]|[Hne Ht]].
    + rewrite decide_True by done. exists rq. constructor.
    + rewrite decide_False by done. by apply IH.
  - apply lookup_insert_Some in Ht as [[<- <-]|[Hne Ht]].
    + rewrite decide_True by done. destruct (IH _ H1) as [rq Ha]. exists rq. simpl in Ha |- *. by apply (after_snoc _ _ _ _ _ x) in Ha.
    + rewrite decide_False by done. by apply IH.
  - apply lookup_delete_Some in Ht as [_ Ht]. by apply IH.
  - destruct H3; simpl; by apply IH.
Qed.

(** ** Properties *)

(** C2: what is sent follows the health of its target.  In every run, every
    request that leaves for an upstream goes to a target of a configured
    upstream whose registry the same task asked before; and at that moment, by
    the results of earlier requests and probes of whatever task, the history
    of this target permitted it: its last active probe, if any, succeeded; and
    when the last results were failures, they were fewer than the passive
    threshold, or else at least the breaker threshold and the last of them
    [open_ms] ago. *)
Theorem sends_respect_health now ls1 id request answer ls2 s :
  wf_targets cfg →
  Forall (λ u, wf_thresholds (passive (health_checks u)) (circuit_breaker u)) (upstreams cfg) →
  run (initial_system cfg now) (ls1 ++ LEffect id (Ev (ESend request) answer) :: ls2) s →
  ∃ upstream target path asked since uc,
    let key := target_key (upstream_name upstream) (target_id target) in
    upstream ∈ upstreams cfg ∧ target ∈ targets upstream ∧
    up_url request = "http://" +:+ address target +:+ path ∧
    ls1 = asked ++ LEffect id (Ev (EAvailable (upstream_name upstream) key) true) :: since ∧
    (∀ rq, LArrive id rq ∉ since) ∧
    uc ∈ upstreams cfg ∧ upstream_name uc = upstream_name upstream ∧
    may_serve (passive (health_checks uc)) (circuit_breaker uc)
      (events_of key (calls_of (upstream_name upstream) now asked)) (run_clock now asked).
Proof.
  intros Hwf Hth Hr. apply run_split in Hr as (s1 & s2 & Hr1 & Hstep & _).
  apply effect_label in Hstep as (k & g & Ht & _).
  destruct (own_after _ _ _ _ _ Hr1 Ht) as [rq Ha]. simpl in Ha.
  apply (after_snoc _ _ _ _ _ answer), after_reaches in Ha.
  destruct (sends_admitted_run _ _ _ _ _ _ _ request [] Hwf Ha eq_refl)
    as (_ & route & u & t & key & n & pq & _ & _ & Hu & _ & _ & Hin & _ & Hp & _ & Hurl & _).
  apply find_upstream_in in Hu as [Hu _]. apply own_in in Hp as (asked & since & -> & Hno).
  apply run_split in Hr1 as (sa & sb & Hra & Hstep & _).
  apply effect_label in Hstep as (_ & _ & _ & He). simpl in He.
  destruct (registries_run _ _ _ _ _ _ _ Hra) as [Hc Hrt Hp].
  rewrite Hrt in He. destruct (build_runtime_registry cfg !! _) as [reg|] eqn:Er; [|done].
  apply build_runtime_registry_lookup in Er as (uc & Huc & Hn & ->). destruct He as [He _].
  exists u, t, pq, asked, since, uc. split_and!; try done.
  rewrite <-Hc. apply granted_may_serve; [|apply Hp|done].
  rewrite Forall_forall in Hth. by apply Hth.
Qed.

(** C39: the health state of the gateway is what its upstreams answered.  In
    every reachable state the registry of each upstream is that of the
    configuration after exactly the calls of the run, in order and at their
    times: the checks of the tasks, their records, and the probes.  The records
    of a request are its answers: each request sent to a target is followed by
    one record for this target, a failure for no answer, for a server error,
    and for a retryable status when attempts are left, a success otherwise (an
    interrupted task may lack the last).  And every probe asks a target of an
    upstream with active checks at its health path, and counts as healthy
    exactly when it is answered with a status of 200 to 299. *)
Theorem registries_follow_answers now ls s :
  wf_targets cfg → run (initial_system cfg now) ls s →
  (∀ u, st_runtime (sys_state s) !! u =
     (λ reg, run_registry reg (calls_of u now ls)) <$> build_runtime_registry cfg !! u) ∧
  (∀ rq tr, (rq, tr) ∈ served ls → ∃ fw rest,
     fw_max_attempts fw = max_attempts_for cfg (rq_method rq) ∧
     (countb is_send tr ≠ 0 → fw_upstream fw ∈ upstreams cfg) ∧
     well_recorded fw 1 (filterb is_result tr ++ rest)) ∧
  (∀ v t url answer, LProbe v t url answer ∈ ls →
     (∃ u, u ∈ upstreams cfg ∧ upstream_name u = v ∧ t ∈ targets u ∧
        active_enabled (active (health_checks u)) = true ∧
        url = "http://" +:+ address t +:+ active_path (active (health_checks u))) ∧
     (probe_healthy answer = true ↔ ∃ status, answer = Ok status ∧ 200 ≤ status < 300)%Z).
Proof.
  intros Hwf Hr. split; [|split].
  - apply (inv_runtime _ _ _ _ (registries_run _ _ _ _ _ _ _ Hr)).
  - intros rq tr [i Hi]%list_elem_of_lookup.
    pose proof (served_reach _ _ (notes_ok_run _ _ _ Hr) _ _ _ Hi) as Hreach.
    apply reaches_extends in Hreach as (tr' & o & He).
    apply handler_recorded in He as (fw & Hmax & Hrec & Hu); [|done].
    rewrite filterb_app in Hrec. exists fw, (filterb is_result tr'). split; [done|].
    split; [|done]. intros Hs. apply Hu. rewrite countb_app. lia.
  - intros v t url answer Hin. apply probes_run in Hr as [_ Hl].
    rewrite Forall_forall in Hl. split; [exact (Hl _ Hin)|].
    destruct answer as [status|]; simpl; [|split; [done|by intros (? & [=] & _)]].
    unfold is_success. rewrite andb_true_iff, Z.leb_le, Z.ltb_lt.
    split; [intros [? ?]; by exists status|by intros (? & [= ->] & ?)].
Qed.

(** C8: a quota bounds the traffic of the upstreams.  For a limit rule with
    quota [q], over the whole life of the gateway and under any interleaving,
    the client requests with a given value of the rule's scope lead to at most
    [q * max(max_attempts, 1)] requests to the upstreams, retries included;
    and no client request leads to one without an accepted check. *)
Theorem upstream_quota now ls s r v q :
  wf_targets cfg → uses_rules (rate_limit cfg) → r ∈ rules_of (rate_limit cfg) →
  rule_quota r = Some q → uint 64 q → run (initial_system cfg now) ls s →
  (Z.of_nat (sends_for (rule_scope r) v ls)
     ≤ Z.max (max_attempts (retries (proxy (server cfg)))) 1 * q)%Z ∧
  (∀ rq tr, (rq, tr) ∈ served ls → countb is_send tr ≠ 0%nat →
     ∃ ctx, Ev (ECheckLimit ctx) (Done true) ∈ tr).
Proof.
  intros Hwf Hu Hin Hq Hq64 Hr. split.
  2: { intros rq tr [i Hi]%list_elem_of_lookup. by eapply served_sends. }
  pose proof (accepted_checks_bound _ p cfg plugins now ls s r v q Hu Hin Hq Hq64 Hr) as Hb.
  rewrite accepted_checks_eq, (served_sum _ _ (notes_ok_run _ _ _ Hr)) in Hb.
  set (m := Z.max _ 1) in *. assert (0 ≤ m)%Z by lia.
  assert (sends_for (rule_scope r) v ls
    ≤ Z.to_nat m * sum_list_with (λ x, countb (accepted_check (rule_scope r) v) x.2) (served ls))%nat
    as Hs; [|nia].
  apply sum_served_le. intros [rq tr] [i Hi]%list_elem_of_lookup. simpl.
  destruct (existsb _ tr) eqn:E; [|lia]. apply countb_existsb in E.
  destruct (served_sends _ _ _ _ _ _ Hwf Hr Hi) as [Hs _]. fold m in Hs. nia.
Qed.

(** The gateway does not panic.  For a configuration whose numbers are well
    typed and do not overflow, in a run of fewer than 2^64 steps, whatever the
    requests, the interleaving, the answers of clients and upstreams and the
    build profile, no task ever panics; every rate-limit check answers; and
    every task can be run to a response within the cost of its handler. *)
Theorem gateway_never_panics now ls s :
  no_overflow cfg → wf_limits (rate_limit cfg) → (Z.of_nat (length ls) < 2 ^ 64)%Z →
  (∀ id rq, LArrive id rq ∈ ls → wf_request rq) →
  run (initial_system cfg now) ls s →
  (∀ id t msg, sys_tasks s !! id = Some t → task_prog t ≠ Panic msg) ∧
  (∀ ev, ev ∈ run_events ls → limiter_answered ev) ∧
  ∀ id t, sys_tasks s !! id = Some t →
    ∃ rq done, (rq, done) ∈ served ls ∧
    ∀ tr o, exec (task_prog t) tr o → Forall limiter_answered tr →
      (∃ response, o = Done response) ∧ (length done + length tr ≤ handler_cost cfg rq)%nat.
Proof.
  intros Hcfg Hl Hlen Harr Hr. destruct (limiter_run _ _ _ Hl Hlen Hr) as [_ Hev].
  pose proof (notes_ok_run _ _ _ Hr) as [H1 _ _ _ H5 _].
  assert (∀ id t, sys_tasks s !! id = Some t → ∃ rq done, (rq, done) ∈ served ls ∧
    ∀ tr o, exec (task_prog t) tr o → Forall limiter_answered tr →
      (∃ response, o = Done response) ∧ (length done + length tr ≤ handler_cost cfg rq)%nat) as Htask.
  { intros id t Ht. destruct (H1 id t Ht) as (i & rq & done & _ & Hi & Ha).
    destruct (H5 _ _ _ Hi) as [[id' Hid'] Hdone].
    exists rq, done. split; [by eapply list_elem_of_lookup_2|]. intros tr o He Htr.
    pose proof (after_exec _ _ _ _ _ Ha He) as Hfull. split.
    - eapply handler_answers; [done|by eapply Harr|exact Hfull|]. apply Forall_app. split; [|done].
      apply Forall_forall. auto.
    - rewrite <-length_app. apply reaches_exec_prefix in Hfull.
      apply (within_length (λ _, True) True (λ _, True) _ _ _ Hfull); [|by apply Forall_forall].
      apply within_handler; by left. }
  split; [|done]. intros id t msg Ht Hp. destruct (Htask id t Ht) as (rq & done & _ & Hrun).
  rewrite Hp in Hrun. destruct (Hrun [] (Panicked msg)) as [[response Hresp] _];
    [constructor|constructor|done].
Qed.
End composition.

(** ** Witnesses *)

#[local] Existing Instance list_header_map.
#[local] Existing Instance tree_json.
#[local] Existing Instance demo_jwt.
#[local] Existing Instance fnv_hasher.
#[local] Existing Instance sorted_map_order.

(** A run that serves one request, of which the first target gets it. *)
Definition demo_system : @System list_header_map := initial_system demo_cfg 0.

Definition demo_drive : list event * outcome Response * AppState :=
  drive Debug demo_cfg (λ _, Ok (@Build_UpstreamResponse list_header_map 200 [] "hello"))
    demo_handler (sys_state demo_system).

Example demo_drive_answers :
  (final_status demo_drive.1.2, countb is_send demo_drive.1.1, st_counter demo_drive.2) = (200%Z, 1, 1%Z).
Proof. vm_compute. reflexivity. Qed.

Lemma demo_drive_run :
  ∃ s, sys_run accept_all Debug demo_cfg [] demo_system
    (LArrive 0 demo_request :: (LEffect 0 <$> demo_drive.1.1)) s.
Proof.
  set (s1 := {| sys_state := sys_state demo_system;
                sys_tasks := {[0 := {| task_prog := demo_handler; task_guarded := false |}]};
                sys_checkers := sys_checkers demo_system; sys_shutdown := Running |}).
  assert (sys_step accept_all Debug demo_cfg [] demo_system (LArrive 0 demo_request) s1) as Hs
    by exact (step_arrive accept_all Debug demo_cfg [] demo_system 0 demo_request (lookup_empty 0)).
  pose proof (drive_runs accept_all Debug demo_cfg []
    (λ _, Ok (@Build_UpstreamResponse list_header_map 200 [] "hello")) demo_handler s1 0 false
    (handler_registered accept_all Debug demo_cfg [] demo_request)
    (all_registered_run accept_all Debug demo_cfg [] 0 [] demo_system (run_refl _ _ _ _ _))
    (lookup_singleton_eq 0 _)) as Hd.
  change (sys_state s1) with (sys_state demo_system) in Hd. fold demo_drive in Hd.
  destruct demo_drive as [[tr o] st]. destruct Hd as (_ & g & Hrun).
  eexists. eapply run_cons; [exact Hs|exact Hrun].
Qed.

Lemma demo_thresholds_wf :
  Forall (λ u, wf_thresholds (passive (health_checks u)) (circuit_breaker u)) (upstreams demo_cfg).
Proof. constructor; [exact demo_thresholds|constructor]. Qed.

Lemma sends_respect_health_witness :
  ∃ s upstream target, sys_run accept_all Debug demo_cfg [] demo_system
      (LArrive 0 demo_request :: (LEffect 0 <$> demo_drive.1.1)) s ∧
    upstream ∈ upstreams demo_cfg ∧ target ∈ targets upstream.
Proof.
  destruct demo_drive_run as [s Hrun]. set (tr := demo_drive.1.1) in *.
  set (request := @Build_UpstreamRequest list_header_map GET "http://10.0.0.1:8080/users?id=1" [] "").
  set (answer := Ok (@Build_UpstreamResponse list_header_map 200 [] "hello") : result string _).
  assert (LArrive 0 demo_request :: (LEffect 0 <$> tr)
    = (LArrive 0 demo_request :: (LEffect 0 <$> take 11 tr))
      ++ LEffect 0 (Ev (ESend request) answer) :: (LEffect 0 <$> drop 12 tr)) as Hls by reflexivity.
  pose proof Hrun as Hr. rewrite Hls in Hr.
  destruct (sends_respect_health accept_all Debug demo_cfg [] 0 _ 0 request answer _ s
    demo_wf_targets demo_thresholds_wf Hr) as (u & t & _ & _ & _ & _ & Hu & Ht & _).
  exists s, u, t. split; [exact Hrun|]. split; [exact Hu|exact Ht].
Defined.

Lemma registries_follow_answers_witness :
  ∃ s reg, sys_run accept_all Debug demo_cfg [] demo_system
      (LArrive 0 demo_request :: (LEffect 0 <$> demo_drive.1.1)) s ∧
    st_runtime (sys_state s) !! "u" = Some reg ∧
    consecutive_successes (entry reg "u:a") = 1%Z.
Proof.
  destruct demo_drive_run as [s Hrun].
  pose proof (proj1 (registries_follow_answers accept_all Debug demo_cfg [] 0 _ s demo_wf_targets Hrun)
    "u") as Hu.
  eexists s, _. split; [exact Hrun|]. split; [exact Hu|]. vm_compute. reflexivity.
Defined.

Lemma upstream_quota_witness :
  ∃ ls s, demo_sys_run quota_cfg ls s ∧ (Z.of_nat (sends_for ScopeRoute "r" ls) ≤ 6)%Z.
Proof.
  destruct (demo_run quota_cfg) as (ls & s & Hr & _). exists ls, s. split; [exact Hr|].
  apply (upstream_quota accept_all Debug quota_cfg [] 0 ls s
    (demo_rule ScopeRoute 10 (Some 2%Z) SlidingWindow) "r" 2).
  - exact demo_wf_targets.
  - split; [reflexivity|]. intros [? _]. discriminate.
  - apply list_elem_of_here.
  - reflexivity.
  - unfold uint. simpl. lia.
  - exact Hr.
Defined.

Lemma gateway_never_panics_witness :
  ∃ ls s, demo_sys_run demo_cfg ls s ∧ size (sys_tasks s) = 1 ∧
    ∀ id t msg, sys_tasks s !! id = Some t → task_prog t ≠ Panic msg.
Proof.
  destruct (demo_run demo_cfg) as (ls & s & Hr & Hsize & _ & _ & _ & _ & Hlen & Harr).
  exists ls, s. split; [exact Hr|]. split; [exact Hsize|].
  apply (gateway_never_panics accept_all Debug demo_cfg [] 0 ls s).
  - repeat constructor; vm_compute; congruence.
  - exact wf_limits_default.
  - rewrite Hlen. reflexivity.
  - intros id rq Hin. rewrite (Harr id rq Hin). left. exists "?id=1". split; reflexivity.
  - exact Hr.
Defined.
