(* ===== verification/Wire.v ===== *)
(** * JSON texts (plugin.rs and wasm_abi.rs: the derived [Serialize], and
    [serde_json::to_vec] and [to_string])

    The codecs of the types that the gateway writes as JSON, the compact text
    of a tree, and the payload of a Wasm call: when the sandbox's limit denies
    a request.  How a string is escaped is serde_json's; the laws say that
    text which needs no escape is left alone and that no byte becomes more than
    six. *)

From S2P Require Export Codec.

#[local] Open Scope string_scope.
#[local] Open Scope list_scope.
#[local] Open Scope fields_scope.

(** ** The types *)

Definition WasmPhase_codec : codec WasmPhase := enum_codec
  [(snake_case "Init", Init); (snake_case "Access", Access);
   (snake_case "HeaderFilter", HeaderFilter); (snake_case "BodyFilter", BodyFilter);
   (snake_case "Log", Log)].

Definition WasmCapability_codec : codec WasmCapability := enum_codec
  [(snake_case "ReadHeaders", ReadHeaders); (snake_case "WriteHeaders", WriteHeaders);
   (snake_case "ReadBody", ReadBody); (snake_case "WriteBody", WriteBody);
   (snake_case "RewritePath", RewritePath); (snake_case "EmitLogs", EmitLogs)].

Definition WasmCall_codec : codec WasmCall := struct_codec
  (required "abi_version" (uint_codec 32) ⊗
   required "plugin_contract_version" (uint_codec 32) ⊗
   required "phase" WasmPhase_codec ⊗ required "plugin" string_codec ⊗
   required "required_capabilities" (list_codec WasmCapability_codec) ⊗
   required "payload" (list_codec (uint_codec 8)))
  (λ c, (abi_version c, plugin_contract_version c, call_phase c, call_plugin c,
         call_required_capabilities c, call_payload c))
  (λ '(abi, contract, phase, plugin, capabilities, payload), {|
    abi_version := abi; plugin_contract_version := contract; call_phase := phase;
    call_plugin := plugin; call_required_capabilities := capabilities;
    call_payload := payload |}).

Definition PluginContext_codec : codec PluginContext := struct_codec
  (required "route" string_codec ⊗ required "path" string_codec)
  (λ c, (plugin_route c, plugin_path c))
  (λ '(route, path), {| plugin_route := route; plugin_path := path |}).

(** The field [reason] may be left out: a missing option is [None]. *)
Definition PluginResult_codec : codec PluginResult := struct_codec
  (required "allowed" bool_codec ⊗ defaulted "reason" (option_codec string_codec) None)
  (λ r, (allowed r, reason r))
  (λ '(ok, why), {| allowed := ok; reason := why |}).

(** ** Texts *)

Class JsonEscape := json_escape : string → string.

(** A byte that a JSON string holds as it is. *)
Definition plain_byte (a : ascii) : bool :=
  let n := N_of_ascii a in
  (32 <=? n)%N && negb (n =? 34)%N && negb (n =? 92)%N.
Fixpoint plain_text (s : string) : bool :=
  match s with EmptyString => true | String a s => plain_byte a && plain_text s end.

Class JsonEscapeLaws (E : JsonEscape) : Prop := {
  escape_plain s : plain_text s = true → json_escape s = s;
  escape_length s : (String.length (json_escape s) ≤ 6 * String.length s)%nat;
}.

Definition show_int (z : Z) : string :=
  if (z <? 0)%Z then "-" +:+ show_uint (- z) else show_uint z.

(** Bytes of a string. *)
Definition to_bytes (s : string) : list Z :=
  (λ a, Z.of_N (N_of_ascii a)) <$> String.list_ascii_of_string s.

Section text.
Context `{JsonEscape}.

Definition quote : string := String (ascii_of_N 34) "".
Definition json_string (s : string) : string := quote +:+ json_escape s +:+ quote.

(** The compact form, without white space. *)
Fixpoint to_string (j : json_tree) : string :=
  match j with
  | JNull => "null"
  | JBool b => if b then "true" else "false"
  | JNumber n => show_int n
  | JFloat literal => literal
  | JString s => json_string s
  | JArray l => "[" +:+ RustStr.join "," (to_string <$> l) +:+ "]"
  | JObject l =>
      "{" +:+ RustStr.join "," (List.map (λ '(k, v), json_string k +:+ ":" +:+ to_string v) l) +:+ "}"
  end.

(** [serde_json::to_vec] of a plugin context; writing it cannot fail. *)
Definition json_context : ContextJson := λ ctx,
  Ok (to_bytes (to_string (ser PluginContext_codec ctx))).
End text.

(** ** Laws *)

#[export] Instance WasmPhase_lawful : Lawful WasmPhase_codec.
Proof. apply enum_lawful. by_computation. Qed.
#[export] Instance WasmCapability_lawful : Lawful WasmCapability_codec.
Proof. apply enum_lawful. by_computation. Qed.
#[export] Instance WasmCall_lawful : Lawful WasmCall_codec.
Proof. solve_struct. Qed.
#[export] Instance PluginContext_lawful : Lawful PluginContext_codec.
Proof. solve_struct. Qed.
#[export] Instance PluginResult_lawful : Lawful PluginResult_codec.
Proof. solve_struct. Qed.

Lemma to_bytes_length s : length (to_bytes s) = String.length s.
Proof. unfold to_bytes. rewrite length_fmap. induction s; simpl; congruence. Qed.

Lemma json_string_length `{JsonEscape} s :
  str_len (json_string s) = (str_len (json_escape s) + 2)%Z.
Proof. unfold json_string. rewrite !str_len_app. unfold str_len, quote. simpl. lia. Qed.

(** The payload: twenty-two bytes around the escaped route and path. *)
Definition payload_size `{JsonEscape} (ctx : PluginContext) : Z :=
  (22 + str_len (json_escape (plugin_route ctx)) + str_len (json_escape (plugin_path ctx)))%Z.

Section payload.
Context `{E : JsonEscape} {HE : JsonEscapeLaws E}.

Lemma json_context_size ctx :
  ∃ payload, @context_to_vec json_context ctx = Ok payload ∧
    Z.of_nat (length payload) = payload_size ctx.
Proof using HE.
  eexists. split; [reflexivity|]. rewrite to_bytes_length.
  change (Z.of_nat (String.length ?s)) with (str_len s).
  destruct ctx as [route path]. unfold PluginContext_codec, payload_size.
  cbn -[str_len json_string String.append]. rewrite !str_len_app, !json_string_length.
  rewrite (escape_plain "route"), (escape_plain "path") by done. unfold str_len. simpl. lia.
Qed.

Lemma payload_size_plain ctx :
  plain_text (plugin_route ctx) = true → plain_text (plugin_path ctx) = true →
  payload_size ctx = (22 + str_len (plugin_route ctx) + str_len (plugin_path ctx))%Z.
Proof using HE. intros Hr Hp. unfold payload_size. by rewrite !escape_plain. Qed.

Lemma payload_size_le ctx :
  (payload_size ctx ≤ 22 + 6 * (str_len (plugin_route ctx) + str_len (plugin_path ctx)))%Z.
Proof using HE.
  unfold payload_size, str_len. pose proof (escape_length (plugin_route ctx)).
  pose proof (escape_length (plugin_path ctx)). lia.
Qed.

(** C32: which requests a Wasm plugin denies.  A plugin built from a declaration
    denies a phase exactly when the declaration lists the phase, its runtime
    is Wasm, and the route and path, escaped as JSON, take more than 65514
    bytes together; the reason names the size.  In particular it denies no
    request whose route and path have at most 10919 bytes, whatever they are. *)
Theorem sandbox_denies_long_paths path_exists cfg d phase ctx :
  build_declared_plugin path_exists cfg = Ok d →
  (allowed (gp_execute (@declared_plugin json_context d) phase ctx) = false ↔
    (∃ s, s ∈ plugin_phases cfg ∧ (normalize s, phase) ∈ phase_arms) ∧
    normalize (plugin_runtime cfg) = "wasm" ∧ (65536 < payload_size ctx)%Z) ∧
  (allowed (gp_execute (@declared_plugin json_context d) phase ctx) = false →
    reason (gp_execute (@declared_plugin json_context d) phase ctx)
      = Some ("wasm payload exceeds sandbox limit: " +:+ show_uint (payload_size ctx)
              +:+ " > 65536")) ∧
  (str_len (plugin_route ctx) + str_len (plugin_path ctx) ≤ 10919 →
    gp_execute (@declared_plugin json_context d) phase ctx = plugin_ok)%Z.
Proof using HE.
  intros Hd. destruct (@declared_plugin_execute path_exists json_context cfg d phase ctx Hd)
    as [Hs Ha]. destruct (json_context_size ctx) as (payload & Hp & Hlen).
  rewrite Hp, Hlen in Ha. rewrite Ha, <-Hs. pose proof (payload_size_le ctx) as Hle.
  destruct (gp_supports_phase _ phase); simpl; [|split; [split; [done|by intros [? _]]|done]].
  case_bool_decide; simpl; [|split; [split; [done|by intros (_ & ? & _)]|done]].
  destruct (_ <? _)%Z eqn:Hsize; bool_to_Z; simpl;
    (split; [split; [done|]; intros (_ & _ & ?); lia|]); [split; [done|lia]|done].
Qed.
End payload.

(** Every call that is made is read back from its document. *)
Theorem wasm_call_roundtrip phase plugin capabilities payload :
  is_utf8 plugin = true → Forall (uint 8) payload →
  let call := WasmCall_new phase plugin capabilities payload in
  de WasmCall_codec (ser WasmCall_codec call) = Some call.
Proof.
  intros Hu Hp call. apply de_ser.
  assert (fits WasmPhase_codec phase) by (destruct phase; solve_fits).
  assert (Forall (fits WasmCapability_codec) capabilities)
    by (apply Forall_forall; intros c _; destruct c; solve_fits).
  assert (uint 32 ABI_VERSION ∧ uint 32 PLUGIN_CONTRACT_VERSION) as [? ?] by by repeat split.
  by repeat match goal with |- fields_fit (both _ _) _ => split end.
Qed.

(** The names of phases and capabilities on the wire are those that plugin
    declarations accept. *)
Theorem wire_names_declared p c :
  (∃ name, ser WasmPhase_codec p = JString name ∧ parse_phase name = Ok p) ∧
  (∃ name, ser WasmCapability_codec c = JString name ∧ parse_capability name = Ok c).
Proof. split; [destruct p|destruct c]; eexists; split; reflexivity. Qed.

(** ** A concrete escape, and witnesses

    Every byte that is not plain becomes a [\u] escape. *)
Definition hex_digit (n : N) : ascii :=
  if (n <? 10)%N then ascii_of_N (48 + n) else ascii_of_N (87 + n).
Definition escape_byte (a : ascii) : string :=
  if plain_byte a then String a ""
  else let n := N_of_ascii a in
    "\u00" +:+ String (hex_digit (n / 16)) (String (hex_digit (n `mod` 16)) "").
Fixpoint escape_bytes (s : string) : string :=
  match s with EmptyString => "" | String a s => escape_byte a +:+ escape_bytes s end.
Definition simple_escape : JsonEscape := escape_bytes.

Lemma simple_escape_laws : JsonEscapeLaws simple_escape.
Proof.
  unfold simple_escape. split; unfold json_escape.
  - induction s as [|a s IH]; [done|]. simpl. intros [Ha Hs]%andb_true_iff.
    unfold escape_byte. rewrite Ha. simpl. by rewrite IH.
  - induction s as [|a s IH]; [done|]. cbn [escape_bytes].
    pose proof (str_len_app (escape_byte a) (escape_bytes s)) as Hl. unfold str_len in Hl.
    assert (String.length (escape_byte a) ≤ 6)%nat
      by (unfold escape_byte; destruct (plain_byte a); simpl; lia).
    cbn [String.length]. lia.
Qed.

Definition wasm_demo : PluginConfig := demo_plugin "p" " WASM ".
Definition long_context : PluginContext := {|
  plugin_route := "r"; plugin_path := String.string_of_list_ascii (repeat "/"%char (Z.to_nat 65514)) |}.

Lemma sandbox_denies_long_paths_witness :
  ∃ d, build_declared_plugin (λ _, true) wasm_demo = Ok d ∧
    allowed (gp_execute (@declared_plugin (@json_context simple_escape) d) Access long_context)
      = false.
Proof.
  eexists. split; [vm_compute; reflexivity|].
  eapply (@sandbox_denies_long_paths simple_escape simple_escape_laws (λ _, true) wasm_demo);
    [vm_compute; reflexivity|].
  split; [exists " Access"; split; [left|by_computation]|].
  split; [vm_compute; reflexivity|].
  assert (payload_size (H := simple_escape) long_context = 65537)%Z as -> by (vm_compute; reflexivity).
  lia.
Defined.

Lemma wasm_call_roundtrip_witness :
  de WasmCall_codec (ser WasmCall_codec (WasmCall_new Access "jwt_auth" [ReadHeaders] [1; 2; 3]%Z))
    = Some (WasmCall_new Access "jwt_auth" [ReadHeaders] [1; 2; 3]%Z).
Proof.
  apply (wasm_call_roundtrip Access "jwt_auth" [ReadHeaders] [1; 2; 3]%Z); [reflexivity|].
  repeat constructor; by vm_compute.
Defined.
