(* ===== verification/Schema.v ===== *)
(** * The configuration document (router.rs, security.rs, rate_limit.rs,
    balancer.rs, config.rs: the derived [Serialize] and [Deserialize])

    One codec per type of the configuration, from its declaration: the fields
    in order with their serde names and defaults, the enums with their renaming
    rule.  Then: every document that is read gives a configuration of the Rust
    types, what absent and empty sections mean, and what an authentication mode
    does whose section is absent. *)

From S2P Require Export Codec LimiterBounds HandlerBounds.

#[local] Open Scope string_scope.
#[local] Open Scope list_scope.
#[local] Open Scope fields_scope.

(** ** balancer.rs *)

Definition BalancingStrategy_codec : codec BalancingStrategy := enum_codec
  [(kebab_case "RoundRobin", RoundRobin); (kebab_case "LeastConnections", LeastConnections);
   (kebab_case "Hash", StrategyHash)].

Definition UpstreamTarget_codec : codec UpstreamTarget := struct_codec
  (required "id" string_codec ⊗ required "address" string_codec ⊗
   defaulted "active_connections" (uint_codec 64) 0%Z ⊗
   defaulted "weight" (uint_codec 32) default_target_weight)
  (λ t, (target_id t, address t, active_connections t, weight t))
  (λ '(id, addr, active, w), {|
    target_id := id; address := addr; active_connections := active; weight := w |}).

(** ** router.rs *)

Definition Protocol_codec : codec Protocol := enum_codec
  [(to_ascii_lowercase "Http1", Http1); (to_ascii_lowercase "Http2", Http2);
   (to_ascii_lowercase "Grpc", Grpc)].

Section router.
Context `{MapOrder}.

Definition RequestTransform_codec : codec RequestTransform := struct_codec
  (defaulted "add_headers" map_codec ∅ ⊗ defaulted "set_headers" map_codec ∅ ⊗
   defaulted "remove_headers" (list_codec string_codec) [] ⊗
   defaulted "path_prefix_rewrite" (option_codec string_codec) None ⊗
   defaulted "body_replace" (option_codec string_codec) None)
  (λ t, (req_add_headers t, req_set_headers t, req_remove_headers t, path_prefix_rewrite t,
         req_body_replace t))
  (λ '(add, set, remove, rewrite, body), {|
    req_add_headers := add; req_set_headers := set; req_remove_headers := remove;
    path_prefix_rewrite := rewrite; req_body_replace := body |}).

Definition ResponseTransform_codec : codec ResponseTransform := struct_codec
  (defaulted "add_headers" map_codec ∅ ⊗ defaulted "set_headers" map_codec ∅ ⊗
   defaulted "remove_headers" (list_codec string_codec) [] ⊗
   defaulted "body_replace" (option_codec string_codec) None)
  (λ t, (resp_add_headers t, resp_set_headers t, resp_remove_headers t, resp_body_replace t))
  (λ '(add, set, remove, body), {|
    resp_add_headers := add; resp_set_headers := set; resp_remove_headers := remove;
    resp_body_replace := body |}).

Definition TransformConfig_codec : codec TransformConfig := struct_codec
  (defaulted "request" RequestTransform_codec RequestTransform_default ⊗
   defaulted "response" ResponseTransform_codec ResponseTransform_default)
  (λ t, (transform_request t, transform_response t))
  (λ '(request, response), {|
    transform_request := request; transform_response := response |}).

Definition CanaryHeaderMatch_codec : codec CanaryHeaderMatch := struct_codec
  (required "name" string_codec ⊗ required "value" string_codec)
  (λ h, (canary_header_name h, canary_header_value h))
  (λ '(name, value), {| canary_header_name := name; canary_header_value := value |}).

Definition TrafficSplitConfig_codec : codec TrafficSplitConfig := struct_codec
  (defaulted "canary_upstream" (option_codec string_codec) None ⊗
   defaulted "canary_percentage" (uint_codec 8) 0%Z ⊗
   defaulted "canary_header" (option_codec CanaryHeaderMatch_codec) None)
  (λ t, (canary_upstream t, canary_percentage t, canary_header t))
  (λ '(upstream, percentage, header), {|
    canary_upstream := upstream; canary_percentage := percentage; canary_header := header |}).

Definition FaultInjectionConfig_codec : codec FaultInjectionConfig := struct_codec
  (defaulted "enabled" bool_codec false ⊗
   defaulted "probability_percent" (uint_codec 8) default_fault_probability ⊗
   defaulted "delay_ms" (uint_codec 64) 0%Z ⊗ defaulted "jitter_ms" (uint_codec 64) 0%Z ⊗
   defaulted "abort_status" (option_codec (uint_codec 16)) None ⊗
   defaulted "abort_body" (option_codec string_codec) None)
  (λ f, (fault_enabled f, probability_percent f, delay_ms f, jitter_ms f, abort_status f,
         abort_body f))
  (λ '(enabled, probability, delay, jitter, status, body), {|
    fault_enabled := enabled; probability_percent := probability; delay_ms := delay;
    jitter_ms := jitter; abort_status := status; abort_body := body |}).

Definition Route_codec : codec Route := struct_codec
  (required "name" string_codec ⊗ required "path_prefix" string_codec ⊗
   required "upstream" string_codec ⊗
   defaulted "protocols" (list_codec Protocol_codec) [] ⊗
   defaulted "transform" TransformConfig_codec TransformConfig_default ⊗
   defaulted "traffic_split" TrafficSplitConfig_codec TrafficSplitConfig_default ⊗
   defaulted "fault_injection" FaultInjectionConfig_codec FaultInjectionConfig_default)
  (λ r, (route_name r, path_prefix r, route_upstream r, protocols r, transform r,
         traffic_split r, fault_injection r))
  (λ '(name, prefix, upstream, protos, trans, split, fault), {|
    route_name := name; path_prefix := prefix; route_upstream := upstream;
    protocols := protos; transform := trans; traffic_split := split;
    fault_injection := fault |}).
End router.

(** ** security.rs *)

Definition AuthMode_codec : codec AuthMode := enum_codec
  [(snake_case "Anonymous", Anonymous); (snake_case "Jwt", Jwt); (snake_case "OAuth2", OAuth2);
   (snake_case "OpenIdConnect", OpenIdConnect); (snake_case "Mtls", Mtls)].

Definition JwtConfig_codec : codec JwtConfig := struct_codec
  (defaulted "secret" string_codec "" ⊗
   defaulted "roles_claim" string_codec default_roles_claim ⊗
   defaulted "groups_claim" string_codec default_groups_claim)
  (λ c, (jwt_secret c, jwt_roles_claim c, jwt_groups_claim c))
  (λ '(secret, roles, groups), {|
    jwt_secret := secret; jwt_roles_claim := roles; jwt_groups_claim := groups |}).

Definition OAuth2Config_codec : codec OAuth2Config := struct_codec
  (defaulted "secret" string_codec "" ⊗ defaulted "issuer" string_codec "" ⊗
   defaulted "audience" string_codec "" ⊗
   defaulted "roles_claim" string_codec default_roles_claim ⊗
   defaulted "groups_claim" string_codec default_groups_claim)
  (λ c, (oauth2_secret c, oauth2_issuer c, oauth2_audience c, oauth2_roles_claim c,
         oauth2_groups_claim c))
  (λ '(secret, issuer, audience, roles, groups), {|
    oauth2_secret := secret; oauth2_issuer := issuer; oauth2_audience := audience;
    oauth2_roles_claim := roles; oauth2_groups_claim := groups |}).

Definition OpenIdConnectConfig_codec : codec OpenIdConnectConfig := struct_codec
  (defaulted "secret" string_codec "" ⊗ defaulted "issuer" string_codec "" ⊗
   defaulted "audience" string_codec "" ⊗
   defaulted "roles_claim" string_codec default_roles_claim ⊗
   defaulted "groups_claim" string_codec default_groups_claim)
  (λ c, (oidc_secret c, oidc_issuer c, oidc_audience c, oidc_roles_claim c, oidc_groups_claim c))
  (λ '(secret, issuer, audience, roles, groups), {|
    oidc_secret := secret; oidc_issuer := issuer; oidc_audience := audience;
    oidc_roles_claim := roles; oidc_groups_claim := groups |}).

Definition MtlsConfig_codec : codec MtlsConfig := struct_codec
  (defaulted "subject_header" string_codec default_mtls_subject_header ⊗
   defaulted "roles_header" string_codec default_mtls_roles_header ⊗
   defaulted "groups_header" string_codec default_mtls_groups_header ⊗
   defaulted "allowed_subjects" (list_codec string_codec) [])
  (λ c, (subject_header c, roles_header c, groups_header c, allowed_subjects c))
  (λ '(subject, roles, groups, allowed), {|
    subject_header := subject; roles_header := roles; groups_header := groups;
    allowed_subjects := allowed |}).

Definition RoleBinding_codec : codec RoleBinding := struct_codec
  (required "role" string_codec ⊗ required "route" string_codec)
  (λ b, (rb_role b, rb_route b)) (λ '(role, route), {| rb_role := role; rb_route := route |}).
Definition GroupBinding_codec : codec GroupBinding := struct_codec
  (required "group" string_codec ⊗ required "route" string_codec)
  (λ b, (gb_group b, gb_route b)) (λ '(group, route), {| gb_group := group; gb_route := route |}).
Definition SubjectBinding_codec : codec SubjectBinding := struct_codec
  (required "subject" string_codec ⊗ required "route" string_codec)
  (λ b, (sb_subject b, sb_route b))
  (λ '(subject, route), {| sb_subject := subject; sb_route := route |}).

Definition SecurityConfig_codec : codec SecurityConfig := struct_codec
  (defaulted "enabled_modes" (list_codec AuthMode_codec) [] ⊗
   defaulted "rbac" (list_codec RoleBinding_codec) [] ⊗
   defaulted "group_rbac" (list_codec GroupBinding_codec) [] ⊗
   defaulted "jwt" JwtConfig_codec JwtConfig_default ⊗
   defaulted "oauth2" OAuth2Config_codec OAuth2Config_default ⊗
   defaulted "openid_connect" OpenIdConnectConfig_codec OpenIdConnectConfig_default ⊗
   defaulted "mtls" MtlsConfig_codec MtlsConfig_default ⊗
   defaulted "subject_rbac" (list_codec SubjectBinding_codec) [])
  (λ c, (enabled_modes c, rbac c, group_rbac c, jwt c, oauth2 c, openid_connect c, mtls c,
         subject_rbac c))
  (λ '(modes, roles, groups, j, o, i, m, subjects), {|
    enabled_modes := modes; rbac := roles; group_rbac := groups; jwt := j; oauth2 := o;
    openid_connect := i; mtls := m; subject_rbac := subjects |}).

(** ** rate_limit.rs *)

Definition RateLimitPolicy_codec : codec RateLimitPolicy := enum_codec
  [(snake_case "TokenBucket", TokenBucket); (snake_case "FixedWindow", FixedWindow);
   (snake_case "SlidingWindow", SlidingWindow)].
Definition LimitScope_codec : codec LimitScope := enum_codec
  [(snake_case "Route", ScopeRoute); (snake_case "Service", ScopeService);
   (snake_case "Consumer", ScopeConsumer); (snake_case "Client", ScopeClient)].

Definition ScopedLimitRule_codec : codec ScopedLimitRule := struct_codec
  (required "scope" LimitScope_codec ⊗ required "limit" (uint_codec 32) ⊗
   defaulted "quota" (option_codec (uint_codec 64)) None ⊗
   defaulted "window_seconds" (uint_codec 64) default_window_seconds ⊗
   defaulted "policy" (option_codec RateLimitPolicy_codec) None)
  (λ r, (rule_scope r, rule_limit r, rule_quota r, rule_window_seconds r, rule_policy r))
  (λ '(scope, limit, quota, window, policy), {|
    rule_scope := scope; rule_limit := limit; rule_quota := quota;
    rule_window_seconds := window; rule_policy := policy |}).

Definition RateLimitConfig_codec : codec RateLimitConfig := struct_codec
  (defaulted "enabled" bool_codec false ⊗
   defaulted "policy" RateLimitPolicy_codec RateLimitPolicy_default ⊗
   defaulted "capacity" (uint_codec 32) default_capacity ⊗
   defaulted "refill_per_second" (uint_codec 32) default_refill_per_second ⊗
   defaulted "fixed_window_seconds" (uint_codec 64) default_window_seconds ⊗
   defaulted "sliding_window_seconds" (uint_codec 64) default_window_seconds ⊗
   defaulted "scoped_limits" (list_codec ScopedLimitRule_codec) [])
  (λ c, (rl_enabled c, rl_policy c, capacity c, refill_per_second c, fixed_window_seconds c,
         sliding_window_seconds c, scoped_limits c))
  (λ '(enabled, policy, cap, refill, fixed, sliding, rules), {|
    rl_enabled := enabled; rl_policy := policy; capacity := cap; refill_per_second := refill;
    fixed_window_seconds := fixed; sliding_window_seconds := sliding; scoped_limits := rules |}).

(** ** config.rs *)

Definition RetryConfig_codec : codec RetryConfig := struct_codec
  (defaulted "max_attempts" (uint_codec 8) default_retry_max_attempts ⊗
   defaulted "backoff_ms" (uint_codec 64) default_retry_backoff_ms ⊗
   defaulted "idempotent_only" bool_codec default_retry_idempotent_only ⊗
   defaulted "retry_unsafe_methods" bool_codec false)
  (λ r, (max_attempts r, backoff_ms r, idempotent_only r, retry_unsafe_methods r))
  (λ '(attempts, backoff, idempotent, unsafe), {|
    max_attempts := attempts; backoff_ms := backoff; idempotent_only := idempotent;
    retry_unsafe_methods := unsafe |}).

Definition ProxyRuntimeConfig_codec : codec ProxyRuntimeConfig := struct_codec
  (defaulted "connect_timeout_ms" (uint_codec 64) default_connect_timeout_ms ⊗
   defaulted "read_timeout_ms" (uint_codec 64) default_read_timeout_ms ⊗
   defaulted "request_timeout_ms" (uint_codec 64) default_request_timeout_ms ⊗
   defaulted "max_idle_per_host" (uint_codec 64) default_max_idle_per_host ⊗
   defaulted "idle_timeout_secs" (uint_codec 64) default_idle_timeout_secs ⊗
   defaulted "retries" RetryConfig_codec RetryConfig_default)
  (λ p, (connect_timeout_ms p, read_timeout_ms p, request_timeout_ms p, max_idle_per_host p,
         idle_timeout_secs p, retries p))
  (λ '(connect, read, request, idle, idle_secs, retry), {|
    connect_timeout_ms := connect; read_timeout_ms := read; request_timeout_ms := request;
    max_idle_per_host := idle; idle_timeout_secs := idle_secs; retries := retry |}).

Definition ShutdownConfig_codec : codec ShutdownConfig := struct_codec
  (defaulted "drain_timeout_ms" (uint_codec 64) default_drain_timeout_ms ⊗
   defaulted "drain_poll_ms" (uint_codec 64) default_drain_poll_ms)
  (λ s, (drain_timeout_ms s, drain_poll_ms s))
  (λ '(timeout, poll), {| drain_timeout_ms := timeout; drain_poll_ms := poll |}).

Definition ServerConfig_codec : codec ServerConfig := struct_codec
  (defaulted "listen_addr" string_codec default_listen_addr ⊗
   defaulted "max_request_body_bytes" (uint_codec 64) default_max_request_body_bytes ⊗
   defaulted "proxy" ProxyRuntimeConfig_codec ProxyRuntimeConfig_default ⊗
   defaulted "shutdown" ShutdownConfig_codec ShutdownConfig_default)
  (λ s, (listen_addr s, max_request_body_bytes s, proxy s, shutdown s))
  (λ '(addr, max_body, p, down), {|
    listen_addr := addr; max_request_body_bytes := max_body; proxy := p; shutdown := down |}).

Definition ActiveHealthCheckConfig_codec : codec ActiveHealthCheckConfig := struct_codec
  (defaulted "enabled" bool_codec false ⊗
   defaulted "path" string_codec default_healthcheck_path ⊗
   defaulted "interval_ms" (uint_codec 64) default_healthcheck_interval_ms ⊗
   defaulted "timeout_ms" (uint_codec 64) default_healthcheck_timeout_ms ⊗
   defaulted "healthy_threshold" (uint_codec 32) default_healthy_threshold ⊗
   defaulted "unhealthy_threshold" (uint_codec 32) default_unhealthy_threshold)
  (λ a, (active_enabled a, active_path a, interval_ms a, timeout_ms a, healthy_threshold a,
         unhealthy_threshold a))
  (λ '(enabled, path, interval, timeout, healthy, unhealthy), {|
    active_enabled := enabled; active_path := path; interval_ms := interval;
    timeout_ms := timeout; healthy_threshold := healthy; unhealthy_threshold := unhealthy |}).

Definition PassiveHealthCheckConfig_codec : codec PassiveHealthCheckConfig := struct_codec
  (defaulted "failure_threshold" (uint_codec 32) default_failure_threshold ⊗
   defaulted "success_threshold" (uint_codec 32) default_success_threshold)
  (λ p, (passive_failure_threshold p, passive_success_threshold p))
  (λ '(failure, success), {|
    passive_failure_threshold := failure; passive_success_threshold := success |}).

Definition HealthCheckConfig_codec : codec HealthCheckConfig := struct_codec
  (defaulted "active" ActiveHealthCheckConfig_codec ActiveHealthCheckConfig_default ⊗
   defaulted "passive" PassiveHealthCheckConfig_codec PassiveHealthCheckConfig_default)
  (λ h, (active h, passive h)) (λ '(a, p), {| active := a; passive := p |}).

Definition CircuitBreakerConfig_codec : codec CircuitBreakerConfig := struct_codec
  (defaulted "failure_threshold" (uint_codec 32) default_breaker_failure_threshold ⊗
   defaulted "open_ms" (uint_codec 64) default_breaker_open_ms ⊗
   defaulted "half_open_max_requests" (uint_codec 32) default_half_open_max)
  (λ b, (breaker_failure_threshold b, open_ms b, half_open_max_requests b))
  (λ '(threshold, open, half), {|
    breaker_failure_threshold := threshold; open_ms := open; half_open_max_requests := half |}).

Definition UpstreamConfig_codec : codec UpstreamConfig := struct_codec
  (required "name" string_codec ⊗ required "strategy" BalancingStrategy_codec ⊗
   required "targets" (list_codec UpstreamTarget_codec) ⊗
   defaulted "health_checks" HealthCheckConfig_codec HealthCheckConfig_default ⊗
   defaulted "circuit_breaker" CircuitBreakerConfig_codec CircuitBreakerConfig_default)
  (λ u, (upstream_name u, strategy u, targets u, health_checks u, circuit_breaker u))
  (λ '(name, strat, ts, health, breaker), {|
    upstream_name := name; strategy := strat; targets := ts; health_checks := health;
    circuit_breaker := breaker |}).

Definition PluginConfig_codec : codec PluginConfig := struct_codec
  (required "name" string_codec ⊗ required "module" string_codec ⊗
   defaulted "wasm_path" (option_codec string_codec) None ⊗
   defaulted "runtime" string_codec default_plugin_runtime ⊗
   defaulted "contract_version" (uint_codec 32) default_plugin_contract_version ⊗
   defaulted "phases" (list_codec string_codec) default_plugin_phases ⊗
   defaulted "capabilities" (list_codec string_codec) [])
  (λ p, (plugin_name p, plugin_module p, wasm_path p, plugin_runtime p, contract_version p,
         plugin_phases p, plugin_capabilities p))
  (λ '(name, modl, path, runtime, version, phases, capabilities), {|
    plugin_name := name; plugin_module := modl; wasm_path := path; plugin_runtime := runtime;
    contract_version := version; plugin_phases := phases;
    plugin_capabilities := capabilities |}).

Definition GatewayConfig_codec `{MapOrder} : codec GatewayConfig := struct_codec
  (defaulted "server" ServerConfig_codec ServerConfig_default ⊗
   defaulted "routes" (list_codec Route_codec) [] ⊗
   defaulted "upstreams" (list_codec UpstreamConfig_codec) [] ⊗
   defaulted "security" SecurityConfig_codec SecurityConfig_default ⊗
   defaulted "rate_limit" RateLimitConfig_codec RateLimitConfig_default ⊗
   defaulted "plugins" (list_codec PluginConfig_codec) [])
  (λ c, (server c, routes c, upstreams c, security c, rate_limit c, plugins c))
  (λ '(srv, rs, us, sec, limit, ps), {|
    server := srv; routes := rs; upstreams := us; security := sec; rate_limit := limit;
    plugins := ps |}).

(** ** Laws *)

#[export] Instance BalancingStrategy_lawful : Lawful BalancingStrategy_codec.
Proof. apply enum_lawful. by_computation. Qed.
#[export] Instance UpstreamTarget_lawful : Lawful UpstreamTarget_codec.
Proof. solve_struct. Qed.
#[export] Instance Protocol_lawful : Lawful Protocol_codec.
Proof. apply enum_lawful. by_computation. Qed.
#[export] Instance AuthMode_lawful : Lawful AuthMode_codec.
Proof. apply enum_lawful. by_computation. Qed.
#[export] Instance JwtConfig_lawful : Lawful JwtConfig_codec.
Proof. solve_struct. Qed.
#[export] Instance OAuth2Config_lawful : Lawful OAuth2Config_codec.
Proof. solve_struct. Qed.
#[export] Instance OpenIdConnectConfig_lawful : Lawful OpenIdConnectConfig_codec.
Proof. solve_struct. Qed.
#[export] Instance MtlsConfig_lawful : Lawful MtlsConfig_codec.
Proof. solve_struct. Qed.
#[export] Instance RoleBinding_lawful : Lawful RoleBinding_codec.
Proof. solve_struct. Qed.
#[export] Instance GroupBinding_lawful : Lawful GroupBinding_codec.
Proof. solve_struct. Qed.
#[export] Instance SubjectBinding_lawful : Lawful SubjectBinding_codec.
Proof. solve_struct. Qed.
#[export] Instance SecurityConfig_lawful : Lawful SecurityConfig_codec.
Proof. solve_struct. Qed.
#[export] Instance RateLimitPolicy_lawful : Lawful RateLimitPolicy_codec.
Proof. apply enum_lawful. by_computation. Qed.
#[export] Instance LimitScope_lawful : Lawful LimitScope_codec.
Proof. apply enum_lawful. by_computation. Qed.
#[export] Instance ScopedLimitRule_lawful : Lawful ScopedLimitRule_codec.
Proof. solve_struct. Qed.
#[export] Instance RateLimitConfig_lawful : Lawful RateLimitConfig_codec.
Proof. solve_struct. Qed.
#[export] Instance RetryConfig_lawful : Lawful RetryConfig_codec.
Proof. solve_struct. Qed.
#[export] Instance ProxyRuntimeConfig_lawful : Lawful ProxyRuntimeConfig_codec.
Proof. solve_struct. Qed.
#[export] Instance ShutdownConfig_lawful : Lawful ShutdownConfig_codec.
Proof. solve_struct. Qed.
#[export] Instance ServerConfig_lawful : Lawful ServerConfig_codec.
Proof. solve_struct. Qed.
#[export] Instance ActiveHealthCheckConfig_lawful : Lawful ActiveHealthCheckConfig_codec.
Proof. solve_struct. Qed.
#[export] Instance PassiveHealthCheckConfig_lawful : Lawful PassiveHealthCheckConfig_codec.
Proof. solve_struct. Qed.
#[export] Instance HealthCheckConfig_lawful : Lawful HealthCheckConfig_codec.
Proof. solve_struct. Qed.
#[export] Instance CircuitBreakerConfig_lawful : Lawful CircuitBreakerConfig_codec.
Proof. solve_struct. Qed.
#[export] Instance UpstreamConfig_lawful : Lawful UpstreamConfig_codec.
Proof. solve_struct. Qed.
#[export] Instance PluginConfig_lawful : Lawful PluginConfig_codec.
Proof. solve_struct. Qed.

Section laws.
Context `{M : MapOrder} {HM : MapOrderLaws M}.

#[export] Instance RequestTransform_lawful : Lawful RequestTransform_codec.
Proof using HM. solve_struct. Qed.
#[export] Instance ResponseTransform_lawful : Lawful ResponseTransform_codec.
Proof using HM. solve_struct. Qed.
#[export] Instance TransformConfig_lawful : Lawful TransformConfig_codec.
Proof using HM. solve_struct. Qed.
#[export] Instance CanaryHeaderMatch_lawful : Lawful CanaryHeaderMatch_codec.
Proof. solve_struct. Qed.
#[export] Instance TrafficSplitConfig_lawful : Lawful TrafficSplitConfig_codec.
Proof. solve_struct. Qed.
#[export] Instance FaultInjectionConfig_lawful : Lawful FaultInjectionConfig_codec.
Proof. solve_struct. Qed.
#[export] Instance Route_lawful : Lawful Route_codec.
Proof using HM. solve_struct. Qed.
#[export] Instance GatewayConfig_lawful : Lawful GatewayConfig_codec.
Proof using HM. solve_struct. Qed.
End laws.

(** ** Configurations of the Rust types *)

Definition opt_uint (w : Z) (o : option Z) : Prop := ∀ n, o = Some n → uint w n.

Record typed_route (r : Route) : Prop := {
  typed_prefix : is_utf8 (path_prefix r) = true;
  typed_percentage : uint 8 (canary_percentage (traffic_split r));
  typed_probability : uint 8 (probability_percent (fault_injection r));
  typed_delay : uint 64 (delay_ms (fault_injection r));
  typed_jitter : uint 64 (jitter_ms (fault_injection r));
  typed_status : opt_uint 16 (abort_status (fault_injection r));
}.

Record typed_upstream (u : UpstreamConfig) : Prop := {
  typed_targets : Forall wf_target (targets u);
  typed_thresholds : wf_thresholds (passive (health_checks u)) (circuit_breaker u);
  typed_interval : uint 64 (interval_ms (active (health_checks u)));
  typed_timeout : uint 64 (timeout_ms (active (health_checks u)));
}.

Record typed_config (cfg : GatewayConfig) : Prop := {
  typed_routes : Forall typed_route (routes cfg);
  typed_upstreams : Forall typed_upstream (upstreams cfg);
  typed_limits : wf_limits (rate_limit cfg);
  typed_quotas : Forall (λ r, opt_uint 64 (rule_quota r)) (scoped_limits (rate_limit cfg));
  typed_attempts : uint 8 (max_attempts (retries (proxy (server cfg))));
  typed_backoff : uint 64 (backoff_ms (retries (proxy (server cfg))));
  typed_body : uint 64 (max_request_body_bytes (server cfg));
  typed_request_timeout : uint 64 (request_timeout_ms (proxy (server cfg)));
  typed_drain : uint 64 (drain_timeout_ms (shutdown (server cfg))) ∧
                uint 64 (drain_poll_ms (shutdown (server cfg)));
  typed_versions : Forall (λ p, uint 32 (contract_version p)) (plugins cfg);
}.

#[local] Arguments is_utf8 : simpl never.
#[local] Arguments uint : simpl never.

Ltac solve_typed := repeat match goal with H : _ ∧ _ |- _ => destruct H end; split; unfold opt_uint, wf_thresholds; tauto.

Lemma Route_typed `{MapOrder} r : fits Route_codec r → typed_route r.
Proof. intros Hr. cbn in Hr. solve_typed. Qed.

Lemma UpstreamConfig_typed u : fits UpstreamConfig_codec u → typed_upstream u.
Proof.
  intros Hu. cbn in Hu.
  assert (Forall wf_target (targets u)); [|solve_typed].
  destruct Hu as [[[_ Ht] _] _]. eapply Forall_impl; [exact Ht|]. intros t Hf. cbn in Hf.
  unfold wf_target. tauto.
Qed.

Lemma RateLimitConfig_typed c :
  fits RateLimitConfig_codec c →
  wf_limits c ∧ Forall (λ r, opt_uint 64 (rule_quota r)) (scoped_limits c).
Proof.
  intros Hc. cbn in Hc. destruct Hc as [Hn Hr]. split.
  - assert (Forall wf_rule (scoped_limits c)); [|unfold wf_limits; tauto].
    eapply Forall_impl; [exact Hr|]. intros r Hf. cbn in Hf. unfold wf_rule. tauto.
  - eapply Forall_impl; [exact Hr|]. intros r Hf. cbn in Hf. unfold opt_uint. tauto.
Qed.

Lemma GatewayConfig_typed `{MapOrder} cfg : fits GatewayConfig_codec cfg → typed_config cfg.
Proof.
  intros [[[[[Hs Hr] Hu] _] Hl] Hp].
  change (fits ServerConfig_codec (server cfg)) in Hs.
  change (fits RateLimitConfig_codec (rate_limit cfg)) in Hl.
  apply RateLimitConfig_typed in Hl as [Hl Hq]. cbn in Hs.
  split; [| |done|done|tauto|tauto|tauto|tauto|tauto|].
  - eapply Forall_impl; [exact Hr|]. intros r. apply Route_typed.
  - eapply Forall_impl; [exact Hu|]. intros u. apply UpstreamConfig_typed.
  - eapply Forall_impl; [exact Hp|]. intros p Hf. cbn in Hf. tauto.
Qed.

Lemma typed_no_overflow cfg :
  typed_config cfg →
  (no_overflow cfg ↔
     Forall (λ u, (sumZ (weight <$> targets u) < 2 ^ 32)%Z) (upstreams cfg) ∧
     Forall (λ r, jitter_ms (fault_injection r) ≠ umax 64) (routes cfg)).
Proof.
  intros Ht. unfold no_overflow. pose proof (typed_upstreams _ Ht) as Hu.
  pose proof (typed_routes _ Ht) as Hr. rewrite !Forall_forall in *. split; intros [H1 H2]; split.
  - intros u Hin. by apply H1.
  - intros r Hin. specialize (H2 r Hin). unfold umax in *. lia.
  - intros u Hin. split; [apply (typed_targets _ (Hu u Hin))|by apply H1].
  - intros r Hin. destruct (Hr r Hin) as [Hp _ _ _ [Hj Hj'] _]. specialize (H2 r Hin).
    unfold umax in *. split; [lia|done].
Qed.

(** ** The example configuration

    examples/config.yaml as a tree. *)
Definition obj (l : list (string * json_tree)) : json_tree := JObject l.
Definition str (s : string) : json_tree := JString s.
Definition num (n : Z) : json_tree := JNumber n.

Definition example_server : json_tree := obj
  [("listen_addr", str "127.0.0.1:3000"); ("max_request_body_bytes", num 8388608);
   ("proxy", obj
     [("connect_timeout_ms", num 1000); ("read_timeout_ms", num 5000);
      ("request_timeout_ms", num 7000); ("max_idle_per_host", num 64);
      ("idle_timeout_secs", num 90);
      ("retries", obj
        [("max_attempts", num 3); ("backoff_ms", num 50); ("idempotent_only", JBool true);
         ("retry_unsafe_methods", JBool false)])]);
   ("shutdown", obj [("drain_timeout_ms", num 10000); ("drain_poll_ms", num 50)])].

Definition example_route : json_tree := obj
  [("name", str "users-v1"); ("path_prefix", str "/api/v1/users");
   ("upstream", str "users-service"); ("protocols", JArray [str "http1"; str "http2"]);
   ("transform", obj
     [("request", obj
        [("path_prefix_rewrite", str "/users");
         ("set_headers", obj [("x-gateway-route", str "users-v1")])]);
      ("response", obj [("add_headers", obj [("x-gateway-slice", str "gateway-core-rust")])])]);
   ("traffic_split", obj
     [("canary_upstream", str "users-service-canary"); ("canary_percentage", num 20);
      ("canary_header", obj [("name", str "x-canary"); ("value", str "1")])]);
   ("fault_injection", obj
     [("enabled", JBool false); ("probability_percent", num 5); ("delay_ms", num 100);
      ("jitter_ms", num 50); ("abort_status", num 503);
      ("abort_body", str "synthetic fault response")])].

Definition example_target (id address : string) (weight : Z) : json_tree := obj
  [("id", str id); ("address", str address); ("weight", num weight)].

Definition example_upstreams : json_tree := JArray
  [obj
    [("name", str "users-service"); ("strategy", str "round-robin");
     ("health_checks", obj
       [("active", obj
          [("enabled", JBool false); ("path", str "/healthz"); ("interval_ms", num 5000);
           ("timeout_ms", num 1000); ("healthy_threshold", num 2);
           ("unhealthy_threshold", num 2)]);
        ("passive", obj [("failure_threshold", num 3); ("success_threshold", num 1)])]);
     ("circuit_breaker", obj
       [("failure_threshold", num 5); ("open_ms", num 5000);
        ("half_open_max_requests", num 1)]);
     ("targets", JArray
       [example_target "users-1" "127.0.0.1:9001" 3;
        example_target "users-2" "127.0.0.1:9002" 1])];
   obj
    [("name", str "users-service-canary"); ("strategy", str "round-robin");
     ("health_checks", obj
       [("active", obj [("enabled", JBool false)]);
        ("passive", obj [("failure_threshold", num 2); ("success_threshold", num 1)])]);
     ("circuit_breaker", obj
       [("failure_threshold", num 3); ("open_ms", num 3000);
        ("half_open_max_requests", num 1)]);
     ("targets", JArray [example_target "users-canary-1" "127.0.0.1:9101" 1])]].

Definition example_security : json_tree := obj
  [("enabled_modes", JArray [str "jwt"]);
   ("jwt", obj
     [("secret", str "replace-with-real-secret"); ("roles_claim", str "roles");
      ("groups_claim", str "groups")]);
   ("mtls", obj
     [("subject_header", str "x-client-cert-subject");
      ("roles_header", str "x-client-cert-roles");
      ("groups_header", str "x-client-cert-groups"); ("allowed_subjects", JArray [])]);
   ("rbac", JArray [obj [("role", str "admin"); ("route", str "users-v1")]]);
   ("subject_rbac", JArray [])].

Definition example_rate_limit : json_tree := obj
  [("enabled", JBool true); ("policy", str "sliding_window"); ("capacity", num 100);
   ("refill_per_second", num 100); ("fixed_window_seconds", num 60);
   ("sliding_window_seconds", num 60);
   ("scoped_limits", JArray
     [obj [("scope", str "route"); ("limit", num 500); ("window_seconds", num 60);
           ("policy", str "fixed_window")];
      obj [("scope", str "service"); ("limit", num 1000); ("window_seconds", num 60);
           ("policy", str "sliding_window")];
      obj [("scope", str "consumer"); ("limit", num 120); ("window_seconds", num 60);
           ("quota", num 10000)]])].

Definition example_plugins : json_tree := JArray
  [obj
    [("name", str "jwt_auth"); ("module", str "plugins.jwt_auth"); ("runtime", str "wasm");
     ("contract_version", num 1); ("phases", JArray [str "access"; str "log"]);
     ("capabilities", JArray [str "read_headers"; str "emit_logs"]);
     ("wasm_path", str "examples/plugins/jwt_auth/jwt_auth.wasm")]].

Definition example_document : list (string * json_tree) :=
  [("server", example_server); ("routes", JArray [example_route]);
   ("upstreams", example_upstreams); ("security", example_security);
   ("rate_limit", example_rate_limit); ("plugins", example_plugins)].

Definition example_config : option GatewayConfig :=
  @de _ (@GatewayConfig_codec sorted_map_order) (obj example_document).

(** The example is a valid configuration; among others the canary's active
    check and the third rule have the defaults of the fields they leave out. *)
Example example_config_valid :
  ∃ cfg, example_config = Some cfg ∧ validate cfg = Ok () ∧
    (interval_ms ∘ active ∘ health_checks <$> upstreams cfg) = [5000; 5000]%Z ∧
    (rule_policy <$> scoped_limits (rate_limit cfg))
      = [Some FixedWindow; Some SlidingWindow; None] ∧
    (active_connections <$> (upstreams cfg ≫= targets)) = [0; 0; 0]%Z.
Proof.
  destruct example_config as [cfg|] eqn:E; [|by vm_compute in E].
  exists cfg. vm_compute in E. injection E as <-. by vm_compute.
Qed.

(** ** Properties *)

(** Absent and empty sections.  An empty document is the gateway of the
    defaults.  For every section with a hand-written or all-zero [Default], a
    section that is absent and one that is empty mean the same. *)
Example section_defaults `{M : MapOrder} :
  let empty := JObject [] in
  de GatewayConfig_codec empty = Some {|
    server := ServerConfig_default; routes := []; upstreams := [];
    security := SecurityConfig_default; rate_limit := RateLimitConfig_default; plugins := [] |} ∧
  de ServerConfig_codec empty = Some ServerConfig_default ∧
  de ProxyRuntimeConfig_codec empty = Some ProxyRuntimeConfig_default ∧
  de RetryConfig_codec empty = Some RetryConfig_default ∧
  de ShutdownConfig_codec empty = Some ShutdownConfig_default ∧
  de SecurityConfig_codec empty = Some SecurityConfig_default ∧
  de RateLimitConfig_codec empty = Some RateLimitConfig_default ∧
  de HealthCheckConfig_codec empty = Some HealthCheckConfig_default ∧
  de ActiveHealthCheckConfig_codec empty = Some ActiveHealthCheckConfig_default ∧
  de PassiveHealthCheckConfig_codec empty = Some PassiveHealthCheckConfig_default ∧
  de CircuitBreakerConfig_codec empty = Some CircuitBreakerConfig_default ∧
  de TransformConfig_codec empty = Some TransformConfig_default ∧
  de TrafficSplitConfig_codec empty = Some TrafficSplitConfig_default.
Proof. repeat split. Qed.

(** Not so for fault injection: absent its probability is 0, empty it is 100. *)
Example fault_injection_defaults :
  probability_percent FaultInjectionConfig_default = 0%Z ∧
  probability_percent <$> de FaultInjectionConfig_codec (JObject []) = Some 100%Z.
Proof. done. Qed.

(** The section of the [security] document that configures a mode. *)
Definition mode_section (m : AuthMode) : option string :=
  match m with
  | Anonymous => None
  | Jwt => Some "jwt"
  | OAuth2 => Some "oauth2"
  | OpenIdConnect => Some "openid_connect"
  | Mtls => Some "mtls"
  end.

Lemma document_get_absent l name : name ∉ l.*1 → document_get l name = None.
Proof.
  unfold document_get. induction l as [|[k j] l IH]; [done|]. rewrite fmap_cons, not_elem_of_cons.
  simpl. intros [Hk Hl]. apply not_eq_sym, String.eqb_neq in Hk. rewrite Hk. by apply IH.
Qed.

(** The fields of a security document. *)
Lemma security_fields l sec :
  de SecurityConfig_codec (JObject l) = Some sec →
  let read {A} (name : string) (c : codec A) (dflt a : A) :=
    match document_get l name with Some j => de c j | None => Some dflt end = Some a in
  read "enabled_modes" (list_codec AuthMode_codec) [] (enabled_modes sec) ∧
  read "jwt" JwtConfig_codec JwtConfig_default (jwt sec) ∧
  read "oauth2" OAuth2Config_codec OAuth2Config_default (oauth2 sec) ∧
  read "openid_connect" OpenIdConnectConfig_codec OpenIdConnectConfig_default (openid_connect sec) ∧
  read "mtls" MtlsConfig_codec MtlsConfig_default (mtls sec).
Proof.
  intros Hd. apply de_object in Hd as ([[[[[[[modes roles] groups] j] o] i] m] subjects] & Hf & ->).
  repeat apply fields_de_both in Hf as [Hf ?]. by split_and!.
Qed.

Section properties.
Context `{HeaderMapOps, J : JsonOps, !JwtOps J}.

(** C15: a mode without its section rejects everything.  Without a list of
    modes every request is anonymous.  A mode that is enabled without a section
    of its own is accepted as a configuration, but no request passes it: the
    secret is empty, or the name of the subject header is (a name no header
    has); so a document whose modes all lack their sections rejects every
    request.  An empty [mtls] section, in contrast, reads the documented
    headers, and a [jwt] section with a secret only the documented claims. *)
Theorem unconfigured_modes_reject l sec headers :
  name_from_bytes "" = None → de SecurityConfig_codec (JObject l) = Some sec →
  ("enabled_modes" ∉ l.*1 → authenticate sec headers = Ok anonymous_identity) ∧
  (∀ m section, mode_section m = Some section → section ∉ l.*1 →
     authenticate_mode sec m headers =
       Err (if bool_decide (m = Mtls) then "missing mTLS subject"
            else "token secret is not configured")) ∧
  (enabled_modes sec ≠ [] →
   (∀ m, m ∈ enabled_modes sec → ∃ section, mode_section m = Some section ∧ section ∉ l.*1) →
   ∃ err, authenticate sec headers = Err err) ∧
  (document_get l "mtls" = Some (JObject []) →
   authenticate_mode sec Mtls headers =
     match (v ← hm_get_str headers "x-client-cert-subject"; s ← value_to_str v; non_empty (trim s)) with
     | None => Err "missing mTLS subject"
     | Some subject => Ok {| id_mode := Mtls;
         id_roles := extract_header_values headers "x-client-cert-roles";
         id_groups := extract_header_values headers "x-client-cert-groups";
         id_subject := Some subject |}
     end) ∧
  (∀ secret, document_get l "jwt" = Some (JObject [("secret", JString secret)]) → secret ≠ "" →
   authenticate_mode sec Jwt headers =
     (claims ← decode_token_claims headers secret None None "invalid jwt";
      Ok {| id_mode := Jwt; id_roles := extract_claim_values claims "roles" true;
            id_groups := extract_claim_values claims "groups" false; id_subject := None |})).
Proof.
  intros Hempty Hd. apply security_fields in Hd as (Hmodes & Hj & Ho & Hi & Hm).
  assert (∀ m section, mode_section m = Some section → section ∉ l.*1 →
     authenticate_mode sec m headers =
       Err (if bool_decide (m = Mtls) then "missing mTLS subject"
            else "token secret is not configured")) as Habsent.
  { intros m section Hsec Hno. apply document_get_absent in Hno.
    destruct m; simpl in Hsec; try done; injection Hsec as <-; rewrite Hno in *.
    - simpl. by injection Hj as <-.
    - simpl. by injection Ho as <-.
    - simpl. by injection Hi as <-.
    - simpl. unfold mtls_subject. injection Hm as <-. unfold hm_get_str. simpl. by rewrite Hempty. }
  split; [|split; [exact Habsent|split; [|split]]].
  - intros Hno. apply document_get_absent in Hno. rewrite Hno in Hmodes. injection Hmodes as Hmodes.
    unfold authenticate. by rewrite <-Hmodes.
  - intros Hne Hall. destruct (authenticate sec headers) as [id|err] eqn:E; [|by exists err].
    apply authenticate_ok_mode in E as [[? _]|[Hin Hok]]; [done|].
    destruct (Hall _ Hin) as (section & Hsec & Hno).
    by rewrite (Habsent _ _ Hsec Hno) in Hok.
  - intros Hs. rewrite Hs in Hm. simpl. unfold mtls_subject.
    injection Hm as <-. simpl. unfold default_mtls_subject_header.
    by destruct (hm_get_str headers _ ≫= _).
  - intros secret Hs Hne. rewrite Hs in Hj. simpl in Hj.
    destruct (is_utf8 secret); [|done]. simpl. injection Hj as <-. done.
Qed.
End properties.

(** The names of the modes: OAuth2, whose section is [oauth2], is enabled as
    [o_auth2], and [oauth2] is rejected. *)
Example mode_names :
  de AuthMode_codec (JString "o_auth2") = Some OAuth2 ∧
  de AuthMode_codec (JString "oauth2") = None ∧
  de AuthMode_codec (JString "open_id_connect") = Some OpenIdConnect ∧
  de AuthMode_codec (JString "openid_connect") = None.
Proof. repeat split. Qed.

(** ** Witnesses *)

#[local] Existing Instance list_header_map.
#[local] Existing Instance tree_json.
#[local] Existing Instance demo_jwt.

(** A document that enables mutual TLS and tokens, and configures neither. *)
Lemma unconfigured_modes_reject_witness :
  ∃ sec, de SecurityConfig_codec
      (JObject [("enabled_modes", JArray [JString "mtls"; JString "jwt"])]) = Some sec ∧
    ∃ err, authenticate sec (demo_headers [("x-client-cert-subject", "CN=a")]) = Err err.
Proof.
  eexists. split; [vm_compute; reflexivity|].
  eapply (unconfigured_modes_reject [("enabled_modes", JArray [JString "mtls"; JString "jwt"])]).
  - reflexivity.
  - vm_compute. reflexivity.
  - done.
  - intros m Hm. repeat (apply elem_of_cons in Hm as [->|Hm]); [| |by apply not_elem_of_nil in Hm];
      eexists; (split; [reflexivity|]); by_computation.
Defined.
