(* ===== verification/Bootstrap.v ===== *)
(** * The start of the process (main.rs)

    [main]: from the environment variable to the listening gateway, with the
    exits and the panics on the way, the settings of the HTTP client, the
    routes of the application, and what is torn down at the end.  The
    environment, the file system, the tracing filter, the JSON parser (from a
    text to its tree), the YAML deserialiser, the construction of the client
    and the binding of the socket are parameters. *)

From S2P Require Export Composition Schema.

#[local] Open Scope string_scope.
#[local] Open Scope list_scope.

(** What the reqwest client is built with. *)
Record ClientSettings : Type := {
  pool_max_idle_per_host : Z;
  pool_idle_timeout : duration;
  connect_timeout : duration;
  timeout : duration;
}.

Definition client_settings (config : GatewayConfig) : ClientSettings := {|
  pool_max_idle_per_host := max_idle_per_host (proxy (server config));
  pool_idle_timeout := from_secs (idle_timeout_secs (proxy (server config)));
  connect_timeout := from_millis (connect_timeout_ms (proxy (server config)));
  timeout := from_millis (read_timeout_ms (proxy (server config)));
|}.

(** The application: two [GET] routes, and the proxy for everything else. *)
Inductive endpoint : Type := HealthzEndpoint | MetricsEndpoint | ProxyEndpoint.

Record AppRouter : Type := {
  get_routes : list (string * endpoint);
  fallback : endpoint;
}.

Definition app : AppRouter := {|
  get_routes := [("/healthz", HealthzEndpoint); ("/metrics", MetricsEndpoint)];
  fallback := ProxyEndpoint;
|}.

Definition default_config_path : string := "examples/config.yaml".

Section main.
Context `{HM : HeaderMapOps, J : JsonOps, !JwtOps J, !Hasher, M : MapOrder, !ContextJson}.
Context {SocketAddr : Type}.
Context (env_var : string → option string).
Context (filter_from_env : result string string).
Context (read_to_string : string → result string string).
Context (parse_text : string → result string json_tree) (reject : json_tree → string).
Context (parse_yaml : string → result string GatewayConfig).
Context (path_exists : string → bool).
Context (client_builds : ClientSettings → bool).
Context (parse_addr : string → option SocketAddr).
Context (binds : SocketAddr → bool).

(** What the process does to the outside until it serves, in order. *)
Inductive start_action : Type :=
| InitTracing (filter : string)
| Lifecycle (e : lifecycle_event)
| SpawnCheckers (checkers : gmap nat Checker)
| Bind (addr : SocketAddr).

(** The gateway that [main] serves. *)
Record Gateway : Type := {
  gw_addr : SocketAddr;
  gw_config : GatewayConfig;
  gw_plugins : PluginManager;
  gw_client : ClientSettings;
  gw_app : AppRouter;
  gw_system : System;
}.

Inductive ending : Type :=
| Exited (code : Z) (err : string)
| MainPanicked (msg : string)
| Serving (gw : Gateway).

Definition parse_json : string → result string GatewayConfig :=
  from_str parse_text reject GatewayConfig_codec.

Definition config_path : string := default default_config_path (env_var "GATEWAY_CONFIG").

(** [init_tracing]: the directives of the environment, or [info]; that a
    subscriber is already installed is ignored. *)
Definition init_tracing : start_action :=
  InitTracing match filter_from_env with Ok env_filter => env_filter | Err _ => "info" end.

(** A panic unwinds [main] and drops the plugin manager. *)
Definition main_panics (log : list start_action) (manager : PluginManager) (msg : string)
    : list start_action * ending :=
  (log ++ (Lifecycle <$> drop_manager manager), MainPanicked msg).

(** [main] up to [axum::serve]; [now] is the time when the state is built. *)
Definition main (now : instant) : list start_action * ending :=
  match load_from_path read_to_string parse_json parse_yaml config_path with
  | Err err => ([init_tracing], Exited 1 err)
  | Ok config =>
      let '(built, events) := from_config path_exists (plugins config) in
      let log := init_tracing :: (Lifecycle <$> events) in
      match built with
      | Err err => (log, Exited 1 err)
      | Ok plugin_manager =>
          let runtime := build_runtime_registry config in
          if negb (client_builds (client_settings config)) then
            main_panics log plugin_manager "reqwest client creation should succeed"
          else
            let system := initial_system config now in
            let log := log ++ [SpawnCheckers (spawn_active_health_checks config runtime)] in
            match parse_addr (listen_addr (server config)) with
            | None =>
                main_panics log plugin_manager "listen_addr should be a valid socket address"
            | Some addr =>
                let log := log ++ [Bind addr] in
                if negb (binds addr) then
                  main_panics log plugin_manager "failed to bind listener"
                else
                  (log, Serving {| gw_addr := addr; gw_config := config;
                                   gw_plugins := plugin_manager;
                                   gw_client := client_settings config; gw_app := app;
                                   gw_system := system |})
            end
      end
  end.

(** The whole life of the process: when serving ends, normally or by the
    [expect] on its result, the shared state is dropped and with it the plugin
    manager. *)
Definition process_log (now : instant) : list start_action :=
  let '(log, e) := main now in
  match e with
  | Serving gw => log ++ (Lifecycle <$> drop_manager (gw_plugins gw))
  | _ => log
  end.

(** ** Lemmas *)

Definition lifecycle_of (a : start_action) : option lifecycle_event :=
  match a with Lifecycle e => Some e | _ => None end.

Lemma lifecycle_of_log (log : list lifecycle_event) :
  omap lifecycle_of (Lifecycle <$> log) = log.
Proof. induction log as [|e log IH]; [done|]. rewrite fmap_cons. simpl. by f_equal. Qed.

Lemma builds_names cfgs ps :
  Forall2 (builds path_exists) cfgs ps → gp_name <$> ps = plugin_name <$> cfgs.
Proof.
  induction 1 as [|c q cs qs (d & Hd & ->) _ IH]; [done|]. rewrite !fmap_cons, IH. f_equal. simpl.
  by apply build_declared_plugin_spec in Hd as [-> _].
Qed.

Definition before_serving (a : start_action) : bool :=
  match a with InitTracing _ | Lifecycle _ => true | _ => false end.

Lemma lifecycle_before (log : list lifecycle_event) : Forall (λ a, before_serving a = true) (Lifecycle <$> log).
Proof. apply Forall_fmap. by apply Forall_true. Qed.

Definition valid_plugins (config : GatewayConfig) : Prop :=
  NoDup (plugin_name <$> plugins config) ∧ Forall (valid_plugin path_exists) (plugins config).

Abbreviation load := (load_from_path read_to_string parse_json parse_yaml config_path)
  (only parsing).

(** serde_yaml, too, yields values of the Rust types only. *)
Hypothesis yaml_typed : ∀ content cfg, parse_yaml content = Ok cfg → typed_config cfg.
Hypothesis map_laws : MapOrderLaws M.

Lemma load_typed cfg : load = Ok cfg → typed_config cfg.
Proof using yaml_typed map_laws.
  intros (content & _ & Hp & _)%load_from_path_spec. destruct (bool_decide _); [|by eapply yaml_typed].
  apply from_str_ok in Hp as (tree & _ & Hp). eapply GatewayConfig_typed, de_fits, Hp.
Qed.

Lemma typed_wf_targets cfg : typed_config cfg → wf_targets cfg.
Proof.
  intros Ht. pose proof (typed_upstreams _ Ht) as Hu. unfold wf_targets.
  eapply Forall_impl; [exact Hu|]. intros u. apply typed_targets.
Qed.

Lemma main_serving now log gw :
  main now = (log, Serving gw) →
  load = Ok (gw_config gw) ∧ gw_system gw = initial_system (gw_config gw) now ∧
  from_config path_exists (plugins (gw_config gw)) =
    (Ok (gw_plugins gw), (from_config path_exists (plugins (gw_config gw))).2).
Proof.
  unfold main, main_panics. destruct load as [config|err] eqn:El; [|done].
  destruct (from_config path_exists (plugins config)) as [[m|e] flog] eqn:Ef; [|done].
  destruct (client_builds _); [|done]. destruct (parse_addr _) as [addr|]; [|done].
  destruct (binds addr); [|done]. intros [= _ <-]. cbn. by rewrite Ef.
Qed.

(** ** Properties *)

(** C14: how the process starts, and how it fails to.  [main] serves exactly
    when the configuration file can be read, parsed and validated, its plugin
    declarations are valid, the client can be built, the listen address parses
    and the socket binds; the gateway it serves has that configuration, one
    plugin per declaration, and starts from the initial state.  It exits with
    code 1, having spawned and bound nothing, exactly when the configuration
    or the plugins are at fault; and it panics exactly when the client, the
    address or the socket is, although the configuration is valid. *)
Theorem main_outcome now :
  match main now with
  | (_, Serving gw) =>
      load = Ok (gw_config gw) ∧ valid_config (gw_config gw) ∧ valid_plugins (gw_config gw) ∧
      Forall2 (builds path_exists) (plugins (gw_config gw)) (gw_plugins gw) ∧
      gw_client gw = client_settings (gw_config gw) ∧ client_builds (gw_client gw) = true ∧
      parse_addr (listen_addr (server (gw_config gw))) = Some (gw_addr gw) ∧
      binds (gw_addr gw) = true ∧ gw_system gw = initial_system (gw_config gw) now
  | (log, Exited code err) =>
      code = 1%Z ∧ Forall (λ a, before_serving a = true) log ∧
      (load = Err err ∨ ∃ config, load = Ok config ∧ ¬ valid_plugins config)
  | (_, MainPanicked _) =>
      ∃ config, load = Ok config ∧ valid_plugins config ∧
        (client_builds (client_settings config) = false ∨
         parse_addr (listen_addr (server config)) = None ∨
         ∃ addr, parse_addr (listen_addr (server config)) = Some addr ∧ binds addr = false)
  end.
Proof.
  unfold main, main_panics. destruct load as [config|err] eqn:El; [|split; [done|]; split; [by repeat constructor|by left]].
  pose proof (from_config_spec path_exists (plugins config)) as Hp.
  destruct (from_config path_exists (plugins config)) as [[m|e] log].
  - destruct Hp as (Hnd & Hv & Hm & ->).
    destruct (client_builds (client_settings config)) eqn:Ec; cbn [negb];
      [|by exists config; do 2 (split; [done|]); left].
    destruct (parse_addr _) as [addr|] eqn:Ea;
      [|by exists config; do 2 (split; [done|]); right; left].
    destruct (binds addr) eqn:Eb; cbn [negb];
      [|by exists config; do 2 (split; [done|]); right; right; exists addr].
    pose proof El as Hl. apply load_from_path_spec in Hl as (content & _ & _ & Hvalid).
    by split_and!.
  - destruct Hp as [Hn _]. split; [done|]. split; [|right; eauto].
    constructor; [done|apply lifecycle_before].
Qed.

(** C28: every plugin that is initialised is torn down, once.  However the
    process ends, by an exit, a panic at start, or after serving, its
    lifecycle calls are the initialisations of some plugins in order of
    declaration, followed by the teardown of exactly these, in the same
    order. *)
Theorem process_lifecycle_balanced now :
  ∃ names, omap lifecycle_of (process_log now) = (Inited <$> names) ++ (TornDown <$> names).
Proof.
  unfold process_log, main, main_panics.
  destruct load as [config|err]; [|by exists []].
  pose proof (from_config_spec path_exists (plugins config)) as Hp.
  destruct (from_config path_exists (plugins config)) as [[m|e] log].
  - destruct Hp as (_ & _ & Hm & ->). exists (plugin_name <$> plugins config).
    assert (drop_manager m = TornDown <$> (plugin_name <$> plugins config)) as Hr.
    { unfold drop_manager, rollback_lifecycle. simpl. by rewrite <-(builds_names _ _ Hm), <-list_fmap_compose. }
    rewrite list_fmap_compose.
    destruct (client_builds _); simpl; [destruct (parse_addr _); simpl; [destruct (binds _); simpl|]|];
      rewrite ?omap_app, ?lifecycle_of_log, Hr; simpl; rewrite ?app_nil_r; done.
  - destruct Hp as [_ (n & _ & ->)]. exists (plugin_name <$> take n (plugins config)).
    simpl. by rewrite lifecycle_of_log, !list_fmap_compose.
Qed.

(** C27: from the configuration file to the upstream.  In a gateway that [main]
    serves, over any run with any interleaving, whatever leaves for an
    upstream was admitted under the configuration of the file: its route
    matched, the plugins built from the declarations allowed it, the identity
    was authenticated and authorised, the limiter accepted it; its target is
    configured for the selected upstream; and it left before the request
    timeout, by the clock reading before it. *)
Theorem served_sends_admitted builder_accepts p now log gw ls s rq tr1 ev request tr2 :
  main now = (log, Serving gw) →
  sys_run builder_accepts p (gw_config gw) (gw_plugins gw) (gw_system gw) ls s →
  (rq, tr1 ++ ev :: tr2) ∈ served ls → sent_request ev = Some request →
  valid_config (gw_config gw) ∧ admitted_send (gw_config gw) (gw_plugins gw) rq tr1 request ∧
  ∃ started, head (readings tr1) = Some started ∧
    ∃ reading, last (readings tr1) = Some reading ∧ in_time (gw_config gw) started reading.
Proof.
  intros Hm Hrun [i Hi]%list_elem_of_lookup Hev.
  apply main_serving in Hm as (Hl & Hsys & _). rewrite Hsys in Hrun.
  pose proof (typed_wf_targets _ (load_typed _ Hl)) as Hwf.
  apply load_from_path_spec in Hl as (content & _ & _ & Hvalid).
  pose proof (served_reach _ _ _ _ _ _ (notes_ok_run _ _ _ _ _ _ _ Hrun) _ _ _ Hi) as Hreach.
  split; [done|]. split; [by eapply sends_admitted_run|].
  destruct (handler_sends_in_time _ _ _ _ _ _ Hreach) as (started & Hs & Hhead).
  apply sends_ok_app in Hs as [_ [Hs _]]. destruct (Hs request Hev) as (reading & Hl & Hin).
  simpl in Hl. rewrite readings_app in Hhead. exists started.
  destruct (readings tr1) as [|x l]; [done|]. simpl in Hhead.
  destruct Hhead as [?|[= ->]]; [done|]. split; [done|]. by exists reading.
Qed.

(** C10: a gateway that is served never panics.  Whatever file it was loaded
    from, provided the weights of no upstream exceed a [u32] together and no
    jitter is [u64::MAX], then over any run of fewer than 2^64 steps, whatever
    the requests, the interleaving, the answers of clients and upstreams and
    the build profile, no task of a request panics, every rate-limit check
    answers, and every such task that runs to its end gives a response within
    the cost of its handler.  (The task of a health checker with an interval of
    zero is another matter.) *)
Theorem served_gateway_never_panics builder_accepts p now log gw ls s :
  main now = (log, Serving gw) →
  Forall (λ u, (sumZ (weight <$> targets u) < 2 ^ 32)%Z) (upstreams (gw_config gw)) →
  Forall (λ r, jitter_ms (fault_injection r) ≠ umax 64) (routes (gw_config gw)) →
  (Z.of_nat (length ls) < 2 ^ 64)%Z → (∀ id rq, LArrive id rq ∈ ls → wf_request rq) →
  sys_run builder_accepts p (gw_config gw) (gw_plugins gw) (gw_system gw) ls s →
  (∀ id t msg, sys_tasks s !! id = Some t → task_prog t ≠ Panic msg) ∧
  (∀ ev, ev ∈ run_events ls → limiter_answered ev) ∧
  ∀ id t, sys_tasks s !! id = Some t →
    ∃ rq done, (rq, done) ∈ served ls ∧
    ∀ tr o, exec (task_prog t) tr o → Forall limiter_answered tr →
      (∃ response, o = Done response) ∧
      (length done + length tr ≤ handler_cost (gw_config gw) rq)%nat.
Proof using yaml_typed map_laws.
  intros (Hl & -> & _)%main_serving Hw Hj. pose proof (load_typed _ Hl) as Ht.
  apply gateway_never_panics; [by apply typed_no_overflow|apply (typed_limits _ Ht)].
Qed.
End main.

(** ** Witnesses

    The demonstration gateway, read from a file that every path names, and
    its first request served alone. *)

#[local] Existing Instance list_header_map.
#[local] Existing Instance tree_json.
#[local] Existing Instance demo_jwt.
#[local] Existing Instance fnv_hasher.
#[local] Existing Instance sorted_map_order.
#[local] Existing Instance plain_context_json.

Definition demo_text (_ : string) : result string json_tree := Err "not JSON".
Definition demo_reject (_ : json_tree) : string := "not a configuration".
Definition demo_yaml (_ : string) : result string GatewayConfig := Ok demo_cfg.

Definition demo_main : list (@start_action string) * @ending list_header_map string :=
  main (λ _, None) (Err "unset") (λ _, Ok "") demo_text demo_reject demo_yaml (λ _, false) (λ _, true)
    Some (λ _, true) 0.

Definition demo_gw : @Gateway list_header_map string := {|
  gw_addr := default_listen_addr; gw_config := demo_cfg; gw_plugins := [];
  gw_client := client_settings demo_cfg; gw_app := app; gw_system := demo_system;
|}.

Example demo_main_serves :
  demo_main = ([InitTracing "info"; SpawnCheckers ∅; Bind default_listen_addr], Serving demo_gw).
Proof. reflexivity. Qed.

Lemma demo_yaml_typed content cfg : demo_yaml content = Ok cfg → typed_config cfg.
Proof.
  intros [= <-]. apply GatewayConfig_typed, fits_checked; [|by vm_compute].
  exact (GatewayConfig_lawful (HM := sorted_map_order_laws)).
Qed.

Lemma served_sends_admitted_witness :
  Ev EDraining false ∈ take 11 demo_drive.1.1.
Proof.
  destruct demo_drive_run as [s Hrun].
  apply (served_sends_admitted (λ _, None) (Err "unset") (λ _, Ok "") demo_text demo_reject demo_yaml
    (λ _, false) (λ _, true) Some (λ _, true) demo_yaml_typed sorted_map_order_laws accept_all Debug 0
    [InitTracing "info"; SpawnCheckers ∅; Bind default_listen_addr] demo_gw
    (LArrive 0 demo_request :: (LEffect 0 <$> demo_drive.1.1)) s demo_request
    (take 11 demo_drive.1.1)
    (Ev (ESend (@Build_UpstreamRequest list_header_map GET "http://10.0.0.1:8080/users?id=1" [] ""))
        (Ok (@Build_UpstreamResponse list_header_map 200 [] "hello")))
    (@Build_UpstreamRequest list_header_map GET "http://10.0.0.1:8080/users?id=1" [] "")
    (drop 12 demo_drive.1.1)).
  - exact demo_main_serves.
  - exact Hrun.
  - rewrite served_single.
    assert (demo_drive.1.1 = take 11 demo_drive.1.1
      ++ Ev (ESend (@Build_UpstreamRequest list_header_map GET "http://10.0.0.1:8080/users?id=1" [] ""))
            (Ok (@Build_UpstreamResponse list_header_map 200 [] "hello")) :: drop 12 demo_drive.1.1)
      as <- by reflexivity.
    apply list_elem_of_here.
  - reflexivity.
Defined.

Lemma served_gateway_never_panics_witness :
  ∃ s, sys_run accept_all Debug demo_cfg [] demo_system
         (LArrive 0 demo_request :: (LEffect 0 <$> demo_drive.1.1)) s ∧
    ∀ id t msg, sys_tasks s !! id = Some t → task_prog t ≠ Panic msg.
Proof.
  destruct demo_drive_run as [s Hrun]. exists s. split; [exact Hrun|].
  apply (served_gateway_never_panics (λ _, None) (Err "unset") (λ _, Ok "") demo_text demo_reject
    demo_yaml (λ _, false) (λ _, true) Some (λ _, true) demo_yaml_typed sorted_map_order_laws
    accept_all Debug 0 [InitTracing "info"; SpawnCheckers ∅; Bind default_listen_addr] demo_gw
    (LArrive 0 demo_request :: (LEffect 0 <$> demo_drive.1.1)) s).
  - exact demo_main_serves.
  - by repeat constructor.
  - by repeat constructor.
  - reflexivity.
  - intros id rq [[= _ ->]|Hin]%elem_of_cons; [left; exists "?id=1"; split; reflexivity|].
    by apply list_elem_of_fmap in Hin as (? & ? & _).
  - exact Hrun.
Defined.
