(* ===== verification/ResponseTransformer.v ===== *)
(** * The response-transformer filter
    (spec/fixtures/proxy_wasm_filters/response_transformer)

    The Proxy-Wasm filter that removes, renames, replaces, adds and appends
    response headers.  The host's header functions are an interface with the
    documented laws: [set] with no value removes, [set] with a value replaces
    all values, [add] appends one, names are compared without case.  Parsing
    the JSON configuration is a parameter. *)

From S2P Require Export Interfaces.

#[local] Open Scope string_scope.
#[local] Open Scope list_scope.

(** ** The host *)

Definition same_name (n n' : string) : bool := eq_ignore_ascii_case n n'.

Class HostHeaders := {
  HostMap : Type;
  host_values : HostMap → string → list string;
  get_http_response_header : HostMap → string → option string;
  set_http_response_header : HostMap → string → option string → HostMap;
  add_http_response_header : HostMap → string → string → HostMap;
}.

Definition opt_list {A} (o : option A) : list A := match o with Some a => [a] | None => [] end.

(** [get] gives some value of a name that has one. *)
Class HostHeadersLaws (O : HostHeaders) : Prop := {
  host_values_name m n n' : same_name n n' = true → host_values m n = host_values m n';
  host_get_spec m n :
    match get_http_response_header m n with
    | Some v => v ∈ host_values m n
    | None => host_values m n = []
    end;
  host_set_spec m n v n' :
    host_values (set_http_response_header m n v) n' =
      if same_name n n' then opt_list v else host_values m n';
  host_add_spec m n v n' :
    host_values (add_http_response_header m n v) n' =
      if same_name n n' then host_values m n' ++ [v] else host_values m n';
}.

(** ** Configuration (types.rs) *)

Record InvalidHeader : Type := { invalid_header : string }.

Definition show_invalid_header (e : InvalidHeader) : string :=
  "Invalid <header>:<name> => " +:+ invalid_header e.

Record KeyValuePair : Type := { kv_name : string; kv_value : string }.

Definition KeyValuePair_try_from (input : string) : result InvalidHeader KeyValuePair :=
  match split_once ":"%char input with
  | Some (name, value) =>
      if (0 <? str_len name)%Z && (0 <? str_len value)%Z
      then Ok {| kv_name := name; kv_value := value |}
      else Err {| invalid_header := input |}
  | None => Err {| invalid_header := input |}
  end.

Record Transformations (T : Type) : Type := { headers : list T }.
Arguments headers {T} _.
Definition Transformations_default {T} : Transformations T := {| headers := [] |}.

Record Config : Type := {
  remove : Transformations string;
  rename : Transformations KeyValuePair;
  replace : Transformations KeyValuePair;
  add : Transformations KeyValuePair;
  append : Transformations KeyValuePair;
}.

Definition Config_default : Config := {|
  remove := Transformations_default; rename := Transformations_default;
  replace := Transformations_default; add := Transformations_default;
  append := Transformations_default;
|}.

(** ** The filter (filter.rs) *)

Record ResponseTransformerContext : Type := { config : Config }.

Inductive Action : Type := Continue | Pause.

(** [on_configure]: the plugin configuration must be there ([unwrap]); a
    configuration that does not parse leaves the context as it was. *)
Definition on_configure (from_slice : string → result string Config)
    (bytes : option string) (ctx : ResponseTransformerContext)
    : outcome (bool * ResponseTransformerContext) :=
  match bytes with
  | None => Panicked "called `Option::unwrap()` on a `None` value"
  | Some bytes =>
      match from_slice bytes with
      | Ok cfg => Done (true, {| config := cfg |})
      | Err _ => Done (false, ctx)
      end
  end.

Definition create_http_context (ctx : ResponseTransformerContext)
    : option ResponseTransformerContext :=
  Some {| config := config ctx |}.

Definition on_done (ctx : ResponseTransformerContext) : bool := true.

Section filter.
Context `{HostHeaders}.

Definition remove_header (m : HostMap) (name : string) : HostMap :=
  set_http_response_header m name None.

Definition rename_header (m : HostMap) (kv : KeyValuePair) : HostMap :=
  let value := get_http_response_header m (kv_name kv) in
  let m := set_http_response_header m (kv_name kv) None in
  set_http_response_header m (kv_value kv) value.

Definition replace_header (m : HostMap) (kv : KeyValuePair) : HostMap :=
  match get_http_response_header m (kv_name kv) with
  | Some _ => set_http_response_header m (kv_name kv) (Some (kv_value kv))
  | None => m
  end.

Definition add_missing_header (m : HostMap) (kv : KeyValuePair) : HostMap :=
  match get_http_response_header m (kv_name kv) with
  | None => set_http_response_header m (kv_name kv) (Some (kv_value kv))
  | Some _ => m
  end.

Definition append_header (m : HostMap) (kv : KeyValuePair) : HostMap :=
  add_http_response_header m (kv_name kv) (kv_value kv).

Definition on_http_response_headers (ctx : ResponseTransformerContext) (m : HostMap)
    : Action * HostMap :=
  let m := foldl remove_header m (headers (remove (config ctx))) in
  let m := foldl rename_header m (headers (rename (config ctx))) in
  let m := foldl replace_header m (headers (replace (config ctx))) in
  let m := foldl add_missing_header m (headers (add (config ctx))) in
  let m := foldl append_header m (headers (append (config ctx))) in
  (Continue, m).
End filter.

(** ** Lemmas *)

(** The configured values for a name. *)
Definition values_for (n : string) (kvs : list KeyValuePair) : list string :=
  kv_value <$> filterb (λ kv, same_name (kv_name kv) n) kvs.

(** What the stages other than renaming make of the values of a name. *)
Definition transformed (values : list string) (is_removed : bool)
    (replaced added appended : list string) : list string :=
  let v := if is_removed then [] else values in
  let v := match v, last replaced with _ :: _, Some r => [r] | _, _ => v end in
  let v := match v with [] => opt_list (head added) | _ => v end in
  v ++ appended.

Section filter_lemmas.
Context `{O : HostHeaders, !HostHeadersLaws O}.

Lemma values_for_app n l k : values_for n (l ++ k) = values_for n l ++ values_for n k.
Proof. unfold values_for. by rewrite filterb_app, fmap_app. Qed.

Lemma values_for_one n kv :
  values_for n [kv] = if same_name (kv_name kv) n then [kv_value kv] else [].
Proof. unfold values_for. rewrite filterb_cons. by destruct (same_name _ _). Qed.

Lemma same_name_refl n : same_name n n = true.
Proof. unfold same_name, eq_ignore_ascii_case. by apply bool_decide_eq_true. Qed.

Lemma removes_values names n : ∀ m,
  host_values (foldl remove_header m names) n =
    if existsb (λ r, same_name r n) names then [] else host_values m n.
Proof.
  induction names as [|r names IH]; intros m; simpl; [done|]. rewrite IH.
  unfold remove_header. rewrite host_set_spec. destruct (same_name r n); simpl; [|done].
  by destruct (existsb _ names).
Qed.

Lemma renames_values kvs n : ∀ m,
  Forall (λ kv, same_name (kv_name kv) n = false ∧ same_name (kv_value kv) n = false) kvs →
  host_values (foldl rename_header m kvs) n = host_values m n.
Proof.
  induction kvs as [|kv kvs IH]; intros m Hf; simpl; [done|].
  apply Forall_cons in Hf as [[H1 H2] Hf]. rewrite IH by done. unfold rename_header.
  by rewrite !host_set_spec, H1, H2.
Qed.

Lemma replaces_values kvs n : ∀ m,
  host_values (foldl replace_header m kvs) n =
    match host_values m n, last (values_for n kvs) with
    | _ :: _, Some r => [r]
    | v, _ => v
    end.
Proof.
  induction kvs as [|kv kvs IH] using rev_ind; intros m.
  { simpl. by destruct (host_values m n). }
  rewrite foldl_app. cbn [foldl]. rewrite values_for_app, last_app, values_for_one.
  unfold replace_header.
  pose proof (host_get_spec (foldl replace_header m kvs) (kv_name kv)) as Hg.
  destruct (same_name (kv_name kv) n) eqn:En; simpl.
  - pose proof (host_values_name (foldl replace_header m kvs) _ _ En) as Hv.
    rewrite Hv, IH in Hg. destruct (get_http_response_header _ _) as [v|].
    + rewrite host_set_spec, En. destruct (host_values m n); [|done].
      by apply not_elem_of_nil in Hg.
    + rewrite IH. destruct (host_values m n); [done|].
      by destruct (last (values_for n kvs)).
  - destruct (get_http_response_header _ _); [rewrite host_set_spec, En|]; apply IH.
Qed.

Lemma adds_values kvs n : ∀ m,
  host_values (foldl add_missing_header m kvs) n =
    match host_values m n with [] => opt_list (head (values_for n kvs)) | v => v end.
Proof.
  induction kvs as [|kv kvs IH]; intros m; cbn [foldl].
  { simpl. by destruct (host_values m n). }
  rewrite IH. change (kv :: kvs) with ([kv] ++ kvs). rewrite values_for_app, values_for_one.
  unfold add_missing_header. pose proof (host_get_spec m (kv_name kv)) as Hg.
  destruct (same_name (kv_name kv) n) eqn:En; simpl.
  - pose proof (host_values_name m _ _ En) as Hv. rewrite Hv in Hg.
    destruct (get_http_response_header _ _) as [v|].
    + destruct (host_values m n); [by apply not_elem_of_nil in Hg|done].
    + by rewrite host_set_spec, En, Hg.
  - by destruct (get_http_response_header _ _); [|rewrite host_set_spec, En].
Qed.

Lemma appends_values kvs n : ∀ m,
  host_values (foldl append_header m kvs) n = host_values m n ++ values_for n kvs.
Proof.
  induction kvs as [|kv kvs IH]; intros m; cbn [foldl].
  { by rewrite app_nil_r. }
  rewrite IH. change (kv :: kvs) with ([kv] ++ kvs). rewrite values_for_app, values_for_one.
  unfold append_header. rewrite host_add_spec.
  destruct (same_name _ n); [by rewrite (assoc_L (++))|done].
Qed.
End filter_lemmas.

(** A host that keeps its headers in a list, for the witnesses. *)
Definition list_host : HostHeaders := {|
  HostMap := list (string * string);
  host_values m n := (filterb (λ nv, same_name nv.1 n) m).*2;
  get_http_response_header m n := snd <$> find_first (λ nv, same_name nv.1 n) m;
  set_http_response_header m n v :=
    filterb (λ nv, negb (same_name nv.1 n)) m ++ match v with Some v => [(n, v)] | None => [] end;
  add_http_response_header m n v := m ++ [(n, v)];
|}.

Lemma same_name_trans_l a b c : same_name a b = true → same_name a c = same_name b c.
Proof.
  unfold same_name, eq_ignore_ascii_case. intros H. bool_to_Z. apply bool_decide_ext. by rewrite H.
Qed.

Lemma same_name_sym a b : same_name a b = same_name b a.
Proof. unfold same_name, eq_ignore_ascii_case. apply bool_decide_ext. split; congruence. Qed.

Lemma list_host_laws : HostHeadersLaws list_host.
Proof.
  assert (∀ (m : list (string * string)) n n', (filterb (λ nv, same_name nv.1 n') (filterb
      (λ nv, negb (same_name nv.1 n)) m)).*2
    = if same_name n n' then [] else (filterb (λ nv, same_name nv.1 n') m).*2) as Hff.
  { induction m as [|[a v] m IH]; intros n n'; [by destruct (same_name n n')|].
    rewrite !filterb_cons. simpl. destruct (same_name a n) eqn:E1; simpl.
    - rewrite IH, (same_name_trans_l a n n' E1). by destruct (same_name n n').
    - rewrite filterb_cons. simpl. destruct (same_name a n') eqn:E2; simpl; [|by rewrite IH].
      rewrite IH. destruct (same_name n n') eqn:E3; [|done].
      rewrite (same_name_trans_l a n' n E2), same_name_sym, E3 in E1. done. }
  split; simpl.
  - intros m n n' Hn. induction m as [|[a v] m IH]; [done|]. rewrite !filterb_cons. simpl.
    rewrite (same_name_sym a n), (same_name_trans_l n n' a Hn), (same_name_sym n' a).
    destruct (same_name a n'); [|done]. simpl. by f_equal.
  - intros m n. induction m as [|[a v] m IH]; [done|]. rewrite filterb_cons. simpl.
    destruct (same_name a n); [|done]. simpl. apply list_elem_of_here.
  - intros m n v n'. rewrite filterb_app, fmap_app, Hff. destruct v; simpl.
    + rewrite filterb_cons. simpl. destruct (same_name n n'); [done|]. by rewrite app_nil_r.
    + rewrite app_nil_r. by destruct (same_name n n').
  - intros m n v n'. rewrite filterb_app, fmap_app, filterb_cons. simpl.
    destruct (same_name n n'); [done|]. by rewrite app_nil_r.
Qed.

(** ** Properties *)

(** C37: what the filter makes of a header.  For every name that no rename rule
    mentions, the values after the filter are determined by its values before
    and by the rules for it, names compared without case: removal first, then
    the last replacement if a value is left, then the first addition if none
    is left, then all appended values, in order.  The filter always continues. *)
Theorem filter_transforms `{O : HostHeaders, !HostHeadersLaws O} ctx m n :
  Forall (λ kv, same_name (kv_name kv) n = false ∧ same_name (kv_value kv) n = false)
    (headers (rename (config ctx))) →
  fst (on_http_response_headers ctx m) = Continue ∧
  host_values (snd (on_http_response_headers ctx m)) n =
    transformed (host_values m n)
      (existsb (λ r, same_name r n) (headers (remove (config ctx))))
      (values_for n (headers (replace (config ctx))))
      (values_for n (headers (add (config ctx))))
      (values_for n (headers (append (config ctx)))).
Proof.
  intros Hr. split; [done|]. unfold on_http_response_headers, transformed. simpl.
  rewrite appends_values, adds_values, replaces_values, renames_values, removes_values by done.
  destruct (existsb _ _); [done|]. by destruct (host_values m n), (last (values_for n (headers (replace (config ctx))))).
Qed.

Definition demo_kv (name value : string) : KeyValuePair := {| kv_name := name; kv_value := value |}.
Definition demo_filter : ResponseTransformerContext := {| config := {|
  remove := {| headers := ["X-Powered-By"] |}; rename := {| headers := [demo_kv "X-Old" "X-New"] |};
  replace := {| headers := [demo_kv "Server" "gw"] |}; add := {| headers := [demo_kv "X-A" "1"] |};
  append := {| headers := [demo_kv "x-a" "2"] |} |} |}.

Lemma filter_transforms_witness :
  @host_values list_host (snd (@on_http_response_headers list_host demo_filter [("server", "nginx")]))
    "X-A" = ["1"; "2"].
Proof.
  destruct (@filter_transforms list_host list_host_laws demo_filter [("server", "nginx")] "X-A")
    as [_ Hv].
  - repeat constructor.
  - rewrite Hv. vm_compute. reflexivity.
Defined.

(** Renaming moves one value, or deletes the target.  After one rename
    rule, with source and target of different names, the source has no value;
    the target has exactly the value the host gave for the source, and in
    particular none when the source was absent, even if the target had values
    before; every other name is unchanged. *)
Theorem rename_moves_or_deletes `{O : HostHeaders, !HostHeadersLaws O} m kv n :
  same_name (kv_value kv) (kv_name kv) = false →
  let m' := rename_header m kv in
  host_values m' (kv_name kv) = [] ∧
  host_values m' (kv_value kv) = opt_list (get_http_response_header m (kv_name kv)) ∧
  (host_values m (kv_name kv) = [] → host_values m' (kv_value kv) = []) ∧
  (same_name (kv_name kv) n = false → same_name (kv_value kv) n = false →
   host_values m' n = host_values m n).
Proof.
  intros Hne m'. unfold m', rename_header.
  assert (∀ n, same_name n n = true) as Hrefl.
  { intros. unfold same_name, eq_ignore_ascii_case. by apply bool_decide_eq_true. }
  rewrite !host_set_spec, Hne, !Hrefl. split; [done|]. split; [done|]. split.
  - intros Hno. pose proof (host_get_spec m (kv_name kv)) as Hg. rewrite Hno in Hg.
    destruct (get_http_response_header _ _); [by apply not_elem_of_nil in Hg|done].
  - intros H1 H2. by rewrite H1, H2.
Qed.

Lemma rename_moves_or_deletes_witness :
  @host_values list_host (@rename_header list_host [("x-new", "keep")] (demo_kv "X-Old" "X-New"))
    "X-New" = [].
Proof.
  apply (@rename_moves_or_deletes list_host list_host_laws [("x-new", "keep")]
    (demo_kv "X-Old" "X-New") ""); reflexivity.
Defined.

(** Reading a rule.  A text is accepted as a name-value pair exactly when
    it is a non-empty name without a colon, a colon, and a non-empty value
    (which may contain colons); the error carries the text. *)
Theorem KeyValuePair_roundtrip input :
  (∀ kv, KeyValuePair_try_from input = Ok kv ↔
     input = kv_name kv +:+ String ":" (kv_value kv) ∧ has_char ":"%char (kv_name kv) = false ∧
     kv_name kv ≠ "" ∧ kv_value kv ≠ "") ∧
  (∀ e, KeyValuePair_try_from input = Err e → invalid_header e = input).
Proof.
  assert (∀ s, (0 <? str_len s)%Z = true ↔ s ≠ "") as Hlen.
  { intros s. unfold str_len. destruct s; simpl; [split; [done|done]|]. split; [done|].
    intros _. apply Z.ltb_lt. lia. }
  unfold KeyValuePair_try_from. destruct (split_once ":"%char input) as [[n v]|] eqn:E.
  - pose proof (proj1 (split_once_spec _ _ _ _) E) as [Hin Hc].
    destruct (_ && _) eqn:Ev; (split; [intros kv; split|]); try done.
    + intros [= <-]. simpl. apply andb_true_iff in Ev as [?%Hlen ?%Hlen]. done.
    + intros (Hin' & Hc' & _ & _).
      assert (split_once ":"%char input = Some (kv_name kv, kv_value kv)) as E'
        by (by apply split_once_spec). rewrite E in E'. injection E' as -> ->. by destruct kv.
    + intros (Hin' & Hc' & Hn & Hv).
      assert (split_once ":"%char input = Some (kv_name kv, kv_value kv)) as E'
        by (by apply split_once_spec). rewrite E in E'. injection E' as -> ->.
      by rewrite (proj2 (Hlen _) Hn), (proj2 (Hlen _) Hv) in Ev.
    + by intros e [= <-].
  - split; [|by intros e [= <-]]. intros kv. split; [done|]. intros (Hin & Hc & _).
    assert (split_once ":"%char input = Some (kv_name kv, kv_value kv)) as E'
      by (by apply split_once_spec). congruence.
Qed.
