(* ===== verification/TestFilter.v ===== *)
(** * The test filter (spec/fixtures/proxy_wasm_filters/tests)

    The Proxy-Wasm filter of the integration tests: request headers select a
    phase and a test, and the filter calls the host accordingly.  The host's
    functions are an interface over the host's state; the filter keeps a map of
    the metrics it has defined.  A panic of the filter ends its instance, so
    nothing is said of the state it leaves.  Log lines are not modelled. *)

From S2P Require Export Transform ResponseTransformer.
From stdpp Require Import sorting.

#[local] Open Scope string_scope.
#[local] Open Scope list_scope.

(** ** Configuration and phases (types.rs) *)

Record TestConfig : Type := { config_map : gmap string string }.

Definition TestConfig_from_str (s : string) : result string TestConfig :=
  Ok {| config_map := collect_map (omap (split_once "="%char) (split_whitespace s)) |}.

Definition show_pair (kv : string * string) : string := kv.1 +:+ "=" +:+ kv.2.

(** [Display]: the entries, in whatever order the map yields them, sorted. *)
Definition TestConfig_to_string `{MapOrder} (cfg : TestConfig) : string :=
  let values := show_pair <$> map_entries (config_map cfg) in
  RustStr.join " " (merge_sort string_le values).

Inductive TestPhase : Type :=
| RequestHeaders | RequestBody | ResponseHeaders | ResponseBody | OnLog.

#[export] Instance TestPhase_eq_dec : EqDecision TestPhase.
Proof. solve_decision. Defined.

(** The derived [FromStr]: the names in snake case. *)
Definition TestPhase_from_str (s : string) : option TestPhase :=
  match_str [("request_headers", RequestHeaders); ("request_body", RequestBody);
             ("response_headers", ResponseHeaders); ("response_body", ResponseBody);
             ("log", OnLog)] s.

(** ** The host *)

Inductive MetricType : Type := Counter | Gauge | Histogram.

Class FilterHost := {
  Host : Type;
  get_plugin_configuration : Host → option string;
  set_tick_period : Host → duration → Host;
  get_http_request_header : Host → string → option string;
  set_http_request_header : Host → string → option string → Host;
  add_http_request_header : Host → string → string → Host;
  add_response_header_call : Host → string → string → Host;
  send_http_response : Host → Z → list (string * string) → option string → Host;
  get_property : Host → list string → option string;
  set_property : Host → list string → option string → Host;
  define_metric : Host → MetricType → string → result string Z * Host;
  increment_metric : Host → Z → Z → result string () * Host;
  record_metric : Host → Z → Z → result string () * Host;
  dispatch_http_call : Host → string → list (string * string) → option string →
    list (string * string) → duration → result string Z * Host;
  get_http_call_response_body : Host → option string;
  resume_http_request : Host → Host;
}.

(** The thread-local metrics: the identifiers by name. *)
Abbreviation Metrics := (gmap string Z) (only parsing).

(** The calls of the filter: they transform the host and the metrics, and may
    panic. *)
Definition calls `{FilterHost} (A : Type) : Type := Host * Metrics → outcome (A * (Host * Metrics)).

#[export] Instance calls_ret `{FilterHost} : MRet calls := λ A a s, Done (a, s).
#[export] Instance calls_bind `{FilterHost} : MBind calls := λ A B f m s,
  r ← m s; f r.1 r.2.
#[export] Instance calls_fmap `{FilterHost} : FMap calls := λ A B f m s,
  r ← m s; Done (f r.1, r.2).

Record TestHttp : Type := { http_config : option TestConfig }.

Section filter.
Context `{FilterHost, MapOrder} (parse_duration : string → option duration).

Definition ask {A} (f : Host → A) : calls A := λ s, Done (f s.1, s).
Definition tell (f : Host → Host) : calls () := λ s, Done ((), (f s.1, s.2)).
Definition call {A} (f : Host → A * Host) : calls A := λ s, let r := f s.1 in Done (r.1, (r.2, s.2)).
Definition panic {A} (msg : string) : calls A := λ _, Panicked msg.
Definition unwrap {E A} (msg : string) (r : result E A) : calls A :=
  match r with Ok a => mret a | Err _ => panic msg end.
Definition unwrap_option {A} (msg : string) (o : option A) : calls A :=
  match o with Some a => mret a | None => panic msg end.

(** ** Metrics (metrics.rs) *)

Definition get_metric_id (metric_type : MetricType) (name : string) : calls (result string Z) :=
  λ s,
    match s.2 !! name with
    | Some m_id => Done (Ok m_id, s)
    | None =>
        let r := define_metric s.1 metric_type name in
        match r.1 with
        | Ok m_id => Done (Ok m_id, (r.2, <[name := m_id]> s.2))
        | Err msg => Done (Err msg, (r.2, s.2))
        end
    end.

Definition increment_counter (name : string) : calls (result string ()) :=
  id ← get_metric_id Counter name;
  m_id ← unwrap "called `Result::unwrap()` on an `Err` value" id;
  call (λ h, increment_metric h m_id 1).
Definition record_gauge (name : string) (value : Z) : calls (result string ()) :=
  id ← get_metric_id Gauge name;
  m_id ← unwrap "called `Result::unwrap()` on an `Err` value" id;
  call (λ h, record_metric h m_id value).
Definition record_histogram (name : string) (value : Z) : calls (result string ()) :=
  id ← get_metric_id Histogram name;
  m_id ← unwrap "called `Result::unwrap()` on an `Err` value" id;
  call (λ h, record_metric h m_id value).

(** ** The HTTP context (test_http.rs) *)

Definition send_plain_response (status : Z) (body : option string) : calls () :=
  tell (λ h, send_http_response h status [] body).

(** A property that is missing or is not UTF-8 reads as empty. *)
Definition get_prop (ns prop : string) : calls string :=
  ask (λ h, match get_property h [ns; prop] with
            | Some addr => if valid_utf8 addr then addr else ""
            | None => ""
            end).
Definition set_prop (ns prop : string) (value : option string) : calls () :=
  tell (λ h, set_property h [ns; prop] value).

Definition unwrapped (m : calls (result string ())) : calls () :=
  r ← m; unwrap "called `Result::unwrap()` on an `Err` value" r.

(** The loop over the powers of two. *)
Fixpoint record_powers (labeled_h : string) (powers : list Z) : calls () :=
  match powers with
  | [] => mret ()
  | i :: powers =>
      _ ← unwrapped (record_histogram "a_histogram" (2 ^ i));
      _ ← unwrapped (record_histogram labeled_h (2 ^ i));
      record_powers labeled_h powers
  end.

Definition update_metrics : calls () :=
  s_name ← get_prop "kong" "service_name";
  r_name ← get_prop "kong" "route_name";
  let labeled_c := "a_labeled_counter_s_id=" +:+ s_name +:+ "_r_id=" +:+ r_name in
  let labeled_g := "a_labeled_gauge_s_id=" +:+ s_name +:+ "_r_id=" +:+ r_name in
  let labeled_h := "a_labeled_histogram_s_id=" +:+ s_name +:+ "_r_id=" +:+ r_name in
  _ ← unwrapped (increment_counter "a_counter");
  _ ← unwrapped (increment_counter labeled_c);
  _ ← unwrapped (record_gauge "a_gauge" 1);
  _ ← unwrapped (record_gauge labeled_g 1);
  record_powers labeled_h (seqZ 0 18).

Definition dispatch_headers (config : TestConfig) : list (string * string) :=
  [(":method", default "GET" (config_map config !! "method"));
   (":path", default "/" (config_map config !! "path"));
   (":authority", default "127.0.0.1:15555" (config_map config !! "host"))]
  ++ match config_map config !! "headers" with
     | Some vals => omap (split_once ":"%char) (split_on "|"%char vals)
     | None => []
     end.

Definition send_http_dispatch (config : TestConfig) : calls Action :=
  let timeout := default 0%Z (val ← config_map config !! "timeout"; parse_duration val) in
  r ← call (λ h, dispatch_http_call h (default "127.0.0.1:15555" (config_map config !! "host"))
                   (dispatch_headers config) (config_map config !! "body") [] timeout);
  _ ← unwrap "dispatch error" r;
  mret Pause.

(** ** The routines (routines.rs) *)

Definition add_request_header : calls () :=
  header ← ask (λ h, get_http_request_header h "X-PW-Add-Header");
  match header with
  | Some header =>
      nv ← unwrap_option "called `Option::unwrap()` on a `None` value" (split_once "="%char header);
      _ ← tell (λ h, add_http_request_header h nv.1 nv.2);
      tell (λ h, set_http_request_header h "X-PW-Add-Header" None)
  | None => mret ()
  end.

Definition add_response_header (ctx : TestHttp) : calls () :=
  header ← ask (λ h, get_http_request_header h "X-PW-Add-Resp-Header");
  _ ← match header with
      | Some header =>
          nv ← unwrap_option "called `Option::unwrap()` on a `None` value"
                 (split_once "="%char header);
          tell (λ h, add_response_header_call h nv.1 nv.2)
      | None => mret ()
      end;
  match config ← http_config ctx; config_map config !! "add_resp_header" with
  | Some value => tell (λ h, add_response_header_call h "X-PW-Resp-Header-From-Config" value)
  | None => mret ()
  end.

(** ** Running a test (test_http.rs) *)

(** The test that the header names; an unknown name does nothing. *)
Definition run_test (ctx : TestHttp) (opt_input : option string) (test : string) : calls Action :=
  if bool_decide (test = "trap") then panic "trap msg"
  else if bool_decide (test = "local_response") then
    _ ← send_plain_response 200 opt_input; mret Continue
  else if bool_decide (test = "get_kong_property") then
    value ← get_prop "kong" (default "" opt_input);
    _ ← send_plain_response 200 (Some value);
    mret Continue
  else if bool_decide (test = "set_kong_property") then
    match opt_input with
    | Some input =>
        let kv := match split_once "="%char input with
                  | Some (key, value) => (key, Some value)
                  | None => (input, None)
                  end in
        _ ← set_prop "kong" kv.1 kv.2;
        mret Continue
    | None => mret Continue
    end
  else if bool_decide (test = "echo_http_dispatch") then
    config ← unwrap "invalid configuration" (TestConfig_from_str (default "" opt_input));
    send_http_dispatch config
  else if bool_decide (test = "update_metrics") then _ ← update_metrics; mret Continue
  else if bool_decide (test = "dump_config") then
    _ ← send_plain_response 200 (TestConfig_to_string <$> http_config ctx);
    mret Continue
  else mret Continue.

Definition in_request_phase (phase : TestPhase) : bool :=
  match phase with RequestHeaders | RequestBody => true | _ => false end.

(** The headers that select the test are taken out of the request. *)
Definition consume_headers : calls () :=
  _ ← tell (λ h, set_http_request_header h "X-PW-Input" None);
  _ ← tell (λ h, set_http_request_header h "X-PW-Test" None);
  _ ← tell (λ h, set_http_request_header h "X-PW-Phase" None);
  add_request_header.

Definition run_selected (ctx : TestHttp) (cur_phase : TestPhase) (opt_input opt_test : option string)
    : calls Action :=
  _ ← (if in_request_phase cur_phase then consume_headers else mret ());
  _ ← add_response_header ctx;
  match opt_test with
  | Some test => run_test ctx opt_input test
  | None => mret Continue
  end.

Definition run_tests (ctx : TestHttp) (cur_phase : TestPhase) : calls Action :=
  opt_input ← ask (λ h, get_http_request_header h "X-PW-Input");
  opt_test ← ask (λ h, get_http_request_header h "X-PW-Test");
  phase ← ask (λ h, get_http_request_header h "X-PW-Phase");
  on_phase ← match phase with
             | None => mret RequestHeaders
             | Some s => unwrap_option ("unknown phase: " +:+ s) (TestPhase_from_str s)
             end;
  if bool_decide (cur_phase = on_phase) then run_selected ctx cur_phase opt_input opt_test
  else mret Continue.

(** ** The contexts (filter.rs) *)

Record TestRoot : Type := { root_config : option TestConfig }.

Definition on_vm_start : bool := true.

(** [on_configure]; the period must be a [u64]. *)
Definition TestRoot_on_configure (root : TestRoot) : calls (bool * TestRoot) :=
  bytes ← ask get_plugin_configuration;
  match bytes with
  | Some bytes =>
      if negb (valid_utf8 bytes) then panic "called `Result::unwrap()` on an `Err` value"
      else
        let parsed := match TestConfig_from_str bytes with Ok c => Some c | Err _ => None end in
        config ← unwrap_option "called `Option::unwrap()` on a `None` value" parsed;
        _ ← match config_map config !! "tick_every" with
            | Some every =>
                ms ← unwrap_option "bad tick_every" (parse_uint 64 every);
                tell (λ h, set_tick_period h (from_millis ms))
            | None => mret ()
            end;
        mret (true, {| root_config := parsed |})
  | None => mret (true, root)
  end.

Definition TestRoot_create_http_context (root : TestRoot) : option TestHttp :=
  let config :=
    match root_config root with
    | Some config => Some {| config_map := config_map config |}
    | None => None
    end in
  Some {| http_config := config |}.

Definition on_http_call_response : calls () :=
  bytes ← ask get_http_call_response_body;
  _ ← match bytes with
      | Some body =>
          if negb (valid_utf8 body) then panic "called `Result::unwrap()` on an `Err` value"
          else
            header ← ask (λ h, get_http_request_header h "X-PW-Dispatch-Echo");
            match header with
            | Some "on" | Some "true" | Some "T" | Some "1" =>
                send_plain_response 200 (Some (trim body))
            | _ => mret ()
            end
      | None => mret ()
      end;
  tell resume_http_request.

Definition TestHttp_on_http_request_headers (ctx : TestHttp) : calls Action :=
  run_tests ctx RequestHeaders.
Definition TestHttp_on_http_request_body (ctx : TestHttp) : calls Action :=
  run_tests ctx RequestBody.
Definition TestHttp_on_http_response_headers (ctx : TestHttp) : calls Action :=
  run_tests ctx ResponseHeaders.
Definition TestHttp_on_http_response_body (ctx : TestHttp) : calls Action :=
  run_tests ctx ResponseBody.
Definition TestHttp_on_log (ctx : TestHttp) : calls () :=
  _ ← run_tests ctx OnLog; mret ().
End filter.

(** ** Lemmas: configurations *)

(** What parsing can produce: keys without [=], and entries without white
    space. *)
Definition printable (cfg : TestConfig) : Prop :=
  map_Forall (λ k v, has_char "=" k = false ∧ no_ws (show_pair (k, v)) = true) (config_map cfg).

Lemma show_pair_word k v : no_ws (show_pair (k, v)) = true → is_word (show_pair (k, v)).
Proof. split; [|done]. by destruct k. Qed.

Lemma parsed_printable s cfg : TestConfig_from_str s = Ok cfg → printable cfg.
Proof.
  intros [= <-] k v Hkv. simpl in Hkv. apply elem_of_collect_map in Hkv.
  apply list_elem_of_omap in Hkv as (w & Hw & [-> Hk]%split_once_spec).
  pose proof (split_whitespace_words s) as Hs. rewrite Forall_forall in Hs.
  by destruct (Hs _ Hw).
Qed.

Lemma sorted_values_perm `{O : MapOrder, !MapOrderLaws O} cfg :
  merge_sort string_le (show_pair <$> map_entries (config_map cfg))
    ≡ₚ show_pair <$> map_to_list (config_map cfg).
Proof. by rewrite merge_sort_Permutation, map_entries_perm. Qed.

Lemma split_once_show_pair kv :
  has_char "=" kv.1 = false → split_once "="%char (show_pair kv) = Some kv.
Proof. intros H. destruct kv as [k v]. by apply split_once_spec. Qed.

Lemma omap_show_pair l :
  Forall (λ kv, has_char "=" kv.1 = false) l → omap (split_once "="%char) (show_pair <$> l) = l.
Proof.
  induction 1 as [|kv l Hk _ IH]; [done|]. rewrite fmap_cons. simpl.
  rewrite (split_once_show_pair kv Hk). f_equal. exact IH.
Qed.

Lemma parse_printed `{O : MapOrder, !MapOrderLaws O} cfg :
  printable cfg → TestConfig_from_str (TestConfig_to_string cfg) = Ok cfg.
Proof.
  intros Hp. unfold TestConfig_from_str, TestConfig_to_string. cbn zeta.
  assert (Forall (λ kv, has_char "=" kv.1 = false ∧ no_ws (show_pair kv) = true)
    (map_to_list (config_map cfg))) as Hl.
  { apply Forall_forall. intros [k v] Hkv%elem_of_map_to_list. by apply Hp. }
  rewrite split_whitespace_join.
  - destruct cfg as [m]. do 2 f_equal. apply collect_map_entries. simpl in *.
    rewrite (sorted_values_perm {| config_map := m |}). cbn [config_map].
    rewrite omap_show_pair; [done|]. eapply Forall_impl; [exact Hl|]. by intros ? [].
  - rewrite sorted_values_perm. apply Forall_fmap. eapply Forall_impl; [exact Hl|].
    intros [k v] [_ ?]. by apply show_pair_word.
Qed.

(** ** Lemmas: calls *)

Section calls_lemmas.
Context `{FilterHost, MapOrder} (parse_duration : string → option duration).

(** The metrics a call adds to those it finds. *)
Definition extends {A} (m : calls A) : Prop :=
  ∀ s a s', m s = Done (a, s') → s.2 ⊆ s'.2.

Lemma extends_bind {A B} (m : calls A) (f : A → calls B) :
  extends m → (∀ a, extends (f a)) → extends (m ≫= f).
Proof.
  intros Hm Hf s b s' Hs. unfold mbind, calls_bind in Hs.
  destruct (m s) as [[a s1]|] eqn:E; simpl in Hs; [|done].
  etrans; [by eapply Hm|by eapply Hf].
Qed.

Lemma extends_same {A} (m : calls A) :
  (∀ s a s', m s = Done (a, s') → s'.2 = s.2) → extends m.
Proof. intros Hm s a s' Hs. by rewrite (Hm _ _ _ Hs). Qed.

Lemma extends_ret {A} (a : A) : extends (mret a).
Proof. apply extends_same. by intros s b s' [= <- <-]. Qed.
Lemma extends_ask {A} (f : Host → A) : extends (ask f).
Proof. apply extends_same. by intros s b s' [= <- <-]. Qed.
Lemma extends_tell f : extends (tell f).
Proof. apply extends_same. by intros s b s' [= <- <-]. Qed.
Lemma extends_call {A} (f : Host → A * Host) : extends (call f).
Proof. apply extends_same. by intros s b s' [= <- <-]. Qed.
Lemma extends_panic {A} msg : extends (panic (A := A) msg).
Proof. by intros s a s'. Qed.

Lemma extends_unwrap {E A} msg (r : result E A) : extends (unwrap msg r).
Proof. destruct r; [apply extends_ret|apply extends_panic]. Qed.
Lemma extends_unwrap_option {A} msg (o : option A) : extends (unwrap_option msg o).
Proof. destruct o; [apply extends_ret|apply extends_panic]. Qed.

Lemma extends_get_metric_id t name : extends (get_metric_id t name).
Proof.
  intros s r s' Hs. unfold get_metric_id in Hs. destruct (s.2 !! name) eqn:E; [by simplify_eq|].
  destruct (define_metric s.1 t name) as [[id|msg] h]; simplify_eq/=; [|done].
  by apply insert_subseteq.
Qed.
End calls_lemmas.

Create HintDb calls.
#[export] Hint Resolve extends_ret extends_ask extends_tell extends_call extends_panic
  extends_unwrap extends_unwrap_option extends_get_metric_id : calls.
Ltac extends :=
  repeat first
    [ solve [eauto with calls]
    | apply extends_bind; [|intros]
    | match goal with |- context [match ?x with _ => _ end] => destruct x end ].

Section metrics_lemmas.
Context `{FilterHost, MapOrder} (parse_duration : string → option duration).

Lemma extends_record_powers labeled_h powers : extends (record_powers labeled_h powers).
Proof.
  induction powers as [|i powers IH]; cbn [record_powers];
    unfold unwrapped, record_histogram; extends.
Qed.

Lemma extends_update_metrics : extends update_metrics.
Proof.
  unfold update_metrics, unwrapped, increment_counter, record_gauge, get_prop.
  pose proof extends_record_powers. extends.
Qed.

Lemma extends_run_tests ctx phase : extends (run_tests parse_duration ctx phase).
Proof.
  pose proof extends_update_metrics.
  unfold run_tests, run_selected, run_test, consume_headers, add_request_header, add_response_header,
    send_http_dispatch, send_plain_response, get_prop, set_prop.
  extends.
Qed.

(** Only a dispatch pauses. *)
Definition continues (m : calls Action) : Prop :=
  ∀ s a s', m s = Done (a, s') → a = Continue.

Lemma continues_ret : continues (mret Continue).
Proof. by intros s a s' [= <- _]. Qed.

Lemma continues_bind {A} (m : calls A) (f : A → calls Action) :
  (∀ a, continues (f a)) → continues (m ≫= f).
Proof.
  intros Hf s a s' Hs. unfold mbind, calls_bind in Hs.
  destruct (m s) as [[b s1]|]; simpl in Hs; [|done]. by eapply Hf.
Qed.

Lemma run_test_pause ctx input test s s' :
  run_test parse_duration ctx input test s = Done (Pause, s') → test = "echo_http_dispatch".
Proof.
  intros Hs. destruct (decide (test = "echo_http_dispatch")) as [|Hne]; [done|].
  assert (continues (run_test parse_duration ctx input test)) as Hc; [|by apply Hc in Hs].
  unfold run_test. rewrite (bool_decide_eq_false_2 _ Hne).
  repeat case_bool_decide; try (destruct input); repeat (apply continues_bind; intros);
    first [apply continues_ret|by intros ? ? ?].
Qed.

Lemma run_selected_pause ctx phase input test s s' :
  run_selected parse_duration ctx phase input test s = Done (Pause, s') →
  test = Some "echo_http_dispatch".
Proof.
  unfold run_selected, mbind, calls_bind. intros Hs.
  destruct (_ s) as [[? s1]|]; simpl in Hs; [|done].
  destruct (add_response_header ctx s1) as [[? s2]|]; simpl in Hs; [|done].
  destruct test as [test|]; [|done]. by apply run_test_pause in Hs as ->.
Qed.
End metrics_lemmas.

(** ** Properties *)

(** C16: a configuration survives being printed.  Printing does not depend on
    the order in which the hash map yields its entries; whatever was parsed is
    parsed back from its printed form; and, for any configuration, this holds
    exactly when its keys contain no [=] and no entry contains white space. *)
Theorem TestConfig_roundtrip (O O' : MapOrder) :
  MapOrderLaws O → MapOrderLaws O' → ∀ cfg,
  @TestConfig_to_string O cfg = @TestConfig_to_string O' cfg ∧
  (TestConfig_from_str (@TestConfig_to_string O cfg) = Ok cfg ↔ printable cfg) ∧
  (∀ s, TestConfig_from_str s = Ok cfg → TestConfig_from_str (@TestConfig_to_string O cfg) = Ok cfg).
Proof.
  intros HO HO' cfg. split; [|split].
  - apply (f_equal (RustStr.join " ")), (Sorted_unique string_le);
      [by apply Sorted_merge_sort; apply _..|]. by rewrite !sorted_values_perm.
  - split; [apply parsed_printable|]. by apply parse_printed.
  - intros s Hs. apply parse_printed. by eapply parsed_printable.
Qed.

Lemma TestConfig_roundtrip_witness :
  ∃ cfg, TestConfig_from_str " b=2 junk a=x=y b=3 " = Ok cfg ∧
    @TestConfig_to_string sorted_map_order cfg = "a=x=y b=3" ∧
    TestConfig_from_str "a=x=y b=3" = Ok cfg.
Proof.
  eexists. split; [reflexivity|]. split; [vm_compute; reflexivity|].
  destruct (TestConfig_roundtrip sorted_map_order sorted_map_order sorted_map_order_laws
    sorted_map_order_laws {| config_map := collect_map [("b", "2"); ("a", "x=y"); ("b", "3")] |})
    as (_ & _ & Hr).
  exact (Hr " b=2 junk a=x=y b=3 " eq_refl).
Defined.

Section properties.
Context `{FilterHost, MapOrder} (parse_duration : string → option duration).

(** A metric is defined once.  A name that got an identifier keeps it through
    every later run of tests, and is never defined again: asking for it, under
    any type, answers the identifier and does not call the host.  The type of
    a later use is therefore not checked. *)
Theorem metric_defined_once t name s id s1 :
  get_metric_id t name s = Done (Ok id, s1) →
  s1.2 !! name = Some id ∧
  ∀ ctx phase action h s2, run_tests parse_duration ctx phase (h, s1.2) = Done (action, s2) →
    ∀ t', get_metric_id t' name s2 = Done (Ok id, s2).
Proof.
  intros Hs. assert (s1.2 !! name = Some id) as Hid.
  { unfold get_metric_id in Hs. destruct (s.2 !! name) eqn:E; [by simplify_eq|].
    destruct (define_metric s.1 t name) as [[id'|msg] h]; simplify_eq/=. apply lookup_insert_eq. }
  split; [done|]. intros ctx phase action h s2 Hr t'.
  apply extends_run_tests in Hr. simpl in Hr. unfold get_metric_id.
  by rewrite (lookup_weaken _ _ _ _ Hid Hr).
Qed.

(** The phase that the request selects. *)
Definition selected_phase (h : Host) : option TestPhase :=
  match get_http_request_header h "X-PW-Phase" with
  | None => Some RequestHeaders
  | Some s => TestPhase_from_str s
  end.

(** Tests run in their phase only.  In another phase than the selected one the
    filter changes nothing and continues; a phase that does not exist panics;
    and the request is paused only by a dispatch in the selected phase. *)
Theorem tests_run_in_their_phase ctx phase s :
  match selected_phase s.1 with
  | None => ∃ msg, run_tests parse_duration ctx phase s = Panicked msg
  | Some selected =>
      (phase ≠ selected → run_tests parse_duration ctx phase s = Done (Continue, s)) ∧
      (∀ s', run_tests parse_duration ctx phase s = Done (Pause, s') →
         phase = selected ∧
         get_http_request_header s.1 "X-PW-Test" = Some "echo_http_dispatch")
  end.
Proof.
  unfold selected_phase, run_tests, ask, mbind, calls_bind. cbn [mbind outcome_bind fst snd].
  destruct (get_http_request_header s.1 "X-PW-Phase") as [x|];
    [destruct (TestPhase_from_str x) as [sel|]; [|by eexists]|]; cbn;
    case_bool_decide; (split; [done|]); intros s' Hs; try done.
  - split; [done|]. by apply run_selected_pause in Hs.
  - split; [done|]. by apply run_selected_pause in Hs.
Qed.
End properties.

(** ** A host that records what it is told *)

Inductive host_event : Type :=
| SetRequestHeader (name : string) (value : option string)
| AddRequestHeader (name value : string)
| AddResponseHeader (name value : string)
| SendResponse (status : Z) (body : option string)
| SetProperty (path : list string) (value : option string)
| DefineMetric (name : string)
| UseMetric (id value : Z)
| Dispatch (upstream : string)
| Resume
| SetTick (period : duration).

Record LogHost : Type := {
  log_configuration : option string;
  log_headers : gmap string string;
  log_events : list host_event;
}.

Definition record (e : host_event) (h : LogHost) : LogHost := {|
  log_configuration := log_configuration h; log_headers := log_headers h;
  log_events := log_events h ++ [e] |}.
Definition with_headers (m : gmap string string) (h : LogHost) : LogHost := {|
  log_configuration := log_configuration h; log_headers := m; log_events := log_events h |}.

Definition log_host : FilterHost := {|
  Host := LogHost;
  get_plugin_configuration := log_configuration;
  set_tick_period h d := record (SetTick d) h;
  get_http_request_header h n := log_headers h !! n;
  set_http_request_header h n v :=
    record (SetRequestHeader n v) (with_headers (partial_alter (λ _, v) n (log_headers h)) h);
  add_http_request_header h n v :=
    record (AddRequestHeader n v) (with_headers (<[n := v]> (log_headers h)) h);
  add_response_header_call h n v := record (AddResponseHeader n v) h;
  send_http_response h status _ body := record (SendResponse status body) h;
  get_property _ _ := None;
  set_property h path v := record (SetProperty path v) h;
  define_metric h _ n := (Ok (Z.of_nat (length (log_events h))), record (DefineMetric n) h);
  increment_metric h id n := (Ok (), record (UseMetric id n) h);
  record_metric h id n := (Ok (), record (UseMetric id n) h);
  dispatch_http_call h up _ _ _ _ := (Ok 1%Z, record (Dispatch up) h);
  get_http_call_response_body _ := Some " body ";
  resume_http_request h := record Resume h;
|}.

#[local] Existing Instance log_host.
#[local] Existing Instance sorted_map_order.

Definition demo_host (l : list (string * string)) : LogHost := {|
  log_configuration := Some "tick_every=50 add_resp_header=yes"; log_headers := list_to_map l;
  log_events := [] |}.

(** What a run of tests tells the host. *)
Definition told {A} (r : outcome (A * (@Host log_host * Metrics))) : outcome (A * list host_event) :=
  match r with
  | Done (a, (h, _)) => Done (a, log_events h)
  | Panicked msg => Panicked msg
  end.

Definition demo_ctx : TestHttp :=
  {| http_config := Some {| config_map := {["add_resp_header" := "yes"]} |} |}.

Example dump_config_in_its_phase :
  told (run_tests (λ _, None) demo_ctx ResponseHeaders
    (demo_host [("X-PW-Phase", "response_headers"); ("X-PW-Test", "dump_config")], ∅))
  = Done (Continue, [AddResponseHeader "X-PW-Resp-Header-From-Config" "yes";
                     SendResponse 200 (Some "add_resp_header=yes")]).
Proof. vm_compute. reflexivity. Qed.

Example dispatch_pauses :
  told (run_tests (λ _, None) {| http_config := None |} RequestHeaders
    (demo_host [("X-PW-Test", "echo_http_dispatch"); ("X-PW-Input", "host=h:1 timeout=5s")], ∅))
  = Done (Pause, [SetRequestHeader "X-PW-Input" None; SetRequestHeader "X-PW-Test" None;
                  SetRequestHeader "X-PW-Phase" None; Dispatch "h:1"]).
Proof. vm_compute. reflexivity. Qed.

Example configured_tick :
  told (TestRoot_on_configure {| root_config := None |} (demo_host [], ∅))
  = Done ((true, {| root_config := Some {| config_map :=
             {["tick_every" := "50"; "add_resp_header" := "yes"]} |} |}), [SetTick 50000000]).
Proof. vm_compute. reflexivity. Qed.
