(* ===== verification/Conformance.v ===== *)
(** * The unit tests of the crate, on the model

    The [tests] modules of the Rust files, one definition per test under its
    own name, as programs over the modelled functions: a failed assertion, a
    failed [expect] and a panic all end a test.  Tests that read the clock
    take the readings as arguments, and the tests of bearer tokens the
    library's [encode]. *)

From S2P Require Export Wire Bootstrap.

#[local] Open Scope string_scope.
#[local] Open Scope list_scope.

(** A test passes when it runs to its end. *)
Abbreviation test := (option ()) (only parsing).
Abbreviation passes t := (t = Some ()) (only parsing).

Definition assert (b : bool) : test := if b then Some () else None.
Definition assert_eq {A} `{EqDecision A} (a b : A) : test := assert (bool_decide (a = b)).
Definition expect {E A} (r : result E A) : option A :=
  match r with Ok a => Some a | Err _ => None end.
Definition expect_err {E A} (r : result E A) : option E :=
  match r with Ok _ => None | Err e => Some e end.
Definition unpanicked {A} (o : outcome A) : option A :=
  match o with Done a => Some a | Panicked _ => None end.

(** [str::contains] of a string. *)
Fixpoint contains (s sub : string) : bool :=
  starts_with s sub || match s with EmptyString => false | String _ s => contains s sub end.

#[local] Existing Instance list_header_map.
#[local] Existing Instance tree_json.
#[local] Existing Instance fnv_hasher.

(** ** balancer.rs *)
Module balancer.
Definition sample_targets : list UpstreamTarget := [
  {| target_id := "a"; address := "10.0.0.1:8080"; active_connections := 4; weight := 1 |};
  {| target_id := "b"; address := "10.0.0.2:8080"; active_connections := 1; weight := 3 |}
].

Definition picks_weighted_round_robin (p : profile) : test :=
  let targets := sample_targets in
  t0 ← unpanicked (select_target p RoundRobin targets None 0); t0 ← t0;
  t1 ← unpanicked (select_target p RoundRobin targets None 1); t1 ← t1;
  t3 ← unpanicked (select_target p RoundRobin targets None 3); t3 ← t3;
  _ ← assert_eq (target_id t0) "a";
  _ ← assert_eq (target_id t1) "b";
  assert_eq (target_id t3) "b".

Definition picks_weighted_least_connections (p : profile) : test :=
  let targets := sample_targets in
  target ← unpanicked (select_target p LeastConnections targets None 0); target ← target;
  assert_eq (target_id target) "b".

Definition hash_requires_key (p : profile) : test :=
  let targets := sample_targets in
  target ← unpanicked (select_target p StrategyHash targets None 0);
  assert (bool_decide (target = None)).
End balancer.

(** ** config.rs *)
Module config.
Definition rejects_unknown_upstream_reference : test :=
  let cfg := {|
    server := ServerConfig_default;
    routes := [{| route_name := "r1"; path_prefix := "/"; route_upstream := "missing";
                  protocols := []; transform := TransformConfig_default;
                  traffic_split := TrafficSplitConfig_default;
                  fault_injection := FaultInjectionConfig_default |}];
    upstreams := [];
    security := SecurityConfig_default;
    rate_limit := RateLimitConfig_default;
    plugins := [];
  |} in
  err ← expect_err (validate cfg);
  assert (contains err "unknown upstream").
End config.

(** ** main.rs *)
Module main.
(** A map with a content type, inserted into an empty one. *)
Definition with_header (headers : HeaderMap) (name value : string) : option HeaderMap :=
  n ← name_from_bytes name; v ← value_from_str value; Some (hm_insert headers n v).

Definition detects_grpc_protocol_from_http2_content_type : test :=
  headers ← with_header hm_new "content-type" "application/grpc+proto";
  assert_eq (request_protocol HTTP_2 headers) Grpc.

Definition keeps_http2_protocol_without_grpc_content_type : test :=
  assert_eq (request_protocol HTTP_2 hm_new) Http2.

Definition detects_grpc_protocol_from_base_media_type : test :=
  headers ← with_header hm_new "content-type" "application/grpc";
  assert_eq (request_protocol HTTP_2 headers) Grpc.

Definition keeps_http1_protocol_even_with_grpc_content_type : test :=
  headers ← with_header hm_new "content-type" "application/grpc";
  assert_eq (request_protocol HTTP_11 headers) Http1.

Definition detects_grpc_protocol_with_content_type_parameters : test :=
  headers ← with_header hm_new "content-type" "application/grpc; charset=utf-8";
  assert_eq (request_protocol HTTP_2 headers) Grpc.

Definition detects_grpc_protocol_case_insensitively : test :=
  headers ← with_header hm_new "content-type" "Application/GRPC";
  assert_eq (request_protocol HTTP_2 headers) Grpc.
End main.

(** ** observability.rs *)
Module observability.
Definition renders_prometheus_metrics : test :=
  let metrics := inc_error (inc_request Metrics_default) in
  let rendered := render_prometheus metrics in
  _ ← assert (contains rendered "gateway_requests_total 1");
  assert (contains rendered "gateway_errors_total 1").
End observability.

(** ** router.rs *)
Module router.
Definition matches_longest_path_prefix : test :=
  let routes := [
    {| route_name := "api"; path_prefix := "/api"; route_upstream := "svc-a";
       protocols := [Http1]; transform := TransformConfig_default;
       traffic_split := TrafficSplitConfig_default;
       fault_injection := FaultInjectionConfig_default |};
    {| route_name := "api-v1"; path_prefix := "/api/v1"; route_upstream := "svc-b";
       protocols := [Http1; Http2]; transform := TransformConfig_default;
       traffic_split := TrafficSplitConfig_default;
       fault_injection := FaultInjectionConfig_default |}
  ] in
  route ← match_route routes "/api/v1/users" Http1;
  assert_eq (route_name route) "api-v1".

Definition enforces_protocol : test :=
  let routes := [
    {| route_name := "grpc"; path_prefix := "/"; route_upstream := "svc";
       protocols := [Grpc]; transform := TransformConfig_default;
       traffic_split := TrafficSplitConfig_default;
       fault_injection := FaultInjectionConfig_default |}
  ] in
  assert (match match_route routes "/" Http2 with None => true | Some _ => false end).

Definition traffic_split_defaults_to_disabled_canary : test :=
  let split := TrafficSplitConfig_default in
  _ ← assert (bool_decide (canary_upstream split = None));
  assert_eq (canary_percentage split) 0%Z.
End router.

(** ** wasm_abi.rs *)
Module wasm_abi.
Definition abi_version_is_set : test :=
  _ ← assert_eq ABI_VERSION 1%Z;
  assert_eq PLUGIN_CONTRACT_VERSION 1%Z.

Definition serializes_wasm_call `{JsonEscape} : test :=
  let call := WasmCall_new Access "jwt_auth" [ReadHeaders] [1; 2; 3]%Z in
  let json := to_string (ser WasmCall_codec call) in
  _ ← assert (contains json "jwt_auth");
  assert (contains json "plugin_contract_version").
End wasm_abi.

(** ** plugin.rs *)
Module plugin.
Definition DenyAccessPlugin : GatewayPlugin := {|
  gp_name := "deny";
  gp_contract_version := PLUGIN_CONTRACT_VERSION;
  gp_supports_phase phase := bool_decide (phase = Access);
  gp_init := Ok ();
  gp_execute _ _ := {| allowed := false; reason := Some "blocked" |};
  gp_teardown := Ok ();
|}.

(** The recorder allows every call; what it records is never read. *)
Definition PhaseRecorderPlugin (name : string) (phases : list WasmPhase) : GatewayPlugin := {|
  gp_name := name;
  gp_contract_version := PLUGIN_CONTRACT_VERSION;
  gp_supports_phase phase := bool_decide (phase ∈ phases);
  gp_init := Ok ();
  gp_execute _ _ := {| allowed := true; reason := None |};
  gp_teardown := Ok ();
|}.

Definition short_circuits_on_denied_plugin : test :=
  manager ← expect (register PluginManager_new DenyAccessPlugin).1;
  let result := run_phase manager Access {| plugin_route := "users"; plugin_path := "/users" |} in
  _ ← assert (negb (allowed result));
  assert_eq (reason result) (Some "blocked").

Definition executes_plugins_in_phase_order_matrix : test :=
  let recorder := PhaseRecorderPlugin "recorder" [Access; HeaderFilter; BodyFilter; Log] in
  manager ← expect (register PluginManager_new recorder).1;
  let result :=
    run_request_pipeline manager {| plugin_route := "users"; plugin_path := "/users" |} in
  assert (allowed result).

(** [fs::write] makes the stub's path exist. *)
Definition validates_wasm_plugin_schema_and_runtime_contract `{ContextJson}
    (temp_dir : string) (path_exists : string → bool) : test :=
  let wasm_stub := temp_dir +:+ "/gateway-core-rust-test-plugin.wasm" in
  let path_exists path := bool_decide (path = wasm_stub) || path_exists path in
  let config := {|
    plugin_name := "wasm-auth"; plugin_module := "plugins.wasm_auth";
    wasm_path := Some wasm_stub; plugin_runtime := "wasm";
    contract_version := PLUGIN_CONTRACT_VERSION; plugin_phases := ["access"; "log"];
    plugin_capabilities := ["read_headers"; "emit_logs"] |} in
  let manager := (from_config path_exists [config]).1 in
  assert (is_ok manager).

Definition rejects_invalid_capability_name : test :=
  let invalid := parse_capabilities ["unknown_capability"] in
  assert (negb (is_ok invalid)).

Definition wasm_capabilities_align_with_expected_matrix : test :=
  let expected := [ReadHeaders; WriteHeaders; ReadBody; WriteBody; RewritePath; EmitLogs] in
  assert_eq (length expected) 6.
End plugin.

(** ** resilience.rs *)
Module resilience.
Definition target_keys_are_stable : test := assert_eq (target_key "users" "a") "users:a".

Definition retry_policy_is_idempotent_aware : test :=
  _ ← assert (should_retry_method GET true false);
  _ ← assert (negb (should_retry_method PUT true false));
  _ ← assert (should_retry_method PUT true true);
  _ ← assert (negb (should_retry_method POST true false));
  assert (should_retry_method POST false false).

(** [t0] is read by the failure, the others by [is_available]; the thread
    sleeps between [t1] and [t2]. *)
Definition circuit_opens_and_recovers (t0 t1 t2 t3 : instant) : test :=
  let registry := RuntimeRegistry_new
    {| passive_failure_threshold := 1; passive_success_threshold := 1 |}
    {| breaker_failure_threshold := 1; open_ms := 1; half_open_max_requests := 1 |} in
  let key := "svc:a" in
  let registry := record_failure registry key t0 in
  let '(available, registry) := is_available registry key t1 in
  _ ← assert (negb available);
  let '(available, registry) := is_available registry key t2 in
  _ ← assert available;
  let registry := record_success registry key in
  let '(available, _) := is_available registry key t3 in
  assert available.
End resilience.

(** ** rate_limit.rs *)
Module rate_limit.
(** A check that must be answered with [expected]. *)
Definition assert_check (p : profile) (limiter : RateLimiter) (ctx : RateLimitContext)
    (now : instant) (expected : bool) : option RateLimiter :=
  r ← unpanicked (check_with_context p (limiter_config limiter) ctx now (limiter_states limiter));
  _ ← assert_eq r.1 expected;
  Some {| limiter_config := limiter_config limiter; limiter_states := r.2 |}.

Definition token_bucket_enforces_capacity (p : profile) (t0 t1 t2 : instant) : test :=
  let limiter := RateLimiter_new {|
    rl_enabled := true; rl_policy := TokenBucket; capacity := 2; refill_per_second := 1;
    fixed_window_seconds := 60; sliding_window_seconds := 60; scoped_limits := [] |} in
  limiter ← assert_check p limiter (check_context "client-a") t0 true;
  limiter ← assert_check p limiter (check_context "client-a") t1 true;
  _ ← assert_check p limiter (check_context "client-a") t2 false;
  Some ().

(** The thread sleeps between [t1] and [t2]. *)
Definition fixed_window_resets_after_window (p : profile) (t0 t1 t2 : instant) : test :=
  let limiter := RateLimiter_new {|
    rl_enabled := true; rl_policy := FixedWindow; capacity := 100; refill_per_second := 100;
    fixed_window_seconds := 1; sliding_window_seconds := 60;
    scoped_limits := [{| rule_scope := ScopeClient; rule_limit := 1; rule_quota := None;
                         rule_window_seconds := 1; rule_policy := Some FixedWindow |}] |} in
  let ctx := {| rl_route := "r"; rl_service := "s"; rl_consumer := None; rl_client := "a" |} in
  limiter ← assert_check p limiter ctx t0 true;
  limiter ← assert_check p limiter ctx t1 false;
  _ ← assert_check p limiter ctx t2 true;
  Some ().

Definition scoped_consumer_quota_is_enforced (p : profile) (t0 t1 t2 : instant) : test :=
  let limiter := RateLimiter_new {|
    rl_enabled := true; rl_policy := SlidingWindow; capacity := 100; refill_per_second := 100;
    fixed_window_seconds := 60; sliding_window_seconds := 60;
    scoped_limits := [{| rule_scope := ScopeConsumer; rule_limit := 10; rule_quota := Some 2%Z;
                         rule_window_seconds := 60; rule_policy := Some SlidingWindow |}] |} in
  let ctx := {| rl_route := "r"; rl_service := "s"; rl_consumer := Some "user-1";
                rl_client := "10.0.0.1" |} in
  limiter ← assert_check p limiter ctx t0 true;
  limiter ← assert_check p limiter ctx t1 true;
  _ ← assert_check p limiter ctx t2 false;
  Some ().

Definition scoped_route_and_service_limits_are_combined (p : profile) (t0 t1 t2 : instant) : test :=
  let limiter := RateLimiter_new {|
    rl_enabled := true; rl_policy := SlidingWindow; capacity := 100; refill_per_second := 100;
    fixed_window_seconds := 60; sliding_window_seconds := 60;
    scoped_limits := [
      {| rule_scope := ScopeRoute; rule_limit := 2; rule_quota := None;
         rule_window_seconds := 60; rule_policy := Some SlidingWindow |};
      {| rule_scope := ScopeService; rule_limit := 3; rule_quota := None;
         rule_window_seconds := 60; rule_policy := Some SlidingWindow |}] |} in
  let ctx := {| rl_route := "users"; rl_service := "svc-users"; rl_consumer := None;
                rl_client := "10.0.0.1" |} in
  limiter ← assert_check p limiter ctx t0 true;
  limiter ← assert_check p limiter ctx t1 true;
  _ ← assert_check p limiter ctx t2 false;
  Some ().
End rate_limit.

(** ** security.rs *)
Module security.
Definition denies_disabled_auth_mode : test :=
  let cfg := {|
    enabled_modes := [Jwt]; rbac := []; group_rbac := []; jwt := JwtConfig_default;
    oauth2 := OAuth2Config_default; openid_connect := OpenIdConnectConfig_default;
    mtls := MtlsConfig_default; subject_rbac := [] |} in
  let auth := {| ctx_mode := OAuth2; ctx_roles := ["reader"]; ctx_groups := [];
                 ctx_subject := None; ctx_route_name := "users" |} in
  assert (negb (authorize cfg auth)).

Definition enforces_route_rbac : test :=
  let cfg := {|
    enabled_modes := [Jwt]; rbac := [{| rb_role := "admin"; rb_route := "users" |}];
    group_rbac := []; jwt := JwtConfig_default; oauth2 := OAuth2Config_default;
    openid_connect := OpenIdConnectConfig_default; mtls := MtlsConfig_default;
    subject_rbac := [] |} in
  let auth := {| ctx_mode := Jwt; ctx_roles := ["reader"]; ctx_groups := [];
                 ctx_subject := None; ctx_route_name := "users" |} in
  assert (negb (authorize cfg auth)).

Definition enforces_group_rbac : test :=
  let cfg := {|
    enabled_modes := [Jwt]; rbac := [];
    group_rbac := [{| gb_group := "platform"; gb_route := "users" |}];
    jwt := JwtConfig_default; oauth2 := OAuth2Config_default;
    openid_connect := OpenIdConnectConfig_default; mtls := MtlsConfig_default;
    subject_rbac := [] |} in
  let auth := {| ctx_mode := Jwt; ctx_roles := []; ctx_groups := ["platform"];
                 ctx_subject := None; ctx_route_name := "users" |} in
  assert (authorize cfg auth).

Definition enforces_route_subject_binding : test :=
  let cfg := {|
    enabled_modes := [Mtls]; rbac := []; group_rbac := []; jwt := JwtConfig_default;
    oauth2 := OAuth2Config_default; openid_connect := OpenIdConnectConfig_default;
    mtls := MtlsConfig_default;
    subject_rbac := [{| sb_subject := "CN=svc-a"; sb_route := "users" |}] |} in
  let auth := {| ctx_mode := Mtls; ctx_roles := []; ctx_groups := [];
                 ctx_subject := Some "CN=svc-a"; ctx_route_name := "users" |} in
  assert (authorize cfg auth).

Definition authenticates_mtls_identity_from_headers `{!JwtOps tree_json} : test :=
  let cfg := {|
    enabled_modes := [Mtls]; rbac := []; group_rbac := []; jwt := JwtConfig_default;
    oauth2 := OAuth2Config_default; openid_connect := OpenIdConnectConfig_default;
    mtls := {| subject_header := "x-client-subject"; roles_header := "x-client-roles";
               groups_header := "x-client-groups"; allowed_subjects := ["CN=svc-a"] |};
    subject_rbac := [] |} in
  headers ← main.with_header hm_new "x-client-subject" "CN=svc-a";
  headers ← main.with_header headers "x-client-roles" "admin,writer";
  headers ← main.with_header headers "x-client-groups" "platform,ops";
  identity ← expect (authenticate cfg headers);
  _ ← assert_eq (id_mode identity) Mtls;
  _ ← assert_eq (id_subject identity) (Some "CN=svc-a");
  _ ← assert_eq (id_roles identity) ["admin"; "writer"];
  assert_eq (id_groups identity) ["platform"; "ops"].

(** Tokens: [encode claims secret] with the default header, and the Unix time
    in seconds that the test reads to set the expiry. *)
Section tokens.
Context `{!JwtOps tree_json} (encode : json_tree → string → option string) (now : Z).

(** The request that carries a token. *)
Definition bearer_headers (token : string) : option HeaderMap :=
  main.with_header hm_new "authorization" ("Bearer " +:+ token).

Definition jwt_claims : json_tree :=
  JObject [("roles", JArray [JString "admin"]); ("exp", JNumber (now + 3600))].

Definition authenticates_valid_jwt : test :=
  token ← encode jwt_claims "secret";
  let cfg := {|
    enabled_modes := [Jwt]; rbac := []; group_rbac := [];
    jwt := {| jwt_secret := "secret"; jwt_roles_claim := "roles"; jwt_groups_claim := "groups" |};
    oauth2 := OAuth2Config_default; openid_connect := OpenIdConnectConfig_default;
    mtls := MtlsConfig_default; subject_rbac := [] |} in
  headers ← bearer_headers token;
  identity ← expect (authenticate cfg headers);
  _ ← assert_eq (id_mode identity) Jwt;
  assert_eq (id_roles identity) ["admin"].

Definition oauth2_claims : json_tree :=
  JObject [("scope", JString "read write"); ("groups", JArray [JString "engineering"]);
           ("iss", JString "https://issuer.example"); ("aud", JString "gateway-api");
           ("exp", JNumber (now + 3600))].

Definition authenticates_valid_oauth2_token : test :=
  token ← encode oauth2_claims "oauth-secret";
  let cfg := {|
    enabled_modes := [OAuth2]; rbac := []; group_rbac := []; jwt := JwtConfig_default;
    oauth2 := {| oauth2_secret := "oauth-secret"; oauth2_issuer := "https://issuer.example";
                 oauth2_audience := "gateway-api"; oauth2_roles_claim := "scope";
                 oauth2_groups_claim := "groups" |};
    openid_connect := OpenIdConnectConfig_default; mtls := MtlsConfig_default;
    subject_rbac := [] |} in
  headers ← bearer_headers token;
  identity ← expect (authenticate cfg headers);
  _ ← assert_eq (id_mode identity) OAuth2;
  _ ← assert_eq (id_roles identity) ["read"; "write"];
  assert_eq (id_groups identity) ["engineering"].

Definition oidc_claims : json_tree :=
  JObject [("roles", JArray [JString "admin"]); ("groups", JArray [JString "sre"]);
           ("iss", JString "https://idp.example"); ("aud", JString "gateway-api");
           ("exp", JNumber (now + 3600))].

Definition authenticates_valid_openid_connect_token : test :=
  token ← encode oidc_claims "oidc-secret";
  let cfg := {|
    enabled_modes := [OpenIdConnect]; rbac := []; group_rbac := []; jwt := JwtConfig_default;
    oauth2 := OAuth2Config_default;
    openid_connect := {| oidc_secret := "oidc-secret"; oidc_issuer := "https://idp.example";
                         oidc_audience := "gateway-api"; oidc_roles_claim := "roles";
                         oidc_groups_claim := "groups" |};
    mtls := MtlsConfig_default; subject_rbac := [] |} in
  headers ← bearer_headers token;
  identity ← expect (authenticate cfg headers);
  _ ← assert_eq (id_mode identity) OpenIdConnect;
  _ ← assert_eq (id_roles identity) ["admin"];
  assert_eq (id_groups identity) ["sre"].

Definition fallback_claims : json_tree :=
  JObject [("scope", JString "read"); ("exp", JNumber (now + 3600))].

Definition falls_back_to_later_enabled_auth_mode : test :=
  token ← encode fallback_claims "oauth-secret";
  let cfg := {|
    enabled_modes := [Jwt; OAuth2]; rbac := []; group_rbac := [];
    jwt := {| jwt_secret := ""; jwt_roles_claim := "roles"; jwt_groups_claim := "groups" |};
    oauth2 := {| oauth2_secret := "oauth-secret"; oauth2_issuer := ""; oauth2_audience := "";
                 oauth2_roles_claim := "scope"; oauth2_groups_claim := "groups" |};
    openid_connect := OpenIdConnectConfig_default; mtls := MtlsConfig_default;
    subject_rbac := [] |} in
  headers ← bearer_headers token;
  identity ← expect (authenticate cfg headers);
  _ ← assert_eq (id_mode identity) OAuth2;
  assert_eq (id_roles identity) ["read"].

(** What the library documents of a verified token: [decode] at the Unix time
    [at_time] returns the claims that [encode] signed with the same secret,
    when the token has not expired and its issuer and audience are the expected
    ones. *)
Definition string_claim (claims : json_tree) (name : string) : option string :=
  j ← json_get claims name; json_as_str j.

Definition signed_tokens_verify (at_time : Z) : Prop :=
  ∀ claims secret token expiry,
    encode claims secret = Some token → json_get claims "exp" = Some (JNumber expiry) →
    (at_time < expiry)%Z →
    jwt_decode token secret (string_claim claims "iss") (string_claim claims "aud") = Ok claims.

(** The four tests of bearer tokens. *)
Definition token_tests : list test :=
  [authenticates_valid_jwt; authenticates_valid_oauth2_token;
   authenticates_valid_openid_connect_token; falls_back_to_later_enabled_auth_mode].

Definition tokens_encode : Prop :=
  is_Some (encode jwt_claims "secret") ∧ is_Some (encode oauth2_claims "oauth-secret") ∧
  is_Some (encode oidc_claims "oidc-secret") ∧ is_Some (encode fallback_claims "oauth-secret").

Lemma bearer_headers_token token :
  ∃ headers, bearer_headers token = Some headers ∧ bearer_token headers = Some token.
Proof.
  eexists. split; [reflexivity|]. unfold bearer_token. cbn [hm_get_str name_from_bytes]. simpl.
  by apply strip_prefix_spec.
Qed.

Lemma no_secret headers iss aud msg :
  decode_token_claims headers "" iss aud msg = Err "token secret is not configured".
Proof. done. Qed.

(** The claims that [authenticate] sees in such a request. *)
Lemma bearer_claims at_time claims secret token expiry iss aud msg headers :
  signed_tokens_verify at_time → encode claims secret = Some token →
  json_get claims "exp" = Some (JNumber expiry) → (at_time < expiry)%Z →
  iss = string_claim claims "iss" → aud = string_claim claims "aud" →
  secret ≠ "" → bearer_token headers = Some token →
  decode_token_claims headers secret iss aud msg = Ok claims.
Proof.
  intros Hd He Hexp Hlt -> -> Hs Hb. unfold decode_token_claims.
  apply is_empty_false in Hs. rewrite Hs, Hb. simpl. by rewrite (Hd _ _ _ _ He Hexp Hlt).
Qed.
End tokens.
End security.

(** ** Theorems *)

(** The tests that depend on nothing but the code, in the order of the files. *)
Definition plain_tests (p : profile) : list test :=
  [balancer.picks_weighted_round_robin p; balancer.picks_weighted_least_connections p;
   balancer.hash_requires_key p; config.rejects_unknown_upstream_reference;
   main.detects_grpc_protocol_from_http2_content_type;
   main.keeps_http2_protocol_without_grpc_content_type;
   main.detects_grpc_protocol_from_base_media_type;
   main.keeps_http1_protocol_even_with_grpc_content_type;
   main.detects_grpc_protocol_with_content_type_parameters;
   main.detects_grpc_protocol_case_insensitively; observability.renders_prometheus_metrics;
   plugin.short_circuits_on_denied_plugin; plugin.executes_plugins_in_phase_order_matrix;
   plugin.rejects_invalid_capability_name; plugin.wasm_capabilities_align_with_expected_matrix;
   resilience.target_keys_are_stable; resilience.retry_policy_is_idempotent_aware;
   router.matches_longest_path_prefix; router.enforces_protocol;
   router.traffic_split_defaults_to_disabled_canary; security.denies_disabled_auth_mode;
   security.enforces_route_rbac; security.enforces_group_rbac;
   security.enforces_route_subject_binding; wasm_abi.abi_version_is_set].

Lemma plain_tests_pass p : Forall (λ t, passes t) (plain_tests p).
Proof. destruct p; repeat constructor; vm_compute; reflexivity. Qed.

Lemma mtls_test_passes `{!JwtOps tree_json} : passes security.authenticates_mtls_identity_from_headers.
Proof. vm_compute. reflexivity. Qed.

(** A call's text, whatever the escapes of other strings. *)
Lemma wasm_call_test_passes `{JsonEscapeLaws} : passes wasm_abi.serializes_wasm_call.
Proof.
  unfold wasm_abi.serializes_wasm_call. cbv zeta.
  let j := eval vm_compute in
    (ser WasmCall_codec (WasmCall_new Access "jwt_auth" [ReadHeaders] [1; 2; 3]%Z)) in
    change (ser WasmCall_codec _) with j.
  cbn -[json_string String.append contains show_int]. unfold json_string. repeat (rewrite escape_plain by reflexivity). vm_compute. reflexivity.
Qed.

(** The wasm stub is found wherever the temporary directory is. *)
Lemma wasm_test_passes `{ContextJson} temp_dir path_exists :
  passes (plugin.validates_wasm_plugin_schema_and_runtime_contract temp_dir path_exists).
Proof.
  unfold plugin.validates_wasm_plugin_schema_and_runtime_contract.
  set (stub := temp_dir +:+ _). set (exists_now := λ path, bool_decide (path = stub) || _).
  match goal with |- context [from_config _ ?cfgs] => set (configs := cfgs) end.
  pose proof (from_config_spec exists_now configs) as Hf.
  destruct (from_config exists_now configs) as [[m|e] log]; [done|].
  destruct Hf as [[] _]. split; [apply NoDup_singleton|]. constructor; [|done].
  split; try done; [by repeat constructor..|].
  intros _. exists stub. split; [done|]. unfold exists_now. by rewrite bool_decide_eq_true_2.
Qed.

(** Run a token test to its [authenticate], decode the token and evaluate. *)
Ltac token_test Hencode Hheaders :=
  rewrite Hencode; cbn [mbind option_bind]; rewrite Hheaders;
  cbn [mbind option_bind]; unfold authenticate; cbn -[decode_token_claims];
  rewrite ?security.no_secret; cbn -[decode_token_claims];
  erewrite security.bearer_claims
    by (first [exact Hencode|eassumption|reflexivity|done]);
  vm_compute; reflexivity.

Lemma duration_self t : duration_since t t = 0%Z.
Proof. unfold duration_since. lia. Qed.

Lemma assert_eq_bool b c : assert_eq b c = if Bool.eqb b c then Some () else None.
Proof. by destruct b, c. Qed.

(** Evaluate a test on symbolic clock readings: compute what is closed, and
    stop at the comparisons of a window with an elapsed time. *)
Ltac test_cbn :=
  cbn -[Z.leb duration_since rule_window insert lookup add_uint scope_key from_millis].
Ltac closed_comparison :=
  match goal with
  | |- context [add_uint ?p 64 ?a ?b] =>
      let c := eval vm_compute in (a + b)%Z in
      replace (add_uint p 64 a b) with (Done c : outcome Z) by (symmetry; by apply add_uint_done)
  | |- context [(?a <=? ?b)%Z] =>
      let c := eval vm_compute in (a <=? b)%Z in
      match c with
      | true => change (a <=? b)%Z with true
      | false => change (a <=? b)%Z with false
      end
  | |- context [(?a <? ?b)%Z] =>
      let c := eval vm_compute in (a <? b)%Z in
      match c with
      | true => change (a <? b)%Z with true
      | false => change (a <? b)%Z with false
      end
  | E : (rule_window _ <=? ?d)%Z = _ |- context [(rule_window _ <=? ?d)%Z] => rewrite E
  end.
Ltac run_test :=
  repeat (progress (test_cbn; unfold stage_rule;
    rewrite ?lookup_empty, ?lookup_insert_eq, ?lookup_insert_ne, ?duration_self, ?assert_eq_bool
      by (by vm_compute);
    repeat closed_comparison)).
(** Every outcome of the comparisons that are left. *)
Ltac limiter_cases :=
  unfold rate_limit.assert_check, check_with_context; run_test;
  repeat (match goal with
          | |- context [(rule_window ?r <=? ?d)%Z] => destruct (rule_window r <=? d)%Z eqn:?
          end; run_test);
  unfold rule_window, from_secs, duration_since in *; cbn [rule_window_seconds] in *.

Lemma circuit_test t0 t1 t2 t3 :
  passes (resilience.circuit_opens_and_recovers t0 t1 t2 t3) ↔
  (duration_since t1 t0 < from_millis 1 ≤ duration_since t2 t0)%Z.
Proof.
  unfold resilience.circuit_opens_and_recovers, record_failure, record_success, is_available.
  rewrite !entry_set_entry, !decide_True, entry_new by done.
  replace (target_failure _ _ _ _) with
    {| active_healthy := true; passive_healthy := false; consecutive_failures := 1;
       consecutive_successes := 0; breaker_failures := 1; circuit_state := Open t0 |} by done.
  unfold target_available. test_cbn. change (from_millis 1) with 1000000%Z.
  destruct (1000000 <=? duration_since t1 t0)%Z eqn:E1,
    (1000000 <=? duration_since t2 t0)%Z eqn:E2;
    test_cbn; rewrite ?E1, ?E2; test_cbn; rewrite ?E2; cbn; split; intros; try done; zsolve.
Qed.

Lemma fixed_window_test p t0 t1 t2 :
  passes (rate_limit.fixed_window_resets_after_window p t0 t1 t2) ↔
  (duration_since t1 t0 < from_secs 1 ≤ duration_since t2 t0)%Z.
Proof.
  unfold rate_limit.fixed_window_resets_after_window. limiter_cases;
    split; intros; try done; zsolve.
Qed.

Lemma consumer_quota_test p t0 t1 t2 :
  passes (rate_limit.scoped_consumer_quota_is_enforced p t0 t1 t2).
Proof. unfold rate_limit.scoped_consumer_quota_is_enforced. by limiter_cases. Qed.

Lemma combined_limits_test p t0 t1 t2 :
  (t0 ≤ t1 ≤ t2)%Z →
  passes (rate_limit.scoped_route_and_service_limits_are_combined p t0 t1 t2) ↔
  (t2 - t0 < from_secs 60)%Z.
Proof.
  intros. unfold rate_limit.scoped_route_and_service_limits_are_combined. limiter_cases;
    split; intros; try done; zsolve.
Qed.

(** The token bucket in floating point: an uninterrupted run passes, and a
    second between the last two checks refills a token. *)
Example token_bucket_test p :
  passes (rate_limit.token_bucket_enforces_capacity p 0 300 900).
Proof. destruct p; vm_compute; reflexivity. Qed.
Example token_bucket_test_refilled p :
  rate_limit.token_bucket_enforces_capacity p 0 300 1000000000 = None.
Proof. destruct p; vm_compute; reflexivity. Qed.

(** ** Properties *)

(** The tests of bearer tokens pass by what the token library documents.
    If [encode] produces the four tokens and [decode], called within the hour
    the tokens are valid, returns the claims that were signed, then the JWT,
    OAuth2 and OpenID Connect tests and the fallback to a later mode pass. *)
Theorem token_tests_pass `{!JwtOps tree_json} encode now at_time :
  security.signed_tokens_verify encode at_time → security.tokens_encode encode now →
  (at_time < now + 3600)%Z →
  Forall (λ t, passes t) (security.token_tests encode now).
Proof.
  intros Hd ([t1 H1] & [t2 H2] & [t3 H3] & [t4 H4]) Hlt.
  pose proof (security.bearer_headers_token t1) as (h1 & E1 & B1).
  pose proof (security.bearer_headers_token t2) as (h2 & E2 & B2).
  pose proof (security.bearer_headers_token t3) as (h3 & E3 & B3).
  pose proof (security.bearer_headers_token t4) as (h4 & E4 & B4).
  repeat constructor.
  - unfold security.authenticates_valid_jwt. token_test H1 E1.
  - unfold security.authenticates_valid_oauth2_token. token_test H2 E2.
  - unfold security.authenticates_valid_openid_connect_token. token_test H3 E3.
  - unfold security.falls_back_to_later_enabled_auth_mode. token_test H4 E4.
Qed.

(** A service that issues the four tokens of the tests at time zero. *)
Definition issued : list (json_tree * string * string) :=
  [(security.jwt_claims 0, "secret", "t1"); (security.oauth2_claims 0, "oauth-secret", "t2");
   (security.oidc_claims 0, "oidc-secret", "t3"); (security.fallback_claims 0, "oauth-secret", "t4")].

Fixpoint json_tree_eq_dec (x y : json_tree) : {x = y} + {x ≠ y}.
Proof.
  decide equality; [apply Bool.bool_dec|apply Z.eq_dec|apply String.string_dec..|apply (List.list_eq_dec json_tree_eq_dec)|].
  apply List.list_eq_dec. decide equality. apply String.string_dec.
Defined.

Definition issue (claims : json_tree) (secret : string) : option string :=
  snd <$> find_first (λ t, (if json_tree_eq_dec t.1.1 claims then true else false)
                           && String.eqb t.1.2 secret) issued.
Definition verify : @JwtOps tree_json := λ token secret _ _,
  match find_first (λ t, String.eqb t.2 token && String.eqb t.1.2 secret) issued with
  | Some t => Ok t.1.1
  | None => Err "InvalidSignature"
  end.

Lemma verify_issued : @security.signed_tokens_verify verify issue 0.
Proof.
  intros claims secret token expiry He _ _. unfold issue in He.
  destruct (find_first _ issued) as [t|] eqn:Ef; [|done]. injection He as <-.
  apply List.find_some in Ef as [Hin [Hc Hs]%andb_true_iff].
  destruct (json_tree_eq_dec t.1.1 claims) as [<-|]; [|done]. apply String.eqb_eq in Hs as <-.
  repeat (destruct Hin as [<-|Hin]; [reflexivity|]). done.
Qed.

Lemma token_tests_pass_witness :
  Forall (λ t, passes t) (@security.token_tests verify issue 0).
Proof.
  apply (@token_tests_pass verify issue 0 0).
  - exact verify_issued.
  - repeat split; vm_compute; eauto.
  - lia.
Defined.

(** Which delays the timed tests tolerate.  With clock readings in order,
    the circuit-breaker test passes exactly when less than a millisecond lies
    between the recorded failure and the next check, and at least one between
    the failure and the check after the sleep; the fixed-window test exactly
    when the first two checks are less than a second apart and the third is at
    least a second after the first; the route and service test exactly when
    its three checks lie within a minute; and the quota test always. *)
Theorem timed_tests_pass p t0 t1 t2 t3 :
  (t0 ≤ t1 ≤ t2)%Z →
  (passes (resilience.circuit_opens_and_recovers t0 t1 t2 t3) ↔
    (t1 - t0 < from_millis 1 ≤ t2 - t0)%Z) ∧
  (passes (rate_limit.fixed_window_resets_after_window p t0 t1 t2) ↔
    (t1 - t0 < from_secs 1 ≤ t2 - t0)%Z) ∧
  (passes (rate_limit.scoped_route_and_service_limits_are_combined p t0 t1 t2) ↔
    (t2 - t0 < from_secs 60)%Z) ∧
  passes (rate_limit.scoped_consumer_quota_is_enforced p t0 t1 t2).
Proof.
  intros H. rewrite circuit_test, fixed_window_test, combined_limits_test by done.
  replace (duration_since t1 t0) with (t1 - t0)%Z by (unfold duration_since; lia).
  replace (duration_since t2 t0) with (t2 - t0)%Z by (unfold duration_since; lia).
  split_and!; [done..|apply consumer_quota_test].
Qed.

(** A thread that is descheduled for a millisecond fails the circuit test. *)
Lemma timed_tests_pass_witness :
  ¬ passes (resilience.circuit_opens_and_recovers 0 1000000 3000000 4000000) ∧
  passes (rate_limit.fixed_window_resets_after_window Debug 0 1000000 1101000000).
Proof.
  destruct (timed_tests_pass Debug 0 1000000 3000000 4000000 ltac:(lia)) as [Hc _].
  destruct (timed_tests_pass Debug 0 1000000 1101000000 1101000000 ltac:(lia)) as (_ & Hf & _).
  split.
  - intros [Ht _]%Hc. by vm_compute in Ht.
  - apply Hf. by vm_compute.
Defined.
